(* ===== verification/_CoqProject ===== *)
-Q . S2P
Prelude.v
Text.v
Format.v
Json.v
Url.v
IdTokenPolicy.v
Model.v
Layout.v
Resolver.v
Store.v
Dynamo.v
Aws.v
Seal.v
Prog.v
Effects.v
RefreshHandle.v
Rotation.v
RotationSafety.v
RotationSeq.v
Requests.v
Jwt.v
Web.v
Flows.v
Grants.v
Router.v
OutboundSafety.v
CredentialSafety.v
KeysSafety.v
CodeSafety.v
DiscoverySafety.v
CodeOrigin.v
AdmissionSafety.v
AssertionSafety.v
TokenSafety.v
Scenario.v
SharedKey.v
KubeMapping.v
Kube.v
KubeSafety.v
KubeContract.v
KubeSweep.v
Config.v
Schema.v
SchemaAccepts.v
Secrets.v
Providers.v
KubeProvider.v
Process.v
Startup.v
Service.v
