(* ===== verification/Prelude.v ===== *)
(** * oauthrelay: a verification library

    oauthrelay (crates/ of the repository) is an OAuth 2.0 / OpenID Connect relay: relying parties
    talk to a _relay_, which holds the credentials of an _upstream_ identity provider and forwards
    the authorization-code and refresh-token flows to it. This library models the relay's core in
    Rocq and proves what makes it correct.

    ** The program and its parts

    A request enters [dispatch] (router.rs), which asks the path layout (layout.rs) for an endpoint
    and a key, the resource resolver (resolver.rs) for the relay and its upstream (model.rs), and
    hands them to a handler. [authorize] seals a flow envelope into the [state] it sends upstream
    (seal.rs); [callback] opens it, exchanges the upstream's code, and seals the upstream's answer
    into the relying party's code; [token] authenticates the client, redeems that code or performs a
    refresh grant. Codes are single-use through the transient store (store.rs, and its DynamoDB and
    Kubernetes backends). ID tokens pass an admission policy (id_token_policy.rs). In the [sealed]
    and [rotating] modes refresh tokens are replaced by handles (refresh_handle.rs, rotation.rs), so
    the relying party never holds the upstream's token. Every outbound request is vetted by the
    embedder's policy (outbound.rs).

    The relays and upstreams come from _providers_ (files, SSM, Kubernetes objects). Each runs in a
    task of its own, compiles resource documents into a snapshot (config.rs) with secrets from where
    the documents say (oauthrelay-secret-resolver), and publishes it on a watch channel; the process
    (main.rs) merges the latest snapshots into the registry that [dispatch] resolves from.

    ** Files

    - [Prelude] (this file): [result] with the [?] operator as a notation, bytes, generic lemmas.
    - [Text], [Format], [Json], [Url]: Rust's string functions; its numbers and quoted strings as
      text; JSON values and the interface of serde_json;
      the interface of the url crate, with IP addresses, and a small executable instance.
    - [IdTokenPolicy]: id_token_policy.rs, the [stringLike] matcher as the loop it is and as a
      specification, matchers, evaluation, validation.
    - [Model]: model.rs, keys, origins, redirect matchers, relays, upstreams, their validation, the
      redirect and CORS decisions.
    - [Layout]: layout.rs, the contract of a path layout as a class and the default layout.
    - [Resolver]: resolver.rs, snapshots, validation, the ordered merge, the registry.
    - [Store]: store.rs, the contract of a transient store as a step relation ([spec_step]), what
      clients may rely on over whole histories, and the memory store as a refinement of it.
    - [Dynamo]: the DynamoDB store over the documented conditional writes, as a refinement. [Aws]:
      its client over the AWS SDK, with the condition language the requests are written in.
    - [KubeMapping], [Kube]: the Kubernetes store. Records as objects with their names, labels and
      times; the operations and sweeps over the client of an API server. [KubeSafety]: any number of
      replicas, sweepers and other clients whose requests interleave, get lost, are retried and
      arrive late. [KubeContract]: one replica's calls refine the contract. [KubeSweep]: sweeps
      collect every expired record.
    - [Seal]: seal.rs, the contract of a sealer and the two-key XChaCha20-Poly1305 sealer.
    - [Prog], [Effects]: effectful programs as trees of calls, with a rely-guarantee judgement for
      concurrent tasks, a weakest precondition and run logs; the calls of the refresh-token code.
    - [RefreshHandle]: refresh_handle.rs, bindings, sealed handles, token-response substitution.
    - [Rotation]: rotation.rs, every method of the rotator. [RotationSafety]: any number of
      concurrent requests. [RotationSeq]: what undisturbed requests achieve.
    - [Requests], [Jwt], [Web], [Flows], [Grants], [Router]: router.rs with outbound.rs. Request
      parsing and client credentials; the interface of jsonwebtoken; responses, outbound requests,
      cached documents, discovery and JWKS; authorize and callback; the token endpoint; dispatch.
    - [OutboundSafety], [CredentialSafety], [CodeSafety]: what every run of the handlers guarantees.
      [KeysSafety]: how often the keys of a client are fetched, under any interleaving.
      [DiscoverySafety]: what the discovery document says. [CodeOrigin]: where the code of a
      redemption comes from, over a history of HTTP requests. [AdmissionSafety]: which ID token a
      redemption needs. [AssertionSafety]: what an accepted client assertion has passed,
      and that it is used once. [TokenSafety]: any number of HTTP requests at a rotating relay,
      dispatched at once.
    - [Scenario]: the handlers run on one deployment, and the theorems applied to the runs.
      [SharedKey]: a relay and an upstream with one key, where a state can be redeemed as a code.
    - [Config]: config.rs and jwks.rs, the resource documents and their compilation into a
      snapshot, with the reads of secrets as calls.
    - [Schema], [SchemaAccepts]: schema.rs and the schema transforms of config.rs and
      id_token_policy.rs, with a validator of JSON schemas that says what they mean.
    - [Secrets]: the traits that resolve secrets and their implementations over reads of the
      environment, files, AWS and Kubernetes. [Providers]: the interface of a provider and its law,
      the file and the SSM provider. [KubeProvider]: the Kubernetes provider.
    - [Process]: the provider tasks, the channels, the updater and the refresh on Lambda, as
      interleaved tasks. [Startup]: the environment and everything [main] does before they run.
      [Service]: requests on the registry that the process keeps replacing.

    A Rust method [f] is the definition [f]; a handler that awaits is a [prog] whose nodes are the
    calls it awaits, in the source's order. Errors are values of [result], and an HTTP answer is a
    [Resp]. Third-party code is a class ([UrlLib], [JsonLib], [Aead], [Base64], [Sha256],
    [Postcard], [JwtLib], [FormLib], [HeaderLib], [TimeLib], [SelectorLib], [YamlLib]), with a
    second class of laws where a theorem relies on its documented behaviour, and a concrete instance
    that shows the laws can hold.

    ** What the theorems show

    - Rotation: two requests never give a handle two successors, whatever the interleaving, lost
      responses and faults; only handles leave, made of bytes that some request drew, and a body that
      is no JSON object spells no refresh token; both also of whole HTTP requests, through the
      router, with codes redeemed and upstreams asked in between. Polling ends; a refresh moves the
      family on, the family that the code grant started; a handle replayed after any such history, by
      a refresh that then runs undisturbed, revokes its family; a revoked family is refused.
    - The code flow: a redeemed code goes back, through a callback, to an authorization request for
      the same relay, redirect URI, challenge and nonce, in any history of requests whose envelopes
      are the relay's own, provided no relay has the key of an upstream. Then, what a redeemed code
      proves, that a callback is no open redirect, that a code is redeemed once in its lifetime and,
      at a relay with a policy, only with an ID token of the upstream that meets it, that no
      upstream refresh token leaves a relay that seals or rotates, but only what the run itself
      sealed for that relay or drew, and that no request escapes the outbound policy.
    - Upstreams and metadata: a request to an upstream carries that upstream's credentials and none
      of the client's; the discovery document is, member by member, what the relay does, and its
      endpoints lead back to the relay; the keys of a client are not fetched in bursts, however many
      requests ask for them at once and whichever of them are cancelled.
    - Handles and the sealer: a handle opens under its own binding only; substitution replaces every
      refresh token; fingerprints identify; keys rotate without losing what is sealed.
    - Stores: the memory, DynamoDB and Kubernetes stores refine the contract, and exclusivity
      follows from it; the memory store also when its callers wait for the mutex with earlier
      readings. Under any interleaving and any fault the Kubernetes store admits one writer per
      lifetime and one swap per value; its sweeper keeps up with what expires, as long as writers'
      clocks are not behind; the rest is left to the daily full pass.
    - Configuration: the glob matcher and policy evaluation equal their specifications; an accepted
      policy constrains something; redirects are safe, and development options only widen;
      validation accepts exactly the relays that are well-formed field by field; layouts round-trip
      and never alias. Compilation keeps every setting of every document, field by field, or fails;
      it reads a source once. The structural schema of a union accepts what the union accepted, and
      the schemas accept the same key sources and policy sections as compilation and validation do.
    - Providers: a secret is read where its own document says and nowhere else; a resource is served
      from its own path only; polling publishes every good load and keeps the last good snapshot;
      Kubernetes publishes synchronised views only, in which a relist is atomic and a relay's
      generation is its object's uid.
    - The process: the registry is valid in every reachable state, and requests are answered only
      when every provider has published and every relay passes the check of the redirect options;
      startup refuses keys, URLs, stores and durations that are not what they should be. A request
      sees valid relays and upstreams only, even when the registry is replaced between its lookups.
    - Client credentials: passwords are accepted exactly when they match, and Basic credentials
      round-trip through their double encoding. A client assertion that is for single use is
      accepted once while it is valid.

    ** Fuel and bounds

    Three loops are not structural. [glob] takes fuel from the lengths of pattern and subject and
    [glob_fuel_enough] shows it suffices. [poll] takes [poll_fuel] passes, the waiting time over the
    interval, and [polling_terminates] shows that it returns before they run out. The rotator's
    erasure follows at most [MAX_ERASE_HOPS] links in the source too. The sweeper's page loop follows
    the API server's continue tokens, which it trusts to end: its fuel is the number of pages, and
    [sweeper_keeps_up] needs no more than the records fill. The page loops of the providers likewise
    take a number of pages, and a load that is short of them is [None], which is not a result;
    [ssm_documents_at_their_paths] shows that it has then seen as many continuation tokens. Endless
    loops (providers, updater, invocations) are unrolled for any given number of passes.
    Integers of the sources are [Z] with their saturating, checked or wrapping operations written
    out ([is_u64], [saturating_add], [cast_u64]); durations are nanoseconds.

    ** Idealisations

    The keys of the sealer are secret: in a history ([CodeOrigin]), what opens was sealed by one of
    its requests. SHA-256 is collision-free and a random draw never repeats where a theorem says so.
    The AEAD is ideal: what opens was sealed, under the same key and associated data. DynamoDB
    applies a write once, so a retry of a write that was applied observes its own item. The memory
    store's callers read the clock before they take its lock, so that the readings need not come in
    its order: [memory_store_contract] says what holds then, and that the contract holds when they
    do. Building an HTTP request does not fail. Where a handler reads the clock twice to judge one
    token, the model may read it once. Log lines are left out.

    ** Not modelled

    Signature verification and key parsing (jsonwebtoken), the HTTP clients (reqwest, configured in
    http_client.rs), axum's routing and body collection, the YAML machinery of serde, deriving
    schemas (schemars) and wrapping them as resource definitions (kube, the [schema] and [crds]
    commands), and the AWS and Kubernetes SDKs are third-party or glue around them. Of main.rs the
    health routes, tracing, the listener and graceful shutdown are left out. The interval of
    [with_sweeper] is not modelled: a tick is a step that may come at any time. [try_join!] of the
    two lists of the Kubernetes provider is in sequence: the lists do not affect each other, only
    which of two errors is seen. *)

From stdpp Require Export prelude gmap strings list.
From Stdlib Require Export ZArith Lia.
From Stdlib Require Export Strings.Byte.
#[global] Set Default Goal Selector "!".

(** ** Results: Rust's [Result<T, E>], with the [?] operator as a notation *)

Inductive result (A E : Type) : Type :=
  | Ok (a : A)
  | Err (e : E).
Arguments Ok {A E} a.
Arguments Err {A E} e.

Definition is_ok {A E} (r : result A E) : bool :=
  match r with Ok _ => true | Err _ => false end.

Definition map_err {A E F} (f : E -> F) (r : result A E) : result A F :=
  match r with Ok a => Ok a | Err e => Err (f e) end.

Definition res_bind {A B E} (r : result A E) (k : A -> result B E) : result B E :=
  match r with Ok a => k a | Err e => Err e end.

(** [Result::ok] *)
Definition ok {A E} (r : result A E) : option A := match r with Ok a => Some a | Err _ => None end.

(** [.with_context(|| context)] *)
Definition context {A} (c : string) (r : result A string) : result A string :=
  map_err (fun e => c +:+ ": " +:+ e) r.

Definition ok_or {A E} (o : option A) (e : E) : result A E :=
  match o with Some a => Ok a | None => Err e end.

Declare Scope relay_scope.
Delimit Scope relay_scope with relay.

(** [x <-? r ;; k] is [let x = r?; k]. *)
Notation "x <-? r ;; k" := (res_bind r (fun x => k))
  (at level 60, r at next level, right associativity) : relay_scope.
(** [check b else e ;; k] is [if !b { return Err(e) } k]. *)
Notation "'ensure' b 'else' e ;; k" := (if b then k else Err e)
  (at level 60, b at next level, e at next level, right associativity) : relay_scope.

Lemma res_bind_ok {A B E} (r : result A E) (k : A -> result B E) b :
  res_bind r k = Ok b <-> exists a, r = Ok a /\ k a = Ok b.
Proof. destruct r; simpl; naive_solver. Qed.

Lemma ensure_ok {A E} (b : bool) (e : E) (k : result A E) a : (if b then k else Err e) = Ok a <-> b = true /\ k = Ok a.
Proof. destruct b; naive_solver. Qed.

Lemma refuse_ok {A E} (b : bool) (e : E) (k : result A E) a : (if b then Err e else k) = Ok a <-> b = false /\ k = Ok a.
Proof. destruct b; naive_solver. Qed.

#[export] Instance result_eq_dec {A E} `{EqDecision A, EqDecision E} : EqDecision (result A E).
Proof. solve_decision. Defined.

(** ** Bytes *)

Notation bytes := (list Byte.byte).

#[export] Instance byte_eq_dec : EqDecision Byte.byte := Byte.byte_eq_dec.

Definition into_bytes (s : string) : bytes := String.list_byte_of_string s.
Definition from_bytes (b : bytes) : string := String.string_of_list_byte b.

Lemma from_into_bytes s : from_bytes (into_bytes s) = s.
Proof. apply String.string_of_list_byte_of_string. Qed.

Lemma into_from_bytes b : into_bytes (from_bytes b) = b.
Proof. apply String.list_byte_of_string_of_list_byte. Qed.

#[export] Instance into_bytes_inj : Inj (=) (=) into_bytes.
Proof. intros s t Heq. by rewrite <-(from_into_bytes s), Heq, from_into_bytes. Qed.

(** ** Unsigned 64-bit arithmetic *)

Definition u64_max : Z := 2 ^ 64 - 1.
Definition is_u64 (x : Z) : Prop := (0 <= x <= u64_max)%Z.
Definition saturating_add (a b : Z) : Z := Z.min (a + b) u64_max.
Definition saturating_sub (a b : Z) : Z := Z.max (a - b) 0.
Definition saturating_mul (a b : Z) : Z := Z.min (a * b) u64_max.

(** ** Durations: [std::time::Duration] in nanoseconds *)

Definition Duration : Type := Z.
Definition from_millis (ms : Z) : Duration := (ms * 1000000)%Z.
Definition from_secs (s : Z) : Duration := (s * 1000000000)%Z.
Definition as_millis (d : Duration) : Z := (d / 1000000)%Z.
(** [as u64] *)
Definition cast_u64 (x : Z) : Z := (x mod 2 ^ 64)%Z.

(** ** Automation shared by every component *)

(** Case analysis on every [match] and [if] scrutinee of the goal. *)
Ltac case_match_goal :=
  repeat (case_match; simplify_eq/=; try done).

(** Turns boolean hypotheses and goals into propositions. *)
Ltac reflect :=
  repeat match goal with
  | H : _ && _ = true |- _ => apply andb_true_iff in H as [? ?]
  | H : _ || _ = false |- _ => apply orb_false_iff in H as [? ?]
  | H : negb _ = true |- _ => apply negb_true_iff in H
  | H : negb _ = false |- _ => apply negb_false_iff in H
  | H : bool_decide _ = true |- _ => apply bool_decide_eq_true in H
  | H : bool_decide _ = false |- _ => apply bool_decide_eq_false in H
  | H : Is_true _ |- _ => apply Is_true_eq_true in H
  | H : (_ =? _)%Z = true |- _ => apply Z.eqb_eq in H
  | H : (_ =? _)%Z = false |- _ => apply Z.eqb_neq in H
  | H : (_ <? _)%Z = true |- _ => apply Z.ltb_lt in H
  | H : (_ <? _)%Z = false |- _ => apply Z.ltb_ge in H
  | H : (_ <=? _)%Z = true |- _ => apply Z.leb_le in H
  | H : (_ <=? _)%Z = false |- _ => apply Z.leb_gt in H
  | |- _ && _ = true => apply andb_true_iff; split
  | |- negb _ = true => apply negb_true_iff
  | |- bool_decide _ = true => apply bool_decide_eq_true
  | |- bool_decide _ = false => apply bool_decide_eq_false
  end; simplify_eq/=.

Create HintDb relay discriminated.
#[export] Hint Rewrite from_into_bytes into_from_bytes : relay.

(** ** Lists *)

Lemma existsb_elem {A} (f : A -> bool) l :
  existsb f l = true <-> exists x, x ∈ l /\ f x = true.
Proof.
  rewrite existsb_exists. split; intros (x & Hx & Hf); exists x;
    rewrite ?list_elem_of_In in *; done.
Qed.

Lemma forallb_elem {A} (f : A -> bool) l :
  forallb f l = true <-> forall x, x ∈ l -> f x = true.
Proof.
  rewrite forallb_forall. by setoid_rewrite list_elem_of_In.
Qed.

(** A separator that occurs in neither prefix splits equal lists at the same place. *)
Lemma sep_inj {A} (c : A) a b x y :
  c ∉ a -> c ∉ b -> (a ++ c :: x = b ++ c :: y)%list -> a = b /\ x = y.
Proof.
  revert b. induction a as [|d a IH]; intros [|e b]; simpl; rewrite ?not_elem_of_cons; intros Ha Hb Heq;
    simplify_eq; try naive_solver.
Qed.

Lemma app_inj_length {A} (a b x y : list A) :
  length a = length b -> (a ++ x = b ++ y)%list -> a = b /\ x = y.
Proof. intros Hl Heq. by apply app_inj_1. Qed.
