(* ===== verification/Text.v ===== *)
(** * Text: the parts of [str] the relay uses

    A Rust [&str] is a byte sequence, so it is a Rocq [string] (one [ascii] per byte). Each
    function below is the standard-library method of the same name, on the patterns the sources
    use (one character, or a fixed prefix or suffix). *)

From S2P Require Import Prelude.
From Stdlib Require Export Strings.Ascii.

#[local] Open Scope string_scope.
#[global] Arguments String.append : simpl nomatch.

(** ** Characters *)

Definition code (c : ascii) : nat := nat_of_ascii c.
Definition between (lo hi : nat) (c : ascii) : bool := ((lo <=? code c) && (code c <=? hi))%nat.
Definition is_digit (c : ascii) : bool := between 48 57 c.
Definition is_upper (c : ascii) : bool := between 65 90 c.
Definition is_lower (c : ascii) : bool := between 97 122 c.
(** [u8::is_ascii_alphanumeric] *)
Definition is_alphanumeric (c : ascii) : bool := is_digit c || is_upper c || is_lower c.
(** [u8::is_ascii_whitespace]: space, tab, line feed, form feed, carriage return. *)
Definition is_whitespace (c : ascii) : bool :=
  bool_decide (code c ∈ [32; 9; 10; 12; 13]%list).
(** [u8::is_ascii] *)
Definition is_ascii (c : ascii) : bool := (code c <=? 127)%nat.
Definition to_lower (c : ascii) : ascii :=
  if is_upper c then ascii_of_nat (code c + 32) else c.

(** ** Scanning *)

Fixpoint str_all (f : ascii -> bool) (s : string) : bool :=
  match s with
  | EmptyString => true
  | String c s => f c && str_all f s
  end.

Definition str_any (f : ascii -> bool) (s : string) : bool := negb (str_all (fun c => negb (f c)) s).

Definition is_empty (s : string) : bool := match s with EmptyString => true | _ => false end.

(** [str::contains] for a character. *)
Definition contains (c : ascii) (s : string) : bool := str_any (fun d => bool_decide (d = c)) s.

Fixpoint str_map (f : ascii -> ascii) (s : string) : string :=
  match s with
  | EmptyString => EmptyString
  | String c s => String (f c) (str_map f s)
  end.

Definition to_ascii_lowercase (s : string) : string := str_map to_lower s.
Definition eq_ignore_ascii_case (s t : string) : bool :=
  bool_decide (to_ascii_lowercase s = to_ascii_lowercase t).

Definition first (s : string) : option ascii :=
  match s with EmptyString => None | String c _ => Some c end.

Fixpoint last_char (s : string) : option ascii :=
  match s with
  | EmptyString => None
  | String c EmptyString => Some c
  | String _ s => last_char s
  end.

Definition starts_with (c : ascii) (s : string) : bool := bool_decide (first s = Some c).
Definition ends_with (c : ascii) (s : string) : bool := bool_decide (last_char s = Some c).

Fixpoint strip_prefix (p s : string) : option string :=
  match p, s with
  | EmptyString, _ => Some s
  | String a p, String b s => if bool_decide (a = b) then strip_prefix p s else None
  | String _ _, EmptyString => None
  end.

Fixpoint str_rev_onto (s acc : string) : string :=
  match s with
  | EmptyString => acc
  | String c s => str_rev_onto s (String c acc)
  end.
Definition str_rev (s : string) : string := str_rev_onto s EmptyString.

Definition strip_suffix (p s : string) : option string :=
  str_rev <$> strip_prefix (str_rev p) (str_rev s).

(** ** Splitting *)

(** [str::split] on a character: always at least one part. *)
Fixpoint split (c : ascii) (s : string) : list string :=
  match s with
  | EmptyString => [EmptyString]
  | String d s =>
      if bool_decide (d = c) then EmptyString :: split c s
      else match split c s with
           | part :: parts => String d part :: parts
           | [] => [String d EmptyString]
           end
  end.

(** [slice::join]. *)
Fixpoint join (c : ascii) (parts : list string) : string :=
  match parts with
  | [] => EmptyString
  | [part] => part
  | part :: parts => part +:+ String c (join c parts)
  end.

(** [str::find] of the first character satisfying [f], as the text before it and the text from it
    on ([None] when there is none). *)
Fixpoint break_at (f : ascii -> bool) (s : string) : string * string :=
  match s with
  | EmptyString => (EmptyString, EmptyString)
  | String c s' =>
      if f c then (EmptyString, s)
      else let '(before, from) := break_at f s' in (String c before, from)
  end.

(** [str::split_once] for a fixed pattern. *)
Fixpoint split_once (p s : string) : option (string * string) :=
  match strip_prefix p s with
  | Some rest => Some (EmptyString, rest)
  | None =>
      match s with
      | EmptyString => None
      | String c s => '(before, after) ← split_once p s; Some (String c before, after)
      end
  end.

(** [str::rsplit_once] on a character: at its last occurrence. *)
Fixpoint rsplit_once (c : ascii) (s : string) : option (string * string) :=
  match s with
  | EmptyString => None
  | String d s =>
      match rsplit_once c s with
      | Some (before, after) => Some (String d before, after)
      | None => if bool_decide (d = c) then Some (EmptyString, s) else None
      end
  end.

(** ** Trimming *)

Fixpoint trim_start (c : ascii) (s : string) : string :=
  match s with
  | String d s' => if bool_decide (d = c) then trim_start c s' else s
  | EmptyString => EmptyString
  end.
Definition trim_end (c : ascii) (s : string) : string := str_rev (trim_start c (str_rev s)).
Definition trim (c : ascii) (s : string) : string := trim_end c (trim_start c s).

(** ** Lemmas *)

Lemma str_app_nil_r s : s +:+ "" = s.
Proof. induction s as [|c s IH]; simpl; [done|by rewrite IH]. Qed.

Lemma str_app_assoc s t u : (s +:+ t) +:+ u = s +:+ (t +:+ u).
Proof. induction s as [|c s IH]; simpl; [done|by rewrite IH]. Qed.

Lemma str_app_length s t : String.length (s +:+ t) = String.length s + String.length t.
Proof. induction s as [|c s IH]; simpl; [done|by rewrite IH]. Qed.

#[export] Instance str_app_inj s : Inj (=) (=) (String.append s).
Proof. intros t u. induction s as [|c s IH]; simpl; intros; simplify_eq; auto. Qed.

Lemma str_all_app f s t : str_all f (s +:+ t) = str_all f s && str_all f t.
Proof. induction s as [|c s IH]; simpl; [done|by rewrite IH, andb_assoc]. Qed.

Lemma str_all_elem f s : str_all f s = true <-> forall c, c ∈ String.list_ascii_of_string s -> f c = true.
Proof.
  induction s as [|c s IH]; cbn [str_all String.list_ascii_of_string].
  - split; [by intros _ c ?%not_elem_of_nil|done].
  - rewrite andb_true_iff, IH. setoid_rewrite elem_of_cons. naive_solver.
Qed.

Lemma is_empty_false s : is_empty s = false <-> s <> "".
Proof. by destruct s. Qed.

Lemma str_all_weaken (f g : ascii -> bool) s :
  (forall c, f c = true -> g c = true) -> str_all f s = true -> str_all g s = true.
Proof.
  intros Hfg. induction s as [|c s IH]; simpl; intros; reflect; auto.
Qed.

Lemma contains_false c s :
  contains c s = false <-> str_all (fun d => bool_decide (d <> c)) s = true.
Proof.
  unfold contains, str_any. rewrite negb_false_iff.
  assert (str_all (λ d, negb (bool_decide (d = c))) s = str_all (λ d, bool_decide (d <> c)) s)
    as ->; [|done].
  induction s as [|d s IH]; simpl; [done|]. rewrite IH. f_equal.
  by case_bool_decide; case_bool_decide.
Qed.

Lemma strip_prefix_Some p s rest : strip_prefix p s = Some rest <-> s = p +:+ rest.
Proof.
  revert s; induction p as [|a p IH]; intros [|b s]; simpl; try naive_solver.
  case_bool_decide; subst; [rewrite IH|]; naive_solver.
Qed.

Lemma strip_prefix_app p s : strip_prefix p (p +:+ s) = Some s.
Proof. by apply strip_prefix_Some. Qed.

Lemma str_rev_onto_app s acc : str_rev_onto s acc = str_rev s +:+ acc.
Proof.
  unfold str_rev. revert acc; induction s as [|c s IH]; simpl; intros acc; [done|].
  by rewrite IH, (IH (String c "")), str_app_assoc.
Qed.

Lemma str_rev_cons c s : str_rev (String c s) = str_rev s +:+ String c "".
Proof. unfold str_rev at 1. simpl. by rewrite str_rev_onto_app. Qed.

Lemma str_rev_app s t : str_rev (s +:+ t) = str_rev t +:+ str_rev s.
Proof.
  induction s as [|c s IH]; simpl; [by rewrite str_app_nil_r|].
  by rewrite !str_rev_cons, IH, str_app_assoc.
Qed.

Lemma str_rev_involutive s : str_rev (str_rev s) = s.
Proof.
  induction s as [|c s IH]; [done|]. by rewrite str_rev_cons, str_rev_app, IH.
Qed.

#[export] Instance str_rev_inj : Inj (=) (=) str_rev.
Proof. intros s t Heq. by rewrite <-(str_rev_involutive s), Heq, str_rev_involutive. Qed.

Lemma strip_suffix_Some p s rest : strip_suffix p s = Some rest <-> s = rest +:+ p.
Proof.
  unfold strip_suffix. rewrite fmap_Some. setoid_rewrite strip_prefix_Some. split.
  - intros (r & Hr & ->). apply (inj str_rev).
    by rewrite Hr, str_rev_app, str_rev_involutive.
  - intros ->. exists (str_rev rest). by rewrite str_rev_app, str_rev_involutive.
Qed.

Lemma str_rev_first s : first (str_rev s) = last_char s.
Proof.
  induction s as [|c s IH]; [done|]. rewrite str_rev_cons. simpl.
  destruct s as [|d s]; [done|].
  destruct (str_rev (String d s)) as [|e t] eqn:E; [|by simpl in *; rewrite <-IH].
  apply (f_equal str_rev) in E. by rewrite str_rev_involutive in E.
Qed.

(** *** Splitting and joining *)

Lemma split_not_nil c s : split c s <> [].
Proof. destruct s as [|d s]; simpl; repeat case_match; done. Qed.

Lemma join_split c s : join c (split c s) = s.
Proof.
  induction s as [|d s IH]; [done|]. simpl.
  case_bool_decide; subst.
  - destruct (split c s) eqn:E; [by apply split_not_nil in E|]. simpl in *. by rewrite IH.
  - destruct (split c s) as [|p ps] eqn:E; [by apply split_not_nil in E|].
    destruct ps; simpl in *; by rewrite IH.
Qed.

Lemma split_no_sep c s p : p ∈ split c s -> contains c p = false.
Proof.
  setoid_rewrite contains_false.
  revert p; induction s as [|d s IH]; simpl; intros p Hp.
  - apply list_elem_of_singleton in Hp as ->. done.
  - destruct (split c s) as [|q qs] eqn:E; [by apply split_not_nil in E|].
    case_bool_decide; apply elem_of_cons in Hp as [->|Hp]; simpl; try done.
    + by apply IH.
    + rewrite (IH q) by set_solver. by rewrite bool_decide_eq_true_2.
    + apply IH. set_solver.
Qed.

Lemma split_app_sep c s t :
  contains c s = false -> split c (s +:+ String c t) = s :: split c t.
Proof.
  rewrite contains_false. induction s as [|d s IH]; simpl; intros Hs.
  - by rewrite bool_decide_eq_true_2.
  - reflect. rewrite IH by done. by case_bool_decide.
Qed.

Lemma split_single c s : contains c s = false -> split c s = [s].
Proof.
  rewrite contains_false. induction s as [|d s IH]; simpl; intros Hs; [done|].
  reflect. rewrite IH by done. by case_bool_decide.
Qed.

Lemma split_join c parts :
  parts <> [] -> Forall (fun p => contains c p = false) parts -> split c (join c parts) = parts.
Proof.
  induction parts as [|p [|q parts] IH]; [done| |]; intros _ Hp;
    apply Forall_cons in Hp as [Hp Hps]; [by apply split_single|].
  change (join c (p :: q :: parts)) with (p +:+ String c (join c (q :: parts))).
  rewrite split_app_sep by done. by rewrite IH.
Qed.

Lemma join_app c xs ys :
  xs <> [] -> ys <> [] -> join c (xs ++ ys) = join c xs +:+ String c (join c ys).
Proof.
  intros Hx Hy. induction xs as [|x [|x' xs] IH]; [done| |].
  - by destruct ys.
  - change (join c ((x :: x' :: xs) ++ ys)) with (x +:+ String c (join c ((x' :: xs) ++ ys))).
    rewrite IH by done. change (join c (x :: x' :: xs)) with (x +:+ String c (join c (x' :: xs))).
    by rewrite !str_app_assoc.
Qed.

(** *** Trimming *)

Lemma trim_start_id c s : first s <> Some c -> trim_start c s = s.
Proof. destruct s as [|d s]; simpl; [done|]. intros. case_bool_decide; naive_solver. Qed.

Lemma trim_end_id c s : last_char s <> Some c -> trim_end c s = s.
Proof.
  intros Hs. unfold trim_end.
  rewrite trim_start_id by (by rewrite str_rev_first). apply str_rev_involutive.
Qed.

Lemma trim_id c s : first s <> Some c -> last_char s <> Some c -> trim c s = s.
Proof. intros. unfold trim. by rewrite trim_start_id, trim_end_id. Qed.

Lemma trim_start_first c s : first (trim_start c s) <> Some c.
Proof. induction s as [|d s IH]; simpl; [done|]. case_bool_decide; naive_solver. Qed.

Lemma trim_end_last c s : last_char (trim_end c s) <> Some c.
Proof.
  unfold trim_end. rewrite <-str_rev_first, str_rev_involutive. apply trim_start_first.
Qed.

Lemma last_char_app s t : t <> "" -> last_char (s +:+ t) = last_char t.
Proof.
  intros Ht. induction s as [|c s IH]; [done|]. simpl.
  destruct (s +:+ t) as [|d u] eqn:E; [|done].
  destruct s, t; simplify_eq/=; done.
Qed.

Lemma last_char_Some c s : last_char s = Some c -> exists t, s = t +:+ String c "".
Proof.
  intros Hs. rewrite <-str_rev_first in Hs. exists (str_rev (match str_rev s with
    | EmptyString => "" | String _ t => t end)).
  apply (inj str_rev). rewrite str_rev_app, str_rev_involutive.
  destruct (str_rev s); by simplify_eq/=.
Qed.

Lemma split_app c s t : split c (s +:+ String c t) = (split c s ++ split c t)%list.
Proof.
  induction s as [|d s IH]; simpl; [by rewrite bool_decide_eq_true_2|].
  rewrite IH. case_bool_decide; [done|].
  destruct (split c s) as [|q qs] eqn:E; [by apply split_not_nil in E|done].
Qed.

Lemma split_ends_with c s : last_char s = Some c -> "" ∈ split c s.
Proof.
  intros [t ->]%last_char_Some. rewrite split_app. apply elem_of_app. right. by left.
Qed.

Lemma split_starts_with c s : first s = Some c -> "" ∈ split c s.
Proof.
  destruct s as [|d s]; simpl; [done|]. intros [= ->].
  rewrite bool_decide_eq_true_2 by done. by left.
Qed.

Lemma split_once_Some p s before after :
  split_once p s = Some (before, after) -> s = before +:+ p +:+ after.
Proof.
  revert before; induction s as [|c s IH]; intros before Hs; unfold split_once in Hs; fold split_once in Hs.
  - destruct (strip_prefix p "") eqn:E; [|done]. apply strip_prefix_Some in E. by simplify_eq/=.
  - destruct (strip_prefix p (String c s)) eqn:E.
    + apply strip_prefix_Some in E. by simplify_eq/=.
    + apply bind_Some in Hs as ([b a] & Hb & ?). simplify_eq. by rewrite (IH b).
Qed.

#[export] Hint Rewrite join_split str_app_assoc str_rev_involutive : relay.

(** ** Bytes of a string *)

Lemma into_bytes_cons c s : into_bytes (String c s) = byte_of_ascii c :: into_bytes s.
Proof. done. Qed.

Lemma into_bytes_app s t : into_bytes (s +:+ t) = (into_bytes s ++ into_bytes t)%list.
Proof.
  induction s as [|c s IH]; [done|].
  change (String c s +:+ t) with (String c (s +:+ t)). by rewrite !into_bytes_cons, IH.
Qed.

Lemma into_bytes_length s : length (into_bytes s) = String.length s.
Proof. induction s as [|c s IH]; [done|]. rewrite into_bytes_cons. cbn. by rewrite IH. Qed.

Lemma into_bytes_contains c s : contains c s = false -> byte_of_ascii c ∉ into_bytes s.
Proof.
  intros Hc%contains_false. induction s as [|d s IH].
  { apply not_elem_of_nil. }
  simpl in Hc. reflect. rewrite into_bytes_cons.
  apply not_elem_of_cons. split; [|by apply IH].
  intros Heq. apply (f_equal ascii_of_byte) in Heq. by rewrite !ascii_of_byte_of_ascii in Heq.
Qed.

(** ** UTF-8 *)

(** [std::str::from_utf8]: the bytes, when they are well-formed UTF-8. *)
Definition continuation (c : ascii) : bool := between 128 191 c.

Fixpoint valid_utf8 (s : string) : bool :=
  match s with
  | EmptyString => true
  | String c s =>
      if between 0 127 c then valid_utf8 s
      else match s with
      | EmptyString => false
      | String d s =>
          if between 194 223 c then continuation d && valid_utf8 s
          else match s with
          | EmptyString => false
          | String e s =>
              if between 224 239 c then
                (if (code c =? 224)%nat then between 160 191 d
                 else if (code c =? 237)%nat then between 128 159 d else continuation d)
                && continuation e && valid_utf8 s
              else match s with
              | EmptyString => false
              | String f s =>
                  between 240 244 c
                  && (if (code c =? 240)%nat then between 144 191 d
                      else if (code c =? 244)%nat then between 128 143 d else continuation d)
                  && continuation e && continuation f && valid_utf8 s
              end
          end
      end
  end.

Definition from_utf8 (b : bytes) : option string :=
  if valid_utf8 (from_bytes b) then Some (from_bytes b) else None.

Lemma ascii_utf8 s : str_all is_ascii s = true -> valid_utf8 s = true.
Proof. induction s as [|c s IH]; simpl; [done|]. intros [Hc Hs]%andb_true_iff. unfold is_ascii in Hc.
  unfold between. by rewrite Hc, IH. Qed.

Lemma from_utf8_into s : valid_utf8 s = true -> from_utf8 (into_bytes s) = Some s.
Proof. intros Hs. unfold from_utf8. by rewrite from_into_bytes, Hs. Qed.

Lemma from_utf8_Some b s : from_utf8 b = Some s -> s = from_bytes b.
Proof. unfold from_utf8. by destruct (valid_utf8 _); intros [= <-]. Qed.
