(* ===== verification/Format.v ===== *)
(** * Format: numbers and text as the standard library reads and prints them

    [str::parse] at [u64] and [bool], [{:?}] of a string and [to_string] of an integer, with the
    numerals [parse_u64] takes and what printing promises of them. *)

From S2P Require Import Prelude Text.
#[local] Open Scope string_scope.

(** ** The standard library's parsers *)

Fixpoint parse_digits (acc : Z) (s : string) : result Z string :=
  match s with
  | EmptyString => Ok acc
  | String c s =>
      if is_digit c then
        let acc := (acc * 10 + Z.of_nat (code c - 48))%Z in
        if (acc <=? u64_max)%Z then parse_digits acc s else Err "number too large to fit in target type"
      else Err "invalid digit found in string"
  end.

(** [str::parse::<u64>] *)
Definition parse_u64 (s : string) : result Z string :=
  match s with
  | EmptyString => Err "cannot parse integer from empty string"
  | String "+" EmptyString => Err "invalid digit found in string"
  | String "+" digits => parse_digits 0 digits
  | _ => parse_digits 0 s
  end.

(** [str::parse::<bool>] *)
Definition parse_bool_text (s : string) : result bool string :=
  if bool_decide (s = "true") then Ok true
  else if bool_decide (s = "false") then Ok false
  else Err "provided string was not `true` or `false`".

(** [{:?}] of a string; characters beyond ASCII are printable. *)
Definition hex_digit (n : nat) : ascii := ascii_of_nat (if (n <? 10)%nat then 48 + n else 87 + n).

Definition debug_char (c : ascii) : string :=
  match code c with
  | 0%nat => "\0"
  | 9%nat => "\t"
  | 10%nat => "\n"
  | 13%nat => "\r"
  | 34%nat => String "\" (String "034" "")
  | 92%nat => "\\"
  | n => if (n <? 32)%nat || (n =? 127)%nat
         then "\u{" +:+ (if (n <? 16)%nat then String (hex_digit n) "" else String (hex_digit (n / 16)) (String (hex_digit (n mod 16)) "")) +:+ "}"
         else String c ""
  end.

Fixpoint debug_chars (s : string) : string :=
  match s with EmptyString => "" | String c s => debug_char c +:+ debug_chars s end.

Definition debug (s : string) : string := String "034" (debug_chars s +:+ String "034" "").

(** [u64::to_string]: decimal, without leading zeroes. *)
Definition print_u64 (n : Z) : string := pretty.pretty n.

(** ** Lemmas *)

Fixpoint decimal (acc : Z) (digits : string) : Z :=
  match digits with
  | EmptyString => acc
  | String c s => decimal (acc * 10 + Z.of_nat (code c - 48))%Z s
  end.

Lemma decimal_mono acc s : (0 <= acc -> acc <= decimal acc s)%Z.
Proof.
  revert acc. induction s as [|c s IH]; intros acc Ha; simpl; [lia|].
  specialize (IH (acc * 10 + Z.of_nat (code c - 48))%Z). lia.
Qed.

Lemma parse_digits_Ok acc s v :
  (0 <= acc <= u64_max)%Z ->
  parse_digits acc s = Ok v <-> str_all is_digit s = true /\ v = decimal acc s /\ (v <= u64_max)%Z.
Proof.
  revert acc. induction s as [|c s IH]; intros acc Ha; simpl.
  { split; [intros [= <-]; split_and!; [done..|lia]|by intros (_ & -> & _)]. }
  destruct (is_digit c); simpl; [|naive_solver]. set (acc' := (acc * 10 + Z.of_nat (code c - 48))%Z).
  destruct (acc' <=? u64_max)%Z eqn:Hb.
  - apply IH. apply Z.leb_le in Hb. lia.
  - apply Z.leb_gt in Hb. split; [done|]. intros (_ & -> & Hle).
    pose proof (decimal_mono acc' s). lia.
Qed.

(** A number as [parse_u64] takes it. *)
Definition numeral (s digits : string) : Prop :=
  (s = digits \/ s = String "+" digits) /\ digits <> "" /\ str_all is_digit digits = true.

Lemma parse_u64_Ok s v :
  parse_u64 s = Ok v <-> exists digits, numeral s digits /\ v = decimal 0 digits /\ (v <= u64_max)%Z.
Proof.
  assert (0 <= 0 <= u64_max)%Z as H0 by (unfold u64_max; lia). unfold numeral. split.
  - unfold parse_u64. intros Hp. assert (forall digits, digits <> "" -> (s = digits \/ s = String "+" digits) ->
      parse_digits 0 digits = Ok v -> exists digits, ((s = digits \/ s = String "+" digits) /\ digits <> ""
        /\ str_all is_digit digits = true) /\ v = decimal 0 digits /\ (v <= u64_max)%Z) as Hd.
    { intros digits Hne Hs (Ha & Hv & Hle)%parse_digits_Ok; [|done]. exists digits. done. }
    destruct s as [|c s]; [done|]. destruct (decide (c = "+"%char)) as [->|Hc].
    + destruct s as [|c s]; [done|]. apply (Hd (String c s)); auto.
    + apply (Hd (String c s)); [done|by left|]. destruct c as [[] [] [] [] [] [] [] []]; try exact Hp. by destruct Hc.
  - intros (digits & (Hs & Hne & Ha) & Hv & Hle).
    assert (parse_digits 0 digits = Ok v) as Hp by by apply parse_digits_Ok.
    destruct Hs as [->| ->].
    + unfold parse_u64. destruct digits as [|c digits]; [done|].
      destruct c as [[] [] [] [] [] [] [] []]; try exact Hp. by simpl in Ha.
    + unfold parse_u64. by destruct digits.
Qed.

(** ** Printing *)

Lemma digit_char n : (n < 10)%N ->
  is_digit (pretty.pretty_N_char n) = true /\ (Z.of_nat (code (pretty.pretty_N_char n) - 48) = Z.of_N n)%Z.
Proof.
  intros H. destruct n as [|p]; [done|]. do 4 (destruct p as [p|p|]; try done); lia.
Qed.

Lemma print_go_digits x s :
  str_all is_digit s = true ->
  str_all is_digit (pretty.pretty_N_go x s) = true
  /\ decimal 0 (pretty.pretty_N_go x s) = decimal (Z.of_N x) s.
Proof.
  revert s. induction (N.lt_wf_0 x) as [x _ IH]; intros s Hs.
  destruct (decide (0 < x)%N) as [Hx|Hx].
  2: { assert (x = 0%N) as -> by lia. by rewrite pretty.pretty_N_go_0. }
  rewrite pretty.pretty_N_go_step by done.
  assert (x `mod` 10 < 10)%N as Hm by (by apply N.mod_lt).
  destruct (digit_char _ Hm) as [Hd Hv].
  destruct (IH (x `div` 10)%N) with (s := String (pretty.pretty_N_char (x `mod` 10)) s) as [Ha Hdec].
  - by apply N.div_lt.
  - cbn [str_all]. by rewrite Hd.
  - split; [exact Ha|]. rewrite Hdec. cbn [decimal]. rewrite Hv. f_equal.
    pose proof (N.div_mod x 10). lia.
Qed.

Lemma print_go_nonempty x c s : pretty.pretty_N_go x (String c s) <> "".
Proof.
  revert c s. induction (N.lt_wf_0 x) as [x _ IH]; intros c s.
  destruct (decide (0 < x)%N) as [Hx|Hx].
  - rewrite pretty.pretty_N_go_step by done. apply IH. by apply N.div_lt.
  - assert (x = 0%N) as -> by lia. by rewrite pretty.pretty_N_go_0.
Qed.

(** A printed number reads back. *)
Lemma parse_print_u64 n : is_u64 n -> parse_u64 (print_u64 n) = Ok n.
Proof.
  intros Hn. apply parse_u64_Ok. exists (print_u64 n). unfold numeral.
  destruct (decide (n = 0)%Z) as [->|H0]; [by split_and!; [left|..]|].
  destruct n as [|p|p]; [done| |by destruct Hn].
  change (print_u64 (Z.pos p)) with (pretty.pretty_N_go (N.pos p) "").
  destruct (print_go_digits (Npos p) "") as [Ha Hd]; [done|].
  split_and!; [by left| |done|by rewrite Hd|apply Hn].
  rewrite pretty.pretty_N_go_step by done. apply print_go_nonempty.
Qed.

#[export] Hint Rewrite parse_print_u64 using done : relay.
