(* ===== verification/Json.v ===== *)
(** * Json: the JSON documents the relay reads and writes

    [Value] has the constructors of [serde_json::Value], which the sources match on. A number is
    observed only through [as_u64]. An object is the list of its members; [get] reads the first
    one with a name, [insert] replaces it in place or appends, as [serde_json::Map] does. Parsing
    and printing belong to serde_json and stay parameters ([JsonLib]). *)

From S2P Require Import Prelude Text.
#[local] Open Scope string_scope.

Inductive Value : Type :=
  | Null
  | Bool (b : bool)
  | Number (as_u64 : option Z)
  | Str (s : string)
  | Array (elements : list Value)
  | Object (members : list (string * Value)).

Definition as_bool (v : Value) : option bool := match v with Bool b => Some b | _ => None end.
Definition as_u64 (v : Value) : option Z := match v with Number n => n | _ => None end.
Definition as_str (v : Value) : option string := match v with Str s => Some s | _ => None end.
Definition as_array (v : Value) : option (list Value) :=
  match v with Array l => Some l | _ => None end.
Definition as_object (v : Value) : option (list (string * Value)) :=
  match v with Object m => Some m | _ => None end.
Definition is_object (v : Value) : bool := match v with Object _ => true | _ => false end.

Fixpoint member (name : string) (m : list (string * Value)) : option Value :=
  match m with
  | [] => None
  | (n, v) :: m => if bool_decide (n = name) then Some v else member name m
  end.

(** [Value::get] with a string index: [None] on anything but an object. *)
Definition get (v : Value) (name : string) : option Value := m ← as_object v; member name m.
Definition get_str (v : Value) (name : string) : option string := w ← get v name; as_str w.

(** [Map::insert], [Map::remove] and [Map::retain]. *)
Fixpoint insert (name : string) (v : Value) (m : list (string * Value)) : list (string * Value) :=
  match m with
  | [] => [(name, v)]
  | (n, w) :: m => if bool_decide (n = name) then (n, v) :: m else (n, w) :: insert name v m
  end.
Definition retain (f : string -> bool) (m : list (string * Value)) : list (string * Value) :=
  List.filter (fun '(n, _) => f n) m.
Definition remove (name : string) (m : list (string * Value)) : list (string * Value) :=
  retain (fun n => bool_decide (n <> name)) m.

Lemma member_insert name v m k :
  member k (insert name v m) = if bool_decide (name = k) then Some v else member k m.
Proof.
  induction m as [|[n w] m IH]; simpl; [done|].
  repeat (case_bool_decide; simpl; simplify_eq; try done).
Qed.

Lemma member_retain f m k : member k (retain f m) = if f k then member k m else None.
Proof.
  induction m as [|[n w] m IH]; simpl; [by case_match|].
  destruct (f n) eqn:E; simpl; rewrite IH; case_bool_decide; subst; rewrite ?E; done.
Qed.

Lemma member_remove name m k :
  member k (remove name m) = if bool_decide (k = name) then None else member k m.
Proof.
  unfold remove. rewrite member_retain. by repeat case_bool_decide.
Qed.

#[export] Hint Rewrite member_insert member_retain member_remove : relay.

(** What the relay uses of serde_json: reading a document, writing one, reading and writing one
    string, and reading an object as its members in document order with their raw text (the
    [Members] of refresh_handle.rs, whose values are [RawValue]s). *)
Class JsonLib : Type := {
  from_slice : bytes -> option Value;
  to_vec : Value -> bytes;
  string_to_raw : string -> option string;
  raw_to_string : string -> option string;
  members_from_slice : bytes -> option (list (string * string));
  members_to_vec : list (string * string) -> option bytes;
}.

(** serde_json's documented round trips: a string printed as JSON reads back as itself, and an
    object printed member by member reads back member by member. *)
Class JsonLaws (J : JsonLib) : Prop := {
  raw_string_roundtrip s raw : string_to_raw s = Some raw -> raw_to_string raw = Some s;
  members_roundtrip m b : members_to_vec m = Some b -> members_from_slice b = Some m;
}.

(** A document that reads as an object also reads member by member. *)
Class JsonObjects (J : JsonLib) : Prop :=
  object_members b m : from_slice b ≫= as_object = Some m -> is_Some (members_from_slice b).
