(* ===== verification/Url.v ===== *)
(** * Url: the interface of the [url] crate, and the standard library's IPv6 parser

    [Url] values come from a third-party parser, so their type, [Url::parse] and the accessors the
    relay calls are the fields of [UrlLib]. [Ipv6Addr::from_str] is the standard library's and is
    defined here, following its recursive-descent parser. *)

From S2P Require Import Prelude Text.
From stdpp Require pretty.
#[local] Open Scope string_scope.

(** ** Hosts *)

(** [url::Host]: an IPv4 address is its 32-bit value, an IPv6 address its 128-bit value. *)
Inductive Host :=
  | Domain (name : string)
  | Ipv4 (address : Z)
  | Ipv6 (address : Z).

#[export] Instance host_eq_dec : EqDecision Host.
Proof. solve_decision. Defined.

(** [Ipv4Addr::LOCALHOST] and [Ipv6Addr::is_loopback]. *)
Definition ipv4_localhost : Z := 127 * 2 ^ 24 + 1.
Definition ipv6_is_loopback (a : Z) : bool := (a =? 1)%Z.

Class UrlLib : Type := {
  url : Type;
  url_eq_dec :: EqDecision url;
  url_parse : string -> result url string;   (* the error is its message *)
  as_str : url -> string;
  scheme : url -> string;
  username : url -> string;
  password : url -> option string;
  host_str : url -> option string;
  host : url -> option Host;
  port : url -> option Z;
  port_or_known_default : url -> option Z;
  path : url -> string;
  query : url -> option string;
  fragment : url -> option string;
  set_path : url -> string -> url;
  set_query : url -> option string -> url;
  set_fragment : url -> option string -> url;
  origin_ascii : url -> string;              (* [origin().ascii_serialization()] *)
  append_pairs : url -> list (string * string) -> url;   (* [query_pairs_mut().extend_pairs] *)
}.

Definition parses (U : UrlLib) (s : string) (f : url -> bool) : bool :=
  match url_parse s with Ok u => f u | Err _ => false end.

(** ** The standard library's address parser

    A parser takes the remaining input and returns a value with what is left, or [None] with the
    input untouched (the [read_atomically] of the original). *)

Definition parser (A : Type) : Type := string -> option (A * string).

Definition given (c : ascii) : parser unit := fun s =>
  match s with
  | String d s => if bool_decide (d = c) then Some (tt, s) else None
  | EmptyString => None
  end.

(** [char::to_digit]. *)
Definition digit (radix : Z) (c : ascii) : option Z :=
  let v := if is_digit c then Z.of_nat (code c - 48)
           else if is_lower c then Z.of_nat (code c - 97 + 10)
           else if is_upper c then Z.of_nat (code c - 65 + 10)
           else radix in
  if (v <? radix)%Z then Some v else None.

(** The digits read, their count, and the rest. *)
Fixpoint digits (radix : Z) (value : Z) (count : nat) (s : string) : Z * nat * string :=
  match s with
  | String c s' =>
      match digit radix c with
      | Some d => digits radix (value * radix + d) (S count) s'
      | None => (value, count, s)
      end
  | EmptyString => (value, count, s)
  end.

(** [read_number(radix, Some(max_digits), allow_zero_prefix)] into an integer of at most [max]. *)
Definition number (radix : Z) (max_digits : nat) (zero_prefix : bool) (max : Z) : parser Z :=
  fun s =>
    let '(value, count, rest) := digits radix 0 0 s in
    if bool_decide (count = 0) || bool_decide (max_digits < count) || (max <? value)%Z
       || (negb zero_prefix && starts_with "0" s && bool_decide (1 < count))
    then None else Some (value, rest).

(** [read_separator]: the separator is read before every item but the first. *)
Definition separated {A} (sep : ascii) (index : nat) (p : parser A) : parser A := fun s =>
  match index with
  | O => p s
  | S _ => '(_, s) ← given sep s; p s
  end.

(** [read_ipv4_addr]: the address as its 32-bit value. *)
Fixpoint ipv4_groups (index todo : nat) (acc : Z) : parser Z := fun s =>
  match todo with
  | O => Some (acc, s)
  | S todo =>
      '(g, s) ← separated "." index (number 10 3 false 255) s;
      ipv4_groups (S index) todo (acc * 256 + g) s
  end.
Definition ipv4 : parser Z := ipv4_groups 0 4 0.

(** [read_groups(p, &mut groups)] with [todo] groups left of the slice: the groups read, whether
    the last two came from an embedded IPv4 address, and the rest. *)
Fixpoint ipv6_groups (index todo : nat) (acc : list Z) (s : string) : list Z * bool * string :=
  match todo with
  | O => (acc, false, s)
  | S todo' =>
      match (if bool_decide (1 < todo) then separated ":" index ipv4 s else None) with
      | Some (a, s) => ((acc ++ [a / 65536; a mod 65536]%Z)%list, true, s)
      | None =>
          match separated ":" index (number 16 4 true 65535) s with
          | Some (g, s) => ipv6_groups (S index) todo' (acc ++ [g])%list s
          | None => (acc, false, s)
          end
      end
  end.

Definition groups_value (groups : list Z) : Z := foldl (fun acc g => acc * 65536 + g)%Z 0%Z groups.

(** [read_ipv6_addr]. *)
Definition ipv6 : parser Z := fun s =>
  let '(head, head_ipv4, s) := ipv6_groups 0 8 [] s in
  if bool_decide (length head = 8) then Some (groups_value head, s)
  else if head_ipv4 then None
  else
    '(_, s) ← given ":" s;
    '(_, s) ← given ":" s;
    let '(tail, _, s) := ipv6_groups 0 (8 - S (length head)) [] s in
    Some (groups_value (head ++ replicate (8 - length head - length tail) 0%Z ++ tail)%list, s).

(** [str::parse::<Ipv6Addr>().ok()]: the whole input. *)
Definition parse_ipv6 (s : string) : option Z :=
  match ipv6 s with Some (a, EmptyString) => Some a | _ => None end.

Example parse_ipv6_loopback :
  parse_ipv6 "::1" = Some 1%Z /\ parse_ipv6 "0:0:0:0:0:0:0:1" = Some 1%Z
  /\ parse_ipv6 "::0.0.0.1" = Some 1%Z /\ parse_ipv6 "::ffff:127.0.0.1" = Some (65535 * 2 ^ 32 + ipv4_localhost)%Z
  /\ parse_ipv6 "1::2::3" = None /\ parse_ipv6 "::00001" = None /\ parse_ipv6 "" = None
  /\ parse_ipv6 "1:2:3:4:5:6:7::" = Some (groups_value [1;2;3;4;5;6;7;0]%Z).
Proof. repeat split; vm_compute; reflexivity. Qed.

(** [str::parse::<u16>().ok()] on a string of decimal digits. *)
Definition parse_u16_digits (s : string) : option Z :=
  let '(value, _, _) := digits 10 0 0 s in
  if (value <=? 65535)%Z then Some value else None.

(** ** A concrete URL library

    A small URL reader, enough to run the development's definitions on concrete inputs: no user
    information, no percent decoding, [host:port] authorities. It instantiates the interface in
    witnesses; nothing is claimed about the crate through it. *)

Module PlainUrl.
Record t := {
  u_scheme : string; u_host : Host; u_host_text : string; u_port : option Z;
  u_path : string; u_query : option string; u_fragment : option string
}.

Definition default_port (s : string) : option Z :=
  if bool_decide (s = "http") then Some 80%Z
  else if bool_decide (s = "https") then Some 443%Z else None.

Definition host_of (text : string) : option Host :=
  match ipv4 text with
  | Some (a, EmptyString) => Some (Ipv4 a)
  | _ => match strip_prefix "[" text with
         | Some inner => l ← strip_suffix "]" inner; a ← parse_ipv6 l; Some (Ipv6 a)
         | None => if is_empty text then None else Some (Domain (to_ascii_lowercase text))
         end
  end.

Definition cut (c : ascii) (s : string) : string * option string :=
  match split_once (String c "") s with
  | Some (before, after) => (before, Some after)
  | None => (s, None)
  end.

Definition authority_of (a : string) : string * option string :=
  match rsplit_once ":" a with
  | Some (h, p) => if contains "]" p then (a, None) else (h, Some p)
  | None => (a, None)
  end.

Definition parse (s : string) : result t string :=
  match split_once "://" s with
  | None => Err "relative URL without a base"
  | Some (sch, rest) =>
      let '(rest, frag) := cut "#" rest in
      let '(rest, q) := cut "?" rest in
      let '(auth, p) := break_at (fun c => bool_decide (c = "/"%char)) rest in
      let '(h, prt) := authority_of auth in
      let prt := p ← prt; parse_u16_digits p in
      let prt := if bool_decide (prt = default_port sch) then None else prt in
      match host_of h with
      | None => Err "empty host"
      | Some hst =>
          Ok {| u_scheme := sch; u_host := hst; u_host_text := to_ascii_lowercase h;
                u_port := prt; u_path := if is_empty p then "/" else p;
                u_query := q; u_fragment := frag |}
      end
  end.

Definition digit_text (z : Z) : string := pretty.pretty z.

Definition optional (prefix : string) (o : option string) : string :=
  match o with Some s => prefix +:+ s | None => "" end.

Definition origin_text (u : t) : string :=
  u_scheme u +:+ "://" +:+ u_host_text u +:+ optional ":" (digit_text <$> u_port u).

Definition print (u : t) : string :=
  origin_text u +:+ u_path u +:+ optional "?" (u_query u) +:+ optional "#" (u_fragment u).

Definition with_path (u : t) (p : string) : t :=
  {| u_scheme := u_scheme u; u_host := u_host u; u_host_text := u_host_text u;
     u_port := u_port u; u_path := p; u_query := u_query u; u_fragment := u_fragment u |}.
Definition with_query (u : t) (q : option string) : t :=
  {| u_scheme := u_scheme u; u_host := u_host u; u_host_text := u_host_text u;
     u_port := u_port u; u_path := u_path u; u_query := q; u_fragment := u_fragment u |}.
Definition with_fragment (u : t) (f : option string) : t :=
  {| u_scheme := u_scheme u; u_host := u_host u; u_host_text := u_host_text u;
     u_port := u_port u; u_path := u_path u; u_query := u_query u; u_fragment := f |}.

Definition pairs_text (l : list (string * string)) : string :=
  join "&" ((fun '(n, v) => n +:+ "=" +:+ v) <$> l).

#[export] Instance t_eq_dec : EqDecision t.
Proof. solve_decision. Defined.

#[export] Instance lib : UrlLib := {|
  url := t;
  url_parse := parse;
  as_str := print;
  scheme := u_scheme;
  username _ := "";
  password _ := None;
  host_str u := Some (u_host_text u);
  host u := Some (u_host u);
  port := u_port;
  port_or_known_default u :=
    match u_port u with Some p => Some p | None => default_port (u_scheme u) end;
  path := u_path;
  query := u_query;
  fragment := u_fragment;
  set_path := with_path;
  set_query := with_query;
  set_fragment := with_fragment;
  origin_ascii := origin_text;
  append_pairs u l :=
    with_query u (Some (match u_query u with
                        | Some q => q +:+ "&" +:+ pairs_text l
                        | None => pairs_text l end));
|}.
End PlainUrl.
