(* ===== verification/IdTokenPolicy.v ===== *)
(** * IdTokenPolicy: admission rules over verified ID-token claims

    Models crates/oauthrelay-core/src/id_token_policy.rs: the claim matchers, their evaluation,
    the glob matcher [string_like] and the configuration checks. Tracing output is not modelled;
    the reason code that goes to it is kept, because [evaluate] returns it. *)

From S2P Require Import Prelude Text Json.
#[local] Open Scope string_scope.
#[local] Open Scope relay_scope.

(** ** Characters of a UTF-8 string ([str::chars]) *)

Definition cont (c : ascii) : N := (N.land (N.of_nat (code c)) 63)%N.

Fixpoint chars (s : string) : list N :=
  match s with
  | EmptyString => []
  | String a s1 =>
      let x := N.of_nat (code a) in
      if (x <? 128)%N then x :: chars s1
      else match s1 with
      | EmptyString => []
      | String b s2 =>
          if (x <? 224)%N then (N.lor (N.shiftl (N.land x 31) 6) (cont b)) :: chars s2
          else match s2 with
          | EmptyString => []
          | String c s3 =>
              let yz := N.lor (N.shiftl (cont b) 6) (cont c) in
              if (x <? 240)%N then (N.lor (N.shiftl (N.land x 15) 12) yz) :: chars s3
              else match s3 with
              | EmptyString => []
              | String d s4 =>
                  (N.lor (N.shiftl (N.land x 7) 18) (N.lor (N.shiftl yz 6) (cont d))) :: chars s4
              end
          end
      end
  end.

(** ** The glob matcher *)

Definition STAR : N := 42.   (* [*] *)
Definition QUESTION : N := 63.   (* [?] *)

Record GlobState := {
  g_p : nat;            (* next pattern index *)
  g_v : nat;            (* next value index *)
  g_star : option nat;  (* the last [*] passed *)
  g_retry : nat;        (* where the value resumed after it *)
}.

(** Whether the pattern character is [?], or an ordinary character equal to the value's. *)
Definition advances (here next : option N) : bool :=
  bool_decide (here = Some QUESTION)
  || (bool_decide (is_Some here) && bool_decide (here <> Some STAR) && bool_decide (here = next)).

(** One turn of the [while] loop: the next state, or the early [return false]. *)
Definition glob_step (pattern value : list N) (s : GlobState) : option GlobState :=
  let here := pattern !! g_p s in
  if advances here (value !! g_v s)
  then Some {| g_p := S (g_p s); g_v := S (g_v s); g_star := g_star s; g_retry := g_retry s |}
  else if bool_decide (here = Some STAR)
  then Some {| g_p := S (g_p s); g_v := g_v s; g_star := Some (g_p s); g_retry := g_v s |}
  else match g_star s with
  | Some index =>
      Some {| g_p := S index; g_v := S (g_retry s); g_star := g_star s; g_retry := S (g_retry s) |}
  | None => None
  end.

(** The loop, with fuel; [None] means the fuel ran out ([string_like_total] below: it never
    does). *)
Fixpoint glob_loop (fuel : nat) (pattern value : list N) (s : GlobState) : option bool :=
  if bool_decide (g_v s < length value) then
    match fuel with
    | O => None
    | S fuel =>
        match glob_step pattern value s with
        | Some s => glob_loop fuel pattern value s
        | None => Some false
        end
    end
  else Some (forallb (fun c => bool_decide (c = STAR)) (drop (g_p s) pattern)).

Definition glob_start : GlobState := {| g_p := 0; g_v := 0; g_star := None; g_retry := 0 |}.

Definition glob_fuel (pattern value : list N) : nat :=
  S (length pattern) * S (length value) * S (length value).

Definition glob (pattern value : list N) : option bool :=
  glob_loop (glob_fuel pattern value) pattern value glob_start.

Definition string_like (pattern value : string) : bool :=
  default false (glob (chars pattern) (chars value)).

(** ** Matchers *)

Inductive IdTokenClaimMatcher :=
  | StringEquals (value : string)
  | StringIn (values : list string)
  | StringLike (pattern : string)
  | BooleanEquals (value : bool)
  | ArrayContainsAny (values : list string)
  | ArrayContainsAll (values : list string)
  | ArrayLikeAny (pattern : string).

(** A [BTreeMap<String, IdTokenClaimMatcher>], as its entries in key order. *)
Notation IdTokenClaimSet := (list (string * IdTokenClaimMatcher)).

Record IdTokenPolicy := {
  required : option IdTokenClaimSet;
  any_of : option (list IdTokenClaimSet);
}.

Definition operator (m : IdTokenClaimMatcher) : string :=
  match m with
  | StringEquals _ => "stringEquals"
  | StringIn _ => "stringIn"
  | StringLike _ => "stringLike"
  | BooleanEquals _ => "booleanEquals"
  | ArrayContainsAny _ => "arrayContainsAny"
  | ArrayContainsAll _ => "arrayContainsAll"
  | ArrayLikeAny _ => "arrayLikeAny"
  end.

Definition value_list (m : IdTokenClaimMatcher) : option (list string) :=
  match m with
  | StringIn values | ArrayContainsAny values | ArrayContainsAll values => Some values
  | _ => None
  end.

Definition string_array (v : Value) : option (list string) :=
  l ← as_array v; mapM as_str l.

Definition verdict (matched : bool) : bool * string :=
  (matched, if matched then "matched" else "value_mismatch").

Definition str_in (s : string) (l : list string) : bool := existsb (fun t => bool_decide (t = s)) l.

Definition evaluate_matcher (m : IdTokenClaimMatcher) (actual : option Value) : bool * string :=
  match actual with
  | None => (false, "missing_claim")
  | Some actual =>
      match m with
      | BooleanEquals value =>
          match as_bool actual with
          | Some actual => verdict (bool_decide (actual = value))
          | None => (false, "wrong_type")
          end
      | ArrayContainsAny _ | ArrayContainsAll _ | ArrayLikeAny _ =>
          match string_array actual with
          | None => (false, "wrong_type")
          | Some elements =>
              verdict (bool_decide (elements <> [])
                && match m with
                   | ArrayContainsAny values => existsb (fun e => str_in e values) elements
                   | ArrayContainsAll values => forallb (fun v => str_in v elements) values
                   | ArrayLikeAny pattern => existsb (fun e => string_like pattern e) elements
                   | _ => false
                   end)
          end
      | StringEquals _ | StringIn _ | StringLike _ =>
          match as_str actual with
          | None => (false, "wrong_type")
          | Some actual =>
              verdict (match m with
                       | StringEquals value => bool_decide (actual = value)
                       | StringIn values => str_in actual values
                       | StringLike pattern => string_like pattern actual
                       | _ => false
                       end)
          end
      end
  end.

(** ** Claim sets and policies *)

Definition evaluate_set (rules : IdTokenClaimSet) (claims : Value) : bool :=
  foldl (fun accepted '(claim, matcher) =>
           accepted && fst (evaluate_matcher matcher (get claims claim))) true rules.

Definition evaluate (policy : IdTokenPolicy) (claims : Value) : bool :=
  let required := match required policy with
                  | None => true
                  | Some rules => evaluate_set rules claims
                  end in
  let any_of := match any_of policy with
                | None => true
                | Some branches =>
                    foldl (fun accepted rules => accepted || evaluate_set rules claims) false branches
                end in
  required && any_of.

Fixpoint validate_rules (rules : IdTokenClaimSet) : result unit string :=
  match rules with
  | [] => Ok tt
  | (claim, matcher) :: rules =>
      ensure negb (is_empty claim) else "idTokenPolicy must not contain an empty claim name" ;;
      ensure bool_decide (value_list matcher <> Some [])
        else ("idTokenPolicy." +:+ operator matcher +:+ " must not be empty") ;;
      validate_rules rules
  end.

Definition validate_set (rules : IdTokenClaimSet) : result unit string :=
  ensure bool_decide (rules <> []) else "idTokenPolicy claim sets must not be empty" ;;
  validate_rules rules.

Fixpoint validate_branches (branches : list IdTokenClaimSet) : result unit string :=
  match branches with
  | [] => Ok tt
  | branch :: branches => _ <-? validate_set branch ;; validate_branches branches
  end.

Definition validate (policy : IdTokenPolicy) : result unit string :=
  ensure bool_decide (is_Some (required policy)) || bool_decide (is_Some (any_of policy))
    else "idTokenPolicy must contain required or anyOf" ;;
  _ <-? match required policy with Some rules => validate_set rules | None => Ok tt end ;;
  match any_of policy with
  | Some branches =>
      ensure bool_decide (branches <> []) else "idTokenPolicy.anyOf must not be empty" ;;
      validate_branches branches
  | None => Ok tt
  end.

(** ** The meaning of a glob *)

(** [Glob p v]: the pattern [p] matches the whole value [v]. *)
Inductive Glob : list N -> list N -> Prop :=
  | glob_nil : Glob [] []
  | glob_star_none p v : Glob p v -> Glob (STAR :: p) v
  | glob_star_more p c v : Glob (STAR :: p) v -> Glob (STAR :: p) (c :: v)
  | glob_question p c v : Glob p v -> Glob (QUESTION :: p) (c :: v)
  | glob_char p c v : c <> STAR -> Glob p v -> Glob (c :: p) (c :: v).
#[export] Hint Constructors Glob : relay.

Lemma glob_star_iff p v : Glob (STAR :: p) v <-> exists k, k <= length v /\ Glob p (drop k v).
Proof.
  split.
  - intros H. remember (STAR :: p) as q eqn:Hq. induction H as [|? v H|? c v H IH| |]; simplify_eq.
    + exists 0. split; [lia|done].
    + destruct (IH eq_refl) as (k & ? & ?). exists (S k). simpl. split; [lia|done].
  - intros (k & Hk & H). revert v Hk H. induction k as [|k IH]; intros v Hk H.
    + by apply glob_star_none.
    + destruct v as [|c v]; simpl in *; [lia|]. apply glob_star_more, IH; [lia|done].
Qed.

Lemma glob_nil_iff p : Glob p [] <-> forallb (fun c => bool_decide (c = STAR)) p = true.
Proof.
  split.
  - intros H. remember [] as v eqn:Hv. induction H; simplify_eq/=; auto.
  - induction p as [|c p IH]; simpl; intros; reflect; auto with relay.
Qed.

(** A single pattern character against a single value character. *)
Definition matches1 (a c : N) : Prop := a = QUESTION \/ (a <> STAR /\ a = c).

Lemma glob_cons_iff a p c v : a <> STAR -> Glob (a :: p) (c :: v) <-> matches1 a c /\ Glob p v.
Proof.
  intros Ha. split.
  - inversion 1; simplify_eq; unfold matches1; auto.
  - intros [[->|[? ->]] ?]; auto with relay.
Qed.

Lemma glob_cons_nil a p : a <> STAR -> ~ Glob (a :: p) [].
Proof. intros ?. inversion 1; simplify_eq. Qed.

Lemma advances_spec a c : advances (Some a) (Some c) = true <-> matches1 a c.
Proof.
  unfold advances, matches1.
  rewrite orb_true_iff, !andb_true_iff, !bool_decide_eq_true. split.
  - intros [[= ->]|[[_ ?] [= ->]]]; [by left|right; split; congruence].
  - intros [->|[? ->]]; [by left|right; split_and!; [done|congruence|done]].
Qed.

(** A star-free prefix consumes exactly its own length. *)
Lemma glob_fixed_prefix q p v :
  STAR ∉ q -> Glob (q ++ p) v -> length q <= length v /\ Glob p (drop (length q) v).
Proof.
  revert v; induction q as [|a q IH]; simpl; intros v Hq H; [split; [lia|done]|].
  apply not_elem_of_cons in Hq as [Ha Hq].
  destruct v as [|c v]; [by apply glob_cons_nil in H|].
  apply glob_cons_iff in H as [_ H]; [|done].
  apply IH in H as [? ?]; [|done]. simpl. split; [lia|done].
Qed.

(** ** The loop decides the glob *)

Section GlobLoop.
Context (pattern value : list N).
#[local] Notation n := (length value).
#[local] Notation m := (length pattern).

(** What is still possible from a loop state: the current attempt, or the last star taking more
    of the value than it has been given so far. *)
Definition open_attempts (s : GlobState) : Prop :=
  Glob (drop (g_p s) pattern) (drop (g_v s) value)
  \/ exists i k, g_star s = Some i /\ g_retry s < k <= n
               /\ Glob (drop (S i) pattern) (drop k value).

(** Since the last star, pattern and value advanced together, over no other star. *)
Definition glob_inv (s : GlobState) : Prop :=
  g_v s <= n /\ g_p s <= m /\
  forall i, g_star s = Some i ->
    i < g_p s /\ g_retry s <= g_v s /\ g_p s = S i + (g_v s - g_retry s)
    /\ STAR ∉ take (g_v s - g_retry s) (drop (S i) pattern).

(** Lexicographic: the last star moves right, or it takes one more character, or the value
    index advances. *)
Definition glob_measure (s : GlobState) : nat :=
  let '(st, rt) := match g_star s with Some i => (S i, g_retry s) | None => (0, 0) end in
  ((m - st) * S n + (n - rt)) * S n + (n - g_v s).

Lemma older_attempts_covered s i k :
  glob_inv s -> g_star s = Some i -> g_retry s < k <= n ->
  Glob (drop (S i) pattern) (drop k value) ->
  k + (g_v s - g_retry s) <= n
  /\ Glob (drop (g_p s) pattern) (drop (k + (g_v s - g_retry s)) value).
Proof.
  intros (Hv & Hp & Hs) Hi Hk HG. destruct (Hs i Hi) as (? & ? & Hpos & Hfree).
  set (d := g_v s - g_retry s) in *.
  rewrite <-(take_drop d (drop (S i) pattern)) in HG.
  apply glob_fixed_prefix in HG as [Hlen HG]; [|done].
  assert (length (take d (drop (S i) pattern)) = d) as Hd
    by (rewrite length_take, length_drop; lia).
  rewrite Hd in *. rewrite length_drop in Hlen. rewrite !drop_drop in HG.
  rewrite Hpos. split; [lia|]. done.
Qed.

Lemma drop_lookup (l : list N) i c : l !! i = Some c -> drop i l = c :: drop (S i) l.
Proof. apply drop_S. Qed.

Lemma step_advance s a c :
  pattern !! g_p s = Some a -> value !! g_v s = Some c -> a <> STAR -> matches1 a c ->
  glob_inv s ->
  let s' := {| g_p := S (g_p s); g_v := S (g_v s);
               g_star := g_star s; g_retry := g_retry s |} in
  glob_inv s' /\ (open_attempts s <-> open_attempts s') /\ glob_measure s' < glob_measure s.
Proof.
  intros Ha Hc Hna Hm (Hv & Hp & Hs) s'.
  pose proof (lookup_lt_Some _ _ _ Ha). pose proof (lookup_lt_Some _ _ _ Hc).
  split; [|split].
  - split; [simpl; lia|split; [simpl; lia|]]. intros i Hi. simpl in *.
    destruct (Hs i Hi) as (? & ? & Hpos & Hfree).
    replace (S (g_v s) - g_retry s) with (S (g_v s - g_retry s)) by lia.
    split_and!; [lia|lia|lia|].
    rewrite (take_S_r _ _ a).
    + rewrite not_elem_of_app, list_elem_of_singleton. split; [done|]. congruence.
    + rewrite lookup_drop. by replace (S i + (g_v s - g_retry s)) with (g_p s) by lia.
  - unfold open_attempts. simpl. rewrite (drop_lookup _ _ _ Ha), (drop_lookup _ _ _ Hc).
    rewrite glob_cons_iff by done. naive_solver.
  - unfold glob_measure. simpl. destruct (g_star s); lia.
Qed.

Lemma step_star s :
  pattern !! g_p s = Some STAR -> g_v s < n -> glob_inv s ->
  let s' := {| g_p := S (g_p s); g_v := g_v s;
               g_star := Some (g_p s); g_retry := g_v s |} in
  glob_inv s' /\ (open_attempts s <-> open_attempts s') /\ glob_measure s' < glob_measure s.
Proof.
  intros Ha Hlt Hinv s'. pose proof Hinv as (Hv & Hp & Hs).
  pose proof (lookup_lt_Some _ _ _ Ha).
  split; [|split].
  - split; [simpl; lia|split; [simpl; lia|]]. intros i [= <-]. simpl.
    rewrite Nat.sub_diag. split_and!; [lia|lia|lia|]. simpl. apply not_elem_of_nil.
  - unfold open_attempts. simpl. split.
    + assert (forall k, g_v s <= k <= n -> Glob (drop (S (g_p s)) pattern) (drop k value) ->
        open_attempts s') as Hin.
      { intros k Hk HG. destruct (decide (k = g_v s)) as [->|]; [by left|].
        right. exists (g_p s), k. simpl. split_and!; [done|lia|lia|done]. }
      intros [HG|(i & k & Hi & Hk & HG)].
      * rewrite (drop_lookup _ _ _ Ha) in HG. apply glob_star_iff in HG as (k & Hk & HG).
        rewrite length_drop in Hk. rewrite drop_drop in HG. apply (Hin (g_v s + k)); [lia|done].
      * destruct (older_attempts_covered s i k Hinv Hi Hk HG) as [Hle HG'].
        destruct (Hs i Hi) as (? & ? & _).
        rewrite (drop_lookup _ _ _ Ha) in HG'. apply glob_star_iff in HG' as (j & Hj & HG').
        rewrite length_drop in Hj. rewrite drop_drop in HG'.
        eapply Hin; [|exact HG']. lia.
    + rewrite (drop_lookup _ _ _ Ha), glob_star_iff, length_drop.
      intros [HG|(i & k & [= <-] & Hk & HG)]; left.
      * exists 0. rewrite drop_0. split; [lia|done].
      * exists (k - g_v s). rewrite drop_drop. split; [lia|].
        by replace (g_v s + (k - g_v s)) with k by lia.
  - unfold glob_measure. simpl.
    destruct (g_star s) as [i|]; [destruct (Hs i eq_refl) as (? & ? & _)|].
    + assert ((m - S (g_p s)) * S n + S n <= (m - S i) * S n) by nia. nia.
    + assert ((m - S (g_p s)) * S n + S n <= (m - 0) * S n) by nia. nia.
Qed.

Lemma step_retry s i :
  g_star s = Some i -> g_v s < n -> glob_inv s ->
  ~ Glob (drop (g_p s) pattern) (drop (g_v s) value) ->
  let s' := {| g_p := S i; g_v := S (g_retry s);
               g_star := g_star s; g_retry := S (g_retry s) |} in
  glob_inv s' /\ (open_attempts s <-> open_attempts s') /\ glob_measure s' < glob_measure s.
Proof.
  intros Hi Hlt (Hv & Hp & Hs) Hno s'. destruct (Hs i Hi) as (? & ? & Hpos & _).
  split; [|split].
  - split; [simpl; lia|split; [simpl; lia|]]. intros j Hj. simpl in *. simplify_eq.
    rewrite Nat.sub_diag. split_and!; [lia|lia|lia|]. simpl. apply not_elem_of_nil.
  - unfold open_attempts. simpl. rewrite Hi. split.
    + intros [?|(j & k & [= <-] & Hk & HG)]; [done|].
      destruct (decide (k = S (g_retry s))) as [->|]; [by left|].
      right. exists i, k. split_and!; [done|lia|lia|done].
    + intros [HG|(j & k & [= <-] & Hk & HG)]; right.
      * exists i, (S (g_retry s)). split_and!; [done|lia|lia|done].
      * exists i, k. split_and!; [done|lia|lia|done].
  - unfold glob_measure. simpl. rewrite Hi.
    assert (S (n - S (g_retry s)) = n - g_retry s) as E by lia. rewrite <-E. nia.
Qed.

Lemma glob_step_sound s :
  g_v s < n -> glob_inv s ->
  match glob_step pattern value s with
  | Some s' =>
      glob_inv s' /\ (open_attempts s <-> open_attempts s') /\ glob_measure s' < glob_measure s
  | None => ~ open_attempts s
  end.
Proof.
  intros Hlt Hinv. destruct (lookup_lt_is_Some_2 value _ Hlt) as [c Hc].
  assert (forall a, pattern !! g_p s = Some a -> a <> STAR -> ~ matches1 a c ->
    ~ Glob (drop (g_p s) pattern) (drop (g_v s) value)) as Hdead.
  { intros a Ha Hna Hm HG. rewrite (drop_lookup _ _ _ Ha), (drop_lookup _ _ _ Hc) in HG.
    apply glob_cons_iff in HG as [? _]; done. }
  unfold glob_step. rewrite Hc.
  destruct (pattern !! g_p s) as [a|] eqn:Ha.
  - destruct (advances (Some a) (Some c)) eqn:E1; [|destruct (decide (a = STAR)) as [->|Hna]].
    + apply advances_spec in E1.
      apply (step_advance s a c); auto. destruct E1 as [->|[? _]]; done.
    + rewrite bool_decide_eq_true_2 by done. by apply step_star.
    + rewrite bool_decide_eq_false_2 by congruence.
      assert (~ matches1 a c) as Hm by (rewrite <-advances_spec, E1; done).
      specialize (Hdead a eq_refl Hna Hm). destruct (g_star s) as [i|] eqn:Hi.
      * rewrite <-Hi. apply step_retry; auto.
      * intros [HG|(? & ? & ? & _)]; [done|congruence].
  - assert (~ Glob (drop (g_p s) pattern) (drop (g_v s) value)) as Hno.
    { rewrite drop_ge by (by apply lookup_ge_None). rewrite (drop_lookup _ _ _ Hc).
      inversion 1. }
    simpl. destruct (g_star s) as [i|] eqn:Hi.
    + rewrite <-Hi. by apply step_retry.
    + intros [HG|(? & ? & ? & _)]; [done|congruence].
Qed.

Lemma glob_exit s :
  ~ g_v s < n -> glob_inv s ->
  forallb (fun c => bool_decide (c = STAR)) (drop (g_p s) pattern) = true <-> open_attempts s.
Proof.
  intros Hge Hinv. pose proof Hinv as (Hv & _). rewrite <-glob_nil_iff.
  unfold open_attempts. rewrite (drop_ge value (g_v s)) by lia. split; [by left|].
  intros [?|(i & k & Hi & Hk & HG)]; [done|].
  destruct (older_attempts_covered s i k Hinv Hi Hk HG) as [Hle _]. lia.
Qed.
End GlobLoop.

Section GlobCorrect.
Context (pattern value : list N).

Lemma glob_loop_correct fuel s :
  glob_inv pattern value s -> glob_measure pattern value s <= fuel ->
  exists b, glob_loop fuel pattern value s = Some b
         /\ (b = true <-> open_attempts pattern value s).
Proof.
  revert s; induction fuel as [|fuel IH]; intros s Hinv Hfuel; simpl;
    case_bool_decide as Hlt.
  - unfold glob_measure in Hfuel. repeat case_match; nia.
  - eexists; split; [done|]. by apply glob_exit.
  - pose proof (glob_step_sound _ _ s Hlt Hinv) as Hstep.
    destruct (glob_step pattern value s) as [s'|].
    + destruct Hstep as (Hinv' & Hiff & Hdec).
      destruct (IH s' Hinv') as (b & Hb & Hspec); [lia|]. exists b. by rewrite Hspec, Hiff.
    + exists false. split; [done|]. naive_solver.
  - eexists; split; [done|]. by apply glob_exit.
Qed.

Lemma glob_start_inv : glob_inv pattern value glob_start.
Proof. split_and!; simpl; [lia|lia|done]. Qed.

Lemma glob_start_attempts : open_attempts pattern value glob_start <-> Glob pattern value.
Proof. unfold open_attempts. simpl. rewrite !drop_0. naive_solver. Qed.

Lemma glob_fuel_enough : glob_measure pattern value glob_start <= glob_fuel pattern value.
Proof. unfold glob_measure, glob_fuel. simpl. nia. Qed.

Lemma glob_decides : exists b, glob pattern value = Some b /\ (b = true <-> Glob pattern value).
Proof.
  destruct (glob_loop_correct _ _ glob_start_inv glob_fuel_enough) as (b & Hb & Hspec).
  exists b. by rewrite <-glob_start_attempts.
Qed.
End GlobCorrect.

Lemma string_like_glob pattern value :
  string_like pattern value = true <-> Glob (chars pattern) (chars value).
Proof.
  unfold string_like. destruct (glob_decides (chars pattern) (chars value)) as (b & -> & H).
  done.
Qed.

(** ** The meaning of a matcher *)

(** The claim values each operator admits; a missing claim is admitted by none. *)
Inductive Admits : IdTokenClaimMatcher -> Value -> Prop :=
  | admits_equals s : Admits (StringEquals s) (Str s)
  | admits_in values s : s ∈ values -> Admits (StringIn values) (Str s)
  | admits_like pattern s : Glob (chars pattern) (chars s) -> Admits (StringLike pattern) (Str s)
  | admits_boolean b : Admits (BooleanEquals b) (Bool b)
  | admits_any values elements s :
      s ∈ values -> s ∈ elements -> Admits (ArrayContainsAny values) (Array (Str <$> elements))
  | admits_all values elements :
      elements <> [] -> values ⊆ elements ->
      Admits (ArrayContainsAll values) (Array (Str <$> elements))
  | admits_like_any pattern elements s :
      s ∈ elements -> Glob (chars pattern) (chars s) ->
      Admits (ArrayLikeAny pattern) (Array (Str <$> elements)).

#[export] Instance Str_inj : Inj (=) (=) Str.
Proof. by intros s t [= ->]. Qed.

Lemma str_in_elem s l : str_in s l = true <-> s ∈ l.
Proof.
  unfold str_in. rewrite existsb_elem. setoid_rewrite bool_decide_eq_true. naive_solver.
Qed.

Lemma string_array_Some v l : string_array v = Some l <-> v = Array (Str <$> l).
Proof.
  unfold string_array. split.
  - intros (vs & Hv & Hl)%bind_Some. destruct v; simplify_eq/=. f_equal.
    apply mapM_Some in Hl. induction Hl as [|x s vs' l' Hx Hl IH]; [done|].
    rewrite fmap_cons. f_equal; [destruct x; by simplify_eq/=|exact IH].
  - intros ->. simpl. apply mapM_Some. induction l; simpl; constructor; done.
Qed.

Lemma fst_verdict b : (verdict b).1 = b.
Proof. done. Qed.

Lemma evaluate_matcher_admits m actual :
  (evaluate_matcher m actual).1 = true <-> exists v, actual = Some v /\ Admits m v.
Proof.
  destruct actual as [v|]; [|simpl; naive_solver]. simpl.
  trans (Admits m v); [|naive_solver].
  destruct m; simpl;
    try (destruct (string_array v) as [elements|] eqn:E; simpl;
         [apply string_array_Some in E as ->
         |split; [done|]; intros H; inversion H; subst;
          rewrite (proj2 (string_array_Some _ _) eq_refl) in E; done]).
  - destruct v; simpl; try (split; [done|inversion 1]).
    rewrite bool_decide_eq_true. split; [intros ->; constructor|by inversion 1].
  - destruct v; simpl; try (split; [done|inversion 1]).
    rewrite str_in_elem. split; [by constructor|by inversion 1].
  - destruct v; simpl; try (split; [done|inversion 1]).
    rewrite string_like_glob. split; [by constructor|by inversion 1].
  - destruct v; simpl; try (split; [done|inversion 1]).
    rewrite bool_decide_eq_true. split; [intros ->; constructor|by inversion 1].
  - rewrite andb_true_iff, bool_decide_eq_true, existsb_elem. setoid_rewrite str_in_elem. split.
    + intros (_ & s & ? & ?). by apply (admits_any _ _ s).
    + inversion 1; simplify_eq. split; [intros ->; by eapply not_elem_of_nil|eauto].
  - rewrite andb_true_iff, bool_decide_eq_true, forallb_elem. setoid_rewrite str_in_elem. split.
    + intros (? & ?). by constructor.
    + inversion 1; simplify_eq. done.
  - rewrite andb_true_iff, bool_decide_eq_true, existsb_elem.
    setoid_rewrite string_like_glob. split.
    + intros (_ & s & ? & ?). by apply (admits_like_any _ _ s).
    + inversion 1; simplify_eq. split; [intros ->; by eapply not_elem_of_nil|eauto].
Qed.

(** [claims] carries, for every rule of the set, a claim its matcher admits. *)
Definition satisfies (rules : IdTokenClaimSet) (claims : Value) : Prop :=
  forall claim matcher, (claim, matcher) ∈ rules ->
    exists v, get claims claim = Some v /\ Admits matcher v.

Lemma foldl_orb {A} (f : A -> bool) l b :
  foldl (fun acc x => acc || f x) b l = b || existsb f l.
Proof.
  revert b; induction l as [|x l IH]; intros b; simpl; [by rewrite orb_false_r|].
  by rewrite IH, orb_assoc.
Qed.

Lemma evaluate_set_satisfies rules claims :
  evaluate_set rules claims = true <-> satisfies rules claims.
Proof.
  unfold evaluate_set, satisfies.
  trans (forallb (fun r => (evaluate_matcher r.2 (get claims r.1)).1) rules = true).
  { rewrite <-(andb_true_l (forallb _ _)). generalize true at 1 3 as acc.
    induction rules as [|[claim matcher] rules IH]; intros acc; simpl; [by rewrite andb_true_r|].
    by rewrite IH, andb_assoc. }
  rewrite forallb_elem. setoid_rewrite evaluate_matcher_admits. split.
  - intros H claim matcher. apply (H (claim, matcher)).
  - intros H [claim matcher]. apply (H claim matcher).
Qed.

Lemma evaluate_policy_spec policy claims :
  evaluate policy claims = true <->
    (forall rules, required policy = Some rules -> satisfies rules claims)
    /\ (forall branches, any_of policy = Some branches ->
         exists rules, rules ∈ branches /\ satisfies rules claims).
Proof.
  unfold evaluate. rewrite andb_true_iff. f_equiv.
  - destruct (required policy) as [rules|]; [rewrite evaluate_set_satisfies|]; naive_solver.
  - destruct (any_of policy) as [branches|]; [|naive_solver].
    rewrite foldl_orb. simpl. rewrite existsb_elem. setoid_rewrite evaluate_set_satisfies.
    naive_solver.
Qed.

(** A claim set that may stand in a policy: some claims, each with a name and, when its matcher
    lists values, with at least one. *)
Definition ValidSet (rules : IdTokenClaimSet) : Prop :=
  rules <> [] /\ forall claim matcher, (claim, matcher) ∈ rules ->
    claim <> "" /\ matcher <> StringIn [] /\ matcher <> ArrayContainsAny [] /\ matcher <> ArrayContainsAll [].

(** A policy that may be configured: it requires claims or alternatives, and all are valid sets. *)
Definition ValidPolicy (policy : IdTokenPolicy) : Prop :=
  ~ (required policy = None /\ any_of policy = None)
  /\ (forall rules, required policy = Some rules -> ValidSet rules)
  /\ (forall branches, any_of policy = Some branches -> branches <> [] /\ forall b, b ∈ branches -> ValidSet b).

Lemma validate_rules_iff rules :
  validate_rules rules = Ok tt <-> forall claim matcher, (claim, matcher) ∈ rules ->
    claim <> "" /\ matcher <> StringIn [] /\ matcher <> ArrayContainsAny [] /\ matcher <> ArrayContainsAll [].
Proof.
  assert (forall m, value_list m <> Some [] <->
    m <> StringIn [] /\ m <> ArrayContainsAny [] /\ m <> ArrayContainsAll []) as Hm.
  { intros []; simpl; naive_solver. }
  induction rules as [|[claim matcher] rules IH]; cbn [validate_rules].
  - split; [by intros _ ?? ?%not_elem_of_nil|done].
  - rewrite !ensure_ok, negb_true_iff, is_empty_false, bool_decide_eq_true, Hm, IH. split.
    + intros (Hc & Hv & Hall) c m [[= -> ->]|Hin]%elem_of_cons; [by split|by apply Hall].
    + intros Hall. destruct (Hall claim matcher (list_elem_of_here _ _)). split_and!; [done|by destruct_and?..|].
      intros c m Hin. by apply Hall, list_elem_of_further.
Qed.

Lemma validate_set_iff rules : validate_set rules = Ok tt <-> ValidSet rules.
Proof. unfold validate_set, ValidSet. by rewrite ensure_ok, bool_decide_eq_true, validate_rules_iff. Qed.

Lemma validate_branches_iff branches :
  validate_branches branches = Ok tt <-> forall b, b ∈ branches -> ValidSet b.
Proof.
  induction branches as [|b branches IH]; cbn [validate_branches].
  - split; [by intros _ ? ?%not_elem_of_nil|done].
  - rewrite res_bind_ok. setoid_rewrite elem_of_cons. split.
    + intros ([] & Hb & Hbs). cbv beta in Hbs. apply validate_set_iff in Hb. pose proof (proj1 IH Hbs) as Hall.
      intros b' [->|Hin]; auto.
    + intros Hall. exists tt. rewrite validate_set_iff, IH. auto.
Qed.

Lemma policy_valid_iff policy : validate policy = Ok tt <-> ValidPolicy policy.
Proof.
  unfold validate, ValidPolicy. rewrite ensure_ok, orb_true_iff, !bool_decide_eq_true, res_bind_ok.
  rewrite <-!not_eq_None_Some.
  assert ((exists u, match required policy with Some rules => validate_set rules | None => Ok tt end = Ok u) <->
    forall rules, required policy = Some rules -> ValidSet rules) as Hreq.
  { destruct (required policy) as [rules|]; [|split; [done|by exists tt]]. split.
    - intros ([] & Hs%validate_set_iff) ? [= <-]. done.
    - intros Hs. exists tt. by apply validate_set_iff, Hs. }
  assert (match any_of policy with
          | Some branches => ensure bool_decide (branches <> []) else "idTokenPolicy.anyOf must not be empty" ;;
                             validate_branches branches
          | None => Ok tt
          end = Ok tt <->
    forall branches, any_of policy = Some branches -> branches <> [] /\ forall b, b ∈ branches -> ValidSet b) as Hany.
  { destruct (any_of policy) as [branches|]; [|done].
    rewrite ensure_ok, bool_decide_eq_true, validate_branches_iff. split; [by intros H ? [= <-]|]. intros H. by apply H. }
  rewrite <-Hreq, <-Hany. split.
  - intros (Hsome & u & Hr & Ha). split_and!; [by intros [Hn Hn']; destruct Hsome|by exists u|done].
  - intros (Hn & [u Hr] & Ha). split; [|by exists u].
    destruct (required policy); [by left|right]. destruct (any_of policy); [done|by destruct Hn].
Qed.

Lemma validate_branches_ok branches :
  validate_branches branches = Ok tt -> forall b, b ∈ branches -> validate_set b = Ok tt.
Proof.
  induction branches as [|b branches IH]; simpl; intros H b' Hb; [by apply not_elem_of_nil in Hb|].
  destruct (validate_set b) as [[]|] eqn:E; simplify_eq/=.
  apply elem_of_cons in Hb as [->|Hb]; auto.
Qed.

Lemma validate_set_non_empty rules : validate_set rules = Ok tt -> rules <> [].
Proof. unfold validate_set. by case_bool_decide. Qed.

(** No claims satisfy no non-empty rule set. *)
Lemma satisfies_no_claims rules : rules <> [] -> ~ satisfies rules (Object []).
Proof.
  intros Hne Hs. destruct rules as [|[claim matcher] rules]; [done|].
  destruct (Hs claim matcher) as (v & Hv & _); [by left|done].
Qed.

(** ** Properties *)

(** C37: the glob loop terminates on every pattern and value within its fuel, and [string_like]
    is true exactly when the pattern matches the whole value: [*] any sequence of characters,
    [?] one character, any other character itself. *)
Theorem string_like_spec pattern value :
  glob (chars pattern) (chars value) = Some (string_like pattern value)
  /\ (string_like pattern value = true <-> Glob (chars pattern) (chars value)).
Proof.
  split; [|apply string_like_glob].
  unfold string_like. by destruct (glob_decides (chars pattern) (chars value)) as (b & -> & _).
Qed.

(** C38: a policy admits a token exactly when every [required] rule and all rules of at least
    one [anyOf] branch find a claim of the right type that their operator admits. *)
Theorem evaluate_spec policy claims :
  evaluate policy claims = true <->
    (forall rules, required policy = Some rules -> satisfies rules claims)
    /\ (forall branches, any_of policy = Some branches ->
         exists rules, rules ∈ branches /\ satisfies rules claims).
Proof. apply evaluate_policy_spec. Qed.

(** A policy that passes [validate] is never vacuous: it rejects a token without claims. *)
Theorem valid_policy_not_vacuous policy :
  validate policy = Ok tt -> evaluate policy (Object []) = false.
Proof.
  intros Hv. apply not_true_iff_false. rewrite evaluate_policy_spec. intros [Hr Ha].
  unfold validate in Hv. destruct (required policy) as [rules|] eqn:Er.
  - simpl in Hv. destruct (validate_set rules) as [[]|] eqn:Es; simplify_eq/=.
    eapply satisfies_no_claims; [by eapply validate_set_non_empty|by apply Hr].
  - destruct (any_of policy) as [branches|] eqn:Eb; simplify_eq/=.
    destruct (Ha branches) as (rules & Hin & Hs); [done|].
    case_bool_decide; simplify_eq/=.
    eapply satisfies_no_claims; [|done].
    eapply validate_set_non_empty, validate_branches_ok; done.
Qed.

Lemma valid_policy_not_vacuous_witness :
  let policy := {| required := Some [("groups", ArrayLikeAny "eng-*")]; any_of := None |} in
  validate policy = Ok tt /\ evaluate policy (Object []) = false
  /\ evaluate policy (Object [("groups", Array [Str "ops"; Str "eng-core"])]) = true.
Proof.
  split; [reflexivity|split; [|vm_compute; reflexivity]].
  apply valid_policy_not_vacuous. reflexivity.
Defined.
