(* ===== verification/Model.v ===== *)
(** * Model: resources, their validation, and redirect matching

    Models crates/oauthrelay-core/src/model.rs: resource keys, upstreams, relays, refresh-token
    settings, redirect matchers, [redirect_allowed], [cors_origin_allowed] and every
    configuration check, with the error messages of the source. [ValidRelay] says what a valid relay
    is without the checks; [validate_iff] shows that they decide it. *)

From S2P Require Import Prelude Text Json Url.
From S2P Require IdTokenPolicy.
#[local] Open Scope string_scope.
#[local] Open Scope relay_scope.

(** ** Resource keys *)

Record ResourceKey := ResourceKey_of { key_str : string }.

#[export] Instance resource_key_eq_dec : EqDecision ResourceKey.
Proof. solve_decision. Defined.
#[export] Instance resource_key_countable : Countable ResourceKey.
Proof. by apply (inj_countable' key_str ResourceKey_of); intros []. Defined.

Definition key_byte (c : ascii) : bool := is_alphanumeric c || bool_decide (c ∈ ["-"; "_"; "."]%char).

Definition valid_key_part (part : string) : bool :=
  negb (is_empty part) && bool_decide (part <> ".") && bool_decide (part <> "..")
  && str_all key_byte part.

Definition ResourceKey_new (value : string) : result ResourceKey string :=
  if is_empty value || starts_with "/" value || ends_with "/" value
     || existsb (fun part => negb (valid_key_part part)) (split "/" value)
  then Err "must contain non-empty URL-safe path segments other than `.` and `..`"
  else Ok (ResourceKey_of value).

(** ** Refresh-token settings *)

Inductive RefreshTokenMode := Passthrough | Sealed | Rotating.

#[export] Instance refresh_mode_eq_dec : EqDecision RefreshTokenMode.
Proof. solve_decision. Defined.

Definition DEFAULT_GRACE_PERIOD_SECONDS : Z := 30.
Definition MAX_GRACE_PERIOD_SECONDS : Z := 5 * 60.
Definition DEFAULT_MAX_LIFETIME_SECONDS : Z := 30 * 24 * 60 * 60.
Definition MAX_MAX_LIFETIME_SECONDS : Z := 10 * 365 * 24 * 60 * 60.

Record RefreshTokens := {
  mode : RefreshTokenMode;
  grace_period_seconds : Z;
  max_lifetime_seconds : Z;
}.

Definition refresh_tokens_default : RefreshTokens :=
  {| mode := Passthrough;
     grace_period_seconds := DEFAULT_GRACE_PERIOD_SECONDS;
     max_lifetime_seconds := DEFAULT_MAX_LIFETIME_SECONDS |}.

Definition validate_refresh_tokens (r : RefreshTokens) : result unit string :=
  if negb ((1 <=? grace_period_seconds r)%Z && (grace_period_seconds r <=? MAX_GRACE_PERIOD_SECONDS)%Z)
  then Err "refresh_tokens.grace_period_seconds must be between 1 and 300"
  else if (max_lifetime_seconds r <? grace_period_seconds r)%Z
          || (MAX_MAX_LIFETIME_SECONDS <? max_lifetime_seconds r)%Z
  then Err "refresh_tokens.max_lifetime_seconds must be between grace_period_seconds and 315360000"
  else Ok tt.

(** ** Redirect options *)

Record RedirectOptions := {
  allow_localhost_loopback : bool;
  allow_http_origins : bool;
}.

Definition redirect_options_default : RedirectOptions :=
  {| allow_localhost_loopback := false; allow_http_origins := false |}.

(** [options] switches on at least the widenings of [narrow]. *)
Definition widens (narrow options : RedirectOptions) : Prop :=
  (allow_localhost_loopback narrow = true -> allow_localhost_loopback options = true)
  /\ (allow_http_origins narrow = true -> allow_http_origins options = true).

(** ** Scope tokens, localhost names and raw URI text *)

(** RFC 6749 scope-token characters: %x21 / %x23-5B / %x5D-7E. *)
Definition valid_scope_token (scope : string) : bool :=
  negb (is_empty scope)
  && str_all (fun c => between 33 33 c || between 35 91 c || between 93 126 c) scope.

Definition valid_label (label : string) : bool :=
  ((1 <=? String.length label) && (String.length label <=? 63))%nat
  && str_all (fun c => is_alphanumeric c || bool_decide (c = "-"%char)) label
  && negb (starts_with "-" label) && negb (ends_with "-" label).

Definition is_localhost_name (domain : string) : bool :=
  let domain := to_ascii_lowercase domain in
  if bool_decide (domain = "localhost") then true
  else (String.length domain <=? 253)%nat
       && match strip_suffix ".localhost" domain with
          | Some labels => negb (is_empty labels) && forallb valid_label (split "." labels)
          | None => false
          end.

Definition validate_raw_uri (value : string) : result unit string :=
  if negb (str_all is_ascii value)
     || str_any (fun c => is_whitespace c || bool_decide (code c = 92)) value
  then Err "must use an ASCII URI without whitespace or backslashes"
  else Ok tt.

Definition one_of (l : list ascii) (c : ascii) : bool := bool_decide (c ∈ l).

(** The raw host and optional port between [://] and the first [/], [?], or [#]. *)
Definition raw_authority (raw : string) : option (string * option string) :=
  '(_, rest) ← split_once "://" raw;
  let '(authority, _) := break_at (one_of ["/"; "?"; "#"]%char) rest in
  if starts_with "[" authority then
    let '(host, from) := break_at (one_of ["]"]%char) authority in
    match from with
    | EmptyString => None
    | String c EmptyString => Some (host +:+ String c "", None)
    | String c tail => p ← strip_prefix ":" tail; Some (host +:+ String c "", Some p)
    end
  else Some (match rsplit_once ":" authority with
             | Some (host, p) => (host, Some p)
             | None => (authority, None)
             end).

Definition raw_path_and_query (value : string) : option string :=
  '(_, authority) ← split_once "://" value;
  Some (snd (break_at (one_of ["/"; "?"]%char) authority)).

Section WithUrl.
Context {U : UrlLib}.

(** ** URL predicates *)

Definition is_http_scheme (u : url) : bool := bool_decide (scheme u ∈ ["http"; "https"]).

Definition is_ip_loopback (u : url) : bool :=
  match host u with
  | Some (Ipv4 a) => (a =? ipv4_localhost)%Z
  | Some (Ipv6 a) => ipv6_is_loopback a
  | _ => false
  end.

Definition valid_discovery_url (u : url) : bool :=
  (bool_decide (scheme u = "https") || (bool_decide (scheme u = "http") && is_ip_loopback u))
  && bool_decide (is_Some (host_str u))
  && is_empty (username u)
  && bool_decide (password u = None)
  && bool_decide (query u = None)
  && bool_decide (fragment u = None).

Definition valid_redirect_url (u : url) : bool :=
  is_http_scheme u
  && bool_decide (is_Some (host u))
  && bool_decide (fragment u = None)
  && is_empty (username u)
  && bool_decide (password u = None).

Definition valid_origin_url (u : url) : bool :=
  valid_redirect_url u && bool_decide (path u = "/") && bool_decide (query u = None).

Definition normal_host (u : url) : option string :=
  (fun h => to_ascii_lowercase (trim_end "." h)) <$> host_str u.

Definition same_origin (a b : url) : bool :=
  bool_decide (scheme a = scheme b)
  && bool_decide (normal_host a = normal_host b)
  && bool_decide (port_or_known_default a = port_or_known_default b).

Definition loopback_host_matches (base candidate : url) (allow_localhost : bool) : bool :=
  bool_decide (host base = host candidate)
  || (allow_localhost
      && match host candidate with Some (Domain d) => is_localhost_name d | _ => false end).

Definition canonical_authority (raw : string) (u : url) : bool :=
  match split_once "://" raw, raw_authority raw with
  | Some (raw_scheme, _), Some (raw_host, raw_port) =>
      let host_matches :=
        match host u with
        | Some (Ipv6 address) =>
            bool_decide ((h ← strip_prefix "[" raw_host; l ← strip_suffix "]" h; parse_ipv6 l)
                         = Some address)
        | Some _ =>
            match host_str u with
            | Some parsed => eq_ignore_ascii_case raw_host parsed
            | None => false
            end
        | None => false
        end in
      let port_matches :=
        match raw_port with
        | None => bool_decide (port u = None)
        | Some p =>
            negb (is_empty p) && str_all is_digit p
            && (bool_decide (p = "0") || negb (starts_with "0" p))
            && bool_decide (parse_u16_digits p = port_or_known_default u)
        end in
      eq_ignore_ascii_case raw_scheme (scheme u) && host_matches && port_matches
  | _, _ => false
  end.

(** ** Origins and redirect matchers *)

Record Origin := Origin_of { origin_url : url }.

Definition Origin_parse (value : string) : result Origin string :=
  u <-? url_parse value ;;
  ensure is_http_scheme u && bool_decide (is_Some (host_str u)) else "must be an http(s) origin" ;;
  ensure bool_decide (path u = "/") && bool_decide (query u = None) && bool_decide (fragment u = None)
    else "must contain only scheme, host, and optional port" ;;
  ensure is_empty (username u) && bool_decide (password u = None)
    else "must not contain user information" ;;
  Ok (Origin_of u).

Definition origin_matches (o : Origin) (other : url) : bool := same_origin (origin_url o) other.

Inductive RedirectMatcher :=
  | MUri (value : string)
  | MOrigin (o : Origin)
  | MLoopback (value : string)
  | MLoopbackOrigin (o : Origin).

Definition origin_permitted (o : Origin) (options : RedirectOptions) : bool :=
  if bool_decide (scheme (origin_url o) = "https") then true
  else if bool_decide (scheme (origin_url o) = "http") then allow_http_origins options
  else false.

Definition validate_exact_uri (value : string) : result unit string :=
  _ <-? validate_raw_uri value ;;
  u <-? url_parse value ;;
  ensure valid_redirect_url u
    else "must be an absolute redirect URI without user information or fragment" ;;
  if bool_decide (scheme u = "https") || (bool_decide (scheme u = "http") && is_ip_loopback u)
  then Ok tt
  else Err "must use https unless it targets an IP-literal loopback host".

Definition validate_loopback_base (u : url) : result unit string :=
  if bool_decide (scheme u <> "http") || negb (is_ip_loopback u)
     || bool_decide (is_Some (port u)) || bool_decide (is_Some (fragment u))
     || negb (is_empty (username u)) || bool_decide (is_Some (password u))
  then Err "must be an http URI on 127.0.0.1 or ::1 without a port, user information, or fragment"
  else Ok tt.

Definition validate_loopback_uri (value : string) : result unit string :=
  _ <-? validate_raw_uri value ;;
  u <-? url_parse value ;;
  validate_loopback_base u.

Definition validate_loopback_origin (o : Origin) : result unit string :=
  _ <-? validate_loopback_base (origin_url o) ;;
  ensure bool_decide (path (origin_url o) = "/") && bool_decide (query (origin_url o) = None)
    else "loopback origin must not contain a path or query" ;;
  Ok tt.

Definition matcher_uri (value : string) : result RedirectMatcher string :=
  _ <-? validate_exact_uri value ;; Ok (MUri value).

Definition matcher_origin (value : string) : result RedirectMatcher string :=
  o <-? Origin_parse value ;;
  ensure bool_decide (scheme (origin_url o) = "https") else "must use https" ;;
  Ok (MOrigin o).

Definition bare_authority (value : string) : bool :=
  bool_decide (raw_path_and_query value ∈ [Some ""; Some "/"]).

Definition matcher_http_origin (value : string) : result RedirectMatcher string :=
  _ <-? validate_raw_uri value ;;
  o <-? Origin_parse value ;;
  ensure bool_decide (scheme (origin_url o) = "http") else "must use http" ;;
  ensure bare_authority value && canonical_authority value (origin_url o)
    else "must be spelled canonically as http://host or http://host:port, without a path" ;;
  Ok (MOrigin o).

Definition matcher_loopback (value : string) : result RedirectMatcher string :=
  _ <-? validate_loopback_uri value ;; Ok (MLoopback value).

Definition loopback_origin_error : string :=
  "must be http://127.0.0.1 or http://[::1] without a port, path, query, user information, or fragment".

Definition matcher_loopback_origin (value : string) : result RedirectMatcher string :=
  _ <-? validate_raw_uri value ;;
  ensure bare_authority value else loopback_origin_error ;;
  o <-? map_err (fun _ => loopback_origin_error) (Origin_parse value) ;;
  _ <-? map_err (fun _ => loopback_origin_error) (validate_loopback_origin o) ;;
  ensure canonical_authority value (origin_url o)
         && match raw_authority value with Some (_, None) => true | _ => false end
    else loopback_origin_error ;;
  Ok (MLoopbackOrigin o).

Definition NUL : ascii := "000"%char.
Definition identity (m : RedirectMatcher) : string :=
  match m with
  | MUri value => "uri" +:+ String NUL value
  | MOrigin o => "origin" +:+ String NUL (as_str (origin_url o))
  | MLoopback value => "loopback" +:+ String NUL value
  | MLoopbackOrigin o => "loopback_origin" +:+ String NUL (as_str (origin_url o))
  end.

(** ** Upstreams, client authentication and relays *)

Inductive TokenEndpointAuthMethod := ClientSecretPost | ClientSecretBasic.

Record Upstream := {
  up_key : ResourceKey;
  issuer_url : url;
  authorization_endpoint : option url;
  token_endpoint : option url;
  jwks_uri : option url;
  up_client_id : string;
  up_client_secret : string;
  token_endpoint_auth_method : TokenEndpointAuthMethod;
}.

Inductive ClientJwks := JwksUrl (u : url) | JwksInline (v : Value).

Inductive ClientAuth :=
  | UpstreamClient
  | Public
  | ClientSecret (client_id client_secret : string)
  | PrivateKeyJwt (require_single_use : bool) (client_id : string)
      (issuer subject audience : option string) (jwks : option ClientJwks).

Record Relay := {
  relay_key : ResourceKey;
  relay_upstream : ResourceKey;
  generation : option string;
  client_auth : ClientAuth;
  scopes : list string;
  allowed_scopes : option (list string);
  required_id_token_claims : gmap string string;
  id_token_policy : option IdTokenPolicy.IdTokenPolicy;
  refresh_tokens : RefreshTokens;
  redirect_policy : list RedirectMatcher;
}.

Definition absolute_http (u : url) : bool :=
  is_http_scheme u && bool_decide (is_Some (host_str u)).

Fixpoint validate_urls (fields : list (string * url)) : result unit string :=
  match fields with
  | [] => Ok tt
  | (field, u) :: fields =>
      ensure absolute_http u else (field +:+ " must be an absolute http(s) URL") ;;
      validate_urls fields
  end.

Definition optional_field (name : string) (u : option url) : list (string * url) :=
  match u with Some u => [(name, u)] | None => [] end.

Definition validate_upstream (u : Upstream) : result unit string :=
  _ <-? validate_urls
      (([("issuer_url", issuer_url u)]
        ++ optional_field "authorization_endpoint" (authorization_endpoint u)
        ++ optional_field "token_endpoint" (token_endpoint u)
        ++ optional_field "jwks_uri" (jwks_uri u))%list) ;;
  ensure negb (is_empty (up_client_id u)) else "client_id must not be empty" ;;
  ensure negb (is_empty (up_client_secret u)) else "client_secret must not be empty" ;;
  Ok tt.

(** ** Redirect and CORS matching *)

Definition matcher_allows (options : RedirectOptions) (redirect : string) (u : url)
    (m : RedirectMatcher) : bool :=
  match m with
  | MUri value => is_ok (validate_exact_uri value) && bool_decide (value = redirect)
  | MOrigin o =>
      origin_permitted o options && origin_matches o u
      && (bool_decide (scheme u = "https") || canonical_authority redirect u)
  | MLoopback value =>
      parses U value (fun base =>
        is_ok (validate_loopback_uri value)
        && bool_decide (scheme u = "http")
        && loopback_host_matches base u (allow_localhost_loopback options)
        && canonical_authority redirect u
        && match raw_path_and_query value with
           | Some tail => bool_decide (raw_path_and_query redirect = Some tail)
           | None => false
           end)
  | MLoopbackOrigin base =>
      is_ok (validate_loopback_origin base)
      && bool_decide (scheme u = "http")
      && loopback_host_matches (origin_url base) u (allow_localhost_loopback options)
      && canonical_authority redirect u
  end.

Definition redirect_allowed (r : Relay) (redirect : string) (options : RedirectOptions) : bool :=
  is_ok (validate_raw_uri redirect)
  && parses U redirect (fun u =>
       valid_redirect_url u && existsb (matcher_allows options redirect u) (redirect_policy r)).

Definition matcher_allows_origin (options : RedirectOptions) (origin : url)
    (m : RedirectMatcher) : bool :=
  match m with
  | MUri value =>
      is_ok (validate_exact_uri value) && parses U value (fun redirect => same_origin redirect origin)
  | MOrigin allowed => origin_permitted allowed options && origin_matches allowed origin
  | MLoopback value =>
      parses U value (fun base =>
        is_ok (validate_loopback_uri value)
        && bool_decide (scheme origin = "http")
        && loopback_host_matches base origin (allow_localhost_loopback options))
  | MLoopbackOrigin base =>
      is_ok (validate_loopback_origin base)
      && bool_decide (scheme origin = "http")
      && loopback_host_matches (origin_url base) origin (allow_localhost_loopback options)
  end.

Definition cors_origin_allowed (r : Relay) (origin : url) (options : RedirectOptions) : bool :=
  valid_origin_url origin && existsb (matcher_allows_origin options origin) (redirect_policy r).

(** ** Relay validation *)

Fixpoint validate_scopes (field : string) (seen : gset string) (l : list string)
    : result (gset string) string :=
  match l with
  | [] => Ok seen
  | scope :: l =>
      ensure valid_scope_token scope else (field +:+ " must contain valid RFC 6749 scope tokens") ;;
      ensure bool_decide (scope ∉ seen) else (field +:+ " must not contain duplicates") ;;
      validate_scopes field ({[scope]} ∪ seen) l
  end.

Definition validate_matcher (m : RedirectMatcher) : result unit string :=
  match m with
  | MUri value => validate_exact_uri value
  | MOrigin _ => Ok tt
  | MLoopback value => validate_loopback_uri value
  | MLoopbackOrigin o => validate_loopback_origin o
  end.

Fixpoint validate_redirects (seen : gset string) (l : list RedirectMatcher) : result unit string :=
  match l with
  | [] => Ok tt
  | m :: l =>
      _ <-? validate_matcher m ;;
      ensure bool_decide (identity m ∉ seen) else "redirect_policy must not contain duplicates" ;;
      validate_redirects ({[identity m]} ∪ seen) l
  end.

Definition empty_option (o : option string) : bool :=
  match o with Some s => is_empty s | None => false end.

Definition validate_client_jwks (issuer : option string) (jwks : option ClientJwks)
    : result unit string :=
  match jwks with
  | None =>
      if bool_decide (issuer = None) then Err "clientAuthentication requires jwks or issuer discovery"
      else Ok tt
  | Some (JwksUrl u) =>
      if negb (absolute_http u) then Err "clientAuthentication.jwks must be an absolute http(s) URL"
      else Ok tt
  | Some (JwksInline v) =>
      match (k ← get v "keys"; as_array k) with
      | Some (_ :: _) => Ok tt
      | _ => Err "clientAuthentication.jwks must contain a non-empty keys array"
      end
  end.

Definition validate_client_auth (a : ClientAuth) : result unit string :=
  match a with
  | UpstreamClient | Public => Ok tt
  | ClientSecret client_id client_secret =>
      if is_empty client_id || is_empty client_secret
      then Err "clientAuthentication credentials must not be empty" else Ok tt
  | PrivateKeyJwt _ client_id issuer subject audience jwks =>
      if is_empty client_id then Err "clientAuthentication.clientId must not be empty"
      else
        _ <-? match issuer with
              | None => Ok tt
              | Some issuer =>
                  u <-? map_err (fun _ => "clientAuthentication.issuer must be an absolute HTTPS URL")
                          (url_parse issuer) ;;
                  ensure valid_discovery_url u
                    else "clientAuthentication.issuer must use HTTPS (HTTP on loopback) without user information, query, or fragment" ;;
                  Ok tt
              end ;;
        ensure negb (empty_option subject) else "clientAuthentication.subject must not be empty" ;;
        ensure negb (empty_option audience) else "clientAuthentication.audience must not be empty" ;;
        validate_client_jwks issuer jwks
  end.

Definition public_requires_rotating : string :=
  "clientAuthentication.type: Public requires refreshTokens.mode: rotating, because a public client's refresh tokens must be rotated; set refreshTokens.mode to rotating, or authenticate the relying party with ClientSecret, UpstreamClient or PrivateKeyJwt. rotating needs a transient store shared by every serving instance (OAUTHRELAY_STORE, e.g. dynamodb or kubernetes); the default memory store only suits a single instance".

Definition is_public (a : ClientAuth) : bool := match a with Public => true | _ => false end.

Definition validate (r : Relay) : result unit string :=
  ensure negb (existsb is_empty (fst <$> map_to_list (required_id_token_claims r)))
    else "required_id_token_claims must not contain an empty claim name" ;;
  _ <-? match id_token_policy r with Some p => IdTokenPolicy.validate p | None => Ok tt end ;;
  _ <-? validate_refresh_tokens (refresh_tokens r) ;;
  ensure negb (is_public (client_auth r) && bool_decide (mode (refresh_tokens r) <> Rotating))
    else public_requires_rotating ;;
  configured <-? validate_scopes "scopes.default" ∅ (scopes r) ;;
  _ <-? match allowed_scopes r with
        | None => Ok tt
        | Some allowed =>
            allowed <-? validate_scopes "scopes.allowed" ∅ allowed ;;
            ensure bool_decide (configured ⊆ allowed)
              else "scopes.default must be contained in scopes.allowed" ;;
            Ok tt
        end ;;
  ensure bool_decide (redirect_policy r <> []) else "redirect_policy must contain at least one matcher" ;;
  _ <-? validate_redirects ∅ (redirect_policy r) ;;
  validate_client_auth (client_auth r).

Definition http_origin_of (m : RedirectMatcher) : option Origin :=
  match m with
  | MOrigin o => if bool_decide (scheme (origin_url o) <> "https") then Some o else None
  | _ => None
  end.

Definition validate_for (r : Relay) (options : RedirectOptions) : result unit string :=
  _ <-? validate r ;;
  if negb (allow_http_origins options) then
    match head (omap http_origin_of (redirect_policy r)) with
    | Some o =>
        Err ("redirect_policy origin " +:+ origin_ascii (origin_url o)
             +:+ " uses http, which requires allow_http_origins (OAUTHRELAY_ALLOW_HTTP_ORIGINS)")
    | None => Ok tt
    end
  else Ok tt.
End WithUrl.

(** ** Lemmas *)

Lemma ResourceKey_new_ok value k :
  ResourceKey_new value = Ok k <->
    k = ResourceKey_of value /\ forall part, part ∈ split "/" value -> valid_key_part part = true.
Proof.
  unfold ResourceKey_new. split.
  - case_match eqn:E; [done|]. intros [= <-]. split; [done|]. intros part Hp.
    apply orb_false_iff in E as [_ E]. apply not_false_iff_true. intros Hv.
    apply not_true_iff_false in E. apply E, existsb_elem. exists part. by rewrite Hv.
  - intros [-> Hparts].
    assert ("" ∉ split "/" value) as Hne by (intros Hp; by apply Hparts in Hp).
    replace (_ || _) with false; [done|]. symmetry. rewrite !orb_false_iff. split_and!.
    + by destruct value; [destruct Hne; left|].
    + apply bool_decide_eq_false. by intros ?%split_starts_with.
    + apply bool_decide_eq_false. by intros ?%split_ends_with.
    + apply not_true_iff_false. rewrite existsb_elem. intros (part & Hp & Hv).
      apply Hparts in Hp. by rewrite Hp in Hv.
Qed.

Section RedirectLemmas.
Context {U : UrlLib}.
Implicit Types (u base : url) (options : RedirectOptions) (m : RedirectMatcher).

Lemma validate_exact_uri_ok value :
  validate_exact_uri value = Ok tt ->
  exists u, url_parse value = Ok u /\ valid_redirect_url u = true
    /\ (scheme u = "https" \/ scheme u = "http" /\ is_ip_loopback u = true).
Proof.
  unfold validate_exact_uri. intros H.
  destruct (validate_raw_uri value); simplify_eq/=.
  destruct (url_parse value) as [u|]; simplify_eq/=.
  destruct (valid_redirect_url u) eqn:Ev; simplify_eq/=.
  case_match eqn:E; simplify_eq. exists u. split_and!; [done|done|].
  apply orb_true_iff in E as [E|E]; reflect; auto.
Qed.

Lemma validate_loopback_base_ok u :
  validate_loopback_base u = Ok tt <->
  scheme u = "http" /\ is_ip_loopback u = true /\ port u = None /\ fragment u = None
  /\ username u = "" /\ password u = None.
Proof.
  unfold validate_loopback_base. split.
  - case_match eqn:E; [done|]. intros _.
    repeat match goal with H : _ || _ = false |- _ => apply orb_false_iff in H as [? ?] end.
    reflect. split_and!; try (by apply eq_None_not_Some); [by apply dec_stable|done|].
    by destruct (username u).
  - intros (-> & -> & -> & -> & -> & ->). by rewrite !bool_decide_eq_false_2 by (by intros []).
Qed.

Lemma loopback_host_matches_ok base u allow :
  loopback_host_matches base u allow = true ->
  host base = host u
  \/ (allow = true /\ exists d, host u = Some (Domain d) /\ is_localhost_name d = true).
Proof.
  unfold loopback_host_matches. rewrite orb_true_iff, andb_true_iff, bool_decide_eq_true.
  intros [?|[-> H]]; [by left|right; split; [done|]]. repeat case_match; naive_solver.
Qed.

Lemma is_ip_loopback_host base u : host base = host u -> is_ip_loopback base = is_ip_loopback u.
Proof. unfold is_ip_loopback. by intros ->. Qed.

Lemma same_origin_scheme a b : same_origin a b = true -> scheme a = scheme b.
Proof. unfold same_origin. intros. by reflect. Qed.

Lemma origin_permitted_ok o options :
  origin_permitted o options = true ->
  scheme (origin_url o) = "https"
  \/ scheme (origin_url o) = "http" /\ allow_http_origins options = true.
Proof. unfold origin_permitted. repeat case_bool_decide; auto. done. Qed.

(** Where a matching redirect may lead. *)
Definition safe_target (r : Relay) (options : RedirectOptions) (u : url) : Prop :=
  scheme u = "https"
  \/ scheme u = "http"
     /\ (is_ip_loopback u = true
         \/ (allow_localhost_loopback options = true
             /\ exists d, host u = Some (Domain d) /\ is_localhost_name d = true)
         \/ (allow_http_origins options = true
             /\ exists o, MOrigin o ∈ redirect_policy r /\ origin_matches o u = true)).

Lemma loopback_target r options base u :
  is_ip_loopback base = true -> scheme u = "http" ->
  loopback_host_matches base u (allow_localhost_loopback options) = true ->
  safe_target r options u.
Proof.
  intros Hb Hs [Hh|?]%loopback_host_matches_ok; right; (split; [done|]); [left|right; left; done].
  by rewrite <-(is_ip_loopback_host base).
Qed.

Lemma matcher_target r options redirect u m :
  m ∈ redirect_policy r -> url_parse redirect = Ok u ->
  matcher_allows options redirect u m = true -> safe_target r options u.
Proof.
  intros Hm Hu Ha. destruct m as [value|o|value|o]; simpl in Ha.
  - reflect. destruct (validate_exact_uri redirect) as [[]|] eqn:E; [|done].
    apply validate_exact_uri_ok in E as (u' & Hu' & _ & Hs).
    rewrite Hu in Hu'. simplify_eq. destruct Hs as [?|[? ?]]; [by left|right; auto].
  - reflect. pose proof (same_origin_scheme _ _ H1) as Hsame.
    apply origin_permitted_ok in H as [?|[? ?]]; [left; congruence|].
    right. split; [congruence|]. right; right. eauto.
  - unfold parses in Ha. destruct (url_parse value) as [base|] eqn:Hbase; [|done]. reflect.
    destruct (validate_loopback_uri value) as [[]|] eqn:E; [|done].
    unfold validate_loopback_uri in E. destruct (validate_raw_uri value); simplify_eq/=.
    rewrite Hbase in E. simpl in E. apply validate_loopback_base_ok in E as (_ & ? & _).
    by apply (loopback_target r options base).
  - reflect. destruct (validate_loopback_origin o) as [[]|] eqn:E; [|done].
    unfold validate_loopback_origin in E.
    destruct (validate_loopback_base (origin_url o)) as [[]|] eqn:E'; [|done].
    apply validate_loopback_base_ok in E' as (_ & ? & _).
    by apply (loopback_target r options (origin_url o)).
Qed.

Lemma redirect_allowed_inv r redirect options :
  redirect_allowed r redirect options = true ->
  exists u m, validate_raw_uri redirect = Ok tt /\ url_parse redirect = Ok u
    /\ valid_redirect_url u = true
    /\ m ∈ redirect_policy r /\ matcher_allows options redirect u m = true.
Proof.
  unfold redirect_allowed, parses. intros. reflect.
  destruct (validate_raw_uri redirect) as [[]|]; [|done].
  destruct (url_parse redirect) as [u|]; [|done]. reflect.
  apply existsb_elem in H1 as (m & ? & ?). exists u, m. done.
Qed.

Lemma loopback_host_matches_mono base u (a b : bool) :
  (a = true -> b = true) ->
  loopback_host_matches base u a = true -> loopback_host_matches base u b = true.
Proof.
  unfold loopback_host_matches. rewrite !orb_true_iff, !andb_true_iff. naive_solver.
Qed.

Lemma origin_permitted_mono o narrow options :
  widens narrow options -> origin_permitted o narrow = true -> origin_permitted o options = true.
Proof. intros [_ ?]. unfold origin_permitted. repeat case_bool_decide; auto. Qed.

Lemma matcher_allows_mono narrow options redirect u m :
  widens narrow options ->
  matcher_allows narrow redirect u m = true -> matcher_allows options redirect u m = true.
Proof.
  intros Hw. pose proof Hw as [Hl _].
  destruct m; simpl; unfold parses; try case_match; try done; intros; reflect; try done.
  - by eapply origin_permitted_mono.
  - by eapply loopback_host_matches_mono.
  - by eapply loopback_host_matches_mono.
Qed.

Lemma matcher_allows_origin_mono narrow options origin m :
  widens narrow options ->
  matcher_allows_origin narrow origin m = true -> matcher_allows_origin options origin m = true.
Proof.
  intros Hw. pose proof Hw as [Hl _].
  destruct m; simpl; unfold parses; try case_match; try done; intros; reflect; try done.
  - by eapply origin_permitted_mono.
  - by eapply loopback_host_matches_mono.
  - by eapply loopback_host_matches_mono.
Qed.
End RedirectLemmas.

Section ValidationLemmas.
Context {U : UrlLib}.

Lemma validate_scopes_ok field seen l final :
  validate_scopes field seen l = Ok final ->
  NoDup l /\ (forall s, s ∈ l -> s ∉ seen /\ valid_scope_token s = true)
  /\ final = seen ∪ list_to_set l.
Proof.
  revert seen; induction l as [|s l IH]; simpl; intros seen H.
  - simplify_eq. split_and!; [constructor|by intros ? ?%not_elem_of_nil|set_solver].
  - destruct (valid_scope_token s) eqn:Ev; [|done]. case_bool_decide as Hs; [|done].
    apply IH in H as (Hnd & Hl & ->). split_and!.
    + constructor; [|done]. intros Hin. by apply Hl in Hin as [? _]; set_solver.
    + intros t [->|Ht]%elem_of_cons; [done|]. apply Hl in Ht as [? ?]. split; [set_solver|done].
    + set_solver.
Qed.

Lemma validate_redirects_ok seen l :
  validate_redirects seen l = Ok tt ->
  NoDup (identity <$> l) /\ (forall m, m ∈ l -> identity m ∉ seen /\ validate_matcher m = Ok tt).
Proof.
  revert seen; induction l as [|m l IH]; simpl; intros seen H.
  - split; [constructor|by intros ? ?%not_elem_of_nil].
  - destruct (validate_matcher m) as [[]|] eqn:Ev; simplify_eq/=.
    case_bool_decide as Hm; [|done]. apply IH in H as (Hnd & Hl). split.
    + constructor; [|done]. intros (m' & Heq & Hin)%list_elem_of_fmap.
      apply Hl in Hin as [Hin _]. rewrite Heq in Hin. set_solver.
    + intros m' [->|Hm']%elem_of_cons; [done|]. apply Hl in Hm' as [? ?].
      split; [set_solver|done].
Qed.

Lemma validate_scopes_complete field seen l :
  NoDup l -> (forall s, s ∈ l -> s ∉ seen /\ valid_scope_token s = true) ->
  validate_scopes field seen l = Ok (seen ∪ list_to_set l).
Proof.
  revert seen; induction l as [|s l IH]; simpl; intros seen Hnd Hl.
  - f_equal. set_solver.
  - apply NoDup_cons in Hnd as [Hs Hnd]. destruct (Hl s (list_elem_of_here _ _)) as [Hseen ->].
    rewrite bool_decide_eq_true_2 by done. rewrite IH; [f_equal; set_solver|done|].
    intros t Ht. destruct (Hl t (list_elem_of_further _ _ _ Ht)) as [Hts Hv]. split; [set_solver|done].
Qed.

Lemma validate_redirects_complete seen l :
  NoDup (identity <$> l) -> (forall m, m ∈ l -> identity m ∉ seen /\ validate_matcher m = Ok tt) ->
  validate_redirects seen l = Ok tt.
Proof.
  revert seen; induction l as [|m l IH]; simpl; intros seen Hnd Hl; [done|].
  apply NoDup_cons in Hnd as [Hm Hnd]. destruct (Hl m (list_elem_of_here _ _)) as [Hseen ->].
  rewrite bool_decide_eq_true_2 by done. apply IH; [done|]. intros m' Hm'.
  destruct (Hl m' (list_elem_of_further _ _ _ Hm')) as [Hs Hv]. split; [|done].
  apply not_elem_of_union. split; [|done]. apply not_elem_of_singleton. intros Heq. apply Hm.
  rewrite <-Heq. by apply list_elem_of_fmap_2.
Qed.

(** *** What a valid relay is, field by field *)

(** An RFC 6749 scope token: %x21 / %x23-5B / %x5D-7E, at least once. *)
Definition ScopeToken (s : string) : Prop :=
  s <> "" /\ forall c, c ∈ String.list_ascii_of_string s ->
    code c = 33 \/ (35 <= code c <= 91) \/ (93 <= code c <= 126).

(** ASCII, without a space, tab, line break, form feed or backslash. *)
Definition PlainUri (s : string) : Prop :=
  forall c, c ∈ String.list_ascii_of_string s -> code c <= 127 /\ code c ∉ [32; 9; 10; 12; 13; 92].

(** 127.0.0.1 or ::1, as an IP literal. *)
Definition IpLoopback (u : url) : Prop :=
  host u = Some (Ipv4 (127 * 2 ^ 24 + 1)) \/ host u = Some (Ipv6 1).

Definition LoopbackBase (u : url) : Prop :=
  scheme u = "http" /\ IpLoopback u /\ port u = None /\ fragment u = None /\ username u = "" /\ password u = None.

Definition ValidMatcher (m : RedirectMatcher) : Prop :=
  match m with
  | MUri value => PlainUri value /\ exists u, url_parse value = Ok u
      /\ (scheme u = "https" \/ scheme u = "http" /\ IpLoopback u) /\ host u <> None
      /\ fragment u = None /\ username u = "" /\ password u = None
  | MOrigin _ => True                                       (* [Origin::parse] checked it *)
  | MLoopback value => PlainUri value /\ exists u, url_parse value = Ok u /\ LoopbackBase u
  | MLoopbackOrigin o => LoopbackBase (origin_url o) /\ path (origin_url o) = "/" /\ query (origin_url o) = None
  end.

(** Two matchers of one kind with one spelling. *)
Definition same_matcher (m m' : RedirectMatcher) : Prop :=
  match m, m' with
  | MUri v, MUri v' | MLoopback v, MLoopback v' => v = v'
  | MOrigin o, MOrigin o' | MLoopbackOrigin o, MLoopbackOrigin o' => as_str (origin_url o) = as_str (origin_url o')
  | _, _ => False
  end.

Definition ValidJwks (issuer : option string) (jwks : option ClientJwks) : Prop :=
  match jwks with
  | None => issuer <> None                                  (* discovered from the issuer *)
  | Some (JwksUrl u) => (scheme u = "http" \/ scheme u = "https") /\ host_str u <> None
  | Some (JwksInline v) => exists key keys, get v "keys" = Some (Array (key :: keys))
  end.

Definition ValidAuth (a : ClientAuth) : Prop :=
  match a with
  | UpstreamClient | Public => True
  | ClientSecret client_id client_secret => client_id <> "" /\ client_secret <> ""
  | PrivateKeyJwt _ client_id issuer subject audience jwks =>
      client_id <> "" /\ subject <> Some "" /\ audience <> Some ""
      /\ (forall i, issuer = Some i -> exists u, url_parse i = Ok u
            /\ (scheme u = "https" \/ scheme u = "http" /\ IpLoopback u) /\ host_str u <> None
            /\ username u = "" /\ password u = None /\ query u = None /\ fragment u = None)
      /\ ValidJwks issuer jwks
  end.

(** What a validated relay guarantees. *)
Record ValidRelay (r : Relay) : Prop := {
  valid_public : client_auth r = Public -> mode (refresh_tokens r) = Rotating;
  valid_rotation : (1 <= grace_period_seconds (refresh_tokens r) <= 300)%Z
    /\ (grace_period_seconds (refresh_tokens r) <= max_lifetime_seconds (refresh_tokens r) <= 315360000)%Z;
  valid_claims : required_id_token_claims r !! "" = None;
  valid_policy p : id_token_policy r = Some p -> IdTokenPolicy.ValidPolicy p;
  valid_scopes : NoDup (scopes r) /\ forall s, s ∈ scopes r -> ScopeToken s;
  valid_allowed allowed : allowed_scopes r = Some allowed ->
    NoDup allowed /\ (forall s, s ∈ allowed -> ScopeToken s) /\ scopes r ⊆ allowed;
  valid_redirects : redirect_policy r <> [] /\ forall m, m ∈ redirect_policy r -> ValidMatcher m;
  valid_distinct i j m m' : redirect_policy r !! i = Some m -> redirect_policy r !! j = Some m' ->
    same_matcher m m' -> i = j;
  valid_auth : ValidAuth (client_auth r);
}.

(** Each check of the code decides its part. *)
Lemma refresh_tokens_iff (r : RefreshTokens) :
  validate_refresh_tokens r = Ok tt <->
    (1 <= grace_period_seconds r <= 300)%Z /\ (grace_period_seconds r <= max_lifetime_seconds r <= 315360000)%Z.
Proof.
  unfold validate_refresh_tokens, MAX_GRACE_PERIOD_SECONDS, MAX_MAX_LIFETIME_SECONDS.
  rewrite !refuse_ok, negb_false_iff, andb_true_iff, orb_false_iff, !Z.leb_le, !Z.ltb_ge. naive_solver lia.
Qed.

Lemma scope_token_iff s : valid_scope_token s = true <-> ScopeToken s.
Proof.
  unfold valid_scope_token, ScopeToken. rewrite andb_true_iff, negb_true_iff, is_empty_false, str_all_elem.
  unfold between. setoid_rewrite orb_true_iff. setoid_rewrite orb_true_iff.
  setoid_rewrite andb_true_iff. setoid_rewrite Nat.leb_le.
  split; intros [Hs Hc]; (split; [done|]); intros c Hin; specialize (Hc c Hin); lia.
Qed.

Lemma raw_uri_iff s : validate_raw_uri s = Ok tt <-> PlainUri s.
Proof.
  unfold validate_raw_uri, PlainUri, str_any. rewrite refuse_ok, orb_false_iff, !negb_false_iff, !str_all_elem.
  assert (forall c, is_ascii c = true /\ negb (is_whitespace c || bool_decide (code c = 92)) = true
    <-> code c <= 127 /\ code c ∉ [32; 9; 10; 12; 13; 92]) as Hc.
  { intros c. unfold is_ascii, is_whitespace. rewrite negb_true_iff, orb_false_iff, !bool_decide_eq_false, Nat.leb_le.
    rewrite !not_elem_of_cons. naive_solver. }
  split.
  - intros [[Ha Hw] _] c Hin. apply Hc. by split; [apply Ha|apply Hw].
  - intros Hall. split; [|done]. split; intros c Hin; by apply Hc, Hall.
Qed.

Lemma ip_loopback_iff u : is_ip_loopback u = true <-> IpLoopback u.
Proof.
  unfold is_ip_loopback, IpLoopback, ipv6_is_loopback, ipv4_localhost.
  destruct (host u) as [[]|]; rewrite ?Z.eqb_eq; naive_solver.
Qed.

Lemma loopback_base_iff u : validate_loopback_base u = Ok tt <-> LoopbackBase u.
Proof. rewrite validate_loopback_base_ok. unfold LoopbackBase. by rewrite ip_loopback_iff. Qed.

Lemma http_scheme_iff u : is_http_scheme u = true <-> scheme u = "http" \/ scheme u = "https".
Proof. unfold is_http_scheme. rewrite bool_decide_eq_true, !elem_of_cons, elem_of_nil. tauto. Qed.

Lemma secure_scheme_iff u :
  bool_decide (scheme u = "https") || (bool_decide (scheme u = "http") && is_ip_loopback u) = true
  <-> scheme u = "https" \/ scheme u = "http" /\ IpLoopback u.
Proof. by rewrite orb_true_iff, andb_true_iff, !bool_decide_eq_true, ip_loopback_iff. Qed.

Lemma is_empty_iff s : is_empty s = true <-> s = "".
Proof. by destruct s. Qed.

Lemma redirect_url_iff u : valid_redirect_url u = true <->
  (scheme u = "http" \/ scheme u = "https") /\ host u <> None /\ fragment u = None /\ username u = "" /\ password u = None.
Proof.
  unfold valid_redirect_url. rewrite !andb_true_iff, http_scheme_iff, is_empty_iff, !bool_decide_eq_true, <-not_eq_None_Some.
  tauto.
Qed.

Lemma exact_uri_iff value : validate_exact_uri value = Ok tt <-> ValidMatcher (MUri value).
Proof.
  unfold validate_exact_uri, ValidMatcher. rewrite res_bind_ok. setoid_rewrite res_bind_ok.
  setoid_rewrite ensure_ok. setoid_rewrite ensure_ok. setoid_rewrite secure_scheme_iff.
  setoid_rewrite redirect_url_iff. split.
  - intros ([] & Hp%raw_uri_iff & u & Hu & Hv & Hs & _). split; [done|]. exists u. naive_solver.
  - intros (Hp & u & Hu & Hv). exists tt. split; [by apply raw_uri_iff|]. exists u. naive_solver.
Qed.

Lemma matcher_iff m : validate_matcher m = Ok tt <-> ValidMatcher m.
Proof.
  destruct m as [value|o|value|o]; cbn [validate_matcher].
  - apply exact_uri_iff.
  - done.
  - unfold validate_loopback_uri, ValidMatcher. rewrite res_bind_ok. setoid_rewrite res_bind_ok.
    setoid_rewrite loopback_base_iff. split.
    + intros ([] & Hp%raw_uri_iff & Hu). by split.
    + intros [Hp Hu]. exists tt. split; [by apply raw_uri_iff|done].
  - unfold validate_loopback_origin, ValidMatcher. rewrite res_bind_ok. setoid_rewrite ensure_ok.
    rewrite <-loopback_base_iff. setoid_rewrite andb_true_iff. setoid_rewrite bool_decide_eq_true.
    split; [by intros ([] & Hb & Hp & _)|]. intros [Hb Hp]. by exists tt.
Qed.

Lemma identity_iff m m' : identity m = identity m' <-> same_matcher m m'.
Proof.
  destruct m as [v|o|v|o], m' as [v'|o'|v'|o']; cbn [identity same_matcher]; cbn [String.append];
    (split; [intros Heq; try discriminate Heq; by injection Heq|try done; by intros ->]).
Qed.

Lemma NoDup_pairs {A C} (f : A -> C) l :
  NoDup (f <$> l) <-> forall i j x y, l !! i = Some x -> l !! j = Some y -> f x = f y -> i = j.
Proof.
  rewrite NoDup_alt. split.
  - intros Hn i j x y Hx Hy Heq. eapply Hn; rewrite list_lookup_fmap; [by rewrite Hx|by rewrite Hy, Heq].
  - intros Hn i j c Hi Hj. apply list_lookup_fmap_Some in Hi as (x & -> & Hx), Hj as (y & Heq & Hy). eauto.
Qed.

Lemma client_jwks_iff issuer jwks : validate_client_jwks issuer jwks = Ok tt <-> ValidJwks issuer jwks.
Proof.
  destruct jwks as [[u|v]|]; cbn [validate_client_jwks ValidJwks].
  - rewrite refuse_ok, negb_false_iff. unfold absolute_http.
    rewrite andb_true_iff, http_scheme_iff, bool_decide_eq_true, <-not_eq_None_Some. tauto.
  - destruct (get v "keys") as [k|]; simpl; [|naive_solver]. destruct k as [| | | |[|k ks]|m]; naive_solver.
  - rewrite refuse_ok, bool_decide_eq_false. tauto.
Qed.

Lemma discovery_url_iff u : valid_discovery_url u = true <->
  (scheme u = "https" \/ scheme u = "http" /\ IpLoopback u) /\ host_str u <> None
  /\ username u = "" /\ password u = None /\ query u = None /\ fragment u = None.
Proof.
  unfold valid_discovery_url. rewrite !andb_true_iff, secure_scheme_iff, is_empty_iff, !bool_decide_eq_true, <-not_eq_None_Some.
  tauto.
Qed.

Lemma empty_option_iff o : negb (empty_option o) = true <-> o <> Some "".
Proof. destruct o as [s|]; [|done]. cbn [empty_option]. rewrite negb_true_iff, is_empty_false. naive_solver. Qed.

Lemma client_auth_iff a : validate_client_auth a = Ok tt <-> ValidAuth a.
Proof.
  destruct a as [| |client_id client_secret|su client_id issuer subject audience jwks];
    cbn [validate_client_auth ValidAuth]; [done..| |].
  - rewrite refuse_ok, orb_false_iff, !is_empty_false. tauto.
  - rewrite refuse_ok, is_empty_false, res_bind_ok. setoid_rewrite ensure_ok. setoid_rewrite ensure_ok.
    setoid_rewrite empty_option_iff. setoid_rewrite client_jwks_iff.
    assert ((exists x, match issuer with
        | None => Ok tt
        | Some issuer =>
            u <-? map_err (fun _ => "clientAuthentication.issuer must be an absolute HTTPS URL") (url_parse issuer) ;;
            ensure valid_discovery_url u
              else "clientAuthentication.issuer must use HTTPS (HTTP on loopback) without user information, query, or fragment" ;;
            Ok tt
        end = Ok x) <-> forall i, issuer = Some i -> exists u, url_parse i = Ok u
            /\ (scheme u = "https" \/ scheme u = "http" /\ IpLoopback u) /\ host_str u <> None
            /\ username u = "" /\ password u = None /\ query u = None /\ fragment u = None) as <-.
    + destruct issuer as [i|]; [|split; [done|by exists tt]]. setoid_rewrite res_bind_ok.
      setoid_rewrite ensure_ok. setoid_rewrite discovery_url_iff. split.
      * intros (x & u & Hu & Hv & _) ? [= <-]. exists u. destruct (url_parse i); naive_solver.
      * intros Hall. destruct (Hall i eq_refl) as (u & Hu & Hv). exists tt, u. by rewrite Hu.
    + naive_solver.
Qed.

Lemma policy_iff (p : option IdTokenPolicy.IdTokenPolicy) :
  (exists x, match p with Some p => IdTokenPolicy.validate p | None => Ok tt end = Ok x)
  <-> forall p', p = Some p' -> IdTokenPolicy.ValidPolicy p'.
Proof.
  destruct p as [p|]; [|split; [done|by exists tt]]. setoid_rewrite <-IdTokenPolicy.policy_valid_iff. split.
  - by intros ([] & Hp) ? [= <-].
  - intros Hp. exists tt. by apply Hp.
Qed.

Lemma unnamed_claims_iff (claims : gmap string string) :
  negb (existsb is_empty (fst <$> map_to_list claims)) = true <-> claims !! "" = None.
Proof.
  rewrite negb_true_iff, <-not_true_iff_false, existsb_elem, eq_None_not_Some.
  apply not_iff_compat. split.
  - intros (name & Hin & ->%is_empty_iff). apply list_elem_of_fmap in Hin as ([k v] & Heq & Hin).
    apply elem_of_map_to_list in Hin. simpl in Heq. subst. by exists v.
  - intros [v Hv]. exists "". split; [|done]. apply list_elem_of_fmap. exists ("", v).
    split; [done|]. by apply elem_of_map_to_list.
Qed.

Lemma public_iff r :
  negb (is_public (client_auth r) && bool_decide (mode (refresh_tokens r) <> Rotating)) = true
  <-> (client_auth r = Public -> mode (refresh_tokens r) = Rotating).
Proof.
  rewrite negb_true_iff, andb_false_iff, bool_decide_eq_false. split.
  - intros [Hp|Hm] Heq; [by rewrite Heq in Hp|by apply dec_stable].
  - intros Hp. destruct (client_auth r); [by left|right|by left..]. intros Hn. by apply Hn, Hp.
Qed.

Lemma scopes_iff field l configured :
  validate_scopes field ∅ l = Ok configured <->
    (NoDup l /\ forall s, s ∈ l -> ScopeToken s) /\ configured = list_to_set l.
Proof.
  setoid_rewrite <-scope_token_iff. split.
  - intros (Hnd & Hs & ->)%validate_scopes_ok. split; [|set_solver]. split; [done|]. intros s Hin. by apply Hs.
  - intros [[Hnd Hs] ->]. rewrite validate_scopes_complete; [f_equal; set_solver|done|].
    intros s Hin. split; [set_solver|by apply Hs].
Qed.

Lemma redirects_iff l :
  validate_redirects ∅ l = Ok tt <->
    (forall m, m ∈ l -> ValidMatcher m)
    /\ forall i j m m', l !! i = Some m -> l !! j = Some m' -> same_matcher m m' -> i = j.
Proof.
  setoid_rewrite <-identity_iff. setoid_rewrite <-matcher_iff. rewrite <-NoDup_pairs. split.
  - intros [Hnd Hm]%validate_redirects_ok. split; [|done]. intros m Hin. by apply Hm.
  - intros [Hm Hnd]. apply validate_redirects_complete; [done|]. intros m Hin. split; [set_solver|by apply Hm].
Qed.

Lemma allowed_iff (allowed : option (list string)) (default : list string) :
  (exists x, match allowed with
        | None => Ok tt
        | Some allowed =>
            allowed <-? validate_scopes "scopes.allowed" ∅ allowed ;;
            ensure bool_decide (list_to_set default ⊆ allowed)
              else "scopes.default must be contained in scopes.allowed" ;;
            Ok tt
        end = Ok x)
  <-> forall l, allowed = Some l -> NoDup l /\ (forall s, s ∈ l -> ScopeToken s) /\ default ⊆ l.
Proof.
  destruct allowed as [l|]; [|split; [done|by exists tt]]. setoid_rewrite res_bind_ok.
  setoid_rewrite ensure_ok. setoid_rewrite scopes_iff. setoid_rewrite bool_decide_eq_true. split.
  - intros (x & a & [[Hnd Hs] ->] & Hsub & _) ? [= <-]. split_and!; [done..|]. intros s Hin. set_solver.
  - intros Hall. destruct (Hall l eq_refl) as (Hnd & Hs & Hsub). exists tt, (list_to_set l). split_and!; [done..|set_solver|done].
Qed.

(** Together they accept exactly the valid relays. *)
Lemma validate_iff r : validate r = Ok tt <-> ValidRelay r.
Proof.
  unfold validate. rewrite ensure_ok, unnamed_claims_iff, res_bind_ok. setoid_rewrite res_bind_ok.
  setoid_rewrite ensure_ok. setoid_rewrite public_iff. setoid_rewrite res_bind_ok.
  setoid_rewrite scopes_iff. split.
  - intros (Hc & x & Hp & [] & Ht & Hpub & configured & [Hs ->] & Hrest).
    apply res_bind_ok in Hrest as ([] & Ha & Hr). rewrite ensure_ok, bool_decide_eq_true, res_bind_ok in Hr. destruct Hr as (Hne & [] & Hm & Hauth).
    apply redirects_iff in Hm as [Hm Hd]. split; try done.
    + by apply refresh_tokens_iff.
    + apply policy_iff. by exists x.
    + apply allowed_iff. by exists tt.
    + by apply client_auth_iff.
  - intros [Hpub Ht Hc Hp Hs Ha [Hne Hm] Hd Hauth]. split; [done|].
    apply policy_iff in Hp as [x Hp]. apply allowed_iff in Ha as [[] Ha].
    exists x. split; [done|]. exists tt. split; [by apply refresh_tokens_iff|]. split; [done|].
    exists (list_to_set (scopes r)). split; [done|]. apply res_bind_ok. exists tt. split; [done|].
    rewrite ensure_ok, bool_decide_eq_true, res_bind_ok. split; [done|]. exists tt.
    split; [by apply redirects_iff|by apply client_auth_iff].
Qed.

Lemma validate_for_ok r options :
  validate_for r options = Ok tt ->
  validate r = Ok tt
  /\ (allow_http_origins options = false ->
      forall o, MOrigin o ∈ redirect_policy r -> scheme (origin_url o) = "https").
Proof.
  unfold validate_for. destruct (validate r) as [[]|]; simpl; [|done]. intros H. split; [done|].
  intros Hoff o Ho. rewrite Hoff in H. simpl in H.
  destruct (omap http_origin_of (redirect_policy r)) as [|o' l] eqn:E; [|done].
  apply dec_stable. intros Hs.
  assert (o ∈ omap http_origin_of (redirect_policy r)) as Hin.
  { apply list_elem_of_omap. exists (MOrigin o). split; [done|]. simpl.
    by rewrite bool_decide_eq_true_2. }
  rewrite E in Hin. by apply not_elem_of_nil in Hin.
Qed.
End ValidationLemmas.

(** ** Properties *)

(** C39: every redirect a relay allows has no user information and no fragment and leads to
    https, or to http on an IP-literal loopback host, or - only with the matching development
    option on - to a localhost name or to a configured http origin. This holds whether or not the
    relay was validated. *)
Theorem redirect_allowed_safe {U : UrlLib} r redirect options :
  redirect_allowed r redirect options = true ->
  exists u, url_parse redirect = Ok u /\ fragment u = None /\ username u = "" /\ password u = None
    /\ safe_target r options u.
Proof.
  intros (u & m & _ & Hu & Hv & Hm & Ha)%redirect_allowed_inv. exists u.
  unfold valid_redirect_url in Hv. reflect. split_and!; try done.
  - by destruct (username u).
  - by eapply matcher_target.
Qed.

(** A development option only ever widens matching: what redirect and CORS matching accept
    under some options they accept under every wider set of options. *)
Theorem widening_monotone {U : UrlLib} r narrow options :
  widens narrow options ->
  (forall redirect, redirect_allowed r redirect narrow = true -> redirect_allowed r redirect options = true)
  /\ (forall origin, cors_origin_allowed r origin narrow = true -> cors_origin_allowed r origin options = true).
Proof.
  intros Hw. split.
  - intros redirect (u & m & Hraw & Hu & Hv & Hm & Ha)%redirect_allowed_inv.
    unfold redirect_allowed, parses. rewrite Hraw, Hu, Hv. simpl.
    apply existsb_elem. exists m. split; [done|]. by eapply matcher_allows_mono.
  - intros origin. unfold cors_origin_allowed. intros. reflect; [done|].
    apply existsb_elem in H0 as (m & ? & ?). apply existsb_elem. exists m.
    split; [done|]. by eapply matcher_allows_origin_mono.
Qed.

(** A relay that passes runtime validation is structurally valid and has no dead origin
    matcher: every origin in its policy is permitted under the serving options, so none of them
    silently rejects its redirects. *)
Theorem validate_for_no_dead_origin {U : UrlLib} r options :
  validate_for r options = Ok tt ->
  validate r = Ok tt /\
  forall o value, MOrigin o ∈ redirect_policy r -> Origin_parse value = Ok o ->
    origin_permitted o options = true.
Proof.
  intros [Hv Ho]%validate_for_ok. split; [done|]. intros o value Hin Hparse.
  unfold origin_permitted. case_bool_decide as Hs; [done|].
  destruct (allow_http_origins options) eqn:E; [|by apply Ho in Hin].
  unfold Origin_parse in Hparse. destruct (url_parse value) as [u|]; simplify_eq/=.
  destruct (is_http_scheme u && _) eqn:Eu; simplify_eq/=.
  do 2 (case_match; [|done]). simplify_eq/=.
  clear -Eu Hs. unfold is_http_scheme in Eu. apply andb_true_iff in Eu as [Eu _].
  apply bool_decide_eq_true in Eu. rewrite !elem_of_cons in Eu.
  destruct Eu as [?|[?|?%not_elem_of_nil]]; [|done|done].
  by rewrite bool_decide_eq_true_2.
Qed.

(** Refresh-token settings are accepted exactly when 1 <= grace <= 300 and
    grace <= lifetime <= ten years (for unsigned inputs), and then neither the lifetime nor the
    grace period overflows a 64-bit count of milliseconds. *)
Theorem refresh_tokens_bounds (r : RefreshTokens) :
  (validate_refresh_tokens r = Ok tt <->
     (1 <= grace_period_seconds r <= 300)%Z
     /\ (grace_period_seconds r <= max_lifetime_seconds r <= 315360000)%Z)
  /\ (validate_refresh_tokens r = Ok tt ->
      is_u64 (grace_period_seconds r * 1000) /\ is_u64 (max_lifetime_seconds r * 1000)).
Proof.
  split; [apply refresh_tokens_iff|]. rewrite refresh_tokens_iff. unfold is_u64, u64_max. lia.
Qed.

(** [ResourceKey::new] accepts exactly the strings whose [/]-separated segments are all
    non-empty, URL-safe and neither [.] nor [..]; the accepted key is the string itself. *)
Theorem resource_key_segments value k :
  ResourceKey_new value = Ok k <->
    k = ResourceKey_of value /\ forall part, part ∈ split "/" value -> valid_key_part part = true.
Proof. apply ResourceKey_new_ok. Qed.

(** C40: The well-formedness of relays is decided by [validate]: it accepts exactly the relays that
    are valid field by field. Public clients rotate; the grace period is 1 to 300 seconds and at
    most the lifetime, which is at most ten years; no required claim is nameless; an ID-token policy
    requires something, and its sets and value lists are not empty; scopes are distinct RFC 6749
    tokens, the default ones among the allowed ones; there is a redirect matcher, no two are alike,
    an exact URI is plain text for an https URL or an http one on a loopback literal, without user
    information or fragment, and a loopback matcher an http URL on a loopback literal without a
    port; and client authentication has non-empty credentials and, for signed assertions, an https
    issuer (http on loopback) without extras and a key set by URL, inline with a key, or discovered
    from the issuer. *)
Theorem validate_decides {U : UrlLib} r : validate r = Ok tt <-> ValidRelay r.
Proof. apply validate_iff. Qed.

(** A relay that passes [validate] has what the handlers rely on: public clients rotate their
    refresh tokens, the rotation settings and the ID-token policy are valid, default scopes are
    valid, distinct and allowed, and the redirect policy is non-empty, distinct and valid. *)
Theorem validated_relay {U : UrlLib} r : validate r = Ok tt -> ValidRelay r.
Proof. apply validate_iff. Qed.

(** ** Witnesses *)

Module Example.
Import PlainUrl.

Definition https_origin : Origin :=
  match Origin_parse "https://app.example.com" with
  | Ok o => o
  | Err _ => Origin_of (Build_t "" (Domain "") "" None "" None None)
  end.

Definition http_origin : Origin :=
  match Origin_parse "http://dev.example.com:8080" with
  | Ok o => o
  | Err _ => https_origin
  end.

Definition relay : Relay := {|
  relay_key := ResourceKey_of "project/app";
  relay_upstream := ResourceKey_of "google";
  generation := None;
  client_auth := Public;
  scopes := ["openid"; "email"];
  allowed_scopes := Some ["openid"; "email"; "profile"];
  required_id_token_claims := ∅;
  id_token_policy := None;
  refresh_tokens := {| mode := Rotating; grace_period_seconds := 30; max_lifetime_seconds := 3600 |};
  redirect_policy := [MUri "https://rp.example.com/cb"; MOrigin https_origin; MLoopback "http://127.0.0.1/cb"];
|}.

Definition dev_relay : Relay := {|
  relay_key := relay_key relay; relay_upstream := relay_upstream relay; generation := None;
  client_auth := Public; scopes := []; allowed_scopes := None;
  required_id_token_claims := ∅; id_token_policy := None;
  refresh_tokens := refresh_tokens relay;
  redirect_policy := [MOrigin http_origin];
|}.

Definition dev_options : RedirectOptions :=
  {| allow_localhost_loopback := true; allow_http_origins := true |}.

Example allowed_and_refused :
  (redirect_allowed relay "https://app.example.com/any?x=1" redirect_options_default,
   redirect_allowed relay "http://127.0.0.1:9000/cb" redirect_options_default,
   redirect_allowed relay "http://127.0.0.1:9000/other" redirect_options_default,
   redirect_allowed relay "http://localhost:9000/cb" redirect_options_default,
   redirect_allowed relay "http://localhost:9000/cb" dev_options,
   redirect_allowed relay "https://evil.example.com/" redirect_options_default,
   redirect_allowed dev_relay "http://dev.example.com:8080/x" redirect_options_default,
   redirect_allowed dev_relay "http://dev.example.com:8080/x" dev_options,
   redirect_allowed dev_relay "http://dev.example.com:08080/x" dev_options)
  = (true, true, false, false, true, false, false, true, false).
Proof. vm_compute. reflexivity. Qed.

Lemma redirect_allowed_safe_witness :
  exists u : url,
    url_parse "http://127.0.0.1:9000/cb" = Ok u /\ fragment u = None /\ username u = ""
    /\ password u = None /\ safe_target relay redirect_options_default u.
Proof.
  apply (redirect_allowed_safe relay "http://127.0.0.1:9000/cb" redirect_options_default).
  vm_compute. reflexivity.
Defined.

Lemma widening_monotone_witness :
  redirect_allowed relay "http://127.0.0.1:9000/cb" dev_options = true.
Proof.
  assert (widens redirect_options_default dev_options) as Hw by (split; discriminate).
  apply (proj1 (widening_monotone relay _ _ Hw)). vm_compute. reflexivity.
Defined.

Lemma validate_for_no_dead_origin_witness :
  origin_permitted https_origin redirect_options_default = true.
Proof.
  assert (validate_for relay redirect_options_default = Ok tt) as Hv
    by (vm_compute; reflexivity).
  apply (validate_for_no_dead_origin _ _ Hv) with "https://app.example.com".
  - unfold relay. cbn [redirect_policy]. apply list_elem_of_further, list_elem_of_here.
  - reflexivity.
Defined.

Lemma refresh_tokens_bounds_witness :
  let r := {| mode := Rotating; grace_period_seconds := 300; max_lifetime_seconds := 315360000 |} in
  is_u64 (grace_period_seconds r * 1000) /\ is_u64 (max_lifetime_seconds r * 1000).
Proof. intros r. apply refresh_tokens_bounds. reflexivity. Defined.

Lemma validated_relay_witness : ValidRelay relay.
Proof. apply validated_relay. vm_compute. reflexivity. Defined.
End Example.
