(* ===== verification/Layout.v ===== *)
(** * Layout: request paths and endpoints

    Models crates/oauthrelay-core/src/layout.rs: the [PathLayout] contract as a class with its
    law, and [DefaultLayout], whose [parse] and [path] discharge it. *)

From S2P Require Import Prelude Text Url Model.
#[local] Open Scope string_scope.

Inductive Endpoint := Authorize | Callback | Token | Discovery | Jwks.

#[export] Instance endpoint_eq_dec : EqDecision Endpoint.
Proof. solve_decision. Defined.

(** [Endpoint::ALL]. *)
Definition ALL : list Endpoint := [Authorize; Callback; Token; Discovery; Jwks].

(** ** The contract *)

(** A layout interprets request paths below [public_url] and renders the paths it hands out. *)
Class PathLayout := {
  layout_parse : string -> option (Endpoint * ResourceKey);
  layout_path : Endpoint -> ResourceKey -> string;
}.

(** [parse] inverts [path] on the keys the layout accepts. *)
Class PathLayoutLaws (L : PathLayout) (accepts : ResourceKey -> Prop) : Prop := {
  parse_path e k : accepts k -> layout_parse (layout_path e k) = Some (e, k);
}.

(** Two endpoints or two keys never share a path. *)
Lemma layout_path_inj {L : PathLayout} {accepts} {HL : PathLayoutLaws L accepts} e k e' k' :
  accepts k -> accepts k' -> layout_path e k = layout_path e' k' -> e = e' /\ k = k'.
Proof.
  intros Hk Hk' Heq. pose proof (parse_path e k Hk) as H1. pose proof (parse_path e' k' Hk') as H2.
  rewrite Heq in H1. by simplify_eq.
Qed.

(** ** The built-in layout *)

(** A host mapper from key segments to a key. *)
Definition KeyMapper : Type := list string -> option ResourceKey.

Inductive KeyStrategy :=
  | SingleSegment
  | TwoSegment
  | Custom (map : KeyMapper).

Record DefaultLayout := { keys : KeyStrategy }.

(** [slice.split_at(len - n)], when the slice ends with [tail]. *)
Definition strip_tail (tail parts : list string) : option (list string) :=
  let n := length parts - length tail in
  if bool_decide (length tail <= length parts) && bool_decide (drop n parts = tail)
  then Some (take n parts) else None.

Definition key_of (strategy : KeyStrategy) (key_parts : list string) : option ResourceKey :=
  match strategy with
  | SingleSegment =>
      match key_parts with [a] => ok (ResourceKey_new a) | _ => None end
  | TwoSegment =>
      match key_parts with
      | [a; b] => ok (ResourceKey_new (a +:+ "/" +:+ b))
      | _ => None
      end
  | Custom map => map key_parts
  end.

(** The endpoint named by the last segment of a relay path. *)
Definition relay_endpoint (name : string) : option Endpoint :=
  if bool_decide (name = "authorize") then Some Authorize
  else if bool_decide (name = "token") then Some Token
  else if bool_decide (name = "jwks") then Some Jwks
  else None.

(** The key segments and the endpoint of a namespaced path. *)
Definition endpoint_of (namespace : string) (namespaced : list string)
    : option (list string * Endpoint) :=
  if bool_decide (namespace = "upstream") && bool_decide (last namespaced = Some "callback")
  then Some (take (length namespaced - 1) namespaced, Callback)
  else if bool_decide (namespace = "relay") then
    match strip_tail [".well-known"; "openid-configuration"] namespaced with
    | Some key_parts => Some (key_parts, Discovery)
    | None =>
        name ← last namespaced;
        e ← relay_endpoint name;
        Some (take (length namespaced - 1) namespaced, e)
    end
  else None.

Definition parse (l : DefaultLayout) (path : string) : option (Endpoint * ResourceKey) :=
  match split "/" (trim "/" path) with
  | [] => None
  | namespace :: namespaced =>
      '(key_parts, e) ← endpoint_of namespace namespaced;
      k ← key_of (keys l) key_parts;
      Some (e, k)
  end.

Definition render (e : Endpoint) (k : ResourceKey) : string :=
  match e with
  | Authorize => "relay/" +:+ key_str k +:+ "/authorize"
  | Callback => "upstream/" +:+ key_str k +:+ "/callback"
  | Token => "relay/" +:+ key_str k +:+ "/token"
  | Discovery => "relay/" +:+ key_str k +:+ "/.well-known/openid-configuration"
  | Jwks => "relay/" +:+ key_str k +:+ "/jwks"
  end.

#[export] Instance default_layout (l : DefaultLayout) : PathLayout :=
  {| layout_parse := parse l; layout_path := render |}.

(** ** Lemmas *)

Definition namespace_of (e : Endpoint) : string :=
  match e with Callback => "upstream" | _ => "relay" end.

Definition suffix_of (e : Endpoint) : list string :=
  match e with
  | Authorize => ["authorize"]
  | Callback => ["callback"]
  | Token => ["token"]
  | Discovery => [".well-known"; "openid-configuration"]
  | Jwks => ["jwks"]
  end.

(** The segments of the path of [e] for a key with segments [parts]. *)
Definition segments (e : Endpoint) (parts : list string) : list string :=
  namespace_of e :: (parts ++ suffix_of e).

Lemma render_join e k parts :
  parts <> [] -> key_str k = join "/" parts -> render e k = join "/" (segments e parts).
Proof.
  intros Hne Hk. unfold segments.
  change (namespace_of e :: parts ++ suffix_of e)
    with ([namespace_of e] ++ (parts ++ suffix_of e))%list.
  rewrite join_app, join_app by (destruct e, parts; done).
  rewrite <-Hk. by destruct e.
Qed.

Lemma strip_tail_Some tail parts l : strip_tail tail parts = Some l <-> parts = (l ++ tail)%list.
Proof.
  unfold strip_tail. split.
  - case_match eqn:E; [|done]. intros [= <-]. reflect. by rewrite <-H0 at 2; rewrite take_drop.
  - intros ->. rewrite length_app.
    replace (length l + length tail - length tail) with (length l) by lia.
    rewrite take_app_length, drop_app_length.
    by rewrite !bool_decide_eq_true_2 by (done || lia).
Qed.

Lemma last_take {A} (l : list A) x : last l = Some x -> l = (take (length l - 1) l ++ [x])%list.
Proof.
  intros [l' ->]%last_Some. rewrite length_app. simpl.
  replace (length l' + 1 - 1) with (length l') by lia. by rewrite take_app_length.
Qed.

Lemma relay_endpoint_Some name e :
  relay_endpoint name = Some e <-> namespace_of e = "relay" /\ suffix_of e = [name].
Proof.
  unfold relay_endpoint. split.
  - repeat case_bool_decide; intros; simplify_eq; done.
  - destruct e; simpl; intros [? ?]; simplify_eq; done.
Qed.

Lemma endpoint_of_Some ns l parts e :
  endpoint_of ns l = Some (parts, e) <-> ns = namespace_of e /\ l = (parts ++ suffix_of e)%list.
Proof.
  unfold endpoint_of. split.
  - case_match eqn:E1.
    { reflect. intros. simplify_eq. split; [done|]. by apply last_take. }
    case_match eqn:E2; [|done]. reflect.
    destruct (strip_tail _ l) as [kp|] eqn:E3.
    { apply strip_tail_Some in E3. intros. by simplify_eq. }
    intros (name & Hlast & (e' & He & ?)%bind_Some)%bind_Some. simplify_eq.
    apply relay_endpoint_Some in He as [<- Hs]. split; [done|]. rewrite Hs. by apply last_take.
  - intros [-> ->].
    destruct (decide (e = Discovery)) as [->|Hne].
    { rewrite bool_decide_eq_false_2 by done. simpl.
      by rewrite (proj2 (strip_tail_Some _ _ parts)). }
    assert (exists name, suffix_of e = [name]) as [name Hs] by (destruct e; simpl; eauto; congruence).
    rewrite Hs, last_snoc, length_app. simpl.
    replace (length parts + 1 - 1) with (length parts) by lia. rewrite take_app_length.
    destruct (decide (e = Callback)) as [->|Hnc].
    { simpl in Hs. simplify_eq.
      by rewrite (bool_decide_eq_true_2 (namespace_of _ = "upstream")), bool_decide_eq_true_2. }
    assert (namespace_of e = "relay") as -> by (by destruct e).
    rewrite (bool_decide_eq_false_2 ("relay" = "upstream")) by done. simpl.
    destruct (strip_tail _ _) as [kp|] eqn:E.
    { apply strip_tail_Some in E. apply (f_equal last) in E.
      rewrite last_snoc, last_app in E. simpl in E. simplify_eq. by destruct e. }
    simpl. replace (relay_endpoint name) with (Some e); [done|].
    symmetry. apply relay_endpoint_Some. split; [by destruct e|done].
Qed.

(** A key the strategy accepts from its own segments. *)
Definition accepted (l : DefaultLayout) (k : ResourceKey) : Prop :=
  key_of (keys l) (split "/" (key_str k)) = Some k
  /\ forall part, part ∈ split "/" (key_str k) -> valid_key_part part = true.

Lemma valid_key_part_chars part : valid_key_part part = true -> contains "/" part = false.
Proof.
  unfold valid_key_part. intros. reflect. apply contains_false.
  eapply str_all_weaken; [|done]. intros c Hc. apply bool_decide_eq_true. intros ->.
  vm_compute in Hc. done.
Qed.

Lemma suffix_chars e part : part ∈ suffix_of e -> contains "/" part = false.
Proof. destruct e; simpl; rewrite ?elem_of_cons, ?elem_of_nil; naive_solver. Qed.

Lemma segments_chars e parts :
  (forall part, part ∈ parts -> contains "/" part = false) ->
  Forall (fun p => contains "/" p = false) (segments e parts).
Proof.
  intros Hp. unfold segments. constructor; [by destruct e|]. apply Forall_app; split.
  - by apply Forall_forall.
  - apply Forall_forall. apply suffix_chars.
Qed.

Lemma join_segments_trim e parts :
  parts <> [] -> trim "/" (join "/" (segments e parts)) = join "/" (segments e parts).
Proof.
  intros Hne. unfold segments. apply trim_id.
  - destruct parts as [|p ps]; [done|]. by destruct e.
  - change (namespace_of e :: parts ++ suffix_of e)
      with ([namespace_of e] ++ (parts ++ suffix_of e))%list.
    rewrite join_app, join_app by (destruct e, parts; done).
    replace (String "/" (join "/" parts +:+ String "/" (join "/" (suffix_of e))))
      with ((String "/" (join "/" parts +:+ "/")) +:+ join "/" (suffix_of e))
      by (simpl; by rewrite str_app_assoc).
    rewrite !last_char_app by (by destruct e). by destruct e.
Qed.

Lemma parse_join l e k parts :
  parts <> [] -> (forall part, part ∈ parts -> contains "/" part = false) ->
  key_of (keys l) parts = Some k ->
  parse l (join "/" (segments e parts)) = Some (e, k).
Proof.
  intros Hne Hp Hk. unfold parse. rewrite join_segments_trim by done.
  rewrite split_join by (by apply segments_chars || done). unfold segments.
  rewrite (proj2 (endpoint_of_Some _ _ parts e)) by done. simpl. by rewrite Hk.
Qed.

Lemma parse_inv l path e k :
  parse l path = Some (e, k) ->
  exists parts, trim "/" path = join "/" (segments e parts) /\ key_of (keys l) parts = Some k.
Proof.
  unfold parse. intros H. destruct (split "/" (trim "/" path)) as [|ns rest] eqn:E; [done|].
  apply bind_Some in H as ([parts e'] & He & (k' & Hk & ?)%bind_Some). simplify_eq.
  apply endpoint_of_Some in He as [-> ->]. exists parts. split; [|done].
  by rewrite <-(join_split "/" (trim "/" path)), E.
Qed.

Lemma ResourceKey_new_str v k : ResourceKey_new v = Ok k -> key_str k = v.
Proof. by intros [-> _]%ResourceKey_new_ok. Qed.

(** The built-in key strategies join the segments back into the key. *)
Lemma key_of_builtin strategy parts k :
  (strategy = SingleSegment \/ strategy = TwoSegment) -> key_of strategy parts = Some k ->
  parts <> [] /\ key_str k = join "/" parts /\ ResourceKey_new (key_str k) = Ok k.
Proof.
  intros [-> | ->]; simpl; destruct parts as [|a [|b [|c parts]]]; try done.
  - destruct (ResourceKey_new a) as [k'|] eqn:E; [|done]. simpl. intros [= ->].
    pose proof (ResourceKey_new_str _ _ E) as ->. done.
  - destruct (ResourceKey_new _) as [k'|] eqn:E; [|done]. simpl. intros [= ->].
    pose proof (ResourceKey_new_str _ _ E) as ->. done.
Qed.

Lemma accepted_parse_path l e k : accepted l k -> parse l (render e k) = Some (e, k).
Proof.
  intros [Hk Hp]. rewrite (render_join e k (split "/" (key_str k))).
  - apply parse_join; [apply split_not_nil| |done]. intros. by apply valid_key_part_chars, Hp.
  - apply split_not_nil.
  - by rewrite join_split.
Qed.

#[export] Instance default_layout_laws l : PathLayoutLaws (default_layout l) (accepted l).
Proof. constructor. intros. by apply accepted_parse_path. Qed.

Lemma accepted_builtin k :
  ResourceKey_new (key_str k) = Ok k ->
  accepted {| keys := match split "/" (key_str k) with [_] => SingleSegment | _ => TwoSegment end |} k
  <-> length (split "/" (key_str k)) <= 2.
Proof.
  intros Hk. pose proof Hk as [_ Hp]%ResourceKey_new_ok. unfold accepted.
  pose proof (join_split "/" (key_str k)) as Hj.
  destruct (split "/" (key_str k)) as [|a [|b [|c parts]]] eqn:E; simpl in *.
  - by apply split_not_nil in E.
  - rewrite Hj, Hk. simpl. split; [lia|]. intros _. split; [done|]. by rewrite <-Hj.
  - rewrite Hj, Hk. simpl. split; [lia|]. intros _. split; [done|]. exact Hp.
  - split; [by intros [? _]|lia].
Qed.

(** ** Properties *)

(** The layout inverts its own paths. For every endpoint, a key with one segment under
    [SingleSegment], or two under [TwoSegment], parses back from the path rendered for it. *)
Theorem layout_round_trip e k :
  ResourceKey_new (key_str k) = Ok k ->
  (length (split "/" (key_str k)) = 1 ->
     parse {| keys := SingleSegment |} (render e k) = Some (e, k))
  /\ (length (split "/" (key_str k)) = 2 ->
     parse {| keys := TwoSegment |} (render e k) = Some (e, k)).
Proof.
  intros Hk. pose proof (proj2 (accepted_builtin k Hk)) as Ha.
  destruct (split "/" (key_str k)) as [|a [|b [|c parts]]] eqn:E; simpl in *.
  - split; lia.
  - split; [intros _|lia]. apply accepted_parse_path, Ha. lia.
  - split; [lia|intros _]. apply accepted_parse_path, Ha. lia.
  - split; lia.
Qed.

(** A request path the built-in layout accepts is, up to leading and trailing slashes, the
    path it renders for the endpoint and key it returns, and that key is a valid resource key: no
    second spelling aliases an endpoint, and no traversal segment reaches the resolver. *)
Theorem layout_no_alias strategy path e k :
  (strategy = SingleSegment \/ strategy = TwoSegment) ->
  parse {| keys := strategy |} path = Some (e, k) ->
  trim "/" path = render e k /\ ResourceKey_new (key_str k) = Ok k.
Proof.
  intros Hs (parts & Ht & Hk)%parse_inv.
  destruct (key_of_builtin _ _ _ Hs Hk) as (Hne & Hstr & Hv).
  by rewrite Ht, (render_join e k parts).
Qed.

Lemma layout_round_trip_witness :
  parse {| keys := TwoSegment |} "relay/project/ext/.well-known/openid-configuration"
  = Some (Discovery, ResourceKey_of "project/ext").
Proof.
  apply (proj2 (layout_round_trip Discovery (ResourceKey_of "project/ext") eq_refl)). reflexivity.
Defined.

Lemma layout_no_alias_witness :
  trim "/" "/relay/google/token/" = render Token (ResourceKey_of "google")
  /\ ResourceKey_new "google" = Ok (ResourceKey_of "google").
Proof.
  apply (layout_no_alias SingleSegment "/relay/google/token/" Token (ResourceKey_of "google")).
  - left. reflexivity.
  - vm_compute. reflexivity.
Defined.
