(* ===== verification/Resolver.v ===== *)
(** * Resolver: provider snapshots and the registry

    Models crates/oauthrelay-core/src/resolver.rs: a snapshot of upstreams and relays keyed by
    resource key, its validation, the merge of the providers' snapshots in order, and the registry
    that serves the merged snapshot. A [HashMap] is a [gmap]; its iteration order is that of
    [map_to_list], and no theorem depends on it. *)

From S2P Require Import Prelude Text Url Model.
#[local] Open Scope string_scope.
#[local] Open Scope relay_scope.

Section WithUrl.
Context {U : UrlLib}.

Record ProviderSnapshot := {
  upstreams : gmap ResourceKey Upstream;
  relays : gmap ResourceKey Relay;
}.

Definition snapshot_default : ProviderSnapshot := {| upstreams := ∅; relays := ∅ |}.

(** The [for (key, value) in &map { check(key, value)?; }] loops of [validate]. *)
Fixpoint check_all {V} (check : ResourceKey -> V -> result unit string)
    (l : list (ResourceKey * V)) : result unit string :=
  match l with
  | [] => Ok tt
  | (key, v) :: l => _ <-? check key v ;; check_all check l
  end.

Definition check_upstream (key : ResourceKey) (u : Upstream) : result unit string :=
  map_err (fun error => "Upstream/" +:+ key_str key +:+ ": " +:+ error) (validate_upstream u).

Definition check_relay (ups : gmap ResourceKey Upstream) (key : ResourceKey) (r : Relay)
    : result unit string :=
  _ <-? map_err (fun error => "Relay/" +:+ key_str key +:+ ": " +:+ error) (Model.validate r) ;;
  ensure bool_decide (is_Some (ups !! relay_upstream r))
    else ("Relay/" +:+ key_str key +:+ ": upstreamRef " +:+ key_str (relay_upstream r)
          +:+ " does not exist") ;;
  Ok tt.

Definition validate_snapshot (s : ProviderSnapshot) : result unit string :=
  _ <-? check_all check_upstream (map_to_list (upstreams s)) ;;
  check_all (check_relay (upstreams s)) (map_to_list (relays s)).

(** One collection of the merge: an entry whose key is taken is logged and dropped. *)
Definition merge_entry {V} (merged : gmap ResourceKey V) (entry : ResourceKey * V)
    : gmap ResourceKey V :=
  match merged !! entry.1 with
  | Some _ => merged
  | None => <[entry.1 := entry.2]> merged
  end.

Definition merge_entries {V} (merged entries : gmap ResourceKey V) : gmap ResourceKey V :=
  foldl merge_entry merged (map_to_list entries).

Definition merge_one (merged snapshot : ProviderSnapshot) : ProviderSnapshot := {|
  upstreams := merge_entries (upstreams merged) (upstreams snapshot);
  relays := merge_entries (relays merged) (relays snapshot);
|}.

(** [Registry::merge_ordered]; the provider names only label the log lines. *)
Definition merge_ordered (snapshots : list (string * ProviderSnapshot)) : ProviderSnapshot :=
  foldl (fun merged s => merge_one merged s.2) snapshot_default snapshots.

(** ** Serving *)

(** [ResourceResolver]: lookups that may fail in the backing provider. *)
Class ResourceResolver (S : Type) := {
  resolve_relay : S -> ResourceKey -> result (option Relay) string;
  resolve_upstream : S -> ResourceKey -> result (option Upstream) string;
}.

Record Registry := { resources : ProviderSnapshot }.

Definition registry_default : Registry := {| resources := snapshot_default |}.
Definition replace (r : Registry) (s : ProviderSnapshot) : Registry := {| resources := s |}.
Definition snapshot (r : Registry) : ProviderSnapshot := resources r.

#[export] Instance snapshot_resolver : ResourceResolver ProviderSnapshot := {|
  resolve_relay s key := Ok (relays s !! key);
  resolve_upstream s key := Ok (upstreams s !! key);
|}.

#[export] Instance registry_resolver : ResourceResolver Registry := {|
  resolve_relay r key := Ok (relays (resources r) !! key);
  resolve_upstream r key := Ok (upstreams (resources r) !! key);
|}.

(** ** Lemmas *)

Lemma check_all_ok {V} check (l : list (ResourceKey * V)) :
  check_all check l = Ok tt <-> forall key v, (key, v) ∈ l -> check key v = Ok tt.
Proof.
  induction l as [|[key v] l IH]; simpl.
  { split; [|done]. intros _ key v Hin. by apply not_elem_of_nil in Hin. }
  destruct (check key v) as [[]|e] eqn:E; simpl.
  - rewrite IH. setoid_rewrite elem_of_cons. naive_solver.
  - split; [done|]. intros H. rewrite <-E. apply H, list_elem_of_here.
Qed.

Lemma check_all_map_ok {V} check (m : gmap ResourceKey V) :
  check_all check (map_to_list m) = Ok tt <-> forall key v, m !! key = Some v -> check key v = Ok tt.
Proof. rewrite check_all_ok. by setoid_rewrite elem_of_map_to_list. Qed.

Lemma merge_entry_lookup {V} (m : gmap ResourceKey V) entry k :
  merge_entry m entry !! k
  = match m !! k with Some v => Some v | None => if bool_decide (entry.1 = k) then Some entry.2 else None end.
Proof.
  unfold merge_entry. case_bool_decide as Hk.
  - subst. destruct (m !! entry.1) eqn:E; [by rewrite E|]. by rewrite lookup_insert_eq.
  - destruct (m !! entry.1) eqn:E; [by case_match|].
    rewrite lookup_insert_ne by done. by case_match.
Qed.

Lemma foldl_merge_lookup {V} (l : list (ResourceKey * V)) m k :
  NoDup l.*1 ->
  foldl merge_entry m l !! k
  = match m !! k with Some v => Some v | None => (list_to_map l : gmap ResourceKey V) !! k end.
Proof.
  revert m. induction l as [|[k' v'] l IH]; intros m Hd; simpl.
  { rewrite lookup_empty. by case_match. }
  inversion_clear Hd as [|?? Hnin Hd']. rewrite IH by done. rewrite merge_entry_lookup. simpl.
  destruct (m !! k); [done|]. case_bool_decide; subst.
  - by rewrite lookup_insert_eq.
  - by rewrite lookup_insert_ne.
Qed.

Lemma merge_entries_union {V} (m n : gmap ResourceKey V) : merge_entries m n = m ∪ n.
Proof.
  apply map_eq. intros k. unfold merge_entries.
  rewrite foldl_merge_lookup by apply NoDup_fst_map_to_list. rewrite list_to_map_to_list.
  rewrite lookup_union. by destruct (m !! k), (n !! k).
Qed.

Definition extends (s t : ProviderSnapshot) : Prop :=
  upstreams s ⊆ upstreams t /\ relays s ⊆ relays t.

Record ValidSnapshot (s : ProviderSnapshot) : Prop := {
  valid_upstreams key u : upstreams s !! key = Some u -> validate_upstream u = Ok tt;
  valid_relays key r : relays s !! key = Some r -> Model.validate r = Ok tt;
  valid_refs key r : relays s !! key = Some r -> is_Some (upstreams s !! relay_upstream r);
}.

Lemma map_err_ok {E F} (f : E -> F) (r : result unit E) : map_err f r = Ok tt <-> r = Ok tt.
Proof. by destruct r as [[]|]. Qed.

Lemma check_relay_ok ups key r :
  check_relay ups key r = Ok tt <-> Model.validate r = Ok tt /\ is_Some (ups !! relay_upstream r).
Proof.
  unfold check_relay. destruct (Model.validate r) as [[]|]; simpl; [|naive_solver].
  case_bool_decide; naive_solver.
Qed.

Lemma validate_snapshot_ok s : validate_snapshot s = Ok tt <-> ValidSnapshot s.
Proof.
  assert (validate_snapshot s = Ok tt <->
    check_all check_upstream (map_to_list (upstreams s)) = Ok tt
    /\ check_all (check_relay (upstreams s)) (map_to_list (relays s)) = Ok tt) as ->.
  { unfold validate_snapshot. destruct (check_all check_upstream _) as [[]|]; simpl; naive_solver. }
  rewrite !check_all_map_ok. unfold check_upstream. setoid_rewrite map_err_ok.
  setoid_rewrite check_relay_ok. split.
  - intros [Hu Hr]. split; [done| |]; intros; eapply Hr; done.
  - intros [Hu Hr Hx]. eauto.
Qed.

Lemma merge_one_valid m s : ValidSnapshot m -> ValidSnapshot s -> ValidSnapshot (merge_one m s).
Proof.
  intros [Mu Mr Mx] [Su Sr Sx]. unfold merge_one. split; simpl; intros key v;
    rewrite !merge_entries_union, lookup_union_Some_raw.
  - intros [?|[??]]; eauto.
  - intros [?|[??]]; eauto.
  - intros Hk. rewrite lookup_union.
    assert (is_Some (upstreams m !! relay_upstream v) \/ is_Some (upstreams s !! relay_upstream v)) as [[u ->]|[u ->]]
      by (destruct Hk as [?|[??]]; eauto).
    + by destruct (upstreams s !! _).
    + by destruct (upstreams m !! _).
Qed.

Lemma snapshot_default_valid : ValidSnapshot snapshot_default.
Proof. split; simpl; intros ??; by rewrite lookup_empty. Qed.

Lemma foldl_merge_valid l m :
  ValidSnapshot m -> (forall p s, (p, s) ∈ l -> ValidSnapshot s) ->
  ValidSnapshot (foldl (fun merged (s : string * ProviderSnapshot) => merge_one merged s.2) m l).
Proof.
  revert m. induction l as [|[p s] l IH]; intros m Hm Hl; simpl; [done|].
  apply IH.
  - apply merge_one_valid; [done|]. apply (Hl p). apply list_elem_of_here.
  - intros p' s' Hin. apply (Hl p'). by apply list_elem_of_further.
Qed.

(** The first provider of the list that knows a key. *)
Fixpoint first_some {A V} (f : A -> option V) (l : list A) : option V :=
  match l with
  | [] => None
  | a :: l => match f a with Some v => Some v | None => first_some f l end
  end.

Lemma foldl_merge_first {V} (proj : ProviderSnapshot -> gmap ResourceKey V) l m k :
  (forall a b, proj (merge_one a b) = proj a ∪ proj b) ->
  proj (foldl (fun merged (s : string * ProviderSnapshot) => merge_one merged s.2) m l) !! k
  = match proj m !! k with
    | Some v => Some v
    | None => first_some (fun s : string * ProviderSnapshot => proj s.2 !! k) l
    end.
Proof.
  intros Hu. revert m. induction l as [|s l IH]; intros m; simpl; [by case_match|].
  rewrite IH, Hu, lookup_union. by destruct (proj m !! k), (proj s.2 !! k).
Qed.

(** ** Properties *)

(** Precedence. For every key, the merged snapshot serves the relay and the upstream of the
    earliest provider that has one under that key, whatever the later providers say. *)
Theorem merge_ordered_first snapshots key :
  relays (merge_ordered snapshots) !! key
    = first_some (fun s : string * ProviderSnapshot => relays s.2 !! key) snapshots
  /\ upstreams (merge_ordered snapshots) !! key
    = first_some (fun s : string * ProviderSnapshot => upstreams s.2 !! key) snapshots.
Proof.
  unfold merge_ordered. split; rewrite foldl_merge_first; try (by simpl; rewrite lookup_empty);
    intros a b; simpl; apply merge_entries_union.
Qed.

(** Merging keeps validity. If every provider's snapshot validates, so does the merged one:
    every upstream and relay served is valid and no relay served refers to an upstream that
    cannot be resolved, even where a collision drops a provider's entry. *)
Theorem merge_ordered_valid snapshots :
  (forall p s, (p, s) ∈ snapshots -> validate_snapshot s = Ok tt) ->
  validate_snapshot (merge_ordered snapshots) = Ok tt
  /\ forall key r, resolve_relay (replace registry_default (merge_ordered snapshots)) key = Ok (Some r) ->
       Model.validate r = Ok tt
       /\ exists u, resolve_upstream (replace registry_default (merge_ordered snapshots)) (relay_upstream r)
                    = Ok (Some u) /\ validate_upstream u = Ok tt.
Proof.
  intros Hs. assert (Hv : ValidSnapshot (merge_ordered snapshots)).
  { apply foldl_merge_valid; [apply snapshot_default_valid|].
    intros p s Hin. by apply validate_snapshot_ok, (Hs p). }
  split; [by apply validate_snapshot_ok|]. destruct Hv as [Hu Hr Hx].
  simpl. intros key r [= Hk]. split; [by eapply Hr|].
  destruct (Hx _ _ Hk) as [u Heq]. exists u. rewrite Heq. split; [done|by eapply Hu].
Qed.

End WithUrl.

Module Example.
Import PlainUrl.

Definition google : Upstream := {|
  up_key := ResourceKey_of "google";
  issuer_url := origin_url Model.Example.https_origin;
  authorization_endpoint := None; token_endpoint := None; jwks_uri := None;
  up_client_id := "client"; up_client_secret := "secret";
  token_endpoint_auth_method := ClientSecretPost;
|}.

Definition first_provider : ProviderSnapshot := {|
  upstreams := {[ ResourceKey_of "google" := google ]};
  relays := {[ ResourceKey_of "project/app" := Model.Example.relay ]};
|}.

Definition second_provider : ProviderSnapshot := {|
  upstreams := {[ ResourceKey_of "google" := google; ResourceKey_of "other" := google ]};
  relays := {[ ResourceKey_of "dev" := Model.Example.relay ]};
|}.

Lemma merge_ordered_valid_witness :
  validate_snapshot (merge_ordered [("file", first_provider); ("ssm", second_provider)]) = Ok tt.
Proof.
  refine (proj1 (merge_ordered_valid [("file", first_provider); ("ssm", second_provider)] _)).
  intros p s [H|[H|H%not_elem_of_nil]%elem_of_cons]%elem_of_cons;
    [injection H as _ ->|injection H as _ ->|destruct H]; vm_compute; reflexivity.
Defined.
End Example.
