(* ===== verification/Store.v ===== *)
(** * Store: the transient store

    Models crates/oauthrelay-core/src/store.rs. [TransientStore]'s contract is an abstract
    expiring map ([Spec]) with a step relation: [slack] bounds how much longer than its TTL a
    record may stay visible. [MemoryStore], with its lazy expiry and periodic sweep, is shown to
    implement the contract with no slack, through the interface [StoreRefines], when the clock
    readings come in the order of the mutex, and a skewed contract ([skewed_run]) when a caller that
    waited for the mutex brings an earlier reading than the one before it; the contract's
    consequences are proved once, for every implementation. Instants and durations are [Z]
    nanoseconds. *)

From S2P Require Import Prelude Text.
#[local] Open Scope string_scope.
#[local] Open Scope relay_scope.

(** ** Requests and answers *)

Definition MAX_KEY_BYTES : nat := 1024.

Inductive StoreError :=
  | Invalid (message : string)
  | Backend (message : string).

Record Entry := { value : bytes; expires_in : Duration }.

(** The methods of [TransientStore], with their arguments. *)
Inductive store_op : Type :=
  | PutIfAbsent (key : string) (value : bytes) (ttl : Duration)
  | Get (key : string)
  | CompareAndSwap (key : string) (expected new : bytes) (ttl : Duration)
  | Delete (key : string).

#[export] Instance store_op_eq_dec : EqDecision store_op.
Proof. solve_decision. Defined.

Definition store_ans (o : store_op) : Type :=
  match o with
  | PutIfAbsent _ _ _ | CompareAndSwap _ _ _ _ => bool
  | Get _ => option Entry
  | Delete _ => unit
  end.

Definition op_key (o : store_op) : string :=
  match o with PutIfAbsent k _ _ | Get k | CompareAndSwap k _ _ _ | Delete k => k end.

Definition op_ttl (o : store_op) : option Duration :=
  match o with
  | PutIfAbsent _ _ ttl | CompareAndSwap _ _ _ ttl => Some ttl
  | _ => None
  end.

Definition validate_key (key : string) : result unit StoreError :=
  ensure negb (is_empty key) else Invalid "key must not be empty" ;;
  ensure (String.length key <=? MAX_KEY_BYTES)%nat else Invalid "key exceeds 1024 bytes" ;;
  Ok tt.

Definition validate_ttl (ttl : Duration) : result unit StoreError :=
  ensure negb (ttl =? 0)%Z else Invalid "ttl must be greater than zero" ;;
  Ok tt.

(** The argument checks every method starts with. *)
Definition validate_op (o : store_op) : result unit StoreError :=
  _ <-? validate_key (op_key o) ;;
  match op_ttl o with Some ttl => validate_ttl ttl | None => Ok tt end.

(** ** The contract: an expiring map *)

(** A record: its value, and the instant at which it expires on the backend's clock. *)
Notation records := (gmap string (bytes * Z)).

(** The live record of a key. *)
Definition live (now : Z) (st : records) (key : string) : option (bytes * Z) :=
  '(v, e) ← st !! key; if (now <? e)%Z then Some (v, e) else None.

Section Spec.
Context (slack : Z).

(** What a read of a live record may answer: its value, and the time left, which a coarse clock may
    round up. *)
Definition reads_as (now : Z) (r : option (bytes * Z)) (a : option Entry) : Prop :=
  match r with
  | None => a = None
  | Some (v, e) =>
      exists left, a = Some {| value := v; expires_in := left |} /\ (e - now <= left <= e - now + slack)%Z
  end.

(** The new expiry a write may choose. *)
Definition fresh_expiry (now ttl e : Z) : Prop := (now + ttl <= e <= now + ttl + slack)%Z.

(** What a store may answer at [now], and the records it keeps. *)
Inductive spec_step (now : Z) (st : records) : forall o, result (store_ans o) StoreError -> records -> Prop :=
  | spec_invalid o e : validate_op o = Err e -> spec_step now st o (Err e) st
  | spec_put k v ttl e :
      validate_op (PutIfAbsent k v ttl) = Ok tt ->
      live now st k = None -> fresh_expiry now ttl e ->
      spec_step now st (PutIfAbsent k v ttl) (Ok true) (<[k := (v, e)]> st)
  | spec_put_taken k v ttl r :
      validate_op (PutIfAbsent k v ttl) = Ok tt ->
      live now st k = Some r -> spec_step now st (PutIfAbsent k v ttl) (Ok false) st
  | spec_get k a :
      validate_op (Get k) = Ok tt -> reads_as now (live now st k) a ->
      spec_step now st (Get k) (Ok a) st
  | spec_swap k expected new ttl e e' :
      validate_op (CompareAndSwap k expected new ttl) = Ok tt ->
      live now st k = Some (expected, e) -> fresh_expiry now ttl e' ->
      spec_step now st (CompareAndSwap k expected new ttl) (Ok true) (<[k := (new, e')]> st)
  | spec_swap_stale k expected new ttl :
      validate_op (CompareAndSwap k expected new ttl) = Ok tt ->
      (forall e, live now st k <> Some (expected, e)) ->
      spec_step now st (CompareAndSwap k expected new ttl) (Ok false) st
  | spec_delete k :
      validate_op (Delete k) = Ok tt ->
      spec_step now st (Delete k) (Ok tt) (delete k st).

(** A call as its caller sees it: a backend failure leaves open whether it was applied. *)
Inductive faulty_step (now : Z) (st : records) (o : store_op)
    : result (store_ans o) StoreError -> records -> Prop :=
  | step_answered r st' : spec_step now st o r st' -> faulty_step now st o r st'
  | step_not_applied m : faulty_step now st o (Err (Backend m)) st
  | step_applied m a st' :
      spec_step now st o (Ok a) st' -> faulty_step now st o (Err (Backend m)) st'.

(** A sequence of calls, each with the instant it took effect and its answer. *)
Record event := { at_time : Z; call : store_op; answer : result (store_ans call) StoreError }.

Inductive spec_run : Z -> records -> list event -> Prop :=
  | run_done t st : spec_run t st []
  | run_step t st e st' l :
      (t <= at_time e)%Z -> faulty_step (at_time e) st (call e) (answer e) st' ->
      spec_run (at_time e) st' l -> spec_run t st (e :: l).
End Spec.

(** ** Implementations *)

(** An executable store: one call at an instant. *)
Class StoreImpl (S : Type) := {
  store_step : Z -> forall o, S -> result (store_ans o) StoreError * S;
}.

Fixpoint impl_run {S} {I : StoreImpl S} (s : S) (calls : list (Z * store_op)) : list event :=
  match calls with
  | [] => []
  | (now, o) :: calls =>
      let '(r, s') := store_step now o s in
      {| at_time := now; call := o; answer := r |} :: impl_run s' calls
  end.

(** Calls whose instants never go back. *)
Fixpoint ordered (t : Z) (calls : list (Z * store_op)) : Prop :=
  match calls with
  | [] => True
  | (now, _) :: calls => (t <= now)%Z /\ ordered now calls
  end.

(** [S] implements the contract: [sim t s st] relates its state at [t] to the abstract records. *)
Class StoreRefines (S : Type) {I : StoreImpl S} (slack : Z) (sim : Z -> S -> records -> Prop) : Prop := {
  sim_step t now s st o r s' :
    sim t s st -> (t <= now)%Z -> store_step now o s = (r, s') ->
    exists st', spec_step slack now st o r st' /\ sim now s' st';
}.

Lemma impl_run_spec {S} {I : StoreImpl S} {slack sim} {HR : StoreRefines S slack sim} s st t calls :
  sim t s st -> ordered t calls -> spec_run slack t st (impl_run s calls).
Proof.
  revert s st t. induction calls as [|[now o] calls IH]; intros s st t Hs Ho; simpl.
  { constructor. }
  destruct Ho as [Ht Ho]. destruct (store_step now o s) as [r s'] eqn:E.
  destruct (sim_step _ _ _ _ _ _ _ Hs Ht E) as (st' & Hstep & Hs').
  econstructor; [done| |]; simpl; eauto using step_answered.
Qed.

(** ** MemoryStore *)

Module Memory.

Definition MEMORY_SWEEP_INTERVAL : Duration := from_secs 30.

Record MemoryState := { m_records : records; next_sweep : Z }.

(** [MemoryStore::with_clock] *)
Definition with_clock (now : Z) : MemoryState :=
  {| m_records := ∅; next_sweep := (now + MEMORY_SWEEP_INTERVAL)%Z |}.

Definition unexpired (now : Z) (kv : string * (bytes * Z)) : Prop := (now < kv.2.2)%Z.

#[global] Instance unexpired_dec now kv : Decision (unexpired now kv).
Proof. unfold unexpired. apply _. Defined.

(** [MemoryStore::lock]: the records expired at [now] are dropped when a sweep is due. The caller
    reads [now] before it waits for the mutex, so from one call to the next the readings may go
    back: [skewed_run] says what remains of the contract then. *)
Definition lock (now : Z) (s : MemoryState) : MemoryState :=
  if (next_sweep s <=? now)%Z
  then {| m_records := filter (unexpired now) (m_records s);
          next_sweep := (now + MEMORY_SWEEP_INTERVAL)%Z |}
  else s.

Definition set_records (s : MemoryState) (r : records) : MemoryState :=
  {| m_records := r; next_sweep := next_sweep s |}.

Definition put_if_absent (now : Z) (key : string) (v : bytes) (ttl : Duration) (s : MemoryState)
    : result bool StoreError * MemoryState :=
  match validate_op (PutIfAbsent key v ttl) with
  | Err e => (Err e, s)
  | Ok _ =>
      let s := lock now s in
      match m_records s !! key with
      | Some (_, expires) =>
          if (now <? expires)%Z then (Ok false, s)
          else (Ok true, set_records s (<[key := (v, now + ttl)%Z]> (m_records s)))
      | None => (Ok true, set_records s (<[key := (v, now + ttl)%Z]> (m_records s)))
      end
  end.

Definition get (now : Z) (key : string) (s : MemoryState)
    : result (option Entry) StoreError * MemoryState :=
  match validate_op (Get key) with
  | Err e => (Err e, s)
  | Ok _ =>
      let s := lock now s in
      (Ok (match m_records s !! key with
           | Some (v, expires) =>
               if (now <? expires)%Z then Some {| value := v; expires_in := (expires - now)%Z |} else None
           | None => None
           end), s)
  end.

Definition compare_and_swap (now : Z) (key : string) (expected new : bytes) (ttl : Duration)
    (s : MemoryState) : result bool StoreError * MemoryState :=
  match validate_op (CompareAndSwap key expected new ttl) with
  | Err e => (Err e, s)
  | Ok _ =>
      let s := lock now s in
      match m_records s !! key with
      | Some (v, expires) =>
          if (now <? expires)%Z && bool_decide (v = expected)
          then (Ok true, set_records s (<[key := (new, now + ttl)%Z]> (m_records s)))
          else (Ok false, s)
      | None => (Ok false, s)
      end
  end.

Definition delete_key (now : Z) (key : string) (s : MemoryState)
    : result unit StoreError * MemoryState :=
  match validate_op (Delete key) with
  | Err e => (Err e, s)
  | Ok _ => let s := lock now s in (Ok tt, set_records s (delete key (m_records s)))
  end.

Definition step (now : Z) (o : store_op) (s : MemoryState)
    : result (store_ans o) StoreError * MemoryState :=
  match o with
  | PutIfAbsent k v ttl => put_if_absent now k v ttl s
  | Get k => get now k s
  | CompareAndSwap k e n ttl => compare_and_swap now k e n ttl s
  | Delete k => delete_key now k s
  end.

#[global] Instance memory_store : StoreImpl MemoryState := {| store_step := step |}.

End Memory.

(** ** Lemmas on live records *)

Lemma live_Some now st k v e : live now st k = Some (v, e) <-> st !! k = Some (v, e) /\ (now < e)%Z.
Proof.
  unfold live. destruct (st !! k) as [[v' e']|]; simpl; [|naive_solver].
  destruct (now <? e')%Z eqn:E; reflect; naive_solver lia.
Qed.

Lemma live_mono t t' st k r : (t <= t')%Z -> live t' st k = Some r -> live t st k = Some r.
Proof. destruct r as [v e]. rewrite !live_Some. intros ? [??]. split; [done|lia]. Qed.

Lemma live_insert t st k k' r :
  live t (<[k := r]> st) k' = if bool_decide (k = k') then (if (t <? r.2)%Z then Some r else None) else live t st k'.
Proof.
  unfold live. case_bool_decide; subst.
  - rewrite lookup_insert_eq. by destruct r.
  - by rewrite lookup_insert_ne.
Qed.

Lemma live_delete t st k k' :
  live t (delete k st) k' = if bool_decide (k = k') then None else live t st k'.
Proof.
  unfold live. case_bool_decide; subst; [by rewrite lookup_delete_eq|by rewrite lookup_delete_ne].
Qed.

Lemma live_filter t t' st k :
  (t <= t')%Z -> live t' (filter (Memory.unexpired t) st) k = live t' st k.
Proof.
  intros Ht. unfold live. rewrite map_lookup_filter.
  destruct (st !! k) as [[v e]|] eqn:E; simpl; [|done].
  destruct (decide (Memory.unexpired t (k, (v, e)))) as [Hu|Hu].
  - rewrite option_guard_True by done. done.
  - rewrite option_guard_False by done. simpl. unfold Memory.unexpired in Hu. simpl in Hu.
    by rewrite (proj2 (Z.ltb_ge t' e)) by lia.
Qed.

(** Records that look the same from an instant on. *)
Definition same_from (t : Z) (a b : records) : Prop :=
  forall k t', (t <= t')%Z -> live t' a k = live t' b k.

Lemma same_from_insert t a b k r :
  same_from t a b -> same_from t (<[k := r]> a) (<[k := r]> b).
Proof. intros H k' t' Ht. rewrite !live_insert, H by done. done. Qed.

Lemma same_from_delete t a b k : same_from t a b -> same_from t (delete k a) (delete k b).
Proof. intros H k' t' Ht. rewrite !live_delete, H by done. done. Qed.

Lemma same_from_later t t' a b : (t <= t')%Z -> same_from t a b -> same_from t' a b.
Proof. intros Ht H k u Hu. apply H. lia. Qed.

#[export] Instance same_from_equiv t : Equivalence (same_from t).
Proof.
  split.
  - intros a k u Hu. done.
  - intros a b H k u Hu. by rewrite H.
  - intros a b c H1 H2 k u Hu. by rewrite H1, H2.
Qed.

#[export] Hint Resolve same_from_insert same_from_delete : relay.

(** ** MemoryStore implements the contract *)

Module MemoryCorrect.
Import Memory.

Definition sim (t : Z) (s : MemoryState) (st : records) : Prop := same_from t (m_records s) st.

Lemma lock_sim now s st : sim now s st -> sim now (lock now s) st.
Proof.
  unfold sim, lock. intros Hs. case_match; [|done]. simpl.
  intros k t' Ht. by rewrite live_filter, Hs.
Qed.

Lemma match_live {A} now st k (f : bytes -> Z -> A) (d : A) :
  match st !! k with Some (v, e) => if (now <? e)%Z then f v e else d | None => d end
  = match live now st k with Some (v, e) => f v e | None => d end.
Proof. unfold live. destruct (st !! k) as [[v e]|]; simpl; [|done]. by destruct (now <? e)%Z. Qed.

Lemma fresh_now now ttl : fresh_expiry 0 now ttl (now + ttl).
Proof. unfold fresh_expiry. lia. Qed.

Lemma put_refines now k v ttl s st r s' :
  sim now s st -> put_if_absent now k v ttl s = (r, s') ->
  exists st', spec_step 0 now st (PutIfAbsent k v ttl) r st' /\ sim now s' st'.
Proof.
  intros Hs Hstep. unfold put_if_absent in Hstep.
  destruct (validate_op (PutIfAbsent k v ttl)) as [[]|e] eqn:Hv; simplify_eq.
  2: { exists st. by split; [constructor|]. }
  apply lock_sim in Hs. set (s1 := lock now s) in *. clearbody s1.
  pose proof (Hs k now (Z.le_refl _)) as Hk.
  assert (Hput : live now (m_records s1) k = None ->
    (r, s') = (Ok true, set_records s1 (<[k := (v, (now + ttl)%Z)]> (m_records s1))) ->
    exists st', spec_step 0 now st (PutIfAbsent k v ttl) r st' /\ sim now s' st').
  { intros Hnone [= -> ->]. exists (<[k := (v, (now + ttl)%Z)]> st). split.
    - constructor; [done|by rewrite <-Hk|apply fresh_now].
    - by apply same_from_insert. }
  destruct (m_records s1 !! k) as [[v' e']|] eqn:E.
  - destruct (now <? e')%Z eqn:Elt.
    + simplify_eq. exists st. split; [|done]. eapply (spec_put_taken 0 _ _ _ _ _ (v', e')); [done|].
      rewrite <-Hk. apply live_Some. split; [done|]. by apply Z.ltb_lt.
    + apply Hput; [|done]. unfold live. rewrite E. simpl. by rewrite Elt.
  - apply Hput; [|done]. unfold live. by rewrite E.
Qed.

Lemma get_refines now k s st r s' :
  sim now s st -> get now k s = (r, s') ->
  exists st', spec_step 0 now st (Get k) r st' /\ sim now s' st'.
Proof.
  intros Hs Hstep. unfold get in Hstep.
  destruct (validate_op (Get k)) as [[]|e] eqn:Hv; simplify_eq.
  2: { exists st. by split; [constructor|]. }
  apply lock_sim in Hs. exists st. split; [|done].
  rewrite (match_live now _ k (fun v e => Some {| value := v; expires_in := (e - now)%Z |})).
  rewrite (Hs k now (Z.le_refl _)). constructor; [done|].
  destruct (live now st k) as [[v e]|]; simpl; [|done]. exists (e - now)%Z. split; [done|lia].
Qed.

Lemma swap_refines now k expected new ttl s st r s' :
  sim now s st -> compare_and_swap now k expected new ttl s = (r, s') ->
  exists st', spec_step 0 now st (CompareAndSwap k expected new ttl) r st' /\ sim now s' st'.
Proof.
  intros Hs Hstep. unfold compare_and_swap in Hstep.
  destruct (validate_op (CompareAndSwap k expected new ttl)) as [[]|e] eqn:Hv; simplify_eq.
  2: { exists st. by split; [constructor|]. }
  apply lock_sim in Hs. set (s1 := lock now s) in *. clearbody s1.
  pose proof (Hs k now (Z.le_refl _)) as Hk.
  assert (Hmiss : (forall e, live now (m_records s1) k <> Some (expected, e)) ->
    (r, s') = (Ok false, s1) ->
    exists st', spec_step 0 now st (CompareAndSwap k expected new ttl) r st' /\ sim now s' st').
  { intros Hm [= -> ->]. exists st. split; [|done]. constructor; [done|]. by rewrite <-Hk. }
  destruct (m_records s1 !! k) as [[v' e']|] eqn:E.
  2: { apply Hmiss; [|done]. unfold live. by rewrite E. }
  destruct ((now <? e')%Z && bool_decide (v' = expected)) eqn:Eb.
  - reflect. exists (<[k := (new, (now + ttl)%Z)]> st). split; [|by apply same_from_insert].
    eapply (spec_swap 0 _ _ _ _ _ _ e'); [done| |apply fresh_now].
    rewrite <-Hk. by apply live_Some.
  - apply Hmiss; [|done]. intros e. rewrite live_Some. intros [Hl Hlt].
    simplify_eq. apply andb_false_iff in Eb as [Eb|Eb].
    + apply Z.ltb_ge in Eb. lia.
    + by apply bool_decide_eq_false in Eb.
Qed.

Lemma delete_refines now k s st r s' :
  sim now s st -> delete_key now k s = (r, s') ->
  exists st', spec_step 0 now st (Delete k) r st' /\ sim now s' st'.
Proof.
  intros Hs Hstep. unfold delete_key in Hstep.
  destruct (validate_op (Delete k)) as [[]|e] eqn:Hv; simplify_eq.
  2: { exists st. by split; [constructor|]. }
  apply lock_sim in Hs. exists (delete k st).
  split; [by constructor|by apply same_from_delete].
Qed.

#[global] Instance memory_refines : StoreRefines MemoryState 0 sim.
Proof.
  constructor. intros t now s st o r s' Hs Ht Hstep.
  apply (same_from_later t now) in Hs; [|done].
  destruct o; simpl in Hstep; eauto using put_refines, get_refines, swap_refines, delete_refines.
Qed.

Lemma with_clock_sim now : sim now (with_clock now) ∅.
Proof. done. Qed.

(** *** Readings of the clock that go back

    A caller reads the clock first and waits for the mutex then. [seen] is the latest reading of
    the calls admitted so far. *)

(** What a call that read [now] may answer when it judges at [at_] which records are live. *)
Definition judged (at_ now : Z) (st st' : records) (o : store_op) : result (store_ans o) StoreError -> Prop :=
  match o with
  | PutIfAbsent k v ttl => fun r =>
      match r with
      | Ok true => live at_ st k = None /\ st' = <[k := (v, now + ttl)%Z]> st
      | Ok false => is_Some (live at_ st k) /\ st' = st
      | Err m => validate_op (PutIfAbsent k v ttl) = Err m /\ st' = st
      end
  | Get k => fun r =>
      match r with
      | Ok a => a = (fun ve => {| value := ve.1; expires_in := (ve.2 - now)%Z |}) <$> live at_ st k /\ st' = st
      | Err m => validate_op (Get k) = Err m /\ st' = st
      end
  | CompareAndSwap k expected new ttl => fun r =>
      match r with
      | Ok true => (exists e, live at_ st k = Some (expected, e)) /\ st' = <[k := (new, now + ttl)%Z]> st
      | Ok false => (forall e, live at_ st k <> Some (expected, e)) /\ st' = st
      | Err m => validate_op (CompareAndSwap k expected new ttl) = Err m /\ st' = st
      end
  | Delete k => fun r =>
      match r with
      | Ok _ => st' = delete k st
      | Err m => validate_op (Delete k) = Err m /\ st' = st
      end
  end.

(** Each call judges at some instant between its own reading and the latest one; a record that it
    writes expires its TTL after its own reading. *)
Inductive skewed_run : Z -> records -> list event -> Prop :=
  | skewed_done seen st : skewed_run seen st []
  | skewed_call seen st e at_ st' l :
      (at_time e <= at_ <= Z.max seen (at_time e))%Z ->
      judged at_ (at_time e) st st' (call e) (answer e) ->
      skewed_run (Z.max seen (at_time e)) st' l -> skewed_run seen st (e :: l).

(** The store keeps what the map keeps, but for records that some reading has passed. *)
Definition keeps (seen : Z) (s : MemoryState) (st : records) : Prop :=
  (forall k x, m_records s !! k = Some x -> st !! k = Some x)
  /\ (forall k v e, st !! k = Some (v, e) -> m_records s !! k = None -> (e <= seen)%Z).

Lemma keeps_later seen seen' s st : (seen <= seen')%Z -> keeps seen s st -> keeps seen' s st.
Proof. intros Hle [H1 H2]. split; [done|]. intros k v e Hk Hn. specialize (H2 _ _ _ Hk Hn). lia. Qed.

Lemma lock_keeps seen now s st : keeps seen s st -> keeps (Z.max seen now) (lock now s) st.
Proof.
  intros Hk. unfold lock. destruct (next_sweep s <=? now)%Z.
  2: { eapply keeps_later, Hk. lia. }
  destruct Hk as [H1 H2]. split; cbn [m_records].
  - intros k x [Hx _]%map_lookup_filter_Some. by apply H1.
  - intros k v e Hk [Hn|Hn]%map_lookup_filter_None; [specialize (H2 _ _ _ Hk Hn); lia|].
    destruct (m_records s !! k) as [x|] eqn:Ex; [|specialize (H2 _ _ _ Hk Ex); lia].
    specialize (Hn _ eq_refl). apply H1 in Ex. rewrite Hk in Ex. injection Ex as <-. unfold unexpired in Hn. simpl in Hn. lia.
Qed.

Lemma keeps_insert seen s st k x : keeps seen s st -> keeps seen (set_records s (<[k := x]> (m_records s))) (<[k := x]> st).
Proof.
  intros [H1 H2]. split; cbn [set_records m_records].
  - intros k' y. destruct (decide (k = k')) as [->|Hne]; [by rewrite !lookup_insert_eq|].
    rewrite !lookup_insert_ne by done. apply H1.
  - intros k' v e. destruct (decide (k = k')) as [->|Hne]; [by rewrite !lookup_insert_eq|].
    rewrite !lookup_insert_ne by done. apply H2.
Qed.

Lemma keeps_delete seen s st k : keeps seen s st -> keeps seen (set_records s (delete k (m_records s))) (delete k st).
Proof.
  intros [H1 H2]. split; cbn [set_records m_records].
  - intros k' y. destruct (decide (k = k')) as [->|Hne]; [by rewrite !lookup_delete_eq|].
    rewrite !lookup_delete_ne by done. apply H1.
  - intros k' v e. destruct (decide (k = k')) as [->|Hne]; [by rewrite !lookup_delete_eq|].
    rewrite !lookup_delete_ne by done. apply H2.
Qed.

(** What the store finds live under a key at [now], the map has live at an instant it may judge at. *)
Lemma keeps_judges seen now s st k :
  (now <= seen)%Z -> keeps seen s st ->
  exists at_, (now <= at_ <= seen)%Z /\ live now (m_records s) k = live at_ st k.
Proof.
  intros Hle [H1 H2]. unfold live. destruct (m_records s !! k) as [x|] eqn:Ex.
  - exists now. split; [lia|]. by rewrite (H1 _ _ Ex).
  - exists seen. split; [lia|]. simpl. destruct (st !! k) as [[v e]|] eqn:Es; [|done]. simpl.
    specialize (H2 _ _ _ Es Ex). by rewrite (proj2 (Z.ltb_ge _ _)) by lia.
Qed.

Lemma valid_error o e : validate_op o = Err e -> forall s now, step now o s = (match o return result (store_ans o) StoreError with
  | PutIfAbsent _ _ _ => Err e | Get _ => Err e | CompareAndSwap _ _ _ _ => Err e | Delete _ => Err e end, s).
Proof.
  intros Hv s now. destruct o; cbn [step]; unfold put_if_absent, get, compare_and_swap, delete_key; by rewrite Hv.
Qed.

Lemma step_judged seen now o s st r s' :
  keeps seen s st -> step now o s = (r, s') ->
  exists at_ st', (now <= at_ <= Z.max seen now)%Z /\ judged at_ now st st' o r /\ keeps (Z.max seen now) s' st'.
Proof.
  intros Hk Hstep. destruct (validate_op o) as [[]|e] eqn:Hv.
  2: { rewrite (valid_error _ _ Hv) in Hstep. exists now, st. apply keeps_later with (seen' := Z.max seen now) in Hk; [|lia].
       destruct o; injection Hstep as <- <-; (split; [lia|done]). }
  apply (lock_keeps seen now) in Hk.
  destruct (keeps_judges _ now _ _ (op_key o) (Z.le_max_r seen now) Hk) as (at_ & Hr & Hlive). exists at_.
  destruct o as [k v ttl|k|k expected new ttl|k]; cbn [step op_key] in *;
    unfold put_if_absent, get, compare_and_swap, delete_key in Hstep; rewrite Hv in Hstep;
    unfold live in Hlive at 1; destruct (m_records (lock now s) !! k) as [[v' e]|] eqn:Ek; simpl in Hlive.
  - destruct (now <? e)%Z; injection Hstep as <- <-; simpl; rewrite <-Hlive; eauto 8 using keeps_insert.
  - injection Hstep as <- <-. simpl. rewrite <-Hlive. eauto 8 using keeps_insert.
  - injection Hstep as <- <-. exists st. simpl. rewrite <-Hlive. by destruct (now <? e)%Z.
  - injection Hstep as <- <-. exists st. simpl. by rewrite <-Hlive.
  - destruct (now <? e)%Z; cbn [andb] in Hstep.
    + destruct (bool_decide (v' = expected)) eqn:Hb; injection Hstep as <- <-; simpl; rewrite <-Hlive.
      * apply bool_decide_eq_true in Hb as ->. eauto 8 using keeps_insert.
      * apply bool_decide_eq_false in Hb. exists st. split_and!; try done; naive_solver.
    + injection Hstep as <- <-. exists st. simpl. by rewrite <-Hlive.
  - injection Hstep as <- <-. exists st. simpl. by rewrite <-Hlive.
  - injection Hstep as <- <-. simpl. eauto 8 using keeps_delete.
  - injection Hstep as <- <-. simpl. eauto 8 using keeps_delete.
Qed.

Lemma impl_run_skewed seen s st calls : keeps seen s st -> skewed_run seen st (impl_run s calls).
Proof.
  revert seen s st. induction calls as [|[now o] calls IH]; intros seen s st Hk; cbn [impl_run]; [constructor|].
  destruct (store_step now o s) as [r s'] eqn:Es.
  destruct (step_judged _ _ _ _ _ _ _ Hk Es) as (at_ & st' & Ht & Hj & Hk').
  eapply skewed_call; [exact Ht|exact Hj|by apply IH].
Qed.

Lemma with_clock_keeps now : keeps now (with_clock now) ∅.
Proof. by split. Qed.
End MemoryCorrect.

(** ** What the contract gives its callers *)

(** The value a call may leave under its key. *)
Definition written (o : store_op) : option bytes :=
  match o with
  | PutIfAbsent _ v _ => Some v
  | CompareAndSwap _ _ v _ => Some v
  | _ => None
  end.

(** A call that may change the record of [k] when one is live. *)
Definition replaces (k : string) (o : store_op) : bool :=
  match o with
  | CompareAndSwap k' _ _ _ | Delete k' => bool_decide (k' = k)
  | _ => false
  end.

Section Contract.
Context {slack : Z}.

(** What a step says, call by call. *)
Definition step_says (now : Z) (st st' : records) (o : store_op)
    : result (store_ans o) StoreError -> Prop :=
  match o with
  | PutIfAbsent k v ttl => fun r =>
      match r with
      | Ok true => live now st k = None
          /\ exists e, fresh_expiry slack now ttl e /\ st' = <[k := (v, e)]> st
      | Ok false => is_Some (live now st k) /\ st' = st
      | Err m => validate_op (PutIfAbsent k v ttl) = Err m /\ st' = st
      end
  | Get k => fun r =>
      match r with
      | Ok a => reads_as slack now (live now st k) a /\ st' = st
      | Err m => validate_op (Get k) = Err m /\ st' = st
      end
  | CompareAndSwap k expected new ttl => fun r =>
      match r with
      | Ok true => (exists e, live now st k = Some (expected, e))
          /\ exists e, fresh_expiry slack now ttl e /\ st' = <[k := (new, e)]> st
      | Ok false => (forall e, live now st k <> Some (expected, e)) /\ st' = st
      | Err m => validate_op (CompareAndSwap k expected new ttl) = Err m /\ st' = st
      end
  | Delete k => fun r =>
      match r with
      | Ok _ => st' = delete k st
      | Err m => validate_op (Delete k) = Err m /\ st' = st
      end
  end.

Lemma spec_step_inv now st o r st' : spec_step slack now st o r st' -> step_says now st st' o r.
Proof. intros Hs. destruct Hs as [o| | | | | |]; simpl; eauto 10. by destruct o. Qed.

Lemma spec_step_other now st o r st' k :
  spec_step slack now st o r st' -> op_key o <> k -> st' !! k = st !! k.
Proof.
  intros Hs Hk.
  destruct Hs; simpl in Hk; try done; by rewrite ?lookup_insert_ne, ?lookup_delete_ne.
Qed.

(** A record written with deadline [deadline] is still there. *)
Definition holds (k : string) (v : bytes) (deadline : Z) (st : records) : Prop :=
  exists e, st !! k = Some (v, e) /\ (deadline <= e)%Z.

Lemma holds_live k v deadline st now :
  holds k v deadline st -> (now < deadline)%Z ->
  exists e, live now st k = Some (v, e) /\ (deadline <= e)%Z.
Proof. intros (e & Hk & Hd) Hn. exists e. split; [|done]. apply live_Some. split; [done|lia]. Qed.

Lemma holds_step k v deadline now st o r st' :
  spec_step slack now st o r st' -> holds k v deadline st -> (now < deadline)%Z ->
  replaces k o = false -> holds k v deadline st'.
Proof.
  intros Hs Hh Hn Hr. destruct (decide (op_key o = k)) as [<-|Hne].
  - destruct (holds_live _ _ _ _ _ Hh Hn) as (e & Hl & He).
    destruct Hs; simpl in *; try done; [congruence| |]; by case_bool_decide.
  - destruct Hh as (e & Hk & He). exists e. by rewrite (spec_step_other _ _ _ _ _ _ Hs Hne).
Qed.

(** What a held record makes of one event. *)
Definition sees_record (k : string) (v : bytes) (deadline : Z) (e : event) : Prop :=
  match call e as o return result (store_ans o) StoreError -> Prop with
  | PutIfAbsent k' _ _ => fun r => k' = k -> r <> Ok true
  | Get k' => fun r =>
      forall a, k' = k -> r = Ok a ->
      exists left, a = Some {| value := v; expires_in := left |} /\ (deadline - at_time e <= left)%Z
  | _ => fun _ => True
  end (answer e).

Lemma holds_sees now st o r st' k v deadline :
  spec_step slack now st o r st' -> holds k v deadline st -> (now < deadline)%Z ->
  sees_record k v deadline {| at_time := now; call := o; answer := r |}.
Proof.
  intros Hs Hh Hn. destruct (holds_live _ _ _ _ _ Hh Hn) as (e & Hl & He).
  unfold sees_record; simpl. destruct Hs as [o m Hv|k' v' ttl|k' v' ttl|k' a' Hv Ha| | |]; simpl in *; try done.
  - by destruct o.
  - intros ->. congruence.
  - intros a -> [= ->]. rewrite Hl in Ha. destruct Ha as (left & -> & ?).
    exists left. split; [done|lia].
Qed.

(** A backend failure changes no more than the call could have changed. *)
Lemma faulty_step_inv now st o r st' :
  faulty_step slack now st o r st' ->
  (exists m, r = Err m) /\ st' = st
  \/ (exists m, r = Err m) /\ (exists a, spec_step slack now st o (Ok a) st')
  \/ spec_step slack now st o r st'.
Proof. intros [r' ? ?|m|m a ? ?]; eauto 10. Qed.

Lemma holds_faulty k v deadline now st o r st' :
  faulty_step slack now st o r st' -> holds k v deadline st -> (now < deadline)%Z ->
  replaces k o = false -> holds k v deadline st'.
Proof. intros [[_ ->]|[[_ [a ?]]|?]]%faulty_step_inv; eauto using holds_step. Qed.

Lemma error_sees k v deadline e m : answer e = Err m -> sees_record k v deadline e.
Proof. destruct e as [now o r]. simpl. intros ->. by destruct o. Qed.

Lemma holds_run t st l k v deadline :
  spec_run slack t st l -> holds k v deadline st ->
  (forall e, e ∈ l -> (at_time e < deadline)%Z /\ replaces k (call e) = false) ->
  forall e, e ∈ l -> sees_record k v deadline e.
Proof.
  intros Hr. induction Hr as [|t st e0 st' l Ht Hs Hr IH]; intros Hh Hl e He.
  { by apply not_elem_of_nil in He. }
  destruct (Hl e0) as [Hn Hrep]; [apply list_elem_of_here|].
  apply elem_of_cons in He as [->|He].
  - apply faulty_step_inv in Hs as [[[m Hm] _]|[[[m Hm] _]|Hs]]; [by eapply error_sees..|].
    destruct e0. by eapply holds_sees.
  - apply IH; [by eapply holds_faulty| |done]. intros e' He'. apply Hl. by apply list_elem_of_further.
Qed.

(** The stored value of [k] is not [v]. *)
Definition lacks (k : string) (v : bytes) (st : records) : Prop :=
  forall e, st !! k <> Some (v, e).

Lemma lacks_step k v now st o r st' :
  spec_step slack now st o r st' -> lacks k v st ->
  (op_key o = k -> written o <> Some v) -> lacks k v st'.
Proof.
  intros Hs Hl Hw. destruct (decide (op_key o = k)) as [<-|Hne].
  - destruct Hs; simpl in *; try done; intros ?;
      rewrite ?lookup_insert_eq, ?lookup_delete_eq; naive_solver.
  - intros e. by rewrite (spec_step_other _ _ _ _ _ _ Hs Hne).
Qed.

Lemma lacks_faulty k v now st o r st' :
  faulty_step slack now st o r st' -> lacks k v st ->
  (op_key o = k -> written o <> Some v) -> lacks k v st'.
Proof. intros [[_ ->]|[[_ [a ?]]|?]]%faulty_step_inv; eauto using lacks_step. Qed.

Lemma answered_ok now st o a st' :
  faulty_step slack now st o (Ok a) st' -> spec_step slack now st o (Ok a) st'.
Proof. by intros [[[? ?] _]|[[[? ?] _]|?]]%faulty_step_inv. Qed.

Lemma lacks_run t st l k v :
  spec_run slack t st l -> lacks k v st ->
  (forall e, e ∈ l -> op_key (call e) = k -> written (call e) <> Some v) ->
  forall now new ttl,
    {| at_time := now; call := CompareAndSwap k v new ttl; answer := Ok true |} ∉ l.
Proof.
  intros Hr. induction Hr as [|t st e0 st' l Ht Hs Hr IH]; intros Hl Hw now new ttl Hin.
  { by apply not_elem_of_nil in Hin. }
  apply elem_of_cons in Hin as [<-|Hin].
  - apply answered_ok, spec_step_inv in Hs as [[e Hlive] _]. apply live_Some in Hlive as [? _]. by eapply Hl.
  - eapply IH; [|intros e He; apply Hw; by apply list_elem_of_further|done].
    eapply lacks_faulty; [done..|]. apply Hw, list_elem_of_here.
Qed.

Lemma run_time t st l e : spec_run slack t st l -> e ∈ l -> (t <= at_time e)%Z.
Proof.
  intros Hr. induction Hr as [|t st e0 st' l Ht Hs Hr IH]; intros He; [by apply not_elem_of_nil in He|].
  apply elem_of_cons in He as [->|He]; [done|]. specialize (IH He). lia.
Qed.

(** While nobody swaps or deletes the key, two successful puts are at least a TTL apart. *)
Lemma puts_apart t st l k v deadline :
  spec_run slack t st l -> holds k v deadline st ->
  (forall e, e ∈ l -> replaces k (call e) = false) ->
  forall now new ttl, {| at_time := now; call := PutIfAbsent k new ttl; answer := Ok true |} ∈ l ->
    (deadline <= now)%Z.
Proof.
  intros Hr. induction Hr as [|t st e0 st' l Ht Hs Hr IH]; intros Hh Hl now new ttl He.
  { by apply not_elem_of_nil in He. }
  destruct (Z.lt_ge_cases (at_time e0) deadline) as [Hd|Hd].
  - apply elem_of_cons in He as [<-|He].
    + apply answered_ok, spec_step_inv in Hs as [Hn _]. simpl in *.
      destruct (holds_live _ _ _ _ _ Hh Hd) as (e & Hlive & _). congruence.
    + eapply IH; [|intros e He'; apply Hl; by apply list_elem_of_further|done].
      eapply holds_faulty; [done..|]. apply Hl, list_elem_of_here.
  - apply elem_of_cons in He as [<-|He]; [done|]. pose proof (run_time _ _ _ _ Hr He) as Hle. simpl in Hle. lia.
Qed.
End Contract.

(** What [MemoryStore] keeps beyond the live records. *)
Section Sweeping.
Import Memory.

Definition swept (now : Z) (s : MemoryState) : Prop :=
  (next_sweep s - MEMORY_SWEEP_INTERVAL <= now < next_sweep s)%Z
  /\ forall k v e, m_records s !! k = Some (v, e) -> (next_sweep s - MEMORY_SWEEP_INTERVAL < e)%Z.

(** [swept], before the lock is taken. *)
Definition sweep_due (now : Z) (s : MemoryState) : Prop :=
  (next_sweep s - MEMORY_SWEEP_INTERVAL <= now)%Z
  /\ forall k v e, m_records s !! k = Some (v, e) -> (next_sweep s - MEMORY_SWEEP_INTERVAL < e)%Z.

Lemma lock_swept now s : sweep_due now s -> swept now (lock now s).
Proof.
  unfold lock, swept, MEMORY_SWEEP_INTERVAL, from_secs. intros [Ht Hs].
  destruct (next_sweep s <=? now)%Z eqn:E; reflect; simpl.
  - split; [lia|]. intros k v e. rewrite map_lookup_filter_Some. unfold unexpired. simpl. lia.
  - split; [|done]. unfold MEMORY_SWEEP_INTERVAL, from_secs in Ht. lia.
Qed.

Lemma set_records_swept now s k v ttl :
  swept now s -> (0 < ttl)%Z -> swept now (set_records s (<[k := (v, (now + ttl)%Z)]> (m_records s))).
Proof.
  intros [Ht Hs] Hp. split; [done|]. simpl. intros k' v' e.
  rewrite lookup_insert_Some. intros [[_ [= _ <-]]|[_ ?]]; [lia|by eapply Hs].
Qed.

Lemma set_delete_swept now s k :
  swept now s -> swept now (set_records s (delete k (m_records s))).
Proof.
  intros [Ht Hs]. split; [done|]. simpl. intros k' v' e. rewrite lookup_delete_Some.
  intros [_ ?]. by eapply Hs.
Qed.

(** Durations are never negative. *)
Definition valid_ttl (o : store_op) : Prop :=
  match op_ttl o with Some ttl => (0 <= ttl)%Z | None => True end.

Lemma validate_op_positive o ttl :
  validate_op o = Ok tt -> op_ttl o = Some ttl -> valid_ttl o -> (0 < ttl)%Z.
Proof.
  unfold validate_op, valid_ttl. intros Hv Ho Hn. rewrite Ho in Hv, Hn.
  destruct (validate_key (op_key o)); simpl in Hv; [|done]. unfold validate_ttl in Hv.
  destruct (ttl =? 0)%Z eqn:E; simpl in Hv; [done|]. apply Z.eqb_neq in E. lia.
Qed.

Lemma step_swept now o s r s' :
  validate_op o = Ok tt -> valid_ttl o -> sweep_due now s -> step now o s = (r, s') ->
  swept now s'.
Proof.
  intros Hv Ht Hs Hstep. apply lock_swept in Hs.
  pose proof (fun ttl H => validate_op_positive o ttl Hv H Ht) as Hp.
  destruct o as [k v ttl|k|k ex new ttl|k]; simpl in Hstep;
    unfold put_if_absent, get, compare_and_swap, delete_key in Hstep; rewrite Hv in Hstep;
    try specialize (Hp _ eq_refl).
  - destruct (_ !! k) as [[??]|]; [destruct (_ <? _)%Z|]; simplify_eq; auto using set_records_swept.
  - by simplify_eq.
  - destruct (_ !! k) as [[??]|]; [destruct (_ && _)|]; simplify_eq; auto using set_records_swept.
  - simplify_eq. by apply set_delete_swept.
Qed.
End Sweeping.

(** ** Properties *)

(** C24: refinement. A caller of the [MemoryStore] reads the clock and then waits for the mutex.
    Whatever its callers do, in whatever order the mutex admits them and however their readings
    lie, each call is answered as the abstract expiring map answers at some instant from the one it
    read up to the latest that a call has read so far, and what it writes expires its TTL after its
    own reading: so no record is seen past its expiry, and none is missed before some reading has
    reached its expiry. When the readings come in the order of the mutex, the answers are those of
    the contract, at those readings: lazy expiry and the 30-second sweep are not observable. *)
Theorem memory_store_contract t0 calls :
  MemoryCorrect.skewed_run t0 ∅ (impl_run (Memory.with_clock t0) calls)
  /\ (ordered t0 calls -> spec_run 0 t0 ∅ (impl_run (Memory.with_clock t0) calls)).
Proof.
  split; [apply MemoryCorrect.impl_run_skewed, MemoryCorrect.with_clock_keeps|].
  apply impl_run_spec, MemoryCorrect.with_clock_sim.
Qed.

(** A record stays visible for its TTL, and a single-use claim has one winner. After a
    successful [put_if_absent], until the TTL has passed and as long as nobody swaps or deletes
    the key, every [get] returns the value with the time it has left and no other
    [put_if_absent] succeeds, in every store that meets the contract. *)
Theorem put_if_absent_exclusive slack t st now k v ttl l :
  spec_run slack t st
    ({| at_time := now; call := PutIfAbsent k v ttl; answer := Ok true |} :: l) ->
  (forall e, e ∈ l -> (at_time e < now + ttl)%Z /\ replaces k (call e) = false) ->
  forall e, e ∈ l -> sees_record k v (now + ttl) e.
Proof.
  intros Hr Hl. inversion Hr as [|??? st' ? Ht Hs Hr']; subst. simpl in *.
  eapply holds_run; [done| |done]. apply answered_ok, spec_step_inv in Hs as (_ & e & [Hf _] & ->).
  exists e. by rewrite lookup_insert_eq.
Qed.

(** Compare-and-swap has one winner. Once a swap of [expected] for [new] succeeds, no later
    swap that expects [expected] succeeds, in every store that meets the contract, as long as
    nobody writes those bytes again, which the contract asks of the writers. *)
Theorem compare_and_swap_exclusive slack t st now k expected new ttl l :
  spec_run slack t st
    ({| at_time := now; call := CompareAndSwap k expected new ttl; answer := Ok true |} :: l) ->
  new <> expected ->
  (forall e, e ∈ l -> op_key (call e) = k -> written (call e) <> Some expected) ->
  forall now' new' ttl',
    {| at_time := now'; call := CompareAndSwap k expected new' ttl'; answer := Ok true |} ∉ l.
Proof.
  intros Hr Hne Hw. inversion Hr as [|??? st' ? Ht Hs Hr']; subst. simpl in *.
  eapply lacks_run; [done| |done]. apply answered_ok, spec_step_inv in Hs as (_ & e' & _ & ->).
  intros e. rewrite lookup_insert_eq. congruence.
Qed.

(** Memory is bounded. After a valid call at [now], a [MemoryStore] keeps no record that
    expired 30 seconds before [now] or earlier. *)
Theorem memory_sweep_bound now o s r s' k v e :
  validate_op o = Ok tt -> valid_ttl o -> sweep_due now s -> Memory.step now o s = (r, s') ->
  Memory.m_records s' !! k = Some (v, e) -> (now - Memory.MEMORY_SWEEP_INTERVAL < e)%Z.
Proof.
  intros Hv Ht Hs Hstep Hk. destruct (step_swept _ _ _ _ _ Hv Ht Hs Hstep) as [Hn Hr].
  specialize (Hr _ _ _ Hk). lia.
Qed.

(** ** The theorems at work on one scenario *)

Module Example.

Definition one : bytes := into_bytes "1".
Definition two : bytes := into_bytes "2".

Definition claims : list (Z * store_op) := [
  (from_secs 0, PutIfAbsent "replay:x" one (from_secs 60));
  (from_secs 1, PutIfAbsent "replay:x" two (from_secs 60));
  (from_secs 31, Get "replay:x") ].

Definition swaps : list (Z * store_op) := [
  (from_secs 2, CompareAndSwap "refresh:handle:h" one two (from_secs 60));
  (from_secs 3, CompareAndSwap "refresh:handle:h" one two (from_secs 60)) ].

Definition held : records := {[ "refresh:handle:h" := (one, from_secs 60) ]}.

Definition second_claim : event :=
  {| at_time := from_secs 1; call := PutIfAbsent "replay:x" two (from_secs 60); answer := Ok false |}.
Definition later_read : event := {|
  at_time := from_secs 31; call := Get "replay:x";
  answer := Ok (Some {| value := one; expires_in := from_secs 29 |}) |}.

Definition held_memory : Memory.MemoryState :=
  {| Memory.m_records := held; Memory.next_sweep := from_secs 30 |}.

Example claims_answers :
  impl_run (Memory.with_clock 0) claims
  = [{| at_time := 0; call := PutIfAbsent "replay:x" one (from_secs 60); answer := Ok true |};
     second_claim; later_read].
Proof. reflexivity. Qed.

Lemma memory_store_contract_witness : spec_run 0 0 ∅ (impl_run (Memory.with_clock 0) claims).
Proof. apply (proj2 (memory_store_contract 0 claims)). vm_compute. repeat split; discriminate. Defined.

(** A reading that goes back: the sweep of the second call, which read the clock 31 seconds later, is
    seen by the third, which read it at second 10 and was admitted last. *)
Example swept_before_its_time :
  impl_run (Memory.with_clock 0)
    [(0%Z, PutIfAbsent "replay:x" one (from_secs 20)); (from_secs 31, Get "replay:y");
     (from_secs 10, PutIfAbsent "replay:x" one (from_secs 20))]
  = [{| at_time := 0; call := PutIfAbsent "replay:x" one (from_secs 20); answer := Ok true |};
     {| at_time := from_secs 31; call := Get "replay:y"; answer := Ok None |};
     {| at_time := from_secs 10; call := PutIfAbsent "replay:x" one (from_secs 20); answer := Ok true |}].
Proof. reflexivity. Qed.

Lemma put_if_absent_exclusive_witness : sees_record "replay:x" one (from_secs 60) later_read.
Proof.
  apply (put_if_absent_exclusive 0 0 ∅ 0 "replay:x" one (from_secs 60) [second_claim; later_read]).
  - rewrite <-claims_answers. apply impl_run_spec; [apply MemoryCorrect.with_clock_sim|].
    vm_compute. repeat split; discriminate.
  - intros e [->|[->|H%not_elem_of_nil]%elem_of_cons]%elem_of_cons; [split; reflexivity..|done].
  - apply list_elem_of_further, list_elem_of_here.
Defined.

Lemma compare_and_swap_exclusive_witness :
  {| at_time := from_secs 3;
     call := CompareAndSwap "refresh:handle:h" one two (from_secs 60); answer := Ok true |}
  ∉ drop 1 (impl_run held_memory swaps).
Proof.
  apply (compare_and_swap_exclusive 0 0 held (from_secs 2) "refresh:handle:h" one two (from_secs 60)).
  - change (spec_run 0 0 held (impl_run held_memory swaps)). apply impl_run_spec; [done|].
    vm_compute. repeat split; discriminate.
  - discriminate.
  - intros e [->|H%not_elem_of_nil]%elem_of_cons; [discriminate|done].
Defined.

Lemma memory_sweep_bound_witness :
  (from_secs 31 - Memory.MEMORY_SWEEP_INTERVAL < from_secs 60)%Z.
Proof.
  apply (memory_sweep_bound (from_secs 31) (Get "refresh:handle:h") held_memory
           (Ok (Some {| value := one; expires_in := from_secs 29 |}))
           (Memory.lock (from_secs 31) held_memory) "refresh:handle:h" one).
  - reflexivity.
  - exact I.
  - split; [vm_compute; discriminate|]. intros k v e. unfold held_memory, held. simpl.
    rewrite lookup_singleton_Some. intros [_ [= _ <-]]. vm_compute. reflexivity.
  - reflexivity.
  - reflexivity.
Defined.
End Example.
