(* ===== verification/Dynamo.v ===== *)
(** * Dynamo: the DynamoDB store

    Models crates/oauthrelay-store-dynamodb/src/lib.rs, with the conditions it asks for. The
    table is behind [DynamoDbClient], which [Aws] implements; [TableLaws] states what the trait documents about it:
    conditional writes, the item returned when a condition fails, retries that report a failure
    after applying, calls that fail with or without having applied, and items that disappear some
    time after they expired. [DynamoDbStore] meets the [Store] contract with a slack of two
    seconds, as long as no two calls write the same bytes. *)

From S2P Require Import Prelude Text Store.
#[local] Open Scope string_scope.
#[local] Open Scope relay_scope.
#[local] Open Scope Z_scope.

Record Item := { item_value : bytes; expires_at : Z }.

Inductive PutCondition :=
  | AbsentOrExpired (now : Z)
  | LiveWithValue (now : Z) (expected : bytes).

Record PutRequest := { pr_key : string; pr_item : Item; pr_condition : PutCondition }.

Inductive PutOutcome :=
  | Written
  | ConditionFailed (existing : option Item).

(** [condition_parts]: [attribute_not_exists(#pk) OR #exp <= :now], and
    [#exp > :now AND #val = :expected]. *)
Definition condition_holds (c : PutCondition) (existing : option Item) : bool :=
  match c, existing with
  | AbsentOrExpired _, None => true
  | AbsentOrExpired now, Some i => expires_at i <=? now
  | LiveWithValue _ _, None => false
  | LiveWithValue now expected, Some i => (now <? expires_at i) && bool_decide (item_value i = expected)
  end.

(** The request's numbers are 64-bit, as its fields are. *)
Definition condition_now (c : PutCondition) : Z :=
  match c with AbsentOrExpired now | LiveWithValue now _ => now end.
Definition request_u64 (rq : PutRequest) : Prop :=
  is_u64 (expires_at (pr_item rq)) /\ is_u64 (condition_now (pr_condition rq)).

(** The table operations; the instant is the service's own. *)
Class DynamoDbClient (S : Type) := {
  put_item : Z -> PutRequest -> S -> result PutOutcome string * S;
  get_item : Z -> string -> S -> result (option Item) string * S;
  delete_item : Z -> string -> S -> result unit string * S;
}.

(** ** The store *)

Section DynamoDbStore.
Context {S : Type} {C : DynamoDbClient S}.

Definition nanos : Z := 1000000000.

(** [unix_now]: whole seconds. *)
Definition unix_now (t : Z) : Z := t / nanos.

Definition applied (outcome : PutOutcome) (written : bytes) (now : Z) : bool :=
  match outcome with
  | Written => true
  | ConditionFailed (Some item) => bool_decide (item_value item = written) && (now <? expires_at item)
  | ConditionFailed None => false
  end.

Definition expiry (now : Z) (ttl : Duration) : Z :=
  let whole := ttl / nanos + (if 0 <? ttl mod nanos then 1 else 0) in
  saturating_add (saturating_add now whole) 1.

(** The conditional write of [put_if_absent] and of [compare_and_swap]. *)
Definition write (t : Z) (key : string) (v : bytes) (ttl : Duration) (condition : Z -> PutCondition)
    (s : S) : result bool StoreError * S :=
  let now := unix_now t in
  let '(outcome, s) := put_item t {|
      pr_key := key;
      pr_item := {| item_value := v; expires_at := expiry now ttl |};
      pr_condition := condition now |} s in
  (outcome <-? map_err Backend outcome ;; Ok (applied outcome v now), s).

Definition put_if_absent (t : Z) (key : string) (v : bytes) (ttl : Duration) (s : S)
    : result bool StoreError * S :=
  match validate_op (PutIfAbsent key v ttl) with
  | Err e => (Err e, s)
  | Ok _ => write t key v ttl AbsentOrExpired s
  end.

Definition get (t : Z) (key : string) (s : S) : result (option Entry) StoreError * S :=
  match validate_op (Get key) with
  | Err e => (Err e, s)
  | Ok _ =>
      let now := unix_now t in
      let '(item, s) := get_item t key s in
      (item <-? map_err Backend item ;;
       Ok (i ← item;
           if now <? expires_at i
           then Some {| value := item_value i; expires_in := from_secs (expires_at i - now) |}
           else None), s)
  end.

Definition compare_and_swap (t : Z) (key : string) (expected new : bytes) (ttl : Duration) (s : S)
    : result bool StoreError * S :=
  match validate_op (CompareAndSwap key expected new ttl) with
  | Err e => (Err e, s)
  | Ok _ => write t key new ttl (fun now => LiveWithValue now expected) s
  end.

Definition delete_key (t : Z) (key : string) (s : S) : result unit StoreError * S :=
  match validate_op (Delete key) with
  | Err e => (Err e, s)
  | Ok _ => let '(r, s) := delete_item t key s in (map_err Backend r, s)
  end.

Definition step (t : Z) (o : store_op) (s : S) : result (store_ans o) StoreError * S :=
  match o with
  | PutIfAbsent k v ttl => put_if_absent t k v ttl s
  | Get k => get t k s
  | CompareAndSwap k e n ttl => compare_and_swap t k e n ttl s
  | Delete k => delete_key t k s
  end.

#[export] Instance dynamo_store : StoreImpl S := {| store_step := step |}.
End DynamoDbStore.

(** ** What the table service documents *)

Notation table := (gmap string Item).

(** Items vanish only after they expired. *)
Definition reclaimed (t : Z) (before after : table) : Prop :=
  after ⊆ before
  /\ forall k i, before !! k = Some i -> after !! k = None -> expires_at i <= unix_now t.

Inductive put_behaves (rq : PutRequest) (b : table) : result PutOutcome string -> table -> Prop :=
  | put_written :
      condition_holds (pr_condition rq) (b !! pr_key rq) = true ->
      put_behaves rq b (Ok Written) (<[pr_key rq := pr_item rq]> b)
  | put_lost_response :
      (* The write applied, its response was lost, and the retry failed against it. *)
      condition_holds (pr_condition rq) (b !! pr_key rq) = true ->
      put_behaves rq b (Ok (ConditionFailed (Some (pr_item rq)))) (<[pr_key rq := pr_item rq]> b)
  | put_refused existing :
      condition_holds (pr_condition rq) (b !! pr_key rq) = false ->
      existing = b !! pr_key rq \/ existing = None ->
      put_behaves rq b (Ok (ConditionFailed existing)) b
  | put_failed m : put_behaves rq b (Err m) b
  | put_failed_applied m :
      condition_holds (pr_condition rq) (b !! pr_key rq) = true ->
      put_behaves rq b (Err m) (<[pr_key rq := pr_item rq]> b).

(** [table_ok] is what holds of the service's state from one call to the next, [items] the records
    of its table. *)
Class TableLaws (S : Type) {C : DynamoDbClient S} (table_ok : S -> Prop) (items : S -> table) : Prop := {
  put_item_law t rq s r s' :
    table_ok s -> request_u64 rq -> put_item t rq s = (r, s') ->
    table_ok s' /\ exists b, reclaimed t (items s) b /\ put_behaves rq b r (items s');
  get_item_law t k s r s' :
    table_ok s -> get_item t k s = (r, s') ->
    table_ok s' /\ reclaimed t (items s) (items s') /\ forall a, r = Ok a -> a = items s' !! k;
  delete_item_law t k s r s' :
    table_ok s -> delete_item t k s = (r, s') ->
    table_ok s' /\ exists b, reclaimed t (items s) b /\
      (items s' = delete k b \/ (items s' = b /\ exists m, r = Err m));
}.

(** ** Lemmas *)

(** The abstract records of a table: expiry in nanoseconds. *)
Definition abs (b : table) : records := (fun i => (item_value i, expires_at i * nanos)) <$> b.

Lemma unix_now_lt t e : unix_now t < e <-> t < e * nanos.
Proof.
  unfold unix_now, nanos. split; intros H.
  - pose proof (Z.mod_pos_bound t 1000000000). pose proof (Z.div_mod t 1000000000). lia.
  - apply Z.div_lt_upper_bound; lia.
Qed.

Lemma live_abs t b k v e :
  live t (abs b) k = Some (v, e)
  <-> exists i, b !! k = Some i /\ unix_now t < expires_at i /\ v = item_value i
      /\ e = expires_at i * nanos.
Proof.
  rewrite live_Some. unfold abs. rewrite lookup_fmap_Some. setoid_rewrite unix_now_lt. split.
  - intros [(i & [= <- <-] & Hk) Hlt]. eauto 10.
  - intros (i & Hk & Hlt & -> & ->). eauto 10.
Qed.

Lemma live_abs_item t b k i :
  b !! k = Some i -> unix_now t < expires_at i ->
  live t (abs b) k = Some (item_value i, expires_at i * nanos).
Proof. intros Hk Hlt. apply live_abs. eauto. Qed.

Lemma live_abs_none t b k :
  live t (abs b) k = None <-> forall i, b !! k = Some i -> expires_at i <= unix_now t.
Proof.
  split.
  - intros Hn i Hk. destruct (Z.lt_ge_cases (unix_now t) (expires_at i)) as [Hlt|]; [|lia].
    rewrite (live_abs_item _ _ _ _ Hk Hlt) in Hn. done.
  - intros Hi. destruct (live t (abs b) k) as [[v e]|] eqn:E; [|done].
    apply live_abs in E as (i & Hk & Hlt & _). specialize (Hi _ Hk). lia.
Qed.

Lemma unix_now_mono t t' : t <= t' -> unix_now t <= unix_now t'.
Proof. intros. unfold unix_now, nanos. apply Z.div_le_mono; lia. Qed.

Lemma reclaimed_same t b b' : reclaimed t b b' -> same_from t (abs b') (abs b).
Proof.
  intros [Hsub Hexp] k t' Ht. pose proof (unix_now_mono _ _ Ht).
  destruct (live t' (abs b) k) as [[v e]|] eqn:E.
  - apply live_abs in E as (i & Hk & Hlt & -> & ->). apply live_abs_item; [|done].
    destruct (b' !! k) as [i'|] eqn:E'.
    + rewrite (lookup_weaken _ _ _ _ E' Hsub) in Hk. by simplify_eq.
    + specialize (Hexp _ _ Hk E'). lia.
  - rewrite live_abs_none in E. apply live_abs_none. intros i Hk. apply E.
    by eapply lookup_weaken.
Qed.

Lemma abs_insert k i b : abs (<[k := i]> b) = <[k := (item_value i, expires_at i * nanos)]> (abs b).
Proof. unfold abs. by rewrite fmap_insert. Qed.

Lemma abs_delete k b : abs (delete k b) = delete k (abs b).
Proof. unfold abs. by rewrite fmap_delete. Qed.

(** The TTL bound of one call: neither clock nor expiry leaves 64 bits. *)
Definition in_range (t : Z) (o : store_op) : Prop :=
  0 <= t /\ forall ttl, op_ttl o = Some ttl -> 0 <= ttl /\ unix_now t + ttl / nanos + 2 <= u64_max.

Definition slack : Z := 2 * nanos.

Lemma expiry_fresh t o ttl :
  in_range t o -> op_ttl o = Some ttl ->
  fresh_expiry slack t ttl (expiry (unix_now t) ttl * nanos).
Proof.
  intros [Ht Hr] Ho. destruct (Hr _ Ho) as [Hp Hb].
  unfold fresh_expiry, slack, expiry, saturating_add, unix_now, nanos in *.
  pose proof (Z.mod_pos_bound t 1000000000). pose proof (Z.div_mod t 1000000000).
  pose proof (Z.mod_pos_bound ttl 1000000000). pose proof (Z.div_mod ttl 1000000000).
  destruct (0 <? ttl mod 1000000000) eqn:E; reflect; lia.
Qed.

Lemma expiry_u64 now ttl : is_u64 now -> 0 <= ttl -> is_u64 (expiry now ttl).
Proof.
  intros [Hn _] Ht. pose proof (Z.div_pos ttl nanos).
  unfold is_u64, expiry, saturating_add, nanos, u64_max in *. destruct (0 <? _); lia.
Qed.

Lemma unix_now_u64 t o ttl : in_range t o -> op_ttl o = Some ttl -> is_u64 (unix_now t).
Proof.
  intros [Ht Hr] Ho. destruct (Hr _ Ho) as [Hp Hb]. pose proof (Z.div_pos ttl nanos).
  pose proof (Z.div_pos t nanos). unfold is_u64, unix_now, nanos in *. lia.
Qed.

Lemma expiry_later t o ttl :
  in_range t o -> op_ttl o = Some ttl -> unix_now t < expiry (unix_now t) ttl.
Proof.
  intros Hr Ho. destruct Hr as [Ht Hr]. destruct (Hr _ Ho) as [Hp Hb].
  pose proof (Z.div_pos ttl nanos). unfold expiry, saturating_add, nanos in *.
  destruct (0 <? _); lia.
Qed.

(** ** The store meets the contract *)

Section Correct.
Context {S : Type} {C : DynamoDbClient S} {table_ok : S -> Prop} {items : S -> table}.
Context {L : TableLaws S table_ok items}.

(** The values in the table come from earlier writes. *)
Definition from_writes (ws : list bytes) (b : table) : Prop :=
  forall k i, b !! k = Some i -> item_value i ∈ ws.

Definition sim (t : Z) (s : S) (st : records) : Prop :=
  table_ok s /\ same_from t (abs (items s)) st.

Lemma from_writes_reclaimed ws t b b' : reclaimed t b b' -> from_writes ws b -> from_writes ws b'.
Proof. intros [Hsub _] Hw k i Hk. eapply Hw. by eapply lookup_weaken. Qed.

Lemma from_writes_insert ws b k i :
  from_writes ws b -> from_writes (item_value i :: ws) (<[k := i]> b).
Proof.
  intros Hw k' i'. rewrite lookup_insert_Some. intros [[_ <-]|[_ Hk]]; [apply list_elem_of_here|].
  by eapply list_elem_of_further, Hw.
Qed.

Lemma from_writes_more ws v b : from_writes ws b -> from_writes (v :: ws) b.
Proof. intros Hw k i Hk. by eapply list_elem_of_further, Hw. Qed.

Lemma sim_reclaimed t b s st : reclaimed t (items s) b -> sim t s st -> same_from t (abs b) st.
Proof. intros Hb [_ Hs]. etrans; [by apply reclaimed_same|done]. Qed.

(** A conditional write, as the contract sees it: [hit] is the step when its condition holds,
    [miss] the one when it does not. *)
Lemma write_refines ws t k v ttl c s st (o : store_op) (inj : bool -> store_ans o) r s' :
  in_range t o -> op_ttl o = Some ttl -> (forall n, condition_now (c n) = n) ->
  v ∉ ws -> from_writes ws (items s) -> sim t s st ->
  (forall b e, same_from t (abs b) st -> condition_holds (c (unix_now t)) (b !! k) = true ->
     fresh_expiry slack t ttl e ->
     spec_step slack t st o (Ok (inj true)) (<[k := (v, e)]> st)) ->
  (forall b, same_from t (abs b) st -> condition_holds (c (unix_now t)) (b !! k) = false ->
     spec_step slack t st o (Ok (inj false)) st) ->
  write t k v ttl c s = (r, s') ->
  exists st', faulty_step slack t st o (match r with Ok a => Ok (inj a) | Err e => Err e end) st'
    /\ sim t s' st' /\ from_writes (v :: ws) (items s').
Proof.
  intros Hr Ho Hn Hv Hw Hs Hhit Hmiss Hstep. unfold write in Hstep.
  destruct (put_item _ _ s) as [outcome s1] eqn:E. simplify_eq.
  apply put_item_law in E as (Hok & b & Hb & Hp); [|apply Hs|].
  2: { pose proof (unix_now_u64 _ _ _ Hr Ho) as Hu. split; cbn [pr_item expires_at pr_condition]; [|by rewrite Hn].
       apply expiry_u64; [done|]. apply (proj2 Hr ttl Ho). }
  simpl in *.
  pose proof (from_writes_reclaimed _ _ _ _ Hb Hw) as Hwb.
  pose proof (sim_reclaimed _ _ _ _ Hb Hs) as Hsb.
  pose proof (expiry_fresh _ _ _ Hr Ho) as He.
  set (i1 := {| item_value := v; expires_at := expiry (unix_now t) ttl |}) in *.
  set (st1 := <[k := (v, expiry (unix_now t) ttl * nanos)]> st).
  enough (exists st', faulty_step slack t st o
      (match (outcome <-? map_err Backend outcome ;; Ok (applied outcome v (unix_now t)) : result bool StoreError)
       with Ok a => Ok (inj a) | Err e => Err e end) st'
      /\ same_from t (abs (items s')) st' /\ from_writes (v :: ws) (items s')) as (st' & ? & ? & ?) by (by exists st').
  remember (items s') as b' eqn:Eb'. clear Eb'.
  assert (Hins : b' = <[k := i1]> b -> same_from t (abs b') st1 /\ from_writes (v :: ws) b').
  { intros ->. rewrite abs_insert. split; [by apply same_from_insert|].
    by apply (from_writes_insert ws b k i1). }
  destruct Hp as [Hc|Hc|existing Hc Hex|m|m Hc]; simpl in *.
  - exists st1. split; [|by apply Hins]. eapply step_answered, Hhit; eauto.
  - exists st1. split; [|by apply Hins]. rewrite bool_decide_eq_true_2 by done.
    rewrite (proj2 (Z.ltb_lt _ _) (expiry_later _ _ _ Hr Ho)). eapply step_answered, Hhit; eauto.
  - exists st. split; [|split; [done|by apply from_writes_more]].
    assert (applied (ConditionFailed existing) v (unix_now t) = false) as Ha.
    { destruct existing as [i|]; simpl; [|done].
      destruct Hex as [Hex|]; [|done]. rewrite bool_decide_eq_false_2; [done|].
      intros <-. apply Hv. by eapply Hwb. }
    simpl in Ha. rewrite Ha. eapply step_answered, Hmiss; eauto.
  - exists st. split; [apply step_not_applied|]. split; [done|by apply from_writes_more].
  - exists st1. split; [|by apply Hins]. eapply step_applied, Hhit; eauto.
Qed.

(** The values written after a call. *)
Definition writes (o : store_op) (ws : list bytes) : list bytes :=
  match written o with Some v => v :: ws | None => ws end.

Lemma dynamo_put_refines ws t k v ttl s st r s' :
  in_range t (PutIfAbsent k v ttl) -> v ∉ ws -> from_writes ws (items s) -> sim t s st ->
  put_if_absent t k v ttl s = (r, s') ->
  exists st', faulty_step slack t st (PutIfAbsent k v ttl) r st'
    /\ sim t s' st' /\ from_writes (v :: ws) (items s').
Proof.
  intros Hr Hv Hw Hs Hstep. unfold put_if_absent in Hstep.
  destruct (validate_op _) as [[]|e] eqn:Hval; simplify_eq.
  2: { exists st. split; [by apply step_answered, spec_invalid|]. split; [done|by apply from_writes_more]. }
  eapply (write_refines ws t k v ttl AbsentOrExpired s st (PutIfAbsent k v ttl) id) in Hstep; eauto.
  - by destruct r.
  - intros b e Hb Hc He. apply spec_put; [done| |done]. rewrite <-Hb by lia.
    apply live_abs_none. intros i Hi. rewrite Hi in Hc. simpl in Hc. by reflect.
  - intros b Hb Hc. destruct (b !! k) as [i|] eqn:Hi; simpl in Hc; [|done]. reflect.
    eapply spec_put_taken; [done|]. rewrite <-Hb by lia. by apply live_abs_item.
Qed.

Lemma dynamo_swap_refines ws t k ex v ttl s st r s' :
  in_range t (CompareAndSwap k ex v ttl) -> v ∉ ws -> from_writes ws (items s) -> sim t s st ->
  compare_and_swap t k ex v ttl s = (r, s') ->
  exists st', faulty_step slack t st (CompareAndSwap k ex v ttl) r st'
    /\ sim t s' st' /\ from_writes (v :: ws) (items s').
Proof.
  intros Hr Hv Hw Hs Hstep. unfold compare_and_swap in Hstep.
  destruct (validate_op _) as [[]|e] eqn:Hval; simplify_eq.
  2: { exists st. split; [by apply step_answered, spec_invalid|]. split; [done|by apply from_writes_more]. }
  eapply (write_refines ws t k v ttl _ s st (CompareAndSwap k ex v ttl) id) in Hstep; eauto.
  - by destruct r.
  - intros b e Hb Hc He. destruct (b !! k) as [i|] eqn:Hi; simpl in Hc; [|done]. reflect.
    eapply spec_swap; [done| |done]. rewrite <-Hb by lia. by apply live_abs_item.
  - intros b Hb Hc. apply spec_swap_stale; [done|]. intros e. rewrite <-Hb by lia.
    rewrite live_abs. intros (i & Hi & Hlt & -> & _). rewrite Hi in Hc. simpl in Hc.
    apply andb_false_iff in Hc as [Hc|Hc]; [apply Z.ltb_ge in Hc; lia|].
    by apply bool_decide_eq_false in Hc.
Qed.

Lemma dynamo_get_refines t k s st r s' :
  sim t s st -> get t k s = (r, s') ->
  exists st', faulty_step slack t st (Get k) r st' /\ sim t s' st' /\ items s' ⊆ items s.
Proof.
  intros Hs Hstep. unfold get in Hstep.
  destruct (validate_op _) as [[]|e] eqn:Hval; simplify_eq.
  2: { exists st. split; [by apply step_answered, spec_invalid|done]. }
  destruct (get_item t k s) as [item s1] eqn:E. simplify_eq.
  apply get_item_law in E as (Hok & Hb & Ha); [|apply Hs]. exists st.
  assert (Hs' : sim t s' st) by (split; [done|by eapply sim_reclaimed]). split; [|split; [done|apply Hb]].
  destruct item as [a|m]; simpl; [|apply step_not_applied].
  rewrite (Ha a) by done. apply step_answered, spec_get; [done|]. destruct Hs' as [_ Hs']. rewrite <-Hs' by lia.
  destruct (items s' !! k) as [i|] eqn:Hi; simpl.
  - destruct (unix_now t <? expires_at i) eqn:Elt; reflect.
    + rewrite (live_abs_item _ _ _ _ Hi Elt). simpl. eexists. split; [done|].
      unfold slack, from_secs, nanos, unix_now, nanos.
      pose proof (Z.mod_pos_bound t 1000000000). pose proof (Z.div_mod t 1000000000). lia.
    + rewrite (proj2 (live_abs_none _ _ _)); [done|]. intros i' ?. by simplify_eq.
  - rewrite (proj2 (live_abs_none _ _ _)); [done|]. intros i' ?. by simplify_eq.
Qed.

Lemma dynamo_delete_refines t k s st r s' :
  sim t s st -> delete_key t k s = (r, s') ->
  exists st', faulty_step slack t st (Delete k) r st' /\ sim t s' st' /\ items s' ⊆ items s.
Proof.
  intros Hs Hstep. unfold delete_key in Hstep.
  destruct (validate_op _) as [[]|e] eqn:Hval; simplify_eq.
  2: { exists st. split; [by apply step_answered, spec_invalid|done]. }
  destruct (delete_item t k s) as [r1 s1] eqn:E. simplify_eq.
  apply delete_item_law in E as (Hok & b & Hb & Hd); [|apply Hs].
  pose proof (sim_reclaimed _ _ _ _ Hb Hs) as Hsb. destruct Hb as [Hsub _].
  destruct Hd as [Hd|[Hd [m ->]]].
  - exists (delete k st). unfold sim. rewrite Hd, abs_delete.
    split; [|split; [by split; [|apply same_from_delete]|]].
    + destruct r1 as [[]|m]; simpl; [by apply step_answered, spec_delete|].
      by eapply step_applied, spec_delete.
    + etrans; [apply delete_subseteq|done].
  - exists st. unfold sim. rewrite Hd. simpl. split; [apply step_not_applied|done].
Qed.

Lemma step_refines ws t t0 o s st r s' :
  in_range t o -> (forall v, written o = Some v -> v ∉ ws) -> from_writes ws (items s) ->
  sim t0 s st -> t0 <= t -> step t o s = (r, s') ->
  exists st', faulty_step slack t st o r st' /\ sim t s' st' /\ from_writes (writes o ws) (items s').
Proof.
  intros Hr Hv Hw [Hok Hs] Ht Hstep. apply (same_from_later _ _ _ _ Ht) in Hs.
  assert (sim t s st) as Hsim by done. clear Hs.
  assert (Hsub : items s' ⊆ items s -> from_writes ws (items s')).
  { intros Hsub k i Hk. eapply Hw. by eapply lookup_weaken. }
  destruct o as [k v ttl|k|k ex v ttl|k]; simpl in Hstep.
  - eapply dynamo_put_refines; eauto.
  - eapply dynamo_get_refines in Hstep as (st' & ? & ? & ?); [|done]. exists st'. split_and!; eauto.
  - eapply dynamo_swap_refines; eauto.
  - eapply dynamo_delete_refines in Hstep as (st' & ? & ? & ?); [|done]. exists st'. split_and!; eauto.
Qed.

(** The values a list of calls writes. *)
Definition all_written (calls : list (Z * store_op)) : list bytes :=
  omap (fun c => written c.2) calls.

Lemma run_refines ws t s st calls :
  sim t s st -> from_writes ws (items s) -> ordered t calls ->
  (forall c, c ∈ calls -> in_range c.1 c.2) ->
  NoDup (all_written calls) -> (forall v, v ∈ all_written calls -> v ∉ ws) ->
  spec_run slack t st (impl_run s calls).
Proof.
  revert ws t s st. induction calls as [|[now o] calls IH]; intros ws t s st Hs Hw Ho Hr Hd Hn; simpl.
  { constructor. }
  destruct Ho as [Ht Ho]. destruct (step now o s) as [r s'] eqn:E.
  assert (Hv : forall v, written o = Some v -> v ∉ ws).
  { intros v Hv. apply Hn. unfold all_written. simpl. rewrite Hv. apply list_elem_of_here. }
  destruct (step_refines ws now t o s st r s') as (st' & Hstep & Hs' & Hw'); try done.
  { apply (Hr (now, o)), list_elem_of_here. }
  econstructor; [done|done|]. simpl. apply (IH (writes o ws)); try done.
  - intros c Hc. apply Hr. by apply list_elem_of_further.
  - unfold all_written in *. simpl in Hd. destruct (written o); [by inversion_clear Hd|done].
  - unfold all_written, writes in *. simpl in Hd, Hn. destruct (written o) as [v|].
    + intros v' Hin. inversion_clear Hd as [|?? Hnin _]. rewrite not_elem_of_cons. split; [by intros ->|].
      apply Hn. by apply list_elem_of_further.
    + done.
Qed.
End Correct.

(** ** Properties *)

(** Refinement. Over any table service that behaves as documented, including lost responses,
    failed calls and lazy deletion, the DynamoDB store meets the transient-store contract: a record
    lives at least its TTL and at most two seconds longer, and a conditional write reports success
    exactly when it took effect, provided no two calls write the same bytes and no expiry leaves
    64 bits. *)
Theorem dynamo_store_contract {S} {C : DynamoDbClient S} {table_ok items}
    {L : TableLaws S table_ok items} s t0 calls :
  table_ok s -> items s = ∅ -> ordered t0 calls -> (forall c, c ∈ calls -> in_range c.1 c.2) ->
  NoDup (all_written calls) ->
  spec_run slack t0 ∅ (impl_run s calls).
Proof.
  intros Hok Hs Ho Hr Hd. apply (run_refines (table_ok := table_ok) (items := items) []); try done.
  - split; [done|]. by rewrite Hs.
  - rewrite Hs. intros k i Hk. by rewrite lookup_empty in Hk.
  - intros v _. apply not_elem_of_nil.
Qed.

(** Expiry. For any TTL and clock within range, the stored expiry is never before the TTL has
    passed and never more than two seconds after. *)
Theorem dynamo_expiry_bounds t o ttl :
  in_range t o -> op_ttl o = Some ttl ->
  t + ttl <= expiry (unix_now t) ttl * nanos <= t + ttl + 2 * nanos.
Proof. apply expiry_fresh. Qed.

(** ** A table that behaves as documented, with scripted faults *)

Module Example.

Inductive fault := NoFault | LostResponse | NotApplied | AppliedError.

Record Table := { t_items : table; faults : list fault }.

Definition next_fault (s : Table) : fault := match faults s with f :: _ => f | [] => NoFault end.
Definition after (b : table) (s : Table) : Table := {| t_items := b; faults := tail (faults s) |}.

Definition table_put (t : Z) (rq : PutRequest) (s : Table) : result PutOutcome string * Table :=
  let b := t_items s in
  if condition_holds (pr_condition rq) (b !! pr_key rq) then
    let b' := <[pr_key rq := pr_item rq]> b in
    match next_fault s with
    | NoFault => (Ok Written, after b' s)
    | LostResponse => (Ok (ConditionFailed (Some (pr_item rq))), after b' s)
    | NotApplied => (Err "timeout", after b s)
    | AppliedError => (Err "timeout", after b' s)
    end
  else (Ok (ConditionFailed (b !! pr_key rq)), after b s).

#[export] Instance table_client : DynamoDbClient Table := {|
  put_item := table_put;
  get_item t k s := (Ok (t_items s !! k), after (t_items s) s);
  delete_item t k s := (Ok tt, after (delete k (t_items s)) s);
|}.

Lemma reclaimed_refl t b : reclaimed t b b.
Proof. split; [done|]. intros k i Hk Hn. congruence. Qed.

#[export] Instance table_laws : TableLaws Table (fun _ => True) t_items.
Proof.
  constructor; simpl.
  - intros t rq s r s' _ _ H. split; [done|]. exists (t_items s). split; [apply reclaimed_refl|]. unfold table_put in H.
    destruct (condition_holds _ _) eqn:E; [destruct (next_fault s)|]; simplify_eq; simpl.
    + by apply put_written.
    + by apply put_lost_response.
    + by apply put_failed.
    + by apply put_failed_applied.
    + apply put_refused; auto.
  - intros t k s r s' _ [= <- <-]. split; [done|]. split; [apply reclaimed_refl|]. by intros a [= <-].
  - intros t k s r s' _ [= <- <-]. split; [done|]. exists (t_items s). split; [apply reclaimed_refl|]. by left.
Qed.

Definition empty_table : Table := {| t_items := ∅; faults := [LostResponse] |}.

Definition calls : list (Z * store_op) := [
  (from_secs 1000, PutIfAbsent "refresh:handle:h" (into_bytes "a") (from_secs 60));
  (from_secs 1001, CompareAndSwap "refresh:handle:h" (into_bytes "a") (into_bytes "b") (from_secs 60));
  (from_secs 1002, CompareAndSwap "refresh:handle:h" (into_bytes "a") (into_bytes "c") (from_secs 60)) ].

(** The first write's response is lost; the retry's refusal is still read as success. *)
Example answers :
  (fun e => match call e as o return result (store_ans o) StoreError -> bool with
            | PutIfAbsent _ _ _ | CompareAndSwap _ _ _ _ => fun r => match r with Ok b => b | Err _ => false end
            | _ => fun _ => false
            end (answer e)) <$> impl_run empty_table calls = [true; true; false].
Proof. vm_compute. reflexivity. Qed.

Lemma dynamo_store_contract_witness :
  spec_run slack (from_secs 1000) ∅ (impl_run empty_table calls).
Proof.
  apply (dynamo_store_contract (table_ok := fun _ => True) (items := t_items)).
  - exact I.
  - reflexivity.
  - vm_compute. repeat split; discriminate.
  - intros c [->|[->|[->|H%not_elem_of_nil]%elem_of_cons]%elem_of_cons]%elem_of_cons;
      [..|destruct H]; (split; [discriminate|]; intros ttl [= <-]; split; vm_compute; discriminate).
  - vm_compute. repeat (constructor; [set_solver|]). constructor.
Defined.

Lemma dynamo_expiry_bounds_witness :
  from_secs 1000 + from_millis 1500 <= expiry (unix_now (from_secs 1000)) (from_millis 1500) * nanos
    <= from_secs 1000 + from_millis 1500 + 2 * nanos.
Proof.
  apply (dynamo_expiry_bounds _ (PutIfAbsent "k" [] (from_millis 1500))); [|reflexivity].
  split; [discriminate|]. intros ttl [= <-]. split; vm_compute; discriminate.
Defined.
End Example.
