(* ===== verification/Aws.v ===== *)
(** * Aws: the table of the DynamoDB store behind the AWS SDK

    Models crates/oauthrelay-store-dynamodb/src/aws.rs: the attributes an item is written as and
    read from, the condition expressions, and the three requests. The SDK is behind [DynamoDbSdk];
    [SdkLaws] states what DynamoDB documents of PutItem, GetItem, DeleteItem and TTL deletion, with
    the fragment of its condition language the expressions use as a parser and an evaluator.
    [AwsDynamoDbClient] then behaves as [Dynamo.TableLaws] asks, so that the store over it meets
    the transient-store contract. *)

From S2P Require Import Prelude Text Format Store Dynamo.
#[local] Open Scope string_scope.
#[local] Open Scope relay_scope.

(** ** The SDK's data *)

(** [AttributeValue]; the adapter reads and writes three of its variants. *)
Inductive AttributeValue :=
  | AttrS (s : string)
  | AttrN (number : string)
  | AttrB (blob : bytes)
  | AttrOther.

#[export] Instance attribute_value_eq_dec : EqDecision AttributeValue.
Proof. solve_decision. Defined.

Notation attributes := (gmap string AttributeValue).

Inductive ReturnValues := AllOld | NoValues.

Record PutItemInput := {
  put_table : string;
  put_attributes : attributes;
  condition_expression : string;
  return_values_on_condition_check_failure : ReturnValues;
  expression_attribute_names : gmap string string;
  expression_attribute_values : attributes;
}.

Inductive PutItemError :=
  | ConditionalCheckFailedException (item : option attributes)
  | PutItemFailed (message : string).

Record GetItemInput := { get_table : string; get_key : attributes; consistent_read : bool }.

Record DeleteItemInput := { delete_table : string; delete_key_of : attributes }.

(** [aws_sdk_dynamodb::Client]; the instant is the service's own. *)
Class DynamoDbSdk (S : Type) := {
  send_put_item : Z -> PutItemInput -> S -> result unit PutItemError * S;
  send_get_item : Z -> GetItemInput -> S -> result (option attributes) string * S;
  send_delete_item : Z -> DeleteItemInput -> S -> result unit string * S;
}.

(** ** Items and conditions *)

Definition KEY_ATTRIBUTE := "pk".
Definition VALUE_ATTRIBUTE := "value".
Definition EXPIRES_ATTRIBUTE := "expires_at".

Definition number (value : Z) : AttributeValue := AttrN (print_u64 value).

Record ConditionParts := {
  cp_expression : string;
  cp_names : list (string * string);
  cp_values : list (string * AttributeValue);
}.

Definition condition_parts (condition : PutCondition) : ConditionParts :=
  match condition with
  | AbsentOrExpired now => {|
      cp_expression := "attribute_not_exists(#pk) OR #exp <= :now";
      cp_names := [("#pk", KEY_ATTRIBUTE); ("#exp", EXPIRES_ATTRIBUTE)];
      cp_values := [(":now", number now)] |}
  | LiveWithValue now expected => {|
      cp_expression := "#exp > :now AND #val = :expected";
      cp_names := [("#exp", EXPIRES_ATTRIBUTE); ("#val", VALUE_ATTRIBUTE)];
      cp_values := [(":now", number now); (":expected", AttrB expected)] |}
  end.

Definition decode_item (key : string) (item : attributes) : result Item string :=
  value <-? match item !! VALUE_ATTRIBUTE with
            | Some (AttrB blob) => Ok blob
            | _ => Err ("item " +:+ debug key +:+ " has no binary " +:+ VALUE_ATTRIBUTE +:+ " attribute")
            end ;;
  expires_at <-? match item !! EXPIRES_ATTRIBUTE with
                 | Some (AttrN number) =>
                     context ("item " +:+ debug key +:+ " has an invalid " +:+ EXPIRES_ATTRIBUTE)
                       (parse_u64 number)
                 | _ => Err ("item " +:+ debug key +:+ " has no numeric " +:+ EXPIRES_ATTRIBUTE
                             +:+ " attribute")
                 end ;;
  Ok {| item_value := value; expires_at := expires_at |}.

Definition key_attribute (key : string) : AttributeValue := AttrS key.

(** ** The requests *)

Section AwsDynamoDbClient.
Context {S : Type} {D : DynamoDbSdk S}.

(** The table the client is bound to. *)
Variable table_name : string.

(** The item a request writes, attribute by attribute. *)
Definition item_attributes (key : string) (i : Item) : attributes :=
  <[EXPIRES_ATTRIBUTE := number (expires_at i)]>
    (<[VALUE_ATTRIBUTE := AttrB (item_value i)]> (<[KEY_ATTRIBUTE := key_attribute key]> ∅)).

Definition put_input (request : PutRequest) : PutItemInput :=
  let condition := condition_parts (pr_condition request) in {|
    put_table := table_name;
    put_attributes := item_attributes (pr_key request) (pr_item request);
    condition_expression := cp_expression condition;
    return_values_on_condition_check_failure := AllOld;
    expression_attribute_names := list_to_map (cp_names condition);
    expression_attribute_values := list_to_map (cp_values condition);
  |}.

Definition aws_put_item (t : Z) (request : PutRequest) (s : S) : result PutOutcome string * S :=
  let '(sent, s) := send_put_item t (put_input request) s in
  (match sent with
   | Ok _ => Ok Written
   | Err (ConditionalCheckFailedException failed) =>
       Ok (ConditionFailed (item ← failed; ok (decode_item (pr_key request) item)))
   | Err (PutItemFailed error) => context "PutItem" (Err error)
   end, s).

Definition aws_get_item (t : Z) (key : string) (s : S) : result (option Item) string * S :=
  let '(output, s) := send_get_item t {|
      get_table := table_name;
      get_key := {[KEY_ATTRIBUTE := key_attribute key]};
      consistent_read := true |} s in
  (output <-? context "GetItem" output ;;
   match output with
   | None => Ok None
   | Some item => i <-? decode_item key item ;; Ok (Some i)
   end, s).

Definition aws_delete_item (t : Z) (key : string) (s : S) : result unit string * S :=
  let '(r, s) := send_delete_item t {|
      delete_table := table_name;
      delete_key_of := {[KEY_ATTRIBUTE := key_attribute key]} |} s in
  (context "DeleteItem" r, s).

#[export] Instance aws_client : DynamoDbClient S := {|
  put_item := aws_put_item;
  get_item := aws_get_item;
  delete_item := aws_delete_item;
|}.
End AwsDynamoDbClient.

(** ** What DynamoDB documents *)

(** *** Condition expressions

    The fragment of the language the adapter uses: [attribute_not_exists], the comparisons, [AND]
    binding tighter than [OR], and placeholders for names and values. *)

Inductive comparison := CmpLe | CmpGt | CmpEq.

Inductive condition :=
  | NotExists (name : string)
  | Compare (name : string) (c : comparison) (value : string)
  | And (a b : condition)
  | Or (a b : condition).

Definition parse_comparison (w : string) : option comparison :=
  if bool_decide (w = "<=") then Some CmpLe
  else if bool_decide (w = ">") then Some CmpGt
  else if bool_decide (w = "=") then Some CmpEq
  else None.

Definition parse_atom (words : list string) : option condition :=
  match words with
  | [w] => rest ← strip_prefix "attribute_not_exists(" w; name ← strip_suffix ")" rest; Some (NotExists name)
  | [name; op; value] => c ← parse_comparison op; Some (Compare name c value)
  | _ => None
  end.

(** The parts of a list of words between the occurrences of one. *)
Fixpoint split_at (w : string) (words : list string) : list (list string) :=
  match words with
  | [] => [[]]
  | v :: words =>
      if bool_decide (v = w) then [] :: split_at w words
      else match split_at w words with
           | part :: parts => (v :: part) :: parts
           | [] => [[v]]
           end
  end.

Fixpoint combine_all (op : condition -> condition -> condition) (l : list condition) : option condition :=
  match l with
  | [] => None
  | [c] => Some c
  | c :: l => op c <$> combine_all op l
  end.

Definition parse_conjunction (words : list string) : option condition :=
  mapM parse_atom (split_at "AND" words) ≫= combine_all And.

Definition parse_condition (expression : string) : option condition :=
  mapM parse_conjunction (split_at "OR" (split " " expression)) ≫= combine_all Or.

(** Numbers compare by their value, binary data byte by byte; [None] is outside the fragment. *)
Definition compare_attributes (c : comparison) (a b : AttributeValue) : option bool :=
  match a, b with
  | AttrN m, AttrN n =>
      x ← ok (parse_u64 m); y ← ok (parse_u64 n);
      Some (match c with CmpLe => (x <=? y)%Z | CmpGt => (y <? x)%Z | CmpEq => (x =? y)%Z end)
  | AttrB x, AttrB y => match c with CmpEq => Some (bool_decide (x = y)) | _ => None end
  | _, _ => None
  end.

Section Evaluate.
Variables (names : gmap string string) (values : attributes) (existing : option attributes).

(** The attribute a name placeholder stands for, in the item if there is one. *)
Definition attribute (name : string) : option (option AttributeValue) :=
  a ← names !! name; Some (item ← existing; item !! a).

(** A comparison with a missing attribute is false. *)
Fixpoint evaluate (c : condition) : option bool :=
  match c with
  | NotExists name => a ← attribute name; Some (bool_decide (a = None))
  | Compare name op value =>
      a ← attribute name; v ← values !! value;
      match a with None => Some false | Some a => compare_attributes op a v end
  | And a b => x ← evaluate a; y ← evaluate b; Some (x && y)
  | Or a b => x ← evaluate a; y ← evaluate b; Some (x || y)
  end.
End Evaluate.

(** What a request's condition says of the existing item. *)
Definition allows (input : PutItemInput) (existing : option attributes) : option bool :=
  c ← parse_condition (condition_expression input);
  evaluate (expression_attribute_names input) (expression_attribute_values input) existing c.

(** *** The table *)

Notation raw_table := (gmap string attributes).

(** The partition key of an item or of a key. *)
Definition partition_key (a : attributes) : option string :=
  match a !! KEY_ATTRIBUTE with Some (AttrS key) => Some key | _ => None end.

(** TTL deletion removes items whose TTL attribute is in the past. *)
Definition ttl_expired (t : Z) (a : attributes) : Prop :=
  exists n e, a !! EXPIRES_ATTRIBUTE = Some (AttrN n) /\ parse_u64 n = Ok e /\ (e <= unix_now t)%Z.

Definition ttl_deleted (t : Z) (before after : raw_table) : Prop :=
  after ⊆ before
  /\ forall k a, before !! k = Some a -> after !! k = None -> ttl_expired t a.

(** The item an exception carries. *)
Definition returned (input : PutItemInput) (existing : option attributes) : option attributes :=
  match return_values_on_condition_check_failure input with AllOld => existing | NoValues => None end.

(** One PutItem request, its retries included. *)
Inductive put_item_behaves (input : PutItemInput) (key : string) (b : raw_table)
    : result unit PutItemError -> raw_table -> Prop :=
  | sdk_written :
      allows input (b !! key) = Some true ->
      put_item_behaves input key b (Ok tt) (<[key := put_attributes input]> b)
  | sdk_lost_response :
      allows input (b !! key) = Some true ->
      put_item_behaves input key b
        (Err (ConditionalCheckFailedException (returned input (Some (put_attributes input)))))
        (<[key := put_attributes input]> b)
  | sdk_refused existing :
      allows input (b !! key) = Some false ->
      existing = returned input (b !! key) \/ existing = None ->
      put_item_behaves input key b (Err (ConditionalCheckFailedException existing)) b
  | sdk_failed m : put_item_behaves input key b (Err (PutItemFailed m)) b
  | sdk_failed_applied m :
      allows input (b !! key) = Some true ->
      put_item_behaves input key b (Err (PutItemFailed m)) (<[key := put_attributes input]> b)
  | sdk_unspecified r b' :
      allows input (b !! key) = None -> put_item_behaves input key b r b'.

Class SdkLaws (S : Type) {D : DynamoDbSdk S} (table_name : string) (raw : S -> raw_table) : Prop := {
  send_put_item_law t input key s r s' :
    put_table input = table_name -> partition_key (put_attributes input) = Some key ->
    send_put_item t input s = (r, s') ->
    exists b, ttl_deleted t (raw s) b /\ put_item_behaves input key b r (raw s');
  send_get_item_law t input key s r s' :
    get_table input = table_name -> partition_key (get_key input) = Some key ->
    consistent_read input = true ->
    send_get_item t input s = (r, s') ->
    ttl_deleted t (raw s) (raw s') /\ forall a, r = Ok a -> a = raw s' !! key;
  send_delete_item_law t input key s r s' :
    delete_table input = table_name -> partition_key (delete_key_of input) = Some key ->
    send_delete_item t input s = (r, s') ->
    exists b, ttl_deleted t (raw s) b /\
      (raw s' = delete key b \/ (raw s' = b /\ exists m, r = Err m));
}.

(** ** Lemmas *)

Lemma decode_item_Ok key a i :
  decode_item key a = Ok i
  <-> a !! VALUE_ATTRIBUTE = Some (AttrB (item_value i))
      /\ exists n, a !! EXPIRES_ATTRIBUTE = Some (AttrN n) /\ parse_u64 n = Ok (expires_at i).
Proof.
  unfold decode_item. split.
  - destruct (a !! VALUE_ATTRIBUTE) as [[]|]; [done..| |done|done].
    destruct (a !! EXPIRES_ATTRIBUTE) as [[|n| |]|]; cbn [res_bind]; [done| |done..].
    destruct (parse_u64 n) eqn:E; [|done]. intros [= <-]. eauto.
  - intros (-> & n & -> & Hn). cbn [res_bind]. rewrite Hn. by destruct i.
Qed.

Lemma decode_written key i : is_u64 (expires_at i) -> decode_item key (item_attributes key i) = Ok i.
Proof.
  intros Hi. apply decode_item_Ok. split; [done|]. exists (print_u64 (expires_at i)).
  split; [done|by apply parse_print_u64].
Qed.

Lemma partition_key_written key i : partition_key (item_attributes key i) = Some key.
Proof. done. Qed.

(** The two expressions, read by the language. *)
Lemma parse_absent_or_expired :
  parse_condition "attribute_not_exists(#pk) OR #exp <= :now"
  = Some (Or (NotExists "#pk") (Compare "#exp" CmpLe ":now")).
Proof. reflexivity. Qed.

Lemma parse_live_with_value :
  parse_condition "#exp > :now AND #val = :expected"
  = Some (And (Compare "#exp" CmpGt ":now") (Compare "#val" CmpEq ":expected")).
Proof. reflexivity. Qed.

Lemma compare_numbers c m n :
  is_u64 m -> is_u64 n ->
  compare_attributes c (number m) (number n)
  = Some (match c with CmpLe => (m <=? n)%Z | CmpGt => (n <? m)%Z | CmpEq => (m =? n)%Z end).
Proof. intros Hm Hn. unfold compare_attributes, number. by rewrite !parse_print_u64. Qed.

(** On items the adapter wrote, a request's expression says what its condition means. *)
Lemma allows_put table_name rq key e :
  request_u64 rq -> (forall i, e = Some i -> is_u64 (expires_at i)) ->
  allows (put_input table_name rq) (item_attributes key <$> e)
  = Some (condition_holds (pr_condition rq) e).
Proof.
  intros [_ Hn] He. unfold allows, put_input. destruct (pr_condition rq) as [now|now expected];
    cbn [condition_now] in Hn;
    cbn [condition_parts cp_expression condition_expression expression_attribute_names
         expression_attribute_values cp_names cp_values].
  - rewrite parse_absent_or_expired. destruct e as [i|]; [|reflexivity].
    change ((x ← Some false; y ← compare_attributes CmpLe (number (expires_at i)) (number now); Some (x || y))
      = Some (condition_holds (AbsentOrExpired now) (Some i))).
    by rewrite compare_numbers by eauto.
  - rewrite parse_live_with_value. destruct e as [i|]; [|reflexivity].
    change ((x ← compare_attributes CmpGt (number (expires_at i)) (number now);
             y ← Some (bool_decide (item_value i = expected)); Some (x && y))
      = Some (condition_holds (LiveWithValue now expected) (Some i))).
    by rewrite compare_numbers by eauto.
Qed.

(** *** The records of a table *)

(** Every item of the table was written by the adapter. *)
Definition well_formed (b : raw_table) : Prop :=
  map_Forall (fun k a => exists i, is_u64 (expires_at i) /\ a = item_attributes k i) b.

Definition decoded (b : raw_table) : table := map_imap (fun k a => ok (decode_item k a)) b.

Lemma lookup_decoded b k : decoded b !! k = a ← b !! k; ok (decode_item k a).
Proof. apply map_lookup_imap. Qed.

Lemma decoded_u64 b k i : well_formed b -> decoded b !! k = Some i -> is_u64 (expires_at i).
Proof.
  intros Hb. rewrite lookup_decoded. destruct (b !! k) as [a|] eqn:E; [|done]. simpl.
  destruct (Hb _ _ E) as (j & Hj & ->). rewrite decode_written by done. by intros [= ->].
Qed.

(** A well-formed table is what its records are written as. *)
Lemma lookup_well_formed b k : well_formed b -> b !! k = item_attributes k <$> decoded b !! k.
Proof.
  intros Hb. rewrite lookup_decoded. destruct (b !! k) as [a|] eqn:E; [|done]. simpl.
  destruct (Hb _ _ E) as (i & Hi & ->). by rewrite decode_written.
Qed.

Lemma decoded_insert b k i :
  is_u64 (expires_at i) -> decoded (<[k := item_attributes k i]> b) = <[k := i]> (decoded b).
Proof.
  intros Hi. apply map_eq. intros k'. rewrite lookup_decoded.
  destruct (decide (k = k')) as [<-|Hk].
  - rewrite !lookup_insert_eq. simpl. by rewrite decode_written.
  - by rewrite !lookup_insert_ne, lookup_decoded.
Qed.

Lemma decoded_delete b k : decoded (delete k b) = delete k (decoded b).
Proof.
  apply map_eq. intros k'. rewrite lookup_decoded. destruct (decide (k = k')) as [<-|Hk].
  - by rewrite !lookup_delete_eq.
  - by rewrite !lookup_delete_ne, lookup_decoded.
Qed.

Lemma well_formed_insert b k i :
  is_u64 (expires_at i) -> well_formed b -> well_formed (<[k := item_attributes k i]> b).
Proof. intros Hi Hb. apply map_Forall_insert_2; eauto. Qed.

Lemma well_formed_delete b k : well_formed b -> well_formed (delete k b).
Proof. apply map_Forall_delete. Qed.

(** TTL deletion of items is reclamation of their records. *)
Lemma ttl_deleted_decoded t b b' :
  well_formed b -> ttl_deleted t b b' -> well_formed b' /\ reclaimed t (decoded b) (decoded b').
Proof.
  intros Hb [Hsub Hexp]. assert (well_formed b') as Hb'.
  { intros k a Hk. apply (Hb k). by eapply lookup_weaken. }
  split; [done|]. split.
  - apply map_subseteq_spec. intros k i Hi. rewrite lookup_decoded in *.
    destruct (b' !! k) as [a|] eqn:E; [|done]. by erewrite lookup_weaken.
  - intros k i Hi Hn. pose proof (lookup_well_formed _ k Hb) as Ha. rewrite Hi in Ha.
    destruct (Hexp _ _ Ha) as (n & e & Hattr & He & Hle).
    { rewrite (lookup_well_formed _ k Hb'), Hn. done. }
    change (Some (number (expires_at i)) = Some (AttrN n)) in Hattr. injection Hattr as <-.
    rewrite parse_print_u64 in He by exact (decoded_u64 _ _ _ Hb Hi). by simplify_eq.
Qed.

(** ** The adapter behaves as the store asks of its client *)

Section Laws.
Context {S : Type} {D : DynamoDbSdk S} {table_name : string} {raw : S -> raw_table}.
Context {L : SdkLaws S table_name raw}.

Definition aws_ok (s : S) : Prop := well_formed (raw s).
Definition aws_items (s : S) : table := decoded (raw s).

Lemma ok_decode_returned key e :
  (forall i, e = Some i -> is_u64 (expires_at i)) ->
  (a ← item_attributes key <$> e; ok (decode_item key a)) = e.
Proof. destruct e as [i|]; intros He; [|done]. simpl. by rewrite decode_written by auto. Qed.

Lemma aws_put_law t rq s r s' :
  aws_ok s -> request_u64 rq -> aws_put_item table_name t rq s = (r, s') ->
  aws_ok s' /\ exists b, reclaimed t (aws_items s) b /\ put_behaves rq b r (aws_items s').
Proof.
  intros Hs Hrq Hput. unfold aws_put_item in Hput.
  destruct (send_put_item _ _ s) as [sent s1] eqn:E. simplify_eq.
  apply (send_put_item_law _ _ (pr_key rq)) in E as (b & Hb & Hp); [|done..].
  destruct (ttl_deleted_decoded _ _ _ Hs Hb) as [Hwf Hre]. clear Hb.
  assert (Hu : forall i, decoded b !! pr_key rq = Some i -> is_u64 (expires_at i)).
  { intros i. by apply decoded_u64. }
  pose proof (allows_put table_name rq (pr_key rq) _ Hrq Hu) as Ha.
  rewrite <-lookup_well_formed in Ha by done. unfold aws_ok, aws_items.
  remember (raw s') as b' eqn:Eb'. clear Eb'. destruct Hrq as [Hi _].
  assert (Hins : well_formed (<[pr_key rq := item_attributes (pr_key rq) (pr_item rq)]> b))
    by (by apply well_formed_insert).
  destruct Hp as [Hc|Hc|existing Hc Hex|m|m Hc|r b' Hc]; cbn [put_attributes put_input] in *;
    try (rewrite Ha in Hc; simplify_eq);
    (split; [done|]); exists (decoded b); (split; [done|]);
    rewrite ?decoded_insert by done.
  - by apply put_written.
  - pose proof (ok_decode_returned (pr_key rq) (Some (pr_item rq)) ltac:(by intros ? [= <-])) as Hret.
    match goal with |- context [ConditionFailed ?e] => replace e with (Some (pr_item rq)) by (symmetry; exact Hret) end.
    by apply put_lost_response.
  - apply put_refused; [done|]. destruct Hex as [->| ->]; [left|by right].
    unfold returned. cbn [put_input return_values_on_condition_check_failure].
    rewrite lookup_well_formed by done. by apply ok_decode_returned.
  - apply put_failed.
  - by apply put_failed_applied.
Qed.

Lemma aws_get_law t k s r s' :
  aws_ok s -> aws_get_item table_name t k s = (r, s') ->
  aws_ok s' /\ reclaimed t (aws_items s) (aws_items s') /\ forall a, r = Ok a -> a = aws_items s' !! k.
Proof.
  intros Hs Hget. unfold aws_get_item in Hget.
  destruct (send_get_item _ _ s) as [output s1] eqn:E. simplify_eq.
  apply (send_get_item_law _ _ k) in E as [Hb Ha]; [|done..].
  destruct (ttl_deleted_decoded _ _ _ Hs Hb) as [Hwf Hre]. split_and!; [done..|].
  intros a Hr. destruct output as [item|m]; [|done]. rewrite (Ha item) in Hr by done.
  unfold aws_items. pose proof (fun i => decoded_u64 (raw s') k i Hwf) as Hu. cbn [context map_err res_bind] in Hr.
  rewrite lookup_well_formed in Hr by done. destruct (decoded (raw s') !! k) as [i|] eqn:Ei.
  - cbn [fmap option_fmap option_map] in Hr. rewrite decode_written in Hr by eauto. by simplify_eq/=.
  - by simplify_eq/=.
Qed.

Lemma aws_delete_law t k s r s' :
  aws_ok s -> aws_delete_item table_name t k s = (r, s') ->
  aws_ok s' /\ exists b, reclaimed t (aws_items s) b /\
    (aws_items s' = delete k b \/ (aws_items s' = b /\ exists m, r = Err m)).
Proof.
  intros Hs Hdel. unfold aws_delete_item in Hdel.
  destruct (send_delete_item _ _ s) as [sent s1] eqn:E. simplify_eq.
  apply (send_delete_item_law _ _ k) in E as (b & Hb & Hd); [|done..].
  destruct (ttl_deleted_decoded _ _ _ Hs Hb) as [Hwf Hre]. unfold aws_ok, aws_items.
  destruct Hd as [->|[-> [m ->]]].
  - split; [by apply well_formed_delete|]. exists (decoded b). rewrite decoded_delete. auto.
  - split; [done|]. exists (decoded b). split; [done|]. right. cbn. eauto.
Qed.

#[export] Instance aws_table_laws :
  TableLaws S (C := aws_client table_name) aws_ok aws_items.
Proof. constructor; [apply aws_put_law|apply aws_get_law|apply aws_delete_law]. Qed.
End Laws.

(** ** Properties *)

(** C25: refinement. The DynamoDB store over the SDK client, on a table that starts empty and
    behaves as DynamoDB documents (its condition language, returned items, strongly consistent
    reads, retries whose response was lost, failed requests, TTL deletion), meets the
    transient-store contract: a record lives at least its TTL and at most two seconds longer, and
    a conditional write reports success exactly when it took effect, provided no two calls write
    the same bytes and no expiry leaves 64 bits. *)
Theorem aws_store_contract {S} {D : DynamoDbSdk S} {table_name raw}
    {L : SdkLaws S table_name raw} s t0 calls :
  raw s = ∅ -> ordered t0 calls -> (forall c, c ∈ calls -> in_range c.1 c.2) ->
  NoDup (all_written calls) ->
  spec_run slack t0 ∅ (impl_run (I := dynamo_store (C := aws_client table_name)) s calls).
Proof.
  intros Hs Ho Hr Hd.
  apply (dynamo_store_contract (C := aws_client table_name) (table_ok := aws_ok (raw := raw))
    (items := aws_items (raw := raw))); try done.
  - unfold aws_ok. by rewrite Hs.
  - unfold aws_items. by rewrite Hs.
Qed.

(** ** A table behind the SDK, with scripted faults *)

Module AwsExample.
Import Dynamo.Example.

Record Service := { rows : raw_table; service_faults : list fault }.

Definition after_request (b : raw_table) (s : Service) : Service :=
  {| rows := b; service_faults := tail (service_faults s) |}.

Definition service_put (t : Z) (input : PutItemInput) (s : Service)
    : result unit PutItemError * Service :=
  match partition_key (put_attributes input) with
  | None => (Err (PutItemFailed "ValidationException"), s)
  | Some key =>
      let b := rows s in
      let b' := <[key := put_attributes input]> b in
      match allows input (b !! key) with
      | None => (Err (PutItemFailed "ValidationException"), s)
      | Some false => (Err (ConditionalCheckFailedException (returned input (b !! key))), after_request b s)
      | Some true =>
          match hd NoFault (service_faults s) with
          | NoFault => (Ok tt, after_request b' s)
          | LostResponse =>
              (Err (ConditionalCheckFailedException (returned input (Some (put_attributes input)))),
               after_request b' s)
          | NotApplied => (Err (PutItemFailed "timeout"), after_request b s)
          | AppliedError => (Err (PutItemFailed "timeout"), after_request b' s)
          end
      end
  end.

#[export] Instance service_sdk : DynamoDbSdk Service := {|
  send_put_item := service_put;
  send_get_item t input s := (Ok (k ← partition_key (get_key input); rows s !! k), s);
  send_delete_item t input s :=
    (Ok tt, after_request (from_option (fun k => delete k (rows s)) (rows s)
                             (partition_key (delete_key_of input))) s);
|}.

Lemma ttl_deleted_refl t b : ttl_deleted t b b.
Proof. split; [done|]. intros k a Hk Hn. congruence. Qed.

#[export] Instance service_laws : SdkLaws Service "oauthrelay" rows.
Proof.
  constructor; simpl.
  - intros t input key s r s' _ Hk H. exists (rows s). split; [apply ttl_deleted_refl|].
    unfold service_put in H. rewrite Hk in H.
    destruct (allows _ _) as [[]|] eqn:E; [destruct (hd _ _)| |]; simplify_eq; simpl.
    + by apply sdk_written.
    + by apply sdk_lost_response.
    + by apply sdk_failed.
    + by apply sdk_failed_applied.
    + apply sdk_refused; auto.
    + by apply sdk_failed.
  - intros t input key s r s' _ Hk _ [= <- <-]. split; [apply ttl_deleted_refl|].
    intros a [= <-]. by rewrite Hk.
  - intros t input key s r s' _ Hk [= <- <-]. exists (rows s). split; [apply ttl_deleted_refl|].
    left. simpl. by rewrite Hk.
Qed.

Definition empty_service : Service := {| rows := ∅; service_faults := [LostResponse] |}.

Definition service_run : list event :=
  impl_run (I := dynamo_store (C := aws_client "oauthrelay")) empty_service calls.

(** The first write's response is lost; the retry's refusal is still read as success. *)
Example aws_answers :
  (fun e => match call e as o return result (store_ans o) StoreError -> bool with
            | PutIfAbsent _ _ _ | CompareAndSwap _ _ _ _ => fun r => match r with Ok b => b | Err _ => false end
            | _ => fun _ => false
            end (answer e)) <$> service_run = [true; true; false].
Proof. vm_compute. reflexivity. Qed.

(** An item without a numeric expiry is an error to read and absent to a failed write. *)
Example undecodable :
  decode_item "k" {[VALUE_ATTRIBUTE := AttrB (into_bytes "v")]}
  = Err ("item " +:+ debug "k" +:+ " has no numeric expires_at attribute").
Proof. reflexivity. Qed.

Lemma aws_store_contract_witness : spec_run slack (from_secs 1000) ∅ service_run.
Proof.
  apply (aws_store_contract (table_name := "oauthrelay") (raw := rows)).
  - reflexivity.
  - vm_compute. repeat split; discriminate.
  - intros c [->|[->|[->|H%not_elem_of_nil]%elem_of_cons]%elem_of_cons]%elem_of_cons;
      [..|destruct H]; (split; [discriminate|]; intros ttl [= <-]; split; vm_compute; discriminate).
  - vm_compute. repeat (constructor; [set_solver|]). constructor.
Defined.
End AwsExample.
