(* ===== verification/Seal.v ===== *)
(** * Seal: authenticated envelopes

    Models crates/oauthrelay-core/src/seal.rs. [Sealer] is the interface the rest of the relay is
    proved against: its laws are what the trait documents. [XChaChaSealer] implements it from an
    AEAD cipher and a base64 codec, which are third-party crates and enter as [Aead] and [Base64]
    with their documented laws. The random nonce is an argument of [seal]. *)

From S2P Require Import Prelude Text.
#[local] Open Scope string_scope.
#[local] Open Scope relay_scope.

Inductive SealError := InvalidKey | InvalidEnvelope | Unavailable.

#[export] Instance seal_error_eq_dec : EqDecision SealError.
Proof. solve_decision. Defined.

(** ** The contract *)

(** [seal] is given the random bytes it draws. *)
Class Sealer (S : Type) := {
  seal : S -> bytes -> bytes -> bytes -> result string SealError;
  unseal : S -> string -> bytes -> result bytes SealError;
}.

(** An envelope sealed by [s] opens under [s'], and only with the associated data it was given. *)
Record Opens {S} {H : Sealer S} (s s' : S) : Prop := {
  opens_same nonce plaintext ad env :
    length nonce = 24 -> seal s nonce plaintext ad = Ok env -> unseal s' env ad = Ok plaintext;
  opens_only nonce plaintext ad env ad' plaintext' :
    length nonce = 24 -> seal s nonce plaintext ad = Ok env -> unseal s' env ad' = Ok plaintext' ->
    ad' = ad /\ plaintext' = plaintext;
}.

(** What the trait asks of an implementation. *)
Class SealerLaws (S : Type) {H : Sealer S} : Prop := {
  sealer_opens (s : S) : Opens s s;
  (* an envelope is a [String] *)
  sealer_text (s : S) nonce plaintext ad env :
    seal s nonce plaintext ad = Ok env -> valid_utf8 env = true;
}.

(** ** Third-party parts *)

Class Aead := {
  encrypt : bytes -> bytes -> bytes -> bytes -> option bytes;   (* key, nonce, data, message *)
  decrypt : bytes -> bytes -> bytes -> bytes -> option bytes;   (* key, nonce, data, ciphertext *)
}.

(** A ciphertext decrypts to its message, under no other key, nonce or associated data, and is
    never empty: it carries the authentication tag. *)
Class AeadLaws (A : Aead) : Prop := {
  decrypt_encrypt key nonce ad msg ct :
    encrypt key nonce ad msg = Some ct -> decrypt key nonce ad ct = Some msg;
  decrypt_authentic key nonce ad msg ct key' nonce' ad' msg' :
    encrypt key nonce ad msg = Some ct -> decrypt key' nonce' ad' ct = Some msg' ->
    key' = key /\ nonce' = nonce /\ ad' = ad;
  encrypt_nonempty key nonce ad msg ct : encrypt key nonce ad msg = Some ct -> ct <> [];
}.

(** [URL_SAFE_NO_PAD]: the characters are URL-safe, decoding inverts encoding, and accepts only
    canonical text. *)
Class Base64 := {
  b64_encode : bytes -> string;
  b64_decode : string -> option bytes;
}.

Definition url_safe (c : ascii) : bool := is_alphanumeric c || bool_decide (c ∈ ["-"; "_"]%char).

Class Base64Laws (B : Base64) : Prop := {
  b64_decode_encode b : b64_decode (b64_encode b) = Some b;
  b64_encode_decode s b : b64_decode s = Some b -> b64_encode b = s;
  b64_alphabet b : str_all url_safe (b64_encode b) = true;
}.

(** ** XChaChaSealer *)

Section XChaCha.
Context {A : Aead} {B : Base64}.

Record XChaChaSealer := { current : bytes; previous : option bytes }.

Definition key_of_slice (key : bytes) : result bytes SealError :=
  ensure bool_decide (length key = 32) else InvalidKey ;; Ok key.

Definition XChaChaSealer_new (cur : bytes) (prev : option bytes) : result XChaChaSealer SealError :=
  cur <-? key_of_slice cur ;;
  prev <-? match prev with
           | Some key => key <-? key_of_slice key ;; Ok (Some key)
           | None => Ok None
           end ;;
  Ok {| current := cur; previous := prev |}.

Definition try_unseal (key nonce ciphertext ad : bytes) : result bytes SealError :=
  ok_or (decrypt key nonce ad ciphertext) InvalidEnvelope.

Definition or_else {T E} (r : result T E) (f : result T E) : result T E :=
  match r with Ok a => Ok a | Err _ => f end.

Definition xchacha_seal (s : XChaChaSealer) (nonce plaintext ad : bytes) : result string SealError :=
  ciphertext <-? ok_or (encrypt (current s) nonce ad plaintext) InvalidEnvelope ;;
  Ok ("v1." +:+ b64_encode (nonce ++ ciphertext)).

Definition xchacha_unseal (s : XChaChaSealer) (envelope : string) (ad : bytes)
    : result bytes SealError :=
  encoded <-? ok_or (strip_prefix "v1." envelope) InvalidEnvelope ;;
  b <-? ok_or (b64_decode encoded) InvalidEnvelope ;;
  ensure negb (length b <=? 24)%nat else InvalidEnvelope ;;
  let nonce := take 24 b in
  let ciphertext := drop 24 b in
  or_else (try_unseal (current s) nonce ciphertext ad)
    (key <-? ok_or (previous s) InvalidEnvelope ;; try_unseal key nonce ciphertext ad).

#[export] Instance xchacha_sealer : Sealer XChaChaSealer := {|
  seal := xchacha_seal;
  unseal := xchacha_unseal;
|}.

(** ** Lemmas *)

Context {AL : AeadLaws A} {BL : Base64Laws B}.

(** The keys a sealer opens with. *)
Definition opens_with (s : XChaChaSealer) (key : bytes) : Prop :=
  current s = key \/ previous s = Some key.

Lemma xchacha_seal_Ok s nonce pt ad env :
  xchacha_seal s nonce pt ad = Ok env <->
  exists ct, encrypt (current s) nonce ad pt = Some ct /\ env = "v1." +:+ b64_encode (nonce ++ ct).
Proof.
  unfold xchacha_seal. destruct (encrypt _ _ _ _); simpl; [|naive_solver].
  split; [intros [= <-]; eauto|]. by intros (ct & [= ->] & ->).
Qed.

Lemma unseal_envelope s nonce ct ad :
  length nonce = 24 -> ct <> [] ->
  xchacha_unseal s ("v1." +:+ b64_encode (nonce ++ ct)) ad
  = or_else (try_unseal (current s) nonce ct ad)
      (key <-? ok_or (previous s) InvalidEnvelope ;; try_unseal key nonce ct ad).
Proof.
  intros Hn Hct. unfold xchacha_unseal. rewrite strip_prefix_app. simpl.
  rewrite b64_decode_encode. simpl. rewrite length_app, Hn.
  destruct ct as [|c ct]; [done|]. simpl length.
  rewrite (proj2 (Nat.leb_gt _ _)) by lia. simpl negb. cbn iota.
  by rewrite <-Hn, take_app_length, drop_app_length.
Qed.

Lemma try_unseal_Ok key nonce ct ad pt :
  try_unseal key nonce ct ad = Ok pt <-> decrypt key nonce ad ct = Some pt.
Proof. unfold try_unseal. destruct (decrypt _ _ _ _); simpl; naive_solver. Qed.

Lemma or_else_Ok s nonce ct ad pt :
  or_else (try_unseal (current s) nonce ct ad)
    (key <-? ok_or (previous s) InvalidEnvelope ;; try_unseal key nonce ct ad) = Ok pt ->
  exists key, opens_with s key /\ decrypt key nonce ad ct = Some pt.
Proof.
  destruct (try_unseal (current s) nonce ct ad) as [pt'|] eqn:E; simpl.
  - intros [= ->]. exists (current s). split; [by left|]. by apply try_unseal_Ok.
  - destruct (previous s) as [key|] eqn:Ep; simpl; [|done]. intros H. exists key.
    split; [by right|]. by apply try_unseal_Ok.
Qed.

Lemma sealed_unseal s s' nonce pt ad env :
  length nonce = 24 -> xchacha_seal s nonce pt ad = Ok env -> opens_with s' (current s) ->
  xchacha_unseal s' env ad = Ok pt.
Proof.
  intros Hn (ct & Hct & ->)%xchacha_seal_Ok Hk.
  rewrite unseal_envelope by eauto using encrypt_nonempty.
  pose proof (proj2 (try_unseal_Ok _ _ _ _ _) (decrypt_encrypt _ _ _ _ _ Hct)) as Hd.
  destruct (try_unseal (current s') nonce ct ad) as [pt'|] eqn:E; simpl.
  - apply try_unseal_Ok in E. pose proof (decrypt_authentic _ _ _ _ _ _ _ _ _ Hct E) as (Heq & _).
    apply try_unseal_Ok in E. congruence.
  - destruct Hk as [Hk|Hk]; [congruence|]. by rewrite Hk.
Qed.

Lemma unseal_sealed s s' nonce pt ad env ad' pt' :
  length nonce = 24 -> xchacha_seal s nonce pt ad = Ok env -> xchacha_unseal s' env ad' = Ok pt' ->
  opens_with s' (current s) /\ ad' = ad /\ pt' = pt.
Proof.
  intros Hn (ct & Hct & ->)%xchacha_seal_Ok Hu.
  rewrite unseal_envelope in Hu by eauto using encrypt_nonempty.
  apply or_else_Ok in Hu as (key & Hk & Hd).
  destruct (decrypt_authentic _ _ _ _ _ _ _ _ _ Hct Hd) as (-> & _ & ->).
  rewrite (decrypt_encrypt _ _ _ _ _ Hct) in Hd. by simplify_eq.
Qed.

Lemma xchacha_opens s s' : opens_with s' (current s) -> Opens s s'.
Proof.
  intros Hk. constructor.
  - intros. by eapply sealed_unseal.
  - intros. by eapply unseal_sealed.
Qed.

Lemma xchacha_text s nonce pt ad env : xchacha_seal s nonce pt ad = Ok env -> valid_utf8 env = true.
Proof.
  intros (ct & _ & ->)%xchacha_seal_Ok. apply ascii_utf8. rewrite str_all_app.
  apply andb_true_iff. split; [done|]. eapply str_all_weaken; [|apply b64_alphabet].
  by intros [[] [] [] [] [] [] [] []].
Qed.

#[export] Instance xchacha_laws : SealerLaws XChaChaSealer.
Proof.
  constructor; [|apply xchacha_text]. intros s. apply xchacha_opens. by left.
Qed.

Lemma key_of_slice_Ok k k' : key_of_slice k = Ok k' <-> length k = 32 /\ k' = k.
Proof. unfold key_of_slice. case_bool_decide; naive_solver. Qed.

Lemma unseal_error s env ad e : xchacha_unseal s env ad = Err e -> e = InvalidEnvelope.
Proof.
  unfold xchacha_unseal, try_unseal. intros H.
  destruct (strip_prefix _ _) as [enc|]; simpl in H; [|congruence].
  destruct (b64_decode enc) as [b|]; simpl in H; [|congruence].
  destruct (negb _); [|congruence].
  destruct (decrypt _ _ _ _); simpl in H; [congruence|].
  destruct (previous s); simpl in H; [|congruence]. destruct (decrypt _ _ _ _); simpl in H; congruence.
Qed.
End XChaCha.

(** ** Properties *)

(** Key rotation. What a sealer seals, it opens, and so does its successor that has the same
    key as its previous one; associated data other than the one given, and a sealer that knows
    the key neither as current nor as previous, are refused as [InvalidEnvelope], never as
    [Unavailable]. *)
Theorem seal_key_rotation {A : Aead} {B : Base64} {AL : AeadLaws A} {BL : Base64Laws B}
    (s s' : XChaChaSealer) nonce pt ad env ad' :
  length nonce = 24 -> seal s nonce pt ad = Ok env ->
  unseal s' env ad' =
    if decide (ad' = ad /\ (current s' = current s \/ previous s' = Some (current s)))
    then Ok pt else Err InvalidEnvelope.
Proof.
  intros Hn Hs. simpl in *. case_decide as Hd.
  - destruct Hd as [-> Hk]. by eapply sealed_unseal.
  - destruct (xchacha_unseal s' env ad') as [pt'|e] eqn:E.
    + destruct (unseal_sealed _ _ _ _ _ _ _ _ Hn Hs E) as (Hk & -> & _). by destruct Hd.
    + by rewrite (unseal_error _ _ _ _ E).
Qed.

(** Construction checks the keys. [XChaChaSealer::new] succeeds exactly on 32-byte keys, keeps
    them as given, and refuses anything else with [InvalidKey]. *)
Theorem sealer_new_keys cur prev :
  (forall s, XChaChaSealer_new cur prev = Ok s <->
     length cur = 32 /\ (forall key, prev = Some key -> length key = 32)
     /\ s = {| current := cur; previous := prev |})
  /\ (forall e, XChaChaSealer_new cur prev = Err e -> e = InvalidKey).
Proof.
  unfold XChaChaSealer_new, key_of_slice.
  case_bool_decide as Hc; simpl; [|split; naive_solver].
  destruct prev as [key|]; simpl; [|split; naive_solver].
  case_bool_decide; simpl; split; naive_solver.
Qed.

(** ** A concrete cipher and codec

    They stand in for the crates in the examples of this development: a "cipher" that prepends
    its key, nonce and associated data, and hexadecimal text. They satisfy the laws; nothing is
    claimed about the crates through them. *)

Module PlainSeal.

(** Self-delimiting bytes. *)
Fixpoint delimit (b : bytes) : bytes :=
  match b with [] => [x00] | c :: b => x01 :: c :: delimit b end.

Fixpoint strip (p s : bytes) : option bytes :=
  match p, s with
  | [], _ => Some s
  | c :: p, d :: s => if bool_decide (c = d) then strip p s else None
  | _ :: _, [] => None
  end.

Lemma strip_app p s : strip p (p ++ s)%list = Some s.
Proof. induction p; simpl; [done|]. by rewrite bool_decide_eq_true_2. Qed.

Lemma strip_Some p s r : strip p s = Some r -> s = (p ++ r)%list.
Proof.
  revert s. induction p as [|c p IH]; intros [|d s]; simpl; try naive_solver.
  case_bool_decide; [|done]. subst. intros ?%IH. by subst.
Qed.

Lemma delimit_inj a b x y : (delimit a ++ x = delimit b ++ y)%list -> a = b /\ x = y.
Proof.
  revert b. induction a as [|c a IH]; intros [|d b]; simpl; intros [= H]; try done.
  destruct (IH _ H1) as [-> ->]. by subst.
Qed.

Definition header (key nonce ad : bytes) : bytes := (delimit key ++ delimit nonce ++ delimit ad)%list.

#[export] Instance aead : Aead := {|
  encrypt key nonce ad msg := Some (header key nonce ad ++ msg)%list;
  decrypt key nonce ad ct := strip (header key nonce ad) ct;
|}.

#[export] Instance aead_laws : AeadLaws aead.
Proof.
  constructor; simpl.
  - intros key nonce ad msg ct [= <-]. apply strip_app.
  - intros key nonce ad msg ct key' nonce' ad' msg' [= <-] H%strip_Some.
    unfold header in H. rewrite <-!app_assoc in H.
    apply delimit_inj in H as [-> H]. apply delimit_inj in H as [-> H].
    by apply delimit_inj in H as [-> H].
  - intros key nonce ad msg ct [= <-]. by destruct key.
Qed.

Definition hex_digit (n : N) : ascii := ascii_of_N (if (n <? 10)%N then 48 + n else 87 + n)%N.

Definition hex_value (c : ascii) : option N :=
  if between 48 57 c then Some (N_of_ascii c - 48)%N
  else if between 97 102 c then Some (N_of_ascii c - 87)%N else None.

Fixpoint hex (b : bytes) : string :=
  match b with
  | [] => ""
  | c :: b => String (hex_digit (Byte.to_N c / 16)) (String (hex_digit (Byte.to_N c mod 16)) (hex b))
  end.

Fixpoint unhex (s : string) : option bytes :=
  match s with
  | "" => Some []
  | String hi (String lo s) =>
      h ← hex_value hi; l ← hex_value lo; c ← Byte.of_N (16 * h + l); b ← unhex s; Some (c :: b)
  | String _ "" => None
  end.

Lemma unhex_digits c : hex_value (hex_digit (Byte.to_N c / 16)) = Some (Byte.to_N c / 16)%N
  /\ hex_value (hex_digit (Byte.to_N c mod 16)) = Some (Byte.to_N c mod 16)%N
  /\ Byte.of_N (16 * (Byte.to_N c / 16) + Byte.to_N c mod 16) = Some c
  /\ url_safe (hex_digit (Byte.to_N c / 16)) = true
  /\ url_safe (hex_digit (Byte.to_N c mod 16)) = true.
Proof. destruct c; vm_compute; done. Qed.

Lemma hex_value_digit c n : hex_value c = Some n -> hex_digit n = c /\ (n < 16)%N.
Proof.
  destruct c as [[] [] [] [] [] [] [] []]; vm_compute; try done; intros [= <-]; done.
Qed.

Lemma unhex_hex s b : unhex s = Some b -> hex b = s.
Proof.
  revert b. induction s as [s IH] using (induction_ltof1 _ String.length).
  destruct s as [|hi [|lo s]]; simpl; [by intros b [= <-]|done|].
  intros b (h & Hh & (l & Hl & (c & Hc & (b' & Hb & [= <-])%bind_Some)%bind_Some)%bind_Some)%bind_Some.
  apply hex_value_digit in Hh as [<- Hh], Hl as [<- Hl].
  apply Byte.to_of_N_iff in Hc. simpl. rewrite Hc, (IH s); [|unfold ltof; simpl; lia|done].
  replace ((16 * h + l) / 16)%N with h by (rewrite N.mul_comm, N.div_add_l by lia; rewrite N.div_small; lia).
  by replace ((16 * h + l) mod 16)%N with l
    by (rewrite N.mul_comm, N.add_comm, N.Div0.mod_add; symmetry; apply N.mod_small; lia).
Qed.

#[export] Instance base64 : Base64 := {| b64_encode := hex; b64_decode := unhex |}.

#[export] Instance base64_laws : Base64Laws base64.
Proof.
  constructor; simpl.
  - induction b as [|c b IH]; cbn [hex unhex]; [done|].
    destruct (unhex_digits c) as (-> & -> & Hc & _). cbn [mbind option_bind]. rewrite Hc.
    cbn [mbind option_bind]. by rewrite IH.
  - intros s b. apply unhex_hex.
  - induction b as [|c b IH]; cbn [hex str_all]; [done|].
    by destruct (unhex_digits c) as (_ & _ & _ & -> & ->).
Qed.

Definition old_key : bytes := repeat x01 32.
Definition new_key : bytes := repeat x02 32.
Definition old_sealer : XChaChaSealer := {| current := old_key; previous := None |}.
Definition new_sealer : XChaChaSealer := {| current := new_key; previous := Some old_key |}.
Definition nonce : bytes := repeat x07 24.

Lemma seal_key_rotation_witness :
  match seal old_sealer nonce (into_bytes "token") (into_bytes "refresh:app") with
  | Ok env => unseal new_sealer env (into_bytes "refresh:app") = Ok (into_bytes "token")
              /\ unseal new_sealer env (into_bytes "refresh:other") = Err InvalidEnvelope
  | Err _ => False
  end.
Proof.
  pose proof (fun env ad' => seal_key_rotation old_sealer new_sealer nonce (into_bytes "token")
    (into_bytes "refresh:app") env ad' eq_refl) as H.
  split.
  - rewrite (H _ (into_bytes "refresh:app") eq_refl). reflexivity.
  - rewrite (H _ (into_bytes "refresh:other") eq_refl). reflexivity.
Defined.
End PlainSeal.
