(* ===== verification/Prog.v ===== *)
(** * Prog: effectful programs

    An async function of the sources is a tree of the calls it awaits: [Op e k] performs [e] and
    goes on with its answer. Trees compose with [bind] (the [await] and [?] of the sources), and
    their meaning is given by a handler relation on a world.

    [safe] is a rely-guarantee judgement on one tree: whatever the other tasks do within [rely]
    between two of its calls, every call it makes stays within [guar], and it returns a result
    that meets its postcondition. [tasks_safe] lifts it to any interleaving of any number of
    tasks, some of which may stop for ever.

    [wp] is the weakest precondition of one tree that nobody disturbs, and [runs] is the log of
    one run of it: the calls it made with the answers they got, whatever the world. *)

From S2P Require Import Prelude.

Section Prog.
Context {E : Type} {Ans : E -> Type}.

Inductive prog (A : Type) : Type :=
  | Ret (a : A)
  | Op (e : E) (k : Ans e -> prog A).
#[global] Arguments Ret {A} a.
#[global] Arguments Op {A} e k.

Fixpoint bind {A B} (p : prog A) (f : A -> prog B) : prog B :=
  match p with
  | Ret a => f a
  | Op e k => Op e (fun a => bind (k a) f)
  end.

Definition call (e : E) : prog (Ans e) := Op e Ret.

(** [f.await?] in a function that returns a [Result]. *)
Definition bind_ok {A B X} (p : prog (result A X)) (f : A -> prog (result B X)) : prog (result B X) :=
  bind p (fun r => match r with Ok a => f a | Err e => Ret (Err e) end).
End Prog.
#[global] Arguments prog E Ans A : clear implicits.

Declare Scope prog_scope.
Delimit Scope prog_scope with prog.
(** [x <- p ;; k] is [let x = p.await; k], and [x <-! p ;; k] is [let x = p.await?; k]. *)
Notation "x <- p ;; k" := (bind p (fun x => k))
  (at level 60, p at next level, right associativity) : prog_scope.
Notation "x <-! p ;; k" := (bind_ok p (fun x => k))
  (at level 60, p at next level, right associativity) : prog_scope.
(** [e <?- r ;; k] is [let e = r?; k] for a plain result [r]. *)
Notation "x <-? r ;; k" := (match r with Ok x => k | Err e => Ret (Err e) end)
  (at level 60, r at next level, right associativity) : prog_scope.

(** ** One task *)

Section Safe.
Context {E : Type} {Ans : E -> Type} {W : Type}.
Context (handle : W -> forall e, Ans e -> W -> Prop).
Context (rely guar : W -> W -> Prop).

Fixpoint safe {A} (p : prog E Ans A) (Q : A -> W -> Prop) (w : W) : Prop :=
  match p with
  | Ret a => forall w1, rely w w1 -> Q a w1
  | Op e k => forall w1 a w2, rely w w1 -> handle w1 e a w2 -> guar w1 w2 /\ safe (k a) Q w2
  end.

Context {rely_pre : PreOrder rely}.

Lemma safe_later {A} (p : prog E Ans A) Q w w' : rely w w' -> safe p Q w -> safe p Q w'.
Proof.
  intros Hw. destruct p as [a|e k]; simpl.
  - intros H w1 H1. apply H. by etrans.
  - intros H w1 a w2 H1. apply H. by etrans.
Qed.

Lemma safe_mono {A} (p : prog E Ans A) (Q Q' : A -> W -> Prop) w :
  (forall a w', Q a w' -> Q' a w') -> safe p Q w -> safe p Q' w.
Proof.
  intros HQ. revert w. induction p as [a|e k IH]; simpl; intros w H.
  - intros w1 Hw. eauto.
  - intros w1 a w2 Hr Hh. destruct (H _ _ _ Hr Hh) as [Hg Hs]. split; [done|]. by apply IH.
Qed.

Lemma safe_bind {A B} (p : prog E Ans A) (f : A -> prog E Ans B) Q w :
  safe p (fun a w' => safe (f a) Q w') w -> safe (bind p f) Q w.
Proof.
  revert w. induction p as [a|e k IH]; simpl; intros w H.
  - apply H. done.
  - intros w1 a w2 Hr Hh. destruct (H _ _ _ Hr Hh) as [Hg Hs]. split; [done|]. by apply IH.
Qed.

Lemma safe_bind_ok {A B X} (p : prog E Ans (result A X)) (f : A -> prog E Ans (result B X)) Q w :
  safe p (fun r w' => match r with Ok a => safe (f a) Q w' | Err e => forall w1, rely w' w1 -> Q (Err e) w1 end) w ->
  safe (bind_ok p f) Q w.
Proof.
  intros H. apply safe_bind. eapply safe_mono; [|exact H]. by intros [a|e] w'.
Qed.

Lemma safe_ret {A} (a : A) (Q : A -> W -> Prop) w :
  (forall w1, rely w w1 -> Q a w1) -> safe (Ret a) Q w.
Proof. done. Qed.

Lemma safe_call e (Q : Ans e -> W -> Prop) w :
  (forall w1 a w2, rely w w1 -> handle w1 e a w2 -> guar w1 w2 /\ forall w3, rely w2 w3 -> Q a w3) ->
  safe (call e) Q w.
Proof. done. Qed.
End Safe.

(** ** One task, undisturbed *)

Section Outcome.
Context {E : Type} {Ans : E -> Type} {W : Type}.
Context (handle : W -> forall e, Ans e -> W -> Prop).

(** [p] may run from [w] to its end in [w'] with result [a], nobody interfering. *)
Fixpoint outcome {A} (p : prog E Ans A) (w : W) (a : A) (w' : W) : Prop :=
  match p with
  | Ret b => a = b /\ w' = w
  | Op e k => exists b w1, handle w e b w1 /\ outcome (k b) w1 a w'
  end.

Lemma outcome_bind {A B} (p : prog E Ans A) (f : A -> prog E Ans B) w b w' :
  outcome (bind p f) w b w' <-> exists a w1, outcome p w a w1 /\ outcome (f a) w1 b w'.
Proof.
  revert w. induction p as [a|e k IH]; simpl; intros w.
  - split; [eauto|]. by intros (? & ? & [-> ->] & ?).
  - setoid_rewrite IH. naive_solver.
Qed.

Lemma outcome_bind_ok {A B X} (p : prog E Ans (result A X)) (f : A -> prog E Ans (result B X)) w r w' :
  outcome (bind_ok p f) w r w' <->
  exists ra w1, outcome p w ra w1 /\
    match ra with Ok a => outcome (f a) w1 r w' | Err e => r = Err e /\ w' = w1 end.
Proof.
  unfold bind_ok. rewrite outcome_bind. split; intros ([a|e] & w1 & Hp & Hf); eauto.
Qed.

Lemma outcome_call e w a w' : outcome (call e) w a w' <-> handle w e a w'.
Proof.
  simpl. split; [by intros (b & w1 & Hh & -> & ->)|]. intros Hh. eauto 10.
Qed.

(** Every run of [p] from [w] ends within [Q]. *)
Definition wp {A} (p : prog E Ans A) (Q : A -> W -> Prop) (w : W) : Prop :=
  forall a w', outcome p w a w' -> Q a w'.

Lemma wp_ret {A} (a : A) (Q : A -> W -> Prop) w : Q a w -> wp (Ret a) Q w.
Proof. by intros HQ b w' [-> ->]. Qed.

Lemma wp_bind {A B} (p : prog E Ans A) (f : A -> prog E Ans B) Q w :
  wp p (fun a w' => wp (f a) Q w') w -> wp (bind p f) Q w.
Proof. intros Hp b w' (a & w1 & Ha & Hf)%outcome_bind. by apply (Hp a w1). Qed.

Lemma wp_bind_ok {A B X} (p : prog E Ans (result A X)) (f : A -> prog E Ans (result B X)) Q w :
  wp p (fun r w' => match r with Ok a => wp (f a) Q w' | Err e => Q (Err e) w' end) w ->
  wp (bind_ok p f) Q w.
Proof.
  intros Hp. apply wp_bind. intros [a|e] w' Hr; specialize (Hp _ _ Hr); simpl in Hp; [done|].
  by apply wp_ret.
Qed.

Lemma wp_call e (Q : Ans e -> W -> Prop) w :
  (forall a w', handle w e a w' -> Q a w') -> wp (call e) Q w.
Proof. intros HQ a w' Hh%outcome_call. auto. Qed.

Lemma wp_mono {A} (p : prog E Ans A) (Q Q' : A -> W -> Prop) w :
  wp p Q w -> (forall a w', Q a w' -> Q' a w') -> wp p Q' w.
Proof. intros Hp HQ a w' Ha. auto. Qed.

Lemma wp_and {A} (p : prog E Ans A) (Q Q' : A -> W -> Prop) w :
  wp p Q w -> wp p Q' w -> wp p (fun a w' => Q a w' /\ Q' a w') w.
Proof. intros H1 H2 a w' Ha. auto. Qed.
End Outcome.

(** ** The calls of one run *)

Section Runs.
Context {E : Type} {Ans : E -> Type}.

(** A call with its answer. *)
Definition call_log : Type := list { e : E & Ans e }.
Definition logged (e : E) (a : Ans e) : { e : E & Ans e } := existT e a.

(** [p] may make exactly the calls [l] and return [a]. *)
Fixpoint runs {A} (p : prog E Ans A) (l : call_log) (a : A) : Prop :=
  match p with
  | Ret b => l = [] /\ a = b
  | Op e k => exists b l', l = logged e b :: l' /\ runs (k b) l' a
  end.

Lemma runs_bind {A B} (p : prog E Ans A) (f : A -> prog E Ans B) l b :
  runs (bind p f) l b <-> exists a l1 l2, l = (l1 ++ l2)%list /\ runs p l1 a /\ runs (f a) l2 b.
Proof.
  revert l. induction p as [a|e k IH]; simpl; intros l.
  - split; [intros H; by exists a, [], l|]. by intros (? & ? & ? & -> & [-> ->] & ?).
  - setoid_rewrite IH. split.
    + intros (c & l' & -> & a & l1 & l2 & -> & H1 & H2). exists a, (logged e c :: l1), l2.
      split_and!; [done| |done]. eauto.
    + intros (a & l1 & l2 & -> & (c & l' & -> & H1) & H2). eauto 10.
Qed.

Lemma runs_bind_ok {A B X} (p : prog E Ans (result A X)) (f : A -> prog E Ans (result B X)) l r :
  runs (bind_ok p f) l r <->
  exists ra l1 l2, l = (l1 ++ l2)%list /\ runs p l1 ra /\
    match ra with Ok a => runs (f a) l2 r | Err e => r = Err e /\ l2 = [] end.
Proof.
  unfold bind_ok. rewrite runs_bind. split.
  - intros ([a|e] & l1 & l2 & -> & Hp & Hf); [by exists (Ok a), l1, l2|].
    destruct Hf as [-> ->]. by exists (Err e), l1, [].
  - intros ([a|e] & l1 & l2 & -> & Hp & Hf); [by exists (Ok a), l1, l2|].
    destruct Hf as [-> ->]. by exists (Err e), l1, [].
Qed.

Lemma runs_call e l a : runs (call e) l a <-> l = [logged e a].
Proof.
  simpl. split; [by intros (b & l' & -> & -> & ->)|]. intros ->. by exists a, [].
Qed.

(** Every call of [p], whatever its answers, satisfies [P]. *)
Fixpoint every {A} (P : E -> Prop) (p : prog E Ans A) : Prop :=
  match p with
  | Ret _ => True
  | Op e k => P e /\ forall a, every P (k a)
  end.

Lemma every_bind {A B} P (p : prog E Ans A) (f : A -> prog E Ans B) :
  every P p -> (forall a, every P (f a)) -> every P (bind p f).
Proof. induction p as [a|e k IH]; simpl; [auto|]. intros [He Hk] Hf. split; [done|]. auto. Qed.

Lemma every_bind_runs {A B} P (p : prog E Ans A) (f : A -> prog E Ans B) :
  every P p -> (forall l a, runs p l a -> every P (f a)) -> every P (bind p f).
Proof.
  induction p as [a|e k IH]; simpl.
  - intros _ Hf. by apply (Hf [] a).
  - intros [He Hk] Hf. split; [done|]. intros b. apply IH; [done|]. intros l a Hr. apply (Hf (logged e b :: l)). eauto.
Qed.

Lemma every_bind_ok {A B X} P (p : prog E Ans (result A X)) (f : A -> prog E Ans (result B X)) :
  every P p -> (forall a, every P (f a)) -> every P (bind_ok p f).
Proof. intros Hp Hf. apply every_bind; [done|]. by intros []. Qed.

Lemma every_mono {A} (P Q : E -> Prop) (p : prog E Ans A) :
  (forall e, P e -> Q e) -> every P p -> every Q p.
Proof. intros HPQ. induction p as [a|e k IH]; simpl; [done|]. intros [He Hk]. auto. Qed.

Lemma every_runs {A} P (p : prog E Ans A) l x e a :
  every P p -> runs p l x -> logged e a ∈ l -> P e.
Proof.
  revert l. induction p as [b|e' k IH]; intros l; simpl.
  - by intros _ [-> _] ?%not_elem_of_nil.
  - intros [He Hk] (b & l' & -> & Hr) [Heq|Hin]%elem_of_cons; [|by eapply IH].
    apply (f_equal (@projT1 _ _)) in Heq. simpl in Heq. by subst.
Qed.
End Runs.
#[global] Arguments call_log {E} Ans.

(** ** Interleaved tasks *)

Section Tasks.
Context {E : Type} {Ans : E -> Type} {W A : Type}.
(** The handler and the conditions of a call may depend on the task that makes it. *)
Context (handle : nat -> W -> forall e, Ans e -> W -> Prop).
(** What happens to the world besides the tasks' own calls. *)
Context (env : W -> W -> Prop).

Definition config : Type := W * list (prog E Ans A).

Inductive task_step : config -> config -> Prop :=
  | step_task w ts i e k a w' :
      ts !! i = Some (Op e k) -> handle i w e a w' -> task_step (w, ts) (w', <[i := k a]> ts)
  | step_env w ts w' : env w w' -> task_step (w, ts) (w', ts).

Definition reachable : config -> config -> Prop := rtc task_step.

Context (rely guar : nat -> W -> W -> Prop) (Q : nat -> A -> W -> Prop).
Context {rely_pre : forall i, PreOrder (rely i)}.
Context (guar_rely : forall i j w w', i <> j -> guar i w w' -> rely j w w').
Context (env_rely : forall j w w', env w w' -> rely j w w').

Definition all_safe (c : config) : Prop :=
  forall i p, c.2 !! i = Some p -> safe (handle i) (rely i) (guar i) p (Q i) c.1.

Lemma step_all_safe c c' : task_step c c' -> all_safe c -> all_safe c'.
Proof.
  intros Hs Ha. destruct Hs as [w ts i e k a w' Hi Hh|w ts w' He]; intros j p; simpl.
  - pose proof (Ha i _ Hi) as Hsafe. simpl in Hsafe.
    destruct (Hsafe w a w') as [Hg Hk]; [done|done|].
    intros [(<- & <- & _)|[Hne Hj]]%list_lookup_insert_Some; [done|].
    eapply (safe_later (handle j) (rely j) (guar j)); [by eapply guar_rely|]. by apply (Ha j).
  - intros Hj. eapply (safe_later (handle j) (rely j) (guar j)); [by apply env_rely|]. by apply (Ha j).
Qed.

Lemma tasks_safe c c' :
  reachable c c' -> all_safe c ->
  forall i a, c'.2 !! i = Some (Ret a) -> Q i a c'.1.
Proof.
  intros Hr Ha i a Hi. assert (all_safe c') as Ha'.
  { clear Hi. induction Hr; eauto using step_all_safe. }
  apply (Ha' i _ Hi). done.
Qed.
End Tasks.

(** What the tasks and the world each keep holds in every reachable state. *)
Section Keep.
Context {E : Type} {Ans : E -> Type} {W A : Type}.
Context (handle : nat -> W -> forall e, Ans e -> W -> Prop) (env : W -> W -> Prop).
Context (rely guar : nat -> W -> W -> Prop) (Q : nat -> A -> W -> Prop).
Context {rely_pre : forall i, PreOrder (rely i)}.

Lemma tasks_keep (I : W -> Prop) c c' :
  (forall i j w w', i <> j -> guar i w w' -> rely j w w') ->
  (forall j w w', env w w' -> rely j w w') ->
  (forall i w w', guar i w w' -> I w -> I w') -> (forall w w', env w w' -> I w -> I w') ->
  reachable handle env c c' -> all_safe handle rely guar Q c -> I c.1 -> I c'.1 /\ all_safe handle rely guar Q c'.
Proof.
  intros Hg He HIg HIe Hr Hs HI. induction Hr as [c|c1 c2 c3 Hstep _ IH]; [done|].
  assert (all_safe handle rely guar Q c2) as Hs2 by (by eapply step_all_safe).
  apply IH; [done|]. destruct Hstep as [w ts i e k a w' Hi Hh|w ts w' Hw]; [|by eapply HIe].
  destruct (Hs i _ Hi w a w') as [Hgi _]; [done..|]. by eapply HIg.
Qed.
End Keep.

(** ** Running one task alone *)

Section Run.
Context {E : Type} {Ans : E -> Type} {W : Type}.
(** One answer per call, [None] where the world offers none. *)
Context (answer : W -> forall e, option (Ans e * W)).

Fixpoint run {A} (p : prog E Ans A) (w : W) : option (A * W) :=
  match p with
  | Ret a => Some (a, w)
  | Op e k => '(a, w') ← answer w e; run (k a) w'
  end.

Lemma run_reachable {A} (handle : nat -> W -> forall e, Ans e -> W -> Prop) env
    (p : prog E Ans A) w a w' ts i :
  (forall w e b w', answer w e = Some (b, w') -> handle i w e b w') ->
  run p w = Some (a, w') -> ts !! i = Some p ->
  reachable handle env (w, ts) (w', <[i := Ret a]> ts).
Proof.
  intros Ha. revert w ts. induction p as [b|e k IH]; simpl; intros w ts Hr Hi.
  - simplify_eq. rewrite list_insert_id by done. constructor.
  - apply bind_Some in Hr as ([b w1] & He & Hr).
    eapply rtc_l; [by eapply step_task; [done|by apply Ha]|].
    specialize (IH b w1 (<[i := k b]> ts) Hr). rewrite list_insert_insert_eq in IH. apply IH.
    apply list_lookup_insert_eq. by eapply lookup_lt_Some.
Qed.

(** The same run, with its log. *)
Fixpoint log_run {A} (p : prog E Ans A) (w : W) : option (A * W * call_log Ans) :=
  match p with
  | Ret a => Some (a, w, [])
  | Op e k => '(a, w') ← answer w e; '(b, w', l) ← log_run (k a) w'; Some (b, w', logged e a :: l)
  end.

Lemma log_run_runs {A} (p : prog E Ans A) w a w' l : log_run p w = Some (a, w', l) -> runs p l a.
Proof.
  revert w l. induction p as [b|e k IH]; simpl; intros w l Hr; [by simplify_eq|].
  apply bind_Some in Hr as ([b w1] & He & Hr). apply bind_Some in Hr as ([[c w2] l'] & Hk & Hr).
  simplify_eq. exists b, l'. split; [done|]. by eapply IH.
Qed.

Lemma run_outcome {A} (handle : W -> forall e, Ans e -> W -> Prop) (p : prog E Ans A) w a w' :
  (forall w e b w', answer w e = Some (b, w') -> handle w e b w') ->
  run p w = Some (a, w') -> outcome handle p w a w'.
Proof.
  intros Ha. revert w. induction p as [b|e k IH]; simpl; intros w Hr; [by simplify_eq|].
  apply bind_Some in Hr as ([b w1] & He & Hr). exists b, w1. split; [by apply Ha|by apply IH].
Qed.
End Run.
