(* ===== verification/Effects.v ===== *)
(** * Effects: the calls the refresh-token code awaits

    The effects of refresh_handle.rs and rotation.rs, and the world they act on: the shared
    transient store, the clocks, the random generator, the sealer and the upstream. Every answer
    the sources have to cope with is possible: a store call may fail with or without having been
    applied, a sealer may be unavailable, and a call under [tokio::time::timeout] may be cut off
    whether or not it took effect. The world also keeps logs of the random draws (with the task
    that drew them), of the store writes that were applied and of the tokens sent upstream; no
    program reads them. *)

From S2P Require Import Prelude Text Store Seal Prog.
#[local] Open Scope string_scope.
#[local] Open Scope prog_scope.

(** [StoredResponse] of router.rs. *)
Record StoredResponse := {
  status : Z;
  content_type : option string;
  body : bytes;
}.

#[export] Instance stored_response_eq_dec : EqDecision StoredResponse.
Proof. solve_decision. Defined.

(** [UpstreamFailure] *)
Inductive UpstreamFailure :=
  | Status (code : Z)
  | Request.

Inductive eff : Type :=
  | Now                                      (* the Unix clock, in milliseconds *)
  | InstantNow                               (* [tokio::time::Instant::now], in nanoseconds *)
  | SleepUntil (deadline : Z)
  | Random (n : nat)                         (* [n] bytes from the generator *)
  | StoreCall (o : store_op)
  | SealCall (plaintext ad : bytes)
  | UnsealCall (envelope : string) (ad : bytes)
  | RefreshCall (upstream_token : string)    (* [UpstreamRefresher::refresh] *)
  | Timeout (d : Duration) (e : eff).        (* a call under [tokio::time::timeout] *)

Fixpoint ans (e : eff) : Type :=
  match e with
  | Now | InstantNow => Z
  | SleepUntil _ => unit
  | Random _ => bytes
  | StoreCall o => result (store_ans o) StoreError
  | SealCall _ _ => result string SealError
  | UnsealCall _ _ => result bytes SealError
  | RefreshCall _ => result StoredResponse UpstreamFailure
  | Timeout _ e => option (ans e)
  end.

Notation io := (prog eff ans).

Definition await (e : eff) : io (ans e) := call e.

(** [tokio::time::timeout(d, p).await]; [None] is [Elapsed]. *)
Fixpoint timeout {A} (d : Duration) (p : io A) : io (option A) :=
  match p with
  | Ret a => Ret (Some a)
  | Op e k => Op (Timeout d e) (fun o => match o with Some a => timeout d (k a) | None => Ret None end)
  end.

(** [tokio::time::sleep(d).await] *)
Definition sleep (d : Duration) : io unit :=
  now <- await InstantNow ;; await (SleepUntil (now + d)%Z).

(** ** The world *)

Record World := {
  w_store : records;
  w_backend : Z;               (* the store's clock *)
  w_unix : Z;                  (* the Unix clock, in milliseconds *)
  w_mono : Z;                  (* the monotonic clock *)
  w_drawn : list (nat * bytes);
  w_writes : list (string * bytes);
  w_asked : list string;
}.

Definition set_store (w : World) (st : records) (writes : list (string * bytes)) : World :=
  {| w_store := st; w_backend := w_backend w; w_unix := w_unix w; w_mono := w_mono w;
     w_drawn := w_drawn w; w_writes := w_writes w ++ writes; w_asked := w_asked w |}%list.
Definition set_mono (w : World) (t : Z) : World :=
  {| w_store := w_store w; w_backend := w_backend w; w_unix := w_unix w; w_mono := t;
     w_drawn := w_drawn w; w_writes := w_writes w; w_asked := w_asked w |}.
Definition draw (w : World) (i : nat) (b : bytes) : World :=
  {| w_store := w_store w; w_backend := w_backend w; w_unix := w_unix w; w_mono := w_mono w;
     w_drawn := w_drawn w ++ [(i, b)]; w_writes := w_writes w; w_asked := w_asked w |}%list.
Definition ask (w : World) (token : string) : World :=
  {| w_store := w_store w; w_backend := w_backend w; w_unix := w_unix w; w_mono := w_mono w;
     w_drawn := w_drawn w; w_writes := w_writes w; w_asked := w_asked w ++ [token] |}%list.

(** The write a call made, given the answer it had or would have had. *)
Definition applied_write (o : store_op) : result (store_ans o) StoreError -> list (string * bytes) :=
  match o with
  | PutIfAbsent k v _ => fun r => match r with Ok true => [(k, v)] | _ => [] end
  | CompareAndSwap k _ v _ => fun r => match r with Ok true => [(k, v)] | _ => [] end
  | _ => fun _ => []
  end.

Section Handle.
Context {S : Type} {SL : Sealer S} (sealer : S) (slack : Z).

(** One store call; compare [faulty_step]. *)
Inductive store_handle (w : World) (o : store_op) : result (store_ans o) StoreError -> World -> Prop :=
  | sh_answered r st' :
      spec_step slack (w_backend w) (w_store w) o r st' ->
      store_handle w o r (set_store w st' (applied_write o r))
  | sh_not_applied m : store_handle w o (Err (Backend m)) w
  | sh_applied m a st' :
      spec_step slack (w_backend w) (w_store w) o (Ok a) st' ->
      store_handle w o (Err (Backend m)) (set_store w st' (applied_write o (Ok a))).

(** Task [i] performs one call. A random draw never repeats an earlier one. *)
Fixpoint handle (i : nat) (w : World) (e : eff) : ans e -> World -> Prop :=
  match e with
  | Now => fun a w' => a = w_unix w /\ w' = w
  | InstantNow => fun a w' => a = w_mono w /\ w' = w
  | SleepUntil deadline => fun _ w' =>
      exists t, (w_mono w <= t /\ deadline <= t)%Z /\ w' = set_mono w t
  | Random n => fun b w' =>
      length b = n /\ (forall j b', (j, b') ∈ w_drawn w -> b' <> b) /\ w' = draw w i b
  | StoreCall o => store_handle w o
  | SealCall plaintext ad => fun r w' =>
      w' = w /\ (r = Err Unavailable \/ exists nonce, length nonce = 24 /\ seal sealer nonce plaintext ad = r)
  | UnsealCall envelope ad => fun r w' =>
      w' = w /\ (r = Err Unavailable \/ r = unseal sealer envelope ad)
  | RefreshCall token => fun _ w' => w' = ask w token
  | Timeout _ e => fun o w' =>
      match o with
      | Some a => handle i w e a w'
      | None => w' = w \/ exists a, handle i w e a w'
      end
  end.

(** What else happens: clocks move (the Unix clock in either direction), and other users of the
    store change the keys that are not [ours]. *)
Definition env_step (ours : string -> Prop) (w w' : World) : Prop :=
  (w_mono w <= w_mono w')%Z /\ (w_backend w <= w_backend w')%Z
  /\ w_drawn w' = w_drawn w /\ w_writes w' = w_writes w /\ w_asked w' = w_asked w
  /\ forall k, ours k -> w_store w' !! k = w_store w !! k.

(** ** A reliable environment

    One answer to every call: nothing fails or times out, time stands still but for sleeps, the
    generator counts, and the upstream always gives [reply]. *)

Section Reliable.
Context (nonce : bytes) (upstream : string -> result StoredResponse UpstreamFailure).

Definition store_answer (now : Z) (st : records) (o : store_op) : result (store_ans o) StoreError * records :=
  match o as o return result (store_ans o) StoreError * records with
  | PutIfAbsent k v ttl =>
      match validate_op (PutIfAbsent k v ttl) with
      | Err e => (Err e, st)
      | Ok _ => match live now st k with
                | None => (Ok true, <[k := (v, now + ttl)%Z]> st)
                | Some _ => (Ok false, st)
                end
      end
  | Get k =>
      match validate_op (Get k) with
      | Err e => (Err e, st)
      | Ok _ => (Ok ((fun r : bytes * Z => {| value := r.1; expires_in := (r.2 - now)%Z |}) <$> live now st k), st)
      end
  | CompareAndSwap k ex v ttl =>
      match validate_op (CompareAndSwap k ex v ttl) with
      | Err e => (Err e, st)
      | Ok _ => match live now st k with
                | Some (v', _) =>
                    if bool_decide (v' = ex) then (Ok true, <[k := (v, now + ttl)%Z]> st) else (Ok false, st)
                | None => (Ok false, st)
                end
      end
  | Delete k =>
      match validate_op (Delete k) with
      | Err e => (Err e, st)
      | Ok _ => (Ok tt, delete k st)
      end
  end.

(** The next bytes of the generator: the number of earlier draws, in each byte. *)
Definition next_draw (w : World) (n : nat) : bytes :=
  repeat (match Byte.of_nat (length (w_drawn w)) with Some b => b | None => x00 end) n.

Fixpoint reliable (i : nat) (w : World) (e : eff) : option (ans e * World) :=
  match e as e return option (ans e * World) with
  | Now => Some (w_unix w, w)
  | InstantNow => Some (w_mono w, w)
  | SleepUntil deadline => Some (tt, set_mono w (Z.max (w_mono w) deadline))
  | Random n =>
      let b := next_draw w n in
      if bool_decide (Forall (fun x : nat * bytes => x.2 <> b) (w_drawn w)) then Some (b, draw w i b) else None
  | StoreCall o =>
      let '(r, st') := store_answer (w_backend w) (w_store w) o in
      Some (r, set_store w st' (applied_write o r))
  | SealCall plaintext ad => Some (seal sealer nonce plaintext ad, w)
  | UnsealCall envelope ad => Some (unseal sealer envelope ad, w)
  | RefreshCall token => Some (upstream token, ask w token)
  | Timeout _ e => '(a, w') ← reliable i w e; Some (Some a, w')
  end.

Lemma store_answer_spec now st o r st' :
  (0 <= slack)%Z -> store_answer now st o = (r, st') -> spec_step slack now st o r st'.
Proof.
  intros Hsl. assert (forall ttl, fresh_expiry slack now ttl (now + ttl)) as Hf
    by (intros ttl; unfold fresh_expiry; lia).
  destruct o as [k v ttl|k|k ex v ttl|k]; cbn [store_answer];
    destruct (validate_op _) as [[]|m] eqn:Hv; intros Heq; try (simplify_eq; by constructor).
  - destruct (live now st k) eqn:El; simplify_eq; [by eapply spec_put_taken|by constructor].
  - simplify_eq. constructor; [done|]. destruct (live now _ k) as [[v e]|]; simpl; [|done].
    exists (e - now)%Z. split; [done|lia].
  - destruct (live now st k) as [[v' e]|] eqn:El; [case_bool_decide|]; simplify_eq.
    + by eapply spec_swap.
    + apply spec_swap_stale; [done|]. rewrite El. congruence.
    + apply spec_swap_stale; [done|]. by rewrite El.
Qed.

Lemma reliable_handle i w e a w' :
  (0 <= slack)%Z -> length nonce = 24 -> reliable i w e = Some (a, w') -> handle i w e a w'.
Proof.
  intros Hsl Hn. revert a w'. induction e as [| | |n|o|pt ad|env ad|token|d e IH]; cbn [reliable ans];
    intros a w' Heq; simpl.
  - by simplify_eq.
  - by simplify_eq.
  - simplify_eq. eexists. split; [|done]. lia.
  - case_bool_decide as Hf; [|done]. simplify_eq. split_and!; [apply repeat_length| |done].
    intros j b' Hin. rewrite Forall_forall in Hf. exact (Hf _ Hin).
  - destruct (store_answer _ _ o) as [r st'] eqn:Es. simplify_eq.
    by eapply sh_answered, store_answer_spec.
  - simplify_eq. split; [done|]. right. eauto.
  - simplify_eq. split; [done|]. by right.
  - by simplify_eq.
  - apply bind_Some in Heq as ([b w1] & He & Heq). simplify_eq. by apply IH.
Qed.
End Reliable.
End Handle.
