(* ===== verification/RefreshHandle.v ===== *)
(** * RefreshHandle: sealed refresh-token handles

    Models crates/oauthrelay-core/src/refresh_handle.rs: what a handle is bound to, sealing and
    opening [rrt1.] handles, and the substitution of the [refresh_token] member of a token
    response; and what it means for a body to hand out certain refresh tokens only
    ([hands_out_only]). SHA-256, serde_json and postcard are third-party crates and enter as [Sha256],
    [JsonLib] and [Postcard]. *)

From S2P Require Import Prelude Text Json Url Model Store Seal Prog Effects.
#[local] Open Scope string_scope.
#[local] Open Scope prog_scope.

(** ** Third-party parts *)

Class Sha256 := sha256 : bytes -> bytes.

(** No two inputs that occur have the same digest. *)
Class CollisionFree (H : Sha256) : Prop := sha256_inj : forall a b, sha256 a = sha256 b -> a = b.

(** Postcard's encoding of one type. *)
Class Postcard (T : Type) := {
  to_stdvec : T -> option bytes;
  from_postcard : bytes -> option T;
}.

Class PostcardLaws (T : Type) {P : Postcard T} : Prop := {
  from_to_postcard (x : T) b : to_stdvec x = Some b -> from_postcard b = Some x;
}.

Definition HANDLE_PREFIX : string := "rrt1.".
Definition REFRESH_TOKEN_MEMBER : string := "refresh_token".

(** [RefreshHandle], and [OpenedHandle], which has the same fields. *)
Record OpenedHandle := { upstream_token : string; issued_at : Z }.

(** ** The binding *)

Definition FINGERPRINT_DOMAIN : bytes := into_bytes "oauthrelay refresh-token binding v1".

Record HandleBinding := { hb_relay : ResourceKey; hb_fingerprint : bytes }.

(** The low [8 * n] bits of [x], most significant byte first. *)
Definition low_byte (x : Z) : Byte.byte :=
  match Byte.of_N (Z.to_N (x mod 256)) with Some b => b | None => x00 end.

Fixpoint be_bytes (n : nat) (x : Z) : bytes :=
  match n with
  | O => []
  | S n => be_bytes n (x / 256) ++ [low_byte x]
  end%list.

(** [field]: a presence byte, then the length and the bytes. *)
Definition field (value : option string) : bytes :=
  match value with
  | None => [x00]
  | Some v => x01 :: be_bytes 8 (Z.of_nat (String.length v)) ++ into_bytes v
  end%list.

Section Handles.
Context {U : UrlLib} {J : JsonLib} {H : Sha256} {P : Postcard OpenedHandle}.

(** [issuer_identifier] of router.rs. *)
Definition issuer_identifier (u : url) : string :=
  if bool_decide (path u = "/") && bool_decide (query u = None) && bool_decide (fragment u = None)
  then trim_end "/" (as_str u)
  else as_str u.

(** What [fingerprint] feeds to the hasher. *)
Definition fingerprint_input (r : Relay) (u : Upstream) : bytes :=
  (FINGERPRINT_DOMAIN ++ field (generation r) ++ field (Some (issuer_identifier (issuer_url u)))
    ++ field (as_str <$> token_endpoint u) ++ field (Some (up_client_id u)))%list.

Definition fingerprint (r : Relay) (u : Upstream) : bytes := sha256 (fingerprint_input r u).

Definition HandleBinding_new (r : Relay) (u : Upstream) : HandleBinding :=
  {| hb_relay := relay_key r; hb_fingerprint := fingerprint r u |}.

Definition associated_data (b : HandleBinding) : bytes :=
  (into_bytes ("refresh:" +:+ key_str (hb_relay b) +:+ String NUL "") ++ hb_fingerprint b)%list.

(** ** Sealing and opening *)

Inductive HandleError := InvalidHandle | SealerUnavailable.

(** [HandleError::from] *)
Definition handle_error_of (e : SealError) : HandleError :=
  match e with
  | Unavailable => SealerUnavailable
  | InvalidKey | InvalidEnvelope => InvalidHandle
  end.

Definition seal_handle (b : HandleBinding) (token : string) (issued : Z)
    : io (result string HandleError) :=
  plaintext <-? ok_or (to_stdvec {| upstream_token := token; issued_at := issued |}) InvalidHandle ;;
  envelope <- await (SealCall plaintext (associated_data b)) ;;
  Ret (map_err handle_error_of
         (match envelope with Ok env => Ok (HANDLE_PREFIX +:+ env) | Err e => Err e end)).

Definition open_handle (b : HandleBinding) (handle : string) : io (result OpenedHandle HandleError) :=
  envelope <-? ok_or (strip_prefix HANDLE_PREFIX handle) InvalidHandle ;;
  plaintext <- await (UnsealCall envelope (associated_data b)) ;;
  Ret (match plaintext with
       | Ok plaintext => ok_or (from_postcard plaintext) InvalidHandle
       | Err e => Err (handle_error_of e)
       end).

(** [rrt], digits, a dot. *)
Definition has_handle_prefix (token : string) : bool :=
  match strip_prefix "rrt" token with
  | Some rest =>
      let '(digits, rest) := break_at (fun c => negb (is_digit c)) rest in
      negb (is_empty digits) && starts_with "." rest
  | None => false
  end.

(** ** Token responses *)

Inductive SubstitutionError := SubSealing | SubSealerUnavailable | SubUnrecognizedBody.

(** [(200..300).contains(&status)] *)
Definition success_status (s : Z) : bool := ((200 <=? s) && (s <? 300))%Z.

(** [char::is_whitespace] at the start of UTF-8 text: the rest after one such character. *)
Definition skip_whitespace (s : string) : option string :=
  match s with
  | String c rest =>
      let n := code c in
      if between 9 13 c || (n =? 32)%nat then Some rest
      else match rest with
           | String d rest2 =>
               if (n =? 194)%nat && ((code d =? 133) || (code d =? 160))%nat then Some rest2
               else match rest2 with
                    | String e rest3 =>
                        if (n =? 225)%nat && (code d =? 154)%nat && (code e =? 128)%nat
                           || (n =? 226)%nat && (code d =? 128)%nat
                              && (between 128 138 e || (code e =? 168) || (code e =? 169) || (code e =? 175))%nat
                           || (n =? 226)%nat && (code d =? 129)%nat && (code e =? 159)%nat
                           || (n =? 227)%nat && (code d =? 128)%nat && (code e =? 128)%nat
                        then Some rest3 else None
                    | EmptyString => None
                    end
           | EmptyString => None
           end
  | EmptyString => None
  end.

Fixpoint trim_start_whitespace (fuel : nat) (s : string) : string :=
  match fuel with
  | O => s
  | S fuel => match skip_whitespace s with Some rest => trim_start_whitespace fuel rest | None => s end
  end.

Fixpoint trim_start_quotes (s : string) : string :=
  match s with
  | String c rest => if bool_decide (c ∈ [ascii_of_nat 34; "'"%char]) then trim_start_quotes rest else s
  | EmptyString => EmptyString
  end.

(** The text after an occurrence of the member's name introduces a value. *)
Definition introduces_value (rest : string) : bool :=
  let rest := trim_start_quotes rest in
  let rest := trim_start_whitespace (String.length rest) rest in
  starts_with "=" rest || starts_with ":" rest.

Fixpoint names_in (text : string) : bool :=
  match strip_prefix REFRESH_TOKEN_MEMBER text with
  | Some rest => introduces_value rest
  | None => false
  end
  || match text with String _ rest => names_in rest | EmptyString => false end.

Definition names_refresh_token (b : bytes) : bool := names_in (from_bytes b).

(** The value of a member, when it is a non-empty string named [refresh_token]. *)
Definition token_member (m : string * string) : option string :=
  if bool_decide (m.1 = REFRESH_TOKEN_MEMBER)
  then token ← raw_to_string m.2; if is_empty token then None else Some token
  else None.

Fixpoint seal_members (b : HandleBinding) (issued : Z) (members : list (string * string))
    : io (result (list (string * string) * bool) SubstitutionError) :=
  match members with
  | [] => Ret (Ok ([], false))
  | (name, value) :: members =>
      match token_member (name, value) with
      | None =>
          rest <-! seal_members b issued members ;; Ret (Ok ((name, value) :: rest.1, rest.2))
      | Some token =>
          sealed <- seal_handle b token issued ;;
          match sealed with
          | Err SealerUnavailable => Ret (Err SubSealerUnavailable)
          | Err InvalidHandle => Ret (Err SubSealing)
          | Ok handle =>
              value <-? ok_or (string_to_raw handle) SubSealing ;;
              rest <-! seal_members b issued members ;;
              Ret (Ok ((name, value) :: rest.1, true))
          end
      end
  end.

Definition seal_token_response (b : HandleBinding) (s : Z) (payload : bytes) (issued : Z)
    : io (result (option bytes) SubstitutionError) :=
  if negb (success_status s) then Ret (Ok None)
  else match members_from_slice payload with
  | None => Ret (if names_refresh_token payload then Err SubUnrecognizedBody else Ok None)
  | Some members =>
      sealed <-! seal_members b issued members ;;
      if negb sealed.2 then Ret (Ok None)
      else payload <-? ok_or (members_to_vec sealed.1) SubSealing ;; Ret (Ok (Some payload))
  end.

Fixpoint find_map {A B} (f : A -> option B) (l : list A) : option B :=
  match l with
  | [] => None
  | a :: l => match f a with Some b => Some b | None => find_map f l end
  end.

Definition upstream_refresh_token (s : Z) (payload : bytes) : option string :=
  if negb (success_status s) then None
  else members ← members_from_slice payload; find_map token_member members.

Definition set_token (value : string) (m : string * string) : string * string :=
  if bool_decide (m.1 = REFRESH_TOKEN_MEMBER) then (m.1, value) else m.

Definition with_refresh_token (s : Z) (payload : bytes) (token : string) : option bytes :=
  if negb (success_status s) then None
  else members ← members_from_slice payload;
       value ← string_to_raw token;
       let replaced := existsb (fun m => bool_decide (m.1 = REFRESH_TOKEN_MEMBER)) members in
       let members := set_token value <$> members in
       members_to_vec (if replaced then members else members ++ [(REFRESH_TOKEN_MEMBER, value)])%list.
End Handles.

(** ** Lemmas: encodings *)

Lemma length_be_bytes n x : length (be_bytes n x) = n.
Proof. revert x. induction n as [|n IH]; intros x; simpl; [done|]. rewrite length_app, IH. simpl. lia. Qed.

Lemma low_byte_inj x y : low_byte x = low_byte y -> (x mod 256 = y mod 256)%Z.
Proof.
  unfold low_byte. intros Heq.
  pose proof (Z.mod_pos_bound x 256) as Hx. pose proof (Z.mod_pos_bound y 256) as Hy.
  destruct (Byte.of_N (Z.to_N (x mod 256))) as [a|] eqn:Ea;
    [|apply Byte.of_N_None_iff in Ea; lia].
  destruct (Byte.of_N (Z.to_N (y mod 256))) as [b|] eqn:Eb;
    [|apply Byte.of_N_None_iff in Eb; lia].
  subst. apply Byte.to_of_N_iff in Ea, Eb. lia.
Qed.

Lemma be_bytes_inj n x y :
  (0 <= x < 256 ^ Z.of_nat n)%Z -> (0 <= y < 256 ^ Z.of_nat n)%Z ->
  be_bytes n x = be_bytes n y -> x = y.
Proof.
  revert x y. induction n as [|n IH]; intros x y Hx Hy; simpl.
  { simpl in Hx, Hy. lia. }
  rewrite Nat2Z.inj_succ, Z.pow_succ_r in Hx, Hy by lia.
  intros [Hhi Hlo]%app_inj_length; [|by rewrite !length_be_bytes].
  injection Hlo as Hlo. apply low_byte_inj in Hlo.
  assert (x / 256 = y / 256)%Z as Hq.
  { apply IH; [split|split|done]; try (apply Z.div_pos; lia); apply Z.div_lt_upper_bound; lia. }
  pose proof (Z.div_mod x 256). pose proof (Z.div_mod y 256). lia.
Qed.

#[global] Opaque be_bytes.

(** Lengths fit the eight bytes of a length prefix, as every length in memory does. *)
Definition fits (s : string) : Prop := (Z.of_nat (String.length s) < 2 ^ 64)%Z.
Definition fits_opt (o : option string) : Prop := forall s, o = Some s -> fits s.

Lemma field_inj a b x y :
  fits_opt a -> fits_opt b -> (field a ++ x = field b ++ y)%list -> a = b /\ x = y.
Proof.
  intros Ha Hb. destruct a as [a|], b as [b|]; simpl; intros Heq;
    [apply (f_equal tail) in Heq; cbn [tail] in Heq|discriminate|discriminate|by simplify_eq].
  specialize (Ha _ eq_refl). specialize (Hb _ eq_refl). unfold fits in *.
  rewrite <- !app_assoc in Heq. apply app_inj_length in Heq as [Hl Heq]; [|done].
  apply (be_bytes_inj 8 (Z.of_nat (String.length a)) (Z.of_nat (String.length b))) in Hl;
    [|simpl; lia|simpl; lia].
  apply app_inj_length in Heq as [Heq ->]; [|rewrite !into_bytes_length; lia].
  apply (inj into_bytes) in Heq. by subst.
Qed.

(** No NUL byte occurs in the key: [ResourceKey::new] admits none. *)
Definition plain_key (k : ResourceKey) : Prop := contains NUL (key_str k) = false.

Lemma new_key_plain value k : ResourceKey_new value = Ok k -> plain_key k.
Proof.
  intros [-> Hp]%ResourceKey_new_ok. unfold plain_key. simpl.
  rewrite <-(join_split "/" value). apply contains_false.
  assert (forall l, (forall p, p ∈ l -> valid_key_part p = true) ->
    str_all (fun d => bool_decide (d <> NUL)) (join "/" l) = true) as Hj; [|by apply Hj].
  assert (Hpart : forall p, valid_key_part p = true -> str_all (fun d => bool_decide (d <> NUL)) p = true).
  { intros p Hv. unfold valid_key_part in Hv. reflect. eapply str_all_weaken; [|done].
    intros c Hc. apply bool_decide_eq_true. intros ->. by vm_compute in Hc. }
  intros l. induction l as [|p [|q l] IH]; intros Hl; [done|..].
  - simpl. apply Hpart, Hl, list_elem_of_here.
  - change (join "/" (p :: q :: l)) with (p +:+ String "/" (join "/" (q :: l))).
    rewrite str_all_app. apply andb_true_iff. split; [apply Hpart, Hl, list_elem_of_here|].
    cbn [str_all]. rewrite IH; [done|]. intros p' Hp'. by apply Hl, list_elem_of_further.
Qed.

Lemma associated_data_inj b b' :
  plain_key (hb_relay b) -> plain_key (hb_relay b') ->
  associated_data b = associated_data b' -> b = b'.
Proof.
  destruct b as [[r] f], b' as [[r'] f']. unfold plain_key, associated_data.
  cbn [hb_relay hb_fingerprint key_str]. intros Hr Hr' Heq.
  rewrite !into_bytes_app, <- !app_assoc in Heq. apply app_inv_head in Heq.
  change (into_bytes (String NUL "")) with [byte_of_ascii NUL] in Heq.
  apply (sep_inj (byte_of_ascii NUL) (into_bytes r) (into_bytes r')) in Heq as [Heq ->];
    [|by apply into_bytes_contains..].
  by apply (inj into_bytes) in Heq as ->.
Qed.

(** ** Lemmas: handles *)

Section Handling.
Context {P : Postcard OpenedHandle} {PL : PostcardLaws OpenedHandle}.
Context {S : Type} {SL : Sealer S} {SLL : SealerLaws S} (sealer : S) (slack : Z) (i : nat).

Notation returns p w a w' := (outcome (handle sealer slack i) p w a w').

(** [h] is a handle the sealer may produce for this token. *)
Definition handle_for (b : HandleBinding) (token : string) (issued : Z) (h : string) : Prop :=
  exists w w', returns (seal_handle b token issued) w (Ok h) w'.

Lemma handle_for_envelope b token issued h :
  handle_for b token issued h ->
  exists plaintext nonce env,
    to_stdvec {| upstream_token := token; issued_at := issued |} = Some plaintext
    /\ length nonce = 24 /\ seal sealer nonce plaintext (associated_data b) = Ok env
    /\ h = HANDLE_PREFIX +:+ env.
Proof.
  intros (w & w' & Hh). unfold seal_handle in Hh.
  destruct (to_stdvec _) as [pt|] eqn:Ept; simpl in Hh; [|naive_solver].
  destruct Hh as (r & w1 & [_ [Hr|(nonce & Hn & Hr)]] & Heq & _).
  - by subst.
  - destruct r as [env|e]; simpl in Heq; simplify_eq. eauto 10.
Qed.

Lemma handle_for_prefix b token issued h :
  handle_for b token issued h -> has_handle_prefix h = true.
Proof. by intros (pt & nonce & env & _ & _ & _ & ->)%handle_for_envelope. Qed.

Lemma open_handle_for b b' token issued h w r w' :
  handle_for b token issued h -> plain_key (hb_relay b) -> plain_key (hb_relay b') ->
  returns (open_handle b' h) w r w' ->
  r = Err SealerUnavailable
  \/ (b' = b /\ r = Ok {| upstream_token := token; issued_at := issued |})
  \/ (b' <> b /\ r = Err InvalidHandle).
Proof.
  intros (pt & nonce & env & Hpt & Hn & Hs & ->)%handle_for_envelope Hk Hk' Ho.
  unfold open_handle in Ho. rewrite strip_prefix_app in Ho. simpl in Ho.
  destruct Ho as (a & w1 & [_ Ha] & Hr & _). subst.
  destruct Ha as [->|Ha]; [by left|].
  destruct (sealer_opens sealer) as [Hsame Honly].
  destruct (decide (associated_data b' = associated_data b)) as [Had|Had].
  - right. left. split; [by apply associated_data_inj|].
    rewrite Had, (Hsame _ _ _ _ Hn Hs) in Ha. subst. simpl.
    by rewrite (from_to_postcard _ _ Hpt).
  - destruct a as [pt'|e].
    { symmetry in Ha. by destruct (Honly _ _ _ _ _ _ Hn Hs Ha) as [Heq _]. }
    destruct e; simpl; [right; right|right; right|by left]; split; congruence.
Qed.

(** ** Lemmas: token responses *)

Context {J : JsonLib} {JL : JsonLaws J}.

(** What substitution makes of one member. *)
Definition substituted (b : HandleBinding) (issued : Z) (m m' : string * string) : Prop :=
  m'.1 = m.1 /\
  match token_member m with
  | None => m' = m
  | Some token => exists h, handle_for b token issued h /\ string_to_raw h = Some m'.2
  end.

Lemma seal_members_spec b issued ms w ms' flag w' :
  returns (seal_members b issued ms) w (Ok (ms', flag)) w' ->
  Forall2 (substituted b issued) ms ms' /\ (flag = false -> find_map token_member ms = None).
Proof.
  revert w ms' flag w'. induction ms as [|[name value] ms IH]; intros w ms' flag w'.
  { cbn. intros [[= -> ->] _]. done. }
  cbn [seal_members find_map]. destruct (token_member (name, value)) as [token|] eqn:Et.
  - rewrite outcome_bind. intros (sealed & w1 & Hs & Hrest).
    destruct sealed as [h|[]]; [|by destruct Hrest as [? _]..].
    destruct (string_to_raw h) as [raw|] eqn:Er; cbn [ok_or] in Hrest; [|by destruct Hrest as [? _]].
    rewrite outcome_bind_ok in Hrest. destruct Hrest as ([[rest flag']|e] & w2 & Hms & Hret).
    2: { by destruct Hret as [? _]. }
    destruct Hret as [[= -> ->] _]. apply IH in Hms as [Hms _]. split; [|done].
    constructor; [|done]. split; [done|]. rewrite Et. exists h. split; [by do 2 eexists|done].
  - rewrite outcome_bind_ok. intros ([[rest flag']|e] & w2 & Hms & Hret).
    2: { by destruct Hret as [? _]. }
    destruct Hret as [[= -> ->] _]. apply IH in Hms as [Hms Hf]. split; [|done].
    constructor; [|done]. split; [done|]. by rewrite Et.
Qed.

Lemma substituted_token b issued m m' token :
  substituted b issued m m' -> token_member m' = Some token ->
  exists upstream, token_member m = Some upstream /\ handle_for b upstream issued token.
Proof.
  intros [Hname Hm]. destruct (token_member m) as [upstream|] eqn:E.
  - destruct Hm as (h & Hh & Hraw). unfold token_member. rewrite Hname.
    case_bool_decide; [|done]. rewrite (raw_string_roundtrip _ _ Hraw). simpl.
    destruct (is_empty h); [done|]. intros [= <-]. eauto.
  - subst. congruence.
Qed.

Lemma find_map_Some {A B} (f : A -> option B) l b :
  find_map f l = Some b -> exists a, a ∈ l /\ f a = Some b.
Proof.
  induction l as [|a l IH]; simpl; [done|]. destruct (f a) eqn:E.
  - intros [= ->]. exists a. split; [apply list_elem_of_here|done].
  - intros (a' & Hin & Ha)%IH. exists a'. split; [by apply list_elem_of_further|done].
Qed.

Lemma seal_token_response_Some b s payload issued w payload' w' :
  returns (seal_token_response b s payload issued) w (Ok (Some payload')) w' ->
  exists ms ms', members_from_slice payload = Some ms /\ members_from_slice payload' = Some ms'
    /\ Forall2 (substituted b issued) ms ms'.
Proof.
  unfold seal_token_response. destruct (success_status s); cbn [negb]; [|by intros [? _]].
  destruct (members_from_slice payload) as [ms|] eqn:Em.
  2: { by destruct (names_refresh_token payload); intros [? _]. }
  rewrite outcome_bind_ok. intros ([[ms' flag]|e] & w1 & Hms & Hret); [|by destruct Hret as [? _]].
  apply seal_members_spec in Hms as [Hms _]. destruct flag; cbn in Hret; [|by destruct Hret as [? _]].
  destruct (members_to_vec ms') as [v|] eqn:Ev; simpl in Hret; [|by destruct Hret as [? _]].
  destruct Hret as [[= ->] _]. exists ms, ms'. split; [done|]. split; [|done].
  by apply members_roundtrip.
Qed.

Lemma seal_token_response_None b s payload issued w w' :
  returns (seal_token_response b s payload issued) w (Ok None) w' ->
  upstream_refresh_token s payload = None
  /\ (success_status s = true -> members_from_slice payload = None ->
      names_refresh_token payload = false).
Proof.
  unfold seal_token_response, upstream_refresh_token.
  destruct (success_status s); cbn [negb]; [|done].
  destruct (members_from_slice payload) as [ms|] eqn:Em; simpl.
  2: { by destruct (names_refresh_token payload); intros [? _]. }
  rewrite outcome_bind_ok. intros ([[ms' flag]|e] & w1 & Hms & Hret); [|by destruct Hret as [? _]].
  apply seal_members_spec in Hms as [_ Hf]. destruct flag; cbn in Hret.
  - destruct (members_to_vec ms'); simpl in Hret; by destruct Hret as [? _].
  - split; [by apply Hf|done].
Qed.
End Handling.

(** ** Lemmas: [with_refresh_token] *)

Section Substitution.
Context {J : JsonLib} {JL : JsonLaws J}.

Definition is_token (m : string * string) : bool := bool_decide (m.1 = REFRESH_TOKEN_MEMBER).
Definition other_members (ms : list (string * string)) : list (string * string) :=
  List.filter (fun m => negb (is_token m)) ms.

Definition replace_token (value : string) (ms : list (string * string)) : list (string * string) :=
  let ms' := set_token value <$> ms in
  (if existsb is_token ms then ms' else ms' ++ [(REFRESH_TOKEN_MEMBER, value)])%list.

Lemma with_refresh_token_Some s payload token payload' :
  with_refresh_token s payload token = Some payload' ->
  success_status s = true /\ exists ms value,
    members_from_slice payload = Some ms /\ string_to_raw token = Some value
    /\ members_from_slice payload' = Some (replace_token value ms).
Proof.
  unfold with_refresh_token. destruct (success_status s); cbn [negb]; [|done].
  intros (ms & Hm & (value & Hv & Hvec)%bind_Some)%bind_Some. split; [done|].
  exists ms, value. split; [done|]. split; [done|]. by apply members_roundtrip.
Qed.

Lemma is_token_set value m : is_token (set_token value m) = is_token m.
Proof. unfold is_token, set_token. by destruct (bool_decide (m.1 = _)) eqn:E. Qed.

Lemma set_token_spec value m :
  set_token value m = if is_token m then (m.1, value) else m.
Proof. done. Qed.

Lemma replace_token_all value ms m : m ∈ replace_token value ms -> is_token m = true -> m.2 = value.
Proof.
  unfold replace_token. intros Hin Hm.
  assert (forall m', m' ∈ set_token value <$> ms -> is_token m' = true -> m'.2 = value) as Hset.
  { intros m' (m0 & -> & _)%list_elem_of_fmap. rewrite is_token_set, set_token_spec. by intros ->. }
  destruct (existsb is_token ms); [by apply Hset|].
  apply elem_of_app in Hin as [Hin|Hin]; [by apply Hset|].
  by apply list_elem_of_singleton in Hin as ->.
Qed.

Lemma replace_token_some value ms : exists m, m ∈ replace_token value ms /\ is_token m = true.
Proof.
  unfold replace_token. destruct (existsb is_token ms) eqn:E.
  - apply existsb_elem in E as (m & Hin & Hm). exists (set_token value m).
    split; [by apply list_elem_of_fmap_2|by rewrite is_token_set].
  - eexists. split; [apply elem_of_app; right; apply list_elem_of_here|].
    by apply bool_decide_eq_true.
Qed.

Lemma other_members_set value ms : other_members (set_token value <$> ms) = other_members ms.
Proof.
  unfold other_members. induction ms as [|m ms IH]; cbn; [done|].
  rewrite is_token_set, set_token_spec. destruct (is_token m); cbn; [done|by rewrite <-IH].
Qed.

Lemma replace_token_others value ms : other_members (replace_token value ms) = other_members ms.
Proof.
  unfold replace_token. destruct (existsb is_token ms); [apply other_members_set|].
  unfold other_members. rewrite List.filter_app. fold (other_members (set_token value <$> ms)).
  rewrite other_members_set. simpl. by rewrite app_nil_r.
Qed.

Lemma find_map_token value token ms :
  raw_to_string value = Some token -> token <> "" ->
  (forall m, m ∈ ms -> is_token m = true -> m.2 = value) ->
  (exists m, m ∈ ms /\ is_token m = true) -> find_map token_member ms = Some token.
Proof.
  intros Hv Hne Hall (m & Hin & Hm). induction ms as [|m' ms IH]; simpl.
  { by apply not_elem_of_nil in Hin. }
  unfold token_member at 1. fold (is_token m'). destruct (is_token m') eqn:Hm'.
  - rewrite (Hall m' (list_elem_of_here _ _) Hm'), Hv. simpl. by destruct token.
  - apply IH.
    + intros m0 ?. by apply Hall, list_elem_of_further.
    + apply elem_of_cons in Hin as [->|Hin]; [congruence|done].
Qed.

Lemma with_refresh_token_token s payload token payload' :
  with_refresh_token s payload token = Some payload' -> token <> "" ->
  upstream_refresh_token s payload' = Some token.
Proof.
  intros (Hs & ms & value & _ & Hv & Hp)%with_refresh_token_Some Hne.
  unfold upstream_refresh_token. rewrite Hs, Hp. simpl.
  eapply find_map_token; [by apply raw_string_roundtrip|done|apply replace_token_all|].
  apply replace_token_some.
Qed.

Lemma with_refresh_token_only s payload token payload' ms' m t :
  with_refresh_token s payload token = Some payload' -> members_from_slice payload' = Some ms' ->
  m ∈ ms' -> token_member m = Some t -> t = token.
Proof.
  intros (Hs & ms & value & _ & Hv & Hp)%with_refresh_token_Some Hp' Hin. rewrite Hp in Hp'. simplify_eq.
  unfold token_member. fold (is_token m). destruct (is_token m) eqn:Hm; [|done].
  rewrite (replace_token_all _ _ _ Hin Hm).
  rewrite (raw_string_roundtrip _ _ Hv). simpl. destruct (is_empty token); naive_solver.
Qed.
End Substitution.

(** ** What a body hands out *)

(** The text spells a refresh token outside JSON: the member's name, perhaps quoted, perhaps some
    space, and the sign that introduces a value (as in [refresh_token=...]). *)
Definition spells_refresh_token (b : bytes) : Prop :=
  exists before quotes space sign value,
    from_bytes b = before +:+ REFRESH_TOKEN_MEMBER +:+ quotes +:+ space +:+ String sign value
    /\ str_all (fun c => bool_decide (c ∈ [ascii_of_nat 34; "'"%char])) quotes = true
    /\ str_all is_whitespace space = true
    /\ (sign = "="%char \/ sign = ":"%char).

(** Every refresh token that the body hands out is as [P] says: each member of that name whose
    value is a string that is not empty; and a body that is no object does not spell one. *)
Definition hands_out_only {J : JsonLib} (P : string -> Prop) (b : bytes) : Prop :=
  match members_from_slice b with
  | Some ms => forall name raw t, (name, raw) ∈ ms -> name = "refresh_token" ->
                 raw_to_string raw = Some t -> t <> "" -> P t
  | None => ~ spells_refresh_token b
  end.

Lemma skip_ascii_whitespace c s : is_whitespace c = true -> skip_whitespace (String c s) = Some s.
Proof.
  unfold is_whitespace. intros Hc. cbn [skip_whitespace].
  assert (between 9 13 c || (code c =? 32)%nat = true) as ->; [|done].
  unfold between. rewrite orb_true_iff, andb_true_iff, Nat.leb_le, Nat.leb_le, Nat.eqb_eq.
  apply bool_decide_eq_true in Hc. rewrite !elem_of_cons, elem_of_nil in Hc. lia.
Qed.

Lemma trim_whitespace_sign space sign value fuel :
  str_all is_whitespace space = true -> (sign = "="%char \/ sign = ":"%char) ->
  String.length space <= fuel ->
  trim_start_whitespace fuel (space +:+ String sign value) = String sign value.
Proof.
  intros Hs Hsign. revert fuel. induction space as [|c space IH]; intros fuel Hf.
  - cbn [String.append]. destruct fuel as [|fuel]; [done|]. cbn [trim_start_whitespace].
    assert (skip_whitespace (String sign value) = None) as ->; [|done].
    destruct Hsign as [-> | ->]; destruct value as [|? [|? ?]]; reflexivity.
  - cbn [str_all] in Hs. apply andb_true_iff in Hs as [Hc Hs]. destruct fuel as [|fuel]; simpl in Hf; [lia|].
    cbn [trim_start_whitespace String.append]. rewrite skip_ascii_whitespace by done. apply IH; [done|lia].
Qed.

Lemma trim_quotes_rest quotes c rest :
  str_all (fun c => bool_decide (c ∈ [ascii_of_nat 34; "'"%char])) quotes = true ->
  bool_decide (c ∈ [ascii_of_nat 34; "'"%char]) = false ->
  trim_start_quotes (quotes +:+ String c rest) = String c rest.
Proof.
  intros Hq Hc. induction quotes as [|d quotes IH]; cbn [String.append trim_start_quotes].
  - by rewrite Hc.
  - cbn [str_all] in Hq. apply andb_true_iff in Hq as [-> Hq]. by apply IH.
Qed.

Lemma introduces_spelled quotes space sign value :
  str_all (fun c => bool_decide (c ∈ [ascii_of_nat 34; "'"%char])) quotes = true ->
  str_all is_whitespace space = true -> (sign = "="%char \/ sign = ":"%char) ->
  introduces_value (quotes +:+ space +:+ String sign value) = true.
Proof.
  intros Hq Hs Hsign. unfold introduces_value. cbv zeta.
  assert (trim_start_quotes (quotes +:+ space +:+ String sign value) = space +:+ String sign value) as ->.
  { destruct space as [|c space]; cbn [String.append].
    - apply trim_quotes_rest; [done|]. by destruct Hsign as [-> | ->].
    - apply trim_quotes_rest; [done|]. cbn [str_all] in Hs. apply andb_true_iff in Hs as [Hc _].
      apply bool_decide_eq_false_2. rewrite !elem_of_cons, elem_of_nil.
      by intros [->|[->|[]]]. }
  rewrite trim_whitespace_sign; [by destruct Hsign as [-> | ->]|done|done|].
  rewrite str_app_length. lia.
Qed.

Lemma names_in_here text :
  names_in text = match strip_prefix REFRESH_TOKEN_MEMBER text with
                  | Some rest => introduces_value rest
                  | None => false
                  end || match text with String _ rest => names_in rest | EmptyString => false end.
Proof. by destruct text. Qed.

(** The code's own test finds every such spelling. *)
Lemma spelled_named b : spells_refresh_token b -> names_refresh_token b = true.
Proof.
  intros (before & quotes & space & sign & value & Hb & Hq & Hs & Hsign).
  unfold names_refresh_token. rewrite Hb. clear Hb. induction before as [|c before IH]; cbn [String.append].
  - rewrite names_in_here, strip_prefix_app. by rewrite introduces_spelled.
  - cbn [names_in]. rewrite IH. apply orb_true_r.
Qed.

Lemma unnamed_not_spelled b : names_refresh_token b = false -> ~ spells_refresh_token b.
Proof. intros Hn Hs%spelled_named. congruence. Qed.

(** The members' reading by the code. *)
Lemma hands_out_only_members {J : JsonLib} (P : string -> Prop) b ms :
  members_from_slice b = Some ms -> (forall m t, m ∈ ms -> token_member m = Some t -> P t) -> hands_out_only P b.
Proof.
  unfold hands_out_only. intros -> Hp name raw t Hin -> Hr Ht. apply (Hp _ t Hin). unfold token_member.
  rewrite bool_decide_eq_true_2 by done. cbn [snd]. rewrite Hr. simpl. by destruct t.
Qed.

(** ** Properties *)

(** The binding fingerprint. With a collision-free digest, two configurations have the same
    fingerprint exactly when they agree on the relay's generation, the normalised issuer, the
    token-endpoint override and the client id; an absent value never passes for an empty one, and
    no other setting counts. *)
Theorem fingerprint_identity {U : UrlLib} {H : Sha256} {HC : CollisionFree H}
    (r r' : Relay) (u u' : Upstream) :
  (forall s, s ∈ [issuer_identifier (issuer_url u); issuer_identifier (issuer_url u');
                  up_client_id u; up_client_id u'] -> fits s) ->
  (forall o, o ∈ [generation r; generation r'; as_str <$> token_endpoint u;
                  as_str <$> token_endpoint u'] -> fits_opt o) ->
  fingerprint r u = fingerprint r' u' <->
  generation r = generation r'
  /\ issuer_identifier (issuer_url u) = issuer_identifier (issuer_url u')
  /\ as_str <$> token_endpoint u = as_str <$> token_endpoint u'
  /\ up_client_id u = up_client_id u'.
Proof.
  intros Hs Ho. split.
  - unfold fingerprint, fingerprint_input. intros Heq%sha256_inj.
    apply app_inv_head in Heq.
    apply field_inj in Heq as [-> Heq]; [|apply Ho; set_solver|apply Ho; set_solver].
    apply field_inj in Heq as [Hi Heq]; [|intros ? [= <-]; apply Hs; set_solver..].
    apply field_inj in Heq as [-> Heq]; [|apply Ho; set_solver|apply Ho; set_solver].
    rewrite <-(app_nil_r (field (Some (up_client_id u)))), <-(app_nil_r (field (Some (up_client_id u')))) in Heq.
    apply field_inj in Heq as [Hc _]; [|intros ? [= <-]; apply Hs; set_solver..].
    by simplify_eq.
  - unfold fingerprint, fingerprint_input. by intros (-> & -> & -> & ->).
Qed.

(** C23: a handle opens under its own binding and no other. Whatever sealed handle the relay
    issued, presented under the same relay and fingerprint it gives back the upstream token and
    the time of issue; under any other it is refused, and the only other answer is that the
    sealer is unavailable. *)
Theorem sealed_handle_binding {P : Postcard OpenedHandle} {PL : PostcardLaws OpenedHandle}
    {S} {SL : Sealer S} {SLL : SealerLaws S} (sealer : S) slack i b b' token issued h w r w' :
  handle_for sealer slack i b token issued h ->
  plain_key (hb_relay b) -> plain_key (hb_relay b') ->
  outcome (handle sealer slack i) (open_handle b' h) w r w' ->
  r = Err SealerUnavailable
  \/ (b' = b /\ r = Ok {| upstream_token := token; issued_at := issued |})
  \/ (b' <> b /\ r = Err InvalidHandle).
Proof. apply open_handle_for. Qed.

(** No upstream token survives substitution. When [seal_token_response] gives a new body, the
    members keep their names and order, every member that is not a refresh token keeps its bytes,
    and every refresh token in the new body is a handle, recognisable by its prefix, for the token
    it replaces. When it passes a 2xx body on, there is no refresh token in it and, if it is not
    a JSON object, it does not even name one. *)
Theorem substitution_hides_tokens {P : Postcard OpenedHandle} {J : JsonLib} {JL : JsonLaws J}
    {S} {SL : Sealer S} (sealer : S) slack i b s payload issued w o w' :
  outcome (handle sealer slack i) (seal_token_response b s payload issued) w (Ok o) w' ->
  match o with
  | Some payload' =>
      exists ms ms', members_from_slice payload = Some ms /\ members_from_slice payload' = Some ms'
        /\ Forall2 (substituted sealer slack i b issued) ms ms'
        /\ forall m token, m ∈ ms' -> token_member m = Some token ->
             has_handle_prefix token = true
             /\ exists upstream, handle_for sealer slack i b upstream issued token
  | None =>
      upstream_refresh_token s payload = None
      /\ (success_status s = true -> members_from_slice payload = None ->
          names_refresh_token payload = false)
  end.
Proof.
  intros Hr. destruct o as [payload'|].
  - apply (seal_token_response_Some sealer slack i) in Hr as (ms & ms' & Hm & Hm' & Hf).
    exists ms, ms'. split_and!; [done..|]. intros m' token Hin Ht.
    apply list_elem_of_lookup in Hin as [n Hn].
    destruct (Forall2_lookup_r _ _ _ _ _ Hf Hn) as (m & _ & Hsub).
    destruct (substituted_token _ _ _ _ _ _ _ _ Hsub Ht) as (upstream & _ & Hh).
    split; [by eapply handle_for_prefix|eauto].
  - by eapply seal_token_response_None.
Qed.

(** The successor handle is the only refresh token of a rewritten response. After
    [with_refresh_token] gives a body, reading its refresh token gives the handle, no other
    non-empty refresh token is left in it, and all other members are the same, in order. *)
Theorem with_refresh_token_replaces {J : JsonLib} {JL : JsonLaws J} s payload token payload' :
  with_refresh_token s payload token = Some payload' -> token <> "" ->
  upstream_refresh_token s payload' = Some token
  /\ exists ms ms', members_from_slice payload = Some ms /\ members_from_slice payload' = Some ms'
     /\ other_members ms' = other_members ms
     /\ forall m t, m ∈ ms' -> token_member m = Some t -> t = token.
Proof.
  intros Hw Hne. split; [by eapply with_refresh_token_token|].
  pose proof Hw as (_ & ms & value & Hm & _ & Hm')%with_refresh_token_Some.
  exists ms, (replace_token value ms). split_and!; [done|done|apply replace_token_others|].
  intros. by eapply with_refresh_token_only.
Qed.

(** ** A concrete instance

    Encodings that satisfy the laws, so that the theorems can be applied to values: bytes that
    spell the binary number [encode x], and a digest that is its own preimage. Nothing is claimed
    about the crates through them. *)

Module PlainCodec.

Fixpoint bits (p : positive) : bytes :=
  match p with
  | xH => []
  | xO p => x00 :: bits p
  | xI p => x01 :: bits p
  end.

Fixpoint unbits (b : bytes) : positive :=
  match b with
  | [] => xH
  | c :: b => if bool_decide (c = x00) then xO (unbits b) else xI (unbits b)
  end.

Lemma unbits_bits p : unbits (bits p) = p.
Proof. induction p; simpl; by f_equal. Qed.

Definition pack {T} `{Countable T} (x : T) : bytes := bits (encode x).
Definition unpack {T} `{Countable T} (b : bytes) : option T := decode (unbits b).

Lemma unpack_pack {T} `{Countable T} (x : T) : unpack (pack x) = Some x.
Proof. unfold unpack, pack. by rewrite unbits_bits, decode_encode. Qed.

Definition postcard {T} `{Countable T} : Postcard T :=
  {| to_stdvec x := Some (pack x); from_postcard := unpack |}.

Lemma postcard_laws {T} `{Countable T} : @PostcardLaws T postcard.
Proof. constructor. intros x b [= <-]. apply unpack_pack. Qed.

#[export] Instance opened_handle_eq_dec : EqDecision OpenedHandle.
Proof. solve_decision. Defined.
#[export] Instance opened_handle_countable : Countable OpenedHandle.
Proof.
  by refine (inj_countable' (fun h => (upstream_token h, issued_at h))
    (fun '(t, i) => {| upstream_token := t; issued_at := i |}) _); intros [].
Defined.

#[export] Instance handle_postcard : Postcard OpenedHandle := postcard.
#[export] Instance handle_postcard_laws : PostcardLaws OpenedHandle.
Proof. apply postcard_laws. Defined.

#[export] Instance plain_sha : Sha256 := fun b => b.
#[export] Instance plain_collision_free : CollisionFree plain_sha.
Proof. by intros a b. Defined.

Definition quote : ascii := ascii_of_nat 34.
Definition raw_string (s : string) : string := String quote "" +:+ (s +:+ String quote "").
Definition unraw_string (raw : string) : option string :=
  inner ← strip_prefix (String quote "") raw; strip_suffix (String quote "") inner.

(** Documents are encoded member lists; a member is a string when its text is quoted. *)
#[export] Instance plain_json : JsonLib := {|
  from_slice b :=
    m ← unpack b;
    Some (Object ((fun nv : string * string =>
      (nv.1, match unraw_string nv.2 with Some s => Str s | None => Null end)) <$> m));
  to_vec _ := [];
  string_to_raw s := Some (raw_string s);
  raw_to_string := unraw_string;
  members_from_slice := unpack;
  members_to_vec m := Some (pack m);
|}.

#[export] Instance plain_json_laws : JsonLaws plain_json.
Proof.
  constructor; simpl.
  - intros s raw [= <-]. unfold unraw_string, raw_string.
    rewrite (strip_prefix_app (String quote "")). simpl. by apply strip_suffix_Some.
  - intros m b [= <-]. apply unpack_pack.
Defined.

#[export] Instance plain_json_objects : JsonObjects plain_json.
Proof.
  intros b m. cbn [from_slice members_from_slice plain_json].
  destruct (unpack (T := list (string * string)) b) as [ms|]; [by eexists|done].
Defined.
End PlainCodec.

Module Example.
Import PlainUrl PlainSeal PlainCodec.

Definition binding : HandleBinding := {| hb_relay := ResourceKey_of "app"; hb_fingerprint := [x01] |}.
Definition rebound : HandleBinding := {| hb_relay := ResourceKey_of "app"; hb_fingerprint := [x02] |}.

Definition world : World :=
  {| w_store := ∅; w_backend := 0; w_unix := 0; w_mono := 0; w_drawn := []; w_writes := []; w_asked := [] |}.

(** The envelope of [opened] under [b], with the nonce of seven-valued bytes. *)
Definition envelope (b : HandleBinding) (opened : OpenedHandle) : string :=
  match seal old_sealer nonce (pack opened) (associated_data b) with Ok env => env | Err _ => "" end.

Definition opened : OpenedHandle := {| upstream_token := "up"; issued_at := 1700000000 |}.
Definition sealed : string := HANDLE_PREFIX +:+ envelope binding opened.

Lemma sealed_handle_for : handle_for old_sealer 0 0 binding "up" 1700000000 sealed.
Proof.
  exists world, world. cbn [seal_handle to_stdvec handle_postcard postcard ok_or].
  exists (Ok (envelope binding opened)), world. split; [|done]. split; [done|]. right.
  exists nonce. split; reflexivity.
Qed.

Lemma sealed_handle_binding_witness :
  Err InvalidHandle = @Err OpenedHandle _ SealerUnavailable
  \/ (rebound = binding /\ Err InvalidHandle = Ok {| upstream_token := "up"; issued_at := 1700000000 |})
  \/ (rebound <> binding /\ Err InvalidHandle = @Err OpenedHandle _ InvalidHandle).
Proof.
  apply (sealed_handle_binding old_sealer 0 0 binding rebound "up" 1700000000 sealed world _ world).
  - apply sealed_handle_for.
  - reflexivity.
  - reflexivity.
  - unfold open_handle, sealed. rewrite strip_prefix_app. cbn [ok_or].
    exists (Err InvalidEnvelope), world. split; [|done]. split; [done|]. right. reflexivity.
Defined.

Definition members : list (string * string) :=
  [("access_token", raw_string "at"); ("refresh_token", raw_string "up")].
Definition payload : bytes := pack members.
Definition payload_sealed : bytes :=
  pack [("access_token", raw_string "at"); ("refresh_token", raw_string sealed)].

Lemma substitution_hides_tokens_witness :
  exists ms ms', members_from_slice payload = Some ms /\ members_from_slice payload_sealed = Some ms'
    /\ Forall2 (substituted old_sealer 0 0 binding 1700000000) ms ms'
    /\ forall m token, m ∈ ms' -> token_member m = Some token ->
         has_handle_prefix token = true
         /\ exists upstream, handle_for old_sealer 0 0 binding upstream 1700000000 token.
Proof.
  apply (substitution_hides_tokens old_sealer 0 0 binding 200 payload 1700000000 world
           (Some payload_sealed) world).
  unfold seal_token_response. cbn [success_status negb].
  change (members_from_slice payload) with (unpack (T := list (string * string)) payload).
  unfold payload at 1. rewrite unpack_pack. cbn [members seal_members].
  exists (Ok (envelope binding opened)), world. split; [|by split].
  split; [done|]. right. exists nonce. split; reflexivity.
Defined.

Lemma with_refresh_token_replaces_witness :
  upstream_refresh_token 200
    (pack [("access_token", raw_string "at"); ("refresh_token", raw_string "rrt2.h")])
  = Some "rrt2.h".
Proof.
  apply (with_refresh_token_replaces 200 payload "rrt2.h"); [|discriminate].
  unfold with_refresh_token, payload. cbn [success_status negb].
  change (members_from_slice (pack members)) with (unpack (T := list (string * string)) (pack members)).
  rewrite unpack_pack. reflexivity.
Defined.

Definition next_generation : Relay := {|
  relay_key := relay_key Model.Example.relay; relay_upstream := relay_upstream Model.Example.relay;
  generation := Some ""; client_auth := Public; scopes := []; allowed_scopes := None;
  required_id_token_claims := ∅; id_token_policy := None;
  refresh_tokens := refresh_tokens Model.Example.relay; redirect_policy := []
|}.

Definition google : Upstream := {|
  up_key := ResourceKey_of "google"; issuer_url := origin_url Model.Example.https_origin;
  authorization_endpoint := None; token_endpoint := None; jwks_uri := None;
  up_client_id := "client"; up_client_secret := "secret"; token_endpoint_auth_method := ClientSecretPost
|}.

(** A relay without a generation and one whose generation is empty are told apart. *)
Lemma fingerprint_identity_witness :
  fingerprint Model.Example.relay google <> fingerprint next_generation google.
Proof.
  intros Heq. apply (fingerprint_identity Model.Example.relay next_generation google google) in Heq.
  - destruct Heq as [Hg _]. discriminate Hg.
  - intros s. rewrite !elem_of_cons, elem_of_nil. unfold fits.
    intros [->|[->|[->|[->|[]]]]]; vm_compute; reflexivity.
  - intros o. rewrite !elem_of_cons, elem_of_nil. unfold fits_opt, fits.
    intros [->|[->|[->|[->|[]]]]] s Hs; try discriminate Hs. injection Hs as <-. reflexivity.
Defined.
End Example.
