(* ===== verification/Rotation.v ===== *)
(** * Rotation: rotating refresh-token handles

    Models crates/oauthrelay-core/src/rotation.rs: the whole state machine of one relay's
    [Rotator], method by method. The store, the sealer, the clocks, the generator and the upstream
    are the effects of [Effects]; log lines are left out. The polling loop of [refresh_rotating]
    takes fuel; [RotationSafety] proves that it never runs out. *)

From S2P Require Import Prelude Text Json Model Store Seal Prog Effects RefreshHandle.
#[local] Open Scope string_scope.
#[local] Open Scope prog_scope.

Definition ROTATING_PREFIX : string := "rrt2.".
Definition HANDLE_BYTES : nat := 32.
Definition HANDLE_KEY_PREFIX : string := "refresh:handle:".
Definition GRACE_KEY_PREFIX : string := "refresh:grace:".
Definition REVOKED_KEY_PREFIX : string := "refresh:revoked:".
Definition HEAD_KEY_PREFIX : string := "refresh:head:".
Definition MAX_ERASE_HOPS : nat := 1000.
Definition RECORD_PURPOSE : string := "refresh-record".
Definition GRACE_PURPOSE : string := "refresh-grace".
Definition GRACE_RESPONSE_MARGIN : Duration := from_secs 10.

Record Timing := {
  poll_interval : Duration;
  resolve_wait : Duration;
  upstream_timeout : Duration;
  claim_lease : Duration;
  sealer_timeout : Duration;
}.

Definition timing_default : Timing := {|
  poll_interval := from_millis 100;
  resolve_wait := from_secs 5;
  upstream_timeout := from_secs 30;
  claim_lease := from_secs 60;
  sealer_timeout := from_secs 5;
|}.

Inductive IssueError := IssueStore | IssueSealerUnavailable | IssueUnrecognizedBody.

Inductive RefreshOutcome :=
  | Response (r : StoredResponse)
  | InvalidGrant
  | OutcomeUnavailable
  | UpstreamFailed (f : UpstreamFailure)
  | UpstreamUnusable
  | StoreFailed
  | OutcomeSealerUnavailable.

Inductive Fault :=
  | FaultStore (e : StoreError)
  | Sealing
  | Unopenable
  | FaultSealerUnavailable
  | Conflict.

Definition from_seal_error (e : SealError) : Fault :=
  match e with Unavailable => FaultSealerUnavailable | InvalidKey | InvalidEnvelope => Sealing end.

Definition from_unseal_error (e : SealError) : Fault :=
  match e with Unavailable => FaultSealerUnavailable | InvalidKey | InvalidEnvelope => Unopenable end.

Inductive State :=
  | Active (upstream_token : string)
  | Claimed (upstream_token : string) (claim_id : bytes) (claimed_ms : Z)
  | Rotated (rotated_ms : Z) (claim_id : bytes) (successor_key : string).

Record HandleRecord := { family_id : bytes; family_expires_ms : Z; state : State }.

Record Loaded := { l_bytes : bytes; l_record : HandleRecord }.

Record Claim := {
  c_bytes : bytes;
  c_claim_id : bytes;
  c_upstream_token : string;
  c_family_id : bytes;
  c_family_expires_ms : Z;
}.

(** [Record] with the family of a claim. *)
Definition claim_record (c : Claim) (s : State) : HandleRecord :=
  {| family_id := c_family_id c; family_expires_ms := c_family_expires_ms c; state := s |}.

Inductive Commit := CommitRotated | CommitLost.

Definition ttl_until (expires_ms now_ms : Z) : option Duration :=
  if (now_ms <? expires_ms)%Z then Some (from_millis (expires_ms - now_ms)) else None.

Definition is_success (r : StoredResponse) : bool := success_status (status r).

Record Rotator := {
  binding : HandleBinding;
  grace : Duration;
  max_lifetime : Duration;
  timing : Timing;
}.

Definition Rotator_new (b : HandleBinding) (settings : RefreshTokens) : Rotator := {|
  binding := b;
  grace := from_secs (grace_period_seconds settings);
  max_lifetime := from_secs (max_lifetime_seconds settings);
  timing := timing_default;
|}.

Section Rotator.
Context {J : JsonLib} {H : Sha256} {B : Base64}.
Context {PH : Postcard OpenedHandle} {PR : Postcard HandleRecord} {PS : Postcard StoredResponse}.
Context (self : Rotator).

(** [is_invalid_grant] *)
Definition is_invalid_grant (r : StoredResponse) : bool :=
  ((400 <=? status r) && (status r <? 500))%Z
  && match from_slice (body r) with
     | Some v => bool_decide (get_str v "error" = Some "invalid_grant")
     | None => false
     end.

(** ** Handles and keys *)

Definition handle_of (random : bytes) : string := ROTATING_PREFIX +:+ b64_encode random.

Definition new_handle : io string := random <- await (Random HANDLE_BYTES) ;; Ret (handle_of random).

Definition valid_handle_shape (handle : string) : bool :=
  match strip_prefix ROTATING_PREFIX handle with
  | Some encoded =>
      match b64_decode encoded with
      | Some b => bool_decide (length b = HANDLE_BYTES)
      | None => false
      end
  | None => false
  end.

Definition relay : string := key_str (hb_relay (binding self)).

(** What [digest_key] feeds to the hasher. *)
Definition digest_input (material : list bytes) : bytes :=
  (into_bytes relay ++ x00 :: mjoin ((fun part => part ++ [x00]) <$> material))%list.

Definition digest_key (prefix : string) (material : list bytes) : string :=
  prefix +:+ b64_encode (sha256 (digest_input material)).

Definition handle_key (handle : string) : string := digest_key HANDLE_KEY_PREFIX [into_bytes handle].
Definition grace_key (key : string) (claim_id : bytes) : string :=
  digest_key GRACE_KEY_PREFIX [into_bytes key; claim_id].
Definition head_key (family : bytes) : string := digest_key HEAD_KEY_PREFIX [family].
Definition family_key (family : bytes) : string := digest_key REVOKED_KEY_PREFIX [family].

Definition record_data (purpose key : string) : bytes :=
  (into_bytes (purpose +:+ String NUL relay +:+ String NUL key +:+ String NUL "")
   ++ hb_fingerprint (binding self))%list.

(** ** Sealing and the store *)

Definition seal_value {T} {P : Postcard T} (purpose key : string) (value : T)
    : io (result bytes Fault) :=
  plaintext <-? ok_or (to_stdvec value) Sealing ;;
  sealed <- timeout (sealer_timeout (timing self)) (await (SealCall plaintext (record_data purpose key))) ;;
  Ret (match sealed with
       | None => Err FaultSealerUnavailable
       | Some (Ok envelope) => Ok (into_bytes envelope)
       | Some (Err e) => Err (from_seal_error e)
       end).

Definition open_value {T} {P : Postcard T} (purpose key : string) (b : bytes) : io (result T Fault) :=
  envelope <-? ok_or (from_utf8 b) Unopenable ;;
  plaintext <- timeout (sealer_timeout (timing self)) (await (UnsealCall envelope (record_data purpose key))) ;;
  Ret (match plaintext with
       | None => Err FaultSealerUnavailable
       | Some (Ok plaintext) => ok_or (from_postcard plaintext) Unopenable
       | Some (Err e) => Err (from_unseal_error e)
       end).

(** A store call under [?], whose [StoreError] becomes a [Fault]. *)
Definition store (o : store_op) : io (result (store_ans o) Fault) :=
  r <- await (StoreCall o) ;; Ret (map_err FaultStore r).

Definition load (key : string) : io (result (option Loaded) Fault) :=
  entry <-! store (Get key) ;;
  match entry with
  | None => Ret (Ok None)
  | Some entry =>
      record <-! open_value RECORD_PURPOSE key (value entry) ;;
      Ret (Ok (Some {| l_bytes := value entry; l_record := record |}))
  end.

Definition load_grace_response (key : string) : io (result (option StoredResponse) Fault) :=
  entry <-! store (Get key) ;;
  match entry with
  | None => Ret (Ok None)
  | Some entry =>
      response <-! open_value GRACE_PURPOSE key (value entry) ;;
      Ret (Ok (Some response))
  end.

Definition is_revoked (family : bytes) : io (result bool Fault) :=
  entry <-! store (Get (family_key family)) ;;
  Ret (Ok (bool_decide (is_Some entry))).

(** ** Revocation *)

(** [erase_tokens], with [hops] left of [MAX_ERASE_HOPS]. *)
Fixpoint erase_from (hops : nat) (key : string) : io (result unit Fault) :=
  match hops with
  | O => Ret (Ok tt)
  | S hops =>
      loaded <- load key ;;
      match loaded with
      | Ok None => Ret (Ok tt)
      | Ok (Some loaded) =>
          match state (l_record loaded) with
          | Active _ | Claimed _ _ _ => store (Delete key)
          | Rotated _ _ successor_key => erase_from hops successor_key
          end
      | Err Unopenable => store (Delete key)
      | Err fault => Ret (Err fault)
      end
  end.

Definition erase_tokens (start : string) : io (result unit Fault) := erase_from MAX_ERASE_HOPS start.

Definition erase_tokens_if_sealer_available (start : string) : io (result unit Fault) :=
  r <- erase_tokens start ;;
  Ret (match r with Err FaultSealerUnavailable => Ok tt | other => other end).

Definition revoke (family : bytes) (expires_ms : Z) (known_key : string) : io (result unit Fault) :=
  now <- await Now ;;
  match ttl_until expires_ms now with
  | None => Ret (Ok tt)
  | Some ttl =>
      marker <- await (Random 16) ;;
      _ <-! store (PutIfAbsent (family_key family) marker ttl) ;;
      entry <-! store (Get (head_key family)) ;;
      let head := entry ← entry; from_utf8 (value entry) in
      _ <-! match head with
            | Some head => erase_tokens_if_sealer_available head
            | None => Ret (Ok tt)
            end ;;
      if bool_decide (head <> Some known_key) then erase_tokens_if_sealer_available known_key
      else Ret (Ok tt)
  end.

Definition reuse_detected (r : HandleRecord) (key : string) : io (result RefreshOutcome Fault) :=
  _ <-! revoke (family_id r) (family_expires_ms r) key ;;
  Ret (Ok InvalidGrant).

(** ** Claims *)

Definition claim (key : string) (loaded : Loaded) (token : string) : io (result (option Claim) Fault) :=
  let r := l_record loaded in
  now <- await Now ;;
  match ttl_until (family_expires_ms r) now with
  | None => Ret (Ok None)
  | Some ttl =>
      claim_id <- await (Random 16) ;;
      sealed <-! seal_value RECORD_PURPOSE key
        {| family_id := family_id r; family_expires_ms := family_expires_ms r;
           state := Claimed token claim_id now |} ;;
      won <-! store (CompareAndSwap key (l_bytes loaded) sealed ttl) ;;
      Ret (Ok (if won : bool then
        Some {| c_bytes := sealed; c_claim_id := claim_id; c_upstream_token := token;
                c_family_id := family_id r; c_family_expires_ms := family_expires_ms r |}
      else None))
  end.

Definition release (key : string) (c : Claim) : io unit :=
  released <- seal_value RECORD_PURPOSE key (claim_record c (Active (c_upstream_token c))) ;;
  now <- await Now ;;
  match ttl_until (c_family_expires_ms c) now with
  | None => Ret tt
  | Some ttl =>
      match released with
      | Ok sealed => _ <- store (CompareAndSwap key (c_bytes c) sealed ttl) ;; Ret tt
      | Err _ => Ret tt
      end
  end.

Fixpoint discard (keys : list string) : io unit :=
  match keys with
  | [] => Ret tt
  | key :: keys => _ <- store (Delete key) ;; discard keys
  end.

Definition ask_upstream (token : string) : io (result StoredResponse UpstreamFailure) :=
  answer <- timeout (upstream_timeout (timing self)) (await (RefreshCall token)) ;;
  Ret (match answer with Some r => r | None => Err Request end).

(** The writes before the final swap of [commit]. *)
Definition prepare (key : string) (c : Claim) (gkey skey token : string) (response : StoredResponse)
    (now : Z) (grace_ttl family_ttl : Duration) : io (result bytes Fault) :=
  sealed_response <-! seal_value GRACE_PURPOSE gkey response ;;
  stored <-! store (PutIfAbsent gkey sealed_response grace_ttl) ;;
  if negb stored then Ret (Err Conflict) else
  successor <-! seal_value RECORD_PURPOSE skey (claim_record c (Active token)) ;;
  stored <-! store (PutIfAbsent skey successor family_ttl) ;;
  if negb stored then Ret (Err Conflict) else
  seal_value RECORD_PURPOSE key (claim_record c (Rotated now (c_claim_id c) skey)).

Definition commit (key : string) (c : Claim) (successor_handle token : string)
    (response : StoredResponse) : io (result Commit Fault) :=
  now <- await Now ;;
  match ttl_until (c_family_expires_ms c) now with
  | None => Ret (Ok CommitLost)
  | Some family_ttl =>
      let gkey := grace_key key (c_claim_id c) in
      let skey := handle_key successor_handle in
      let grace_ttl := Z.min (grace self + GRACE_RESPONSE_MARGIN) family_ttl in
      prepared <- prepare key c gkey skey token response now grace_ttl family_ttl ;;
      match prepared with
      | Err fault =>
          _ <- discard [gkey; skey] ;;
          _ <- release key c ;;
          Ret (Err fault)
      | Ok rotated =>
          swapped <-! store (CompareAndSwap key (c_bytes c) rotated family_ttl) ;;
          if swapped : bool then
            _ <- store (CompareAndSwap (head_key (c_family_id c)) (into_bytes key) (into_bytes skey) family_ttl) ;;
            Ret (Ok CommitRotated)
          else
            _ <- discard [gkey; skey] ;;
            Ret (Ok CommitLost)
      end
  end.

Definition with_body (r : StoredResponse) (b : bytes) : StoredResponse :=
  {| status := status r; content_type := content_type r; body := b |}.

(** The claim holder, once the upstream answered with success. *)
Definition rotate (key : string) (c : Claim) (response : StoredResponse)
    : io (result RefreshOutcome Fault) :=
  let token := default (c_upstream_token c) (upstream_refresh_token (status response) (body response)) in
  successor_handle <- new_handle ;;
  match with_refresh_token (status response) (body response) successor_handle with
  | None => _ <- release key c ;; Ret (Ok UpstreamUnusable)
  | Some b =>
      let response := with_body response b in
      done <-! commit key c successor_handle token response ;;
      revoked <-! is_revoked (c_family_id c) ;;
      match done, revoked with
      | CommitRotated, true =>
          _ <- discard [grace_key key (c_claim_id c); handle_key successor_handle] ;;
          Ret (Ok InvalidGrant)
      | CommitRotated, false => Ret (Ok (Response response))
      | CommitLost, true => Ret (Ok InvalidGrant)
      | CommitLost, false => Ret (Ok OutcomeUnavailable)
      end
  end.

Definition perform (key : string) (c : Claim) : io (result RefreshOutcome Fault) :=
  answer <- ask_upstream (c_upstream_token c) ;;
  match answer with
  | Err failure => _ <- release key c ;; Ret (Ok (UpstreamFailed failure))
  | Ok response =>
      if is_invalid_grant response then
        _ <-! revoke (c_family_id c) (c_family_expires_ms c) key ;;
        Ret (Ok (Response response))
      else if negb (is_success response) then
        _ <- release key c ;; Ret (Ok (Response response))
      else rotate key c response
  end.

(** ** Refreshing *)

(** [if let Some(claim) = self.claim(..)? { return self.perform(..) }]; [None] goes on. *)
Definition claim_and_perform (key : string) (loaded : Loaded) (token : string)
    : io (option (result RefreshOutcome Fault)) :=
  won <- claim key loaded token ;;
  match won with
  | Err fault => Ret (Some (Err fault))
  | Ok None => Ret None
  | Ok (Some c) => r <- perform key c ;; Ret (Some r)
  end.

(** What one pass of the loop answers for the state it read; [None] polls again. *)
Definition handle_state (key : string) (loaded : Loaded) (now : Z)
    : io (option (result RefreshOutcome Fault)) :=
  match state (l_record loaded) with
  | Active token => claim_and_perform key loaded token
  | Claimed token _ claimed_ms =>
      if (cast_u64 (as_millis (claim_lease (timing self))) <? saturating_sub now claimed_ms)%Z
      then claim_and_perform key loaded token else Ret None
  | Rotated rotated_ms claim_id _ =>
      if (saturating_sub now rotated_ms <=? cast_u64 (as_millis (grace self)))%Z then
        response <- load_grace_response (grace_key key claim_id) ;;
        Ret (match response with
             | Err fault => Some (Err fault)
             | Ok (Some response) => Some (Ok (Response response))
             | Ok None => None
             end)
      else r <- reuse_detected (l_record loaded) key ;; Ret (Some r)
  end.

(** One pass of the loop up to its wait. *)
Definition poll_once (key : string) : io (option (result RefreshOutcome Fault)) :=
  loaded <- load key ;;
  match loaded with
  | Err fault => Ret (Some (Err fault))
  | Ok None => Ret (Some (Ok InvalidGrant))
  | Ok (Some loaded) =>
      now <- await Now ;;
      if (family_expires_ms (l_record loaded) <=? now)%Z then Ret (Some (Ok InvalidGrant)) else
      revoked <- is_revoked (family_id (l_record loaded)) ;;
      match revoked with
      | Err fault => Ret (Some (Err fault))
      | Ok true => Ret (Some (Ok InvalidGrant))
      | Ok false => handle_state key loaded now
      end
  end.

(** The loop of [refresh_rotating]; [None] is out of fuel. *)
Fixpoint poll (fuel : nat) (key : string) (started : Z) : io (option (result RefreshOutcome Fault)) :=
  match fuel with
  | O => Ret None
  | S fuel =>
      answer <- poll_once key ;;
      match answer with
      | Some r => Ret (Some r)
      | None =>
          now <- await InstantNow ;;
          if (resolve_wait (timing self) <=? saturating_sub now started)%Z
          then Ret (Some (Ok OutcomeUnavailable))
          else _ <- sleep (poll_interval (timing self)) ;; poll fuel key started
      end
  end.

(** A wait of at least [poll_interval] between passes bounds their number. *)
Definition poll_fuel : nat :=
  S (S (Z.to_nat (resolve_wait (timing self) / poll_interval (timing self)))).

Definition refresh_rotating (presented : string) : io (option (result RefreshOutcome Fault)) :=
  started <- await InstantNow ;;
  poll poll_fuel (handle_key presented) started.

(** ** Families *)

Definition create_family (handle token : string) : io (result unit Fault) :=
  now <- await Now ;;
  let expires_ms := saturating_add now (cast_u64 (as_millis (max_lifetime self))) in
  ttl <-? ok_or (ttl_until expires_ms now) Conflict ;;
  let key := handle_key handle in
  family <- await (Random 16) ;;
  sealed <-! seal_value RECORD_PURPOSE key
    {| family_id := family; family_expires_ms := expires_ms; state := Active token |} ;;
  stored <-! store (PutIfAbsent key sealed ttl) ;;
  if negb stored then Ret (Err Conflict) else
  stored <-! store (PutIfAbsent (head_key family) (into_bytes key) ttl) ;;
  Ret (if negb stored then Err Conflict else Ok tt).

Definition issue (token : string) : io (result string IssueError) :=
  handle <- new_handle ;;
  created <- create_family handle token ;;
  Ret (match created with
       | Ok _ => Ok handle
       | Err FaultSealerUnavailable => Err IssueSealerUnavailable
       | Err _ => Err IssueStore
       end).

Definition issue_in_response (response : StoredResponse) : io (result (option bytes) IssueError) :=
  match upstream_refresh_token (status response) (body response) with
  | None =>
      Ret (if is_success response
              && bool_decide (((v ← from_slice (body response); as_object v) : option _) = None)
              && names_refresh_token (body response)
           then Err IssueUnrecognizedBody else Ok None)
  | Some token =>
      handle <-! issue token ;;
      Ret (b <-? ok_or (with_refresh_token (status response) (body response) handle) IssueUnrecognizedBody ;;
           Ok (Some b))%relay
  end.

Definition refresh_sealed_handle (presented : string) : io (result RefreshOutcome Fault) :=
  opened <- timeout (sealer_timeout (timing self)) (open_handle (binding self) presented) ;;
  match opened with
  | None | Some (Err SealerUnavailable) => Ret (Err FaultSealerUnavailable)
  | Some (Err InvalidHandle) => Ret (Ok InvalidGrant)
  | Some (Ok opened) =>
      let issued_ms := saturating_mul (issued_at opened) 1000 in
      now <- await Now ;;
      if (saturating_add issued_ms (cast_u64 (as_millis (max_lifetime self))) <=? now)%Z
      then Ret (Ok InvalidGrant) else
      answer <- ask_upstream (upstream_token opened) ;;
      match answer with
      | Err failure => Ret (Ok (UpstreamFailed failure))
      | Ok response =>
          if is_invalid_grant response then Ret (Ok (Response response))
          else if negb (is_success response) then Ret (Ok (Response response)) else
          let token := default (upstream_token opened)
                         (upstream_refresh_token (status response) (body response)) in
          handle <- new_handle ;;
          match with_refresh_token (status response) (body response) handle with
          | None => Ret (Ok UpstreamUnusable)
          | Some b =>
              _ <-! create_family handle token ;;
              Ret (Ok (Response (with_body response b)))
          end
      end
  end.

(** [unwrap_or_else] of [refresh]. *)
Definition outcome_of (r : result RefreshOutcome Fault) : RefreshOutcome :=
  match r with
  | Ok outcome => outcome
  | Err Unopenable | Err Sealing => InvalidGrant
  | Err FaultSealerUnavailable => OutcomeSealerUnavailable
  | Err (FaultStore _) | Err Conflict => StoreFailed
  end.

(** [None] only if the loop ran out of fuel. *)
Definition refresh (presented : string) : io (option RefreshOutcome) :=
  match strip_prefix HANDLE_PREFIX presented with
  | Some _ => r <- refresh_sealed_handle presented ;; Ret (Some (outcome_of r))
  | None =>
      if valid_handle_shape presented then
        r <- refresh_rotating presented ;; Ret (outcome_of <$> r)
      else Ret (Some InvalidGrant)
  end.
End Rotator.
