(* ===== verification/RotationSafety.v ===== *)
(** * RotationSafety: rotation under any interleaving

    What the rotation protocol guarantees when any number of requests, in any number of processes,
    run against one store: every successful response to one handle is the same response, and no
    response carries an upstream token. The store may fail with or without applying a call and may
    lose records; tasks may stop between any two calls; clocks may jump; the sealer may be
    unavailable at any time.

    The argument is by rely-guarantee over the log of applied writes. [Inv] says that a rotated
    record is the last write of its key, and that a key made from random bytes is created once, by
    the task that drew them. [drawn] names those bytes, so that a handle in a response is known to be
    the encoding of a random draw. *)

From S2P Require Import Prelude Text Json Model Store Seal Prog Effects RefreshHandle Rotation.
#[local] Open Scope string_scope.
#[local] Open Scope prog_scope.

(** ** Store keys *)

Section Keys.
Context {H : Sha256} {HC : CollisionFree H} {B : Base64} {BL : Base64Laws B}.
Context (self : Rotator).

Lemma b64_inj a b : b64_encode a = b64_encode b -> a = b.
Proof. intros Heq. apply (f_equal b64_decode) in Heq. rewrite !b64_decode_encode in Heq. by simplify_eq. Qed.

Lemma string_app_inj p a b : p +:+ a = p +:+ b -> a = b.
Proof. induction p as [|c p IH]; simpl; [done|]. intros [= Heq]. by apply IH. Qed.

Lemma handle_of_inj a b : handle_of a = handle_of b -> a = b.
Proof. unfold handle_of. intros Heq%string_app_inj. by apply b64_inj. Qed.

Lemma digest_key_inj p m m' :
  digest_key self p m = digest_key self p m' -> digest_input self m = digest_input self m'.
Proof. unfold digest_key. intros Heq%string_app_inj. by apply b64_inj, sha256_inj in Heq. Qed.

Lemma digest_one_inj a a' : digest_input self [a] = digest_input self [a'] -> a = a'.
Proof.
  unfold digest_input. simpl. intros Heq%app_inv_head. injection Heq as Heq.
  rewrite !app_nil_r in Heq. by apply app_inj_tail in Heq as [Heq _].
Qed.

Lemma digest_two_inj a b a' b' :
  x00 ∉ a -> x00 ∉ a' -> digest_input self [a; b] = digest_input self [a'; b'] -> a = a' /\ b = b'.
Proof.
  unfold digest_input. simpl. intros Ha Ha' Heq%app_inv_head. injection Heq as Heq.
  rewrite !app_nil_r, <- !app_assoc in Heq. apply (sep_inj x00) in Heq as [-> Heq]; [|done..].
  by apply app_inj_tail in Heq as [-> _].
Qed.

Lemma handle_key_inj a b : handle_key self a = handle_key self b -> a = b.
Proof. unfold handle_key. intros Heq%digest_key_inj%digest_one_inj. by apply (inj into_bytes). Qed.

Lemma plain_digest p m : contains NUL p = false -> contains NUL (digest_key self p m) = false.
Proof.
  intros Hp. unfold digest_key. apply contains_false. rewrite str_all_app.
  apply andb_true_iff. split; [by apply contains_false|].
  eapply str_all_weaken; [|apply b64_alphabet]. intros c Hc. apply bool_decide_eq_true.
  intros ->. by vm_compute in Hc.
Qed.

Lemma handle_key_plain h : contains NUL (handle_key self h) = false.
Proof. by apply plain_digest. Qed.

Lemma grace_key_inj h c h' c' :
  grace_key self (handle_key self h) c = grace_key self (handle_key self h') c' -> h = h' /\ c = c'.
Proof.
  unfold grace_key. intros Heq%digest_key_inj. apply digest_two_inj in Heq as [Hk ->].
  - by apply (inj into_bytes), handle_key_inj in Hk.
  - apply (into_bytes_contains NUL), handle_key_plain.
  - apply (into_bytes_contains NUL), handle_key_plain.
Qed.

Definition is_handle_key (k : string) : Prop := exists h, k = handle_key self h.
Definition is_grace_key (k : string) : Prop := exists h c, k = grace_key self (handle_key self h) c.

(** The keys of this relay. *)
Definition ours (k : string) : Prop := exists p m, k = digest_key self p m.

Lemma handle_key_ours k : is_handle_key k -> ours k.
Proof. intros [h ->]. by eexists _, _. Qed.
Lemma grace_key_ours k : is_grace_key k -> ours k.
Proof. intros (h & c & ->). by eexists _, _. Qed.

Lemma handle_not_grace k : is_handle_key k -> is_grace_key k -> False.
Proof. intros [h ->] (h' & c & Heq). discriminate Heq. Qed.
Lemma head_neither f : ~ is_handle_key (head_key self f) /\ ~ is_grace_key (head_key self f).
Proof. split; [intros [h Heq]|intros (h & c & Heq)]; discriminate Heq. Qed.
Lemma family_neither f : ~ is_handle_key (family_key self f) /\ ~ is_grace_key (family_key self f).
Proof. split; [intros [h Heq]|intros (h & c & Heq)]; discriminate Heq. Qed.
End Keys.

(** ** The log of applied writes *)

Definition log_of (k : string) (l : list (string * bytes)) : list bytes :=
  omap (fun kv => if bool_decide (kv.1 = k) then Some kv.2 else None) l.

Definition log (k : string) (w : World) : list bytes := log_of k (w_writes w).

Lemma log_of_app k l l' : log_of k (l ++ l')%list = (log_of k l ++ log_of k l')%list.
Proof. apply omap_app. Qed.

Lemma log_of_one k k' v : log_of k [(k', v)] = if bool_decide (k' = k) then [v] else [].
Proof. unfold log_of. simpl. by case_bool_decide. Qed.

(** ** Invariant, rely and guarantee *)

Section Safety.
Context {J : JsonLib} {JL : JsonLaws J} {H : Sha256} {HC : CollisionFree H}.
Context {B : Base64} {BL : Base64Laws B}.
Context {PH : Postcard OpenedHandle} {PR : Postcard HandleRecord} {PS : Postcard StoredResponse}.
Context {PRL : PostcardLaws HandleRecord} {PSL : PostcardLaws StoredResponse}.
Context {S : Type} {SL : Sealer S} {SLL : SealerLaws S} (sealer : S) (slack : Z).
Context (self : Rotator).

(** What a stored value reads as at a key. *)
Definition opens_as {T} {P : Postcard T} (purpose k : string) (v : bytes) (x : T) : Prop :=
  exists pt, unseal sealer (from_bytes v) (record_data self purpose k) = Ok pt
    /\ from_postcard pt = Some x.

Lemma opens_as_inj {T} {P : Postcard T} purpose k v (x y : T) :
  opens_as purpose k v x -> opens_as purpose k v y -> x = y.
Proof. intros (p & Hp & Hx) (q & Hq & Hy). congruence. Qed.

Definition opens_record (k : string) (v : bytes) (r : HandleRecord) : Prop :=
  opens_as RECORD_PURPOSE k v r.
Definition opens_response (k : string) (v : bytes) (r : StoredResponse) : Prop :=
  opens_as GRACE_PURPOSE k v r.

Definition rotated (k : string) (v : bytes) : Prop :=
  exists r ms c s, opens_record k v r /\ state r = Rotated ms c s.

(** A response the relay may hand out: a success whose every refresh token is the handle made
    from [b]. *)
Definition hands_out (r : StoredResponse) (b : bytes) : Prop :=
  is_success r = true
  /\ upstream_refresh_token (status r) (body r) = Some (handle_of b)
  /\ forall ms m t, members_from_slice (body r) = Some ms -> m ∈ ms -> token_member m = Some t ->
       t = handle_of b.

(** Some task drew these bytes at random. *)
Definition drawn (b : bytes) (w : World) : Prop := exists i, (i, b) ∈ w_drawn w.

Record Inv (w : World) : Prop := {
  inv_stored k v e :
    is_handle_key self k \/ is_grace_key self k ->
    w_store w !! k = Some (v, e) -> last (log k w) = Some v;
  inv_final k l v l' :
    is_handle_key self k -> log k w = (l ++ v :: l')%list -> rotated k v -> l' = [];
  inv_grace k : is_grace_key self k -> length (log k w) <= 1;
  inv_response k v :
    is_grace_key self k -> v ∈ log k w -> exists r b, opens_response k v r /\ hands_out r b /\ drawn b w;
  inv_drawn i j b : (i, b) ∈ w_drawn w -> (j, b) ∈ w_drawn w -> i = j;
  inv_handle h : log (handle_key self h) w <> [] -> exists i b, h = handle_of b /\ (i, b) ∈ w_drawn w;
  inv_claim h c : log (grace_key self (handle_key self h) c) w <> [] -> exists i, (i, c) ∈ w_drawn w;
}.

(** The logs only grow. *)
Definition extends (w w' : World) : Prop :=
  w_writes w `prefix_of` w_writes w' /\ w_drawn w `prefix_of` w_drawn w' /\ (w_mono w <= w_mono w')%Z.

(** Nobody else creates the keys of the bytes task [i] drew. *)
Definition own_stable (i : nat) (w w' : World) : Prop :=
  forall b, (i, b) ∈ w_drawn w ->
    (log (handle_key self (handle_of b)) w = [] -> log (handle_key self (handle_of b)) w' = [])
    /\ forall h, log (grace_key self (handle_key self h) b) w = [] ->
         log (grace_key self (handle_key self h) b) w' = [].

Definition rely (i : nat) (w w' : World) : Prop :=
  extends w w' /\ (Inv w -> Inv w' /\ own_stable i w w').

Definition guar (i : nat) (w w' : World) : Prop :=
  extends w w' /\ (Inv w -> Inv w' /\ forall j, j <> i -> own_stable j w w').

#[local] Instance extends_pre : PreOrder extends.
Proof.
  split.
  - intros w. split_and!; [done..|lia].
  - intros w1 w2 w3 (H1 & H2 & H3) (H4 & H5 & H6). split_and!; [by etrans|by etrans|lia].
Qed.

Lemma extends_drawn w w' x : extends w w' -> x ∈ w_drawn w -> x ∈ w_drawn w'.
Proof. intros (_ & [l ->] & _) Hx. apply elem_of_app. by left. Qed.

Lemma extends_log w w' k : extends w w' -> exists l, log k w' = (log k w ++ l)%list.
Proof. intros ([l Hl] & _ & _). unfold log. rewrite Hl, log_of_app. eauto. Qed.

#[local] Instance rely_pre i : PreOrder (rely i).
Proof.
  split.
  - intros w. split; [done|]. intros Hi. split; [done|]. intros b _. done.
  - intros w1 w2 w3 [He1 H1] [He2 H2]. split; [by etrans|].
    intros Hi. destruct (H1 Hi) as [Hi2 Ho1]. destruct (H2 Hi2) as [Hi3 Ho2]. split; [done|].
    intros b Hb. destruct (Ho1 b Hb) as [Ha Hg]. destruct (Ho2 b) as [Ha' Hg'].
    { by eapply extends_drawn. }
    split; [by eauto|]. intros h Hh. by apply Hg', Hg.
Qed.

Lemma guar_rely i j w w' : i <> j -> guar i w w' -> rely j w w'.
Proof. intros Hne [He Hi]. split; [done|]. intros Hw. destruct (Hi Hw) as [? Ho]. auto. Qed.

Lemma same_log_inv w w' :
  w_writes w' = w_writes w -> w_drawn w' = w_drawn w ->
  (forall k, ours self k -> w_store w' !! k = w_store w !! k) -> Inv w -> Inv w'.
Proof.
  intros Hl Hd Hs [I1 I2 I3 I4 I5 I6 I7].
  assert (Hlog : forall k, log k w' = log k w) by (intros k; unfold log; by rewrite Hl).
  split.
  - intros k v e Hk. rewrite Hlog, Hs; [by apply I1|].
    destruct Hk; [by apply handle_key_ours|by apply grace_key_ours].
  - intros k l v l'. rewrite Hlog. apply I2.
  - intros k. rewrite Hlog. apply I3.
  - intros k v. rewrite Hlog. unfold drawn. rewrite Hd. apply I4.
  - intros i j b. rewrite Hd. apply I5.
  - intros h. rewrite Hlog. setoid_rewrite Hd. apply I6.
  - intros h c. rewrite Hlog. setoid_rewrite Hd. apply I7.
Qed.

Lemma same_log_own i w w' : w_writes w' = w_writes w -> own_stable i w w'.
Proof. intros Hl b _. unfold log. by rewrite Hl. Qed.

(** A step that changes neither logs nor our keys. *)
Lemma quiet_guar i w w' :
  w_writes w' = w_writes w -> w_drawn w' = w_drawn w -> (w_mono w <= w_mono w')%Z ->
  (forall k, ours self k -> w_store w' !! k = w_store w !! k) -> guar i w w'.
Proof.
  intros Hl Hd Hm Hs. split.
  - split_and!; [by rewrite Hl|by rewrite Hd|done].
  - intros Hi. split; [by apply (same_log_inv w)|]. intros j _. by apply same_log_own.
Qed.

Lemma env_rely i w w' : env_step (ours self) w w' -> rely i w w'.
Proof.
  intros (Hm & _ & Hd & Hl & _ & Hs). split.
  - split_and!; [by rewrite Hl|by rewrite Hd|done].
  - intros Hi. split; [by apply (same_log_inv w)|by apply same_log_own].
Qed.

(** ** Writes that keep the invariant *)

Inductive admits (i : nat) (w : World) (k : string) (v : bytes) : Prop :=
  | admits_other : ~ is_handle_key self k -> ~ is_grace_key self k -> admits i w k v
  | admits_handle b :
      (i, b) ∈ w_drawn w -> k = handle_key self (handle_of b) -> log k w = [] -> admits i w k v
  | admits_grace h b r b' :
      (i, b) ∈ w_drawn w -> k = grace_key self (handle_key self h) b -> log k w = [] ->
      opens_response k v r -> hands_out r b' -> drawn b' w -> admits i w k v
  | admits_swap ex :
      is_handle_key self k -> last (log k w) = Some ex -> ~ rotated k ex -> admits i w k v.

Definition put (w : World) (k : string) (v : bytes) (e : Z) : World :=
  set_store w (<[k := (v, e)]> (w_store w)) [(k, v)].

Lemma log_put w k v e k' : log k' (put w k v e) = (log k' w ++ if bool_decide (k = k') then [v] else [])%list.
Proof. unfold log, put. simpl. by rewrite log_of_app, log_of_one. Qed.

Lemma log_put_eq w k v e : log k (put w k v e) = (log k w ++ [v])%list.
Proof. rewrite log_put. by rewrite bool_decide_eq_true_2. Qed.

Lemma log_put_ne w k v e k' : k <> k' -> log k' (put w k v e) = log k' w.
Proof. intros Hne. rewrite log_put, bool_decide_eq_false_2 by done. by rewrite app_nil_r. Qed.

Lemma put_extends w k v e : extends w (put w k v e).
Proof. split_and!; [by eexists|done|simpl; lia]. Qed.

Lemma put_own i j w k v e : Inv w -> admits i w k v -> j <> i -> own_stable j w (put w k v e).
Proof.
  intros Hi Ha Hne b Hb. split; [intros Hl|intros h Hl]; rewrite log_put, Hl; simpl;
    case_bool_decide as Hk; try done; exfalso; destruct Ha as [Hh Hg|b0 Hd Hk' _|h0 b0 ?? Hd Hk' _ _ _ _|ex Hh Hlast _].
  - apply Hh. by eexists.
  - rewrite Hk in Hk'. apply handle_key_inj, handle_of_inj in Hk' as <-. by eapply Hne, inv_drawn.
  - eapply (handle_not_grace self k); [by eexists|by eexists _, _].
  - by rewrite Hk, Hl in Hlast.
  - apply Hg. by eexists _, _.
  - eapply (handle_not_grace self k); [by eexists|by eexists _, _].
  - rewrite Hk in Hk'. apply grace_key_inj in Hk' as [_ <-]. by eapply Hne, inv_drawn.
  - by rewrite Hk, Hl in Hlast.
Qed.

Lemma put_final i w k v e k0 l v0 l' :
  Inv w -> admits i w k v -> is_handle_key self k0 ->
  log k0 (put w k v e) = (l ++ v0 :: l')%list -> rotated k0 v0 -> l' = [].
Proof.
  intros Hi Ha Hk0 Hl Hr. destruct (decide (k = k0)) as [<-|Hne].
  2: { rewrite log_put_ne in Hl by done. by eapply inv_final. }
  rewrite log_put_eq in Hl. destruct l' as [|x l'] using rev_ind; [done|exfalso]. clear IHl'.
  rewrite app_comm_cons, app_assoc in Hl. apply app_inj_tail in Hl as [Hl <-].
  destruct Ha as [Hh _|b0 _ _ Hn|h0 b0 ?? _ Hk' _ _ _ _|ex _ Hlast Hnr].
  - done.
  - rewrite Hn in Hl. by destruct l.
  - eapply handle_not_grace; [done|]. subst. by eexists _, _.
  - pose proof (inv_final w Hi _ _ _ _ Hk0 Hl Hr) as ->.
    rewrite Hl, last_snoc in Hlast. by simplify_eq.
Qed.

Lemma put_inv i w k v e : Inv w -> admits i w k v -> Inv (put w k v e).
Proof.
  intros Hi Ha. split.
  - intros k0 v0 e0 Hk0. simpl. destruct (decide (k = k0)) as [<-|Hne].
    + rewrite lookup_insert_eq. intros [= <- <-]. by rewrite log_put_eq, last_snoc.
    + rewrite lookup_insert_ne, log_put_ne by done. by apply inv_stored.
  - intros k0 l v0 l' Hk0 Hl Hr. by eapply put_final.
  - intros k0 Hk0. destruct (decide (k = k0)) as [<-|Hne].
    2: { rewrite log_put_ne by done. by apply inv_grace. }
    rewrite log_put_eq. destruct Ha as [_ Hg|b0 _ -> _|h0 b0 ?? _ _ Hn _ _ _|ex Hh _ _]; [done|..].
    + destruct (handle_not_grace self (handle_key self (handle_of b0))); [by eexists|done].
    + by rewrite Hn.
    + by destruct (handle_not_grace self k).
  - intros k0 v0 Hk0. destruct (decide (k = k0)) as [<-|Hne].
    2: { rewrite log_put_ne by done. exact (inv_response w Hi k0 v0 Hk0). }
    rewrite log_put_eq. destruct Ha as [_ Hg|b0 _ -> _|h0 b0 r b' _ _ Hn Ho Hh Hdr|ex Hh _ _]; [done|..].
    + destruct (handle_not_grace self (handle_key self (handle_of b0))); [by eexists|done].
    + rewrite Hn. intros ->%list_elem_of_singleton. exists r, b'. by split_and!.
    + by destruct (handle_not_grace self k).
  - apply Hi.
  - intros h Hl. destruct (decide (k = handle_key self h)) as [->|Hne].
    2: { rewrite log_put_ne in Hl by done. exact (inv_handle w Hi h Hl). }
    destruct Ha as [Hh _|b0 Hd Hk _|h0 b0 r b' _ Hk _ _ _ _|ex _ Hlast _].
    + destruct Hh. by eexists.
    + apply handle_key_inj in Hk as ->. eauto.
    + destruct (handle_not_grace self (handle_key self h)); [by eexists|]. rewrite Hk. by eexists _, _.
    + apply (inv_handle w Hi). intros Hn. by rewrite Hn in Hlast.
  - intros h c Hl. destruct (decide (k = grace_key self (handle_key self h) c)) as [->|Hne].
    2: { rewrite log_put_ne in Hl by done. exact (inv_claim w Hi h c Hl). }
    destruct Ha as [_ Hg|b0 _ Hk _|h0 b0 r b' Hd Hk _ _ _ _|ex Hh _ _].
    + destruct Hg. by eexists _, _.
    + destruct (handle_not_grace self (handle_key self (handle_of b0))); [by eexists|].
      rewrite <-Hk. by eexists _, _.
    + apply grace_key_inj in Hk as [_ ->]. eauto.
    + destruct (handle_not_grace self _ Hh). by eexists _, _.
Qed.

Lemma put_guar i w k v e : (Inv w -> admits i w k v) -> guar i w (put w k v e).
Proof.
  intros Ha. split; [apply put_extends|]. intros Hi. split; [eapply put_inv; eauto|].
  intros j Hj. eapply put_own; eauto.
Qed.

(** Deleting a record keeps the invariant: the log remembers it. *)
Definition drop_key (w : World) (k : string) : World := set_store w (delete k (w_store w)) [].

Lemma log_drop w k k' : log k' (drop_key w k) = log k' w.
Proof. unfold log, drop_key. simpl. by rewrite app_nil_r. Qed.

Lemma drop_guar i w k : guar i w (drop_key w k).
Proof.
  split; [split_and!; [by eexists|done|simpl; lia]|]. intros Hi. split.
  - destruct Hi as [I1 I2 I3 I4 I5 I6 I7]. split; intros *; rewrite ?log_drop; eauto.
    simpl. intros Hk0 [_ Hs]%lookup_delete_Some. by eapply I1.
  - intros j _ b _. split; intros *; by rewrite log_drop.
Qed.

Lemma set_store_same w : set_store w (w_store w) [] = w.
Proof. destruct w. unfold set_store. simpl. by rewrite app_nil_r. Qed.

(** ** Store calls *)

(** What a call must ensure before it is made. *)
Definition allowed (i : nat) (w : World) (o : store_op) : Prop :=
  match o with
  | PutIfAbsent k v _ => admits i w k v
  | CompareAndSwap k ex v _ =>
      (~ is_handle_key self k /\ ~ is_grace_key self k) \/ (is_handle_key self k /\ ~ rotated k ex)
  | Get _ | Delete _ => True
  end.

(** What a call that took effect did. *)
Definition effect (w w' : World) (o : store_op) : store_ans o -> Prop :=
  match o with
  | PutIfAbsent k v _ => fun b : bool => if b then exists e, w' = put w k v e else w' = w
  | CompareAndSwap k ex v _ => fun b : bool =>
      if b then exists e e0, w' = put w k v e /\ w_store w !! k = Some (ex, e0) else w' = w
  | Get k => fun r => w' = w /\ forall entry, r = Some entry -> exists e, w_store w !! k = Some (value entry, e)
  | Delete k => fun _ => w' = drop_key w k
  end.

Lemma store_handle_effect w o r w' :
  store_handle slack w o r w' ->
  (w' = w /\ exists m, r = Err m) \/ exists a, effect w w' o a /\ (r = Ok a \/ exists m, r = Err m).
Proof.
  assert (Hok : forall a st', spec_step slack (w_backend w) (w_store w) o (Ok a) st' ->
    effect w (set_store w st' (applied_write o (Ok a))) o a).
  { intros a st' Hs%spec_step_inv. destruct o; simpl in *.
    - destruct a.
      + destruct Hs as (_ & e & _ & ->). by exists e.
      + destruct Hs as [_ ->]. apply set_store_same.
    - destruct Hs as [Ha ->]. split; [apply set_store_same|].
      intros entry ->. destruct (live _ _ _) as [[v e]|] eqn:El; simpl in Ha; [|done].
      destruct Ha as (left & [= ->] & _). apply live_Some in El as [El _]. by exists e.
    - destruct a.
      + destruct Hs as ((e0 & El) & e & _ & ->). apply live_Some in El as [El _]. by exists e, e0.
      + destruct Hs as [_ ->]. apply set_store_same.
    - by subst. }
  intros Hh. destruct Hh as [[a|m] st' Hs|m|m a st' Hs].
  - right. exists a. split; [by apply Hok|by left].
  - left. apply spec_step_inv in Hs.
    assert (st' = w_store w /\ applied_write o (Err m) = []) as [-> ->] by (destruct o; naive_solver).
    split; [apply set_store_same|eauto].
  - left. eauto.
  - right. exists a. split; [by apply Hok|right; eauto].
Qed.

Lemma quiet_refl i w : guar i w w.
Proof. by apply quiet_guar. Qed.

Lemma effect_guar i w w' o a : (Inv w -> allowed i w o) -> effect w w' o a -> guar i w w'.
Proof.
  intros Ha He. destruct o; simpl in *.
  - destruct a; [destruct He as [e ->]; by apply put_guar|subst; apply quiet_refl].
  - destruct He as [-> _]. apply quiet_refl.
  - destruct a; [|subst; apply quiet_refl]. destruct He as (e & e0 & -> & Hs).
    apply put_guar. intros Hi. destruct (Ha Hi) as [[Hh Hg]|[Hh Hr]]; [by apply admits_other|].
    eapply admits_swap; [done| |done]. eapply inv_stored; eauto.
  - subst. apply drop_guar.
Qed.

Lemma store_guar i w o r w' :
  (Inv w -> allowed i w o) -> store_handle slack w o r w' -> guar i w w'.
Proof.
  intros Ha [[-> _]|(a & He & _)]%store_handle_effect; [apply quiet_refl|by eapply effect_guar].
Qed.

Lemma store_Ok w o a w' : store_handle slack w o (Ok a) w' -> effect w w' o a.
Proof.
  intros [[_ [m ?]]|(a' & He & [Heq|[m ?]])]%store_handle_effect; [done| |done]. by simplify_eq.
Qed.

(** ** Assertions and triples *)

(** [K] holds on whatever the other tasks do. *)
Class Stable (i : nat) (K : World -> Prop) : Prop :=
  stable w w' : Inv w -> rely i w w' -> K w -> K w'.

#[local] Instance stable_pure i P : Stable i (fun _ => P).
Proof. by intros w w'. Qed.
#[local] Instance stable_and i K L : Stable i K -> Stable i L -> Stable i (fun w => K w /\ L w).
Proof. intros HK HL w w' Hi Hr [? ?]. split; [by eapply HK|by eapply HL]. Qed.
#[local] Instance stable_impl i (P : Prop) K : Stable i K -> Stable i (fun w => P -> K w).
Proof. intros HK w w' Hi Hr Hw HP. eapply HK; eauto. Qed.
#[local] Instance stable_forall i {A} (K : A -> World -> Prop) :
  (forall a, Stable i (K a)) -> Stable i (fun w => forall a, K a w).
Proof. intros HK w w' Hi Hr Hw a. eapply HK; eauto. Qed.
#[local] Instance stable_exists i {A} (K : A -> World -> Prop) :
  (forall a, Stable i (K a)) -> Stable i (fun w => exists a, K a w).
Proof. intros HK w w' Hi Hr [a Hw]. exists a. eapply HK; eauto. Qed.
#[local] Instance stable_log i k v : Stable i (fun w => v ∈ log k w).
Proof. intros w w' Hi [He _] Hv. destruct (extends_log _ _ k He) as [l ->]. apply elem_of_app. by left. Qed.
#[local] Instance stable_mono i t : Stable i (fun w => (t <= w_mono w)%Z).
Proof. intros w w' Hi [(_ & _ & Hm) _] Ht. lia. Qed.

(** Bytes this task drew and has not yet made a key from. *)
Definition fresh_handle (i : nat) (b : bytes) (w : World) : Prop :=
  (i, b) ∈ w_drawn w /\ log (handle_key self (handle_of b)) w = [].
Definition fresh_claim (i : nat) (c : bytes) (w : World) : Prop :=
  (i, c) ∈ w_drawn w /\ forall h, log (grace_key self (handle_key self h) c) w = [].

#[local] Instance stable_fresh_handle i b : Stable i (fresh_handle i b).
Proof.
  intros w w' Hi [He Hr] [Hd Hl]. destruct (Hr Hi) as [_ Ho]. split; [by eapply extends_drawn|].
  by apply (Ho b Hd).
Qed.
#[local] Instance stable_fresh_claim i c : Stable i (fresh_claim i c).
Proof.
  intros w w' Hi [He Hr] [Hd Hl]. destruct (Hr Hi) as [_ Ho]. split; [by eapply extends_drawn|].
  intros h. by apply (Ho c Hd).
Qed.

Definition triple (i : nat) (K : World -> Prop) {A} (p : io A) (Q : A -> World -> Prop) : Prop :=
  forall w, Inv w -> K w ->
    safe (handle sealer slack i) (rely i) (guar i) p (fun a w' => Inv w' /\ Q a w') w.

Lemma rely_inv i w w' : rely i w w' -> Inv w -> Inv w'.
Proof. intros [_ Hr] Hi. by apply Hr. Qed.

Lemma t_ret i K {A} (a : A) (Q : A -> World -> Prop) :
  Stable i K -> (forall w, Inv w -> K w -> Q a w) -> triple i K (Ret a) Q.
Proof.
  intros HK HQ w Hi Hk w1 Hr. pose proof (rely_inv _ _ _ Hr Hi) as Hi1.
  split; [done|]. apply HQ; [done|]. exact (HK _ _ Hi Hr Hk).
Qed.

Lemma t_bind i K {A C} (p : io A) (f : A -> io C) Q R :
  triple i K p Q -> (forall a, triple i (Q a) (f a) R) -> triple i K (bind p f) R.
Proof.
  intros Hp Hf w Hi Hk. apply safe_bind; [apply _|].
  eapply safe_mono; [|by apply Hp]. intros a w' [Hi' HQ]. by apply Hf.
Qed.

Lemma t_bind_ok i K {A C X} (p : io (result A X)) (f : A -> io (result C X)) Q R :
  triple i K p Q -> (forall a, triple i (Q (Ok a)) (f a) R) ->
  (forall e, triple i (Q (Err e)) (Ret (Err e)) R) ->
  triple i K (bind_ok p f) R.
Proof. intros Hp Hf He. eapply t_bind; [done|]. by intros [a|e]. Qed.

Lemma t_pre i K K' {A} (p : io A) Q :
  (forall w, Inv w -> K' w -> K w) -> triple i K p Q -> triple i K' p Q.
Proof. intros HK Hp w Hi Hk. apply Hp; [done|]. by apply HK. Qed.

Lemma t_post i K {A} (p : io A) (Q Q' : A -> World -> Prop) :
  triple i K p Q -> (forall a w, Inv w -> Q a w -> Q' a w) -> triple i K p Q'.
Proof.
  intros Hp HQ w Hi Hk. eapply safe_mono; [|by apply Hp].
  intros a w' [Hi' Hq]. split; [done|]. by apply HQ.
Qed.

Lemma t_op i K {A} e (k : ans e -> io A) Q R :
  Stable i K ->
  (forall w a w', Inv w -> K w -> handle sealer slack i w e a w' ->
     guar i w w' /\ (Inv w' -> Q a w')) ->
  (forall a, triple i (Q a) (k a) R) ->
  triple i K (Op e k) R.
Proof.
  intros HK He Hk w Hi Hw w1 a w2 Hr Hh. pose proof (rely_inv _ _ _ Hr Hi) as Hi1.
  destruct (He w1 a w2 Hi1 (HK _ _ Hi Hr Hw) Hh) as [Hg HQ]. split; [done|].
  assert (Hi2 : Inv w2) by by apply Hg. apply Hk; [done|]. by apply HQ.
Qed.

Lemma t_await i K e Q :
  Stable i K ->
  (forall w a w', Inv w -> K w -> handle sealer slack i w e a w' ->
     guar i w w' /\ (Inv w' -> Q a w')) ->
  (forall a, Stable i (Q a)) ->
  triple i K (await e) Q.
Proof. intros HK He HQ. eapply t_op; [done|done|]. intros a. by apply t_ret. Qed.

(** A step that only other tasks could mind: it stays within both conditions. *)
Definition quiet (i : nat) (w w' : World) : Prop := rely i w w' /\ guar i w w'.

Lemma quiet_same i w w' :
  w_writes w' = w_writes w -> w_drawn w' = w_drawn w -> (w_mono w <= w_mono w')%Z ->
  w_store w' = w_store w -> quiet i w w'.
Proof.
  intros Hl Hd Hm Hs. assert (forall k, ours self k -> w_store w' !! k = w_store w !! k) by by rewrite Hs.
  split; [|by apply quiet_guar]. split.
  - split_and!; [by rewrite Hl|by rewrite Hd|done].
  - intros Hi. split; [by apply (same_log_inv w)|by apply same_log_own].
Qed.

Lemma quiet_drop i w k : quiet i w (drop_key w k).
Proof.
  split; [|apply drop_guar]. destruct (drop_guar i w k) as [He Hg]. split; [done|].
  intros Hi. split; [by apply Hg|]. intros b _. split; intros *; by rewrite log_drop.
Qed.

Lemma quiet_put i w k v e :
  ~ is_handle_key self k -> ~ is_grace_key self k -> quiet i w (put w k v e).
Proof.
  intros Hh Hg. assert (guar i w (put w k v e)) as [He Hgu].
  { apply put_guar. intros _. by apply admits_other. }
  split; [|done]. split; [done|]. intros Hi. split; [by apply Hgu|].
  intros b _. split; intros *; rewrite log_put_ne; try done; intros ->.
  - apply Hh. by eexists.
  - apply Hg. by eexists _, _.
Qed.

Lemma t_quiet i K e (P : ans e -> Prop) :
  Stable i K ->
  (forall w a w', Inv w -> handle sealer slack i w e a w' -> quiet i w w' /\ P a) ->
  triple i K (await e) (fun a w => K w /\ P a).
Proof.
  intros HK He. apply t_await; [done| |apply _]. intros w a w' Hi Hk Hh.
  destruct (He _ _ _ Hi Hh) as [[Hr Hg] HP]. split; [done|]. intros _. split; [|done]. exact (HK _ _ Hi Hr Hk).
Qed.

Lemma t_timeout i K d e (P : ans e -> Prop) :
  Stable i K ->
  (forall w a w', Inv w -> handle sealer slack i w e a w' -> quiet i w w' /\ P a) ->
  triple i K (timeout d (await e)) (fun o w => K w /\ forall a, o = Some a -> P a).
Proof.
  intros HK He. simpl. eapply (t_op i K (Timeout d e) _
    (fun (o : option (ans e)) w => K w /\ forall a, o = Some a -> P a)); [done| |].
  - intros w o w' Hi Hk Hh. destruct o as [a|]; simpl in Hh.
    + destruct (He _ _ _ Hi Hh) as [[Hr Hg] HP]. split; [done|]. intros _.
      split; [exact (HK _ _ Hi Hr Hk)|]. by intros a' [= <-].
    + assert (quiet i w w') as [Hr Hg].
      { destruct Hh as [->|[a Hh]]; [by apply quiet_same|by apply (He w a)]. }
      split; [done|]. intros _. split; [exact (HK _ _ Hi Hr Hk)|done].
  - intros [a|]; (apply t_ret; [apply _|]); intros w Hi [Hk HP]; (split; [done|]); [|done].
    intros a' [= <-]. by apply HP.
Qed.

(** ** Sealing, opening, clocks and the store *)

Lemma t_now i K {_ : Stable i K} : triple i K (await Now) (fun _ w => K w).
Proof.
  eapply t_post; [apply (t_quiet i K Now (fun _ => True)); [done|]|by intros a w _ [? _]].
  intros w a w' _ [_ ->]. split; [by apply quiet_same|done].
Qed.

Lemma t_seal i K {_ : Stable i K} {T} {P : Postcard T} {PL : PostcardLaws T} purpose k (x : T) :
  triple i K (seal_value self purpose k x)
    (fun r w => K w /\ forall v, r = Ok v -> opens_as purpose k v x).
Proof.
  unfold seal_value. destruct (to_stdvec x) as [pt|] eqn:Ept; simpl ok_or; cbn iota.
  2: { apply t_ret; [done|]. by intros w _ Hk. }
  eapply t_bind.
  - apply (t_timeout i K _ (SealCall pt (record_data self purpose k))
      (fun a => forall env, a = Ok env -> unseal sealer env (record_data self purpose k) = Ok pt)); [done|].
    intros w a w' _ [-> Ha]. split; [by apply quiet_same|]. intros env ->.
    destruct Ha as [|(nonce & Hn & Hs)]; [done|]. by eapply (opens_same _ _ (sealer_opens sealer)).
  - intros o. apply t_ret; [apply _|]. intros w _ [Hk Ho]. split; [done|]. intros v.
    destruct o as [[env|e]|]; intros [= <-]. exists pt. split; [|by apply from_to_postcard].
    rewrite from_into_bytes. by eapply Ho.
Qed.

Lemma t_open i K {_ : Stable i K} {T} {P : Postcard T} purpose k v :
  triple i K (open_value self purpose k v)
    (fun (r : result T Fault) w => K w /\ forall x, r = Ok x -> opens_as purpose k v x).
Proof.
  unfold open_value. destruct (from_utf8 v) as [env|] eqn:Eenv; simpl ok_or; cbn iota.
  2: { apply t_ret; [done|]. by intros w _ Hk. }
  apply from_utf8_Some in Eenv as ->. eapply t_bind.
  - apply (t_timeout i K _ (UnsealCall (from_bytes v) (record_data self purpose k))
      (fun a => forall pt, a = Ok pt -> unseal sealer (from_bytes v) (record_data self purpose k) = Ok pt));
      [done|].
    intros w a w' _ [-> Ha]. split; [by apply quiet_same|]. intros pt ->. by destruct Ha.
  - intros o. apply t_ret; [apply _|]. intros w _ [Hk Ho]. split; [done|]. intros x.
    destruct o as [[pt|e]|]; simpl; try done. destruct (from_postcard pt) as [y|] eqn:Ey; simpl; [|done].
    intros [= ->]. exists pt. split; [by apply (Ho (Ok pt))|done].
Qed.

Lemma t_store i K o (Q : result (store_ans o) Fault -> World -> Prop) :
  Stable i K -> (forall r, Stable i (Q r)) ->
  (forall w, Inv w -> K w -> allowed i w o) ->
  (forall w a w', Inv w -> Inv w' -> K w -> effect w w' o a -> Q (Ok a) w') ->
  (forall w f w', Inv w -> Inv w' -> K w -> (w' = w \/ exists a, effect w w' o a) -> Q (Err f) w') ->
  triple i K (store o) Q.
Proof.
  intros HK HQ Ha Hok Herr. unfold store.
  eapply (t_bind i K _ _ (fun r => Q (map_err FaultStore r))).
  - apply t_await; [done| |intros; apply HQ]. intros w r w' Hi Hk Hh. split.
    { eapply store_guar; [|exact Hh]. intros _. by apply Ha. }
    intros Hi'. apply store_handle_effect in Hh as [[-> [m ->]]|(a & He & [->|[m ->]])]; simpl; eauto.
  - intros r. apply t_ret; [apply HQ|]. done.
Qed.

(** Reads, deletions and writes elsewhere. *)
Lemma t_get i K {_ : Stable i K} k :
  triple i K (store (Get k)) (fun r w => K w /\
    forall entry, r = Ok (Some entry) -> is_handle_key self k \/ is_grace_key self k ->
      value entry ∈ log k w).
Proof.
  apply t_store; [done|intros; apply _|done| |].
  - intros w a w' Hi Hi' Hk [-> Ha]. split; [done|]. intros entry [= ->] Hkey.
    destruct (Ha _ eq_refl) as [e He]. pose proof (inv_stored w Hi _ _ _ Hkey He) as Hl.
    by apply last_Some_elem_of.
  - intros w f w' Hi Hi' Hk Hw. assert (w' = w) as -> by (destruct Hw as [|[a [? _]]]; done). done.
Qed.

Lemma t_delete i K {_ : Stable i K} k : triple i K (store (Delete k)) (fun _ w => K w).
Proof.
  apply t_store; [done|intros; done|done| |].
  - intros w a w' Hi Hi' Hk ->. eapply stable; [exact Hi|apply quiet_drop|done].
  - intros w f w' Hi Hi' Hk [->|[a ->]]; [done|]. eapply stable; [exact Hi|apply quiet_drop|done].
Qed.

Lemma t_put_other i K {_ : Stable i K} k v ttl :
  ~ is_handle_key self k /\ ~ is_grace_key self k ->
  triple i K (store (PutIfAbsent k v ttl)) (fun _ w => K w).
Proof.
  intros [Hh Hg]. apply t_store; [done|intros; done|intros; by apply admits_other| |].
  - intros w [] w' Hi Hi' Hk; simpl; [|by intros ->]. intros [e ->].
    eapply stable; [exact Hi|by apply quiet_put|done].
  - intros w f w' Hi Hi' Hk [->|[[] Ha]]; [done| |]; simpl in Ha; [|by subst].
    destruct Ha as [e ->]. eapply stable; [exact Hi|by apply quiet_put|done].
Qed.

Lemma t_swap_other i K {_ : Stable i K} k ex v ttl :
  ~ is_handle_key self k /\ ~ is_grace_key self k ->
  triple i K (store (CompareAndSwap k ex v ttl)) (fun _ w => K w).
Proof.
  intros [Hh Hg]. apply t_store; [done|intros; done|intros; by left| |].
  - intros w [] w' Hi Hi' Hk; simpl; [|by intros ->]. intros (e & e0 & -> & _).
    eapply stable; [exact Hi|by apply quiet_put|done].
  - intros w f w' Hi Hi' Hk [->|[[] Ha]]; [done| |]; simpl in Ha; [|by subst].
    destruct Ha as (e & e0 & -> & _). eapply stable; [exact Hi|by apply quiet_put|done].
Qed.

(** A write that this task may make, with what survives it. *)
Lemma t_write i K L k o v {_ : Stable i K} {_ : Stable i L} :
  (exists ttl, o = PutIfAbsent k v ttl) \/ (exists ex ttl, o = CompareAndSwap k ex v ttl) ->
  (forall w, Inv w -> K w -> allowed i w o) ->
  (forall w, K w -> L w) -> (forall w e, Inv w -> K w -> L (put w k v e)) ->
  triple i K (store o) (fun r w => L w /\
    match o as o return result (store_ans o) Fault -> Prop with
    | PutIfAbsent _ _ _ | CompareAndSwap _ _ _ _ => fun r => r = Ok true -> v ∈ log k w
    | _ => fun _ => True
    end r).
Proof.
  intros Ho Ha HL Hput.
  assert (Hlog : forall w e, v ∈ log k (put w k v e)).
  { intros w e. rewrite log_put_eq. apply elem_of_app. right. apply list_elem_of_here. }
  destruct Ho as [[ttl ->]|(ex & ttl & ->)]; simpl; apply t_store; try done; try (intros; apply _).
  - intros w [] w' Hi Hi' Hk; simpl; [intros [e ->]|intros ->]; (split; [eauto|]); [eauto|done].
  - intros w f w' Hi Hi' Hk Hw. split; [|done].
    destruct Hw as [->|[[] He]]; [eauto| |]; simpl in He; [|subst; eauto].
    destruct He as [e ->]. eauto.
  - intros w [] w' Hi Hi' Hk; simpl; [intros (e & e0 & -> & _)|intros ->]; (split; [eauto|]); [eauto|done].
  - intros w f w' Hi Hi' Hk Hw. split; [|done].
    destruct Hw as [->|[[] He]]; [eauto| |]; simpl in He; [|subst; eauto].
    destruct He as (e & e0 & -> & _). eauto.
Qed.

Lemma t_put i K L k v ttl {_ : Stable i K} {_ : Stable i L} :
  (forall w, Inv w -> K w -> admits i w k v) ->
  (forall w, K w -> L w) -> (forall w e, Inv w -> K w -> L (put w k v e)) ->
  triple i K (store (PutIfAbsent k v ttl)) (fun r w => L w /\ (r = Ok true -> v ∈ log k w)).
Proof. intros Ha HL Hput. apply (t_write i K L k (PutIfAbsent k v ttl)); eauto. Qed.

Lemma t_swap i K L k ex v ttl {_ : Stable i K} {_ : Stable i L} :
  is_handle_key self k -> ~ rotated k ex ->
  (forall w, K w -> L w) -> (forall w e, Inv w -> K w -> L (put w k v e)) ->
  triple i K (store (CompareAndSwap k ex v ttl)) (fun r w => L w /\ (r = Ok true -> v ∈ log k w)).
Proof.
  intros Hk Hr HL Hput. apply (t_write i K L k (CompareAndSwap k ex v ttl)); eauto.
  intros w _ _. by right.
Qed.

Lemma draw_quiet i w b :
  (forall j b', (j, b') ∈ w_drawn w -> b' <> b) -> Inv w -> quiet i w (draw w i b).
Proof.
  intros Hf Hi. assert (Hd : forall x, x ∈ w_drawn (draw w i b) -> x ∈ w_drawn w \/ x = (i, b)).
  { intros x Hx. simpl in Hx. apply elem_of_app in Hx as [Hx|Hx]; [by left|right]. by apply list_elem_of_singleton in Hx. }
  assert (Hin : forall x, x ∈ w_drawn w -> x ∈ w_drawn (draw w i b)).
  { intros x Hx. simpl. apply elem_of_app. by left. }
  assert (He : extends w (draw w i b)) by (split_and!; [done|by eexists|simpl; lia]).
  assert (Hinv : Inv (draw w i b)).
  { destruct Hi as [I1 I2 I3 I4 I5 I6 I7]. split; try done.
    - intros k v Hk Hv. destruct (I4 k v Hk Hv) as (r & b' & Ho & Hh & j & Hj). exists r, b'. unfold drawn. eauto 6.
    - intros j j' b' Hj Hj'. apply Hd in Hj as [Hj|Hj], Hj' as [Hj'|Hj']; simplify_eq; try done.
      + by eapply I5.
      + by destruct (Hf _ _ Hj).
      + by destruct (Hf _ _ Hj').
    - intros h Hl. destruct (I6 h Hl) as (j & b' & -> & Hj). eauto.
    - intros h c Hl. destruct (I7 h c Hl) as (j & Hj). eauto. }
  split; (split; [done|]); intros _; (split; [done|]); [|intros j _]; by intros b' _.
Qed.

Lemma t_random i K {_ : Stable i K} n :
  triple i K (await (Random n)) (fun b w => K w /\ fresh_handle i b w /\ fresh_claim i b w).
Proof.
  apply t_await; [done| |apply _]. intros w b w' Hi Hk (_ & Hf & ->).
  destruct (draw_quiet i w b Hf Hi) as [Hr Hg]. split; [done|]. intros Hi'.
  split; [exact (stable _ _ Hi Hr Hk)|].
  assert ((i, b) ∈ w_drawn (draw w i b)) as Hd.
  { simpl. apply elem_of_app. right. apply list_elem_of_here. }
  split; (split; [done|]).
  - change (log (handle_key self (handle_of b)) w = []).
    destruct (log _ w) eqn:El; [done|].
    destruct (inv_handle w Hi (handle_of b)) as (j & b' & Heq & Hj); [by rewrite El|].
    apply handle_of_inj in Heq as <-. by destruct (Hf _ _ Hj).
  - intros h. change (log (grace_key self (handle_key self h) b) w = []).
    destruct (log _ w) eqn:El; [done|].
    destruct (inv_claim w Hi h b) as (j & Hj); [by rewrite El|]. by destruct (Hf _ _ Hj).
Qed.

(** ** The protocol *)

Lemma t_load i K {_ : Stable i K} k :
  triple i K (load self k) (fun r w => K w /\
    forall l, r = Ok (Some l) -> is_handle_key self k ->
      l_bytes l ∈ log k w /\ opens_record k (l_bytes l) (l_record l)).
Proof.
  unfold load. eapply t_bind_ok; [by apply t_get| |].
  - intros [entry|]; [|by apply t_ret; [apply _|]; intros w _ [? _]].
    eapply t_bind_ok; [by apply (t_open i _)| |].
    + intros r. apply t_ret; [apply _|]. intros w _ [[Hk Hl] Ho]. split; [done|].
      intros l [= <-] Hh. simpl. split; [by apply Hl; [|left]|by apply Ho].
    + intros e. apply t_ret; [apply _|]. by intros w _ [[Hk _] _].
  - intros e. apply t_ret; [apply _|]. by intros w _ [? _].
Qed.

Lemma t_load_grace i K {_ : Stable i K} k :
  triple i K (load_grace_response self k) (fun r w => K w /\
    forall x, r = Ok (Some x) -> is_grace_key self k ->
      exists v, v ∈ log k w /\ opens_response k v x).
Proof.
  unfold load_grace_response. eapply t_bind_ok; [by apply t_get| |].
  - intros [entry|]; [|by apply t_ret; [apply _|]; intros w _ [? _]].
    eapply t_bind_ok; [by apply (t_open i _)| |].
    + intros r. apply t_ret; [apply _|]. intros w _ [[Hk Hl] Ho]. split; [done|].
      intros x [= <-] Hg. exists (value entry). split; [by apply Hl; [|right]|by apply Ho].
    + intros e. apply t_ret; [apply _|]. by intros w _ [[Hk _] _].
  - intros e. apply t_ret; [apply _|]. by intros w _ [? _].
Qed.

(** Programs that only read, delete and write elsewhere keep every stable assertion. *)
Notation keeps i p := (forall K, Stable i K -> triple i K p (fun _ w => K w)).

Lemma keeps_ret i {A} (a : A) : keeps i (Ret a).
Proof. intros K HK. by apply t_ret. Qed.

Lemma keeps_bind i {A C} (p : io A) (f : A -> io C) :
  keeps i p -> (forall a, keeps i (f a)) -> keeps i (bind p f).
Proof. intros Hp Hf K HK. eapply t_bind; [by apply Hp|]. intros a. by apply Hf. Qed.

Lemma keeps_bind_ok i {A C X} (p : io (result A X)) (f : A -> io (result C X)) :
  keeps i p -> (forall a, keeps i (f a)) -> keeps i (bind_ok p f).
Proof.
  intros Hp Hf K HK. eapply t_bind_ok; [by apply Hp| |].
  - intros a. by apply Hf.
  - intros e. by apply keeps_ret.
Qed.

Lemma keeps_store i o :
  match o with
  | Get _ | Delete _ => True
  | PutIfAbsent k _ _ | CompareAndSwap k _ _ _ => ~ is_handle_key self k /\ ~ is_grace_key self k
  end -> keeps i (store o).
Proof.
  intros Ho K HK. destruct o as [k v ttl|k|k ex v ttl|k].
  - by apply t_put_other.
  - eapply t_post; [by apply t_get|]. by intros r w _ [? _].
  - by apply t_swap_other.
  - by apply t_delete.
Qed.

Lemma keeps_load i k : keeps i (load self k).
Proof. intros K HK. eapply t_post; [by apply t_load|]. by intros r w _ [? _]. Qed.

Lemma keeps_random i n : keeps i (await (Random n)).
Proof. intros K HK. eapply t_post; [by apply t_random|]. by intros r w _ [? _]. Qed.

Lemma keeps_is_revoked i f : keeps i (is_revoked self f).
Proof.
  apply keeps_bind_ok; [by apply keeps_store|]. intros a. apply keeps_ret.
Qed.

Lemma keeps_erase_from i hops k : keeps i (erase_from self hops k).
Proof.
  revert k. induction hops as [|hops IH]; intros k; [by apply keeps_ret|].
  apply keeps_bind; [apply keeps_load|]. intros [[l|]|f].
  - destruct (state (l_record l)); [by apply keeps_store..|apply IH].
  - apply keeps_ret.
  - destruct f; try apply keeps_ret. by apply keeps_store.
Qed.

Lemma keeps_erase i k : keeps i (erase_tokens_if_sealer_available self k).
Proof. apply keeps_bind; [apply keeps_erase_from|]. intros a. apply keeps_ret. Qed.

Lemma keeps_now i : keeps i (await Now).
Proof. intros K HK. by apply t_now. Qed.

Lemma keeps_revoke i f ms k : keeps i (revoke self f ms k).
Proof.
  apply keeps_bind; [apply keeps_now|]. intros now. destruct (ttl_until ms now) as [ttl|]; [|apply keeps_ret].
  apply keeps_bind; [apply keeps_random|]. intros marker.
  apply keeps_bind_ok; [apply keeps_store, family_neither|]. intros _.
  apply keeps_bind_ok; [by apply keeps_store|]. intros entry.
  apply keeps_bind_ok; [destruct (_ ≫= _); [apply keeps_erase|apply keeps_ret]|]. intros _.
  case_bool_decide; [apply keeps_erase|apply keeps_ret].
Qed.

Lemma keeps_reuse i r k : keeps i (reuse_detected self r k).
Proof. apply keeps_bind_ok; [apply keeps_revoke|]. intros _. apply keeps_ret. Qed.

Lemma keeps_discard i ks : keeps i (discard ks).
Proof.
  induction ks as [|k ks IH]; [apply keeps_ret|].
  apply keeps_bind; [by apply keeps_store|]. intros _. apply IH.
Qed.

Lemma t_ask i K {_ : Stable i K} token : triple i K (ask_upstream self token) (fun _ w => K w).
Proof.
  unfold ask_upstream. eapply t_bind.
  - apply (t_timeout i K _ (RefreshCall token) (fun _ => True)); [done|].
    intros w a w' _ ->. split; [by apply quiet_same|done].
  - intros a. apply t_ret; [apply _|]. by intros w _ [? _].
Qed.

(** ** Claiming, committing and rotating *)

(** A claim the task holds: its bytes read as a claimed record, and its claim id is its own. *)
Definition claim_bytes (key : string) (c : Claim) : Prop :=
  exists ms, opens_record key (c_bytes c) (claim_record c (Claimed (c_upstream_token c) (c_claim_id c) ms)).

Lemma claim_not_rotated key c : claim_bytes key c -> ~ rotated key (c_bytes c).
Proof. intros [ms Ho] (r & ms' & x & s & Hr & Hs). by rewrite (opens_as_inj _ _ _ _ _ Hr Ho) in Hs. Qed.

Lemma put_fresh_claim i w key v e c :
  is_handle_key self key -> fresh_claim i c w -> fresh_claim i c (put w key v e).
Proof.
  intros Hk [Hd Hl]. split; [done|]. intros h. rewrite log_put_ne; [done|].
  intros ->. eapply handle_not_grace; [done|by eexists _, _].
Qed.

Lemma t_claim i key loaded token :
  is_handle_key self key -> opens_record key (l_bytes loaded) (l_record loaded) ->
  (forall ms c s, state (l_record loaded) <> Rotated ms c s) ->
  triple i (fun _ => True) (claim self key loaded token)
    (fun r w => forall c, r = Ok (Some c) -> claim_bytes key c /\ fresh_claim i (c_claim_id c) w).
Proof.
  intros Hkey Hopen Hstate. unfold claim.
  assert (Hnr : ~ rotated key (l_bytes loaded)).
  { intros (r & ms & c & s & Hr & Hs). rewrite (opens_as_inj _ _ _ _ _ Hr Hopen) in Hs. by eapply Hstate. }
  eapply t_bind; [apply (t_now i (fun _ => True))|]. intros now.
  destruct (ttl_until _ now) as [ttl|]; [|by apply t_ret; [apply _|]].
  eapply t_bind; [apply (t_random i (fun _ => True))|]. intros cid.
  eapply (t_bind_ok i _ _ _ (fun r w => fresh_claim i cid w /\
    forall v, r = Ok v -> opens_record key v
      {| family_id := family_id (l_record loaded); family_expires_ms := family_expires_ms (l_record loaded);
         state := Claimed token cid now |})).
  - eapply t_pre; [|apply (t_seal i (fresh_claim i cid))]. by intros w _ (_ & _ & ?).
  - intros sealed.
    eapply (t_bind_ok i _ _ _ (fun r w => fresh_claim i cid w /\ opens_record key sealed _)).
    + eapply t_post; [apply (t_swap i _ (fun w => fresh_claim i cid w /\ opens_record key sealed
        {| family_id := family_id (l_record loaded); family_expires_ms := family_expires_ms (l_record loaded);
           state := Claimed token cid now |}) key); [apply _|apply _|done|done|..]|].
      * intros w [Hf Ho]. split; [done|by apply Ho].
      * intros w e _ [Hf Ho]. split; [by apply put_fresh_claim|by apply Ho].
      * intros r w _ [[Hf Ho] _]. done.
    + intros won. apply t_ret; [apply _|]. intros w _ [Hf Ho] c [= Hc].
      destruct won; [|done]. injection Hc as <-. split; [by exists now|done].
    + intros e. by apply t_ret; [apply _|].
  - intros e. by apply t_ret; [apply _|].
Qed.

Lemma t_release i key c :
  is_handle_key self key -> claim_bytes key c ->
  triple i (fun _ => True) (release self key c) (fun _ _ => True).
Proof.
  intros Hkey Hc. eapply t_bind; [apply (t_seal i (fun _ => True))|]. intros sealed.
  eapply t_bind; [apply (t_now i _)|]. intros now.
  destruct (ttl_until _ now) as [ttl|]; [|by apply t_ret; [apply _|]].
  destruct sealed as [v|f]; [|by apply t_ret; [apply _|]].
  eapply t_bind.
  - apply (t_swap i _ (fun _ => True) key); [apply _|apply _|done|by apply claim_not_rotated|done..].
  - intros r. by apply t_ret; [apply _|].
Qed.

Lemma log_put_in w k v e k' x : x ∈ log k' w -> x ∈ log k' (put w k v e).
Proof. intros Hx. rewrite log_put. apply elem_of_app. by left. Qed.

(** The response [resp] is recorded for the claim [cid] of a handle. *)
Definition granted (h : string) (cid : bytes) (resp : StoredResponse) (w : World) : Prop :=
  exists gv, gv ∈ log (grace_key self (handle_key self h) cid) w
    /\ opens_response (grace_key self (handle_key self h) cid) gv resp.

(** The handle has been rotated by the claim [cid]. *)
Definition rotated_by (h : string) (cid : bytes) (w : World) : Prop :=
  exists v r ms s, v ∈ log (handle_key self h) w /\ opens_record (handle_key self h) v r
    /\ state r = Rotated ms cid s.

#[local] Instance stable_granted i h cid resp : Stable i (granted h cid resp).
Proof. unfold granted. apply _. Qed.
#[local] Instance stable_rotated_by i h cid : Stable i (rotated_by h cid).
Proof. unfold rotated_by. apply _. Qed.

Lemma put_granted h cid resp w k v e : granted h cid resp w -> granted h cid resp (put w k v e).
Proof. intros (gv & Hin & Ho). exists gv. split; [by apply log_put_in|done]. Qed.

Lemma put_fresh_handle i w h c v e b :
  fresh_handle i b w -> fresh_handle i b (put w (grace_key self (handle_key self h) c) v e).
Proof.
  intros [Hd Hl]. split; [done|]. rewrite log_put_ne; [done|].
  intros Heq. apply (handle_not_grace self (grace_key self (handle_key self h) c)); [|by eexists _, _].
  rewrite Heq. by eexists.
Qed.

Section Commit.
Context (i : nat) (h : string) (c : Claim) (b : bytes) (token : string) (resp : StoredResponse).
Context (Hclaim : claim_bytes (handle_key self h) c) (Hout : hands_out resp b).

Notation key := (handle_key self h).
Notation cid := (c_claim_id c).

Lemma t_prepare now grace_ttl family_ttl :
  triple i (fun w => fresh_claim i cid w /\ fresh_handle i b w)
    (prepare self key c (grace_key self key cid) (handle_key self (handle_of b)) token resp now
       grace_ttl family_ttl)
    (fun r w => forall v, r = Ok v ->
       granted h cid resp w
       /\ opens_record key v (claim_record c (Rotated now cid (handle_key self (handle_of b))))).
Proof.
  unfold prepare. eapply t_bind_ok; [apply (t_seal i _)| |by intros; apply t_ret; [apply _|]].
  intros sealed.
  eapply (t_bind_ok i _ _ _ (fun r w => fresh_handle i b w /\ (r = Ok true -> granted h cid resp w)));
    [| |by intros; apply t_ret; [apply _|]].
  - eapply t_post.
    + apply (t_put i _ (fun w => fresh_handle i b w /\ opens_response (grace_key self key cid) sealed resp)
        (grace_key self key cid)); [apply _|apply _|..].
      * intros w _ [[[Hd Hl] Hb] Ho]. eapply admits_grace; [done|done|apply Hl|by apply Ho|done|].
        destruct Hb as [Hb _]. by eexists.
      * intros w [[_ Hf] Ho]. split; [done|by apply Ho].
      * intros w e _ [[_ Hf] Ho]. split; [by apply put_fresh_handle|by apply Ho].
    + intros r w _ [[Hf Ho] Hr]. split; [done|]. intros Heq. exists sealed. split; [by apply Hr|done].
  - intros stored. destruct stored; cbn [negb]; [|by apply t_ret; [apply _|]].
    eapply t_bind_ok; [apply (t_seal i _)| |by intros; apply t_ret; [apply _|]]. intros successor.
    eapply (t_bind_ok i _ _ _ (fun _ w => granted h cid resp w));
      [| |by intros; apply t_ret; [apply _|]].
    + eapply t_post.
      * apply (t_put i _ (granted h cid resp) (handle_key self (handle_of b))); [apply _|apply _|..].
        -- intros w _ [[[Hd Hl] _] _]. by eapply admits_handle.
        -- intros w [[_ Hg] _]. by apply Hg.
        -- intros w e _ [[_ Hg] _]. by apply put_granted, Hg.
      * by intros r w _ [Hg _].
    + intros stored. destruct stored; cbn [negb]; [|by apply t_ret; [apply _|]].
      eapply t_post; [apply (t_seal i _)|]. intros r w _ [Hg Ho] v ->. split; [done|by apply Ho].
Qed.

Lemma t_commit :
  triple i (fun w => fresh_claim i cid w /\ fresh_handle i b w)
    (commit self key c (handle_of b) token resp)
    (fun r w => r = Ok CommitRotated -> rotated_by h cid w /\ granted h cid resp w).
Proof.
  unfold commit. eapply t_bind; [apply (t_now i _)|]. intros now.
  destruct (ttl_until _ now) as [ttl|]; [|by apply t_ret; [apply _|]].
  eapply t_bind; [apply t_prepare|]. intros [v|f].
  2: { eapply t_bind; [apply (keeps_discard i _ _ _)|]. intros ?.
       eapply t_bind; [eapply t_pre; [|apply t_release; [by eexists|done]]; done|]. intros ?.
       by apply t_ret; [apply _|]. }
  eapply (t_bind_ok i _ _ _ (fun r w => r = Ok true -> rotated_by h cid w /\ granted h cid resp w));
    [| |by intros; apply t_ret; [apply _|]].
  - eapply t_post.
    + apply (t_swap i _ (fun w => granted h cid resp w /\ opens_record key v
        (claim_record c (Rotated now cid (handle_key self (handle_of b))))) key);
        [apply _|apply _|by eexists|by apply claim_not_rotated|..].
      * intros w Hw. by apply Hw.
      * intros w e _ Hw. destruct (Hw v eq_refl). split; [by apply put_granted|done].
    + intros r w _ [[Hg Ho] Hr] Heq. split; [|done]. eexists v, _, now, _. split; [by apply Hr|]. split; [exact Ho|done].
  - intros swapped. destruct swapped.
    + eapply t_bind; [apply keeps_store; [apply head_neither|apply _]|]. intros ?.
      apply t_ret; [apply _|]. intros w _ Hw _. by apply Hw.
    + eapply t_bind; [apply (keeps_discard i _ _ _)|]. intros ?. by apply t_ret; [apply _|].
Qed.
End Commit.

Lemma hands_out_body response b payload :
  is_success response = true ->
  with_refresh_token (status response) (body response) (handle_of b) = Some payload ->
  hands_out (with_body response payload) b.
Proof.
  intros Hs Hw. split; [done|]. split; [by eapply with_refresh_token_token|].
  intros ms m t Hms Hin Ht. by eapply with_refresh_token_only.
Qed.

(** A success was answered to the handle: it was rotated by a claim, and the response is the one
    recorded for that claim. *)
Definition answered (h : string) (resp : StoredResponse) (w : World) : Prop :=
  exists cid b, rotated_by h cid w /\ granted h cid resp w /\ hands_out resp b.

#[local] Instance stable_answered i h resp : Stable i (answered h resp).
Proof. unfold answered. apply _. Qed.

(** What a refresh of [h] may return. *)
Definition outcome_ok (h : string) (o : RefreshOutcome) (w : World) : Prop :=
  forall resp, o = Response resp -> is_success resp = true -> answered h resp w.
Definition result_ok (h : string) (r : result RefreshOutcome Fault) (w : World) : Prop :=
  forall o, r = Ok o -> outcome_ok h o w.

#[local] Instance stable_outcome_ok i h o : Stable i (outcome_ok h o).
Proof. unfold outcome_ok. apply _. Qed.
#[local] Instance stable_result_ok i h r : Stable i (result_ok h r).
Proof. unfold result_ok. apply _. Qed.

Lemma silent_ok h o w : (forall resp, o <> Response resp) -> result_ok h (Ok o) w.
Proof. intros Hn o' [= <-] resp ->. by destruct (Hn resp). Qed.

Lemma error_ok h f w : result_ok h (Err f) w.
Proof. by intros o. Qed.

#[local] Hint Resolve silent_ok error_ok : core.

Lemma failure_ok h resp w : is_success resp = false -> result_ok h (Ok (Response resp)) w.
Proof. intros Hf o [= <-] resp' [= <-]. congruence. Qed.

Lemma invalid_grant_fails resp : is_invalid_grant resp = true -> is_success resp = false.
Proof.
  unfold is_invalid_grant, is_success, success_status. intros Hr.
  apply andb_true_iff in Hr as [Hr _]. reflect. apply andb_false_iff. right. apply Z.ltb_ge. lia.
Qed.

Section Perform.
Context (i : nat) (h : string).
Notation key := (handle_key self h).

Lemma key_is_handle : is_handle_key self key.
Proof. by eexists. Qed.

Lemma t_release_then K c (o : RefreshOutcome) :
  claim_bytes key c -> (forall w, result_ok h (Ok o) w) ->
  triple i K (_ <- release self key c ;; Ret (Ok o)) (result_ok h).
Proof.
  intros Hc Ho. eapply t_bind; [eapply t_pre; [|apply (t_release i key c key_is_handle Hc)]; done|].
  intros ?. by apply t_ret; [apply _|].
Qed.

Lemma t_rotate c response :
  claim_bytes key c -> is_success response = true ->
  triple i (fresh_claim i (c_claim_id c)) (rotate self key c response) (result_ok h).
Proof.
  intros Hc Hs. unfold rotate. eapply t_bind.
  { eapply t_bind; [apply (t_random i (fresh_claim i (c_claim_id c)))|]. intros b.
    apply (t_ret i _ _ (fun handle w => exists b, handle = handle_of b
      /\ fresh_claim i (c_claim_id c) w /\ fresh_handle i b w)); [apply _|].
    intros w _ (Hf & Hh & _). eauto. }
  intros handle. destruct (with_refresh_token _ _ handle) as [payload|] eqn:Ew.
  2: { by apply t_release_then; auto. }
  intros w0 Hw0 (b & -> & Hfresh). revert w0 Hw0 Hfresh.
  change (triple i (fun w => fresh_claim i (c_claim_id c) w /\ fresh_handle i b w)
    (done <-! commit self key c (handle_of b)
       (default (c_upstream_token c) (upstream_refresh_token (status response) (body response)))
       (with_body response payload) ;;
     revoked <-! is_revoked self (c_family_id c) ;;
     match done, revoked with
     | CommitRotated, true =>
         _ <- discard [grace_key self key (c_claim_id c); handle_key self (handle_of b)] ;;
         Ret (Ok InvalidGrant)
     | CommitRotated, false => Ret (Ok (Response (with_body response payload)))
     | CommitLost, true => Ret (Ok InvalidGrant)
     | CommitLost, false => Ret (Ok OutcomeUnavailable)
     end) (result_ok h)).
  pose proof (hands_out_body _ _ _ Hs Ew) as Hout.
  eapply t_bind_ok; [by apply t_commit| |by intros; apply t_ret; [apply _|]]. intros done.
  eapply t_bind_ok; [apply keeps_is_revoked, _| |by intros; apply t_ret; [apply _|]]. intros revoked.
  destruct done, revoked.
  - eapply t_bind; [apply keeps_discard, _|]. intros ?. by apply t_ret; [apply _|]; auto.
  - apply t_ret; [apply _|]. intros w _ Hw o [= <-] resp [= <-] _.
    destruct (Hw eq_refl) as [Hr Hg]. by exists (c_claim_id c), b.
  - by apply t_ret; [apply _|]; auto.
  - by apply t_ret; [apply _|]; auto.
Qed.

Lemma t_perform c :
  claim_bytes key c -> triple i (fresh_claim i (c_claim_id c)) (perform self key c) (result_ok h).
Proof.
  intros Hc. unfold perform. eapply t_bind; [apply (t_ask i _)|]. intros [response|failure].
  2: { by apply t_release_then; auto. }
  destruct (is_invalid_grant response) eqn:Eg.
  - apply invalid_grant_fails in Eg.
    eapply t_bind_ok; [apply (keeps_revoke i _ _ _ _ _)| |by intros; apply t_ret; [apply _|]].
    intros ?. apply t_ret; [apply _|]. intros w _ _. by apply failure_ok.
  - destruct (is_success response) eqn:Es; cbn [negb].
    + by apply t_rotate.
    + apply t_release_then; [done|]. intros w. by apply failure_ok.
Qed.

Lemma t_reuse K {_ : Stable i K} r :
  triple i K (reuse_detected self r key) (fun r w => forall o, r = Ok o -> forall resp, o <> Response resp).
Proof.
  eapply t_bind_ok; [apply (keeps_revoke i _ _ _ _ _)| |].
  - intros ?. apply t_ret; [apply _|]. by intros w _ _ o [= <-].
  - intros f. apply t_ret; [apply _|]. by intros w _ _ o.
Qed.

(** What one pass of the loop may return. *)
Definition pass_ok (r : option (result RefreshOutcome Fault)) (w : World) : Prop :=
  forall r', r = Some r' -> result_ok h r' w.

#[local] Instance stable_pass_ok r : Stable i (pass_ok r).
Proof. unfold pass_ok. apply _. Qed.

Lemma t_claim_and_perform loaded token :
  opens_record key (l_bytes loaded) (l_record loaded) ->
  (forall ms c s, state (l_record loaded) <> Rotated ms c s) ->
  triple i (fun _ => True) (claim_and_perform self key loaded token) pass_ok.
Proof.
  intros Ho Hs. unfold claim_and_perform.
  eapply t_bind; [by apply t_claim; [apply key_is_handle|..]|]. intros [[c|]|f].
  - intros w Hi Hw. destruct (Hw c eq_refl) as [Hc Hf]. revert w Hi Hf Hw.
    assert (triple i (fresh_claim i (c_claim_id c)) (r <- perform self key c ;; Ret (Some r)) pass_ok)
      as Ht; [|intros w Hi Hf _; by apply Ht].
    eapply t_bind; [by apply t_perform|]. intros r. apply t_ret; [apply _|].
    by intros w _ Hr r' [= <-].
  - apply t_ret; [apply _|]. by intros w _ _ r'.
  - apply t_ret; [apply _|]. intros w _ _ r' [= <-]. auto.
Qed.

Lemma t_handle_state loaded now :
  opens_record key (l_bytes loaded) (l_record loaded) ->
  triple i (fun w => l_bytes loaded ∈ log key w) (handle_state self key loaded now) pass_ok.
Proof.
  intros Ho. unfold handle_state. destruct (state (l_record loaded)) as [token|token cid ms|ms cid s] eqn:Es.
  - eapply t_pre; [|apply t_claim_and_perform; [done|by rewrite Es]]. done.
  - destruct (_ <? _)%Z; [|by apply t_ret; [apply _|]; intros w _ _ r'].
    eapply t_pre; [|apply t_claim_and_perform; [done|by rewrite Es]]. done.
  - destruct (_ <=? _)%Z.
    + eapply t_bind; [apply (t_load_grace i _)|]. intros r.
      apply t_ret; [apply _|]. intros w Hi [Hl Hg] r' Hr'.
      destruct r as [[resp|]|f]; simplify_eq; [|by auto].
      intros o [= <-] resp' [= <-] _.
      assert (is_grace_key self (grace_key self key cid)) as Hgk by by eexists _, _.
      destruct (Hg _ eq_refl Hgk) as (v & Hv & Hopen).
      destruct (inv_response w Hi _ _ Hgk Hv) as (r & b & Hr & Hout & _).
      assert (r = resp) as -> by by eapply opens_as_inj.
      exists cid, b. split; [|split; [by exists v|done]]. eexists _, _, ms, s. by split_and!.
    + eapply t_bind; [apply (t_reuse (fun w => l_bytes loaded ∈ log key w))|]. intros r. apply t_ret; [apply _|].
      intros w _ Hr r' [= <-] o Heq resp ->. by destruct (Hr _ Heq resp).
Qed.

Lemma t_poll_once : triple i (fun _ => True) (poll_once self key) pass_ok.
Proof.
  unfold poll_once. eapply t_bind; [apply (t_load i _)|]. intros [[loaded|]|f].
  2, 3: apply t_ret; [apply _|]; intros w _ _ r' [= <-]; auto.
  eapply (t_pre i (fun w => l_bytes loaded ∈ log key w /\ opens_record key (l_bytes loaded) (l_record loaded))).
  { intros w _ [_ Hl]. apply (Hl loaded eq_refl key_is_handle). }
  eapply t_bind; [apply (t_now i _)|]. intros now.
  destruct (_ <=? now)%Z; [apply t_ret; [apply _|]; intros w _ _ r' [= <-]; auto|].
  eapply t_bind; [apply (keeps_is_revoked i _ _ _)|]. intros [[]|f].
  1, 3: apply t_ret; [apply _|]; intros w _ _ r' [= <-]; auto.
  intros w Hi [Hl Ho]. by apply t_handle_state.
Qed.
End Perform.

(** *** The polling loop ends *)

Lemma t_frame i K (F : World -> Prop) {A} (p : io A) Q :
  (forall w w', extends w w' -> F w -> F w') -> triple i K p Q ->
  triple i (fun w => K w /\ F w) p (fun a w => Q a w /\ F w).
Proof.
  intros HF Hp w Hi [Hk Ht]. specialize (Hp w Hi Hk). clear Hk Hi. revert w Ht Hp.
  induction p as [a|e k IH]; simpl; intros w Ht Hp.
  - intros w1 Hr. destruct (Hp w1 Hr) as [? ?]. split_and!; [done..|]. eapply HF, Ht. apply Hr.
  - intros w1 a w2 Hr Hh. destruct (Hp w1 a w2 Hr Hh) as [Hg Hs]. split; [done|].
    apply IH; [|done]. eapply HF; [apply Hg|]. eapply HF, Ht. apply Hr.
Qed.

Lemma t_frame_mono i K {A} (p : io A) Q t :
  triple i K p Q ->
  triple i (fun w => K w /\ (t <= w_mono w)%Z) p (fun a w => Q a w /\ (t <= w_mono w)%Z).
Proof. apply t_frame. intros w w' (_ & _ & Hm) Ht. lia. Qed.

Lemma drawn_extends b w w' : extends w w' -> drawn b w -> drawn b w'.
Proof. intros He [i Hi]. exists i. by eapply extends_drawn. Qed.

#[local] Instance stable_drawn i b : Stable i (drawn b).
Proof. intros w w' _ [He _]. by apply drawn_extends. Qed.

(** A new handle's bytes stay drawn. *)
Lemma t_fresh_drawn i b {A} (p : io A) Q :
  triple i (fresh_handle i b) p Q -> triple i (fresh_handle i b) p (fun a w => Q a w /\ drawn b w).
Proof.
  intros Hp. eapply t_pre; [|apply (t_frame i _ (drawn b) _ _ (fun w w' => drawn_extends b w w') Hp)].
  intros w _ Hf. split; [done|]. exists i. apply Hf.
Qed.

Lemma t_instant i t :
  triple i (fun w => (t <= w_mono w)%Z) (await InstantNow) (fun a w => (t <= a)%Z /\ (a <= w_mono w)%Z).
Proof.
  apply t_await; [apply _| |apply _]. intros w a w' _ Ht [-> ->].
  split; [apply quiet_refl|]. intros _. lia.
Qed.

Lemma t_sleep i t d :
  triple i (fun w => (t <= w_mono w)%Z) (sleep d) (fun _ w => (t + d <= w_mono w)%Z).
Proof.
  eapply t_bind; [apply t_instant|]. intros a. apply t_await; [apply _| |intros; apply _].
  intros w [] w' _ [Ha _] (u & [Hu Hd] & ->). split; [apply quiet_same; simpl; done|].
  intros _. simpl. lia.
Qed.

Section Loop.
Context (i : nat) (h : string) (Hint : (0 < poll_interval (timing self))%Z).
Notation key := (handle_key self h).

Definition poll_ok (r : option (result RefreshOutcome Fault)) (w : World) : Prop :=
  r <> None /\ pass_ok h r w.

#[local] Instance stable_poll_ok r : Stable i (poll_ok r).
Proof. unfold poll_ok. apply _. Qed.

Lemma t_poll fuel n started :
  poll_fuel self <= Datatypes.S fuel + n ->
  triple i (fun w => (started + Z.of_nat n * poll_interval (timing self) <= w_mono w)%Z)
    (poll self (Datatypes.S fuel) key started) poll_ok.
Proof.
  revert n. induction fuel as [|fuel IH]; intros n Hfuel.
  all: eapply t_bind; [eapply t_pre; [|apply (t_frame_mono i (fun _ => True) _ _
    (started + Z.of_nat n * poll_interval (timing self)) (t_poll_once i h))]; by split|].
  all: intros [r|]; [by apply t_ret; [apply _|]; intros w _ [Hr _]; split|].
  all: eapply t_bind; [eapply t_pre; [|apply t_instant]; by intros w _ [_ ?]|]; intros now.
  all: destruct (_ <=? _)%Z eqn:E;
    [by apply t_ret; [apply _|]; intros w _ _; split; [done|]; intros r' [= <-]; auto|].
  all: apply Z.leb_gt in E; unfold saturating_sub in E; unfold poll_fuel in Hfuel.
  all: pose proof (Z.div_mod (resolve_wait (timing self)) (poll_interval (timing self)) ltac:(lia)) as Hd.
  all: pose proof (Z.mod_pos_bound (resolve_wait (timing self)) (poll_interval (timing self)) ltac:(lia)) as Hm.
  - intros w Hi [Ha _]. exfalso. nia.
  - eapply t_bind; [eapply t_pre; [|apply (t_sleep i (started + Z.of_nat n * poll_interval (timing self)))];
      intros w _ [? ?]; lia|]. intros ?.
    eapply t_pre; [|apply (IH (Datatypes.S n))]; [|unfold poll_fuel; lia].
    intros w _ Hw. rewrite Nat2Z.inj_succ, Z.mul_succ_l. lia.
Qed.

Lemma t_refresh_rotating : triple i (fun _ => True) (refresh_rotating self h) poll_ok.
Proof.
  apply (t_bind i _ _ _ (fun a w => (a <= w_mono w)%Z)).
  - apply t_await; [apply _| |intros; apply _]. intros w a w' _ _ [-> ->].
    split; [apply quiet_refl|]. intros _. lia.
  - intros started. eapply t_pre; [|apply (t_poll _ 0 started)]; [|unfold poll_fuel; lia].
    intros w _ Hw. simpl. lia.
Qed.
End Loop.

(** ** New families

    A code is redeemed under the fingerprint sealed into it, which need not be the relay's present
    one: [other] is the rotator of such a redemption. Its keys are this relay's. *)

Section Families.
Context (other : Rotator) (Hsame : relay other = relay self).

Lemma same_handle_key h : handle_key other h = handle_key self h.
Proof. unfold handle_key, digest_key, digest_input. by rewrite Hsame. Qed.

Lemma head_of_other f : ~ is_handle_key self (head_key other f) /\ ~ is_grace_key self (head_key other f).
Proof.
  replace (head_key other f) with (head_key self f); [apply head_neither|].
  unfold head_key, digest_key, digest_input. by rewrite Hsame.
Qed.

Lemma keeps_seal i {T} {P : Postcard T} purpose k (x : T) : keeps i (seal_value other purpose k x).
Proof.
  unfold seal_value. destruct (ok_or _ _) as [pt|]; [|by apply keeps_ret].
  apply keeps_bind; [|intros; by apply keeps_ret]. intros K HK.
  eapply t_post; [apply (t_timeout i K _ (SealCall _ _) (fun _ => True)); [done|]|by intros a w _ [? _]].
  intros w a w' _ [-> _]. split; [by apply quiet_same|done].
Qed.

Lemma t_create_family i b token :
  triple i (fresh_handle i b) (create_family other (handle_of b) token) (fun _ _ => True).
Proof.
  unfold create_family. eapply t_bind; [apply (t_now i _)|]. intros now.
  destruct (ttl_until _ now) as [ttl|]; cbn [ok_or]; [|by apply t_ret; [apply _|]].
  eapply t_bind; [apply (keeps_random i _ _ _)|]. intros family.
  eapply t_bind_ok; [apply (keeps_seal i _ _ _ _ _)| |by intros; apply t_ret; [apply _|]]. intros sealed.
  eapply t_bind_ok; [apply (t_put i _ (fun _ => True)); [apply _|apply _|..]| |by intros; apply t_ret; [apply _|]].
  - intros w _ [Hd Hl]. rewrite same_handle_key. by eapply admits_handle.
  - done.
  - done.
  - intros stored. destruct stored; cbn [negb]; [|by apply t_ret; [apply _|]].
    eapply t_bind_ok; [apply (keeps_store i (PutIfAbsent _ _ _) (head_of_other _) _ _)| |
      by intros; apply t_ret; [apply _|]].
    intros stored. by apply t_ret; [apply _|].
Qed.

(** A new handle is made from bytes of this task's own. *)
Lemma t_new_handle i K {_ : Stable i K} :
  triple i K new_handle (fun handle w => exists b, handle = handle_of b /\ K w /\ fresh_handle i b w).
Proof.
  eapply t_bind; [apply (t_random i K)|]. intros b. apply t_ret; [apply _|].
  intros w _ (Hk & Hf & _). eauto.
Qed.

Lemma t_issue i token :
  triple i (fun _ => True) (issue other token)
    (fun r w => forall handle, r = Ok handle -> exists b, handle = handle_of b /\ drawn b w).
Proof.
  eapply t_bind; [apply (t_new_handle i (fun _ => True))|]. intros handle w Hi (b & -> & _ & Hf).
  revert w Hi Hf. change (triple i (fresh_handle i b)
    (created <- create_family other (handle_of b) token ;;
     Ret (match created with
          | Ok _ => Ok (handle_of b)
          | Err FaultSealerUnavailable => Err IssueSealerUnavailable
          | Err _ => Err IssueStore
          end)) (fun r w => forall handle, r = Ok handle -> exists b, handle = handle_of b /\ drawn b w)).
  eapply t_bind; [apply t_fresh_drawn, t_create_family|]. intros created. apply t_ret; [apply _|].
  intros w _ [_ Hd] handle. destruct created as [|[]]; intros [= <-]. by exists b.
Qed.

(** A code grant's answer that replaces the body replaces its refresh token by a new handle; one
    that does not has none, and a success that is no JSON object does not name one. *)
Definition issued_ok (response : StoredResponse) (r : result (option bytes) IssueError) (w : World) : Prop :=
  (forall payload, r = Ok (Some payload) -> exists b, hands_out (with_body response payload) b /\ drawn b w)
  /\ (r = Ok None -> upstream_refresh_token (status response) (body response) = None
       /\ (is_success response = true -> (from_slice (body response) ≫= as_object) = None ->
            names_refresh_token (body response) = false)).

#[local] Instance stable_issued_ok i response r : Stable i (issued_ok response r).
Proof.
  intros w w' Hi Hr [Hp Hn]. split; [|done]. intros payload Heq.
  destruct (Hp payload Heq) as (b & Ho & Hd). exists b. split; [done|]. exact (stable _ _ Hi Hr Hd).
Qed.

Lemma t_issue_in_response i response :
  triple i (fun _ => True) (issue_in_response other response) (issued_ok response).
Proof.
  unfold issue_in_response. destruct (upstream_refresh_token _ _) as [token|] eqn:Et.
  2: { apply t_ret; [apply _|]. intros w _ _. split; [intros payload; by destruct (_ && _)|].
       intros Hn. split; [done|]. intros Hs Hobj. rewrite Hs, bool_decide_eq_true_2 in Hn by done. simpl in Hn.
       by destruct (names_refresh_token (body response)). }
  assert (is_success response = true) as Hs.
  { unfold upstream_refresh_token in Et. unfold is_success. by destruct (success_status _). }
  eapply t_bind_ok; [apply t_issue| |by intros; apply t_ret; [apply _|]].
  intros handle. apply t_ret; [apply _|]. intros w _ Hh.
  destruct (Hh _ eq_refl) as (b & -> & Hd). clear Hh.
  destruct (with_refresh_token _ _ _) as [payload'|] eqn:Ew; (split; [intros payload|]); simpl; try done.
  intros [= <-]. exists b. split; [by apply hands_out_body|done].
Qed.
End Families.

Lemma keeps_open_handle i presented d : keeps i (timeout d (open_handle (binding self) presented)).
Proof.
  intros K HK. unfold open_handle. destruct (strip_prefix _ _) as [env|]; simpl ok_or; cbn iota.
  - simpl. eapply (t_op i K (Timeout d (UnsealCall env (associated_data (binding self)))) _ (fun _ w => K w)); [done| |].
    + intros w o w' Hi Hk Hh. assert (w' = w) as ->.
      { simpl in Hh. destruct o as [a|]; [by destruct Hh|by destruct Hh as [|(a & ? & _)]]. }
      split; [apply quiet_refl|done].
    + intros [a|]; by apply t_ret.
  - by apply t_ret.
Qed.

(** What a sealed handle's refresh may return. *)
Definition migrated_ok (r : result RefreshOutcome Fault) (w : World) : Prop :=
  forall resp, r = Ok (Response resp) -> is_success resp = true -> exists b, hands_out resp b /\ drawn b w.

Lemma t_refresh_sealed i presented :
  triple i (fun _ => True) (refresh_sealed_handle self presented) migrated_ok.
Proof.
  unfold refresh_sealed_handle. eapply t_bind; [apply (keeps_open_handle i _ _ _ _)|].
  intros [[opened|[]]|]; [|by apply t_ret; [apply _|]..].
  eapply t_bind; [apply (t_now i _)|]. intros now.
  destruct (_ <=? now)%Z; [by apply t_ret; [apply _|]|].
  eapply t_bind; [apply (t_ask i _)|]. intros [response|failure]; [|by apply t_ret; [apply _|]].
  destruct (is_invalid_grant response) eqn:Eg.
  { apply t_ret; [apply _|]. intros w _ _ resp [= <-]. by rewrite (invalid_grant_fails _ Eg). }
  destruct (is_success response) eqn:Es; cbn [negb].
  2: { apply t_ret; [apply _|]. intros w _ _ resp [= <-]. by rewrite Es. }
  eapply t_bind; [apply (t_new_handle i _)|]. intros handle w Hi (b & -> & _ & Hf).
  destruct (with_refresh_token _ _ _) as [payload|] eqn:Ew.
  2: { by apply (t_ret i (fun _ => True)); [apply _|..]. }
  revert w Hi Hf. change (triple i (fresh_handle i b)
    (_ <-! create_family self (handle_of b)
        (default (upstream_token opened) (upstream_refresh_token (status response) (body response))) ;;
     Ret (Ok (Response (with_body response payload)))) migrated_ok).
  eapply t_bind_ok; [apply t_fresh_drawn, t_create_family; done| |by intros; apply t_ret; [apply _|]].
  intros ?. apply t_ret; [apply _|]. intros w _ [_ Hd] resp [= <-] _. exists b. split; [by apply hands_out_body|done].
Qed.

(** What [refresh] may return: never out of fuel, and every success hands out a new handle; the
    successes of one rotating handle are all recorded for it. *)
Definition refresh_ok (presented : string) (o : option RefreshOutcome) (w : World) : Prop :=
  o <> None
  /\ forall resp, o = Some (Response resp) -> is_success resp = true ->
      (exists b, hands_out resp b /\ drawn b w)
      /\ (strip_prefix HANDLE_PREFIX presented = None -> answered presented resp w).

#[local] Instance stable_refresh_ok i presented o : Stable i (refresh_ok presented o).
Proof.
  intros w w' Hi Hr [Hn Ho]. split; [done|]. intros resp Heq Hs. destruct (Ho resp Heq Hs) as [(b & Hb & Hd) Ha].
  split; [exists b; split; [done|exact (stable _ _ Hi Hr Hd)]|].
  intros Hp. exact (stable _ _ Hi Hr (Ha Hp)).
Qed.

Lemma t_refresh i presented :
  (0 < poll_interval (timing self))%Z ->
  triple i (fun _ => True) (refresh self presented) (refresh_ok presented).
Proof.
  intros Hint. unfold refresh. destruct (strip_prefix HANDLE_PREFIX presented) as [rest|] eqn:Ep.
  { eapply t_bind; [apply t_refresh_sealed|]. intros r. apply t_ret; [apply _|].
    intros w _ Hr. split; [done|]. rewrite Ep. intros resp [= Ho] Hs. split; [|done].
    destruct r as [o|f]; simpl in Ho; subst; [by apply (Hr resp)|by destruct f]. }
  destruct (valid_handle_shape presented).
  2: { apply t_ret; [apply _|]. intros w _ _. by split. }
  eapply t_bind; [by apply t_refresh_rotating|]. intros r. apply t_ret; [apply _|].
  intros w Hi [Hne Hr]. destruct r as [r|]; [|done]. split; [done|]. intros resp [= Ho] Hs.
  assert (answered presented resp w) as Ha.
  { destruct r as [o|f]; simpl in Ho; subst; [by apply (Hr _ eq_refl _ eq_refl resp)|by destruct f]. }
  split; [|done]. destruct Ha as (cid & _ & _ & (gv & Hin & Hg) & _).
  destruct (inv_response w Hi _ _ ltac:(by eexists _, _) Hin) as (resp' & b & Hopen & Hout & Hd).
  rewrite (opens_as_inj _ _ _ _ _ Hg Hopen). by exists b.
Qed.

(** ** All tasks together *)

(** The requests a relay serves with its rotator. *)
Inductive request :=
  | RefreshRequest (presented : string)
  | CodeGrant (response : StoredResponse).

Inductive reply :=
  | Refreshed (o : option RefreshOutcome)
  | Issued (r : result (option bytes) IssueError).

Definition serve (q : request) : io reply :=
  match q with
  | RefreshRequest presented => o <- refresh self presented ;; Ret (Refreshed o)
  | CodeGrant response => r <- issue_in_response self response ;; Ret (Issued r)
  end.

Definition reply_ok (q : request) (a : reply) (w : World) : Prop :=
  match q, a with
  | RefreshRequest presented, Refreshed o => refresh_ok presented o w
  | CodeGrant response, Issued r => issued_ok response r w
  | _, _ => False
  end.

#[local] Instance stable_reply_ok i q a : Stable i (reply_ok q a).
Proof. unfold reply_ok. destruct q, a; apply _. Qed.

Lemma t_serve i q :
  (0 < poll_interval (timing self))%Z -> triple i (fun _ => True) (serve q) (reply_ok q).
Proof.
  intros Hint. destruct q as [presented|response].
  - eapply t_bind; [by apply t_refresh|]. intros o. by apply t_ret; [apply _|].
  - eapply t_bind; [by apply t_issue_in_response|]. intros r. by apply t_ret; [apply _|].
Qed.

(** Nothing of this relay is stored yet. *)
Definition empty_world (w : World) : Prop :=
  w_writes w = [] /\ w_drawn w = [] /\ forall k, ours self k -> w_store w !! k = None.

Lemma empty_inv w : empty_world w -> Inv w.
Proof.
  intros (Hl & Hd & Hs). assert (forall k, log k w = []) as Hlog by (intros k; unfold log; by rewrite Hl).
  split; intros *; rewrite ?Hlog, ?Hd; try done.
  - intros [Hk%handle_key_ours|Hk%grace_key_ours]; by rewrite (Hs _ Hk).
  - by destruct l.
  - simpl. lia.
  - by intros _ ?%not_elem_of_nil.
  - by intros ?%not_elem_of_nil.
Qed.

(** A state the requests [qs] can reach from [w0]. *)
Definition reaches (w0 : World) (qs : list request) (w : World) (ts : list (io reply)) : Prop :=
  reachable (handle sealer slack) (env_step (ours self)) (w0, serve <$> qs) (w, ts).

Lemma reaches_ok w0 qs w ts i q a :
  (0 < poll_interval (timing self))%Z -> empty_world w0 -> reaches w0 qs w ts ->
  qs !! i = Some q -> ts !! i = Some (Ret a) -> Inv w /\ reply_ok q a w.
Proof.
  intros Hint H0 Hr Hq Ht.
  pose proof (tasks_safe (handle sealer slack) (env_step (ours self)) rely guar
    (fun i a w => forall q, qs !! i = Some q -> Inv w /\ reply_ok q a w)
    guar_rely env_rely _ _ Hr) as Hall.
  refine (Hall _ i a Ht q Hq). intros i' p Hp. simpl in *.
  apply list_lookup_fmap_Some in Hp as (q' & -> & Hq').
  eapply safe_mono; [|apply (t_serve i' q' Hint); [by apply empty_inv|done]].
  intros a' w' Hw' q'' Hq''. by simplify_eq.
Qed.

Lemma answered_unique h r1 r2 w : Inv w -> answered h r1 w -> answered h r2 w -> r1 = r2.
Proof.
  intros Hi (c1 & b1 & (v1 & x1 & m1 & s1 & Hv1 & Ho1 & Hs1) & (g1 & Hg1 & Hr1) & _)
    (c2 & b2 & (v2 & x2 & m2 & s2 & Hv2 & Ho2 & Hs2) & (g2 & Hg2 & Hr2) & _).
  assert (v1 = v2) as <-.
  { assert (Hlast : forall v, v ∈ log (handle_key self h) w -> rotated (handle_key self h) v ->
      last (log (handle_key self h) w) = Some v).
    { intros v [l [l' Hl]]%list_elem_of_split Hrot.
      assert (l' = []) as -> by (eapply (inv_final w Hi); [by eexists|done..]).
      by rewrite Hl, last_snoc. }
    pose proof (Hlast v1 Hv1 ltac:(by eexists _, _, _, _)) as E1.
    pose proof (Hlast v2 Hv2 ltac:(by eexists _, _, _, _)) as E2. congruence. }
  pose proof (opens_as_inj _ _ _ _ _ Ho1 Ho2) as <-. rewrite Hs1 in Hs2. simplify_eq.
  assert (g1 = g2) as <-.
  { pose proof (inv_grace w Hi (grace_key self (handle_key self h) c2) ltac:(by eexists _, _)) as Hl.
    destruct (log (grace_key self (handle_key self h) c2) w) as [|g [|g' l]]; simpl in Hl; [..|lia].
    - by apply not_elem_of_nil in Hg1.
    - apply list_elem_of_singleton in Hg1, Hg2. congruence. }
  by eapply opens_as_inj.
Qed.
End Safety.

(** ** Properties *)

(** Rotation is single use. However many requests present the same rotating handle, in
    whatever order their steps interleave with each other and with other requests, crashes,
    store failures, lost records and clock jumps, every success they are answered with is one and
    the same response: no two successors of a handle are ever handed out. *)
Theorem single_successor
    {J : JsonLib} {JL : JsonLaws J} {H : Sha256} {HC : CollisionFree H} {B : Base64}
    {BL : Base64Laws B} {PH : Postcard OpenedHandle} {PR : Postcard HandleRecord}
    {PS : Postcard StoredResponse} {PRL : PostcardLaws HandleRecord}
    {PSL : PostcardLaws StoredResponse} {S : Type} {SL : Sealer S} {SLL : SealerLaws S}
    (sealer : S) slack (self : Rotator) w0 qs w ts i j handle r1 r2 :
  (0 < poll_interval (timing self))%Z -> empty_world self w0 -> reaches sealer slack self w0 qs w ts ->
  strip_prefix HANDLE_PREFIX handle = None ->
  qs !! i = Some (RefreshRequest handle) -> ts !! i = Some (Ret (Refreshed (Some (Response r1)))) ->
  qs !! j = Some (RefreshRequest handle) -> ts !! j = Some (Ret (Refreshed (Some (Response r2)))) ->
  is_success r1 = true -> is_success r2 = true -> r1 = r2.
Proof.
  intros Hint H0 Hr Hp Hqi Hti Hqj Htj Hs1 Hs2.
  destruct (reaches_ok _ _ _ _ _ _ _ _ _ _ Hint H0 Hr Hqi Hti) as [Hi [_ H1]].
  destruct (reaches_ok _ _ _ _ _ _ _ _ _ _ Hint H0 Hr Hqj Htj) as [_ [_ H2]].
  eapply answered_unique; [exact Hi|by apply H1|by apply H2].
Qed.

(** No upstream token leaves a rotating relay. Under any interleaving and any failure, a
    success answered to a refresh (by rotation, by replay within the grace period, or by migrating
    a sealed handle) and a rewritten code-grant response carry a freshly drawn rotating handle as
    their only refresh token. *)
Theorem only_handles_leave
    {J : JsonLib} {JL : JsonLaws J} {H : Sha256} {HC : CollisionFree H} {B : Base64}
    {BL : Base64Laws B} {PH : Postcard OpenedHandle} {PR : Postcard HandleRecord}
    {PS : Postcard StoredResponse} {PRL : PostcardLaws HandleRecord}
    {PSL : PostcardLaws StoredResponse} {S : Type} {SL : Sealer S} {SLL : SealerLaws S}
    (sealer : S) slack (self : Rotator) w0 qs w ts i q a :
  (0 < poll_interval (timing self))%Z -> empty_world self w0 -> reaches sealer slack self w0 qs w ts ->
  qs !! i = Some q -> ts !! i = Some (Ret a) ->
  match q, a with
  | RefreshRequest _, Refreshed (Some (Response r)) =>
      is_success r = true -> exists b, hands_out r b
  | CodeGrant response, Issued (Ok (Some payload)) =>
      exists b, hands_out (with_body response payload) b
  | _, _ => True
  end.
Proof.
  intros Hint H0 Hr Hq Ht. destruct (reaches_ok _ _ _ _ _ _ _ _ _ _ Hint H0 Hr Hq Ht) as [_ Ha].
  destruct q as [presented|response], a as [[[]|]|[[payload|]|]]; try done; simpl in Ha.
  - intros Hs. destruct Ha as [_ Ha]. destruct (Ha _ eq_refl Hs) as [(b & Hb & _) _]. by exists b.
  - destruct Ha as [Ha _]. destruct (Ha payload eq_refl) as (b & Hb & _). by exists b.
Qed.

(** C3: the polling loop ends. With any positive poll interval, and however the other requests
    interfere, a refresh that returns has not exhausted its fuel: the fuel is enough, and a
    request that finds the handle claimed is answered once [resolve_wait] has passed. *)
Theorem polling_terminates
    {J : JsonLib} {JL : JsonLaws J} {H : Sha256} {HC : CollisionFree H} {B : Base64}
    {BL : Base64Laws B} {PH : Postcard OpenedHandle} {PR : Postcard HandleRecord}
    {PS : Postcard StoredResponse} {PRL : PostcardLaws HandleRecord}
    {PSL : PostcardLaws StoredResponse} {S : Type} {SL : Sealer S} {SLL : SealerLaws S}
    (sealer : S) slack (self : Rotator) w0 qs w ts i :
  (0 < poll_interval (timing self))%Z -> empty_world self w0 -> reaches sealer slack self w0 qs w ts ->
  ts !! i <> Some (Ret (Refreshed None)).
Proof.
  intros Hint H0 Hr Ht. destruct (qs !! i) as [q|] eqn:Hq.
  - destruct (reaches_ok _ _ _ _ _ _ _ _ _ _ Hint H0 Hr Hq Ht) as [_ Ha].
    destruct q; [by destruct Ha as [? _]|done].
  - assert (length ts = length qs) as Hl.
    { assert (forall c c', rtc (task_step (handle sealer slack) (env_step (ours self))) c c' ->
        length c'.2 = length (A := io reply) c.2) as Hlen.
      { intros c c' Hs. induction Hs as [|c1 c2 c3 Hstep _ IH]; [done|]. rewrite IH.
        destruct Hstep; simpl; [apply length_insert|done]. }
      apply Hlen in Hr. simpl in Hr. by rewrite Hr, length_fmap. }
    apply lookup_lt_Some in Ht. apply lookup_ge_None in Hq. lia.
Qed.

(** ** The theorems on one run

    A code grant issues a handle; the client presents it twice. The second presentation is answered
    within the grace period. *)

Module Example.
Import PlainSeal PlainCodec.

#[export] Instance byte_countable : Countable Byte.byte.
Proof. by refine (inj_countable Byte.to_N Byte.of_N _); intros []. Defined.

#[export] Instance record_eq_dec : EqDecision HandleRecord.
Proof. assert (EqDecision State) by solve_decision. solve_decision. Defined.

Definition state_code (s : State) : string + (string * bytes * Z) + (Z * bytes * string) :=
  match s with
  | Active t => inl (inl t)
  | Claimed t c ms => inl (inr (t, c, ms))
  | Rotated ms c k => inr (ms, c, k)
  end.
Definition state_of (c : string + (string * bytes * Z) + (Z * bytes * string)) : State :=
  match c with
  | inl (inl t) => Active t
  | inl (inr (t, c, ms)) => Claimed t c ms
  | inr (ms, c, k) => Rotated ms c k
  end.

#[export] Instance record_countable : Countable HandleRecord.
Proof.
  by refine (inj_countable' (fun r => (family_id r, family_expires_ms r, state_code (state r)))
    (fun '(f, e, s) => {| family_id := f; family_expires_ms := e; state := state_of s |}) _);
    intros [f e []].
Defined.

#[export] Instance response_countable : Countable StoredResponse.
Proof.
  by refine (inj_countable' (fun r => (status r, content_type r, body r))
    (fun '(s, c, b) => {| status := s; content_type := c; body := b |}) _); intros [].
Defined.

#[export] Instance record_postcard : Postcard HandleRecord := postcard.
#[export] Instance record_postcard_laws : PostcardLaws HandleRecord.
Proof. apply postcard_laws. Defined.
#[export] Instance response_postcard : Postcard StoredResponse := postcard.
#[export] Instance response_postcard_laws : PostcardLaws StoredResponse.
Proof. apply postcard_laws. Defined.

Definition self : Rotator :=
  Rotator_new RefreshHandle.Example.binding
    {| mode := Rotating; grace_period_seconds := 30; max_lifetime_seconds := 3600 |}.

Definition world : World :=
  {| w_store := ∅; w_backend := 0; w_unix := 1700000000000; w_mono := 0; w_drawn := [];
     w_writes := []; w_asked := [] |}.

Definition token_response (token : string) : StoredResponse :=
  {| status := 200; content_type := None;
     body := pack [("access_token", raw_string "at"); ("refresh_token", raw_string token)] |}.

Definition upstream (token : string) : result StoredResponse UpstreamFailure :=
  Ok (token_response (token +:+ "+")).

Definition go {A} (i : nat) (p : io A) (w : World) : option (A * World) :=
  run (reliable old_sealer nonce upstream i) p w.

(** The handle of the code grant: its bytes are the first draw. *)
Definition handle : string := handle_of (repeat x00 32).
Definition requests : list request :=
  [CodeGrant (token_response "up"); RefreshRequest handle; RefreshRequest handle].

Definition final : option (reply * reply * reply * World) :=
  '(a0, w) ← go 0 (serve self (CodeGrant (token_response "up"))) world;
  '(a1, w) ← go 1 (serve self (RefreshRequest handle)) w;
  '(a2, w) ← go 2 (serve self (RefreshRequest handle)) w;
  Some (a0, a1, a2, w).

(** Both presentations are answered with success. *)
Definition both_succeed (f : option (reply * reply * reply * World)) : bool :=
  match f with
  | Some (_, Refreshed (Some (Response r1)), Refreshed (Some (Response r2)), _) =>
      is_success r1 && is_success r2
  | _ => false
  end.

Example upstream_asked_once :
  match final with Some (_, _, _, w) => w_asked w | None => [] end = ["up"].
Proof. vm_compute. reflexivity. Qed.

Lemma go_reachable i p w (a : reply) w' ts :
  go i p w = Some (a, w') -> ts !! i = Some p ->
  reachable (Effects.handle old_sealer 0) (env_step (ours self)) (w, ts) (w', <[i := Ret a]> ts).
Proof. apply run_reachable. intros. by apply (reliable_handle _ _ nonce upstream); [lia|reflexivity|]. Qed.

Lemma final_reaches a0 a1 a2 w :
  final = Some (a0, a1, a2, w) ->
  reaches old_sealer 0 self world requests w [Ret a0; Ret a1; Ret a2].
Proof.
  unfold final. intros ([b0 w1] & H0 & ([b1 w2] & H1 & ([b2 w3] & H2 & Heq)%bind_Some)%bind_Some)%bind_Some.
  simplify_eq. unfold reaches, reachable.
  etrans; [exact (go_reachable 0 _ _ _ _ (serve self <$> requests) H0 eq_refl)|].
  etrans; [exact (go_reachable 1 _ _ _ _ (<[0 := Ret a0]> (serve self <$> requests)) H1 eq_refl)|].
  exact (go_reachable 2 _ _ _ _ (<[1 := Ret a1]> (<[0 := Ret a0]> (serve self <$> requests))) H2 eq_refl).
Qed.

Lemma final_replies :
  exists a0 r1 r2 w, final = Some (a0, Refreshed (Some (Response r1)), Refreshed (Some (Response r2)), w)
    /\ is_success r1 = true /\ is_success r2 = true.
Proof.
  assert (both_succeed final = true) as Hb by (vm_compute; reflexivity).
  destruct final as [[[[a0 [[[r1| | | | | |]|]|]] [[[r2| | | | | |]|]|]] w]|]; try discriminate Hb.
  apply andb_true_iff in Hb as [H1 H2]. by exists a0, r1, r2, w.
Qed.

Lemma world_empty : empty_world self world.
Proof. split_and!; [done|done|]. intros k _. apply lookup_empty. Qed.

Lemma single_successor_witness :
  exists w ts r1 r2, reaches old_sealer 0 self world requests w ts
    /\ ts !! 1 = Some (Ret (Refreshed (Some (Response r1))))
    /\ ts !! 2 = Some (Ret (Refreshed (Some (Response r2)))) /\ is_success r1 = true /\ r1 = r2.
Proof.
  destruct final_replies as (a0 & r1 & r2 & w & Hf & H1 & H2).
  pose proof (final_reaches _ _ _ _ Hf) as Hr. do 4 eexists. split; [exact Hr|].
  split; [reflexivity|]. split; [reflexivity|]. split; [exact H1|].
  refine (single_successor old_sealer 0 self world requests w _ 1 2 handle r1 r2
    eq_refl world_empty Hr _ eq_refl eq_refl eq_refl eq_refl H1 H2).
  vm_compute. reflexivity.
Defined.

Lemma only_handles_leave_witness : exists r b, is_success r = true /\ hands_out r b.
Proof.
  destruct final_replies as (a0 & r1 & r2 & w & Hf & H1 & H2).
  pose proof (final_reaches _ _ _ _ Hf) as Hr.
  destruct (only_handles_leave old_sealer 0 self world requests w _ 1 (RefreshRequest handle)
    (Refreshed (Some (Response r1))) eq_refl world_empty Hr eq_refl eq_refl H1) as [b Hb].
  exists r1, b. split; [exact H1|exact Hb].
Defined.

Lemma polling_terminates_witness :
  exists w ts, reaches old_sealer 0 self world requests w ts /\ ts !! 1 <> Some (Ret (Refreshed None)).
Proof.
  destruct final_replies as (a0 & r1 & r2 & w & Hf & _).
  pose proof (final_reaches _ _ _ _ Hf) as Hr. do 2 eexists. split; [exact Hr|].
  exact (polling_terminates old_sealer 0 self world requests w _ 1 eq_refl world_empty Hr).
Defined.
End Example.
