(* ===== verification/RotationSeq.v ===== *)
(** * RotationSeq: what one undisturbed request does

    [RotationSafety] says what no interleaving can break; this file says what a request that runs
    alone achieves, whatever the store, the sealer and the upstream answer: a revoked family is
    refused without asking the upstream, a replay past the grace period revokes the family, and a
    rotation sends the handle's own token and moves the family to the successor it hands out, in the
    family that [issue] started. [reaches_chained] shows that the links the revocation follows hold in
    every state that [RotationSafety] reaches.
    Proofs are by weakest preconditions ([wp]) over the calls of the model. *)

From S2P Require Import Prelude Text Json Model Store Seal Prog Effects RefreshHandle Rotation RotationSafety.
#[local] Open Scope string_scope.
#[local] Open Scope prog_scope.

Section Sequential.
Context {J : JsonLib} {JL : JsonLaws J} {H : Sha256} {B : Base64}.
Context {PH : Postcard OpenedHandle} {PR : Postcard HandleRecord} {PS : Postcard StoredResponse}.
Context {PRL : PostcardLaws HandleRecord} {PSL : PostcardLaws StoredResponse}.
Context {S : Type} {SL : Sealer S} {SLL : SealerLaws S} (sealer : S) (slack : Z).
Context (self : Rotator) (i : nat).

Notation wp := (wp (handle sealer slack i)).
Notation live_at w k := (live (w_backend w) (w_store w) k).

(** A stored value reads as [x] at a key. *)
Definition reads {T} {P : Postcard T} (purpose k : string) (v : bytes) (x : T) : Prop :=
  exists env pt, from_utf8 v = Some env /\ unseal sealer env (record_data self purpose k) = Ok pt
    /\ from_postcard pt = Some x.

(** The live record of a key. *)
Definition record_at (w : World) (k : string) (r : HandleRecord) : Prop :=
  exists v e, live_at w k = Some (v, e) /\ reads RECORD_PURPOSE k v r.

Definition revoked_in (w : World) (family : bytes) : Prop := is_Some (live_at w (family_key self family)).

Lemma reads_fun {T} {P : Postcard T} purpose k v (x y : T) :
  reads purpose k v x -> reads purpose k v y -> x = y.
Proof. intros (? & ? & ? & ? & ?) (? & ? & ? & ? & ?). congruence. Qed.

(** ** Calls *)

(** An error that does not turn into [InvalidGrant]. *)
Definition outage (f : Fault) : Prop := f <> Unopenable /\ f <> Sealing.

Lemma wp_await e (Q : ans e -> World -> Prop) w :
  (forall a w', handle sealer slack i w e a w' -> Q a w') -> wp (await e) Q w.
Proof. apply wp_call. Qed.

Lemma wp_timeout d e (Q : option (ans e) -> World -> Prop) w :
  (forall o w', handle sealer slack i w (Timeout d e) o w' -> Q o w') -> wp (timeout d (await e)) Q w.
Proof. intros HQ o w' (b & w1 & Hh & Ho). apply HQ. destruct b; destruct Ho as [-> ->]; done. Qed.

Lemma wp_now (Q : Z -> World -> Prop) w : Q (w_unix w) w -> wp (await Now) Q w.
Proof. intros HQ. apply (wp_await Now). by intros a w' [-> ->]. Qed.

Lemma wp_instant (Q : Z -> World -> Prop) w : Q (w_mono w) w -> wp (await InstantNow) Q w.
Proof. intros HQ. apply (wp_await InstantNow). by intros a w' [-> ->]. Qed.

Lemma wp_sleep d (Q : unit -> World -> Prop) w :
  (forall t, Q tt (set_mono w t)) -> wp (sleep d) Q w.
Proof.
  intros HQ. apply wp_bind, wp_instant, (wp_await (SleepUntil _)). intros [] w' (t & _ & ->). apply HQ.
Qed.

Lemma wp_random n (Q : bytes -> World -> Prop) w :
  (forall b, length b = n -> Q b (draw w i b)) -> wp (await (Random n)) Q w.
Proof. intros HQ. apply (wp_await (Random n)). intros b w' (Hl & _ & ->). auto. Qed.

(** A draw never repeats an earlier one. *)
Lemma wp_random_new n (Q : bytes -> World -> Prop) w :
  (forall b, (forall j, (j, b) ∉ w_drawn w) -> Q b (draw w i b)) -> wp (await (Random n)) Q w.
Proof.
  intros HQ. apply (wp_await (Random n)). intros b w' (_ & Hf & ->). apply HQ. intros j Hin. by apply (Hf j b).
Qed.

(** A store call: refused or lost before it is applied, applied, or applied and its answer lost. *)
Lemma wp_store o (Q : result (store_ans o) Fault -> World -> Prop) w :
  (forall f, outage f -> Q (Err f) w) ->
  (forall a w', spec_step slack (w_backend w) (w_store w) o (Ok a) (w_store w') ->
     w' = set_store w (w_store w') (applied_write o (Ok a)) ->
     Q (Ok a) w' /\ forall m, Q (Err (FaultStore m)) w') ->
  wp (store o) Q w.
Proof.
  intros Herr Hok. apply wp_bind, (wp_await (StoreCall o)). intros r w' Hh. apply wp_ret.
  destruct Hh as [[a|m] st' Hs|m|m a st' Hs]; cbn [map_err].
  - by apply (Hok a (set_store w st' (applied_write o (Ok a)))).
  - pose proof (spec_step_inv _ _ _ _ _ Hs) as Hi.
    assert (st' = w_store w /\ applied_write o (Err m) = []) as [-> ->] by (destruct o; naive_solver).
    rewrite set_store_same. by apply Herr.
  - by apply Herr.
  - by apply (Hok a (set_store w st' (applied_write o (Ok a)))).
Qed.

Lemma wp_get k (Q : result (option Entry) Fault -> World -> Prop) w :
  (forall f, outage f -> Q (Err f) w) ->
  (forall a, reads_as slack (w_backend w) (live_at w k) a -> Q (Ok a) w) ->
  wp (store (Get k)) Q w.
Proof.
  intros Herr Hok. apply wp_store; [done|]. intros a w' Hs%spec_step_inv Hw'. simpl in Hs.
  destruct Hs as [Ha Hst]. rewrite Hst in Hw'. simpl in Hw'. rewrite set_store_same in Hw'. subst w'.
  split; [by apply Hok|]. intros m. by apply Herr.
Qed.

Lemma wp_put k v ttl (Q : result bool Fault -> World -> Prop) w :
  (forall f, outage f -> Q (Err f) w) ->
  (is_Some (live_at w k) -> Q (Ok false) w) ->
  (forall e, live_at w k = None -> (w_backend w + ttl <= e)%Z ->
     Q (Ok true) (put w k v e) /\ forall m, Q (Err (FaultStore m)) (put w k v e)) ->
  wp (store (PutIfAbsent k v ttl)) Q w.
Proof.
  intros Herr Hno Hok. apply wp_store; [done|]. intros [] w' Hs%spec_step_inv Hw'; simpl in Hs.
  - destruct Hs as (Hl & e & [He _] & Hst). rewrite Hst in Hw'. rewrite Hw'. by apply Hok.
  - destruct Hs as [Hl Hst]. rewrite Hst in Hw'. simpl in Hw'. rewrite set_store_same in Hw'. subst.
    split; [by apply Hno|]. intros m. by apply Herr.
Qed.

Lemma wp_swap k ex v ttl (Q : result bool Fault -> World -> Prop) w :
  (forall f, outage f -> Q (Err f) w) ->
  ((forall e, live_at w k <> Some (ex, e)) -> Q (Ok false) w) ->
  (forall e e0, live_at w k = Some (ex, e0) -> (w_backend w + ttl <= e)%Z ->
     Q (Ok true) (put w k v e) /\ forall m, Q (Err (FaultStore m)) (put w k v e)) ->
  wp (store (CompareAndSwap k ex v ttl)) Q w.
Proof.
  intros Herr Hno Hok. apply wp_store; [done|]. intros [] w' Hs%spec_step_inv Hw'; simpl in Hs.
  - destruct Hs as ((e0 & Hl) & e & [He _] & Hst). rewrite Hst in Hw'. rewrite Hw'. by eapply Hok.
  - destruct Hs as [Hl Hst]. rewrite Hst in Hw'. simpl in Hw'. rewrite set_store_same in Hw'. subst.
    split; [by apply Hno|]. intros m. by apply Herr.
Qed.

Lemma wp_delete k (Q : result unit Fault -> World -> Prop) w :
  (forall r, Q r w) -> (forall r, Q r (drop_key w k)) -> wp (store (Delete k)) Q w.
Proof.
  intros Hno Hok. apply wp_store; [done|]. intros [] w' Hs%spec_step_inv Hw'; simpl in Hs.
  rewrite Hs in Hw'. simpl in Hw'. subst. split; [apply Hok|]. intros m. apply Hok.
Qed.

(** Sealing does not change the world; what it gives reads back. *)
Lemma wp_seal {T} {P : Postcard T} {PL : PostcardLaws T} purpose k (x : T)
    (Q : result bytes Fault -> World -> Prop) w :
  (forall f, Q (Err f) w) -> (forall v, reads purpose k v x -> Q (Ok v) w) ->
  wp (seal_value self purpose k x) Q w.
Proof.
  intros Herr Hok. unfold seal_value. destruct (to_stdvec x) as [pt|] eqn:Ept; simpl ok_or; cbn iota.
  2: { by apply wp_ret. }
  apply wp_bind, wp_timeout. intros o w' Hh. apply wp_ret.
  assert (w' = w /\ forall env, o = Some (Ok env) -> exists nonce, length nonce = 24
    /\ seal sealer nonce pt (record_data self purpose k) = Ok env) as [-> Ho].
  { simpl in Hh. destruct o as [a|].
    - destruct Hh as [-> Ha]. split; [done|]. intros env [= ->]. by destruct Ha.
    - destruct Hh as [->|(a & -> & _)]; done. }
  destruct o as [[env|e]|]; [|done|done].
  destruct (Ho _ eq_refl) as (nonce & Hn & Hs). apply Hok. exists env, pt. split_and!.
  - apply from_utf8_into. by eapply sealer_text.
  - by eapply (opens_same _ _ (sealer_opens sealer)).
  - by apply from_to_postcard.
Qed.

Lemma wp_is_revoked family (Q : result bool Fault -> World -> Prop) w :
  (forall f, outage f -> Q (Err f) w) ->
  (revoked_in w family -> Q (Ok true) w) -> (~ revoked_in w family -> Q (Ok false) w) ->
  wp (is_revoked self family) Q w.
Proof.
  intros Herr Ht Hf. apply wp_bind_ok, wp_get; [done|]. intros a Ha. apply wp_ret.
  unfold revoked_in in *. destruct (live_at w _) as [[v e]|]; simpl in Ha.
  - destruct Ha as (left & -> & _). rewrite bool_decide_eq_true_2 by eauto. eauto.
  - subst. rewrite bool_decide_eq_false_2 by by intros [? ?]. apply Hf. by intros [? ?].
Qed.

(** Opening a stored value: a value that reads as nothing, or as [x]. *)
Lemma wp_open {T} {P : Postcard T} purpose k v (Q : result T Fault -> World -> Prop) w :
  Q (Err FaultSealerUnavailable) w ->
  ((forall x, ~ reads purpose k v x) -> forall f, Q (Err f) w) ->
  (forall x, reads purpose k v x -> Q (Ok x) w) ->
  wp (open_value self purpose k v) Q w.
Proof.
  intros Hun Hno Hok. unfold open_value. destruct (from_utf8 v) as [env|] eqn:Ev; simpl ok_or; cbn iota.
  2: { apply wp_ret, Hno. intros x (? & ? & ? & _). congruence. }
  apply wp_bind, wp_timeout. intros o w' Hh. apply wp_ret.
  assert (w' = w /\ (o = None \/ o = Some (Err Unavailable)
    \/ o = Some (unseal sealer env (record_data self purpose k)))) as [-> Ho].
  { simpl in Hh. destruct o as [a|].
    - destruct Hh as [-> [->| ->]]; eauto.
    - destruct Hh as [->|(a & -> & _)]; eauto. }
  destruct Ho as [->|[->| ->]]; [done|done|].
  destruct (unseal sealer env _) as [pt|e] eqn:Eu; cbn [ok_or].
  - destruct (from_postcard pt) as [x|] eqn:Ex; cbn [ok_or]; [apply Hok; by exists env, pt|].
    apply Hno. intros x (? & ? & ? & ? & ?). congruence.
  - apply Hno. intros x (? & ? & ? & ? & ?). congruence.
Qed.

Lemma wp_load k (Q : result (option Loaded) Fault -> World -> Prop) w :
  (forall f, outage f -> Q (Err f) w) ->
  (forall v e, live_at w k = Some (v, e) -> (forall x : HandleRecord, ~ reads RECORD_PURPOSE k v x) ->
     forall f, Q (Err f) w) ->
  (live_at w k = None -> Q (Ok None) w) ->
  (forall v e x, live_at w k = Some (v, e) -> reads RECORD_PURPOSE k v x ->
     Q (Ok (Some {| l_bytes := v; l_record := x |})) w) ->
  wp (load self k) Q w.
Proof.
  intros Herr Hno Hnone Hok. apply wp_bind_ok, wp_get; [done|]. intros a Ha.
  destruct (live_at w k) as [[v e]|] eqn:El; simpl in Ha.
  - destruct Ha as (left & -> & _). cbn [value].
    apply wp_bind_ok, (wp_open RECORD_PURPOSE k v); [by apply Herr|by eapply Hno|].
    intros x Hx. by eapply wp_ret, Hok.
  - subst. by apply wp_ret, Hnone.
Qed.

(** A record known to be live is what [load] gives. *)
Lemma wp_load_known k r (Q : result (option Loaded) Fault -> World -> Prop) w :
  record_at w k r ->
  (forall f, outage f -> Q (Err f) w) ->
  (forall v e, live_at w k = Some (v, e) -> reads RECORD_PURPOSE k v r ->
     Q (Ok (Some {| l_bytes := v; l_record := r |})) w) ->
  wp (load self k) Q w.
Proof.
  intros (v & e & Hl & Hr) Herr Hok. apply wp_load; [done|..].
  - intros v' e' Hl' Hno. rewrite Hl in Hl'. simplify_eq. by destruct (Hno r).
  - congruence.
  - intros v' e' x Hl' Hx. rewrite Hl in Hl'. simplify_eq.
    assert (x = r) as -> by by eapply reads_fun. by eapply Hok.
Qed.

(** ** Revoked families *)

(** An answer that gives the client nothing. *)
Definition refused (o : option RefreshOutcome) : Prop :=
  o = Some InvalidGrant \/ o = Some StoreFailed \/ o = Some OutcomeSealerUnavailable.

Lemma refused_outage f : refused (Some (outcome_of (Err f))).
Proof. destruct f; unfold refused; simpl; auto. Qed.

Lemma outage_not_invalid f : outage f -> outcome_of (Err f) <> InvalidGrant.
Proof. intros [? ?]. by destruct f. Qed.

(** A pass over a record that is known, up to the state it reads. *)
Lemma wp_poll_once key r (Q : option (result RefreshOutcome Fault) -> World -> Prop) w :
  record_at w key r ->
  (forall f, outage f -> Q (Some (Err f)) w) ->
  ((family_expires_ms r <= w_unix w)%Z \/ revoked_in w (family_id r) -> Q (Some (Ok InvalidGrant)) w) ->
  (forall v e, live_at w key = Some (v, e) -> reads RECORD_PURPOSE key v r ->
     (w_unix w < family_expires_ms r)%Z -> ~ revoked_in w (family_id r) ->
     wp (handle_state self key {| l_bytes := v; l_record := r |} (w_unix w)) Q w) ->
  wp (poll_once self key) Q w.
Proof.
  intros Hr Herr Hdead Hgo. apply wp_bind. apply (wp_load_known _ r); [done|..].
  { intros f ?. apply wp_ret. by apply Herr. }
  intros v e Hl Hv. apply wp_bind, wp_now. cbn [l_record].
  destruct (family_expires_ms r <=? w_unix w)%Z eqn:Ex.
  { apply wp_ret, Hdead. left. by apply Z.leb_le. }
  apply Z.leb_gt in Ex.
  apply wp_bind, wp_is_revoked.
  - intros f ?. apply wp_ret. by apply Herr.
  - intros Hrev. apply wp_ret, Hdead. by right.
  - intros Hrev. by eapply Hgo.
Qed.

(** [refresh] on a rotating handle is its polling loop. *)
Lemma wp_refresh presented (Q : option RefreshOutcome -> World -> Prop) w :
  strip_prefix HANDLE_PREFIX presented = None ->
  (valid_handle_shape presented = false -> Q (Some InvalidGrant) w) ->
  (valid_handle_shape presented = true ->
   wp (poll self (poll_fuel self) (handle_key self presented) (w_mono w))
      (fun r w' => Q (outcome_of <$> r) w') w) ->
  wp (refresh self presented) Q w.
Proof.
  intros Hp Hno Hgo. unfold refresh. rewrite Hp. destruct (valid_handle_shape presented).
  - apply wp_bind, wp_bind, wp_instant. eapply wp_mono; [by apply Hgo|]. intros r w' Hq. by apply wp_ret.
  - by apply wp_ret, Hno.
Qed.

Lemma poll_revoked key r n started w :
  record_at w key r -> revoked_in w (family_id r) ->
  wp (poll self (Datatypes.S n) key started) (fun o w' => w' = w /\ refused (outcome_of <$> o)) w.
Proof.
  intros Hr Hrev. apply wp_bind. apply (wp_poll_once _ r); [done|..].
  - intros f _. apply wp_ret. split; [done|apply refused_outage].
  - intros _. apply wp_ret. split; [done|by left].
  - by intros v e _ _ _ [].
Qed.

(** ** Replays past the grace period *)

(** The key of a handle of this relay. *)
Notation handle_named := (is_handle_key self).

(** The family heads and the successors name handle records. *)
Record Chained (w : World) : Prop := {
  chained_head f v e : w_store w !! head_key self f = Some (v, e) -> handle_named (from_bytes v);
  chained_next k v e r ms c s :
    handle_named k -> w_store w !! k = Some (v, e) -> reads RECORD_PURPOSE k v r ->
    state r = Rotated ms c s -> handle_named s;
}.

Lemma handle_key_named h : handle_named (handle_key self h).
Proof. by eexists. Qed.

Lemma family_not_named f : ~ handle_named (family_key self f).
Proof. apply family_neither. Qed.
Lemma family_not_head f f' : family_key self f <> head_key self f'.
Proof. intros Heq. discriminate Heq. Qed.

(** *** Every reachable store is chained

    What a program writes is checked call by call, whatever the calls before it were answered; the
    only answers that matter are those of the sealer. *)

Definition value_ok (k : string) (v : bytes) : Prop :=
  (forall f, k = head_key self f -> handle_named (from_bytes v))
  /\ (handle_named k -> forall r ms c s, reads RECORD_PURPOSE k v r -> state r = Rotated ms c s -> handle_named s).

Fixpoint writes_ok (e : eff) : Prop :=
  match e with
  | StoreCall (PutIfAbsent k v _) | StoreCall (CompareAndSwap k _ v _) => value_ok k v
  | Timeout _ e => writes_ok e
  | _ => True
  end.

(** What a sealer has sealed, it opens. *)
Fixpoint answers_ok (e : eff) : ans e -> Prop :=
  match e with
  | SealCall pt ad => fun r => forall env, r = Ok env ->
      unseal sealer env ad = Ok pt /\ from_utf8 (into_bytes env) = Some env
  | Timeout _ e => fun o => forall a, o = Some a -> answers_ok e a
  | _ => fun _ => True
  end.

Fixpoint links {A} (p : io A) (Q : A -> Prop) : Prop :=
  match p with
  | Ret a => Q a
  | Op e k => writes_ok e /\ forall a, answers_ok e a -> links (k a) Q
  end.

Lemma links_bind {A C} (p : io A) (f : A -> io C) Q R :
  links p Q -> (forall a, Q a -> links (f a) R) -> links (bind p f) R.
Proof. induction p as [a|e k IH]; simpl; [auto|]. intros [He Hk] Hf. split; [done|]. auto. Qed.

Lemma links_any {A C} (p : io A) (f : A -> io C) R :
  links p (fun _ => True) -> (forall a, links (f a) R) -> links (bind p f) R.
Proof. intros Hp Hf. eapply links_bind; [exact Hp|auto]. Qed.

Lemma links_bind_ok {A C X} (p : io (result A X)) (f : A -> io (result C X)) Q R :
  links p Q -> (forall a, Q (Ok a) -> links (f a) R) -> (forall e, R (Err e)) -> links (bind_ok p f) R.
Proof. intros Hp Hf He. eapply links_bind; [exact Hp|]. intros [a|e] Ha; [by apply Hf|apply He]. Qed.

Lemma links_any_ok {A C X} (p : io (result A X)) (f : A -> io (result C X)) :
  links p (fun _ => True) -> (forall a, links (f a) (fun _ => True)) -> links (bind_ok p f) (fun _ => True).
Proof. intros Hp Hf. eapply links_bind_ok; [exact Hp|auto|done]. Qed.

Lemma links_post {A} (p : io A) (Q R : A -> Prop) : (forall a, Q a -> R a) -> links p Q -> links p R.
Proof. intros HQ. induction p as [a|e k IH]; simpl; [auto|]. intros [He Hk]. split; [done|]. auto. Qed.

(** Applied, a call leaves the store chained. *)
Lemma chained_put w k v e : value_ok k v -> Chained w -> Chained (put w k v e).
Proof.
  intros [Hv1 Hv2] [Hh Hn]. split; simpl.
  - intros f v' e' [[Heq Hx]|[_ Hl]]%lookup_insert_Some; [simplify_eq; by eapply Hv1|by eapply Hh].
  - intros k' v' e' r ms c s Hk [[Heq Hx]|[_ Hl]]%lookup_insert_Some; [simplify_eq; by eapply Hv2|by eapply Hn].
Qed.

Lemma chained_store w w' : w_store w' = w_store w -> Chained w -> Chained w'.
Proof. intros Hs [Hh Hn]. split; rewrite Hs; [exact Hh|exact Hn]. Qed.

Lemma chained_spec w o a st' writes :
  writes_ok (StoreCall o) -> spec_step slack (w_backend w) (w_store w) o a st' -> Chained w ->
  Chained (set_store w st' writes).
Proof.
  intros Ho Hs Hc. assert (forall k v e, value_ok k v -> st' = <[k := (v, e)]> (w_store w) -> Chained (set_store w st' writes)) as Hput.
  { intros k v e Hv ->. by apply (chained_store (put w k v e)), chained_put. }
  destruct Hs; simpl in Ho; try (by apply (chained_store w)); eauto.
  destruct Hc as [Hh Hn]. split; simpl.
  - intros f v e [_ Hl]%lookup_delete_Some. by eapply Hh.
  - intros k' v e r ms c s Hk [_ Hl]%lookup_delete_Some. by eapply Hn.
Qed.

Lemma handled_ok j w e a w' :
  writes_ok e -> handle sealer slack j w e a w' -> (Chained w -> Chained w') /\ answers_ok e a.
Proof.
  revert a w'. induction e as [| | |n|o|pt ad|env ad|token|d e IH]; intros a w' Hw Hh; simpl in Hh |- *.
  all: try (by destruct Hh as [_ ->]).
  - destruct Hh as (t & _ & ->). split; [|done]. by apply chained_store.
  - destruct Hh as (_ & _ & ->). split; [|done]. by apply chained_store.
  - split; [|done]. intros Hc. destruct Hh as [r st' Hs|m|m r st' Hs]; [|done|]; by eapply chained_spec.
  - destruct Hh as [-> Ha]. split; [done|]. intros env ->. destruct Ha as [?|(nonce & Hn & Hs)]; [done|].
    split; [by eapply (opens_same _ _ (sealer_opens sealer))|]. apply from_utf8_into. by eapply sealer_text.
  - destruct Hh as [-> _]. by split.
  - rewrite Hh. split; [|done]. intros Hc. by eapply (chained_store w).
  - destruct a as [a|]; [|destruct Hh as [->|[a Ha]]].
    + destruct (IH _ _ Hw Hh) as [Hc Ha]. split; [done|]. by intros a' [= <-].
    + done.
    + destruct (IH _ _ Hw Ha) as [Hc _]. split; [done|]. by intros a'.
Qed.

Lemma links_safe j {A} (p : io A) Q w :
  links p Q -> safe (handle sealer slack j) (fun w w' => Chained w -> Chained w') (fun w w' => Chained w -> Chained w')
    p (fun _ _ => True) w.
Proof.
  revert w. induction p as [a|e k IH]; intros w Hp; simpl; [done|].
  intros w1 a w2 _ Hh. destruct Hp as [He Hk]. destruct (handled_ok _ _ _ _ _ He Hh) as [Hc Ha]. split; [done|].
  by apply IH, Hk.
Qed.

(** *** The rotator's programs *)

Lemma links_store o : writes_ok (StoreCall o) -> links (store o) (fun _ => True).
Proof. intros Ho. by split. Qed.

Lemma links_seal {T} {P : Postcard T} {PL : PostcardLaws T} purpose k (x : T) :
  links (seal_value self purpose k x) (fun r => forall v, r = Ok v -> reads purpose k v x).
Proof.
  unfold seal_value. destruct (to_stdvec x) as [pt|] eqn:Ept; simpl ok_or; cbn iota; [|by intros v].
  split; [done|]. intros [[env|e]|] Ha; simpl; intros v; [intros [= <-]|done..].
  destruct (Ha _ eq_refl env eq_refl) as [Hu Ht]. exists env, pt. split_and!; [done..|by apply from_to_postcard].
Qed.

Lemma links_seal_any {T} {P : Postcard T} {PL : PostcardLaws T} purpose k (x : T) :
  links (seal_value self purpose k x) (fun _ => True).
Proof. eapply links_post, links_seal. done. Qed.

Lemma links_open {T} {P : Postcard T} purpose k v : links (open_value (T := T) self purpose k v) (fun _ => True).
Proof. unfold open_value. destruct (ok_or _ _); [|done]. split; [done|]. by intros [[]|] _. Qed.

Lemma value_other k v :
  ~ handle_named k -> (forall f, k <> head_key self f) -> value_ok k v.
Proof. intros Hk Hh. split; [intros f Heq; by destruct (Hh f)|done]. Qed.

Lemma value_record k v r :
  reads RECORD_PURPOSE k v r -> (forall ms c s, state r = Rotated ms c s -> handle_named s) ->
  (forall f, k <> head_key self f) -> value_ok k v.
Proof.
  intros Hr Hs Hh. split; [intros f Heq; by destruct (Hh f)|]. intros _ r' ms c s Hr' Hst.
  rewrite (reads_fun _ _ _ _ _ Hr Hr') in Hs. by eapply Hs.
Qed.

Lemma value_head f k : handle_named k -> value_ok (head_key self f) (into_bytes k).
Proof.
  intros Hk. split; [by intros f' _; rewrite from_into_bytes|]. intros Hn. by apply head_neither in Hn.
Qed.

Lemma handle_not_head h f : handle_key self h <> head_key self f.
Proof. intros Heq. discriminate Heq. Qed.
Lemma grace_not_head k c f : grace_key self k c <> head_key self f.
Proof. intros Heq. discriminate Heq. Qed.

(** Programs put together from linked ones. *)
Ltac link :=
  repeat first
    [ done
    | apply links_open | apply links_seal_any
    | apply links_store; done
    | progress cbv zeta
    | apply links_any_ok; [|intros ?] | apply links_any; [|intros ?]
    | match goal with |- links (match ?x with _ => _ end) _ => destruct x end
    | (split; [done|intros ? _]) ].

Lemma links_load k : links (load self k) (fun _ => True).
Proof. unfold load. link. Qed.
Lemma links_load_grace k : links (load_grace_response self k) (fun _ => True).
Proof. unfold load_grace_response. link. Qed.
Lemma links_is_revoked f : links (is_revoked self f) (fun _ => True).
Proof. unfold is_revoked. link. Qed.

Lemma links_erase hops k : links (erase_from self hops k) (fun _ => True).
Proof.
  revert k. induction hops as [|hops IH]; intros k; cbn [erase_from]; [done|].
  apply links_any; [apply links_load|]. intros [[loaded|]|[]]; try done. by destruct (state (l_record loaded)).
Qed.

Lemma links_erase_available k : links (erase_tokens_if_sealer_available self k) (fun _ => True).
Proof. apply links_any; [apply links_erase|done]. Qed.

Lemma links_revoke f expires k : links (revoke self f expires k) (fun _ => True).
Proof.
  unfold revoke. apply links_any; [done|]. intros now. destruct (ttl_until _ _); [|done].
  apply links_any; [done|]. intros marker. apply links_any_ok.
  { apply links_store, value_other; [apply family_not_named|apply family_not_head]. }
  intros ?. apply links_any_ok; [by apply links_store|]. intros entry. apply links_any_ok.
  { destruct (_ ≫= _); [apply links_erase_available|done]. }
  intros ?. destruct (bool_decide _); [apply links_erase_available|done].
Qed.

Lemma links_discard keys : links (discard keys) (fun _ => True).
Proof. induction keys as [|k keys IH]; [done|]. apply links_any; [by apply links_store|]. by intros ?. Qed.

Section LinksKey.
Context (h : string).
Notation key := (handle_key self h).

(** A record is sealed for its own key and then written. *)
Lemma links_seal_put {C} (x : HandleRecord) (f : bytes -> io (result C Fault)) :
  (forall ms c s, state x = Rotated ms c s -> handle_named s) ->
  (forall v, value_ok key v -> links (f v) (fun _ => True)) ->
  links (v <-! seal_value self RECORD_PURPOSE key x ;; f v) (fun _ => True).
Proof.
  intros Hx Hf. eapply links_bind_ok; [apply links_seal| |done]. intros v Hv.
  apply Hf. eapply value_record; [by apply Hv|done|apply handle_not_head].
Qed.

Lemma links_claim loaded token : links (claim self key loaded token) (fun _ => True).
Proof.
  unfold claim. apply links_any; [done|]. intros now. destruct (ttl_until _ _); [|done].
  apply links_any; [done|]. intros id. apply links_seal_put; [done|]. intros v Hv.
  apply links_any_ok; [by apply links_store|done].
Qed.

Lemma links_release c : links (release self key c) (fun _ => True).
Proof.
  unfold release. eapply links_bind; [apply links_seal|]. intros released Hv. apply links_any; [done|]. intros now.
  destruct (ttl_until _ _); [|done]. destruct released as [v|]; [|done].
  apply links_any; [|done]. apply links_store. eapply value_record; [by apply Hv|done|apply handle_not_head].
Qed.

Lemma links_prepare c h' token response now grace_ttl family_ttl :
  links (prepare self key c (grace_key self key (c_claim_id c)) (handle_key self h') token response now grace_ttl family_ttl)
    (fun r => forall v, r = Ok v -> value_ok key v).
Proof.
  unfold prepare. eapply links_bind_ok; [apply links_seal_any| |done]. intros v _.
  eapply links_bind_ok; [| |done].
  { apply links_store, value_other; [|apply grace_not_head]. intros Hk. eapply handle_not_grace; [exact Hk|by eexists _, _]. }
  intros [] _; cbn [negb]; [|by intros v']. eapply links_bind_ok; [apply links_seal| |done]. intros v1 Hv1.
  eapply links_bind_ok; [| |done].
  { apply links_store. eapply value_record; [by apply Hv1|done|apply handle_not_head]. }
  intros [] _; cbn [negb]; [|by intros v']. eapply links_post; [|apply links_seal]. intros r Hr v2 ->.
  eapply value_record; [by apply Hr| |apply handle_not_head]. intros ms c' s [= _ _ <-]. apply handle_key_named.
Qed.

Lemma links_commit c h' token response : links (commit self key c h' token response) (fun _ => True).
Proof.
  unfold commit. apply links_any; [done|]. intros now. destruct (ttl_until _ _); [|done]. cbv zeta.
  eapply links_bind; [apply links_prepare|]. intros [v|fault] Hv.
  - apply links_any_ok; [by apply links_store, Hv|]. intros [].
    + apply links_any; [|done]. apply links_store, value_head, handle_key_named.
    + apply links_any; [apply links_discard|done].
  - apply links_any; [apply links_discard|]. intros ?. by apply links_any; [apply links_release|].
Qed.

Lemma links_rotate c response : links (rotate self key c response) (fun _ => True).
Proof.
  unfold rotate. cbv zeta. apply links_any; [done|]. intros h'. destruct (with_refresh_token _ _ h').
  - apply links_any_ok; [apply links_commit|]. intros done'. apply links_any_ok; [apply links_is_revoked|].
    intros revoked. by destruct done', revoked.
  - by apply links_any; [apply links_release|].
Qed.

Lemma links_perform c : links (perform self key c) (fun _ => True).
Proof.
  unfold perform. apply links_any; [by split; [|intros []]|]. intros [response|failure].
  - destruct (is_invalid_grant response); [by apply links_any_ok; [apply links_revoke|]|].
    destruct (negb _); [by apply links_any; [apply links_release|]|apply links_rotate].
  - by apply links_any; [apply links_release|].
Qed.

Lemma links_claim_and_perform loaded token : links (claim_and_perform self key loaded token) (fun _ => True).
Proof.
  unfold claim_and_perform. apply links_any; [apply links_claim|]. intros [[c|]|]; try done.
  by apply links_any; [apply links_perform|].
Qed.

Lemma links_poll fuel started : links (poll self fuel key started) (fun _ => True).
Proof.
  induction fuel as [|fuel IH]; cbn [poll]; [done|]. apply links_any.
  - unfold poll_once. apply links_any; [apply links_load|]. intros [[loaded|]|]; try done.
    apply links_any; [done|]. intros now. destruct (_ <=? now)%Z; [done|].
    apply links_any; [apply links_is_revoked|]. intros [[]|]; try done. unfold handle_state.
    destruct (state (l_record loaded)).
    + apply links_claim_and_perform.
    + destruct (_ <? _)%Z; [apply links_claim_and_perform|done].
    + destruct (_ <=? _)%Z; [by apply links_any; [apply links_load_grace|]|].
      apply links_any; [|done]. by apply links_any_ok; [apply links_revoke|].
  - intros [r|]; [done|]. apply links_any; [done|]. intros now. destruct (_ <=? _)%Z; [done|].
    apply links_any; [done|]. by intros ?.
Qed.

Lemma links_create_family token : links (create_family self h token) (fun _ => True).
Proof.
  unfold create_family. apply links_any; [done|]. intros now. cbv zeta. destruct (ok_or _ _); [|done].
  apply links_any; [done|]. intros family. apply links_seal_put; [done|]. intros v Hv.
  apply links_any_ok; [by apply links_store|]. intros []; cbn [negb]; [|done].
  apply links_any_ok; [|done]. apply links_store, value_head, handle_key_named.
Qed.
End LinksKey.

Lemma links_serve q : links (serve self q) (fun _ => True).
Proof.
  destruct q as [presented|response]; cbn [serve]; apply links_any; try done.
  - unfold refresh. destruct (strip_prefix HANDLE_PREFIX presented).
    + apply links_any; [|done]. unfold refresh_sealed_handle. apply links_any.
      { unfold open_handle. destruct (ok_or _ _); [|done]. by split; [|intros []]. }
      intros [[opened|[]]|]; try done. cbv zeta. apply links_any; [done|]. intros now. destruct (_ <=? now)%Z; [done|].
      apply links_any; [by split; [|intros []]|]. intros [answer|failure]; [|done].
      destruct (is_invalid_grant answer); [done|]. destruct (negb _); [done|]. cbv zeta.
      apply links_any; [done|]. intros h. destruct (with_refresh_token _ _ h); [|done].
      by apply links_any_ok; [apply links_create_family|].
    + destruct (valid_handle_shape presented); [|done]. apply links_any; [|done].
      unfold refresh_rotating. apply links_any; [done|]. intros started. apply links_poll.
  - unfold issue_in_response. destruct (upstream_refresh_token _ _); [|done].
    apply links_any_ok; [|done]. unfold issue. apply links_any; [done|]. intros h.
    by apply links_any; [apply links_create_family|].
Qed.

(** In every state that requests reach from an empty store, the store is chained. *)
Lemma reaches_chained w0 qs w ts :
  empty_world self w0 -> reaches sealer slack self w0 qs w ts -> Chained w.
Proof.
  intros (_ & _ & Hempty) Hr.
  pose (keep := fun (_ : nat) w w' => Chained w -> Chained w').
  assert (forall i, PreOrder (keep i)) as Hpre.
  { intros ?. split; [by intros ? ?|intros w1 w2 w3 H1 H2 Hc; by apply H2, H1]. }
  assert (forall w w', env_step (ours self) w w' -> Chained w -> Chained w') as Henv.
  { intros w1 w2 (_ & _ & _ & _ & _ & Hs) [Hh Hn]. split.
    - intros f v e Hl. rewrite Hs in Hl; [by eapply Hh|by eexists _, _].
    - intros k v e r ms c s Hk Hl. rewrite Hs in Hl; [by eapply Hn|by apply handle_key_ours]. }
  eapply (tasks_keep (handle sealer slack) (env_step (ours self)) keep keep (fun _ _ _ => True) Chained (w0, serve self <$> qs) (w, ts));
    [by intros|exact (fun _ => Henv)|exact (fun _ _ _ Hk => Hk)|exact Henv|exact Hr|..].
  - intros j p Hp. simpl in *. apply list_lookup_fmap_Some in Hp as (q & -> & _). apply links_safe with (Q := fun _ => True), links_serve.
  - split; simpl; intros *.
    + rewrite Hempty by (by eexists _, _). done.
    + intros Hk. by rewrite Hempty by by apply handle_key_ours.
Qed.

(** What erasing leaves alone. *)
Definition erased_only (f : bytes) (w w' : World) : Prop :=
  live_at w' (family_key self f) = live_at w (family_key self f)
  /\ w_asked w' = w_asked w /\ Chained w'.

Lemma erased_drop f w k : handle_named k -> Chained w -> erased_only f w (drop_key w k).
Proof.
  intros Hk [Hh Hn]. split_and!; [|done|split].
  - simpl. rewrite live_delete. case_bool_decide as Heq; [|done]. subst. by apply family_not_named in Hk.
  - simpl. intros f' v e [_ Hl]%lookup_delete_Some. by eapply Hh.
  - simpl. intros k' v e r ms c s' Hk' [_ Hl]%lookup_delete_Some. by eapply Hn.
Qed.

Lemma erased_trans f w w1 w2 : erased_only f w w1 -> erased_only f w1 w2 -> erased_only f w w2.
Proof. intros (H1 & H2 & _) (H3 & H4 & H5). split_and!; [congruence..|done]. Qed.

Lemma wp_erase f hops k w :
  handle_named k -> Chained w -> wp (erase_from self hops k) (fun _ w' => erased_only f w w') w.
Proof.
  revert k. induction hops as [|hops IH]; intros k Hk Hc; cbn [erase_from]; [by apply wp_ret|].
  assert (Hdel : wp (store (Delete k)) (fun _ w' => erased_only f w w') w).
  { apply wp_delete; [by intros _|]. intros _. by apply erased_drop. }
  apply wp_bind, wp_load.
  - intros [] _; try exact Hdel; by apply wp_ret.
  - intros v e _ _ []; try exact Hdel; by apply wp_ret.
  - intros _. by apply wp_ret.
  - intros v e r Hl Hr. cbn [l_record]. destruct (state r) as [t|t c ms|ms c s] eqn:Es; [done..|].
    apply live_Some in Hl as [Hl _]. apply IH; [by eapply chained_next|done].
Qed.

Lemma wp_erase_available f k w :
  handle_named k -> Chained w ->
  wp (erase_tokens_if_sealer_available self k) (fun _ w' => erased_only f w w') w.
Proof.
  intros Hk Hc. apply wp_bind. eapply wp_mono; [by apply (wp_erase f MAX_ERASE_HOPS)|].
  intros r w' He. by apply wp_ret.
Qed.

Lemma chained_mark w f v e : Chained w -> Chained (put w (family_key self f) v e).
Proof.
  intros [Hh Hn]. split; simpl.
  - intros f' v' e' [[Heq _]|[_ Hl]]%lookup_insert_Some; [by apply family_not_head in Heq|by eapply Hh].
  - intros k v' e' r ms c s Hk [[Heq _]|[_ Hl]]%lookup_insert_Some; [|by eapply Hn].
    subst. by apply family_not_named in Hk.
Qed.

(** The reads and deletions after the marker. *)
Lemma wp_revoke_rest f known w :
  handle_named known -> Chained w ->
  wp (entry <-! store (Get (head_key self f)) ;;
      let head := entry ← entry; from_utf8 (value entry) in
      _ <-! match head with
            | Some head => erase_tokens_if_sealer_available self head
            | None => Ret (Ok tt)
            end ;;
      if bool_decide (head <> Some known) then erase_tokens_if_sealer_available self known
      else Ret (Ok tt)) (fun _ w' => erased_only f w w') w.
Proof.
  intros Hk Hc. apply wp_bind_ok, wp_get; [by intros|]. intros entry He.
  assert (Hrest : forall w1 b, erased_only f w w1 ->
    wp (if b : bool then erase_tokens_if_sealer_available self known else Ret (Ok tt))
      (fun _ w' => erased_only f w w') w1).
  { intros w1 [] H1; [|by apply wp_ret]. eapply wp_mono; [apply (wp_erase_available f); [done|apply H1]|].
    intros r w' H2. by eapply erased_trans. }
  apply wp_bind_ok. cbv zeta.
  destruct (entry ← entry; from_utf8 (value entry)) as [head|] eqn:Eh.
  2: { by apply wp_ret, Hrest. }
  apply bind_Some in Eh as (x & -> & Hhead).
  eapply wp_mono; [apply (wp_erase_available f)|].
  - destruct (live_at w _) as [[v e]|] eqn:El; simpl in He; [|done].
    destruct He as (left & [= ->] & _). apply live_Some in El as [El _].
    apply from_utf8_Some in Hhead as ->. by eapply chained_head.
  - done.
  - intros [[]|f'] w1 H1; [by apply Hrest|done].
Qed.

(** [revoke] leaves the marker, unless the store fails. *)
Lemma wp_revoke f expires known w :
  handle_named known -> Chained w -> (w_unix w < expires)%Z ->
  wp (revoke self f expires known) (fun r w' =>
    w_asked w' = w_asked w /\ (revoked_in w' f \/ exists e, r = Err e /\ outage e)) w.
Proof.
  intros Hk Hc Hx. apply wp_bind, wp_now. unfold ttl_until. rewrite (proj2 (Z.ltb_lt _ _) Hx).
  apply wp_bind, wp_random. intros marker Hm.
  assert (Hgo : forall w1, Chained w1 -> w_asked w1 = w_asked w -> revoked_in w1 f ->
    forall w', erased_only f w1 w' -> w_asked w' = w_asked w /\ revoked_in w' f).
  { intros w1 _ Ha Hr w' (Hl & Ha' & _). split; [congruence|]. unfold revoked_in. by rewrite Hl. }
  assert (Hc' : Chained (draw w i marker)) by by destruct Hc.
  apply wp_bind_ok, wp_put.
  - intros e He. split; [done|]. right. by exists e.
  - intros Hl. eapply wp_mono; [by apply wp_revoke_rest|]. intros r w' He.
    destruct (Hgo (draw w i marker) Hc' eq_refl Hl w' He). eauto.
  - intros e Hl He. split; [|intros m; split; [done|]; right; by exists (FaultStore m)].
    assert (Hmark : revoked_in (put (draw w i marker) (family_key self f) marker e) f).
    { unfold revoked_in. simpl. rewrite live_insert, bool_decide_eq_true_2 by done. simpl.
      rewrite (proj2 (Z.ltb_lt _ _)); [eauto|]. unfold from_millis in He. simpl in He. lia. }
    pose proof (chained_mark _ f marker e Hc') as Hc1.
    eapply wp_mono; [by apply wp_revoke_rest|]. intros r w' Her.
    destruct (Hgo _ Hc1 eq_refl Hmark w' Her). eauto.
Qed.

Lemma poll_reuse h r ms c s n started w :
  record_at w (handle_key self h) r -> state r = Rotated ms c s ->
  (cast_u64 (as_millis (grace self)) < saturating_sub (w_unix w) ms)%Z ->
  (w_unix w < family_expires_ms r)%Z -> Chained w ->
  wp (poll self (Datatypes.S n) (handle_key self h) started) (fun o w' => w_asked w' = w_asked w
    /\ (forall resp, outcome_of <$> o <> Some (Response resp))
    /\ (outcome_of <$> o = Some InvalidGrant -> revoked_in w' (family_id r))) w.
Proof.
  intros Hr Hs Hg Hx Hc. apply wp_bind. apply (wp_poll_once _ r); [done|..].
  - intros f Hf. apply wp_ret. split_and!; [done|by destruct f|].
    intros [= Heq]. by apply outage_not_invalid in Hf.
  - intros [Hd|Hrev]; [lia|]. by apply wp_ret.
  - intros v e _ _ _ _. unfold handle_state. cbn [l_record]. rewrite Hs.
    rewrite (proj2 (Z.leb_gt _ _) Hg).
    apply wp_bind, wp_bind_ok. eapply wp_mono; [apply wp_revoke; [apply handle_key_named|done|done]|].
    intros [[]|f] w' [Ha Hrev].
    + do 3 apply wp_ret. split_and!; [done|done|]. by destruct Hrev as [|(? & ? & ?)].
    + do 2 apply wp_ret. split_and!; [done|by destruct f|]. intros [= Heq].
      destruct Hrev as [|(? & [= <-] & Ho)]; [done|]. by apply outage_not_invalid in Ho.
Qed.

(** ** Programs that ask nothing of the upstream *)

Fixpoint silent_eff (e : eff) : bool :=
  match e with RefreshCall _ => false | Timeout _ e => silent_eff e | _ => true end.

Fixpoint silent {A} (p : io A) : Prop :=
  match p with
  | Ret _ => True
  | Op e k => silent_eff e = true /\ forall a, silent (k a)
  end.

Lemma silent_handle w e a w' :
  silent_eff e = true -> handle sealer slack i w e a w' -> w_asked w' = w_asked w.
Proof.
  revert a w'. induction e as [| | | |o| | | |d e IH]; simpl; intros a w' Hs Hh; try done.
  - by destruct Hh as [_ ->].
  - by destruct Hh as [_ ->].
  - by destruct Hh as (t & _ & ->).
  - by destruct Hh as (_ & _ & ->).
  - by destruct Hh.
  - by destruct Hh as [-> _].
  - by destruct Hh as [-> _].
  - destruct a as [a|]; [by eapply IH|]. destruct Hh as [->|[a Hh]]; [done|by eapply IH].
Qed.

Lemma wp_silent {A} (p : io A) w : silent p -> wp p (fun _ w' => w_asked w' = w_asked w) w.
Proof.
  intros Hp a w'. revert w Hp. induction p as [b|e k IH]; simpl; intros w Hp Ho.
  - by destruct Ho as [_ ->].
  - destruct Hp as [He Hk], Ho as (b & w1 & Hh & Ho). apply silent_handle in Hh; [|done].
    rewrite <- Hh. by eapply IH.
Qed.

Lemma silent_bind {A C} (p : io A) (f : A -> io C) :
  silent p -> (forall a, silent (f a)) -> silent (bind p f).
Proof. induction p as [a|e k IH]; simpl; [auto|]. intros [He Hk] Hf. split; [done|]. auto. Qed.

Lemma silent_bind_ok {A C X} (p : io (result A X)) (f : A -> io (result C X)) :
  silent p -> (forall a, silent (f a)) -> silent (bind_ok p f).
Proof. intros Hp Hf. apply silent_bind; [done|]. by intros []. Qed.

Lemma silent_seal {T} {P : Postcard T} purpose k (x : T) : silent (seal_value self purpose k x).
Proof. unfold seal_value. destruct (ok_or _ _); [|done]. simpl. split; [done|]. by intros []. Qed.

Lemma silent_store o : silent (store o).
Proof. done. Qed.

Lemma silent_release key c : silent (release self key c).
Proof.
  apply silent_bind; [apply silent_seal|]. intros rel. apply silent_bind; [done|]. intros now.
  destruct (ttl_until (c_family_expires_ms c) now); [|done]. by destruct rel.
Qed.

Lemma silent_discard ks : silent (discard ks).
Proof. induction ks as [|k ks IH]; [done|]. by apply silent_bind; [apply silent_store|]. Qed.

Lemma silent_open {T} {P : Postcard T} purpose k v : silent (open_value self purpose k v : io (result T Fault)).
Proof. unfold open_value. destruct (ok_or _ _); [|done]. simpl. split; [done|]. by intros []. Qed.

Lemma silent_load k : silent (load self k).
Proof.
  apply silent_bind_ok; [apply silent_store|]. intros [entry|]; [|done].
  by apply silent_bind_ok; [apply silent_open|].
Qed.

Lemma silent_load_grace k : silent (load_grace_response self k).
Proof.
  apply silent_bind_ok; [apply silent_store|]. intros [entry|]; [|done].
  by apply silent_bind_ok; [apply silent_open|].
Qed.

Lemma silent_is_revoked f : silent (is_revoked self f).
Proof. by apply silent_bind_ok; [apply silent_store|]. Qed.

Lemma silent_erase hops k : silent (erase_from self hops k).
Proof.
  revert k. induction hops as [|hops IH]; intros k; [done|].
  apply silent_bind; [apply silent_load|]. intros [[l|]|f]; [|done|].
  - by destruct (state (l_record l)).
  - by destruct f.
Qed.

Lemma silent_revoke f x k : silent (revoke self f x k).
Proof.
  apply silent_bind; [done|]. intros now. destruct (ttl_until x now); [|done].
  apply silent_bind; [done|]. intros marker.
  assert (forall k', silent (erase_tokens_if_sealer_available self k')) as He.
  { intros k'. by apply silent_bind; [apply silent_erase|]. }
  apply silent_bind_ok; [apply silent_store|]. intros _.
  apply silent_bind_ok; [apply silent_store|]. intros entry. cbv zeta.
  apply silent_bind_ok; [by destruct (_ ← _; _)|]. intros _. by destruct (bool_decide _).
Qed.

Lemma silent_commit key c s t resp : silent (commit self key c s t resp).
Proof.
  apply silent_bind; [done|]. intros now. destruct (ttl_until (c_family_expires_ms c) now); [|done]. cbv zeta.
  apply silent_bind.
  - apply silent_bind_ok; [apply silent_seal|]. intros v.
    apply silent_bind_ok; [apply silent_store|]. intros []; [|done].
    apply silent_bind_ok; [apply silent_seal|]. intros v'.
    apply silent_bind_ok; [apply silent_store|]. intros []; [|done]. apply silent_seal.
  - intros [rot|f].
    + apply silent_bind_ok; [apply silent_store|]. intros [].
      * by apply silent_bind; [apply silent_store|].
      * by apply silent_bind; [apply silent_discard|].
    + apply silent_bind; [apply silent_discard|]. intros _.
      by apply silent_bind; [apply silent_release|].
Qed.

Lemma silent_rotate key c resp : silent (rotate self key c resp).
Proof.
  unfold rotate. cbv zeta. apply silent_bind; [done|]. intros h.
  destruct (with_refresh_token _ _ _).
  - apply silent_bind_ok; [apply silent_commit|]. intros co.
    apply silent_bind_ok; [apply silent_is_revoked|]. intros rev.
    destruct co, rev; [by apply silent_bind; [apply silent_discard|]|done..].
  - by apply silent_bind; [apply silent_release|].
Qed.

(** ** One rotation *)

Lemma wp_any {A} (p : io A) (Q : A -> World -> Prop) w : (forall a w', Q a w') -> wp p Q w.
Proof. intros HQ a w' _. apply HQ. Qed.

Lemma ttl_positive x now ttl : ttl_until x now = Some ttl -> (0 < ttl)%Z.
Proof.
  unfold ttl_until, from_millis. destruct (_ <? _)%Z eqn:E; [|done]. apply Z.ltb_lt in E.
  intros [= <-]. lia.
Qed.

Lemma live_put w k v e k' :
  k <> k' -> live_at (put w k v e) k' = live_at w k'.
Proof. intros Hk. simpl. rewrite live_insert. by rewrite bool_decide_eq_false_2. Qed.

Lemma record_put w k v e r :
  (w_backend w < e)%Z -> reads RECORD_PURPOSE k v r -> record_at (put w k v e) k r.
Proof.
  intros He Hr. exists v, e. split; [|done]. simpl. rewrite live_insert, bool_decide_eq_true_2 by done.
  simpl. by rewrite (proj2 (Z.ltb_lt _ _) He).
Qed.

Lemma record_put_ne w k v e k' r : k <> k' -> record_at w k' r -> record_at (put w k v e) k' r.
Proof. intros Hk (v' & e' & Hl & Hr). exists v', e'. by rewrite live_put. Qed.

Lemma grace_not_handle k c h : grace_key self k c <> handle_key self h.
Proof. intros Heq. discriminate Heq. Qed.
Lemma head_not_handle f h : head_key self f <> handle_key self h.
Proof. intros Heq. discriminate Heq. Qed.

(** The writes before the final swap leave the handle's record, and a record for the successor. *)
Lemma wp_prepare h c cid s t resp now gttl fttl w :
  is_Some (live_at w (handle_key self h)) -> (0 < fttl)%Z ->
  wp (prepare self (handle_key self h) c (grace_key self (handle_key self h) cid) (handle_key self s)
        t resp now gttl fttl)
    (fun r w' => forall rot, r = Ok rot ->
       handle_key self s <> handle_key self h
       /\ record_at w' (handle_key self s) (claim_record c (Active t))
       /\ reads RECORD_PURPOSE (handle_key self h) rot
            (claim_record c (Rotated now (c_claim_id c) (handle_key self s)))) w.
Proof.
  intros Hl Ht. unfold prepare.
  apply wp_bind_ok, wp_seal; [by intros f rot|]. intros v1 _.
  apply wp_bind_ok, wp_put; [by intros f _ rot|by intros _; apply wp_ret|].
  intros e1 _ _. split; [|by intros m rot]. cbn [negb].
  assert (Hl1 : is_Some (live_at (put w (grace_key self (handle_key self h) cid) v1 e1) (handle_key self h))).
  { rewrite live_put; [done|apply grace_not_handle]. }
  set (w1 := put _ _ _ _) in *. apply wp_bind_ok, wp_seal; [by intros f rot|]. intros v2 Hv2.
  apply wp_bind_ok, wp_put; [by intros f _ rot|by intros _; apply wp_ret|].
  intros e2 Hnone He2. split; [|by intros m rot]. cbn [negb].
  apply wp_seal; [by intros f rot|]. intros v3 Hv3 rot [= <-]. split_and!.
  - intros Heq. rewrite Heq, Hnone in *. by destruct Hl1.
  - apply record_put; [lia|done].
  - done.
Qed.

Definition moved (w : World) (h s : string) (c : Claim) (t : string) : Prop :=
  record_at w (handle_key self s) (claim_record c (Active t))
  /\ exists ms, record_at w (handle_key self h) (claim_record c (Rotated ms (c_claim_id c) (handle_key self s))).

Lemma moved_put w h s c t f v e : moved w h s c t -> moved (put w (head_key self f) v e) h s c t.
Proof.
  intros (H1 & ms & H2). split; [|exists ms]; (apply record_put_ne; [apply head_not_handle|done]).
Qed.

Lemma wp_commit h c s t resp w :
  is_Some (live_at w (handle_key self h)) ->
  wp (commit self (handle_key self h) c s t resp)
    (fun r w' => r = Ok CommitRotated -> moved w' h s c t) w.
Proof.
  intros Hl. apply wp_bind, wp_now. destruct (ttl_until _ _) as [ttl|] eqn:Et; [|by apply wp_ret].
  apply ttl_positive in Et. cbv zeta. apply wp_bind. eapply wp_mono; [by apply wp_prepare|].
  intros [rot|f] w1 Hrot.
  - destruct (Hrot rot eq_refl) as (Hne & Hs & Hr). apply wp_bind_ok, wp_swap; [done| |].
    { intros _. by apply wp_bind, wp_any; intros; apply wp_ret. }
    intros e e0 _ He. split; [|done].
    assert (moved (put w1 (handle_key self h) rot e) h s c t) as Hm.
    { split; [by apply record_put_ne|]. eexists. by apply record_put; [lia|]. }
    set (w2 := put _ _ _ _) in *. apply wp_bind, wp_swap; [by intros; apply wp_ret..|].
    intros e1 e2 _ _. split; [|intros m]; by apply wp_ret; intros _; apply moved_put.
  - apply wp_bind, wp_any. intros _ w2. by apply wp_bind, wp_any; intros _ w3; apply wp_ret.
Qed.

(** The handle [h] of claim [c] has been replaced by the one in [resp]: the family goes on with
    the token the upstream's answer names, or the old one when it names none. *)
Definition succession (w : World) (h : string) (family : bytes) (expires : Z) (t : string)
    (resp : StoredResponse) : Prop :=
  exists answer b ms cid, is_success answer = true /\ status resp = status answer
    /\ with_refresh_token (status answer) (body answer) (handle_of b) = Some (body resp)
    /\ record_at w (handle_key self (handle_of b))
         {| family_id := family; family_expires_ms := expires;
            state := Active (default t (upstream_refresh_token (status answer) (body answer))) |}
    /\ record_at w (handle_key self h)
         {| family_id := family; family_expires_ms := expires;
            state := Rotated ms cid (handle_key self (handle_of b)) |}.

Lemma wp_rotate h c answer w :
  is_Some (live_at w (handle_key self h)) -> is_success answer = true ->
  wp (rotate self (handle_key self h) c answer) (fun r w' => forall resp, r = Ok (Response resp) ->
    succession w' h (c_family_id c) (c_family_expires_ms c) (c_upstream_token c) resp) w.
Proof.
  intros Hl Hs. unfold rotate. cbv zeta. apply wp_bind, wp_bind, wp_random. intros b _.
  apply wp_ret. destruct (with_refresh_token _ _ _) as [payload|] eqn:Ew.
  2: { by apply wp_bind, wp_any; intros; apply wp_ret. }
  apply wp_bind_ok. eapply wp_mono; [by apply wp_commit|]. intros [co|f] w1 Hm; [|done].
  apply wp_bind_ok, wp_is_revoked; [done|intros _..].
  - destruct co; [by apply wp_bind, wp_any; intros; apply wp_ret|by apply wp_ret].
  - destruct co; apply wp_ret; [|done]. intros resp [= <-].
    destruct (Hm eq_refl) as (H1 & ms & H2). by exists answer, b, ms, (c_claim_id c).
Qed.

(** What a refresh of [h], whose record holds [t], may have done. *)
Definition refreshed (w0 : World) (h : string) (r : HandleRecord) (t : string)
    (o : option RefreshOutcome) (w : World) : Prop :=
  (w_asked w = w_asked w0 \/ w_asked w = w_asked w0 ++ [t])%list
  /\ forall resp, o = Some (Response resp) -> is_success resp = true ->
       w_asked w = (w_asked w0 ++ [t])%list
       /\ succession w h (family_id r) (family_expires_ms r) t resp.

Lemma refreshed_silent w0 h r t o w :
  w_asked w = w_asked w0 -> (forall resp, o = Some (Response resp) -> is_success resp = false) ->
  refreshed w0 h r t o w.
Proof. intros Ha Ho. split; [by left|]. intros resp Hr Hs. rewrite (Ho _ Hr) in Hs. done. Qed.

Lemma refreshed_asked w0 h r t o w :
  w_asked w = (w_asked w0 ++ [t])%list ->
  (forall resp, o = Some (Response resp) -> is_success resp = true ->
     succession w h (family_id r) (family_expires_ms r) t resp) -> refreshed w0 h r t o w.
Proof. intros Ha Ho. split; [by right|]. auto. Qed.

Lemma wp_perform h c w :
  is_Some (live_at w (handle_key self h)) ->
  wp (perform self (handle_key self h) c)
    (fun r w' => refreshed w h (claim_record c (Active "")) (c_upstream_token c) (Some (outcome_of r)) w') w.
Proof.
  intros Hl. unfold perform, ask_upstream. set (t := c_upstream_token c).
  assert (Hfail : forall f w1, w_asked w1 = w_asked w \/ w_asked w1 = (w_asked w ++ [t])%list ->
    wp (_ <- release self (handle_key self h) c ;; Ret (Ok (UpstreamFailed f)))
      (fun r w' => refreshed w h (claim_record c (Active "")) t (Some (outcome_of r)) w') w1).
  { intros f w1 Ha. apply wp_bind. eapply wp_mono; [apply wp_silent, silent_release|].
    intros [] w2 Heq. apply wp_ret. split; [|done]. by rewrite Heq. }
  apply wp_bind, wp_bind, wp_timeout. intros o w1 Hh. apply wp_ret.
  destruct o as [[answer|f]|]; simpl in Hh.
  2: { subst. apply Hfail. by right. }
  2: { apply Hfail. destruct Hh as [->|[_ ->]]; [by left|by right]. }
  subst w1. destruct (is_invalid_grant answer) eqn:Eg.
  - apply wp_bind_ok. eapply wp_mono; [apply wp_silent, silent_revoke|].
    intros [[]|f] w1 Ha; [apply wp_ret|]; (apply refreshed_asked; [done|]).
    + intros resp [= <-] Hs. apply invalid_grant_fails in Eg. congruence.
    + intros resp Ho. by destruct f.
  - destruct (is_success answer) eqn:Es; cbn [negb].
    + eapply wp_mono; [apply wp_and; [apply wp_silent, silent_rotate|by apply wp_rotate]|].
      intros r w1 [Ha Hr]. apply refreshed_asked; [done|]. intros resp [= Ho] _.
      destruct r as [x|[]]; simpl in Ho; subst; try done. by apply Hr.
    + apply wp_bind. eapply wp_mono; [apply wp_silent, silent_release|].
      intros [] w1 Ha. apply wp_ret, refreshed_asked; [done|]. intros resp [= <-]. congruence.
Qed.

(** ** The whole request *)

(** What [record_at] and the log of asked tokens depend on. *)
Definition same_store (w w' : World) : Prop :=
  w_store w' = w_store w /\ w_backend w' = w_backend w /\ w_asked w' = w_asked w.

Lemma same_store_record w w' k r : same_store w w' -> record_at w k r -> record_at w' k r.
Proof. intros (Hs & Hb & _) (v & e & Hl & Hr). exists v, e. by rewrite Hs, Hb. Qed.

(** A claim that is lost to another request, or to the family's expiry, leaves the store as it
    is. *)
Lemma wp_claim h loaded t w :
  wp (claim self (handle_key self h) loaded t) (fun o w' => w_asked w' = w_asked w /\
    match o with
    | Ok None => same_store w w'
    | Ok (Some c) => is_Some (live_at w' (handle_key self h)) /\ c_upstream_token c = t
        /\ c_family_id c = family_id (l_record loaded)
        /\ c_family_expires_ms c = family_expires_ms (l_record loaded)
    | Err _ => True
    end) w.
Proof.
  unfold claim. cbv zeta. apply wp_bind, wp_now.
  destruct (ttl_until _ _) as [ttl|] eqn:Et; [|by apply wp_ret].
  apply ttl_positive in Et. apply wp_bind, wp_random. intros cid _.
  apply wp_bind_ok, wp_seal; [done|]. intros v Hv. apply wp_bind_ok, wp_swap; [done|by intros; apply wp_ret|].
  intros e e0 _ He. split; [|done]. apply wp_ret. split_and!; try done.
  simpl. rewrite live_insert, bool_decide_eq_true_2 by done. simpl in *.
  rewrite (proj2 (Z.ltb_lt _ _)); [by eexists|lia].
Qed.

(** One pass over a record that holds the token [t]: an answer, or another pass over the same
    store. *)
Lemma wp_pass h r t (w : World) :
  record_at w (handle_key self h) r ->
  state r = Active t \/ (exists c ms, state r = Claimed t c ms) ->
  wp (poll_once self (handle_key self h)) (fun o w' =>
    match o with
    | Some r' => refreshed w h r t (Some (outcome_of r')) w'
    | None => same_store w w'
    end) w.
Proof.
  intros Hr Ht. apply (wp_poll_once _ r); [done|..].
  - intros f _. apply refreshed_silent; [done|]. by destruct f.
  - intros _. by apply refreshed_silent.
  - intros v e _ _ _ _.
    assert (Hclaim : wp (claim_and_perform self (handle_key self h) {| l_bytes := v; l_record := r |} t)
      (fun o w' => match o with Some r' => refreshed w h r t (Some (outcome_of r')) w' | None => same_store w w' end) w).
    { apply wp_bind. eapply wp_mono; [apply wp_claim|]. intros [[c|]|f] w1 [Ha Hc].
      - destruct Hc as (Hl & Hct & Hcf & Hcx). apply wp_bind.
        eapply wp_mono; [by apply wp_perform|]. intros x w2 [Hask Hresp]. apply wp_ret.
        rewrite Hct, Ha in *. split; [done|]. intros resp Ho Hs. destruct (Hresp resp Ho Hs) as [? Hsucc].
        split; [done|]. simpl in Hsucc. by rewrite Hcf, Hcx in Hsucc.
      - by apply wp_ret.
      - apply wp_ret, refreshed_silent; [done|]. by destruct f. }
    unfold handle_state. cbn [l_record]. destruct Ht as [->|(c & ms & ->)]; [done|].
    destruct (_ <? _)%Z; [done|by apply wp_ret].
Qed.

Lemma wp_poll h r t fuel started w0 w :
  same_store w0 w -> record_at w0 (handle_key self h) r ->
  state r = Active t \/ (exists c ms, state r = Claimed t c ms) ->
  wp (poll self fuel (handle_key self h) started)
    (fun o w' => refreshed w0 h r t (outcome_of <$> o) w') w.
Proof.
  intros Hw Hr Ht. revert w Hw. induction fuel as [|fuel IH]; intros w Hw; cbn [poll].
  { apply wp_ret, refreshed_silent; [by destruct Hw as (_ & _ & ?)|done]. }
  apply wp_bind. eapply wp_mono; [by apply (wp_pass h r t); [eapply same_store_record|]|].
  intros [r'|] w1 Ho.
  - apply wp_ret. destruct Hw as (_ & _ & Hw). unfold refreshed in *. by rewrite Hw in Ho.
  - assert (same_store w0 w1) as Hw1.
    { destruct Hw as (? & ? & ?), Ho as (? & ? & ?). split_and!; congruence. }
    apply wp_bind, wp_instant. destruct (_ <=? _)%Z.
    + apply wp_ret, refreshed_silent; [by destruct Hw1 as (_ & _ & ?)|done].
    + apply wp_bind, wp_sleep. intros u. by apply IH.
Qed.

Lemma same_store_refl w : same_store w w.
Proof. done. Qed.

Lemma refresh_holding h r t w :
  strip_prefix HANDLE_PREFIX h = None -> record_at w (handle_key self h) r ->
  state r = Active t \/ (exists c ms, state r = Claimed t c ms) ->
  wp (refresh self h) (refreshed w h r t) w.
Proof.
  intros Hp Hr Ht. apply wp_refresh; [done|..].
  - intros _. by apply refreshed_silent.
  - intros _. by apply wp_poll.
Qed.

(** ** Issuing *)

Lemma strip_rotating b : strip_prefix HANDLE_PREFIX (handle_of b) = None.
Proof. done. Qed.

(** The record of a new family. *)
Definition new_record (family : bytes) (now : Z) (t : string) : HandleRecord :=
  {| family_id := family;
     family_expires_ms := saturating_add now (cast_u64 (as_millis (max_lifetime self)));
     state := Active t |}.

Lemma wp_create_family h t w :
  wp (create_family self h t) (fun r w' => r = Ok tt ->
    exists family, (i, family) ∈ w_drawn w' /\ (i, family) ∉ w_drawn w
      /\ record_at w' (handle_key self h) (new_record family (w_unix w) t)) w.
Proof.
  unfold create_family. cbv zeta. apply wp_bind, wp_now.
  destruct (ttl_until _ _) as [ttl|] eqn:Et; simpl ok_or; cbn iota; [|by apply wp_ret].
  apply ttl_positive in Et. apply wp_bind, wp_random_new. intros family Hnew.
  apply wp_bind_ok, wp_seal; [done|]. intros v Hv.
  apply wp_bind_ok, wp_put; [done|by intros; apply wp_ret|]. intros e _ He. split; [|done]. cbn [negb].
  assert (forall w', w' = put (draw w i family) (handle_key self h) v e ->
    record_at w' (handle_key self h) (new_record family (w_unix w) t)) as Hr.
  { intros w' ->. apply record_put; [simpl in *; lia|exact Hv]. }
  apply wp_bind_ok, wp_put; [done|by intros; apply wp_ret|]. intros e1 _ _. split; [|done].
  apply wp_ret. intros _. exists family. split_and!.
  - simpl. apply elem_of_app. right. apply list_elem_of_here.
  - intros Hin. by apply (Hnew i).
  - apply record_put_ne; [apply head_not_handle|by apply Hr].
Qed.

Lemma wp_issue t w :
  wp (issue self t) (fun r w' => forall h, r = Ok h ->
    w_asked w' = w_asked w /\ strip_prefix HANDLE_PREFIX h = None
    /\ exists family, (i, family) ∈ w_drawn w' /\ (i, family) ∉ w_drawn w
         /\ record_at w' (handle_key self h) (new_record family (w_unix w) t)) w.
Proof.
  apply wp_bind, wp_bind, wp_random. intros b _. apply wp_ret, wp_bind.
  assert (silent (create_family self (handle_of b) t)) as Hsil.
  { apply silent_bind; [done|]. intros now. cbv zeta. destruct (ok_or _ _); [|done].
    apply silent_bind; [done|]. intros family. apply silent_bind_ok; [apply silent_seal|]. intros v.
    apply silent_bind_ok; [apply silent_store|]. intros []; [|done]. by apply silent_bind_ok. }
  eapply wp_mono; [apply wp_and; [by apply wp_silent|apply wp_create_family]|].
  intros [[]|f] w' [Ha Hr]; apply wp_ret; [|by destruct f]. intros h [= <-].
  split; [done|]. split; [apply strip_rotating|]. destruct (Hr eq_refl) as (family & Hd & Hn & Hrec).
  exists family. split; [done|]. split; [|done]. intros Hin. apply Hn. simpl. apply elem_of_app. by left.
Qed.
End Sequential.

(** ** Properties *)

Section Theorems.
Context {J : JsonLib} {JL : JsonLaws J} {H : Sha256} {B : Base64}.
Context {PH : Postcard OpenedHandle} {PR : Postcard HandleRecord} {PS : Postcard StoredResponse}.
Context {PRL : PostcardLaws HandleRecord} {PSL : PostcardLaws StoredResponse}.
Context {S : Type} {SL : Sealer S} {SLL : SealerLaws S} (sealer : S) (slack : Z).
Context (self : Rotator) (i : nat).


(** C5: a handle redeems for the token it was issued for. When [issue] answers with a handle, it
    has started a family: [issue] drew the family's identifier, and the handle's record holds the
    token in that family, which ends [max_lifetime] after the issue. And whatever the next refresh
    of that handle is answered, it sends the upstream exactly that token, or nothing, and a success
    it answers with belongs to that very family, with that same deadline. *)
Theorem issue_then_refresh t w h w1 :
  outcome (handle sealer slack i) (issue self t) w (Ok h) w1 ->
  let expires := saturating_add (w_unix w) (cast_u64 (as_millis (max_lifetime self))) in
  exists family,
    (i, family) ∈ w_drawn w1 /\ (i, family) ∉ w_drawn w
    /\ record_at sealer self w1 (handle_key self h)
         {| family_id := family; family_expires_ms := expires; state := Active t |}
    /\ forall o w2, outcome (handle sealer slack i) (refresh self h) w1 o w2 ->
         (w_asked w2 = w_asked w \/ w_asked w2 = w_asked w ++ [t])%list
         /\ forall resp, o = Some (Response resp) -> is_success resp = true ->
              w_asked w2 = (w_asked w ++ [t])%list /\ succession sealer self w2 h family expires t resp.
Proof.
  intros Hi expires. destruct (wp_issue sealer slack self i t w _ _ Hi h eq_refl) as (Ha & Hp & family & Hd & Hd' & Hrec).
  exists family. split_and!; [done..|exact Hrec|]. intros o w2 Hr.
  destruct (refresh_holding sealer slack self i h _ t w1 Hp Hrec (or_introl eq_refl) o w2 Hr) as [Hask Hresp].
  rewrite <-Ha. split; [exact Hask|]. intros resp Ho Hs. by apply Hresp.
Qed.

(** C6: a replay revokes the family. In any state that any number of refreshes and code grants
    reach from an empty store, however they interleave, crash and fail and whatever else happens to
    the store's other keys: presenting a handle that was rotated longer than the grace period ago,
    in a live family, by a refresh that runs undisturbed from there, sends nothing to the upstream
    and is never answered with a token response, whatever fails; and once it is answered with
    [invalid_grant], the family's revocation marker is in the store. *)
Theorem reuse_revokes_family w0 qs ts h r ms c s w o w' :
  empty_world self w0 -> reaches sealer slack self w0 qs w ts ->
  strip_prefix HANDLE_PREFIX h = None -> valid_handle_shape h = true ->
  record_at sealer self w (handle_key self h) r -> state r = Rotated ms c s ->
  (cast_u64 (as_millis (grace self)) < saturating_sub (w_unix w) ms)%Z ->
  (w_unix w < family_expires_ms r)%Z ->
  outcome (handle sealer slack i) (refresh self h) w o w' ->
  w_asked w' = w_asked w /\ (forall resp, o <> Some (Response resp))
  /\ (o = Some InvalidGrant -> revoked_in self w' (family_id r)).
Proof.
  intros H0 Hreach Hp Hv Hr Hs Hg Hx Ho. pose proof (reaches_chained sealer slack self _ _ _ _ H0 Hreach) as Hc.
  revert o w' Ho. apply (wp_refresh sealer slack self i h); [done|congruence|].
  intros _. by apply (poll_reuse sealer slack self i h r ms c s).
Qed.

(** A revoked family is dead. While the revocation marker of its family lives, no handle of
    the family refreshes, in whatever state its record is: the refresh is refused, changes
    nothing and sends nothing to the upstream. *)
Theorem revoked_family_refused h r w o w' :
  strip_prefix HANDLE_PREFIX h = None ->
  record_at sealer self w (handle_key self h) r -> revoked_in self w (family_id r) ->
  outcome (handle sealer slack i) (refresh self h) w o w' -> w' = w /\ refused o.
Proof.
  intros Hp Hr Hrev Ho. revert o w' Ho. apply (wp_refresh sealer slack self i h); [done|..].
  - intros _. split; [done|by left].
  - intros _. by apply (poll_revoked sealer slack self i _ r).
Qed.
End Theorems.

(** ** The theorems on one run

    A handle is issued and refreshed; 31 seconds later it is presented again, which revokes the
    family, and then once more. *)

Module SeqExample.
Import PlainSeal PlainCodec RotationSafety.Example.

(** The record of a key, computed. *)
Definition read_record (w : World) (k : string) : option HandleRecord :=
  '(v, _) ← live (w_backend w) (w_store w) k;
  env ← from_utf8 v;
  match unseal old_sealer env (record_data self RECORD_PURPOSE k) with
  | Ok pt => from_postcard pt
  | Err _ => None
  end.

Lemma read_record_at w k r : read_record w k = Some r -> record_at old_sealer self w k r.
Proof.
  unfold read_record. intros ([v e] & Hl & (env & Hv & Hr)%bind_Some)%bind_Some.
  destruct (unseal _ _ _) as [pt|] eqn:Eu; [|done]. exists v, e. split; [done|]. by exists env, pt.
Qed.

Definition later (w : World) (ms : Z) : World :=
  {| w_store := w_store w; w_backend := w_backend w; w_unix := (w_unix w + ms)%Z; w_mono := w_mono w;
     w_drawn := w_drawn w; w_writes := w_writes w; w_asked := w_asked w |}.

Lemma go_outcome {A} k (p : io A) w a w' :
  go k p w = Some (a, w') -> outcome (Effects.handle old_sealer 0 k) p w a w'.
Proof. apply run_outcome. intros. by apply (reliable_handle _ _ nonce upstream); [lia|reflexivity|]. Qed.

Definition issued : option (result string IssueError * World) := go 0 (issue self "up") world.
Definition moved_on : option (option RefreshOutcome * World) :=
  '(_, w) ← issued; go 0 (refresh self handle) w.
Definition replayed : option (option RefreshOutcome * World) :=
  '(_, w) ← moved_on; go 0 (refresh self handle) (later w 31000).
Definition again : option (option RefreshOutcome * World) :=
  '(_, w) ← replayed; go 0 (refresh self handle) w.

Lemma issued_handle : exists w1, issued = Some (Ok handle, w1).
Proof.
  assert (match issued with Some (Ok h, _) => bool_decide (h = handle) | _ => false end = true) as Hb
    by (vm_compute; reflexivity).
  destruct issued as [[[h|e] w1]|]; [|discriminate Hb..]. apply bool_decide_eq_true in Hb as ->. by exists w1.
Qed.

Definition succeeded (o : option (option RefreshOutcome * World)) : bool :=
  match o with Some (Some (Response r), _) => is_success r | _ => false end.

Lemma moved_on_response : exists w1 r w2, issued = Some (Ok handle, w1)
  /\ go 0 (refresh self handle) w1 = Some (Some (Response r), w2) /\ is_success r = true
  /\ moved_on = Some (Some (Response r), w2).
Proof.
  destruct issued_handle as [w1 Hi]. assert (succeeded moved_on = true) as Hb by (vm_compute; reflexivity).
  exists w1. unfold moved_on in *. rewrite Hi in *. cbn [mbind option_bind] in *.
  destruct (go _ _ _) as [[[[r| | | | | |]|] w2]|]; try discriminate Hb. exists r, w2. split_and!; [reflexivity..|exact Hb|reflexivity].
Qed.

Lemma handle_shape : strip_prefix HANDLE_PREFIX handle = None /\ valid_handle_shape handle = true.
Proof. split; vm_compute; reflexivity. Qed.


Lemma issue_then_refresh_witness : exists w1 w2 r family expires,
  (0, family) ∈ w_drawn w1 /\ w_asked w2 = ["up"] /\ is_success r = true
  /\ succession old_sealer self w2 handle family expires "up" r.
Proof.
  destruct moved_on_response as (w1 & r & w2 & Hi & Hr & Hs & _).
  destruct (issue_then_refresh old_sealer 0 self 0 "up" world handle w1 (go_outcome _ _ _ _ _ Hi))
    as (family & Hd & _ & _ & Hrefresh).
  destruct (Hrefresh _ w2 (go_outcome _ _ _ _ _ Hr)) as [_ Hresp]. destruct (Hresp r eq_refl Hs) as [Ha Hsucc].
  exists w1, w2, r, family. eexists. split; [exact Hd|]. split; [exact Ha|]. split; [exact Hs|exact Hsucc].
Defined.

(** Whether the handle's record is rotated, unexpired and past its grace period. *)
Definition stale (w : World) : bool :=
  match read_record w (handle_key self handle) with
  | Some r =>
      match state r with
      | Rotated ms _ _ => (cast_u64 (as_millis (grace self)) <? saturating_sub (w_unix w) ms)%Z
                          && (w_unix w <? family_expires_ms r)%Z
      | _ => false
      end
  | None => false
  end.

(** 31 seconds after the requests of [RotationSafety.Example]. *)
Lemma later_reaches a0 a1 a2 w :
  final = Some (a0, a1, a2, w) ->
  reaches old_sealer 0 self world requests (later w 31000) [Ret a0; Ret a1; Ret a2].
Proof.
  intros Hf. eapply rtc_r; [exact (final_reaches _ _ _ _ Hf)|]. apply step_env.
  split_and!; [apply Z.le_refl|apply Z.le_refl|reflexivity..|]. by intros k _.
Qed.

Lemma reuse_revokes_family_witness : exists w w' family,
  go 0 (refresh self handle) w = Some (Some InvalidGrant, w') /\ w_asked w' = w_asked w
  /\ revoked_in self w' family.
Proof.
  assert (match final with
          | Some (_, _, _, w) => stale (later w 31000)
              && match go 0 (refresh self handle) (later w 31000) with Some (Some InvalidGrant, _) => true | _ => false end
          | None => false
          end = true) as Hb by (vm_compute; reflexivity).
  destruct final as [[[[a0 a1] a2] w]|] eqn:Hf; [|discriminate Hb].
  pose proof (later_reaches _ _ _ _ Hf) as Hreach. apply andb_true_iff in Hb as [Hst Hg].
  destruct (go 0 _ (later w 31000)) as [[[[]|] w']|] eqn:Hgo; try discriminate Hg.
  unfold stale in Hst. destruct (read_record _ _) as [r|] eqn:Er; [|discriminate Hst].
  destruct (state r) as [| |ms c s] eqn:Es; [discriminate Hst..|].
  apply andb_true_iff in Hst as [Hgr Hx]. apply Z.ltb_lt in Hgr, Hx.
  destruct handle_shape as [Hp Hv].
  destruct (reuse_revokes_family old_sealer 0 self 0 world requests _ handle r ms c s (later w 31000) _ w'
    world_empty Hreach Hp Hv (read_record_at _ _ _ Er) Es Hgr Hx (go_outcome _ _ _ _ _ Hgo)) as (Ha & _ & Hrev).
  exists (later w 31000), w', (family_id r). split; [exact Hgo|]. split; [exact Ha|by apply Hrev].
Defined.

Lemma revoked_family_refused_witness : exists w o, go 0 (refresh self handle) w = Some (o, w) /\ refused o.
Proof.
  assert (match replayed with
          | Some (_, w) =>
              match read_record w (handle_key self handle), go 0 (refresh self handle) w with
              | Some r, Some _ => bool_decide (is_Some (live (w_backend w) (w_store w) (family_key self (family_id r))))
              | _, _ => false
              end
          | None => false
          end = true) as Hb by (vm_compute; reflexivity).
  destruct replayed as [[o0 w]|]; [|discriminate Hb].
  destruct (read_record w _) as [r|] eqn:Er; [|discriminate Hb].
  destruct (go 0 _ w) as [[o w']|] eqn:Eg; [|discriminate Hb].
  apply bool_decide_eq_true in Hb.
  destruct (revoked_family_refused old_sealer 0 self 0 handle r w o w' (proj1 handle_shape)
    (read_record_at _ _ _ Er) Hb (go_outcome _ _ _ _ _ Eg)) as [-> Hr].
  exists w, o. split; [exact Eg|exact Hr].
Defined.
End SeqExample.
