(* ===== verification/Requests.v ===== *)
(** * Requests: what the relay reads from HTTP requests

    Models the request side of crates/oauthrelay-core/src/router.rs: the authorize, callback and
    token parameters, scopes, PKCE values, the client's credentials in the [Authorization] header
    and the form, and CORS. Everything here is pure; the handlers that use it are in [Flows] and [Grants]. The
    form codec, standard base64 and header values are third-party crates and enter as [FormLib],
    [Base64Std] and [HeaderLib]. *)

From S2P Require Import Prelude Text Url Model Seal RefreshHandle.
#[local] Open Scope string_scope.
#[local] Open Scope relay_scope.

(** ** Third-party parts *)

(** [url::form_urlencoded]: [parse], [Serializer] and [byte_serialize]. *)
Class FormLib := {
  form_parse : bytes -> list (string * string);
  form_serialize : list (string * string) -> string;
  byte_serialize : string -> string;
}.

(** [base64::engine::general_purpose::STANDARD]. *)
Class Base64Std := {
  std_encode : bytes -> string;
  std_decode : bytes -> option bytes;
}.

Class Base64StdLaws (B : Base64Std) : Prop := {
  std_decode_encode b : std_decode (into_bytes (std_encode b)) = Some b;
  std_alphabet b : str_all (fun c => negb (is_whitespace c)) (std_encode b) = true;
}.

(** [HeaderValue::to_str] and [HeaderValue::from_str]. *)
Class HeaderLib := {
  to_str : bytes -> option string;
  header_value : string -> option bytes;
}.

(** ** Headers *)

(** A [HeaderMap]: names in lower case, in the order the values were added. *)
Notation HeaderMap := (list (string * bytes)).

Definition get_all (name : string) (headers : HeaderMap) : list bytes :=
  omap (fun h : string * bytes => if bool_decide (h.1 = name) then Some h.2 else None) headers.

Definition get_header (name : string) (headers : HeaderMap) : option bytes := head (get_all name headers).

Definition AUTHORIZATION : string := "authorization".
Definition ORIGIN : string := "origin".

(** [subtle]'s comparison of slices of equal length is equality. *)
Definition constant_eq (left right : string) : bool :=
  bool_decide (String.length left = String.length right) && bool_decide (left = right).

(** ** Authorize requests *)

Record AuthorizeRequest := {
  aq_redirect_uri : option string;
  aq_state : option string;
  aq_code_challenge : option string;
  aq_code_challenge_method : option string;
  aq_id_token_nonce : option string;
  aq_scope : option string;
  aq_forwarded : list (string * string);
}.

Definition authorize_singletons : list string :=
  ["redirect_uri"; "state"; "client_id"; "response_type"; "response_mode"; "code_challenge";
   "code_challenge_method"; "scope"; "nonce"; "prompt"; "login_hint"; "request"; "request_uri"].

(** What one parameter does: it is refused, kept in the variable of its name, forwarded, or
    both. *)
Definition authorize_param (name value : string) : result (bool * bool) unit :=
  if bool_decide (name ∈ ["redirect_uri"; "state"; "code_challenge"; "code_challenge_method"; "scope"])
  then Ok (true, false)
  else if bool_decide (name = "client_id") then Ok (false, false)
  else if bool_decide (name = "response_type") then
    ensure bool_decide (value = "code") else tt ;; Ok (false, false)
  else if bool_decide (name = "response_mode") then
    ensure bool_decide (value = "query") else tt ;; Ok (false, true)
  else if bool_decide (name = "nonce") then Ok (true, true)
  else if bool_decide (name ∈ ["request"; "request_uri"]) then Err tt
  else Ok (false, true).

(** The loop over the parameters: the names seen, the variables set, and what is forwarded. *)
Fixpoint authorize_loop (pairs : list (string * string)) (seen : gset string)
    (vars : gmap string string) (forwarded : list (string * string))
    : result (gmap string string * list (string * string)) unit :=
  match pairs with
  | [] => Ok (vars, forwarded)
  | (name, value) :: pairs =>
      let singleton := bool_decide (name ∈ authorize_singletons) in
      ensure negb (singleton && bool_decide (name ∈ seen)) else tt ;;
      kept <-? authorize_param name value ;;
      authorize_loop pairs (if singleton then {[name]} ∪ seen else seen)
        (if kept.1 : bool then <[name := value]> vars else vars)
        (if kept.2 : bool then forwarded ++ [(name, value)] else forwarded)%list
  end.

Definition authorize_request (vars : gmap string string) (forwarded : list (string * string))
    : AuthorizeRequest := {|
  aq_redirect_uri := vars !! "redirect_uri";
  aq_state := vars !! "state";
  aq_code_challenge := vars !! "code_challenge";
  aq_code_challenge_method := vars !! "code_challenge_method";
  aq_id_token_nonce := vars !! "nonce";
  aq_scope := vars !! "scope";
  aq_forwarded := forwarded;
|}.

Section Parsing.
Context {F : FormLib}.

Definition query_pairs (query : option string) : list (string * string) :=
  form_parse (into_bytes (default "" query)).

Definition parse_authorize_request (query : option string) : result AuthorizeRequest unit :=
  parsed <-? authorize_loop (query_pairs query) ∅ ∅ [] ;;
  Ok (authorize_request parsed.1 parsed.2).

(** ** Callback requests *)

Record CallbackRequest := {
  cb_code : option string;
  cb_state : string;
  cb_error : bool;
  cb_forwarded : list (string * string);
}.

(** The loop: [code], [state], whether there was an [error], and what is forwarded. *)
Fixpoint callback_loop (pairs : list (string * string)) (seen : gset string)
    (code state : option string) (error : bool) (forwarded : list (string * string))
    : result (option string * option string * bool * list (string * string)) unit :=
  match pairs with
  | [] => Ok (code, state, error, forwarded)
  | (name, value) :: pairs =>
      let singleton := bool_decide (name ∈ ["code"; "state"; "error"]) in
      ensure negb (singleton && bool_decide (name ∈ seen)) else tt ;;
      let seen := if singleton then {[name]} ∪ seen else seen in
      if bool_decide (name = "code") then callback_loop pairs seen (Some value) state error forwarded
      else if bool_decide (name = "state") then callback_loop pairs seen code (Some value) error forwarded
      else if bool_decide (name = "error")
      then callback_loop pairs seen code state true (forwarded ++ [(name, value)])%list
      else callback_loop pairs seen code state error (forwarded ++ [(name, value)])%list
  end.

Definition parse_callback_request (query : option string) : result CallbackRequest unit :=
  parsed <-? callback_loop (query_pairs query) ∅ None None false [] ;;
  let '(code, state, error, forwarded) := parsed in
  ensure negb (bool_decide (bool_decide (is_Some code) = error)) else tt ;;
  state <-? ok_or state tt ;;
  Ok {| cb_code := code; cb_state := state; cb_error := error; cb_forwarded := forwarded |}.

(** ** Token requests *)

Record TokenRequest := {
  tk_grant_type : string;
  tk_code : option string;
  tk_refresh_token : option string;
  tk_redirect_uri : option string;
  tk_client_id : option string;
  tk_client_secret : option string;
  tk_code_verifier : option string;
  tk_scope : option string;
  tk_client_assertion_type : option string;
  tk_client_assertion : option string;
  tk_pairs : list (string * string);
}.

Definition token_params : list string :=
  ["grant_type"; "code"; "refresh_token"; "redirect_uri"; "client_id"; "client_secret";
   "code_verifier"; "scope"; "client_assertion_type"; "client_assertion"].

(** The loop over the form: the parameter variables that are set, by name; a name that is set
    has been seen. *)
Fixpoint token_loop (pairs : list (string * string)) (vars : gmap string string)
    : result (gmap string string) unit :=
  match pairs with
  | [] => Ok vars
  | (name, value) :: pairs =>
      if bool_decide (name ∈ token_params) then
        ensure bool_decide (vars !! name = None) else tt ;;
        token_loop pairs (<[name := value]> vars)
      else token_loop pairs vars
  end.

Definition parse_token_request (body : bytes) : result TokenRequest unit :=
  let pairs := form_parse body in
  vars <-? token_loop pairs ∅ ;;
  grant_type <-? ok_or (vars !! "grant_type") tt ;;
  Ok {|
    tk_grant_type := grant_type;
    tk_code := vars !! "code";
    tk_refresh_token := vars !! "refresh_token";
    tk_redirect_uri := vars !! "redirect_uri";
    tk_client_id := vars !! "client_id";
    tk_client_secret := vars !! "client_secret";
    tk_code_verifier := vars !! "code_verifier";
    tk_scope := vars !! "scope";
    tk_client_assertion_type := vars !! "client_assertion_type";
    tk_client_assertion := vars !! "client_assertion";
    tk_pairs := pairs;
  |}.

(** ** Redirects *)

Definition append_query_pairs (u : string) (pairs : list (string * string)) : string :=
  match pairs with
  | [] => u
  | _ :: _ =>
      let u := if negb (contains "?" u) then u +:+ "?"
               else if negb (ends_with "?" u || ends_with "&" u) then u +:+ "&"
               else u in
      u +:+ form_serialize pairs
  end.
End Parsing.

(** ** Scopes and PKCE *)

Definition scope_allowed {U : UrlLib} (r : Relay) (scope : string) : bool :=
  let scopes := split " " scope in
  if bool_decide (scopes = []) || existsb (fun s => negb (valid_scope_token s)) scopes then false
  else match allowed_scopes r with
       | None => true
       | Some allowed => forallb (fun s => existsb (fun c => bool_decide (c = s)) allowed) scopes
       end.

Definition pkce_challenge {H : Sha256} {B : Base64} (verifier : string) : string :=
  b64_encode (sha256 (into_bytes verifier)).

Definition challenge_byte (c : ascii) : bool := is_alphanumeric c || bool_decide (c ∈ ["-"; "_"]%char).
Definition verifier_byte (c : ascii) : bool :=
  is_alphanumeric c || bool_decide (c ∈ ["-"; "."; "_"; "~"]%char).

Definition valid_pkce_challenge (challenge : string) : bool :=
  bool_decide (String.length challenge = 43) && str_all challenge_byte challenge.

Definition valid_pkce_verifier (verifier : string) : bool :=
  ((43 <=? String.length verifier) && (String.length verifier <=? 128))%nat
  && str_all verifier_byte verifier.

(** [fresh] at [now], in seconds. *)
Definition fresh_at (now issued_at ttl : Z) : bool :=
  ((issued_at <=? saturating_add now 30) && (saturating_sub now issued_at <=? ttl))%Z.

(** ** Client credentials *)

Inductive AuthFailure :=
  | InvalidClient (via_header : bool)
  | MultipleMethods.

(** The bytes after the case-insensitive scheme. *)
Definition basic_scheme (value : bytes) : option bytes :=
  if (length value <? 5)%nat then None
  else let scheme := take 5 value in
       let rest := drop 5 value in
       if eq_ignore_ascii_case (from_bytes scheme) "basic"
          && match rest with [] => true | b :: _ => bool_decide (b = byte_of_ascii " ") end
       then Some rest else None.

Fixpoint trim_ascii_start (b : bytes) : bytes :=
  match b with
  | c :: b' => if is_whitespace (ascii_of_byte c) then trim_ascii_start b' else b
  | [] => []
  end.

(** Before and after the first colon. *)
Fixpoint split_colon (b : bytes) : option (bytes * bytes) :=
  match b with
  | [] => None
  | c :: b =>
      if bool_decide (c = byte_of_ascii ":") then Some ([], b)
      else '(before, after) ← split_colon b; Some (c :: before, after)
  end.

Definition byte_of_Z (x : Z) : Byte.byte := low_byte x.

(** The bytes [form_urldecode] pushes. *)
Fixpoint urldecode_bytes (input : bytes) : option bytes :=
  match input with
  | [] => Some []
  | c :: rest =>
      if bool_decide (c = byte_of_ascii "+") then
        out ← urldecode_bytes rest; Some (byte_of_ascii " " :: out)
      else if bool_decide (c = byte_of_ascii "%") then
        match rest with
        | h :: l :: rest =>
            high ← digit 16 (ascii_of_byte h);
            low ← digit 16 (ascii_of_byte l);
            out ← urldecode_bytes rest;
            Some (byte_of_Z (high * 16 + low) :: out)
        | _ => None
        end
      else out ← urldecode_bytes rest; Some (c :: out)
  end.

Definition form_urldecode (input : bytes) : option string :=
  output ← urldecode_bytes input; from_utf8 output.

Section Credentials.
Context {B : Base64Std}.

Definition parse_basic_credentials (value : bytes) : option (string * string) :=
  rest ← basic_scheme value;
  token ← match rest with c :: token => if bool_decide (c = byte_of_ascii " ") then Some token else None
                     | [] => None end;
  decoded ← std_decode (trim_ascii_start token);
  '(before, after) ← split_colon decoded;
  id ← form_urldecode before;
  secret ← form_urldecode after;
  Some (id, secret).

Definition repeats_id (form : TokenRequest) (id : string) : bool :=
  match tk_client_id form with Some body_id => constant_eq body_id id | None => true end.

Definition password_credentials (headers : HeaderMap) (form : TokenRequest)
    : result (string * string * bool) AuthFailure :=
  let body := Ok (default "" (tk_client_id form), default "" (tk_client_secret form), false) in
  match get_all AUTHORIZATION headers with
  | [] => body
  | _ :: _ :: _ => Err (InvalidClient true)
  | [first] =>
      match basic_scheme first with
      | None => body
      | Some _ =>
          credentials <-? ok_or (parse_basic_credentials first) (InvalidClient true) ;;
          ensure negb (negb (repeats_id form credentials.1)
                       || bool_decide (is_Some (tk_client_secret form))
                       || bool_decide (is_Some (tk_client_assertion_type form))
                       || bool_decide (is_Some (tk_client_assertion form)))
            else MultipleMethods ;;
          Ok (credentials.1, credentials.2, true)
      end
  end.

(** The [password] closure of [authenticate]. *)
Definition password (headers : HeaderMap) (form : TokenRequest) (expected_id expected_secret : string)
    : result unit AuthFailure :=
  credentials <-? password_credentials headers form ;;
  let '(id, secret, via_header) := credentials in
  if constant_eq id expected_id && constant_eq secret expected_secret then Ok tt
  else Err (InvalidClient via_header).

Definition basic_headers (headers : HeaderMap) : list bytes :=
  List.filter (fun v => bool_decide (is_Some (basic_scheme v))) (get_all AUTHORIZATION headers).

Definition public_client_header_allowed (headers : HeaderMap) (form : TokenRequest) : bool :=
  match basic_headers headers with
  | [] => true
  | _ :: _ :: _ => false
  | [value] =>
      match parse_basic_credentials value with
      | Some (id, secret) => is_empty secret && repeats_id form id
      | None => false
      end
  end.

(** The [Public] branch of [authenticate]. *)
Definition public_client (headers : HeaderMap) (form : TokenRequest) : result unit AuthFailure :=
  if bool_decide (tk_client_secret form = None) && bool_decide (tk_client_assertion_type form = None)
     && bool_decide (tk_client_assertion form = None) && public_client_header_allowed headers form
  then Ok tt
  else Err (InvalidClient (bool_decide (basic_headers headers <> []))).

(** ** The relay's own credentials towards the upstream *)

Definition basic_authorization {F : FormLib} (client_id client_secret : string) : string :=
  "Basic " +:+ std_encode (into_bytes (byte_serialize client_id +:+ ":" +:+ byte_serialize client_secret)).
End Credentials.

(** ** CORS *)

Definition allowed_cors_origin {U : UrlLib} {HL : HeaderLib} (r : Relay) (headers : HeaderMap)
    (options : RedirectOptions) : option bytes :=
  value ← get_header ORIGIN headers;
  text ← to_str value;
  u ← match url_parse text with Ok u => Some u | Err _ => None end;
  if bool_decide (path u <> "/") || bool_decide (is_Some (query u)) || bool_decide (is_Some (fragment u))
  then None
  else if cors_origin_allowed r u options then Some value else None.

(** ** Lemmas: Basic credentials *)

(** The documented output of [byte_serialize] for one byte: itself, [+] for a space, or its
    escape in upper-case hexadecimal. *)
Definition unreserved (c : ascii) : bool :=
  is_alphanumeric c || bool_decide (c ∈ ["*"; "-"; "."; "_"]%char).

Definition upper_hex (n : N) : ascii := ascii_of_N (if (n <? 10)%N then 48 + n else 55 + n)%N.

Definition serialized_byte (c : ascii) : string :=
  if unreserved c then String c ""
  else if bool_decide (c = " "%char) then "+"
  else String "%" (String (upper_hex (N_of_ascii c / 16)) (String (upper_hex (N_of_ascii c mod 16)) "")).

Fixpoint serialized (s : string) : string :=
  match s with
  | EmptyString => EmptyString
  | String c s => serialized_byte c +:+ serialized s
  end.

(** [byte_serialize] as the crate documents it. *)
Class FormLaws (F : FormLib) : Prop := {
  byte_serialize_doc s : byte_serialize s = serialized s;
}.

Lemma urldecode_serialized_byte c rest :
  urldecode_bytes (into_bytes (serialized_byte c) ++ rest) =
  (out ← urldecode_bytes rest; Some (byte_of_ascii c :: out)).
Proof. by destruct c as [[] [] [] [] [] [] [] []]. Qed.

Lemma urldecode_serialized s : urldecode_bytes (into_bytes (serialized s)) = Some (into_bytes s).
Proof.
  induction s as [|c s IH]; [done|]. cbn [serialized].
  rewrite into_bytes_app, urldecode_serialized_byte, IH. simpl. by rewrite into_bytes_cons.
Qed.

Lemma serialized_no_colon s : byte_of_ascii ":" ∉ into_bytes (serialized s).
Proof.
  induction s as [|c s IH]; [apply not_elem_of_nil|]. cbn [serialized].
  rewrite into_bytes_app, elem_of_app. intros [Hc|Hc]; [|done]. clear IH. revert Hc.
  assert (forallb (fun b => negb (bool_decide (b = byte_of_ascii ":"))) (into_bytes (serialized_byte c)) = true) as Hb.
  { by destruct c as [[] [] [] [] [] [] [] []]. }
  intros Hc. rewrite forallb_elem in Hb. specialize (Hb _ Hc). by rewrite bool_decide_eq_true_2 in Hb.
Qed.

Lemma split_colon_app a b : byte_of_ascii ":" ∉ a -> split_colon (a ++ byte_of_ascii ":" :: b)%list = Some (a, b).
Proof.
  induction a as [|c a IH]; cbn [app split_colon].
  - by rewrite bool_decide_eq_true_2.
  - intros [Hc Ha]%not_elem_of_cons. rewrite bool_decide_eq_false_2 by congruence. by rewrite IH.
Qed.

Lemma trim_clean s : str_all (fun c => negb (is_whitespace c)) s = true -> trim_ascii_start (into_bytes s) = into_bytes s.
Proof.
  destruct s as [|c s]; [done|]. simpl. intros [Hc _]%andb_true_iff. rewrite into_bytes_cons. simpl.
  rewrite ascii_of_byte_of_ascii. by apply negb_true_iff in Hc as ->.
Qed.

Lemma basic_scheme_basic s :
  basic_scheme (into_bytes ("Basic " +:+ s)) = Some (byte_of_ascii " " :: into_bytes s).
Proof.
  rewrite into_bytes_app. unfold basic_scheme. rewrite length_app.
  replace (_ <? 5)%nat with false by (symmetry; apply Nat.ltb_ge; simpl; lia). done.
Qed.

Lemma constant_eq_ok a b : constant_eq a b = bool_decide (a = b).
Proof.
  unfold constant_eq. destruct (bool_decide (a = b)) eqn:E; [|apply andb_false_r].
  apply bool_decide_eq_true in E as ->. by rewrite bool_decide_eq_true_2.
Qed.

(** ** Lemmas: token parameters *)

(** The pairs of a name. *)
Definition named_pairs (name : string) (pairs : list (string * string)) : list (string * string) :=
  List.filter (fun nv => bool_decide (nv.1 = name)) pairs.

Definition one_pair (name : string) (value : option string) : list (string * string) :=
  match value with Some v => [(name, v)] | None => [] end.

Lemma named_pairs_cons name n v pairs :
  named_pairs name ((n, v) :: pairs)
  = if bool_decide (n = name) then (n, v) :: named_pairs name pairs else named_pairs name pairs.
Proof. done. Qed.

Lemma token_loop_Ok pairs vars vars' :
  token_loop pairs vars = Ok vars' <->
  (forall name, name ∈ token_params ->
     (one_pair name (vars !! name) ++ named_pairs name pairs)%list = one_pair name (vars' !! name))
  /\ (forall name, name ∉ token_params -> vars' !! name = vars !! name).
Proof.
  revert vars. induction pairs as [|[n v] pairs IH]; intros vars; cbn [token_loop].
  - split.
    + intros [= <-]. split; [|done]. intros name _. apply app_nil_r.
    + intros [H1 H2]. f_equal. apply map_eq. intros name.
      destruct (decide (name ∈ token_params)) as [Hin|Hin]; [|by rewrite H2].
      specialize (H1 name Hin). rewrite app_nil_r in H1.
      destruct (vars !! name), (vars' !! name); simpl in H1; congruence.
  - setoid_rewrite named_pairs_cons. destruct (decide (n ∈ token_params)) as [Hn|Hn].
    + rewrite (bool_decide_eq_true_2 (n ∈ _)) by done. destruct (vars !! n) as [w|] eqn:En.
      * rewrite bool_decide_eq_false_2 by done. split; [done|]. intros [H1 _]. specialize (H1 n Hn).
        rewrite En, bool_decide_eq_true_2 in H1 by done. destruct (vars' !! n); simpl in H1; discriminate H1.
      * rewrite bool_decide_eq_true_2 by done. rewrite IH. split; intros [H1 H2]; split.
        -- intros name Hin. specialize (H1 name Hin). case_bool_decide as Heq; subst.
           ++ by rewrite lookup_insert_eq in H1; rewrite En.
           ++ by rewrite lookup_insert_ne in H1.
        -- intros name Hin. rewrite H2, lookup_insert_ne; [done|congruence|done].
        -- intros name Hin. specialize (H1 name Hin). case_bool_decide as Heq; subst.
           ++ by rewrite lookup_insert_eq; rewrite En in H1.
           ++ by rewrite lookup_insert_ne.
        -- intros name Hin. rewrite H2, lookup_insert_ne; [done|congruence|done].
    + rewrite (bool_decide_eq_false_2 (n ∈ _)) by done. rewrite IH.
      split; intros [H1 H2]; (split; [|done]); intros name Hin; specialize (H1 name Hin);
        (rewrite bool_decide_eq_false_2 in * by congruence); done.
Qed.

(** A token request has at most one value for each parameter, and keeps the whole form. *)
Lemma token_request_fields {F : FormLib} b form :
  parse_token_request b = Ok form ->
  tk_pairs form = form_parse b
  /\ named_pairs "grant_type" (form_parse b) = [("grant_type", tk_grant_type form)]
  /\ named_pairs "code" (form_parse b) = one_pair "code" (tk_code form)
  /\ named_pairs "client_id" (form_parse b) = one_pair "client_id" (tk_client_id form)
  /\ named_pairs "client_secret" (form_parse b) = one_pair "client_secret" (tk_client_secret form)
  /\ named_pairs "refresh_token" (form_parse b) = one_pair "refresh_token" (tk_refresh_token form).
Proof.
  unfold parse_token_request. cbv zeta. destruct (token_loop _ _) as [vars|] eqn:El; [|done].
  apply token_loop_Ok in El as [H _]. cbn [res_bind].
  destruct (vars !! "grant_type") as [g|] eqn:Eg; [|done]. cbn [ok_or res_bind]. intros [= <-]. simpl.
  assert (Hall : forall name, name ∈ token_params ->
    named_pairs name (form_parse b) = one_pair name (vars !! name)).
  { intros name Hn. specialize (H name Hn). by rewrite lookup_empty in H. }
  split_and!; [done|rewrite (Hall "grant_type"), Eg; [done|]|apply Hall..]; unfold token_params; set_solver.
Qed.

(** ** Properties *)

(** The relay's Basic credentials read back. What [basic_authorization] writes for the
    upstream is exactly what [parse_basic_credentials] reads, whatever characters the client ID and
    the secret contain; so a client that authenticates this way, with nothing else in the form,
    is accepted for precisely that ID and secret. *)
Theorem basic_credentials_round_trip {F : FormLib} {FL : FormLaws F} {B : Base64Std} {BL : Base64StdLaws B}
    id secret form :
  valid_utf8 id = true -> valid_utf8 secret = true ->
  parse_basic_credentials (into_bytes (basic_authorization id secret)) = Some (id, secret)
  /\ (tk_client_id form = None -> tk_client_secret form = None -> tk_client_assertion_type form = None ->
      tk_client_assertion form = None -> forall expected_id expected_secret,
      password [(AUTHORIZATION, into_bytes (basic_authorization id secret))] form expected_id expected_secret
        = Ok tt <-> expected_id = id /\ expected_secret = secret).
Proof.
  intros Hi Hs.
  assert (Hp : parse_basic_credentials (into_bytes (basic_authorization id secret)) = Some (id, secret)).
  { unfold parse_basic_credentials, basic_authorization. rewrite basic_scheme_basic. cbn [mbind option_bind].
    rewrite bool_decide_eq_true_2 by done. cbn [mbind option_bind].
    rewrite trim_clean by apply std_alphabet. rewrite std_decode_encode. cbn [mbind option_bind].
    rewrite !byte_serialize_doc, into_bytes_app.
    change (into_bytes (":" +:+ serialized secret)) with (byte_of_ascii ":" :: into_bytes (serialized secret)).
    rewrite split_colon_app by apply serialized_no_colon. cbn [mbind option_bind].
    unfold form_urldecode. rewrite !urldecode_serialized. cbn [mbind option_bind].
    by rewrite !from_utf8_into. }
  split; [done|]. intros Hc Hsec Hat Ha expected_id expected_secret.
  unfold password, password_credentials. cbn [get_all omap list_omap]. rewrite bool_decide_eq_true_2 by done.
  cbn [fst snd]. unfold basic_authorization at 1. rewrite basic_scheme_basic, Hp. cbn [ok_or res_bind fst snd].
  unfold repeats_id. rewrite Hc, Hsec, Hat, Ha. cbn [negb orb]. rewrite !bool_decide_eq_false_2 by by intros [? ?].
  cbn [negb orb res_bind]. rewrite !constant_eq_ok. destruct (_ && _) eqn:E.
  - apply andb_true_iff in E as [E1 E2]. apply bool_decide_eq_true in E1, E2. by subst.
  - split; [done|]. intros [-> ->]. by rewrite !bool_decide_eq_true_2 in E.
Qed.

(** The credentials of the form are the expected ones. *)
Definition form_credentials (form : TokenRequest) (id secret : string) : Prop :=
  default "" (tk_client_id form) = id /\ default "" (tk_client_secret form) = secret.

(** A password client is accepted by exactly one method, with exactly its credentials: in the
    form, when there is no [Authorization] header or a single one of another scheme; or in a single
    well-formed Basic header, when the form adds neither a secret, nor an assertion, nor another
    client ID. Nothing else is accepted. *)
Theorem password_exact {B : Base64Std} headers form id secret :
  password headers form id secret = Ok tt <->
  match get_all AUTHORIZATION headers with
  | [] => form_credentials form id secret
  | [v] =>
      match basic_scheme v with
      | None => form_credentials form id secret
      | Some _ =>
          parse_basic_credentials v = Some (id, secret)
          /\ (tk_client_id form = None \/ tk_client_id form = Some id) /\ tk_client_secret form = None
          /\ tk_client_assertion_type form = None /\ tk_client_assertion form = None
      end
  | _ => False
  end.
Proof.
  assert (Hbody : forall i s v, (if constant_eq i id && constant_eq s secret then Ok tt else Err (InvalidClient v))
    = (Ok tt : result unit AuthFailure) <-> i = id /\ s = secret).
  { intros i s v. rewrite !constant_eq_ok. repeat case_bool_decide; simpl; naive_solver. }
  unfold password, password_credentials, form_credentials.
  destruct (get_all AUTHORIZATION headers) as [|v [|v' l]]; [apply Hbody| |done].
  destruct (basic_scheme v) as [rest|]; [|apply Hbody].
  destruct (parse_basic_credentials v) as [[i s]|]; cbn [ok_or res_bind fst snd]; [|naive_solver].
  unfold repeats_id.
  destruct (tk_client_secret form), (tk_client_assertion_type form), (tk_client_assertion form);
    rewrite ?(bool_decide_eq_true_2 (is_Some (Some _))) by eauto;
    rewrite ?(bool_decide_eq_false_2 (is_Some None)) by by intros [? ?].
  all: rewrite ?orb_true_r; cbn [orb negb res_bind]; try naive_solver.
  rewrite !orb_false_r, negb_involutive.
  destruct (tk_client_id form) as [c|]; [rewrite (constant_eq_ok c); case_bool_decide|];
    cbn [res_bind]; rewrite ?Hbody; naive_solver.
Qed.

(** ** Concrete codecs

    Standard base64 is replaced by hexadecimal text, forms are read and written as the URL
    standard describes them. Nothing is claimed about the crates through them. *)

Module PlainForm.
Import PlainUrl.

#[export] Instance std : Base64Std := {|
  std_encode b := PlainSeal.hex b;
  std_decode b := PlainSeal.unhex (from_bytes b);
|}.

Lemma hex_clean b : str_all (fun c => negb (is_whitespace c)) (PlainSeal.hex b) = true.
Proof.
  eapply str_all_weaken; [|exact (@b64_alphabet _ PlainSeal.base64_laws b)].
  by intros [[] [] [] [] [] [] [] []].
Qed.

#[export] Instance std_laws : Base64StdLaws std.
Proof.
  constructor; [|apply hex_clean]. intros b. simpl. rewrite from_into_bytes.
  exact (@b64_decode_encode _ PlainSeal.base64_laws b).
Qed.

Definition decoded (s : string) : string := default s (form_urldecode (into_bytes s)).

Definition pair_of (part : string) : string * string :=
  let '(name, value) := cut "=" part in (decoded name, decoded (default "" value)).

#[export] Instance form : FormLib := {|
  form_parse b := pair_of <$> List.filter (fun part => negb (is_empty part)) (split "&" (from_bytes b));
  form_serialize l := join "&" ((fun '(n, v) => serialized n +:+ "=" +:+ serialized v) <$> l);
  byte_serialize := serialized;
|}.

#[export] Instance form_laws : FormLaws form.
Proof. by constructor. Qed.

#[export] Instance headers : HeaderLib := {|
  to_str b := if str_all (fun c => between 32 126 c) (from_bytes b) then Some (from_bytes b) else None;
  header_value s := if str_all (fun c => between 32 126 c) s then Some (into_bytes s) else None;
|}.

Definition empty_form : TokenRequest :=
  {| tk_grant_type := "refresh_token"; tk_code := None; tk_refresh_token := None; tk_redirect_uri := None;
     tk_client_id := None; tk_client_secret := None; tk_code_verifier := None; tk_scope := None;
     tk_client_assertion_type := None; tk_client_assertion := None; tk_pairs := [] |}.

Lemma basic_credentials_round_trip_witness :
  password [(AUTHORIZATION, into_bytes (basic_authorization "app:1" "p@ss +%"))] empty_form "app:1" "p@ss +%" = Ok tt.
Proof.
  destruct (basic_credentials_round_trip "app:1" "p@ss +%" empty_form) as [_ H]; [reflexivity..|].
  apply (H eq_refl eq_refl eq_refl eq_refl). split; reflexivity.
Defined.

Example token_request_read :
  match parse_token_request (into_bytes "grant_type=authorization_code&code=a%2Bb&client_id=app") with
  | Ok form => tk_code form = Some "a+b" /\ tk_client_id form = Some "app"
  | Err _ => False
  end
  /\ parse_token_request (into_bytes "grant_type=refresh_token&grant_type=x") = Err tt.
Proof. vm_compute. repeat split. Qed.
End PlainForm.
