(* ===== verification/Jwt.v ===== *)
(** * Jwt: the interface of the jsonwebtoken crate

    Signed tokens and key sets belong to a third-party crate. [JwtLib] is what the relay calls of
    it: reading a token's header, reading a key set, and verifying a token against a key under a
    [Validation] at a point in time. [JwtLaws] is what single use of an assertion relies on. *)

From S2P Require Import Prelude Text Json.
#[local] Open Scope string_scope.

Inductive Algorithm :=
  | HS256 | HS384 | HS512 | ES256 | ES384 | RS256 | RS384 | RS512 | PS256 | PS384 | PS512 | EdDSA.

#[export] Instance algorithm_eq_dec : EqDecision Algorithm.
Proof. solve_decision. Defined.

(** [jsonwebtoken::Validation], the fields the relay sets. *)
Record Validation := {
  v_alg : Algorithm;
  v_issuer : option string;
  v_audience : option string;    (* [None]: [validate_aud] is off *)
  v_required : list string;      (* [required_spec_claims] *)
  v_nbf : bool;
}.

(** [Validation::leeway], in seconds. *)
Definition LEEWAY : Z := 60.

Class JwtLib := {
  jwk : Type;
  decoding_key : Type;
  decode_header : string -> option (Algorithm * option string);   (* [alg] and [kid] *)
  jwk_set : Value -> option (list jwk);                           (* a [JwkSet] from a value *)
  jwk_set_from_slice : bytes -> option (list jwk);                (* or from JSON text *)
  key_id : jwk -> option string;
  from_jwk : jwk -> option decoding_key;
  jwt_decode : Z -> string -> decoding_key -> Validation -> option Value;  (* at a Unix time *)
}.

(** What the relay relies on: a token always carries the same claims, and it is accepted until its
    [exp] and the leeway have passed. *)
Class JwtLaws (JW : JwtLib) : Prop := {
  decode_claims now now' token key key' v v' claims claims' :
    jwt_decode now token key v = Some claims -> jwt_decode now' token key' v' = Some claims' -> claims = claims';
  decode_exp now token key v claims expires_at :
    jwt_decode now token key v = Some claims -> (n ← get claims "exp"; as_u64 n) = Some expires_at ->
    (now <= expires_at + LEEWAY)%Z;
}.

Section Keys.
Context {JW : JwtLib}.

(** The key for a token header: by [kid], or the only one. *)
Definition select_key (set : list jwk) (kid : option string) : option jwk :=
  match kid with
  | Some kid => List.find (fun key => bool_decide (key_id key = Some kid)) set
  | None => match set with [key] => Some key | _ => None end
  end.

(** [JwkSet::find(kid).is_some()]. *)
Definition has_kid (kid : string) (set : list jwk) : bool :=
  bool_decide (is_Some (select_key set (Some kid))).

End Keys.
