(* ===== verification/Web.v ===== *)
(** * Web: responses, outbound requests and upstream documents

    The parts of crates/oauthrelay-core/src/router.rs every handler uses, with outbound.rs: the
    responses it answers with, the effects of a handler, [send_checked] and the outbound policy,
    the cached metadata documents, the endpoints they name, and the discovery and JWKS handlers.

    A handler is a [prog] over [reff], which extends the effects of [Effects] with resource
    resolution, outbound HTTP and the metadata caches (each a map behind a mutex that is held for
    one access only). [lift] embeds the programs of [RefreshHandle] and [Rotation]. *)

From S2P Require Import Prelude Text Json Url Model Layout Seal Prog Effects RefreshHandle Requests Jwt.
#[local] Open Scope string_scope.
#[local] Open Scope prog_scope.

(** ** Responses *)

Record Resp := {
  rs_status : Z;
  rs_headers : list (string * bytes);
  rs_body : bytes;
}.

(** [StatusCode::into_response]. *)
Definition bare (status : Z) : Resp := {| rs_status := status; rs_headers := []; rs_body := [] |}.

(** [HeaderMap::insert]: replaces every value of the name. *)
Definition header_insert (name : string) (v : bytes) (h : list (string * bytes)) : list (string * bytes) :=
  (List.filter (fun nv => bool_decide (nv.1 <> name)) h ++ [(name, v)])%list.

Definition insert_headers (l : list (string * bytes)) (r : Resp) : Resp :=
  {| rs_status := rs_status r;
     rs_headers := foldl (fun h nv => header_insert nv.1 nv.2 h) (rs_headers r) l;
     rs_body := rs_body r |}.

Definition static (name value : string) : string * bytes := (name, into_bytes value).

Definition no_store : list (string * bytes) := [static "cache-control" "no-store"; static "pragma" "no-cache"].

(** [StatusCode::is_success], [is_redirection], and the range [StatusCode::from_u16] accepts. *)
Definition status_success (s : Z) : bool := ((200 <=? s) && (s <? 300))%Z.
Definition status_redirection (s : Z) : bool := ((300 <=? s) && (s <? 400))%Z.
Definition status_valid (s : Z) : bool := ((100 <=? s) && (s <? 1000))%Z.
Definition status_or_bad_gateway (s : Z) : Z := if status_valid s then s else 502.

Section Responses.
Context {J : JsonLib} {HL : HeaderLib}.

(** [Json(v).into_response()] with a status. *)
Definition json_response (status : Z) (v : Value) : Resp :=
  {| rs_status := status; rs_headers := [static "content-type" "application/json"]; rs_body := to_vec v |}.

Definition oauth_error (status : Z) (error description : string) : Resp :=
  json_response status (Object [("error", Str error); ("error_description", Str description)]).

Definition upstream_request_failed : Resp := oauth_error 502 "server_error" "upstream request failed".
Definition sealer_unavailable : Resp := oauth_error 503 "server_error" "sealing is unavailable".
Definition rotation_store_required : Resp :=
  oauth_error 500 "server_error" "rotating refresh tokens require a transient store".
Definition refresh_state_unavailable : Resp :=
  oauth_error 503 "server_error" "refresh token state is unavailable".

Definition substitution_failed (error : SubstitutionError) : Resp :=
  match error with
  | SubSealing => oauth_error 500 "server_error" "token response could not be sealed"
  | SubSealerUnavailable => sealer_unavailable
  | SubUnrecognizedBody => oauth_error 502 "server_error" "upstream token response could not be processed"
  end.

Definition required_claims_error : Resp :=
  insert_headers no_store
    (oauth_error 400 "invalid_grant" "Identity does not satisfy required ID-token claims.").

Definition upstream_failure_response (f : UpstreamFailure) : Resp :=
  match f with
  | Status status => bare (status_or_bad_gateway status)
  | Request => upstream_request_failed
  end.

Definition auth_failure_response (f : AuthFailure) : Resp :=
  match f with
  | InvalidClient via_header =>
      let response := oauth_error 401 "invalid_client" "client authentication failed" in
      if via_header
      then insert_headers [static "www-authenticate"
             ("Basic realm=" +:+ String (ascii_of_nat 34) ("oauthrelay" +:+ String (ascii_of_nat 34) ""))] response
      else response
  | MultipleMethods =>
      oauth_error 400 "invalid_request" "client credentials must use exactly one authentication method"
  end.

Definition stored_response (r : StoredResponse) : Resp :=
  {| rs_status := status_or_bad_gateway (status r);
     rs_headers := (no_store ++
       match content_type r with
       | Some c => match header_value c with Some v => [("content-type", v)] | None => [] end
       | None => []
       end)%list;
     rs_body := body r |}.

(** [proxy_response] on a response whose body could be read. *)
Definition proxied (status : Z) (content_type : option bytes) (b : bytes) : Resp :=
  {| rs_status := status;
     rs_headers := (no_store ++ match content_type with Some v => [("content-type", v)] | None => [] end)%list;
     rs_body := b |}.

Definition with_cors (r : Resp) (origin : option bytes) : Resp :=
  match origin with
  | Some origin =>
      insert_headers [("access-control-allow-origin", origin);
                      static "access-control-allow-methods" "POST, OPTIONS";
                      static "access-control-allow-headers" "Content-Type";
                      static "vary" "Origin"] r
  | None => r
  end.

Definition found (location : string) : Resp :=
  match header_value location with
  | Some v => {| rs_status := 302; rs_headers := [("location", v)]; rs_body := [] |}
  | None => bare 500
  end.
End Responses.

(** ** Outbound requests *)

Inductive OutboundPurpose :=
  | PDiscovery | PJwks | PTokenExchange | PRefresh | PClientAssertionMetadata | PClientAssertionJwks.

Definition purpose_str (p : OutboundPurpose) : string :=
  match p with
  | PDiscovery => "discovery"
  | PJwks => "jwks"
  | PTokenExchange => "token_exchange"
  | PRefresh => "refresh"
  | PClientAssertionMetadata => "client_assertion_metadata"
  | PClientAssertionJwks => "client_assertion_jwks"
  end.

Record Scope := { sc_relay : option ResourceKey; sc_upstream : option ResourceKey }.

Inductive SendError := Denied | Failed.

(** [RelayConfig::http] and [RelayConfig::client_assertion_http]. *)
Inductive Client := UpstreamHttp | ClientAssertionHttp.

(** The two caches of [CachedJson] entries. *)
Inductive Cache := UpstreamCache | AssertionMetadata.

Record CachedJson := { fetched : Z; cached_value : Value }.

Definition DISCOVERY_TTL : Duration := from_secs 3600.
Definition JWKS_TTL : Duration := from_secs 600.
Definition JWKS_REFRESH_COOLDOWN : Duration := from_secs 30.
Definition DISCOVERY_ABSENT_COOLDOWN : Duration := from_secs 30.
Definition METADATA_FETCH_TIMEOUT : Duration := from_secs 10.

Inductive FetchFailure := Absent | FetchUnavailable.

Section Web.
Context {U : UrlLib} {JW : JwtLib}.

(** The keys of one URL: a set with the instant it was fetched, and when a refresh may be tried
    again. *)
Record CachedClientJwks := { cj_current : option (Z * list jwk); cj_retry_after : option Z }.

Record HttpRequest := {
  rq_url : url;
  rq_headers : list (string * string);
  rq_form : option (list (string * string));   (* a POST with this form, or a GET *)
  rq_timeout : option Duration;
}.

Record HttpResponse := {
  rp_url : url;
  rp_status : Z;
  rp_content_type : option bytes;
  rp_body : option bytes;                       (* [None]: reading the body fails *)
}.

Record OutboundRequest := { or_url : url; or_purpose : OutboundPurpose; or_scope : Scope }.

Inductive reff : Type :=
  | Core (e : eff)
  | ResolveRelay (k : ResourceKey)
  | ResolveUpstream (k : ResourceKey)
  | CheckOutbound (r : OutboundRequest)        (* whether the policy approves *)
  | Execute (c : Client) (r : HttpRequest)     (* [None]: the request fails *)
  | CacheGet (c : Cache) (key : string)
  | CacheInsert (c : Cache) (key : string) (entry : CachedJson)
  | AbsentGet (key : string)
  | AbsentInsert (key : string) (since : Z)
  | AbsentRemove (key : string)
  | JwksLock (key : string)                    (* waits for the URL's lock; the entry as it is *)
  | JwksSet (key : string) (entry : CachedClientJwks)
  | JwksUnlock (key : string)
  | Within (d : Duration) (e : reff).          (* a call under [tokio::time::timeout] *)

Fixpoint rans (e : reff) : Type :=
  match e with
  | Core e => ans e
  | ResolveRelay _ => result (option Relay) string
  | ResolveUpstream _ => result (option Upstream) string
  | CheckOutbound _ => bool
  | Execute _ _ => option HttpResponse
  | CacheGet _ _ => option CachedJson
  | CacheInsert _ _ _ | AbsentInsert _ _ | AbsentRemove _ | JwksSet _ _ | JwksUnlock _ => unit
  | JwksLock _ => CachedClientJwks
  | AbsentGet _ => option Z
  | Within _ e => option (rans e)
  end.

Notation rio := (prog reff rans).

(** [tokio::time::timeout] of a handler's program. *)
Fixpoint within {A} (d : Duration) (p : rio A) : rio (option A) :=
  match p with
  | Ret a => Ret (Some a)
  | Op e k => Op (Within d e) (fun o => match o with Some a => within d (k a) | None => Ret None end)
  end.

(** The programs of the refresh-token code, with the router's [UpstreamRefresher]. *)
Section Lift.
Context (refresher : string -> rio (result StoredResponse UpstreamFailure)).

Fixpoint lift_eff (e : eff) : rio (ans e) :=
  match e as e return rio (ans e) with
  | RefreshCall token => refresher token
  | Timeout d e => within d (lift_eff e)
  | Now => call (Core Now)
  | InstantNow => call (Core InstantNow)
  | SleepUntil t => call (Core (SleepUntil t))
  | Random n => call (Core (Random n))
  | StoreCall o => call (Core (StoreCall o))
  | SealCall p ad => call (Core (SealCall p ad))
  | UnsealCall e ad => call (Core (UnsealCall e ad))
  end.

Fixpoint lift_with {A} (p : io A) : rio A :=
  match p with
  | Ret a => Ret a
  | Op e k => bind (lift_eff e) (fun a => lift_with (k a))
  end.
End Lift.

(** A program that does not refresh. *)
Definition lift {A} (p : io A) : rio A := lift_with (fun _ => Ret (Err Request)) p.

Definition do_core (e : eff) : rio (ans e) := call (Core e).

(** [unix_now], from the same clock as the rotator's milliseconds. *)
Definition unix_now : rio Z := now <- do_core Now ;; Ret (now / 1000)%Z.

(** ** Configuration and state *)

Record RelayConfig := {
  public_url : url;
  has_store : bool;       (* [store.is_some()] *)
  has_policy : bool;      (* [outbound.is_some()] *)
  redirect : RedirectOptions;
}.

Context {L : PathLayout} (cfg : RelayConfig).

Definition scope_of (r : Relay) (u : Upstream) : Scope :=
  {| sc_relay := Some (relay_key r); sc_upstream := Some (up_key u) |}.

Definition route_prefix : string := trim_end "/" (path (public_url cfg)).

Definition endpoint_url (e : Endpoint) (key : ResourceKey) : url :=
  let u := set_path (public_url cfg)
    (trim_end "/" (path (public_url cfg)) +:+ "/" +:+ trim_start "/" (layout_path e key)) in
  set_fragment (set_query u None) None.

Definition discovery_url (issuer : url) : url :=
  let u := set_path issuer (trim_end "/" (path issuer) +:+ "/.well-known/openid-configuration") in
  set_fragment (set_query u None) None.

(** ** Sending *)

Definition send_checked (c : Client) (request : HttpRequest) (purpose : OutboundPurpose) (scope : Scope)
    : rio (result HttpResponse SendError) :=
  approved <- (if has_policy cfg
               then call (CheckOutbound {| or_url := rq_url request; or_purpose := purpose; or_scope := scope |})
               else Ret true) ;;
  if negb approved then Ret (Err Denied) else
  response <- call (Execute c request) ;;
  Ret (match response with
       | None => Err Failed
       | Some response =>
           if bool_decide (rp_url response <> rq_url request) || status_redirection (rp_status response)
           then Err Failed else Ok response
       end).

Section Documents.
Context {J : JsonLib} {HL : HeaderLib}.

Definition get_request (u : url) (timeout : option Duration) : HttpRequest :=
  {| rq_url := u; rq_headers := []; rq_form := None; rq_timeout := timeout |}.

Definition fetch_json_object (c : Client) (scope : Scope) (u : url) (purpose : OutboundPurpose)
    : rio (result Value FetchFailure) :=
  response <- send_checked c (get_request u (Some METADATA_FETCH_TIMEOUT)) purpose scope ;;
  Ret (match response with
       | Err _ => Err FetchUnavailable
       | Ok response =>
           if bool_decide (rp_status response ∈ [404; 410]%Z) then Err Absent
           else if negb (status_success (rp_status response)) then Err FetchUnavailable
           else match rp_body response with
           | None => Err FetchUnavailable
           | Some body =>
               match from_slice body with
               | Some value => if is_object value then Ok value else Err Absent
               | None => Err Absent
               end
           end
       end).

Definition cache_key (purpose : OutboundPurpose) (u : url) : string :=
  purpose_str purpose +:+ "|" +:+ as_str u.

(** A cached entry, when it is younger than [ttl]. *)
Definition cached_fresh (c : Cache) (key : string) (ttl : Duration) : rio (option Value) :=
  entry <- call (CacheGet c key) ;;
  match entry with
  | None => Ret None
  | Some entry =>
      now <- do_core InstantNow ;;
      Ret (if (saturating_sub now (fetched entry) <? ttl)%Z then Some (cached_value entry) else None)
  end.

Definition cache_insert (c : Cache) (key : string) (v : Value) : rio unit :=
  now <- do_core InstantNow ;;
  call (CacheInsert c key {| fetched := now; cached_value := v |}).

(** The error is a status code. *)
Definition cached_json_with_client (cache : Cache) (c : Client) (scope : Scope) (u : url)
    (ttl : Duration) (purpose : OutboundPurpose) : rio (result Value Z) :=
  let key := cache_key purpose u in
  cached <- cached_fresh cache key ttl ;;
  match cached with
  | Some v => Ret (Ok v)
  | None =>
      value <- fetch_json_object c scope u purpose ;;
      match value with
      | Err _ => Ret (Err 502%Z)
      | Ok value => _ <- cache_insert cache key value ;; Ret (Ok value)
      end
  end.

Definition cached_json (scope : Scope) (u : url) (ttl : Duration) (purpose : OutboundPurpose)
    : rio (result Value Z) :=
  cached_json_with_client UpstreamCache UpstreamHttp scope u ttl purpose.

Definition optional_discovery (r : Relay) (u : Upstream) : rio (result (option Value) Z) :=
  let target := discovery_url (issuer_url u) in
  let key := cache_key PDiscovery target in
  cached <- cached_fresh UpstreamCache key DISCOVERY_TTL ;;
  match cached with
  | Some v => Ret (Ok (Some v))
  | None =>
      since <- call (AbsentGet key) ;;
      cooling <- match since with
                 | Some since =>
                     now <- do_core InstantNow ;;
                     Ret (saturating_sub now since <? DISCOVERY_ABSENT_COOLDOWN)%Z
                 | None => Ret false
                 end ;;
      if cooling : bool
      then Ret (Ok None) else
      doc <- fetch_json_object UpstreamHttp (scope_of r u) target PDiscovery ;;
      match doc with
      | Ok doc =>
          _ <- call (AbsentRemove key) ;;
          _ <- cache_insert UpstreamCache key doc ;;
          Ret (Ok (Some doc))
      | Err Absent =>
          now <- do_core InstantNow ;;
          _ <- call (AbsentInsert key now) ;;
          Ret (Ok None)
      | Err FetchUnavailable => Ret (Err 502%Z)
      end
  end.

(** ** Endpoints *)

Record ResolvedEndpoints := {
  re_authorization_endpoint : url;
  re_token_endpoint : url;
  re_jwks_uri : option url;
}.

Definition url_field (doc : Value) (name : string) : option url :=
  text ← get_str doc name; match url_parse text with Ok u => Some u | Err _ => None end.

Definition or_field (configured : option url) (doc : Value) (name : string) : option url :=
  match configured with Some u => Some u | None => url_field doc name end.

Definition endpoints_need_discovery (u : Upstream) : bool :=
  bool_decide (authorization_endpoint u = None) || bool_decide (token_endpoint u = None).

Definition resolve_endpoints_from_doc (u : Upstream) (doc : Value) : result ResolvedEndpoints Z :=
  (a <-? ok_or (or_field (authorization_endpoint u) doc "authorization_endpoint") 502%Z ;;
   t <-? ok_or (or_field (token_endpoint u) doc "token_endpoint") 502%Z ;;
   Ok {| re_authorization_endpoint := a; re_token_endpoint := t;
         re_jwks_uri := or_field (jwks_uri u) doc "jwks_uri" |})%relay.

Definition resolve_endpoints (r : Relay) (u : Upstream) : rio (result ResolvedEndpoints Z) :=
  if negb (endpoints_need_discovery u) then Ret (resolve_endpoints_from_doc u (Object []))
  else
    doc <-! cached_json (scope_of r u) (discovery_url (issuer_url u)) DISCOVERY_TTL PDiscovery ;;
    Ret (resolve_endpoints_from_doc u doc).

Definition resolve_jwks_uri (r : Relay) (u : Upstream) : rio (result (option url) Z) :=
  match jwks_uri u with
  | Some uri => Ret (Ok (Some uri))
  | None =>
      doc <-! optional_discovery r u ;;
      Ret (Ok (doc ← doc; url_field doc "jwks_uri"))
  end.

(** ** The JWKS handler *)

Definition jwks (r : Relay) (u : Upstream) : rio Resp :=
  uri <- resolve_jwks_uri r u ;;
  match uri with
  | Ok (Some uri) =>
      value <- cached_json (scope_of r u) uri JWKS_TTL PJwks ;;
      Ret (match value with Ok value => json_response 200 value | Err status => bare status end)
  | Ok None => Ret (bare 404)
  | Err status => Ret (bare status)
  end.

(** ** The keys of client assertions *)

(** The entry's set, when it is younger than [JWKS_TTL]. *)
Definition current_keys (entry : CachedClientJwks) : rio (option (list jwk)) :=
  match cj_current entry with
  | None => Ret None
  | Some (at_, set) =>
      now <- do_core InstantNow ;;
      Ret (if (saturating_sub now at_ <? JWKS_TTL)%Z then Some set else None)
  end.

Definition cooling (entry : CachedClientJwks) : rio bool :=
  match cj_retry_after entry with
  | None => Ret false
  | Some deadline => now <- do_core InstantNow ;; Ret (now <? deadline)%Z
  end.

(** The fetch under the lock: [forced] when a usable set was there already. *)
Definition fetch_keys (scope : Scope) (u : url) (entry : CachedClientJwks) (forced : bool)
    : rio (option (list jwk)) :=
  let key := as_str u in
  now <- do_core InstantNow ;;
  let waiting := {| cj_current := cj_current entry; cj_retry_after := Some (now + JWKS_REFRESH_COOLDOWN)%Z |} in
  _ <- call (JwksSet key waiting) ;;
  response <- send_checked ClientAssertionHttp (get_request u None) PClientAssertionJwks scope ;;
  match response with
  | Err Denied => _ <- call (JwksSet key entry) ;; Ret None
  | Err Failed => Ret None
  | Ok response =>
      if negb (status_success (rp_status response)) then Ret None else
      match (b ← rp_body response; jwk_set_from_slice b) with
      | None => Ret None
      | Some set =>
          now <- do_core InstantNow ;;
          _ <- call (JwksSet key {| cj_current := Some (now, set);
                  cj_retry_after := if forced then cj_retry_after waiting else None |}) ;;
          Ret (Some set)
      end
  end.

(** The body of [client_assertion_jwks] while it holds the entry's lock. *)
Definition keys_under_lock (scope : Scope) (u : url) (missing_kid : option string) (entry : CachedClientJwks)
    : rio (option (list jwk)) :=
  current <- current_keys entry ;;
  match current with
  | Some set =>
      if match missing_kid with Some kid => has_kid kid set | None => true end then Ret (Some set) else
      waiting <- cooling entry ;;
      if waiting : bool then Ret (Some set) else fetch_keys scope u entry true
  | None =>
      waiting <- cooling entry ;;
      if waiting : bool then Ret None else fetch_keys scope u entry false
  end.

Definition client_assertion_jwks (scope : Scope) (u : url) (missing_kid : option string)
    : rio (option (list jwk)) :=
  let key := as_str u in
  entry <- call (JwksLock key) ;;
  keys <- keys_under_lock scope u missing_kid entry ;;
  _ <- call (JwksUnlock key) ;;
  Ret keys.

(** ** The discovery handler *)

Definition UPSTREAM_ONLY_METADATA : list string :=
  ["require_pushed_authorization_requests";
   "backchannel_authentication_request_signing_alg_values_supported";
   "backchannel_token_delivery_modes_supported";
   "backchannel_user_code_parameter_supported";
   "mtls_endpoint_aliases";
   "tls_client_certificate_bound_access_tokens";
   "dpop_signing_alg_values_supported";
   "require_request_uri_registration";
   "require_signed_request_object";
   "request_object_signing_alg_values_supported";
   "request_object_encryption_alg_values_supported";
   "request_object_encryption_enc_values_supported";
   "authorization_signing_alg_values_supported";
   "authorization_encryption_alg_values_supported";
   "authorization_encryption_enc_values_supported";
   "check_session_iframe";
   "frontchannel_logout_supported";
   "frontchannel_logout_session_supported";
   "backchannel_logout_supported";
   "backchannel_logout_session_supported";
   "http_logout_supported";
   "signed_metadata"].

Definition RELAY_CLIENT_ENDPOINTS : list string :=
  ["authorization_endpoint"; "token_endpoint"; "userinfo_endpoint"; "end_session_endpoint";
   "revocation_endpoint"; "introspection_endpoint"].

Definition UPSTREAM_TOKEN_MANAGEMENT_METADATA : list string :=
  ["revocation_endpoint";
   "revocation_endpoint_auth_methods_supported";
   "revocation_endpoint_auth_signing_alg_values_supported";
   "introspection_endpoint";
   "introspection_endpoint_auth_methods_supported";
   "introspection_endpoint_auth_signing_alg_values_supported";
   "introspection_signing_alg_values_supported";
   "introspection_encryption_alg_values_supported";
   "introspection_encryption_enc_values_supported"].

(** [CLIENT_ASSERTION_ALGORITHMS], as they print. *)
Definition CLIENT_ASSERTION_ALGORITHMS : list string :=
  ["RS256"; "RS384"; "RS512"; "PS256"; "PS384"; "PS512"; "ES256"; "ES384"; "EdDSA"].

Definition strs (l : list string) : Value := Array (Str <$> l).

Definition kept_metadata (name : string) : bool :=
  negb (bool_decide (name ∈ UPSTREAM_ONLY_METADATA))
  && (bool_decide (strip_suffix "_endpoint" name = None) || bool_decide (name ∈ RELAY_CLIENT_ENDPOINTS)).

(** Whether the refresh grant is advertised. *)
Definition advertises_refresh (doc : list (string * Value)) : bool :=
  match (v ← member "grant_types_supported" doc; as_array v) with
  | Some upstream => existsb (fun v => match v with Str s => bool_decide (s = "refresh_token") | _ => false end) upstream
  | None => true
  end.

Definition auth_methods (a : ClientAuth) : Value :=
  match a with
  | UpstreamClient | ClientSecret _ _ => strs ["client_secret_basic"; "client_secret_post"]
  | Public => strs ["none"]
  | PrivateKeyJwt _ _ _ _ _ _ => strs ["private_key_jwt"]
  end.

Definition is_private_key_jwt (a : ClientAuth) : bool :=
  match a with PrivateKeyJwt _ _ _ _ _ _ => true | _ => false end.

Definition describe_relay (doc : list (string * Value)) (r : Relay) : list (string * Value) :=
  let doc := retain kept_metadata doc in
  let doc := if bool_decide (mode (refresh_tokens r) <> Passthrough)
             then foldl (fun doc name => remove name doc) doc UPSTREAM_TOKEN_MANAGEMENT_METADATA else doc in
  let doc := insert "response_types_supported" (strs ["code"]) doc in
  let doc := insert "response_modes_supported" (strs ["query"]) doc in
  let doc := insert "grant_types_supported"
    (strs (if advertises_refresh doc then ["authorization_code"; "refresh_token"] else ["authorization_code"])) doc in
  let doc := insert "code_challenge_methods_supported" (strs ["S256"]) doc in
  let doc := insert "request_parameter_supported" (Bool false) doc in
  let doc := insert "request_uri_parameter_supported" (Bool false) doc in
  let doc := match allowed_scopes r with Some allowed => insert "scopes_supported" (strs allowed) doc | None => doc end in
  let doc := insert "token_endpoint_auth_methods_supported" (auth_methods (client_auth r)) doc in
  if is_private_key_jwt (client_auth r)
  then insert "token_endpoint_auth_signing_alg_values_supported" (strs CLIENT_ASSERTION_ALGORITHMS) doc
  else remove "token_endpoint_auth_signing_alg_values_supported" doc.

(** The members [discovery] serves, from the upstream's document. *)
Definition relay_document (r : Relay) (u : Upstream) (uri : option url) (doc : list (string * Value))
    : list (string * Value) :=
  let issuer := match get_str (Object doc) "issuer" with
    | Some issuer => issuer
    | None => if bool_decide (path (issuer_url u) = "/") then trim_end "/" (as_str (issuer_url u))
              else as_str (issuer_url u)
    end in
  let doc := insert "issuer" (Str issuer) doc in
  let doc := insert "authorization_endpoint" (Str (as_str (endpoint_url Authorize (relay_key r)))) doc in
  let doc := insert "token_endpoint" (Str (as_str (endpoint_url Token (relay_key r)))) doc in
  let doc := match uri with
             | Some uri => insert "jwks_uri" (Str (as_str uri)) doc
             | None => remove "jwks_uri" doc
             end in
  describe_relay doc r.

(** The document [discovery] starts from. *)
Definition discovery_source (r : Relay) (u : Upstream) : rio (result Value Z) :=
  if endpoints_need_discovery u then
    cached_json (scope_of r u) (discovery_url (issuer_url u)) DISCOVERY_TTL PDiscovery
  else if bool_decide (is_Some (jwks_uri u)) then Ret (Ok (Object []))
  else doc <-! optional_discovery r u ;; Ret (Ok (default (Object []) doc)).

Definition discovery (r : Relay) (u : Upstream) : rio Resp :=
  doc <- discovery_source r u ;;
  Ret (match doc with
       | Err status => bare status
       | Ok doc =>
           match resolve_endpoints_from_doc u doc with
           | Err status => bare status
           | Ok endpoints =>
               json_response 200
                 (Object (relay_document r u (re_jwks_uri endpoints) (default [] (as_object doc))))
           end
       end).
End Documents.
End Web.
#[global] Notation rio := (prog reff rans).
