(* ===== verification/Flows.v ===== *)
(** * Flows: the authorize and callback handlers

    Models the authorization-code flow of crates/oauthrelay-core/src/router.rs up to the
    relying party's code: [authorize] seals a flow into the [state] it sends to the upstream, and
    [callback] opens it, exchanges the upstream's code, and seals the token response into the code
    it hands the relying party. *)

From S2P Require Import Prelude Text Json Url Model Layout Seal Prog Effects RefreshHandle Requests Jwt Web.
#[local] Open Scope string_scope.
#[local] Open Scope prog_scope.

Definition FLOW_TTL : Z := 10 * 60.
Definition CODE_TTL : Z := 5 * 60.

Record FlowEnvelope := {
  fl_relay_key : string;
  fl_app_redirect_uri : string;
  fl_app_state : option string;
  fl_upstream_pkce_verifier : string;
  fl_client_code_challenge : option string;
  fl_client_code_challenge_method : option string;
  fl_id_token_nonce : option string;
  fl_issued_at : Z;
  fl_nonce : bytes;
}.

Record CodeEnvelope := {
  ce_relay_key : string;
  ce_envelope_id : bytes;
  ce_issued_at : Z;
  ce_redirect_uri : string;
  ce_client_code_challenge : option string;
  ce_id_token_nonce : option string;
  ce_upstream_response : StoredResponse;
  ce_handle_fingerprint : bytes;
}.

Inductive UnsealError := UInvalid | UUnavailable.

(** [random_urlsafe] and [random_array]. *)
Definition urlsafe_of {B : Base64} (random : bytes) : string := b64_encode random.

Section Flows.
Context {U : UrlLib} {L : PathLayout} {J : JsonLib} {HL : HeaderLib} {F : FormLib}.
Context {H : Sha256} {B : Base64} {BS : Base64Std} {JW : JwtLib}.
Context {PF : Postcard FlowEnvelope} {PC : Postcard CodeEnvelope}.
Context (cfg : RelayConfig).

Definition random_urlsafe (n : nat) : rio string := b <- do_core (Random n) ;; Ret (urlsafe_of b).

Definition rotation_store_missing (r : Relay) : bool :=
  bool_decide (mode (refresh_tokens r) = Rotating) && negb (has_store cfg).

(** The error is a status code. *)
Definition seal_postcard {T} {P : Postcard T} (key : ResourceKey) (value : T) : rio (result string Z) :=
  b <-? ok_or (to_stdvec value) 500%Z ;;
  sealed <- do_core (SealCall b (into_bytes (key_str key))) ;;
  Ret (map_err (fun e => match e with Unavailable => 503 | InvalidKey | InvalidEnvelope => 500 end)%Z sealed).

Definition unseal_postcard {T} {P : Postcard T} (key : ResourceKey) (value : string)
    : rio (result T UnsealError) :=
  b <- do_core (UnsealCall value (into_bytes (key_str key))) ;;
  Ret (match b with
       | Err Unavailable => Err UUnavailable
       | Err _ => Err UInvalid
       | Ok b => ok_or (from_postcard b) UInvalid
       end).

(** [fresh], which reads the clock. *)
Definition fresh (issued_at ttl : Z) : rio bool := now <- unix_now ;; Ret (fresh_at now issued_at ttl).

(** ** Upstream token requests *)

Definition upstream_token_request (u : Upstream) (token_endpoint : url) (form : list (string * string))
    : HttpRequest :=
  match token_endpoint_auth_method u with
  | ClientSecretPost => {|
      rq_url := token_endpoint;
      rq_headers := [("accept", "application/json")];
      rq_form := Some (form ++ [("client_id", up_client_id u); ("client_secret", up_client_secret u)])%list;
      rq_timeout := None |}
  | ClientSecretBasic => {|
      rq_url := token_endpoint;
      rq_headers := [("accept", "application/json");
                     ("authorization", basic_authorization (up_client_id u) (up_client_secret u))];
      rq_form := Some form;
      rq_timeout := None |}
  end.

Definition send_upstream_token_request (r : Relay) (u : Upstream) (token_endpoint : url)
    (form : list (string * string)) (purpose : OutboundPurpose) : rio (result HttpResponse SendError) :=
  send_checked cfg UpstreamHttp (upstream_token_request u token_endpoint form) purpose (scope_of r u).

Definition read_upstream_response (response : HttpResponse) : option StoredResponse :=
  b ← rp_body response;
  Some {| status := rp_status response; content_type := v ← rp_content_type response; to_str v; body := b |}.

(** ** Authorize *)

(** The checks on the request, up to the scope that is sent upstream: [None] answers 400. *)
Definition authorize_checks (r : Relay) (q : AuthorizeRequest) : option (string * option string) :=
  redirect_value ← aq_redirect_uri q;
  if negb (redirect_allowed r redirect_value (redirect cfg)) then None
  else if match aq_code_challenge_method q with Some m => bool_decide (m <> "S256") | None => false end then None
  else if bool_decide (aq_code_challenge q = None) && bool_decide (is_Some (aq_code_challenge_method q)) then None
  else if is_public (client_auth r) && bool_decide (aq_code_challenge q = None) then None
  else if match aq_code_challenge q with Some c => negb (valid_pkce_challenge c) | None => false end then None
  else match aq_scope q with
       | Some scope => if scope_allowed r scope then Some (redirect_value, Some scope) else None
       | None => Some (redirect_value, if bool_decide (scopes r = []) then None else Some (join " " (scopes r)))
       end.

Definition flow_of (r : Relay) (q : AuthorizeRequest) (redirect_value verifier : string) (issued : Z)
    (nonce : bytes) : FlowEnvelope := {|
  fl_relay_key := key_str (relay_key r);
  fl_app_redirect_uri := redirect_value;
  fl_app_state := aq_state q;
  fl_upstream_pkce_verifier := verifier;
  fl_client_code_challenge := aq_code_challenge q;
  fl_client_code_challenge_method := (fun _ => "S256") <$> aq_code_challenge q;
  fl_id_token_nonce := aq_id_token_nonce q;
  fl_issued_at := issued;
  fl_nonce := nonce;
|}.

(** The query of the redirect to the upstream. *)
Definition upstream_params (u : Upstream) (q : AuthorizeRequest) (sealed verifier : string)
    (scope : option string) : list (string * string) :=
  ([("response_type", "code");
    ("client_id", up_client_id u);
    ("redirect_uri", as_str (endpoint_url cfg Callback (up_key u)));
    ("state", sealed);
    ("code_challenge", pkce_challenge verifier);
    ("code_challenge_method", "S256")]
   ++ match scope with Some scope => [("scope", scope)] | None => [] end
   ++ aq_forwarded q)%list.

Definition authorize (r : Relay) (u : Upstream) (q : AuthorizeRequest) : rio Resp :=
  if rotation_store_missing r then Ret (bare 500) else
  match authorize_checks r q with
  | None => Ret (bare 400)
  | Some (redirect_value, scope) =>
      endpoints <- resolve_endpoints cfg r u ;;
      match endpoints with
      | Err status => Ret (bare status)
      | Ok endpoints =>
          verifier <- random_urlsafe 64 ;;
          issued <- unix_now ;;
          nonce <- do_core (Random 16) ;;
          sealed <- seal_postcard (up_key u) (flow_of r q redirect_value verifier issued nonce) ;;
          Ret (match sealed with
               | Err status => bare status
               | Ok sealed =>
                   found (as_str (append_pairs (re_authorization_endpoint endpoints)
                                    (upstream_params u q sealed verifier scope)))
               end)
      end
  end.

(** ** Callback *)

Definition open_flow (u : Upstream) (q : CallbackRequest) : rio (result FlowEnvelope Z) :=
  flow <- unseal_postcard (up_key u) (cb_state q) ;;
  match flow with
  | Ok flow =>
      ok <- fresh (fl_issued_at flow) FLOW_TTL ;;
      Ret (if ok : bool then Ok flow else Err 400%Z)
  | Err UUnavailable => Ret (Err 503%Z)
  | Err UInvalid => Ret (Err 400%Z)
  end.

(** The relay the flow belongs to, when it still uses this upstream and is still valid. *)
Definition flow_relay (u : Upstream) (flow : FlowEnvelope) : rio (option Relay) :=
  match ResourceKey_new (fl_relay_key flow) with
  | Err _ => Ret None
  | Ok key =>
      relay <- call (ResolveRelay key) ;;
      Ret (match relay with
           | Ok (Some r) =>
               if bool_decide (relay_upstream r = up_key u) && is_ok (validate_for r (redirect cfg))
               then Some r else None
           | _ => None
           end)
  end.

(** The pairs [callback] adds last. *)
Definition state_pairs (flow : FlowEnvelope) : list (string * string) :=
  match fl_app_state flow with Some s => [("state", s)] | None => [] end.

Definition exchange_form (u : Upstream) (flow : FlowEnvelope) (code : string) : list (string * string) :=
  [("grant_type", "authorization_code");
   ("code", code);
   ("redirect_uri", as_str (endpoint_url cfg Callback (up_key u)));
   ("code_verifier", fl_upstream_pkce_verifier flow)].

Definition code_envelope (r : Relay) (u : Upstream) (flow : FlowEnvelope) (response : StoredResponse)
    (id : bytes) (issued : Z) : CodeEnvelope := {|
  ce_relay_key := key_str (relay_key r);
  ce_envelope_id := id;
  ce_issued_at := issued;
  ce_redirect_uri := fl_app_redirect_uri flow;
  ce_client_code_challenge := fl_client_code_challenge flow;
  ce_id_token_nonce := fl_id_token_nonce flow;
  ce_upstream_response := response;
  ce_handle_fingerprint := fingerprint r u;
|}.

(** The redirect to the relying party, when the upstream answered with a code. *)
Definition exchange_code (r : Relay) (u : Upstream) (q : CallbackRequest) (flow : FlowEnvelope) (code : string)
    : rio Resp :=
  endpoints <- resolve_endpoints cfg r u ;;
  match endpoints with
  | Err status => Ret (bare status)
  | Ok endpoints =>
      response <- send_upstream_token_request r u (re_token_endpoint endpoints) (exchange_form u flow code) PTokenExchange ;;
      match response with
      | Err _ => Ret (bare 502)
      | Ok response =>
          match read_upstream_response response with
          | None => Ret (bare 502)
          | Some stored =>
              id <- do_core (Random 16) ;;
              issued <- unix_now ;;
              sealed <- seal_postcard (relay_key r) (code_envelope r u flow stored id issued) ;;
              Ret (match sealed with
                   | Err status => bare status
                   | Ok sealed =>
                       found (append_query_pairs
                         (append_query_pairs
                           (append_query_pairs (fl_app_redirect_uri flow) [("code", sealed)])
                           (cb_forwarded q))
                         (state_pairs flow))
                   end)
          end
      end
  end.

(** [callback], once the flow's relay is known. *)
Definition finish_callback (r : Relay) (u : Upstream) (q : CallbackRequest) (flow : FlowEnvelope) : rio Resp :=
  if negb (redirect_allowed r (fl_app_redirect_uri flow) (redirect cfg)) then Ret (bare 400)
  else if cb_error q then
    Ret (found (append_query_pairs
      (append_query_pairs (fl_app_redirect_uri flow) (cb_forwarded q)) (state_pairs flow)))
  else match cb_code q with
       | None => Ret (bare 400)
       | Some code => exchange_code r u q flow code
       end.

Definition callback (u : Upstream) (q : CallbackRequest) : rio Resp :=
  flow <- open_flow u q ;;
  match flow with
  | Err status => Ret (bare status)
  | Ok flow =>
      relay <- flow_relay u flow ;;
      match relay with
      | None => Ret (bare 400)
      | Some r => finish_callback r u q flow
      end
  end.
End Flows.
