(* ===== verification/Grants.v ===== *)
(** * Grants: the token endpoint

    Models the token endpoint of crates/oauthrelay-core/src/router.rs: client authentication
    (with [private_key_jwt] assertions), the redemption of a sealed code, ID-token admission, and
    the refresh grant in its three modes. Signed tokens are verified by the jsonwebtoken crate,
    which enters as [JwtLib]. *)

From S2P Require Import Prelude Text Json Url IdTokenPolicy Model Layout Store Seal Prog Effects RefreshHandle.
From S2P Require Import Rotation Requests Jwt Web Flows.
#[local] Open Scope string_scope.
#[local] Open Scope prog_scope.

(** SHA-384 and SHA-512 of the sha2 crate. *)
Class Sha2 := { sha384 : bytes -> bytes; sha512 : bytes -> bytes }.

Definition ID_TOKEN_CLOCK_SKEW : Z := 60.
Definition REPLAY_CODE_PREFIX : string := "replay:code:".
Definition REPLAY_ASSERTION_PREFIX : string := "replay:client-assertion:".

Inductive IdTokenValidationError := Rejected | ValidationUnavailable.

Definition id_token_algorithms : list Algorithm := [RS256; RS384; RS512; PS256; PS384; PS512; ES256; ES384].
Definition client_assertion_algorithms : list Algorithm :=
  [RS256; RS384; RS512; PS256; PS384; PS512; ES256; ES384; EdDSA].

Section Grants.
Context {U : UrlLib} {L : PathLayout} {J : JsonLib} {HL : HeaderLib} {F : FormLib}.
Context {H : Sha256} {H2 : Sha2} {B : Base64} {BS : Base64Std} {JW : JwtLib}.
Context {PF : Postcard FlowEnvelope} {PC : Postcard CodeEnvelope}.
Context {PH : Postcard OpenedHandle} {PR : Postcard HandleRecord} {PS : Postcard StoredResponse}.
Context (cfg : RelayConfig).

(** ** ID-token admission *)

Definition valid_authorized_party (claims : Value) (client_id : string) : bool :=
  let multiple_audiences :=
    match (v ← get claims "aud"; as_array v) with
    | Some audiences => (1 <? length audiences)%nat
    | None => false
    end in
  match get claims "azp" with
  | Some v => bool_decide (Json.as_str v = Some client_id)
  | None => negb multiple_audiences
  end.

(** The left half of a digest, as [at_hash] carries it. *)
Definition half_digest (digest : bytes) : string := b64_encode (take (length digest / 2) digest).

Definition at_hash_of (alg : Algorithm) (access_token : string) : option string :=
  match alg with
  | RS256 | PS256 | ES256 => Some (half_digest (sha256 (into_bytes access_token)))
  | RS384 | PS384 | ES384 => Some (half_digest (sha384 (into_bytes access_token)))
  | RS512 | PS512 => Some (half_digest (sha512 (into_bytes access_token)))
  | _ => None
  end.

Definition valid_access_token_hash (claims token_response : Value) (alg : Algorithm) : bool :=
  match get claims "at_hash" with
  | None => true
  | Some actual =>
      match Json.as_str actual, get_str token_response "access_token" with
      | Some actual, Some access_token =>
          match at_hash_of alg access_token with
          | Some expected => constant_eq actual expected
          | None => false
          end
      | _, _ => false
      end
  end.

(** The claims beyond the signature, at [now] in seconds. *)
Definition id_token_claims_ok (u : Upstream) (claims token_response : Value) (alg : Algorithm)
    (expected_nonce : option string) (now : Z) : bool :=
  match get_str claims "sub" with Some subject => negb (is_empty subject) | None => false end
  && match (v ← get claims "iat"; as_u64 v) with
     | Some issued_at => (issued_at <=? now + ID_TOKEN_CLOCK_SKEW)%Z
     | None => false
     end
  && match expected_nonce with
     | Some expected => bool_decide (get_str claims "nonce" = Some expected)
     | None => true
     end
  && valid_authorized_party claims (up_client_id u)
  && valid_access_token_hash claims token_response alg.

(** [requiredIdTokenClaims] and [idTokenPolicy]. *)
Definition policy_matches (r : Relay) (claims : Value) : bool :=
  forallb (fun '(claim, expected) =>
      match get claims claim with Some (Str actual) => bool_decide (actual = expected) | _ => false end)
    (map_to_list (required_id_token_claims r))
  && match id_token_policy r with Some p => IdTokenPolicy.evaluate p claims | None => true end.

Definition id_token_validation (u : Upstream) (alg : Algorithm) : Validation := {|
  v_alg := alg;
  v_issuer := Some (issuer_identifier (issuer_url u));
  v_audience := Some (up_client_id u);
  v_required := ["iss"; "sub"; "aud"; "exp"; "iat"];
  v_nbf := true;
|}.

Definition policy_applies (r : Relay) (response : StoredResponse) : bool :=
  negb (bool_decide (required_id_token_claims r = ∅) && bool_decide (id_token_policy r = None))
  && (status_valid (status response) && status_success (status response)).

(** The keys of the upstream: every failure to get them is [Unavailable]. *)
Definition upstream_keys (r : Relay) (u : Upstream) : rio (result (list jwk) IdTokenValidationError) :=
  uri <- resolve_jwks_uri cfg r u ;;
  match uri with
  | Ok (Some uri) =>
      value <- cached_json cfg (scope_of r u) uri JWKS_TTL PJwks ;;
      Ret (match value with
           | Ok value => ok_or (jwk_set value) ValidationUnavailable
           | Err _ => Err ValidationUnavailable
           end)
  | _ => Ret (Err ValidationUnavailable)
  end.

Definition validate_id_token_policy (r : Relay) (u : Upstream) (response : StoredResponse)
    (expected_nonce : option string) : rio (result unit IdTokenValidationError) :=
  if negb (policy_applies r response) then Ret (Ok tt) else
  token_response <-? ok_or (from_slice (body response)) Rejected ;;
  id_token <-? ok_or (get_str token_response "id_token") Rejected ;;
  header <-? ok_or (decode_header id_token) Rejected ;;
  if negb (bool_decide (header.1 ∈ id_token_algorithms)) then Ret (Err Rejected) else
  set <-! upstream_keys r u ;;
  key <-? ok_or (key ← select_key set header.2; from_jwk key) Rejected ;;
  now <- unix_now ;;
  claims <-? ok_or (jwt_decode now id_token key (id_token_validation u header.1)) Rejected ;;
  now <- unix_now ;;
  Ret (if id_token_claims_ok u claims token_response header.1 expected_nonce now && policy_matches r claims
       then Ok tt else Err Rejected).

(** ** Client assertions *)

(** Where the client's keys come from: [None] is the inline set. *)
Definition assertion_keys_url (scope : Scope) (issuer : string) (source : option ClientJwks)
    : rio (option (option url)) :=
  match source with
  | Some (JwksInline _) => Ret (Some None)
  | Some (JwksUrl u) => Ret (Some (Some u))
  | None =>
      match url_parse issuer with
      | Err _ => Ret None
      | Ok u =>
          if negb (valid_discovery_url u) then Ret None else
          doc <- cached_json_with_client cfg AssertionMetadata ClientAssertionHttp scope (discovery_url u)
                   DISCOVERY_TTL PClientAssertionMetadata ;;
          Ret (match doc with
               | Err _ => None
               | Ok doc =>
                   if bool_decide (get_str doc "issuer" <> Some issuer) then None
                   else match url_field doc "jwks_uri" with
                        | Some u => if valid_discovery_url u then Some (Some u) else None
                        | None => None
                        end
               end)
      end
  end.

Definition assertion_keys (scope : Scope) (source : option ClientJwks) (remote : option url)
    (kid : option string) : rio (option (list jwk)) :=
  match source, remote with
  | _, Some u =>
      set <- client_assertion_jwks cfg scope u None ;;
      match set, kid with
      | Some set, Some kid =>
          if has_kid kid set then Ret (Some set) else client_assertion_jwks cfg scope u (Some kid)
      | set, _ => Ret set
      end
  | Some (JwksInline v), None => Ret (jwk_set v)
  | _, _ => Ret None
  end.

(** [iat] and [nbf] are not in the future. *)
Definition times_ok (claims : Value) (now : Z) : bool :=
  forallb (fun name =>
    match get claims name with
    | None => true
    | Some v => match as_u64 v with Some t => (t <=? saturating_add now LEEWAY)%Z | None => false end
    end) ["iat"; "nbf"].

Definition audience_ok (claims : Value) (audience : string) : bool :=
  match get claims "aud" with
  | Some (Str v) => bool_decide (v = audience)
  | Some (Array vs) => existsb (fun v => bool_decide (Json.as_str v = Some audience)) vs
  | _ => false
  end.

Definition assertion_validation (alg : Algorithm) : Validation :=
  {| v_alg := alg; v_issuer := None; v_audience := None; v_required := ["exp"]; v_nbf := true |}.

(** What identifies an assertion for single use. *)
Definition assertion_identity (issuer subject audience jti : string) : bytes :=
  to_vec (strs [issuer; subject; audience; jti]).

Definition single_use (issuer subject audience : string) (claims : Value) : rio bool :=
  match (v ← get claims "iat"; as_u64 v), (v ← get claims "exp"; as_u64 v), get_str claims "jti" with
  | Some issued_at, Some expires_at, Some jti =>
      if is_empty jti || (expires_at <=? issued_at)%Z || (300 <? expires_at - issued_at)%Z || negb (has_store cfg)
      then Ret false else
      now <- unix_now ;;
      let key := REPLAY_ASSERTION_PREFIX
        +:+ b64_encode (sha256 (assertion_identity issuer subject audience jti)) in
      let ttl := saturating_add (saturating_sub (saturating_add expires_at LEEWAY) now) 1 in
      marker <- do_core (Random 16) ;;
      stored <- do_core (StoreCall (PutIfAbsent key marker (from_secs ttl))) ;;
      Ret (match stored with Ok b => b | Err _ => false end)
  | _, _, _ => Ret false
  end.

Definition verify_private_key_jwt (relay : option ResourceKey) (audience issuer subject : string)
    (source : option ClientJwks) (assertion : string) (require_single_use : bool) : rio bool :=
  let scope := {| sc_relay := relay; sc_upstream := None |} in
  match decode_header assertion with
  | None => Ret false
  | Some (alg, kid) =>
      if negb (bool_decide (alg ∈ client_assertion_algorithms)) then Ret false else
      remote <- assertion_keys_url scope issuer source ;;
      match remote with
      | None => Ret false
      | Some remote =>
          set <- assertion_keys scope source remote kid ;;
          match (set ← set; key ← select_key set kid; from_jwk key) with
          | None => Ret false
          | Some key =>
              now <- unix_now ;;
              match jwt_decode now assertion key (assertion_validation alg) with
              | None => Ret false
              | Some claims =>
                  if negb (bool_decide (get_str claims "iss" = Some issuer)
                           && bool_decide (get_str claims "sub" = Some subject)) then Ret false else
                  now <- unix_now ;;
                  if negb (times_ok claims now) then Ret false else
                  if negb (audience_ok claims audience) then Ret false else
                  if require_single_use then single_use issuer subject audience claims else Ret true
              end
          end
      end
  end.

Definition JWT_BEARER : string := "urn:ietf:params:oauth:client-assertion-type:jwt-bearer".

Definition authenticate (r : Relay) (u : Upstream) (form : TokenRequest) (headers : HeaderMap)
    : rio (result unit AuthFailure) :=
  match client_auth r with
  | UpstreamClient => Ret (password headers form (up_client_id u) (up_client_secret u))
  | Public => Ret (public_client headers form)
  | ClientSecret client_id client_secret => Ret (password headers form client_id client_secret)
  | PrivateKeyJwt require_single_use client_id issuer subject audience jwks =>
      if bool_decide (tk_client_assertion_type form <> Some JWT_BEARER)
         || bool_decide (tk_client_id form <> Some client_id) then Ret (Err (InvalidClient false))
      else match tk_client_assertion form with
      | None => Ret (Err (InvalidClient false))
      | Some assertion =>
          ok <- verify_private_key_jwt (Some (relay_key r))
                  (default (as_str (endpoint_url cfg Token (relay_key r))) audience)
                  (default client_id issuer) (default client_id subject) jwks assertion require_single_use ;;
          Ret (if ok : bool then Ok tt else Err (InvalidClient false))
      end
  end.

(** ** Redeeming a code *)

Definition invalid_grant (description : string) : Resp := oauth_error 400 "invalid_grant" description.

(** [None]: the code and the request agree. *)
Definition code_mismatch (r : Relay) (envelope : CodeEnvelope) (form : TokenRequest) : option Resp :=
  if bool_decide (tk_redirect_uri form <> Some (ce_redirect_uri envelope))
  then Some (invalid_grant "redirect_uri does not match")
  else match ce_client_code_challenge envelope, tk_code_verifier form with
  | Some _, None => Some (invalid_grant "code_verifier is required")
  | Some expected, Some verifier =>
      if negb (valid_pkce_verifier verifier) then Some (invalid_grant "invalid code_verifier")
      else if negb (constant_eq expected (pkce_challenge verifier))
      then Some (invalid_grant "PKCE verification failed") else None
  | None, Some _ =>
      Some (invalid_grant "code_verifier was sent but the authorization request had no code_challenge")
  | None, None =>
      if is_public (client_auth r) then Some (invalid_grant "PKCE challenge is missing") else None
  end.

Definition replay_key (envelope : CodeEnvelope) : string :=
  REPLAY_CODE_PREFIX +:+ b64_encode (ce_envelope_id envelope).

(** The replay marker; [None]: the redemption goes on. *)
Definition mark_redeemed (envelope : CodeEnvelope) : rio (option Resp) :=
  if negb (has_store cfg) then Ret None else
  marker <- do_core (Random 16) ;;
  stored <- do_core (StoreCall (PutIfAbsent (replay_key envelope) marker (from_secs CODE_TTL))) ;;
  Ret (match stored with
       | Ok true => None
       | Ok false => Some (invalid_grant "code was already used")
       | Err _ => Some (oauth_error 503 "server_error" "replay protection is unavailable")
       end).

Definition rotator (r : Relay) (b : HandleBinding) : option Rotator :=
  if has_store cfg then Some (Rotator_new b (refresh_tokens r)) else None.

Definition code_binding (r : Relay) (envelope : CodeEnvelope) : HandleBinding :=
  {| hb_relay := relay_key r; hb_fingerprint := ce_handle_fingerprint envelope |}.

(** The refresh token of the response is replaced as the relay's mode says. *)
Definition finish_redemption (r : Relay) (envelope : CodeEnvelope) (sealed_body : option bytes) : rio Resp :=
  let stored := ce_upstream_response envelope in
  match mode (refresh_tokens r) with
  | Passthrough => Ret (stored_response stored)
  | Sealed =>
      Ret (stored_response (match sealed_body with Some b => with_body stored b | None => stored end))
  | Rotating =>
      match rotator r (code_binding r envelope) with
      | None => Ret rotation_store_required
      | Some rotator =>
          issued <- lift (issue_in_response rotator stored) ;;
          Ret (match issued with
               | Ok (Some b) => stored_response (with_body stored b)
               | Ok None => stored_response stored
               | Err IssueStore => refresh_state_unavailable
               | Err IssueSealerUnavailable => sealer_unavailable
               | Err IssueUnrecognizedBody => substitution_failed SubUnrecognizedBody
               end)
      end
  end.

(** The sealed body, computed before the marker is written. *)
Definition seal_redemption (r : Relay) (envelope : CodeEnvelope) (validation : result unit IdTokenValidationError)
    : rio (result (option bytes) Resp) :=
  if bool_decide (mode (refresh_tokens r) = Sealed) && is_ok validation then
    issued <- unix_now ;;
    sealed <- lift (seal_token_response (code_binding r envelope) (status (ce_upstream_response envelope))
                      (body (ce_upstream_response envelope)) issued) ;;
    Ret (map_err substitution_failed sealed)
  else Ret (Ok None).

(** The redemption of an envelope that matches the request. *)
Definition redeem (r : Relay) (u : Upstream) (envelope : CodeEnvelope) : rio Resp :=
  validation <- validate_id_token_policy r u (ce_upstream_response envelope) (ce_id_token_nonce envelope) ;;
  match validation with
  | Err ValidationUnavailable =>
      Ret (oauth_error 502 "server_error" "ID token validation is unavailable")
  | _ =>
      sealed_body <- seal_redemption r envelope validation ;;
      match sealed_body with
      | Err response => Ret response
      | Ok sealed_body =>
          replay <- mark_redeemed envelope ;;
          match replay, validation with
          | Some response, _ => Ret response
          | None, Err _ => Ret required_claims_error
          | None, Ok _ => finish_redemption r envelope sealed_body
          end
      end
  end.

Definition open_code (r : Relay) (code : string) : rio (result CodeEnvelope UnsealError) :=
  envelope <- unseal_postcard (relay_key r) code ;;
  match envelope with
  | Err e => Ret (Err e)
  | Ok envelope =>
      if bool_decide (ce_relay_key envelope = key_str (relay_key r)) then
        ok <- fresh (ce_issued_at envelope) CODE_TTL ;;
        Ret (if ok : bool then Ok envelope else Err UInvalid)
      else Ret (Err UInvalid)
  end.

Definition exchange_sealed_code (r : Relay) (u : Upstream) (form : TokenRequest) : rio Resp :=
  if rotation_store_missing cfg r then Ret rotation_store_required else
  match tk_code form with
  | None => Ret (oauth_error 400 "invalid_request" "code is required")
  | Some code =>
      envelope <- open_code r code ;;
      match envelope with
      | Err UUnavailable => Ret sealer_unavailable
      | Err UInvalid => Ret (invalid_grant "invalid or expired code")
      | Ok envelope =>
          match code_mismatch r envelope form with
          | Some response => Ret response
          | None => redeem r u envelope
          end
      end
  end.

(** ** The refresh grant *)

Definition scope_rejection (r : Relay) (form : TokenRequest) : option Resp :=
  match tk_scope form with
  | Some scope => if scope_allowed r scope then None
                  else Some (oauth_error 400 "invalid_scope" "scope is not allowed")
  | None => None
  end.

Definition client_credential_params : list string :=
  ["client_id"; "client_secret"; "client_assertion_type"; "client_assertion"].

(** The client's form without its credentials, and with the unwrapped token. *)
Definition refresh_form (form : TokenRequest) (upstream_token : option string) : list (string * string) :=
  (fun '(name, value) =>
     match upstream_token with
     | Some token => if bool_decide (name = "refresh_token") then (name, token) else (name, value)
     | None => (name, value)
     end) <$> List.filter (fun nv => negb (bool_decide (nv.1 ∈ client_credential_params))) (tk_pairs form).

Definition send_upstream_refresh (r : Relay) (u : Upstream) (form : TokenRequest) (upstream_token : option string)
    : rio (result HttpResponse UpstreamFailure) :=
  endpoints <- resolve_endpoints cfg r u ;;
  match endpoints with
  | Err status => Ret (Err (Status status))
  | Ok endpoints =>
      response <- send_upstream_token_request cfg r u (re_token_endpoint endpoints)
                    (refresh_form form upstream_token) PRefresh ;;
      Ret (map_err (fun _ => Request) response)
  end.

(** [UpstreamRefreshRequest::refresh]. *)
Definition upstream_refresh (r : Relay) (u : Upstream) (form : TokenRequest) (upstream_token : string)
    : rio (result StoredResponse UpstreamFailure) :=
  response <-! send_upstream_refresh r u form (Some upstream_token) ;;
  Ret (ok_or (read_upstream_response response) Request).

(** What a rotating relay answers. *)
Definition outcome_response (o : RefreshOutcome) : Resp :=
  match o with
  | Response stored => stored_response stored
  | InvalidGrant => invalid_grant "invalid refresh token"
  | OutcomeUnavailable =>
      insert_headers [static "retry-after" "1"]
        (oauth_error 503 "temporarily_unavailable"
           "the refresh token is being used by another request; retry shortly")
  | UpstreamFailed failure => upstream_failure_response failure
  | UpstreamUnusable => oauth_error 502 "server_error" "upstream returned an unusable token response"
  | StoreFailed => refresh_state_unavailable
  | OutcomeSealerUnavailable => sealer_unavailable
  end.

(** The rotating mode. [RotationSafety.polling_terminates] excludes the [None]. *)
Definition refresh_rotating_relay (r : Relay) (u : Upstream) (form : TokenRequest) (presented : string) : rio Resp :=
  if rotation_store_missing cfg r then Ret rotation_store_required else
  match rotator r (HandleBinding_new r u) with
  | None => Ret rotation_store_required
  | Some rotator =>
      match scope_rejection r form with
      | Some rejection => Ret rejection
      | None =>
          outcome <- lift_with (upstream_refresh r u form) (Rotation.refresh rotator presented) ;;
          Ret (match outcome with Some o => outcome_response o | None => bare 500 end)
      end
  end.

(** The token a sealed relay unwraps; the error is the response. *)
Definition unwrap_handle (r : Relay) (u : Upstream) (presented : string) : rio (result (option string) Resp) :=
  if bool_decide (mode (refresh_tokens r) = Sealed) then
    opened <- lift (open_handle (HandleBinding_new r u) presented) ;;
    Ret (match opened with
         | Ok opened => Ok (Some (upstream_token opened))
         | Err SealerUnavailable => Err sealer_unavailable
         | Err InvalidHandle => Err (invalid_grant "invalid refresh token")
         end)
  else Ret (Ok None).

(** The upstream's answer, with its refresh token sealed. *)
Definition seal_answer (r : Relay) (u : Upstream) (response : HttpResponse) : rio Resp :=
  match read_upstream_response response with
  | None => Ret upstream_request_failed
  | Some stored =>
      issued <- unix_now ;;
      sealed <- lift (seal_token_response (HandleBinding_new r u) (status stored) (body stored) issued) ;;
      Ret (match sealed with
           | Ok (Some b) => stored_response (with_body stored b)
           | Ok None => stored_response stored
           | Err error => substitution_failed error
           end)
  end.

Definition proxy_response (response : HttpResponse) : Resp :=
  match rp_body response with
  | Some b => proxied (rp_status response) (rp_content_type response) b
  | None => bare 502
  end.

Definition refresh_grant (r : Relay) (u : Upstream) (form : TokenRequest) : rio Resp :=
  match tk_refresh_token form with
  | None => Ret (oauth_error 400 "invalid_request" "refresh_token is required")
  | Some presented =>
      if bool_decide (mode (refresh_tokens r) = Rotating) then refresh_rotating_relay r u form presented else
      let sealed := bool_decide (mode (refresh_tokens r) = Sealed) in
      if negb sealed && has_handle_prefix presented then Ret (invalid_grant "invalid refresh token") else
      token <- unwrap_handle r u presented ;;
      match token with
      | Err response => Ret response
      | Ok token =>
          match scope_rejection r form with
          | Some rejection => Ret rejection
          | None =>
              response <- send_upstream_refresh r u form token ;;
              match response with
              | Err failure => Ret (upstream_failure_response failure)
              | Ok response => if sealed then seal_answer r u response else Ret (proxy_response response)
              end
          end
      end
  end.

(** ** The token endpoint *)

(** [axum::body::to_bytes] fails on a body that cannot be read or is over 1 MiB. *)
Definition token (r : Relay) (u : Upstream) (headers : HeaderMap) (request_body : option bytes) : rio Resp :=
  let origin := allowed_cors_origin r headers (redirect cfg) in
  match request_body with
  | None => Ret (with_cors (oauth_error 400 "invalid_request" "invalid body") origin)
  | Some b =>
      match parse_token_request b with
      | Err _ => Ret (with_cors (oauth_error 400 "invalid_request" "invalid form body") origin)
      | Ok form =>
          authenticated <- authenticate r u form headers ;;
          match authenticated with
          | Err failure => Ret (with_cors (auth_failure_response failure) origin)
          | Ok _ =>
              response <- (if bool_decide (tk_grant_type form = "authorization_code")
                           then exchange_sealed_code r u form
                           else if bool_decide (tk_grant_type form = "refresh_token") then refresh_grant r u form
                           else Ret (oauth_error 400 "unsupported_grant_type" "unsupported grant_type")) ;;
              Ret (with_cors response origin)
          end
      end
  end.

Definition preflight (r : Relay) (headers : HeaderMap) : Resp :=
  match allowed_cors_origin r headers (redirect cfg) with
  | None => bare 403
  | origin => with_cors (bare 204) origin
  end.
End Grants.
