(* ===== verification/Router.v ===== *)
(** * Router: request dispatch

    Models [router] and [dispatch] of crates/oauthrelay-core/src/router.rs: the path is stripped of
    the public prefix and parsed by the layout, the relay and its upstream are resolved and
    validated, and the request goes to the handler of its endpoint and method. axum's own routing
    and body collection are third-party code. *)

From S2P Require Import Prelude Text Json Url Model Layout Store Seal Prog Effects RefreshHandle.
From S2P Require Import Rotation Requests Jwt Web Flows Grants.
#[local] Open Scope string_scope.
#[local] Open Scope prog_scope.

Inductive Method := GET | POST | OPTIONS | OtherMethod.

Record HttpIn := {
  in_method : Method;
  in_path : string;
  in_query : option string;
  in_headers : HeaderMap;
  in_body : option bytes;     (* [None]: unreadable, or over 1 MiB *)
}.

Section Router.
Context {U : UrlLib} {L : PathLayout} {J : JsonLib} {HL : HeaderLib} {F : FormLib}.
Context {H : Sha256} {H2 : Sha2} {B : Base64} {BS : Base64Std} {JW : JwtLib}.
Context {PF : Postcard FlowEnvelope} {PC : Postcard CodeEnvelope}.
Context {PH : Postcard OpenedHandle} {PR : Postcard HandleRecord} {PS : Postcard StoredResponse}.
Context (cfg : RelayConfig).

Definition is_token (e : Endpoint) : bool := bool_decide (e = Token).

(** An error: OAuth's JSON at the token endpoint, a bare status elsewhere. *)
Definition endpoint_error (e : Endpoint) (status : Z) (error description : string) : Resp :=
  if is_token e then oauth_error status error description else bare status.

(** The endpoint and key of a path. *)
Definition route (p : string) : option (Endpoint * ResourceKey) :=
  rest ← strip_prefix (route_prefix cfg) p;
  rest ← strip_prefix "/" rest;
  layout_parse rest.

Definition dispatch_callback (request : HttpIn) (key : ResourceKey) : rio Resp :=
  upstream <- call (ResolveUpstream key) ;;
  match upstream with
  | Err _ => Ret (bare 500)
  | Ok None => Ret (bare 404)
  | Ok (Some u) =>
      if negb (is_ok (validate_upstream u)) then Ret (bare 500)
      else match in_method request with
      | GET =>
          match parse_callback_request (in_query request) with
          | Ok q => callback cfg u q
          | Err _ => Ret (bare 400)
          end
      | _ => Ret (bare 405)
      end
  end.

(** The handler of an endpoint and method, for a relay that is valid. *)
Definition handle_endpoint (request : HttpIn) (e : Endpoint) (r : Relay) (u : Upstream) : rio Resp :=
  match e, in_method request with
  | Authorize, GET =>
      match parse_authorize_request (in_query request) with
      | Ok q => authorize cfg r u q
      | Err _ => Ret (bare 400)
      end
  | Token, OPTIONS => Ret (preflight cfg r (in_headers request))
  | Token, POST => token cfg r u (in_headers request) (in_body request)
  | Discovery, GET => discovery cfg r u
  | Jwks, GET => jwks cfg r u
  | _, _ => Ret (bare 405)
  end.

Definition dispatch_relay (request : HttpIn) (e : Endpoint) (key : ResourceKey) : rio Resp :=
  relay <- call (ResolveRelay key) ;;
  match relay with
  | Err _ => Ret (endpoint_error e 500 "server_error" "relay resolution failed")
  | Ok None => Ret (endpoint_error e 404 "invalid_request" "unknown relay")
  | Ok (Some r) =>
      upstream <- call (ResolveUpstream (relay_upstream r)) ;;
      match upstream with
      | Err _ => Ret (endpoint_error e 500 "server_error" "upstream resolution failed")
      | Ok None => Ret (endpoint_error e 500 "server_error" "relay upstream is unavailable")
      | Ok (Some u) =>
          if negb (is_ok (validate_for r (redirect cfg)))
          then Ret (endpoint_error e 500 "server_error" "relay configuration is invalid")
          else handle_endpoint request e r u
      end
  end.

Definition dispatch (request : HttpIn) : rio Resp :=
  match route (in_path request) with
  | None => Ret (bare 404)
  | Some (Callback, key) => dispatch_callback request key
  | Some (e, key) => dispatch_relay request e key
  end.
End Router.
