(* ===== verification/OutboundSafety.v ===== *)
(** * OutboundSafety: every outbound request is vetted

    [OutboundPolicy] (outbound.rs) is asked before every request the relay sends. [vetted] is that
    discipline on a program: a request is sent only right after the policy approved its URL. It
    holds of every handler of the router, so of [dispatch]. *)

From S2P Require Import Prelude Text Json Url Model Layout Store Seal Prog Effects RefreshHandle.
From S2P Require Import Rotation Requests Jwt Web Flows Grants Router.
From Stdlib Require Import Eqdep.
#[local] Open Scope string_scope.
#[local] Open Scope prog_scope.

Section Vetted.
Context {U : UrlLib} {JW : JwtLib}.

(** The URL a call sends a request to, and the one a call's answer approves. *)
Fixpoint sends (e : reff) : option url :=
  match e with
  | Execute _ rq => Some (rq_url rq)
  | Within _ e => sends e
  | _ => None
  end.

Fixpoint approves (e : reff) : rans e -> option url :=
  match e as e return rans e -> option url with
  | CheckOutbound r => fun ok => if ok : bool then Some (or_url r) else None
  | Within _ e => fun o => match o with Some a => approves e a | None => None end
  | _ => fun _ => None
  end.

(** [p] sends only to URLs approved just before; the first call may rely on [approved]. *)
Fixpoint vetted {A} (approved : option url) (p : rio A) : Prop :=
  match p with
  | Ret _ => True
  | Op e k => (forall u, sends e = Some u -> approved = Some u) /\ forall a, vetted (approves e a) (k a)
  end.

Lemma vetted_weaken {A} ap (p : rio A) : vetted None p -> vetted ap p.
Proof. destruct p as [a|e k]; [done|]. intros [Hs Hk]. split; [|done]. intros u Hu. by apply Hs in Hu. Qed.

Lemma vetted_bind {A C} ap (p : rio A) (f : A -> rio C) :
  vetted ap p -> (forall a, vetted None (f a)) -> vetted ap (bind p f).
Proof.
  intros Hp Hf. revert ap Hp. induction p as [a|e k IH]; intros ap; simpl.
  - intros _. by apply vetted_weaken.
  - intros [Hs Hk]. split; [done|]. intros a. by apply IH.
Qed.

Lemma vetted_bind_ok {A C X} (p : rio (result A X)) (f : A -> rio (result C X)) :
  vetted None p -> (forall a, vetted None (f a)) -> vetted None (bind_ok p f).
Proof. intros Hp Hf. apply vetted_bind; [done|]. by intros []. Qed.

Lemma vetted_call e : sends e = None -> vetted None (call e).
Proof. intros He. split; [by rewrite He|done]. Qed.

Lemma vetted_within {A} d ap (p : rio A) : vetted ap p -> vetted ap (within d p).
Proof.
  revert ap. induction p as [a|e k IH]; intros ap; [done|]. intros [Hs Hk]. split; [done|].
  intros [a|]; [|done]. simpl. by apply IH.
Qed.

Lemma vetted_lift_with {A} refresher (p : io A) :
  (forall t, vetted None (refresher t)) -> vetted None (lift_with refresher p).
Proof.
  intros Hr. assert (forall e, vetted None (lift_eff refresher e)) as He.
  { intros e. induction e; simpl lift_eff; try (by apply vetted_call); [done|by apply vetted_within]. }
  induction p as [a|e k IH]; [done|]. by apply vetted_bind.
Qed.

Lemma vetted_lift {A} (p : io A) : vetted None (lift p).
Proof. by apply vetted_lift_with. Qed.

(** In every run, the call before a sent request approved its URL. *)
Lemma vetted_runs {A} ap (p : rio A) l1 (e : reff) a l2 x u :
  vetted ap p -> runs p (l1 ++ logged e a :: l2)%list x -> sends e = Some u ->
  match last l1 with Some (existT e0 a0) => approves e0 a0 | None => ap end = Some u.
Proof.
  revert ap l1. induction p as [b|e' k IH]; intros ap l1; simpl.
  - intros _ [Hl _] _. by destruct l1.
  - intros [Hs Hk] (b & l' & Hl & Hr) Hu. destruct l1 as [|[e1 a1] l1].
    + apply (f_equal head) in Hl. apply (f_equal (fmap (projT1 (P := rans)))) in Hl. simpl in Hl.
      injection Hl as <-. by apply Hs.
    + pose proof (f_equal head Hl) as Hh. pose proof (f_equal tail Hl) as Ht. simpl in Hh, Ht.
      apply (f_equal (fmap (projT1 (P := rans)))) in Hh as He. simpl in He. injection He as ->.
      injection Hh as Hh. apply (inj_pair2 reff rans) in Hh as ->. subst l'.
      specialize (IH b (approves _ b) l1 (Hk b) Hr Hu). destruct l1 as [|x1 l1]; [exact IH|].
      rewrite (last_cons (existT e' b)). destruct (last (x1 :: l1)) eqn:El; [exact IH|].
      by apply last_None in El.
Qed.

(** ** The handlers *)

Context {L : PathLayout} {J : JsonLib} {HL : HeaderLib} {F : FormLib}.
Context {H : Sha256} {H2 : Sha2} {B : Base64} {BS : Base64Std}.
Context {PF : Postcard FlowEnvelope} {PC : Postcard CodeEnvelope}.
Context {PH : Postcard OpenedHandle} {PR : Postcard HandleRecord} {PS : Postcard StoredResponse}.
Context (cfg : RelayConfig) (Hpolicy : has_policy cfg = true).

Lemma vetted_send c request purpose scope : vetted None (send_checked cfg c request purpose scope).
Proof.
  unfold send_checked. rewrite Hpolicy. split; [done|]. intros []; [|done]. split; [|done].
  intros u Hu. exact Hu.
Qed.

(** One step through a handler: its calls, the programs it is made of, its case distinctions. *)
Ltac vet_step :=
  first
  [ exact I
  | apply vetted_send
  | apply vetted_lift
  | by apply vetted_call
  | apply vetted_bind_ok; [|intros ?]
  | apply vetted_bind; [|intros ?]
  | match goal with |- vetted _ (match ?x with _ => _ end) => destruct x end ].
Ltac vet := repeat (vet_step || (progress (cbv zeta))).

Lemma vetted_now : vetted None unix_now.
Proof. unfold unix_now. vet. Qed.

Lemma vetted_fetch c scope u purpose : vetted None (fetch_json_object cfg c scope u purpose).
Proof. unfold fetch_json_object. vet. Qed.

Lemma vetted_cached_fresh c key ttl : vetted None (cached_fresh c key ttl).
Proof. unfold cached_fresh. vet. Qed.

Lemma vetted_cache_insert c key v : vetted None (cache_insert c key v).
Proof. unfold cache_insert. vet. Qed.

Lemma vetted_cached_json cache c scope u ttl purpose :
  vetted None (cached_json_with_client cfg cache c scope u ttl purpose).
Proof.
  unfold cached_json_with_client. cbv zeta. apply vetted_bind; [apply vetted_cached_fresh|].
  intros [v|]; [done|]. apply vetted_bind; [apply vetted_fetch|].
  intros [v|e]; [|done]. by apply vetted_bind; [apply vetted_cache_insert|].
Qed.

Lemma vetted_optional_discovery r u : vetted None (optional_discovery cfg r u).
Proof.
  unfold optional_discovery. cbv zeta. apply vetted_bind; [apply vetted_cached_fresh|].
  intros [v|]; [done|]. vet; first [apply vetted_fetch|apply vetted_cache_insert].
Qed.

Lemma vetted_endpoints r u : vetted None (resolve_endpoints cfg r u).
Proof. unfold resolve_endpoints, cached_json. vet; apply vetted_cached_json. Qed.

Lemma vetted_jwks_uri r u : vetted None (resolve_jwks_uri cfg r u).
Proof. unfold resolve_jwks_uri. vet; apply vetted_optional_discovery. Qed.

Lemma vetted_jwks r u : vetted None (jwks cfg r u).
Proof.
  unfold jwks, cached_json. apply vetted_bind; [apply vetted_jwks_uri|]. intros [[]|]; vet;
  apply vetted_cached_json.
Qed.

Lemma vetted_discovery r u : vetted None (discovery cfg r u).
Proof.
  unfold discovery, discovery_source, cached_json. vet; first [apply vetted_cached_json|apply vetted_optional_discovery].
Qed.

Lemma vetted_assertion_jwks scope u kid : vetted None (client_assertion_jwks cfg scope u kid).
Proof.
  assert (forall entry forced, vetted None (fetch_keys cfg scope u entry forced)) as Hf.
  { intros entry forced. unfold fetch_keys. vet. }
  unfold client_assertion_jwks, keys_under_lock, current_keys, cooling. vet; apply Hf.
Qed.

Lemma vetted_seal_postcard {T} {P : Postcard T} key (v : T) : vetted None (seal_postcard key v).
Proof. unfold seal_postcard. vet. Qed.

Lemma vetted_unseal_postcard {T} {P : Postcard T} key v : vetted None (unseal_postcard key v : rio (result T _)).
Proof. unfold unseal_postcard. vet. Qed.

Lemma vetted_fresh issued ttl : vetted None (fresh issued ttl).
Proof. unfold fresh. vet. Qed.

Lemma vetted_token_request r u e form purpose :
  vetted None (send_upstream_token_request cfg r u e form purpose).
Proof. apply vetted_send. Qed.

Create HintDb vetted discriminated.
#[local] Hint Resolve vetted_now vetted_cached_json vetted_endpoints vetted_jwks_uri vetted_assertion_jwks
  vetted_seal_postcard vetted_unseal_postcard vetted_fresh vetted_token_request : vetted.
Ltac vet_with := unfold cached_json; repeat (solve [auto with vetted] || vet_step || (progress (cbv zeta))).

Lemma vetted_authorize r u q : vetted None (authorize cfg r u q).
Proof. unfold authorize, random_urlsafe. vet_with. Qed.

Lemma vetted_callback u q : vetted None (callback cfg u q).
Proof. unfold callback, finish_callback, open_flow, flow_relay, exchange_code. vet_with. Qed.

Lemma vetted_validate r u response nonce : vetted None (validate_id_token_policy cfg r u response nonce).
Proof. unfold validate_id_token_policy, upstream_keys. vet_with. Qed.

Lemma vetted_verify relay audience issuer subject source assertion single :
  vetted None (verify_private_key_jwt cfg relay audience issuer subject source assertion single).
Proof. unfold verify_private_key_jwt, assertion_keys_url, assertion_keys, single_use. vet_with. Qed.

Lemma vetted_exchange r u form : vetted None (exchange_sealed_code cfg r u form).
Proof.
  unfold exchange_sealed_code, open_code, redeem, seal_redemption, mark_redeemed, finish_redemption.
  repeat (solve [auto using vetted_validate with vetted] || vet_step || (progress (cbv zeta))).
Qed.

Lemma vetted_upstream_refresh r u form token : vetted None (send_upstream_refresh cfg r u form token).
Proof. unfold send_upstream_refresh. vet_with. Qed.

Lemma vetted_refresh r u form : vetted None (refresh_grant cfg r u form).
Proof.
  unfold refresh_grant, refresh_rotating_relay, unwrap_handle, seal_answer.
  repeat (solve [auto using vetted_upstream_refresh with vetted] || vet_step || (progress (cbv zeta))
          || (apply vetted_lift_with; intros ?; unfold upstream_refresh)).
Qed.

Lemma vetted_token r u headers b : vetted None (token cfg r u headers b).
Proof.
  unfold token, authenticate.
  repeat (solve [auto using vetted_verify, vetted_exchange, vetted_refresh with vetted] || vet_step || (progress (cbv zeta))).
Qed.

Lemma vetted_dispatch request : vetted None (dispatch cfg request).
Proof.
  unfold dispatch, dispatch_callback, dispatch_relay, handle_endpoint.
  repeat (solve [auto using vetted_callback, vetted_authorize, vetted_token,
    vetted_discovery, vetted_jwks with vetted] || vet_step || (progress (cbv zeta))).
Qed.
End Vetted.

(** ** Property *)

(** C18: no request escapes the outbound policy. When the embedder installed a policy, then in every
    run of the whole router, on any request and whatever the store, the sealer, the resolvers, the
    caches and the upstreams answer, each request that is sent (directly or under a timeout) is
    immediately preceded by a policy check that approved exactly its URL. *)
Theorem outbound_policy_enforced {U : UrlLib} {L : PathLayout} {J : JsonLib} {HL : HeaderLib} {F : FormLib}
    {SH : Sha256} {SH2 : Sha2} {B : Base64} {BS : Base64Std} {JW : JwtLib} {PF : Postcard FlowEnvelope}
    {PC : Postcard CodeEnvelope} {PH : Postcard OpenedHandle} {PR : Postcard HandleRecord}
    {PS : Postcard StoredResponse} cfg request l1 e a l2 resp u :
  has_policy cfg = true -> runs (dispatch cfg request) (l1 ++ logged e a :: l2)%list resp ->
  sends e = Some u ->
  exists check approval, last l1 = Some (logged check approval) /\ approves check approval = Some u.
Proof.
  intros Hp Hr Hu. pose proof (vetted_runs _ _ _ _ _ _ _ _ (vetted_dispatch cfg Hp request) Hr Hu) as Hv.
  destruct (last l1) as [[e0 a0]|] eqn:E; [|done]. by exists e0, a0.
Qed.
