(* ===== verification/CredentialSafety.v ===== *)
(** * CredentialSafety: whose credentials leave the relay

    A client authenticates to the relay, and the relay to the upstream. [own_request] is what a
    request to an upstream may carry: the upstream's own credentials, at the upstream's own token
    endpoint, and nothing of what the client authenticated with. It holds of every request that
    any handler sends, so of [dispatch]. *)

From S2P Require Import Prelude Text Json Url Model Layout Store Seal Prog Effects RefreshHandle.
From S2P Require Import Rotation Requests Jwt Web Flows Grants Router.
#[local] Open Scope string_scope.
#[local] Open Scope prog_scope.

Section Credentials.
Context {U : UrlLib} {L : PathLayout} {J : JsonLib} {HL : HeaderLib} {F : FormLib} {JW : JwtLib}.
Context {H : Sha256} {H2 : Sha2} {B : Base64} {BS : Base64Std}.
Context {PF : Postcard FlowEnvelope} {PC : Postcard CodeEnvelope}.
Context {PH : Postcard OpenedHandle} {PR : Postcard HandleRecord} {PS : Postcard StoredResponse}.
Context (cfg : RelayConfig).

(** The request a call sends. *)
Fixpoint request_of (e : reff) : option HttpRequest :=
  match e with
  | Execute _ rq => Some rq
  | Within _ e => request_of e
  | _ => None
  end.

(** A form's credentials are those of [u]. *)
Definition own_form (u : Upstream) (form : list (string * string)) : Prop :=
  forall name value, (name, value) ∈ form -> name ∈ client_credential_params ->
    (name, value) ∈ [("client_id", up_client_id u); ("client_secret", up_client_secret u)].

Definition own_request (u : Upstream) (rq : HttpRequest) : Prop :=
  match rq_form rq with
  | None => rq_headers rq = []
  | Some form =>
      own_form u form
      /\ (forall value, ("authorization", value) ∈ rq_headers rq ->
            value = basic_authorization (up_client_id u) (up_client_secret u))
      /\ forall endpoint, token_endpoint u = Some endpoint -> rq_url rq = endpoint
  end.

Definition own (u : Upstream) (e : reff) : Prop := forall rq, request_of e = Some rq -> own_request u rq.

(** ** The forms *)

Lemma own_exchange u flow code : own_form u (exchange_form cfg u flow code).
Proof.
  intros name value Hin Hp. exfalso. revert Hp. unfold exchange_form in Hin.
  assert (Forall (fun nv => bool_decide (nv.1 ∈ client_credential_params) = false)
    (exchange_form cfg u flow code)) as Hall by repeat constructor.
  rewrite Forall_forall in Hall. specialize (Hall _ Hin). simpl in Hall. by apply bool_decide_eq_false in Hall.
Qed.

Lemma own_refresh u form token : own_form u (refresh_form form token).
Proof.
  intros name value Hin Hp. exfalso. unfold refresh_form in Hin.
  apply list_elem_of_fmap in Hin as ([n v] & Heq & Hf). apply list_elem_of_In, filter_In in Hf as [_ Hf].
  apply negb_true_iff, bool_decide_eq_false in Hf. simpl in Hf.
  destruct token as [token|]; [|by simplify_eq]. case_bool_decide; simplify_eq; done.
Qed.

(** ** The requests *)

Lemma own_call u e : request_of e = None -> every (own u) (call e : rio (rans e)).
Proof. intros He. split; [|done]. intros rq. by rewrite He. Qed.

Lemma own_within u {A} d (p : rio A) : every (own u) p -> every (own u) (within d p).
Proof.
  induction p as [a|e k IH]; [done|]. intros [He Hk]. split; [exact He|].
  intros [a|]; [by apply IH|done].
Qed.

Lemma own_lift_with u {A} refresher (p : io A) :
  (forall t, every (own u) (refresher t)) -> every (own u) (lift_with refresher p).
Proof.
  intros Hr. assert (forall e, every (own u) (lift_eff refresher e)) as He.
  { intros e. induction e; simpl lift_eff; try (by apply own_call); [apply Hr|by apply own_within]. }
  induction p as [a|e k IH]; [done|]. by apply every_bind.
Qed.

Lemma own_lift u {A} (p : io A) : every (own u) (lift p).
Proof. by apply own_lift_with. Qed.

Lemma own_send u c rq purpose scope : own_request u rq -> every (own u) (send_checked cfg c rq purpose scope).
Proof.
  intros Hrq. unfold send_checked. apply every_bind.
  { destruct (has_policy cfg); [by apply own_call|done]. }
  intros []; [|done]. cbn [negb]. apply every_bind; [|done]. split; [|done]. by intros rq' [= <-].
Qed.

Lemma own_get u c target timeout purpose scope :
  every (own u) (send_checked cfg c (get_request target timeout) purpose scope).
Proof. by apply own_send. Qed.

(** One step through a handler. *)
Ltac own_step :=
  first
  [ exact I
  | by apply own_call
  | apply own_get
  | apply own_lift
  | apply every_bind_ok; [|intros ?]
  | apply every_bind; [|intros ?]
  | match goal with |- every _ (match ?x with _ => _ end) => destruct x end ].

Create HintDb own discriminated.
Ltac owned :=
  repeat (solve [auto with own] || own_step || (progress (cbv zeta)) || (progress (unfold do_core))).

Section Upstream.
Context (u : Upstream).

Lemma own_now : every (own u) unix_now.
Proof. unfold unix_now. owned. Qed.
#[local] Hint Resolve own_now : own.
Lemma own_cached_json cache c scope target ttl purpose :
  every (own u) (cached_json_with_client cfg cache c scope target ttl purpose).
Proof. unfold cached_json_with_client, cached_fresh, cache_insert, fetch_json_object. owned. Qed.
#[local] Hint Resolve own_cached_json : own.
Lemma own_optional_discovery r : every (own u) (optional_discovery cfg r u).
Proof. unfold optional_discovery, cached_fresh, cache_insert, fetch_json_object. owned. Qed.
#[local] Hint Resolve own_optional_discovery : own.
Lemma own_endpoints r : every (own u) (resolve_endpoints cfg r u).
Proof. unfold resolve_endpoints, cached_json. owned. Qed.
Lemma own_jwks_uri r : every (own u) (resolve_jwks_uri cfg r u).
Proof. unfold resolve_jwks_uri. owned. Qed.
Lemma own_assertion_jwks scope target kid : every (own u) (client_assertion_jwks cfg scope target kid).
Proof. unfold client_assertion_jwks, keys_under_lock, current_keys, cooling, fetch_keys. owned. Qed.
#[local] Hint Resolve own_endpoints own_jwks_uri own_assertion_jwks : own.
Lemma own_jwks r : every (own u) (jwks cfg r u).
Proof. unfold jwks, cached_json. owned. Qed.
Lemma own_discovery r : every (own u) (discovery cfg r u).
Proof. unfold discovery, discovery_source, cached_json. owned. Qed.
Lemma own_seal {T} {P : Postcard T} key (v : T) : every (own u) (seal_postcard key v).
Proof. unfold seal_postcard. owned. Qed.
Lemma own_unseal {T} {P : Postcard T} key v : every (own u) (unseal_postcard key v : rio (result T _)).
Proof. unfold unseal_postcard. owned. Qed.
Lemma own_fresh issued ttl : every (own u) (fresh issued ttl).
Proof. unfold fresh. owned. Qed.
Lemma own_validate r response nonce : every (own u) (validate_id_token_policy cfg r u response nonce).
Proof. unfold validate_id_token_policy, upstream_keys, cached_json. owned. Qed.
Lemma own_verify relay audience issuer subject source assertion single :
  every (own u) (verify_private_key_jwt cfg relay audience issuer subject source assertion single).
Proof. unfold verify_private_key_jwt, assertion_keys_url, assertion_keys, single_use. owned. Qed.
#[local] Hint Resolve own_jwks own_discovery own_seal own_unseal own_fresh own_validate own_verify : own.

(** The endpoint that was resolved is the configured one, where one is configured. *)
Lemma resolved_endpoint r l endpoints e :
  runs (resolve_endpoints cfg r u) l (Ok endpoints) -> token_endpoint u = Some e -> re_token_endpoint endpoints = e.
Proof.
  intros Hr He. assert (forall doc, resolve_endpoints_from_doc u doc = Ok endpoints -> re_token_endpoint endpoints = e) as Hd.
  { intros doc. unfold resolve_endpoints_from_doc. rewrite He. cbn [or_field].
    destruct (or_field (authorization_endpoint u) _ _); simpl; [|done]. by intros [= <-]. }
  unfold resolve_endpoints in Hr. destruct (endpoints_need_discovery u); cbn [negb] in Hr.
  - apply runs_bind_ok in Hr as ([doc|e'] & l1 & l2 & -> & _ & Hr); [|by destruct Hr].
    destruct Hr as [_ Hr]. by eapply Hd.
  - destruct Hr as [_ Hr]. by eapply Hd.
Qed.

(** A token request to the resolved endpoint is the upstream's own. *)
Lemma own_token_request r l endpoints form purpose :
  runs (resolve_endpoints cfg r u) l (Ok endpoints) -> own_form u form ->
  every (own u) (send_upstream_token_request cfg r u (re_token_endpoint endpoints) form purpose).
Proof.
  intros Hr Hf. apply own_send. unfold own_request, upstream_token_request.
  destruct (token_endpoint_auth_method u); simpl.
  - split_and!; [|by intros v [=]%list_elem_of_singleton|intros e He; by eapply resolved_endpoint].
    intros n v [Hin|Hin]%elem_of_app Hp; [by apply Hf|done].
  - split_and!; [done| |intros e He; by eapply resolved_endpoint].
    intros v Hv. apply elem_of_cons in Hv as [[=]|Hv]. by apply list_elem_of_singleton in Hv as [= ->].
Qed.

Lemma own_exchange_code r q flow code : every (own u) (exchange_code cfg r u q flow code).
Proof.
  unfold exchange_code. apply every_bind_runs; [apply own_endpoints|]. intros l [endpoints|status] Hr; [|done].
  apply every_bind; [eapply own_token_request, own_exchange; exact Hr|]. intros ?. owned.
Qed.

Lemma own_send_refresh r form token : every (own u) (send_upstream_refresh cfg r u form token).
Proof.
  unfold send_upstream_refresh. apply every_bind_runs; [apply own_endpoints|].
  intros l [endpoints|status] Hr; [|done]. apply every_bind; [eapply own_token_request, own_refresh; exact Hr|done].
Qed.
#[local] Hint Resolve own_exchange_code own_send_refresh : own.

(** ** The handlers *)

Lemma own_authorize r q : every (own u) (authorize cfg r u q).
Proof. unfold authorize, random_urlsafe. owned. Qed.
Lemma own_callback q : every (own u) (callback cfg u q).
Proof. unfold callback, finish_callback, open_flow, flow_relay. owned. Qed.
Lemma own_exchange_sealed r form : every (own u) (exchange_sealed_code cfg r u form).
Proof. unfold exchange_sealed_code, open_code, redeem, seal_redemption, mark_redeemed, finish_redemption. owned. Qed.
Lemma own_upstream_refresh r form token : every (own u) (upstream_refresh cfg r u form token).
Proof. unfold upstream_refresh. owned. Qed.
Lemma own_rotating r form presented : every (own u) (refresh_rotating_relay cfg r u form presented).
Proof.
  unfold refresh_rotating_relay. owned. apply own_lift_with. intros t. apply own_upstream_refresh.
Qed.
#[local] Hint Resolve own_authorize own_callback own_exchange_sealed own_rotating : own.
Lemma own_token r headers b : every (own u) (token cfg r u headers b).
Proof. unfold token, authenticate, refresh_grant, unwrap_handle, seal_answer. owned. Qed.
#[local] Hint Resolve own_token : own.
Lemma own_endpoint request e r : every (own u) (handle_endpoint cfg request e r u).
Proof. unfold handle_endpoint. owned. Qed.
End Upstream.

(** ** The whole router *)

(** What every request of a log has: an upstream that was resolved in it, whose own it is. *)
Definition only_own (l : call_log rans) : Prop :=
  forall e a rq, logged e a ∈ l -> request_of e = Some rq ->
    exists key u, logged (ResolveUpstream key) (Ok (Some u)) ∈ l /\ own_request u rq.

Lemma only_own_nil : only_own [].
Proof. by intros e a rq ?%not_elem_of_nil. Qed.

Lemma only_own_cons e a l : request_of e = None -> only_own l -> only_own (logged e a :: l).
Proof.
  intros He Hl e' a' rq [Heq|Hin]%elem_of_cons Hrq.
  - apply (f_equal (@projT1 _ _)) in Heq. simpl in Heq. subst. congruence.
  - destruct (Hl _ _ _ Hin Hrq) as (key & u & Hu & Ho). exists key, u. split; [by apply list_elem_of_further|done].
Qed.

Lemma only_own_handler u key (p : rio Resp) l resp :
  every (own u) p -> runs p l resp -> only_own (logged (ResolveUpstream key) (Ok (Some u)) :: l).
Proof.
  intros Hp Hr e a rq [Heq|Hin]%elem_of_cons Hrq.
  { apply (f_equal (@projT1 _ _)) in Heq. simpl in Heq. by subst. }
  exists key, u. split; [apply list_elem_of_here|]. exact (every_runs _ _ _ _ _ _ Hp Hr Hin _ Hrq).
Qed.

Lemma only_own_ret e a l (resp resp' : Resp) : request_of e = None -> runs (Ret resp' : rio Resp) l resp -> only_own (logged e a :: l).
Proof. intros He [-> _]. by apply only_own_cons, only_own_nil. Qed.

Lemma only_own_callback request key l resp : runs (dispatch_callback cfg request key) l resp -> only_own l.
Proof.
  unfold dispatch_callback. intros (o & l1 & -> & Hd). cbn [bind] in Hd.
  destruct o as [[u|]|]; [|by eapply only_own_ret..].
  destruct (negb _); [by eapply only_own_ret|]. eapply only_own_handler; [|exact Hd].
  destruct (in_method request); try done. destruct (parse_callback_request _); [apply own_callback|done].
Qed.

Lemma only_own_relay request e key l resp : runs (dispatch_relay cfg request e key) l resp -> only_own l.
Proof.
  unfold dispatch_relay. intros (o & l1 & -> & Hd). cbn [bind] in Hd.
  destruct o as [[r|]|]; [|by eapply only_own_ret..].
  destruct Hd as (o & l2 & -> & Hd). cbn [bind] in Hd. apply only_own_cons; [done|].
  destruct o as [[u|]|]; [|by eapply only_own_ret..].
  destruct (negb _); [by eapply only_own_ret|]. eapply only_own_handler; [apply own_endpoint|exact Hd].
Qed.

Lemma only_own_dispatch request l resp : runs (dispatch cfg request) l resp -> only_own l.
Proof.
  unfold dispatch. destruct (route cfg (in_path request)) as [[e key]|]; [|intros [-> _]; apply only_own_nil].
  destruct e; [eapply only_own_relay|eapply only_own_callback|eapply only_own_relay..].
Qed.
End Credentials.

(** ** Property *)

(** C15: a client's credentials stay at the relay. Every request that any run of the router sends
    is one of an upstream that the run resolved: either it has no form and no headers (the
    fetch of a document), or the client identifier, client secret and Authorization header it
    carries are that upstream's own, it carries no client assertion, and it goes to the token
    endpoint configured for that upstream, if one is. *)
Theorem only_upstream_credentials_sent {U : UrlLib} {L : PathLayout} {J : JsonLib} {HL : HeaderLib} {F : FormLib}
    {SH : Sha256} {SH2 : Sha2} {B : Base64} {BS : Base64Std} {JW : JwtLib} {PF : Postcard FlowEnvelope}
    {PC : Postcard CodeEnvelope} {PH : Postcard OpenedHandle} {PR : Postcard HandleRecord}
    {PS : Postcard StoredResponse} cfg request l resp e a rq :
  runs (dispatch cfg request) l resp -> logged e a ∈ l -> request_of e = Some rq ->
  exists key u, logged (ResolveUpstream key) (Ok (Some u)) ∈ l /\
    match rq_form rq with
    | None => rq_headers rq = []
    | Some form =>
        (forall name value, (name, value) ∈ form -> name ∈ client_credential_params ->
           (name, value) ∈ [("client_id", up_client_id u); ("client_secret", up_client_secret u)])
        /\ (forall value, ("authorization", value) ∈ rq_headers rq ->
              value = basic_authorization (up_client_id u) (up_client_secret u))
        /\ forall endpoint, token_endpoint u = Some endpoint -> rq_url rq = endpoint
    end.
Proof. intros Hr. exact (only_own_dispatch cfg request l resp Hr e a rq). Qed.
