(* ===== verification/KeysSafety.v ===== *)
(** * KeysSafety: how often the keys of a client are fetched

    [client_assertion_jwks] serializes the fetches of one key set behind a lock and throttles them.
    Here any number of requests call it for one URL, at any time; each may be cancelled at any
    call (the client went away, and the guard of the lock is dropped), and requests that wait
    for the lock are served in any order. [keys_fetch_rate] bounds what the client's server sees. *)

From S2P Require Import Prelude Text Json Url Model Layout Store Seal Prog Effects RefreshHandle.
From S2P Require Import Rotation Requests Jwt Web.
#[local] Open Scope string_scope.
#[local] Open Scope prog_scope.

Section Keys.
Context {U : UrlLib} {JW : JwtLib}.

(** ** The world *)

(** The monotonic clock, the cache entry of the URL with the holder of its lock, the requests that
    were cancelled, and when the keys were asked for, the latest first. *)
Record KeysWorld := {
  kw_now : Z;
  kw_entry : CachedClientJwks;
  kw_holder : option nat;
  kw_gone : list nat;
  kw_sent : list Z;
}.

Definition with_entry (w : KeysWorld) (e : CachedClientJwks) : KeysWorld :=
  {| kw_now := kw_now w; kw_entry := e; kw_holder := kw_holder w; kw_gone := kw_gone w; kw_sent := kw_sent w |}.
Definition with_holder (w : KeysWorld) (h : option nat) : KeysWorld :=
  {| kw_now := kw_now w; kw_entry := kw_entry w; kw_holder := h; kw_gone := kw_gone w; kw_sent := kw_sent w |}.
Definition with_sent (w : KeysWorld) : KeysWorld :=
  {| kw_now := kw_now w; kw_entry := kw_entry w; kw_holder := kw_holder w; kw_gone := kw_gone w;
     kw_sent := kw_now w :: kw_sent w |}.

(** Request [i] performs one call; a cancelled request performs none. *)
Definition keys_handle (i : nat) (w : KeysWorld) (e : reff) : rans e -> KeysWorld -> Prop :=
  match e as e return rans e -> KeysWorld -> Prop with
  | Core InstantNow => fun a w' => i ∉ kw_gone w /\ a = kw_now w /\ w' = w
  | JwksLock _ => fun a w' => i ∉ kw_gone w /\ kw_holder w = None /\ a = kw_entry w /\ w' = with_holder w (Some i)
  | JwksSet _ entry => fun _ w' => i ∉ kw_gone w /\ w' = with_entry w entry
  | JwksUnlock _ => fun _ w' => i ∉ kw_gone w /\ w' = with_holder w None
  | Execute _ _ => fun _ w' => i ∉ kw_gone w /\ w' = with_sent w
  | _ => fun _ w' => i ∉ kw_gone w /\ w' = w
  end.

(** Time passes, and a request is cancelled: it lets go of the lock. *)
Inductive keys_env (w : KeysWorld) : KeysWorld -> Prop :=
  | keys_time t : (kw_now w <= t)%Z ->
      keys_env w {| kw_now := t; kw_entry := kw_entry w; kw_holder := kw_holder w; kw_gone := kw_gone w;
                    kw_sent := kw_sent w |}
  | keys_cancel i :
      keys_env w {| kw_now := kw_now w; kw_entry := kw_entry w;
                    kw_holder := if bool_decide (kw_holder w = Some i) then None else kw_holder w;
                    kw_gone := i :: kw_gone w; kw_sent := kw_sent w |}.

(** ** The invariant *)

(** The cooldown has passed since the [n]-th latest fetch. *)
Definition past (n : nat) (sent : list Z) (t : Z) : Prop :=
  forall x, sent !! n = Some x -> (x + JWKS_REFRESH_COOLDOWN <= t)%Z.

Definition descending (sent : list Z) : Prop :=
  forall n a b, sent !! n = Some a -> sent !! S n = Some b -> (b <= a)%Z.

(** Among four fetches in a row, the cooldown passed. *)
Definition spaced (sent : list Z) : Prop :=
  forall n a, sent !! n = Some a -> past (3 + n) sent a.

(** What an entry says of the fetches so far. *)
Definition entry_ok (e : CachedClientJwks) (sent : list Z) : Prop :=
  match cj_retry_after e with
  | Some deadline => past 1 sent deadline
  | None =>
      (forall a, sent !! 0 = Some a -> past 2 sent a)
      /\ match cj_current e with
         | Some (at_, _) => forall a, sent !! 0 = Some a -> (a <= at_)%Z
         | None => sent = []
         end
  end.

Record KeysInv (w : KeysWorld) : Prop := {
  ki_now a : kw_sent w !! 0 = Some a -> (a <= kw_now w)%Z;
  ki_descending : descending (kw_sent w);
  ki_spaced : spaced (kw_sent w);
  ki_entry : entry_ok (kw_entry w) (kw_sent w);
}.

(** [client_assertion_jwks] may ask for the keys at [t]. *)
Definition may_fetch (forced : bool) (sent : list Z) (t : Z) : Prop :=
  if forced then past 2 sent t else past 1 sent t.

Lemma past_later n sent t t' : past n sent t -> (t <= t')%Z -> past n sent t'.
Proof. intros Hp Ht x Hx. specialize (Hp x Hx). lia. Qed.

Lemma past_next n sent t : descending sent -> past n sent t -> past (S n) sent t.
Proof.
  intros Hd Hp x Hx. destruct (lookup_lt_is_Some_2 sent n) as [y Hy].
  { apply lookup_lt_Some in Hx. lia. }
  specialize (Hp y Hy). specialize (Hd _ _ _ Hy Hx). lia.
Qed.

Lemma may_fetch_past forced sent t : descending sent -> may_fetch forced sent t -> past 2 sent t.
Proof. intros Hd. destruct forced; [done|]. by apply past_next. Qed.

Lemma spaced_cons sent t : spaced sent -> past 2 sent t -> spaced (t :: sent).
Proof. intros Hs Hp [|n] a Ha; simpl in Ha; [|exact (Hs n a Ha)]. simplify_eq. intros x Hx. exact (Hp x Hx). Qed.

Lemma descending_cons sent t :
  descending sent -> (forall a, sent !! 0 = Some a -> (a <= t)%Z) -> descending (t :: sent).
Proof. intros Hd Ht [|n] a b; simpl; [intros [= <-]; apply Ht|apply Hd]. Qed.

(** ** One request among the others *)

(** The others keep what the holder of the lock found. *)
Definition keys_rely (i : nat) (w w' : KeysWorld) : Prop :=
  KeysInv w -> KeysInv w' /\ (kw_now w <= kw_now w')%Z /\ kw_gone w ⊆ kw_gone w'
  /\ (i ∉ kw_gone w' -> kw_holder w = Some i ->
        kw_holder w' = Some i /\ kw_entry w' = kw_entry w /\ kw_sent w' = kw_sent w).

Definition keys_guar (i : nat) (w w' : KeysWorld) : Prop := forall j, i <> j -> keys_rely j w w'.

#[export] Instance keys_rely_preorder i : PreOrder (keys_rely i).
Proof.
  split; [by intros w Hi|]. intros w1 w2 w3 H12 H23 Hi. destruct (H12 Hi) as (Hi2 & Ht & Hg & Hk).
  destruct (H23 Hi2) as (Hi3 & Ht' & Hg' & Hk'). split_and!; [done|lia|set_solver|].
  intros Hn Hh. destruct Hk as (Hh2 & <- & <-); [set_solver|done|]. apply Hk'; done.
Qed.

Lemma keys_env_rely i w w' : keys_env w w' -> keys_rely i w w'.
Proof.
  intros [t Ht|j] Hi; destruct Hi as [Hn Hd Hs He]; simpl.
  - split_and!; [split; simpl; try done|done|done|done]. intros a Ha. specialize (Hn a Ha). lia.
  - split_and!; [by split|lia|set_solver|]. intros Hg ->. split; [|done].
    rewrite bool_decide_eq_false_2; [done|]. intros [= ->]. set_solver.
Qed.

(** Request [i] holds the lock and knows the entry and the fetches, unless it was cancelled; the
    clock has shown [t]. *)
Definition owns (i : nat) (e : CachedClientJwks) (sent : list Z) (t : Z) (w : KeysWorld) : Prop :=
  KeysInv w /\ (t <= kw_now w)%Z
  /\ (i ∉ kw_gone w -> kw_holder w = Some i /\ kw_entry w = e /\ kw_sent w = sent).

Lemma owns_rely i e sent t w w' : owns i e sent t w -> keys_rely i w w' -> owns i e sent t w'.
Proof.
  intros (Hi & Ht & Hk) Hr. destruct (Hr Hi) as (Hi' & Ht' & Hg & Hk'). split_and!; [done|lia|].
  intros Hn. destruct Hk as (Hh & <- & <-); [set_solver|]. by apply Hk'.
Qed.

(** Nobody else owns what [i] owns, so a change by [i] leaves the others nothing to rely on. *)
Lemma owner_guar i w w' :
  kw_holder w = Some i -> (KeysInv w -> KeysInv w') -> kw_now w' = kw_now w -> kw_gone w' = kw_gone w ->
  keys_guar i w w'.
Proof.
  intros Hh Hi Hn Hg j Hj HI. rewrite Hn, Hg. split_and!; [by apply Hi|lia|done|].
  intros _ Hh'. congruence.
Qed.

Notation keys_safe i := (safe (keys_handle i) (keys_rely i) (keys_guar i)).

Section Steps.
Context {A : Type} (i : nat) (e : CachedClientJwks) (sent : list Z) (t : Z).
Context (Q : A -> KeysWorld -> Prop).

Lemma keys_ret (a : A) w : owns i e sent t w -> (forall w', owns i e sent t w' -> Q a w') -> keys_safe i (Ret a) Q w.
Proof. intros Ho HQ w1 Hw. apply HQ. by eapply owns_rely. Qed.

Lemma keys_now k w :
  owns i e sent t w -> (forall a w', (t <= a)%Z -> owns i e sent a w' -> keys_safe i (k a) Q w') ->
  keys_safe i (Op (Core InstantNow) k) Q w.
Proof.
  intros Ho Hk w1 a w2 Hr (Hg & -> & ->). eapply owns_rely in Ho; [|done]. split; [by intros j _|].
  destruct Ho as (Hi & Ht & Ho). apply Hk; [done|]. by split_and!.
Qed.

Lemma keys_check r k w :
  owns i e sent t w -> (forall a w', owns i e sent t w' -> keys_safe i (k a) Q w') ->
  keys_safe i (Op (CheckOutbound r) k) Q w.
Proof.
  intros Ho Hk w1 a w2 Hr (Hg & ->). eapply owns_rely in Ho; [|done]. split; [by intros j _|]. by apply Hk.
Qed.

Lemma keys_set key e' k w :
  owns i e sent t w -> (KeysInv w -> entry_ok e' sent) ->
  (forall w', owns i e' sent t w' -> keys_safe i (k tt) Q w') ->
  keys_safe i (Op (JwksSet key e') k) Q w.
Proof.
  intros Ho He Hk w1 [] w2 Hr (Hg & ->). pose proof (He (proj1 Ho)) as Hok. eapply owns_rely in Ho; [|done].
  destruct Ho as (Hi & Ht & Ho). destruct (Ho Hg) as (Hh & _ & Hs).
  assert (KeysInv (with_entry w1 e')) as Hi'.
  { destruct Hi as [? ? ? ?]. split; simpl; try done. by rewrite Hs. }
  split; [by apply owner_guar|]. apply Hk. by split_and!.
Qed.

Lemma keys_send c rq k w :
  owns i e sent t w -> past 2 sent t -> (forall x, (t <= x)%Z -> entry_ok e (x :: sent)) ->
  (forall a x w', (t <= x)%Z -> owns i e (x :: sent) x w' -> keys_safe i (k a) Q w') ->
  keys_safe i (Op (Execute c rq) k) Q w.
Proof.
  intros Ho Hp He Hk w1 a w2 Hr (Hg & ->). eapply owns_rely in Ho; [|done].
  destruct Ho as (Hi & Ht & Ho). destruct (Ho Hg) as (Hh & Hen & Hs).
  assert (KeysInv (with_sent w1)) as Hi'.
  { destruct Hi as [Hn Hd Hsp _]. rewrite Hs in *. split; simpl; rewrite ?Hs, ?Hen; [|by apply descending_cons| |by apply He].
    - by intros b [= <-].
    - apply spaced_cons; [done|]. by eapply past_later. }
  split; [by apply owner_guar|]. apply (Hk _ (kw_now w1)); [done|].
  split; [done|]. split; [done|]. simpl. by rewrite Hs.
Qed.
End Steps.

(** ** The calls of [client_assertion_jwks] *)

Context {L : PathLayout} (cfg : RelayConfig).

(** [i] still holds the lock, whatever the entry is now. *)
Definition holding (i : nat) (w : KeysWorld) : Prop := exists e sent t, owns i e sent t w.

Lemma holding_ret {A} i e sent t (a : A) w : owns i e sent t w -> keys_safe i (Ret a) (fun _ => holding i) w.
Proof. intros Ho. eapply keys_ret; [done|]. intros w' Ho'. by exists e, sent, t. Qed.

(** What the request knows when it has taken the lock. *)
Record known (e : CachedClientJwks) (sent : list Z) (t : Z) : Prop := {
  kn_entry : entry_ok e sent;
  kn_descending : descending sent;
  kn_sent a : sent !! 0 = Some a -> (a <= t)%Z;
}.

Lemma known_later e sent t t' : known e sent t -> (t <= t')%Z -> known e sent t'.
Proof. intros [? ? Hs] Ht. split; [done..|]. intros a Ha. specialize (Hs a Ha). lia. Qed.

(** The entry while the fetch that began at [t] is on its way, and after it. *)
Lemma waiting_ok c sent t x :
  (forall a, sent !! 0 = Some a -> (a <= t)%Z) ->
  entry_ok {| cj_current := c; cj_retry_after := Some (t + JWKS_REFRESH_COOLDOWN)%Z |} (x :: sent).
Proof. intros Hs y Hy. simpl in Hy. specialize (Hs y Hy). lia. Qed.

Lemma begun_ok c e sent t :
  known e sent t -> entry_ok {| cj_current := c; cj_retry_after := Some (t + JWKS_REFRESH_COOLDOWN)%Z |} sent.
Proof.
  intros [_ Hd Hs] y Hy. destruct (lookup_lt_is_Some_2 sent 0) as [a Ha].
  { apply lookup_lt_Some in Hy. lia. }
  specialize (Hs a Ha). specialize (Hd _ _ _ Ha Hy). lia.
Qed.

Lemma fetched_ok set sent x n :
  past 1 sent x -> (x <= n)%Z ->
  entry_ok {| cj_current := Some (n, set); cj_retry_after := None |} (x :: sent).
Proof. intros Hp Hn. split; simpl; intros a [= <-]; [exact Hp|exact Hn]. Qed.

Lemma keys_sent {A} i e sent t c rq purpose scope (f : _ -> rio A) Q w :
  owns i e sent t w -> past 2 sent t -> (forall x, (t <= x)%Z -> entry_ok e (x :: sent)) ->
  (forall w', owns i e sent t w' -> keys_safe i (f (Err Denied)) Q w') ->
  (forall r x w', r <> Err Denied -> (t <= x)%Z -> owns i e (x :: sent) x w' -> keys_safe i (f r) Q w') ->
  keys_safe i (bind (send_checked cfg c rq purpose scope) f) Q w.
Proof.
  intros Ho Hp He Hdenied Hf. unfold send_checked.
  assert (forall w', owns i e sent t w' -> keys_safe i
    (bind (response <- call (Execute c rq) ;;
           Ret (match response with
                | None => Err Failed
                | Some response =>
                    if bool_decide (rp_url response <> rq_url rq) || status_redirection (rp_status response)
                    then Err Failed else Ok response
                end)) f) Q w') as Hsend.
  { intros w' Ho'. cbn [bind call]. eapply keys_send; [done..|]. intros a x w2 Hx Ho2. cbn [bind].
    eapply Hf; [|done|done]. destruct a as [a|]; [|done]. by destruct (_ || _). }
  destruct (has_policy cfg); cbn [bind call negb]; [|by apply Hsend].
  eapply keys_check; [done|]. intros [] w2 Ho2; cbn [bind negb]; [by apply Hsend|by apply Hdenied].
Qed.

Lemma keys_fetch i e sent t scope u forced w :
  owns i e sent t w -> known e sent t -> may_fetch forced sent t ->
  keys_safe i (fetch_keys cfg scope u e forced) (fun _ => holding i) w.
Proof.
  intros Ho Hk Hm. unfold fetch_keys, do_core. cbv zeta. cbn [bind call].
  eapply keys_now; [done|]. intros n w1 Hn Ho1. eapply known_later in Hk; [|done].
  eapply keys_set; [done|intros _; by eapply begun_ok|]. intros w2 Ho2. cbn [bind].
  assert (may_fetch forced sent n) as Hm' by (destruct forced; by eapply past_later).
  eapply keys_sent; [done|by eapply may_fetch_past; [apply Hk|]|intros x _; by apply waiting_ok, Hk|..].
  - intros w3 Ho3. cbn [bind call]. eapply keys_set; [done|intros _; apply Hk|]. intros w4 Ho4.
    by eapply holding_ret.
  - intros r x w3 Hr Hx Ho3. destruct r as [r|[]]; [|done|by eapply holding_ret].
    destruct (negb _); [by eapply holding_ret|].
    destruct (b ← rp_body r; jwk_set_from_slice b) as [set|]; [|by eapply holding_ret].
    cbn [bind call]. eapply keys_now; [done|]. intros n' w4 Hn' Ho4. cbn [bind].
    eapply keys_set; [done| |intros w5 Ho5; by eapply holding_ret]. intros _. destruct forced.
    + apply waiting_ok, Hk.
    + apply fetched_ok; [by eapply past_later|done].
Qed.

(** When the cache has no use of its own and the cooldown is over, the keys may be fetched. *)
Lemma stale_may_fetch e sent t n :
  known e sent t -> (t <= n)%Z ->
  match cj_current e with Some (at_, _) => (JWKS_TTL <= n - at_)%Z | None => True end ->
  match cj_retry_after e with Some deadline => (deadline <= n)%Z | None => True end ->
  may_fetch false sent n.
Proof.
  intros [He Hd Hs] Ht Hc Hr x Hx. unfold entry_ok in He. destruct (cj_retry_after e) as [d|].
  { specialize (He x Hx). lia. }
  destruct He as [_ He]. destruct (lookup_lt_is_Some_2 sent 0) as [a Ha].
  { apply lookup_lt_Some in Hx. lia. }
  specialize (Hd _ _ _ Ha Hx). destruct (cj_current e) as [[at_ set]|]; [|by subst sent].
  specialize (He a Ha). unfold JWKS_TTL, JWKS_REFRESH_COOLDOWN, from_secs in *. lia.
Qed.

Lemma forced_may_fetch e sent t n :
  known e sent t -> (t <= n)%Z ->
  match cj_retry_after e with Some deadline => (deadline <= n)%Z | None => True end ->
  may_fetch true sent n.
Proof.
  intros [He Hd Hs] Ht Hr. unfold entry_ok in He. destruct (cj_retry_after e) as [d|].
  { apply past_next; [done|]. by eapply past_later. }
  destruct He as [He _]. destruct sent as [|a sent]; [by intros x Hx|].
  specialize (Hs a eq_refl). eapply past_later; [by apply He|]. lia.
Qed.

Lemma keys_current {A} i e sent t (f : _ -> rio A) Q w :
  owns i e sent t w ->
  (forall o n w', (t <= n)%Z -> owns i e sent n w' ->
     (o = None -> match cj_current e with Some (at_, _) => (JWKS_TTL <= n - at_)%Z | None => True end) ->
     keys_safe i (f o) Q w') ->
  keys_safe i (bind (current_keys e) f) Q w.
Proof.
  intros Ho Hf. unfold current_keys, do_core. destruct (cj_current e) as [[at_ set]|]; cbn [bind call].
  - eapply keys_now; [done|]. intros n w1 Hn Ho1. cbn [bind]. eapply Hf; [done..|].
    destruct (saturating_sub n at_ <? JWKS_TTL)%Z eqn:E; [done|]. intros _. apply Z.ltb_ge in E.
    unfold saturating_sub, JWKS_TTL, from_secs in *. lia.
  - eapply (Hf None t); [lia|done|done].
Qed.

Lemma keys_cooling {A} i e sent t (f : _ -> rio A) Q w :
  owns i e sent t w ->
  (forall (b : bool) n w', (t <= n)%Z -> owns i e sent n w' ->
     (b = false -> match cj_retry_after e with Some deadline => (deadline <= n)%Z | None => True end) ->
     keys_safe i (f b) Q w') ->
  keys_safe i (bind (cooling e) f) Q w.
Proof.
  intros Ho Hf. unfold cooling, do_core. destruct (cj_retry_after e) as [d|]; cbn [bind call].
  - eapply keys_now; [done|]. intros n w1 Hn Ho1. cbn [bind]. eapply Hf; [done..|]. intros Hb%Z.ltb_ge. done.
  - eapply (Hf false t); [lia|done|done].
Qed.

Lemma keys_locked i e sent t scope u kid w :
  owns i e sent t w -> known e sent t ->
  keys_safe i (keys_under_lock cfg scope u kid e) (fun _ => holding i) w.
Proof.
  intros Ho Hk. unfold keys_under_lock. eapply keys_current; [done|]. intros o n w1 Hn Ho1 Hcur.
  destruct o as [set|].
  - destruct (match kid with Some kid => has_kid kid set | None => true end); [by eapply holding_ret|].
    eapply keys_cooling; [done|]. intros b n' w2 Hn' Ho2 Hb. destruct b; [by eapply holding_ret|].
    eapply keys_fetch; [done|eapply known_later; [done|lia]|].
    eapply forced_may_fetch; [done|lia|by apply Hb].
  - eapply keys_cooling; [done|]. intros b n' w2 Hn' Ho2 Hb. destruct b; [by eapply holding_ret|].
    eapply keys_fetch; [done|eapply known_later; [done|lia]|].
    eapply stale_may_fetch; [done|lia| |by apply Hb]. specialize (Hcur eq_refl).
    destruct (cj_current e) as [[at_ ?]|]; [lia|done].
Qed.

Lemma keys_request i scope u kid w :
  KeysInv w -> keys_safe i (client_assertion_jwks cfg scope u kid) (fun _ _ => True) w.
Proof.
  intros HI. unfold client_assertion_jwks. cbv zeta. cbn [bind call].
  intros w1 e w2 Hr (Hg & Hh & -> & ->). destruct (Hr HI) as (Hi & _ & _ & _).
  assert (KeysInv (with_holder w1 (Some i))) as Hi' by (by destruct Hi).
  split; [intros j Hj _; split_and!; [done|simpl; lia|done|intros _; by rewrite Hh]|].
  apply (safe_bind (keys_handle i) (keys_rely i) (keys_guar i)). eapply safe_mono; [|apply (keys_locked _ _ (kw_sent w1) (kw_now w1))].
  - intros keys w3 (e & sent & t & Ho) w4 [] w5 Hr4 (Hg4 & ->). eapply owns_rely in Ho; [|done].
    destruct Ho as (Hi4 & _ & Hk). destruct (Hk Hg4) as (Hh4 & _).
    split; [apply owner_guar; by destruct Hi4|by intros w6 _].
  - split; [done|]. split; [simpl; lia|done].
  - by destruct Hi.
Qed.
End Keys.

(** ** Property *)

Definition first_use (t : Z) {U : UrlLib} {JW : JwtLib} : KeysWorld :=
  {| kw_now := t; kw_entry := {| cj_current := None; cj_retry_after := None |};
     kw_holder := None; kw_gone := []; kw_sent := [] |}.

(** C16: the keys of a client are not asked for in bursts. Whatever requests call
    [client_assertion_jwks] for one URL, however they interleave, whichever of them are cancelled,
    and whatever the policy and the server of the keys answer, the first and the last of any
    four fetches in a row are at least [JWKS_REFRESH_COOLDOWN] apart. *)
Theorem keys_fetch_rate {U : UrlLib} {JW : JwtLib} {L : PathLayout} cfg u
    (requests : list (Scope * option string)) t w ts n later earlier :
  reachable keys_handle keys_env
    (first_use t, (fun '(scope, kid) => client_assertion_jwks cfg scope u kid) <$> requests) (w, ts) ->
  kw_sent w !! n = Some later -> kw_sent w !! (3 + n) = Some earlier ->
  (earlier + JWKS_REFRESH_COOLDOWN <= later)%Z.
Proof.
  intros Hr Hl He. assert (KeysInv (first_use t)) as H0.
  { by split. }
  assert (KeysInv w) as Hi; [|exact (ki_spaced _ Hi n later Hl _ He)].
  refine (proj1 (tasks_keep keys_handle keys_env keys_rely keys_guar (fun _ _ _ => True) KeysInv
    (first_use t, _) (w, ts) (fun i j w w' Hij Hg => Hg j Hij) keys_env_rely _ _ Hr _ H0)).
  - intros i w1 w2 Hg HI. by apply (Hg (S i)).
  - intros w1 w2 Hw HI. by apply (keys_env_rely 0 _ _ Hw).
  - intros i p Hp. apply list_lookup_fmap_Some in Hp as ([scope kid] & -> & _). by apply keys_request.
Qed.

(** ** A run

    The server of the keys answers every fetch with one key that has no name. *)

Module KeysRun.
Import PlainUrl.

#[local] Instance one_key : JwtLib := {|
  jwk := unit; decoding_key := unit; decode_header _ := None; jwk_set _ := None;
  jwk_set_from_slice _ := Some [tt]; key_id _ := None; from_jwk _ := Some tt; jwt_decode _ _ _ _ := None;
|}.
#[local] Instance layout : PathLayout := default_layout {| keys := SingleSegment |}.

Definition keys_url : url := Build_t "https" (Domain "client.example.com") "" None "/keys" None None.
Definition cfg : RelayConfig := {|
  public_url := keys_url; has_store := true; has_policy := true; redirect := redirect_options_default;
|}.

(** As long as nobody is cancelled. *)
Definition answer (i : nat) (w : KeysWorld) (e : reff) : option (rans e * KeysWorld) :=
  match kw_gone w with
  | _ :: _ => None
  | [] =>
      match e as e return option (rans e * KeysWorld) with
      | Core InstantNow => Some (kw_now w, w)
      | CheckOutbound _ => Some (true, w)
      | JwksLock _ => match kw_holder w with None => Some (kw_entry w, with_holder w (Some i)) | Some _ => None end
      | JwksSet _ entry => Some (tt, with_entry w entry)
      | JwksUnlock _ => Some (tt, with_holder w None)
      | Execute _ rq =>
          Some (Some {| rp_url := rq_url rq; rp_status := 200; rp_content_type := None; rp_body := Some [] |},
                with_sent w)
      | _ => None
      end
  end.

Lemma answer_handle i w e a w' : answer i w e = Some (a, w') -> keys_handle i w e a w'.
Proof.
  unfold answer. destruct (kw_gone w) as [|j l] eqn:Hg; [|done]. intros Ha.
  assert (i ∉ kw_gone w) as Hi by (rewrite Hg; apply not_elem_of_nil).
  destruct e as [[]| | | | | | | | | | | | |]; simpl in Ha; try done; try (by simplify_eq).
  destruct (kw_holder w) eqn:Eh; by simplify_eq.
Qed.

Definition scope : Scope := {| sc_relay := None; sc_upstream := None |}.

(** The first request finds nothing, the others miss a key. *)
Definition requests : list (Scope * option string) :=
  [(scope, None); (scope, Some "kid"); (scope, Some "kid"); (scope, Some "kid")].

Definition ask (request : Scope * option string) : rio (option (list jwk)) :=
  client_assertion_jwks cfg request.1 keys_url request.2.

Definition later (secs : Z) (w : KeysWorld) : KeysWorld :=
  {| kw_now := kw_now w + from_secs secs; kw_entry := kw_entry w; kw_holder := kw_holder w;
     kw_gone := kw_gone w; kw_sent := kw_sent w |}.

(** Requests [i] and up, each some seconds after the one before. *)
Fixpoint asked (i : nat) (waits : list Z) (w : KeysWorld) : option KeysWorld :=
  match waits with
  | [] => Some w
  | secs :: waits =>
      request ← requests !! i;
      '(_, w') ← run (answer i) (ask request) (later secs w);
      asked (S i) waits w'
  end.

(** A second miss in the cooldown is answered from the cache, a third after it is not. *)
Example throttled :
  kw_sent <$> asked 0 [0; 0; 29]%Z (first_use 0) = Some [0; 0]%Z
  /\ kw_sent <$> asked 0 [0; 0; 30]%Z (first_use 0) = Some [from_secs 30; 0; 0]%Z.
Proof. split; vm_compute; reflexivity. Qed.

Lemma asked_reachable i waits w w' ts :
  asked i waits w = Some w' -> Forall (fun secs => (0 <= secs)%Z) waits ->
  (forall j, i <= j -> ts !! j = ask <$> requests !! j) ->
  exists ts', reachable keys_handle keys_env (w, ts) (w', ts').
Proof.
  revert i w ts. induction waits as [|secs waits IH]; intros i w ts; cbn [asked].
  - intros [= <-] _ _. by exists ts.
  - intros (request & Hq & ([a w1] & Hrun & Hrest)%bind_Some)%bind_Some [Hs Hw]%Forall_cons Hts.
    destruct (IH (S i) w1 (<[i := Ret a]> ts) Hrest Hw) as [ts' Hr'].
    { intros j Hj. rewrite list_lookup_insert_ne by lia. apply Hts. lia. }
    exists ts'. eapply rtc_l; [eapply step_env, (keys_time w (kw_now w + from_secs secs)); unfold from_secs; lia|].
    unfold reachable in *. etrans; [|exact Hr'].
    eapply run_reachable; [apply answer_handle|exact Hrun|]. rewrite Hts, Hq by lia. done.
Qed.

Lemma keys_fetch_rate_witness : exists w, asked 0 [0; 0; 30; 30]%Z (first_use 0) = Some w
  /\ kw_sent w = [from_secs 60; from_secs 30; 0; 0]%Z /\ (0 + JWKS_REFRESH_COOLDOWN <= from_secs 60)%Z.
Proof.
  assert (kw_sent <$> asked 0 [0; 0; 30; 30]%Z (first_use 0) = Some [from_secs 60; from_secs 30; 0; 0]%Z) as Hsent
    by (vm_compute; reflexivity).
  destruct (asked 0 [0; 0; 30; 30]%Z (first_use 0)) as [w|] eqn:Ew; [|discriminate Hsent].
  apply (inj Some) in Hsent. exists w. split; [done|]. split; [exact Hsent|].
  destruct (asked_reachable 0 _ _ _ (ask <$> requests) Ew) as [ts Hr].
  - repeat constructor; lia.
  - intros j _. apply list_lookup_fmap.
  - refine (keys_fetch_rate cfg keys_url requests 0 w ts 0 _ _ _ _ _); [|by rewrite Hsent..].
    assert ((fun '(scope, kid) => client_assertion_jwks cfg scope keys_url kid) <$> requests = ask <$> requests) as ->
      by reflexivity. exact Hr.
Defined.
End KeysRun.
