(* ===== verification/CodeSafety.v ===== *)
(** * CodeSafety: the authorization-code flow

    What every run of the code flow guarantees, whatever the upstream, the sealer, the store and
    the other instances answer: where a callback redirects to, that a flow comes back as it left,
    what a redeemed code proves about the request, that a code is redeemed once within its
    lifetime, and that a relay that seals or rotates lets no upstream refresh token out: what it
    hands out was sealed or drawn in the run ([sealed_in], [drawn_in]). The theorems read the log of
    a run ([runs]); they are about [authorize], [callback] and [exchange_sealed_code]. *)

From S2P Require Import Prelude Text Json Url Model Layout Store Seal Prog Effects RefreshHandle.
From S2P Require Import Rotation Requests Jwt Web Flows Grants.
#[local] Open Scope string_scope.
#[local] Open Scope prog_scope.

(** ** Redirect targets *)

(** [location] is [target] with, at most, more query parameters. *)
Definition extends_query (target location : string) : Prop :=
  exists suffix, location = target +:+ suffix
    /\ (suffix = "" \/ starts_with "?" suffix = true \/ contains "?" target = true).

Lemma extends_query_refl target : extends_query target target.
Proof. exists "". by rewrite str_app_nil_r; auto. Qed.

Lemma contains_app c s t : contains c s = true -> contains c (s +:+ t) = true.
Proof.
  intros Hs. apply not_false_iff_true. rewrite contains_false, str_all_app. intros [H _]%andb_true_iff.
  apply contains_false in H. congruence.
Qed.

Lemma starts_contains c s : starts_with c s = true -> contains c s = true.
Proof.
  destruct s as [|d s]; [done|]. unfold starts_with. simpl. intros H%bool_decide_eq_true. simplify_eq.
  apply not_false_iff_true. rewrite contains_false. simpl.
  rewrite bool_decide_eq_false_2; [done|]. auto.
Qed.

Lemma contains_app_r c s t : contains c t = true -> contains c (s +:+ t) = true.
Proof.
  intros Ht. apply not_false_iff_true. rewrite contains_false, str_all_app. intros [_ H]%andb_true_iff.
  apply contains_false in H. congruence.
Qed.

Lemma extends_query_trans a b c : extends_query a b -> extends_query b c -> extends_query a c.
Proof.
  intros (s & -> & Hs) (t & -> & Ht). exists (s +:+ t). split; [by rewrite str_app_assoc|].
  destruct Hs as [->|[Hs|Hs]].
  - simpl. rewrite str_app_nil_r in Ht. exact Ht.
  - right; left. destruct s; [done|]. exact Hs.
  - auto.
Qed.

Section Flow.
Context {U : UrlLib} {L : PathLayout} {J : JsonLib} {HL : HeaderLib} {F : FormLib}.
Context {SH : Sha256} {SH2 : Sha2} {B : Base64} {BS : Base64Std} {JW : JwtLib}.
Context {PF : Postcard FlowEnvelope} {PC : Postcard CodeEnvelope}.
Context {PH : Postcard OpenedHandle} {PR : Postcard HandleRecord} {PS : Postcard StoredResponse}.
Context (cfg : RelayConfig).

Lemma append_extends u pairs : extends_query u (append_query_pairs u pairs).
Proof.
  unfold append_query_pairs. destruct pairs as [|p pairs]; [apply extends_query_refl|]. cbv zeta.
  destruct (contains "?" u) eqn:Eq; cbn [negb].
  - destruct (ends_with "?" u || ends_with "&" u); cbn [negb];
      [by eexists; auto|]. eexists. split; [by rewrite str_app_assoc|auto].
  - eexists. split; [by rewrite str_app_assoc|]. right; left. done.
Qed.

(** A response that redirects. *)
Definition redirects (resp : Resp) : Prop := rs_headers resp <> [].

Lemma bare_no_redirect s : ~ redirects (bare s).
Proof. by intros []. Qed.

(** ** Calls that send no form *)

Definition sends_form (e : reff) (form : list (string * string)) : Prop :=
  exists c rq, e = Execute c rq /\ rq_form rq = Some form.

Definition formless (e : reff) : Prop := forall form, ~ sends_form e form.

Lemma formless_call e : (forall c rq, e <> Execute c rq) -> every formless (call e : rio (rans e)).
Proof. intros He. split; [|done]. intros form (c & rq & -> & _). by destruct (He c rq). Qed.

Lemma formless_send c u purpose scope timeout :
  every formless (send_checked cfg c (get_request u timeout) purpose scope).
Proof.
  assert (every formless (call (Execute c (get_request u timeout)) : rio (option HttpResponse))) as He.
  { split; [|done]. intros form (c' & rq & [= <- <-] & Hf). done. }
  unfold send_checked. apply every_bind; [destruct (has_policy cfg); [by apply formless_call|done]|].
  intros []; [|done]. by apply every_bind; [exact He|].
Qed.

Lemma formless_cached_json scope u ttl purpose : every formless (cached_json cfg scope u ttl purpose).
Proof.
  unfold cached_json, cached_json_with_client, cached_fresh, cache_insert, fetch_json_object, do_core. cbv zeta.
  apply every_bind.
  - apply every_bind; [by apply formless_call|]. intros [entry|]; [|done].
    by apply every_bind; [apply formless_call|].
  - intros [v|]; [done|]. apply every_bind.
    + by apply every_bind; [apply formless_send|].
    + intros [v|]; [|done]. apply every_bind; [|done].
      by apply every_bind; [apply formless_call|intros; apply formless_call].
Qed.

Lemma formless_endpoints r u : every formless (resolve_endpoints cfg r u).
Proof.
  unfold resolve_endpoints. destruct (endpoints_need_discovery u); cbn [negb]; [|done].
  by apply every_bind_ok; [apply formless_cached_json|].
Qed.

Lemma formless_open_flow u q : every formless (open_flow u q).
Proof.
  unfold open_flow, unseal_postcard, fresh, unix_now, do_core. apply every_bind.
  - by apply every_bind; [apply formless_call|].
  - intros [flow|[]]; [|done|done]. apply every_bind; [|done]. apply every_bind; [|done].
    by apply every_bind; [apply formless_call|].
Qed.

Lemma formless_flow_relay u flow : every formless (flow_relay cfg u flow).
Proof.
  unfold flow_relay. destruct (ResourceKey_new _); [|done]. by apply every_bind; [apply formless_call|].
Qed.

(** ** The callback *)

Lemma runs_unseal {T} {P : Postcard T} key v l (x : T) :
  runs (unseal_postcard key v) l (Ok x) ->
  exists b, l = [logged (Core (UnsealCall v (into_bytes (key_str key)))) (Ok b)] /\ from_postcard b = Some x.
Proof.
  unfold unseal_postcard. intros (r & l1 & l2 & -> & (c & l' & -> & -> & ->) & -> & Hx)%runs_bind.
  destruct c as [b|[]]; [|done..]. exists b. split; [done|]. by destruct (from_postcard b); simplify_eq/=.
Qed.

Lemma runs_open_flow u q l flow :
  runs (open_flow u q) l (Ok flow) -> exists b now, from_postcard b = Some flow
    /\ l = [logged (Core (UnsealCall (cb_state q) (into_bytes (key_str (up_key u))))) (Ok b); logged (Core Now) now]
    /\ fresh_at (now / 1000) (fl_issued_at flow) FLOW_TTL = true.
Proof.
  unfold open_flow. intros ([f|[]] & l1 & l2 & -> & H1 & H2)%runs_bind; [|by destruct H2..].
  apply runs_unseal in H1 as (b & -> & Hb).
  unfold fresh, unix_now, do_core in H2. simpl in H2. destruct H2 as (now & l' & -> & Hr).
  destruct (fresh_at _ _ _) eqn:Ef; destruct Hr as [-> Hr]; simplify_eq. by exists b, now.
Qed.

Lemma runs_flow_relay u flow l r :
  runs (flow_relay cfg u flow) l (Some r) -> exists key,
    l = [logged (ResolveRelay key) (Ok (Some r))]
    /\ relay_upstream r = up_key u /\ validate_for r (redirect cfg) = Ok tt.
Proof.
  unfold flow_relay. destruct (ResourceKey_new _) as [key|]; [|by intros [_ ?]].
  intros (a & l' & -> & -> & Hr). destruct a as [[r'|]|]; [|done..].
  destruct (bool_decide (relay_upstream r' = up_key u)) eqn:Eb; simpl in Hr; [|done].
  destruct (validate_for r' _) as [[]|] eqn:Ev; [|done]. simpl in Hr. simplify_eq.
  apply bool_decide_eq_true in Eb. by exists key.
Qed.

(** How a run of [callback] begins: it stops with a bare status, or it has opened a flow that is
    fresh, and found its relay. *)
Lemma runs_callback u q l resp :
  runs (callback cfg u q) l resp ->
  (~ redirects resp /\ forall e a form, logged e a ∈ l -> ~ sends_form e form)
  \/ exists l1 l2 b now flow key r, l = (l1 ++ l2)%list
     /\ l1 = [logged (Core (UnsealCall (cb_state q) (into_bytes (key_str (up_key u))))) (Ok b);
              logged (Core Now) now; logged (ResolveRelay key) (Ok (Some r))]
     /\ from_postcard b = Some flow /\ fresh_at (now / 1000) (fl_issued_at flow) FLOW_TTL = true
     /\ relay_upstream r = up_key u /\ validate_for r (redirect cfg) = Ok tt
     /\ runs (finish_callback cfg r u q flow) l2 resp.
Proof.
  unfold callback. intros (f & l1 & l2 & -> & H1 & H2)%runs_bind.
  pose proof (fun e a form Hin => every_runs _ _ _ _ e a (formless_open_flow u q) H1 Hin form) as Hf1.
  destruct f as [flow|s].
  2: { destruct H2 as [-> ->]. left. split; [apply bare_no_redirect|]. rewrite app_nil_r. intros; by eapply Hf1. }
  apply runs_bind in H2 as (o & l3 & l4 & -> & H2 & H3).
  pose proof (fun e a form Hin => every_runs _ _ _ _ e a (formless_flow_relay u flow) H2 Hin form) as Hf2.
  destruct o as [r|].
  2: { destruct H3 as [-> ->]. left. split; [apply bare_no_redirect|]. rewrite app_nil_r.
       intros e a form [Hin|Hin]%elem_of_app; [by eapply Hf1|by eapply Hf2]. }
  right. apply runs_open_flow in H1 as (b & now & Hb & -> & Hfr). apply runs_flow_relay in H2 as (key & -> & Hu & Hv).
  eexists _, l4, b, now, flow, key, r. split_and!; [|done..]. by rewrite app_assoc.
Qed.

Lemma runs_finish_redirects r u q flow l resp :
  runs (finish_callback cfg r u q flow) l resp -> redirects resp ->
  redirect_allowed r (fl_app_redirect_uri flow) (redirect cfg) = true
  /\ exists pairs, resp = found (append_query_pairs
       (append_query_pairs (foldl append_query_pairs (fl_app_redirect_uri flow) pairs) (cb_forwarded q))
       (state_pairs flow)).
Proof.
  unfold finish_callback. destruct (redirect_allowed _ _ _); cbn [negb]; [|by intros [_ ->] ?%bare_no_redirect].
  destruct (cb_error q).
  { intros [_ ->] _. split; [done|]. by exists []. }
  destruct (cb_code q) as [code|]; [|by intros [_ ->] ?%bare_no_redirect].
  unfold exchange_code. intros (e & l1 & l2 & -> & _ & Hr)%runs_bind Hred. split; [done|].
  destruct e as [e|s]; [|destruct Hr as [_ ->]; by apply bare_no_redirect in Hred].
  apply runs_bind in Hr as (o & l3 & l4 & -> & _ & Hr).
  destruct o as [o|]; [|destruct Hr as [_ ->]; by apply bare_no_redirect in Hred].
  destruct (read_upstream_response o) as [stored|]; [|destruct Hr as [_ ->]; by apply bare_no_redirect in Hred].
  apply runs_bind in Hr as (id & l5 & l6 & -> & _ & Hr).
  apply runs_bind in Hr as (issued & l7 & l8 & -> & _ & Hr).
  apply runs_bind in Hr as (sealed & l9 & l10 & -> & _ & [_ ->]).
  destruct sealed as [sealed|]; [|by apply bare_no_redirect in Hred]. by exists [[("code", sealed)]].
Qed.

Lemma foldl_append_extends u pairs : extends_query u (foldl append_query_pairs u pairs).
Proof.
  revert u. induction pairs as [|p pairs IH]; intros u; [apply extends_query_refl|].
  eapply extends_query_trans; [apply append_extends|apply IH].
Qed.

(** ** Authorize *)

Lemma runs_authorize r u q l resp :
  runs (authorize cfg r u q) l resp -> redirects resp ->
  exists redirect_value scope e verifier issued nonce pt env,
    authorize_checks cfg r q = Some (redirect_value, scope)
    /\ to_stdvec (flow_of r q redirect_value verifier issued nonce) = Some pt
    /\ logged (Core (SealCall pt (into_bytes (key_str (up_key u))))) (Ok env) ∈ l
    /\ resp = found (as_str (append_pairs e (upstream_params cfg u q env verifier scope))).
Proof.
  unfold authorize. destruct (rotation_store_missing cfg r); [by intros [_ ->] ?%bare_no_redirect|].
  destruct (authorize_checks cfg r q) as [[rv scope]|]; [|by intros [_ ->] ?%bare_no_redirect].
  intros (e & l1 & l2 & -> & _ & Hr)%runs_bind Hred.
  destruct e as [e|s]; [|destruct Hr as [_ ->]; by apply bare_no_redirect in Hred].
  apply runs_bind in Hr as (verifier & l3 & l4 & -> & _ & Hr).
  apply runs_bind in Hr as (issued & l5 & l6 & -> & _ & Hr).
  apply runs_bind in Hr as (nonce & l7 & l8 & -> & _ & Hr).
  apply runs_bind in Hr as (sealed & l9 & l10 & -> & Hs & [_ ->]).
  destruct sealed as [env|]; [|by apply bare_no_redirect in Hred].
  unfold seal_postcard in Hs. destruct (to_stdvec _) as [pt|] eqn:Ept; simpl ok_or in Hs; cbn iota in Hs;
    [|by destruct Hs].
  apply runs_bind in Hs as (o & l11 & l12 & -> & Hs & [_ Heq]).
  destruct Hs as (o' & l' & -> & -> & ->). destruct o' as [env'|]; simpl in Heq; [|done]. injection Heq as ->.
  eexists rv, scope, _, verifier, issued, nonce, pt, env'. split_and!; [done|done|set_solver|done].
Qed.

Lemma every_finish r u q flow :
  every (fun e => forall form, sends_form e form -> exists code, cb_code q = Some code
    /\ forall nv, nv ∈ exchange_form cfg u flow code -> nv ∈ form) (finish_callback cfg r u q flow).
Proof.
  unfold finish_callback. destruct (redirect_allowed _ _ _); cbn [negb]; [|done].
  destruct (cb_error q); [done|]. destruct (cb_code q) as [code|]; [|done].
  assert (forall (p : rio Resp), every formless p -> every (fun e => forall form, sends_form e form ->
    exists code', Some code = Some code' /\ forall nv, nv ∈ exchange_form cfg u flow code' -> nv ∈ form) p) as Hf.
  { intros p. apply every_mono. intros e He form Hs. by apply He in Hs. }
  unfold exchange_code. apply every_bind.
  { eapply every_mono; [|apply formless_endpoints]. intros e He form Hs. by apply He in Hs. }
  intros [e|s]; [|done]. apply every_bind.
  - unfold send_upstream_token_request, send_checked. apply every_bind.
    { destruct (has_policy cfg); [|done]. split; [|done]. by intros form (c & rq & ? & _). }
    intros []; [|done]. apply every_bind; [|done]. split; [|done].
    intros form (c & rq & [= <- <-] & Hf'). exists code. split; [done|].
    unfold upstream_token_request in Hf'. destruct (token_endpoint_auth_method u); injection Hf' as <-; [|done].
    intros nv. unfold exchange_form. set_solver.
  - intros [o|]; [|done]. destruct (read_upstream_response o); [|done].
    apply Hf. unfold unix_now, seal_postcard, do_core.
    apply every_bind; [by apply formless_call|]. intros id.
    apply every_bind; [by apply every_bind; [apply formless_call|]|]. intros issued.
    apply every_bind; [|done]. destruct (ok_or _ _); [|done]. by apply every_bind; [apply formless_call|].
Qed.
End Flow.

(** What the sealer contract says of two logs: an envelope that the first sealed opens in the
    second only with its own associated data, to what was sealed. *)
Definition honest {U : UrlLib} {JW : JwtLib} (l l' : call_log rans) : Prop :=
  forall pt ad env ad' pt',
    logged (Core (SealCall pt ad)) (Ok env) ∈ l -> logged (Core (UnsealCall env ad')) (Ok pt') ∈ l' ->
    ad' = ad /\ pt' = pt.

Lemma sealer_honest {U : UrlLib} {JW : JwtLib} {S} {SL : Sealer S} {SLL : SealerLaws S} (sealer : S) l l' :
  (forall pt ad env, logged (Core (SealCall pt ad)) (Ok env) ∈ l ->
     exists nonce, length nonce = 24 /\ seal sealer nonce pt ad = Ok env) ->
  (forall env ad pt, logged (Core (UnsealCall env ad)) (Ok pt) ∈ l' -> unseal sealer env ad = Ok pt) ->
  honest l l'.
Proof.
  intros Hs Hu pt ad env ad' pt' Hin Hin'. destruct (Hs _ _ _ Hin) as (nonce & Hn & He).
  eapply (opens_only _ _ (sealer_opens sealer)); eauto.
Qed.

(** ** Redeeming a code *)

Section Redeem.
Context {U : UrlLib} {L : PathLayout} {J : JsonLib} {HL : HeaderLib} {F : FormLib}.
Context {SH : Sha256} {SH2 : Sha2} {B : Base64} {BS : Base64Std} {JW : JwtLib}.
Context {PF : Postcard FlowEnvelope} {PC : Postcard CodeEnvelope}.
Context {PH : Postcard OpenedHandle} {PR : Postcard HandleRecord} {PS : Postcard StoredResponse}.
Context (cfg : RelayConfig).

(** A 2xx answer. *)
Definition succeeds (resp : Resp) : Prop := status_success (rs_status resp) = true.

(** The marker of one redemption is in the log. *)
Definition marked (envelope : CodeEnvelope) (l : call_log rans) : Prop :=
  exists marker, logged (Core (StoreCall (PutIfAbsent (replay_key envelope) marker (from_secs CODE_TTL))))
    (Ok true) ∈ l.

Lemma runs_open_code r code l envelope :
  runs (open_code r code) l (Ok envelope) ->
  exists b now, l = [logged (Core (UnsealCall code (into_bytes (key_str (relay_key r))))) (Ok b); logged (Core Now) now]
    /\ from_postcard b = Some envelope /\ ce_relay_key envelope = key_str (relay_key r)
    /\ fresh_at (now / 1000) (ce_issued_at envelope) CODE_TTL = true.
Proof.
  unfold open_code. intros ([e|e] & l1 & l2 & -> & H1 & H2)%runs_bind; [|by destruct H2].
  apply runs_unseal in H1 as (b & -> & Hb).
  destruct (bool_decide (ce_relay_key e = _)) eqn:Ek; [|by destruct H2]. apply bool_decide_eq_true in Ek.
  unfold fresh, unix_now, do_core in H2. simpl in H2. destruct H2 as (now & l' & -> & Hr).
  destruct (fresh_at _ _ _) eqn:Ef; destruct Hr as [-> Hr]; [|done]. injection Hr as ->. by exists b, now.
Qed.

Lemma runs_mark envelope l o :
  runs (mark_redeemed cfg envelope) l o ->
  match o with
  | None => has_store cfg = true -> marked envelope l
  | Some resp => ~ succeeds resp
  end.
Proof.
  unfold mark_redeemed. destruct (has_store cfg); cbn [negb]; [|by intros [-> ->]].
  intros (m & l1 & -> & a & l2 & -> & -> & ->). destruct a as [[]|]; [|done..].
  intros _. exists m. set_solver.
Qed.

(** How a successful redemption went. *)
Lemma runs_redeem r u envelope l resp :
  runs (redeem cfg r u envelope) l resp -> succeeds resp ->
  exists l1 l2 l3 l4 sealed_body validation, l = (l1 ++ l2 ++ l3 ++ l4)%list
    /\ runs (validate_id_token_policy cfg r u (ce_upstream_response envelope) (ce_id_token_nonce envelope)) l1 validation
    /\ validation = Ok tt
    /\ runs (seal_redemption r envelope validation) l2 (Ok sealed_body)
    /\ (has_store cfg = true -> marked envelope l3)
    /\ runs (finish_redemption cfg r envelope sealed_body) l4 resp.
Proof.
  unfold redeem. intros (v & l1 & l2 & -> & Hv & Hr)%runs_bind Hs.
  assert (Hgo : runs (sealed_body <- seal_redemption r envelope v ;;
      match sealed_body with
      | Err response => Ret response
      | Ok sealed_body =>
          replay <- mark_redeemed cfg envelope ;;
          match replay, v with
          | Some response, _ => Ret response
          | None, Err _ => Ret required_claims_error
          | None, Ok _ => finish_redemption cfg r envelope sealed_body
          end
      end) l2 resp).
  { destruct v as [[]|[]]; [done|done|]. by destruct Hr as [_ ->]. }
  clear Hr. apply runs_bind in Hgo as (sb & l3 & l4 & -> & Hsb & Hr).
  destruct sb as [sb|bad].
  2: { destruct Hr as [_ ->]. exfalso. unfold seal_redemption in Hsb. destruct (_ && _); [|by destruct Hsb].
       apply runs_bind in Hsb as (n0 & k1 & k2 & _ & _ & Hsb). apply runs_bind in Hsb as (o & k3 & k4 & _ & _ & [_ Heq]).
       destruct o as [|[]]; simpl in Heq; try done; injection Heq as ->; done. }
  apply runs_bind in Hr as (rp & l5 & l6 & -> & Hm & Hr). apply runs_mark in Hm.
  destruct rp as [bad|]; [by destruct Hr as [_ ->]|].
  destruct v as [[]|]; [|by destruct Hr as [_ ->]].
  by exists l1, l3, l5, l6, sb, (Ok tt).
Qed.

(** How a successful token request for a code went. *)
Lemma runs_exchange r u form l resp :
  runs (exchange_sealed_code cfg r u form) l resp -> succeeds resp ->
  exists code b now envelope l2,
    tk_code form = Some code
    /\ l = ([logged (Core (UnsealCall code (into_bytes (key_str (relay_key r))))) (Ok b); logged (Core Now) now] ++ l2)%list
    /\ from_postcard b = Some envelope /\ ce_relay_key envelope = key_str (relay_key r)
    /\ fresh_at (now / 1000) (ce_issued_at envelope) CODE_TTL = true
    /\ code_mismatch r envelope form = None /\ runs (redeem cfg r u envelope) l2 resp.
Proof.
  unfold exchange_sealed_code. destruct (rotation_store_missing cfg r); [by intros [_ ->]|].
  destruct (tk_code form) as [code|]; [|by intros [_ ->]].
  intros (e & l1 & l2 & -> & H1 & H2)%runs_bind Hs. destruct e as [e|[]]; [|by destruct H2 as [_ ->]..].
  apply runs_open_code in H1 as (b & now & -> & Hb & Hk & Hf).
  destruct (code_mismatch r e form) as [bad|] eqn:Em.
  - destruct H2 as [_ ->]. exfalso. unfold code_mismatch in Em.
    repeat case_match; simplify_eq; by vm_compute in Hs.
  - by exists code, b, now, e, l2.
Qed.

Lemma code_matches r envelope form :
  code_mismatch r envelope form = None ->
  tk_redirect_uri form = Some (ce_redirect_uri envelope)
  /\ match ce_client_code_challenge envelope with
     | Some challenge => exists verifier, tk_code_verifier form = Some verifier
         /\ valid_pkce_verifier verifier = true /\ challenge = pkce_challenge verifier
     | None => tk_code_verifier form = None /\ client_auth r <> Public
     end.
Proof.
  unfold code_mismatch. case_bool_decide as Hu; [done|].
  destruct (ce_client_code_challenge envelope) as [c|], (tk_code_verifier form) as [v|]; try done.
  - destruct (valid_pkce_verifier v) eqn:Ev; cbn [negb]; [|done].
    rewrite constant_eq_ok. case_bool_decide; [|done]. intros _. split; [done|]. by exists v.
  - destruct (client_auth r); simpl; try done; intros _; (split; [done|]); done.
Qed.
End Redeem.

(** ** Refresh tokens in responses *)

Section Handles.
Context {U : UrlLib} {L : PathLayout} {J : JsonLib} {JL : JsonLaws J} {JO : JsonObjects J} {HL : HeaderLib} {F : FormLib}.
Context {SH : Sha256} {SH2 : Sha2} {B : Base64} {BS : Base64Std} {JW : JwtLib}.
Context {PF : Postcard FlowEnvelope} {PC : Postcard CodeEnvelope}.
Context {PH : Postcard OpenedHandle} {PR : Postcard HandleRecord} {PS : Postcard StoredResponse}.
Context (cfg : RelayConfig).

(** A refresh token that a sealing relay hands out: behind the prefix, the very envelope that the
    sealer answered when this run gave it a token and a time to seal under the binding [b]. *)
Definition sealed_in (b : HandleBinding) (l : call_log rans) (t : string) : Prop :=
  exists token issued pt env, to_stdvec {| upstream_token := token; issued_at := issued |} = Some pt
    /\ logged (Core (SealCall pt (associated_data b))) (Ok env) ∈ l /\ t = HANDLE_PREFIX +:+ env.

(** One that a rotating relay hands out: made of bytes this run drew at random. *)
Definition drawn_in (l : call_log rans) (t : string) : Prop :=
  exists random, logged (Core (Random HANDLE_BYTES)) random ∈ l /\ t = handle_of random.

Lemma hands_out_only_mono (P Q : string -> Prop) b :
  (forall t, P t -> Q t) -> hands_out_only P b -> hands_out_only Q b.
Proof. unfold hands_out_only. destruct (members_from_slice b); eauto. Qed.

Lemma sealed_in_weaken b l l' t : l ⊆ l' -> sealed_in b l t -> sealed_in b l' t.
Proof. intros Hl (token & issued & pt & env & Hp & Hin & Ht). exists token, issued, pt, env. auto. Qed.

Lemma drawn_in_weaken l l' t : l ⊆ l' -> drawn_in l t -> drawn_in l' t.
Proof. intros Hl (random & Hin & Ht). exists random. auto. Qed.

(** A call of the core, made by a lifted program as it is. *)
Definition lifted_call (l : call_log rans) (x : { e : eff & ans e }) : Prop :=
  match projT1 x with
  | RefreshCall _ | Timeout _ _ => True
  | _ => logged (Core (projT1 x)) (projT2 x) ∈ l
  end.

Lemma lifted_call_weaken l l' x : l ⊆ l' -> lifted_call l x -> lifted_call l' x.
Proof. destruct x as [e c]. unfold lifted_call. cbn [projT1 projT2]. destruct e; auto. Qed.

Lemma runs_lift_eff refresher e l c : runs (lift_eff refresher e) l c -> lifted_call l (logged e c).
Proof.
  unfold lifted_call. destruct e; try done; cbn [lift_eff projT1 projT2 logged].
  all: intros (a & l' & -> & _ & ->); apply list_elem_of_here.
Qed.

Lemma runs_lift {A} refresher (p : io A) l a :
  runs (lift_with refresher p) l a -> exists l', runs p l' a /\ forall x, x ∈ l' -> lifted_call l x.
Proof.
  revert l. induction p as [b|e k IH]; intros l; simpl.
  - intros [_ ->]. exists []. split; [done|]. by intros x ?%not_elem_of_nil.
  - intros (c & l1 & l2 & -> & He & (l' & Hr & Hl)%IH)%runs_bind. exists (logged e c :: l'). split; [by exists c, l'|].
    intros x [->|Hin]%elem_of_cons; (eapply lifted_call_weaken; [|by eauto using runs_lift_eff]); set_solver.
Qed.

(** The handles of a lifted program are those of the run. *)
Definition sealed_by (b : HandleBinding) (l : call_log ans) (t : string) : Prop :=
  exists token issued pt env, to_stdvec {| upstream_token := token; issued_at := issued |} = Some pt
    /\ logged (SealCall pt (associated_data b)) (Ok env) ∈ l /\ t = HANDLE_PREFIX +:+ env.
Definition drawn_by (l : call_log ans) (t : string) : Prop :=
  exists random, logged (Random HANDLE_BYTES) random ∈ l /\ t = handle_of random.

Lemma sealed_lifted b l l' t : (forall x, x ∈ l' -> lifted_call l x) -> sealed_by b l' t -> sealed_in b l t.
Proof. intros Hl (token & issued & pt & env & Hp & Hin & Ht). exists token, issued, pt, env. specialize (Hl _ Hin). auto. Qed.

Lemma drawn_lifted l l' t : (forall x, x ∈ l' -> lifted_call l x) -> drawn_by l' t -> drawn_in l t.
Proof. intros Hl (random & Hin & Ht). exists random. specialize (Hl _ Hin). auto. Qed.

Lemma runs_seal_handle b token issued l h :
  runs (seal_handle b token issued) l (Ok h) -> sealed_by b l h.
Proof.
  unfold seal_handle. destruct (to_stdvec _) as [pt|] eqn:Ep; cbn [ok_or]; [|by intros [_ ?]].
  intros (o & l1 & -> & -> & Hr). destruct o as [env|]; simpl in Hr; [|done]. injection Hr as ->.
  exists token, issued, pt, env. split_and!; [done|apply list_elem_of_here|done].
Qed.

Lemma runs_seal_members b issued ms l ms' flag :
  runs (seal_members b issued ms) l (Ok (ms', flag)) ->
  (forall m t, m ∈ ms' -> token_member m = Some t -> sealed_by b l t) /\ (flag = false -> ms' = ms).
Proof.
  assert (forall l l' t, l ⊆ l' -> sealed_by b l t -> sealed_by b l' t) as Hmono.
  { intros l0 l1 t Hl (token & issued0 & pt & env & Hp & Hin & Ht). exists token, issued0, pt, env. auto. }
  revert l ms' flag. induction ms as [|[n v] ms IH]; intros l ms' flag; cbn [seal_members].
  - intros [_ [= -> ->]]. split; [by intros m t ?%not_elem_of_nil|done].
  - destruct (token_member (n, v)) as [token|] eqn:Et.
    + intros ([h|[]] & l1 & l2 & -> & Hh & Hr)%runs_bind; [|by destruct Hr..].
      apply runs_seal_handle in Hh. destruct (string_to_raw h) as [raw|] eqn:Er; [|by destruct Hr].
      cbn [ok_or] in Hr. apply runs_bind_ok in Hr as ([[ms1 f1]|e] & l3 & l4 & -> & Hms & Hr); [|by destruct Hr].
      destruct Hr as [_ [= -> ->]]. apply IH in Hms as [Hall _]. split; [|done].
      intros m t [->|Hin]%elem_of_cons; [|intros Ht; eapply Hmono, Hall; [set_solver|done..]].
      unfold token_member in Et |- *. cbn [fst snd] in *. destruct (bool_decide _); [|done].
      rewrite (raw_string_roundtrip _ _ Er). simpl. destruct (is_empty h); [done|]. intros [= <-].
      eapply Hmono, Hh. set_solver.
    + intros ([[ms1 f1]|e] & l3 & l4 & -> & Hms & Hr)%runs_bind_ok; [|by destruct Hr].
      destruct Hr as [-> [= -> ->]]. rewrite app_nil_r. apply IH in Hms as [Hall Hf]. cbn [fst snd]. split.
      * intros m t [->|Hin]%elem_of_cons; [congruence|by apply Hall].
      * intros Hfl. by rewrite Hf.
Qed.

Lemma runs_seal_response b s payload issued l o :
  runs (seal_token_response b s payload issued) l (Ok o) -> success_status s = true ->
  hands_out_only (sealed_by b l) (default payload o).
Proof.
  intros Hr Hs. unfold seal_token_response in Hr. rewrite Hs in Hr. cbn [negb] in Hr.
  destruct (members_from_slice payload) as [ms|] eqn:Em.
  - apply runs_bind_ok in Hr as ([[ms' flag]|e] & l1 & l2 & -> & Hms & Hr); [|by destruct Hr].
    apply runs_seal_members in Hms as [Hall Hf]. cbn [fst snd] in Hr. destruct flag; cbn [negb] in Hr.
    + destruct (members_to_vec ms') as [v|] eqn:Ev; cbn [ok_or] in Hr; destruct Hr as [-> Hr]; [|done].
      injection Hr as ->. rewrite app_nil_r. apply members_roundtrip in Ev. by eapply hands_out_only_members.
    + destruct Hr as [-> [= ->]]. rewrite app_nil_r. eapply hands_out_only_members; [exact Em|].
      by rewrite <-(Hf eq_refl).
  - destruct (names_refresh_token payload) eqn:En; destruct Hr as [_ Hr]; [done|]. injection Hr as ->.
    unfold hands_out_only. simpl. rewrite Em. by apply unnamed_not_spelled.
Qed.

Lemma find_map_none {A C} (f : A -> option C) l : find_map f l = None -> forall a, a ∈ l -> f a = None.
Proof.
  induction l as [|a l IH]; simpl; [by intros _ a ?%not_elem_of_nil|].
  destruct (f a) eqn:E; [done|]. intros Hl a' [->|Hin]%elem_of_cons; auto.
Qed.

Lemma runs_issue rot response l o :
  runs (issue_in_response rot response) l (Ok o) -> is_success response = true ->
  hands_out_only (drawn_by l) (default (body response) o).
Proof.
  unfold issue_in_response, is_success. intros Hr Hs.
  destruct (upstream_refresh_token (status response) (body response)) as [token|] eqn:Et.
  - apply runs_bind_ok in Hr as ([h|] & l1 & l2 & -> & Hi & Hr); [|by destruct Hr].
    apply runs_bind in Hi as (h' & l3 & l4 & -> & Hn & Hi). destruct Hn as (b & l5 & -> & -> & ->).
    apply runs_bind in Hi as (c & l7 & l8 & -> & _ & [_ Hi]).
    destruct c as [[]|[]]; try done. injection Hi as ->.
    destruct (with_refresh_token _ _ (handle_of b)) as [v|] eqn:Ew; destruct Hr as [_ Hr]; [|done].
    injection Hr as ->. pose proof Ew as (_ & ms & value & _ & _ & Hms)%with_refresh_token_Some.
    eapply hands_out_only_members; [exact Hms|]. intros m t Hin Ht. exists b.
    split; [apply list_elem_of_here|]. by eapply with_refresh_token_only.
  - rewrite Hs in Hr. cbn [andb] in Hr. unfold upstream_refresh_token in Et. rewrite Hs in Et. cbn [negb] in Et.
    destruct (members_from_slice (body response)) as [ms|] eqn:Em.
    + destruct (_ && _); destruct Hr as [_ Hr]; [done|]. injection Hr as ->.
      eapply hands_out_only_members; [exact Em|]. simpl in Et. intros m t Hin Ht.
      pose proof (find_map_none _ _ Et _ Hin). congruence.
    + destruct (from_slice (body response) ≫= as_object) as [m|] eqn:Eo.
      { apply object_members in Eo as [ms Hms]. congruence. }
      rewrite bool_decide_eq_true_2 in Hr by done. unfold hands_out_only.
      destruct (names_refresh_token (body response)) eqn:En; destruct Hr as [_ Hr]; [done|]. injection Hr as ->.
      simpl. rewrite Em. by apply unnamed_not_spelled.
Qed.

Lemma succeeds_stored stored : succeeds (stored_response stored) -> success_status (status stored) = true.
Proof.
  unfold succeeds, stored_response, status_or_bad_gateway. simpl. by destruct (status_valid _).
Qed.

Lemma runs_finish r envelope sealed_body l resp (P : string -> Prop) :
  mode (refresh_tokens r) <> Passthrough ->
  (mode (refresh_tokens r) = Sealed -> success_status (status (ce_upstream_response envelope)) = true ->
     hands_out_only P (default (body (ce_upstream_response envelope)) sealed_body)) ->
  runs (finish_redemption cfg r envelope sealed_body) l resp -> succeeds resp ->
  match mode (refresh_tokens r) with
  | Sealed => hands_out_only P (rs_body resp)
  | _ => hands_out_only (drawn_in l) (rs_body resp)
  end.
Proof.
  intros Hm Hsb Hr Hs. unfold finish_redemption in Hr. cbv zeta in Hr.
  destruct (mode (refresh_tokens r)) eqn:Em; [done|..].
  - destruct Hr as [_ ->]. apply succeeds_stored in Hs as Hst.
    destruct sealed_body as [b|]; by apply Hsb.
  - destruct (rotator cfg r _) as [rot|]; [|by destruct Hr as [_ ->]].
    apply runs_bind in Hr as (o & l1 & l2 & -> & Hi & [-> ->]). rewrite app_nil_r.
    apply runs_lift in Hi as (l' & Hi & Hl).
    destruct o as [[b|]|[]]; try done; apply succeeds_stored in Hs; apply runs_issue in Hi; try done.
    all: eapply hands_out_only_mono, Hi; intros t; by apply drawn_lifted.
Qed.

Lemma runs_seal_redemption r envelope l sb :
  mode (refresh_tokens r) = Sealed ->
  runs (seal_redemption r envelope (Ok tt)) l (Ok sb) ->
  success_status (status (ce_upstream_response envelope)) = true ->
  hands_out_only (sealed_in (code_binding r envelope) l) (default (body (ce_upstream_response envelope)) sb).
Proof.
  intros Hm Hr Hs. unfold seal_redemption in Hr. rewrite bool_decide_eq_true_2 in Hr by done. cbn [andb is_ok] in Hr.
  apply runs_bind in Hr as (now & l1 & l2 & -> & _ & Hr). apply runs_bind in Hr as (o & l3 & l4 & -> & Hr & [_ Heq]).
  destruct o as [o|e]; simpl in Heq; [|done]. injection Heq as ->. apply runs_lift in Hr as (l' & Hr & Hl).
  apply runs_seal_response in Hr; [|done]. eapply hands_out_only_mono, Hr. intros t Ht.
  eapply sealed_in_weaken, sealed_lifted; [|exact Hl|exact Ht]. set_solver.
Qed.

(** ** The sealed refresh grant *)

Lemma cached_json_error scope u ttl purpose l e : runs (cached_json cfg scope u ttl purpose) l (Err e) -> e = 502%Z.
Proof.
  unfold cached_json, cached_json_with_client. cbv zeta.
  intros (o & l1 & l2 & -> & _ & Hr)%runs_bind. destruct o; [by destruct Hr|].
  apply runs_bind in Hr as (v & l3 & l4 & -> & _ & Hr). destruct v.
  - by apply runs_bind in Hr as ([] & l5 & l6 & -> & _ & [_ Hr]).
  - by destruct Hr as [_ [= ->]].
Qed.

Lemma endpoints_error r u l e : runs (resolve_endpoints cfg r u) l (Err e) -> e = 502%Z.
Proof.
  assert (forall doc, resolve_endpoints_from_doc u doc = Err e -> e = 502%Z) as Hd.
  { intros doc. unfold resolve_endpoints_from_doc.
    destruct (or_field (authorization_endpoint u) _ _); simpl; [|congruence].
    destruct (or_field (token_endpoint u) _ _); simpl; congruence. }
  unfold resolve_endpoints. destruct (endpoints_need_discovery u); cbn [negb].
  - intros ([doc|e'] & l1 & l2 & -> & Hc & Hr)%runs_bind_ok.
    + destruct Hr as [_ Hr]. by eapply Hd.
    + destruct Hr as [[= ->] _]. by eapply cached_json_error.
  - intros [_ Hr]. by eapply Hd.
Qed.

Lemma runs_sealed_refresh r u form l resp :
  mode (refresh_tokens r) = Sealed -> runs (refresh_grant cfg r u form) l resp -> succeeds resp ->
  hands_out_only (sealed_in (HandleBinding_new r u) l) (rs_body resp).
Proof.
  intros Hm Hr Hs. unfold refresh_grant in Hr. destruct (tk_refresh_token form) as [h|]; [|by destruct Hr as [_ ->]].
  rewrite bool_decide_eq_false_2 in Hr by by rewrite Hm. cbv zeta in Hr.
  rewrite bool_decide_eq_true_2 in Hr by done. cbn [negb andb] in Hr.
  apply runs_bind in Hr as (o & l1 & l2 & -> & Ho & Hr). destruct o as [token|bad].
  2: { destruct Hr as [_ ->]. unfold unwrap_handle in Ho. rewrite bool_decide_eq_true_2 in Ho by done.
       apply runs_bind in Ho as (x & l3 & l4 & -> & _ & [_ Ho]). destruct x as [|[]]; simplify_eq; done. }
  unfold scope_rejection in Hr. destruct (match tk_scope form with Some _ => _ | None => None end) as [bad|] eqn:Er.
  { destruct Hr as [_ ->]. destruct (tk_scope form) as [sc|]; [|done]. destruct (scope_allowed r sc); by simplify_eq. }
  apply runs_bind in Hr as (resp' & l3 & l4 & -> & Hu & Hr). destruct resp' as [resp'|f].
  - unfold seal_answer in Hr. destruct (read_upstream_response resp') as [stored|]; [|by destruct Hr as [_ ->]].
    apply runs_bind in Hr as (now & l5 & l6 & -> & _ & Hr). apply runs_bind in Hr as (x & l7 & l8 & -> & Hx & [_ ->]).
    apply runs_lift in Hx as (l' & Hx & Hl).
    destruct x as [[b|]|[]]; try done; apply succeeds_stored in Hs; apply runs_seal_response in Hx; try done.
    all: eapply hands_out_only_mono, Hx; intros t Ht; eapply sealed_in_weaken, sealed_lifted; [|exact Hl|exact Ht];
      set_solver.
  - destruct Hr as [_ ->]. unfold send_upstream_refresh in Hu. apply runs_bind in Hu as (e & l5 & l6 & -> & He & Hu).
    destruct e as [e|s].
    + apply runs_bind in Hu as (y & l7 & l8 & -> & _ & [_ Hu]). destruct y; simpl in Hu; [done|]. by injection Hu as ->.
    + destruct Hu as [_ [= ->]]. apply endpoints_error in He as ->. by vm_compute in Hs.
Qed.
End Handles.

(** ** Properties *)


(** A flow comes back as it left. When [authorize] redirects to the upstream, the location
    carries a sealed state [env] and the S256 challenge of a verifier; and whenever a callback is
    given that state, at whatever upstream and with whatever other parameters, it acts only as the
    callback of the same upstream: the one form it may send carries that very verifier, the code it
    was given and the callback URL, and it redirects, if at all, to the redirect URI that was
    authorized, ending with the state the relying party sent. *)
Theorem flow_round_trip {U : UrlLib} {L : PathLayout} {J : JsonLib} {HL : HeaderLib} {F : FormLib}
    {SH : Sha256} {B : Base64} {BS : Base64Std} {JW : JwtLib} {PF : Postcard FlowEnvelope}
    {PFL : PostcardLaws FlowEnvelope} {PC : Postcard CodeEnvelope} cfg r u q l resp :
  runs (authorize cfg r u q) l resp -> redirects resp ->
  exists e scope env verifier redirect_value,
    resp = found (as_str (append_pairs e (upstream_params cfg u q env verifier scope)))
    /\ aq_redirect_uri q = Some redirect_value
    /\ forall u' q' l' resp', cb_state q' = env -> honest l l' -> runs (callback cfg u' q') l' resp' ->
         (forall call answer form, logged call answer ∈ l' -> sends_form call form ->
            up_key u' = up_key u /\ ("code_verifier", verifier) ∈ form
            /\ ("redirect_uri", as_str (endpoint_url cfg Callback (up_key u))) ∈ form
            /\ exists code, cb_code q' = Some code /\ ("code", code) ∈ form)
         /\ (redirects resp' -> up_key u' = up_key u /\ exists location,
               extends_query redirect_value location
               /\ resp' = found (append_query_pairs location
                    match aq_state q with Some s => [("state", s)] | None => [] end)).
Proof.
  intros Hr Hred. apply runs_authorize in Hr as (rv & scope & e & verifier & issued & nonce & pt & env & Hc & Hpt & Hin & ->);
    [|done]. eexists e, scope, env, verifier, rv. split; [done|].
  split. { unfold authorize_checks in Hc. destruct (aq_redirect_uri q) as [rv'|]; simpl in Hc; [|done].
           repeat case_match; simplify_eq; done. }
  intros u' q' l' resp' Hst Hh Hcb.
  apply runs_callback in Hcb as [[Hno Hnf]|(l1 & l2 & b & now & flow & key & r' & -> & -> & Hb & Hf & Hu & Hv & Hr)].
  { split; [|done]. intros c a form Hin' Hs. by destruct (Hnf _ _ _ Hin' Hs). }
  rewrite Hst in *. destruct (Hh _ _ _ (into_bytes (key_str (up_key u'))) b Hin) as [Had ->]; [set_solver|].
  apply (inj into_bytes) in Had. assert (up_key u' = up_key u) as Hkey.
  { destruct (up_key u'), (up_key u). simpl in Had. by subst. }
  rewrite (from_to_postcard _ _ Hpt) in Hb. injection Hb as <-. split.
  - intros c a form Hin' Hs. apply elem_of_app in Hin' as [Hin'|Hin'].
    { destruct Hs as (cl & rq & -> & _). rewrite !elem_of_cons, elem_of_nil in Hin'.
      destruct Hin' as [Heq|[Heq|[Heq|[]]]]; apply (f_equal (projT1 (P := rans))) in Heq; discriminate Heq. }
    destruct (every_runs _ _ _ _ _ _ (every_finish cfg r' u' q' _) Hr Hin' form Hs) as (code & Hcode & Hform).
    split; [done|]. rewrite <- Hkey. split_and!; [apply Hform; unfold exchange_form; set_solver..|].
    exists code. split; [done|]. apply Hform. unfold exchange_form. set_solver.
  - intros Hred'. split; [done|]. apply runs_finish_redirects in Hr as (_ & pairs & ->); [|done].
    eexists. split; [|done]. eapply extends_query_trans; [apply foldl_append_extends|apply append_extends].
Qed.

(** C9: what a redeemed code proves. A successful redemption presents a code that this relay's key
    opens to an envelope for this relay, at most five minutes old; the request repeats the
    redirect URI of the authorization; the code verifier is the preimage of the challenge that was
    authorized, and when there was none, none is sent and the client is not public; and with a
    store, the code's replay marker has been written by this very request. *)
Theorem code_binding_checked {U : UrlLib} {L : PathLayout} {J : JsonLib} {HL : HeaderLib} {F : FormLib}
    {SH : Sha256} {SH2 : Sha2} {B : Base64} {BS : Base64Std} {JW : JwtLib} {PF : Postcard FlowEnvelope}
    {PC : Postcard CodeEnvelope} {PH : Postcard OpenedHandle} {PR : Postcard HandleRecord}
    {PS : Postcard StoredResponse} cfg r u form l resp :
  runs (exchange_sealed_code cfg r u form) l resp -> succeeds resp ->
  exists code b now envelope,
    tk_code form = Some code
    /\ logged (Core (UnsealCall code (into_bytes (key_str (relay_key r))))) (Ok b) ∈ l
    /\ from_postcard b = Some envelope /\ ce_relay_key envelope = key_str (relay_key r)
    /\ logged (Core Now) now ∈ l /\ fresh_at (now / 1000) (ce_issued_at envelope) CODE_TTL = true
    /\ tk_redirect_uri form = Some (ce_redirect_uri envelope)
    /\ match ce_client_code_challenge envelope with
       | Some challenge => exists verifier, tk_code_verifier form = Some verifier
           /\ valid_pkce_verifier verifier = true /\ challenge = pkce_challenge verifier
       | None => tk_code_verifier form = None /\ client_auth r <> Public
       end
    /\ (has_store cfg = true -> marked envelope l).
Proof.
  intros Hr Hs. apply runs_exchange in Hr as (code & b & now & envelope & l2 & Hc & -> & Hb & Hk & Hf & Hm & Hr); [|done].
  apply code_matches in Hm as [Hu Hp].
  apply runs_redeem in Hr as (l3 & l4 & l5 & l6 & sb & v & -> & _ & _ & _ & Hmark & _); [|done].
  exists code, b, now, envelope. split_and!; [done|set_solver|done|done|set_solver|done|done|done|].
  intros Hst. destruct (Hmark Hst) as [m Hin]. exists m. set_solver.
Qed.

(** C11: a code is redeemed once in its lifetime. In a deployment with a store, when two token
    requests redeem the same code successfully, each has written the code's replay marker, under
    the same key; and in every history of a store that meets the contract, with nobody deleting
    or swapping that key, the two writes are at least [CODE_TTL] apart. *)
Theorem code_redeemed_once {U : UrlLib} {L : PathLayout} {J : JsonLib} {HL : HeaderLib} {F : FormLib}
    {SH : Sha256} {SH2 : Sha2} {B : Base64} {BS : Base64Std} {JW : JwtLib} {PF : Postcard FlowEnvelope}
    {PC : Postcard CodeEnvelope} {PH : Postcard OpenedHandle} {PR : Postcard HandleRecord}
    {PS : Postcard StoredResponse} cfg r r' u u' form form' l l' resp resp' env :
  has_store cfg = true ->
  runs (exchange_sealed_code cfg r u form) l resp -> succeeds resp ->
  runs (exchange_sealed_code cfg r' u' form') l' resp' -> succeeds resp' ->
  tk_code form = Some env -> tk_code form' = Some env ->
  (exists l0 pt ad, logged (Core (SealCall pt ad)) (Ok env) ∈ l0 /\ honest l0 l /\ honest l0 l') ->
  exists k m m',
    logged (Core (StoreCall (PutIfAbsent k m (from_secs CODE_TTL)))) (Ok true) ∈ l
    /\ logged (Core (StoreCall (PutIfAbsent k m' (from_secs CODE_TTL)))) (Ok true) ∈ l'
    /\ forall slack t st first history second,
         spec_run slack t st
           ({| at_time := first; Store.call := PutIfAbsent k m (from_secs CODE_TTL); answer := Ok true |} :: history) ->
         (forall e, e ∈ history -> replaces k (Store.call e) = false) ->
         {| at_time := second; Store.call := PutIfAbsent k m' (from_secs CODE_TTL); answer := Ok true |} ∈ history ->
         (first + from_secs CODE_TTL <= second)%Z.
Proof.
  intros Hst Hr Hs Hr' Hs' Hc Hc' (l0 & pt & ad & Hin & Hh & Hh').
  apply runs_exchange in Hr as (code & b & now & en & l2 & Hc1 & -> & Hb & _ & _ & _ & Hr); [|done].
  apply runs_exchange in Hr' as (code' & b' & now' & en' & l2' & Hc1' & -> & Hb' & _ & _ & _ & Hr'); [|done].
  rewrite Hc in Hc1. rewrite Hc' in Hc1'. injection Hc1 as <-. injection Hc1' as <-.
  destruct (Hh _ _ _ (into_bytes (key_str (relay_key r))) b Hin) as [_ ->]; [set_solver|].
  destruct (Hh' _ _ _ (into_bytes (key_str (relay_key r'))) b' Hin) as [_ ->]; [set_solver|].
  rewrite Hb in Hb'. injection Hb' as <-.
  apply runs_redeem in Hr as (l3 & l4 & l5 & l6 & sb & v & -> & _ & _ & _ & Hm & _); [|done].
  apply runs_redeem in Hr' as (l3' & l4' & l5' & l6' & sb' & v' & -> & _ & _ & _ & Hm' & _); [|done].
  destruct (Hm Hst) as [m Hmin]. destruct (Hm' Hst) as [m' Hmin'].
  exists (replay_key en), m, m'. split; [set_solver|]. split; [set_solver|].
  intros slack t st first history second Hrun Hrep Hsec.
  inversion Hrun as [|??? st' ? Ht Hstep Hrun']; subst. simpl in *.
  eapply puts_apart; [exact Hrun'| |exact Hrep|exact Hsec].
  apply answered_ok, spec_step_inv in Hstep as (_ & e & [Hf _] & ->). exists e. by rewrite lookup_insert_eq.
Qed.

(** C14: no upstream refresh token leaves a relay that seals or rotates. In the body of a
    successful code redemption, every refresh token, whatever the upstream put there and however
    often, is a handle made in this very run: in the sealed mode, the handle prefix and the
    envelope that the sealer answered when it was given a token and a time to seal for this relay
    and the fingerprint in the code; in the rotating mode, the encoding of bytes that were drawn at
    random. In the sealed mode, so it is for a successful refresh, under the relay's present
    binding. And a body that is no JSON object does not spell a refresh token, as a form-encoded
    one would. *)
Theorem responses_carry_handles {U : UrlLib} {L : PathLayout} {J : JsonLib} {JL : JsonLaws J}
    {JO : JsonObjects J} {HL : HeaderLib}
    {F : FormLib} {SH : Sha256} {SH2 : Sha2} {B : Base64} {BS : Base64Std} {JW : JwtLib}
    {PF : Postcard FlowEnvelope} {PC : Postcard CodeEnvelope} {PH : Postcard OpenedHandle}
    {PR : Postcard HandleRecord} {PS : Postcard StoredResponse} cfg r u form l resp :
  succeeds resp ->
  (runs (exchange_sealed_code cfg r u form) l resp ->
     match mode (refresh_tokens r) with
     | Sealed => exists code b envelope, tk_code form = Some code
         /\ logged (Core (UnsealCall code (into_bytes (key_str (relay_key r))))) (Ok b) ∈ l
         /\ from_postcard b = Some envelope
         /\ hands_out_only (sealed_in {| hb_relay := relay_key r;
                                         hb_fingerprint := ce_handle_fingerprint envelope |} l) (rs_body resp)
     | Rotating => hands_out_only (drawn_in l) (rs_body resp)
     | Passthrough => True
     end)
  /\ (mode (refresh_tokens r) = Sealed -> runs (refresh_grant cfg r u form) l resp ->
       hands_out_only (sealed_in (HandleBinding_new r u) l) (rs_body resp)).
Proof.
  intros Hs. split; [|by intros; eapply runs_sealed_refresh]. intros Hr.
  destruct (decide (mode (refresh_tokens r) = Passthrough)) as [->|Hm]; [done|].
  apply runs_exchange in Hr as (code & b & now & en & l2 & Hc & -> & Hb & _ & _ & _ & Hr); [|done].
  apply runs_redeem in Hr as (l3 & l4 & l5 & l6 & sb & v & -> & _ & -> & Hsb & _ & Hf); [|done].
  apply runs_finish with (P := sealed_in (code_binding r en) l4) in Hf;
    [|done|by intros; eapply runs_seal_redemption|done].
  destruct (mode (refresh_tokens r)) eqn:Em; [done| |].
  - exists code, b, en. split_and!; [done|set_solver|done|].
    eapply hands_out_only_mono, Hf. intros t. apply sealed_in_weaken. set_solver.
  - eapply hands_out_only_mono, Hf. intros t. apply drawn_in_weaken. set_solver.
Qed.
