(* ===== verification/DiscoverySafety.v ===== *)
(** * DiscoverySafety: what a relay's discovery document says

    [discovery] serves the document of the upstream with the relay's own values in the place of
    what would misdescribe it. [described] says member by member what is served, without the order
    in which [describe_relay] works; [discovery_describes_relay] shows that this is what every
    answer holds, and that the endpoints it names are routed back to the same relay. *)

From S2P Require Import Prelude Text Json Url Model Layout Store Seal Prog Effects RefreshHandle.
From S2P Require Import Rotation Requests Jwt Web Flows Grants Router CodeSafety.
#[local] Open Scope string_scope.
#[local] Open Scope prog_scope.

(** What the relay relies on of the url crate: setting a path of plain segments below the path of
    an [http] or [https] URL neither escapes nor normalizes anything, and the query and the
    fragment are apart from the path. *)
Class UrlPathLaws (U : UrlLib) : Prop := {
  path_below u segments :
    starts_with "/" (path u) = true -> Forall (fun s => valid_key_part s = true) segments ->
    path (set_path u (trim_end "/" (path u) +:+ "/" +:+ join "/" segments))
    = trim_end "/" (path u) +:+ "/" +:+ join "/" segments;
  path_set_query u q : path (set_query u q) = path u;
  path_set_fragment u f : path (set_fragment u f) = path u;
}.

(** ** The members of the document *)

Section Document.
Context {U : UrlLib} {L : PathLayout} {JW : JwtLib}.
Context (cfg : RelayConfig) (r : Relay) (u : Upstream).

(** A member of the upstream's document that a client of the relay has no use for. *)
Definition hidden (name : string) : bool :=
  bool_decide (name ∈ UPSTREAM_ONLY_METADATA)
  || (bool_decide (is_Some (strip_suffix "_endpoint" name)) && negb (bool_decide (name ∈ RELAY_CLIENT_ENDPOINTS)))
  || (bool_decide (mode (refresh_tokens r) <> Passthrough)
      && bool_decide (name ∈ UPSTREAM_TOKEN_MANAGEMENT_METADATA)).

(** The issuer is the upstream's: the ID tokens are. *)
Definition served_issuer (doc : list (string * Value)) : string :=
  match get_str (Object doc) "issuer" with
  | Some issuer => issuer
  | None => if bool_decide (path (issuer_url u) = "/") then trim_end "/" (as_str (issuer_url u))
            else as_str (issuer_url u)
  end.

(** The relay's own value of a member; [Some None]: the member is left out. *)
Definition own_member (uri : option url) (doc : list (string * Value)) (name : string) : option (option Value) :=
  if bool_decide (name = "issuer") then Some (Some (Str (served_issuer doc)))
  else if bool_decide (name = "authorization_endpoint")
  then Some (Some (Str (as_str (endpoint_url cfg Authorize (relay_key r)))))
  else if bool_decide (name = "token_endpoint")
  then Some (Some (Str (as_str (endpoint_url cfg Token (relay_key r)))))
  else if bool_decide (name = "jwks_uri") then Some ((fun uri => Str (as_str uri)) <$> uri)
  else if bool_decide (name = "response_types_supported") then Some (Some (strs ["code"]))
  else if bool_decide (name = "response_modes_supported") then Some (Some (strs ["query"]))
  else if bool_decide (name = "grant_types_supported")
  then Some (Some (strs (if advertises_refresh doc then ["authorization_code"; "refresh_token"]
                         else ["authorization_code"])))
  else if bool_decide (name = "code_challenge_methods_supported") then Some (Some (strs ["S256"]))
  else if bool_decide (name = "request_parameter_supported") then Some (Some (Bool false))
  else if bool_decide (name = "request_uri_parameter_supported") then Some (Some (Bool false))
  else if bool_decide (name = "token_endpoint_auth_methods_supported") then Some (Some (auth_methods (client_auth r)))
  else if bool_decide (name = "token_endpoint_auth_signing_alg_values_supported")
  then Some (if is_private_key_jwt (client_auth r) then Some (strs CLIENT_ASSERTION_ALGORITHMS) else None)
  else if bool_decide (name = "scopes_supported")
  then match allowed_scopes r with Some allowed => Some (Some (strs allowed)) | None => None end
  else None.

(** The document the relay serves, as a function of the member's name. *)
Definition described (uri : option url) (doc : list (string * Value)) (name : string) : option Value :=
  match own_member uri doc name with
  | Some own => own
  | None => if hidden name then None else member name doc
  end.

Lemma member_removes names k : forall doc,
  member k (foldl (fun doc name => remove name doc) doc names) = if bool_decide (k ∈ names) then None else member k doc.
Proof.
  induction names as [|name names IH]; intros doc; simpl.
  - done.
  - rewrite IH, member_remove. repeat case_bool_decide; set_solver.
Qed.

Lemma member_cond_removes (b : bool) names k doc :
  member k (if b then foldl (fun doc name => remove name doc) doc names else doc)
  = if b && bool_decide (k ∈ names) then None else member k doc.
Proof. destruct b; [apply member_removes|done]. Qed.

(** The document with the relay's endpoints, before it is described. *)
Definition with_endpoints (uri : option url) (doc : list (string * Value)) : list (string * Value) :=
  let doc := insert "issuer" (Str (served_issuer doc)) doc in
  let doc := insert "authorization_endpoint" (Str (as_str (endpoint_url cfg Authorize (relay_key r)))) doc in
  let doc := insert "token_endpoint" (Str (as_str (endpoint_url cfg Token (relay_key r)))) doc in
  match uri with
  | Some uri => insert "jwks_uri" (Str (as_str uri)) doc
  | None => remove "jwks_uri" doc
  end.

(** The document without what is hidden. *)
Definition kept (doc : list (string * Value)) : list (string * Value) :=
  let doc := retain kept_metadata doc in
  if bool_decide (mode (refresh_tokens r) <> Passthrough)
  then foldl (fun doc name => remove name doc) doc UPSTREAM_TOKEN_MANAGEMENT_METADATA else doc.

Lemma member_kept name doc : member name (kept doc) = if hidden name then None else member name doc.
Proof.
  unfold kept, hidden, kept_metadata. rewrite member_cond_removes, member_retain.
  destruct (bool_decide (name ∈ UPSTREAM_ONLY_METADATA)); simpl; [by case_match|].
  replace (bool_decide (is_Some (strip_suffix "_endpoint" name)))
    with (negb (bool_decide (strip_suffix "_endpoint" name = None))).
  2: { rewrite <-bool_decide_not. apply bool_decide_ext, not_eq_None_Some. }
  destruct (bool_decide (strip_suffix "_endpoint" name = None)), (bool_decide (name ∈ RELAY_CLIENT_ENDPOINTS));
    simpl; try done; by case_match.
Qed.

Lemma described_members (b : list (string * Value)) (grants : Value) name :
  member name
    (let doc := insert "response_types_supported" (strs ["code"]) b in
     let doc := insert "response_modes_supported" (strs ["query"]) doc in
     let doc := insert "grant_types_supported" grants doc in
     let doc := insert "code_challenge_methods_supported" (strs ["S256"]) doc in
     let doc := insert "request_parameter_supported" (Bool false) doc in
     let doc := insert "request_uri_parameter_supported" (Bool false) doc in
     let doc := match allowed_scopes r with
                | Some allowed => insert "scopes_supported" (strs allowed) doc
                | None => doc
                end in
     let doc := insert "token_endpoint_auth_methods_supported" (auth_methods (client_auth r)) doc in
     if is_private_key_jwt (client_auth r)
     then insert "token_endpoint_auth_signing_alg_values_supported" (strs CLIENT_ASSERTION_ALGORITHMS) doc
     else remove "token_endpoint_auth_signing_alg_values_supported" doc)
  = if bool_decide (name = "token_endpoint_auth_signing_alg_values_supported")
    then if is_private_key_jwt (client_auth r) then Some (strs CLIENT_ASSERTION_ALGORITHMS) else None
    else if bool_decide (name = "token_endpoint_auth_methods_supported") then Some (auth_methods (client_auth r))
    else if bool_decide (name = "scopes_supported") && bool_decide (is_Some (allowed_scopes r))
    then strs <$> allowed_scopes r
    else if bool_decide (name = "request_uri_parameter_supported") then Some (Bool false)
    else if bool_decide (name = "request_parameter_supported") then Some (Bool false)
    else if bool_decide (name = "code_challenge_methods_supported") then Some (strs ["S256"])
    else if bool_decide (name = "grant_types_supported") then Some grants
    else if bool_decide (name = "response_modes_supported") then Some (strs ["query"])
    else if bool_decide (name = "response_types_supported") then Some (strs ["code"])
    else member name b.
Proof.
  cbv zeta. destruct (is_private_key_jwt (client_auth r)), (allowed_scopes r) as [allowed|];
    rewrite ?member_insert, ?member_remove, ?member_insert; repeat (case_bool_decide; simplify_eq/=); try done.
Qed.

(** The grants that are looked at are the upstream's. *)
Lemma advertises_same doc doc' :
  member "grant_types_supported" doc = member "grant_types_supported" doc' ->
  advertises_refresh doc = advertises_refresh doc'.
Proof. intros Heq. unfold advertises_refresh. by rewrite Heq. Qed.

Lemma member_with_endpoints uri doc name :
  member name (with_endpoints uri doc)
  = if bool_decide (name = "jwks_uri") then (fun uri => Str (as_str uri)) <$> uri
    else if bool_decide (name = "token_endpoint")
    then Some (Str (as_str (endpoint_url cfg Token (relay_key r))))
    else if bool_decide (name = "authorization_endpoint")
    then Some (Str (as_str (endpoint_url cfg Authorize (relay_key r))))
    else if bool_decide (name = "issuer") then Some (Str (served_issuer doc))
    else member name doc.
Proof.
  unfold with_endpoints. cbv zeta. destruct uri as [uri|]; rewrite ?member_remove, !member_insert;
    repeat (case_bool_decide; simplify_eq/=); done.
Qed.

(** None of the members that are set before the document is described is hidden. *)
Lemma early_members_kept :
  Forall (fun name => hidden name = false)
    ["issuer"; "authorization_endpoint"; "token_endpoint"; "jwks_uri"; "grant_types_supported"].
Proof. unfold hidden. destruct (bool_decide (mode _ <> _)); repeat constructor. Qed.

Lemma early_member_kept name :
  name ∈ ["issuer"; "authorization_endpoint"; "token_endpoint"; "jwks_uri"; "grant_types_supported"] ->
  hidden name = false.
Proof. pose proof early_members_kept as Hk. rewrite Forall_forall in Hk. apply Hk. Qed.

Lemma document_described uri doc name : member name (relay_document cfg r u uri doc) = described uri doc name.
Proof.
  unfold relay_document. cbv zeta. fold (served_issuer doc).
  change (match uri with
          | Some uri => insert "jwks_uri" (Str (as_str uri)) _
          | None => remove "jwks_uri" _
          end) with (with_endpoints uri doc).
  unfold describe_relay. cbv zeta. fold (kept (with_endpoints uri doc)).
  rewrite (described_members (kept (with_endpoints uri doc))), member_kept, member_with_endpoints.
  rewrite (advertises_same _ doc)
    by (rewrite !member_insert, member_kept, member_with_endpoints, early_member_kept; [done|];
        by repeat constructor).
  unfold described, own_member.
  repeat (case_bool_decide; simplify_eq/=; try done);
    try (rewrite early_member_kept by (by repeat constructor); done).
  all: destruct (allowed_scopes r); try done. exfalso. eauto.
Qed.
End Document.

(** ** The endpoints lead back *)

Section Routes.
Context {U : UrlLib} {UL : UrlPathLaws U} (layout : DefaultLayout).
#[local] Existing Instance default_layout.

Lemma suffix_parts_valid e : Forall (fun s => valid_key_part s = true) (suffix_of e).
Proof. destruct e; repeat constructor. Qed.

Lemma render_trimmed e k : trim_start "/" (render e k) = render e k.
Proof. apply trim_start_id. by destruct e. Qed.

(** A URL that the relay hands out reaches the endpoint and the key it is for. *)
Lemma endpoint_url_routed cfg e k :
  accepted layout k -> starts_with "/" (path (public_url cfg)) = true ->
  route (L := default_layout layout) cfg (path (endpoint_url (L := default_layout layout) cfg e k)) = Some (e, k).
Proof.
  intros Ha Hp. pose proof Ha as [_ Hparts].
  assert (render e k = join "/" (segments e (split "/" (key_str k)))) as Hj.
  { apply render_join; [apply split_not_nil|by rewrite join_split]. }
  unfold route, endpoint_url, route_prefix. cbv zeta. cbn [layout_path layout_parse default_layout].
  rewrite path_set_fragment, path_set_query, render_trimmed, Hj, path_below; [|done|].
  - rewrite strip_prefix_app. cbn [mbind option_bind]. rewrite strip_prefix_app. cbn [mbind option_bind].
    rewrite <-Hj. by apply accepted_parse_path.
  - unfold segments. constructor; [by destruct e|]. apply Forall_app. split; [|apply suffix_parts_valid].
    apply Forall_forall. exact Hparts.
Qed.
End Routes.

(** ** Property *)

Section Failures.
Context {U : UrlLib} {L : PathLayout} {J : JsonLib} {JW : JwtLib} {HL : HeaderLib}.
Context (cfg : RelayConfig).

Lemma discovery_source_error r u l status : runs (discovery_source cfg r u) l (Err status) -> status = 502%Z.
Proof.
  unfold discovery_source. destruct (endpoints_need_discovery u); [apply cached_json_error|].
  case_bool_decide; [by intros []|]. intros ([doc|e] & l1 & l2 & -> & Hd & Hr)%runs_bind_ok; [by destruct Hr|].
  destruct Hr as [[= ->] _]. unfold optional_discovery in Hd. cbv zeta in Hd.
  apply runs_bind in Hd as (c & l3 & l4 & -> & _ & Hd). destruct c as [v|]; [by destruct Hd|].
  apply runs_bind in Hd as (since & l5 & l6 & -> & _ & Hd).
  apply runs_bind in Hd as (cool & l7 & l8 & -> & _ & Hd). destruct cool; [by destruct Hd|].
  apply runs_bind in Hd as (doc & l9 & l10 & -> & _ & Hd). destruct doc as [doc|[]].
  - apply runs_bind in Hd as ([] & l11 & l12 & -> & _ & Hd).
    by apply runs_bind in Hd as ([] & l13 & l14 & -> & _ & [_ Hd]).
  - apply runs_bind in Hd as (now & l11 & l12 & -> & _ & Hd).
    by apply runs_bind in Hd as ([] & l13 & l14 & -> & _ & [_ Hd]).
  - by destruct Hd as [_ [= ->]].
Qed.

Lemma resolve_error u doc status : resolve_endpoints_from_doc u doc = Err status -> status = 502%Z.
Proof.
  unfold resolve_endpoints_from_doc. destruct (or_field (authorization_endpoint u) _ _); simpl; [|congruence].
  destruct (or_field (token_endpoint u) _ _); simpl; congruence.
Qed.
End Failures.

(** C17: a relay's discovery document describes the relay. Every answer of [discovery] is a 502, or
    the document that [described] gives member by member: the relay's endpoints, grants, scopes
    and client authentication, nothing that is hidden, and every other member as the upstream has
    it. The two endpoints it names are URLs that the router routes to those endpoints of this very
    relay. *)
Theorem discovery_describes_relay {U : UrlLib} {UL : UrlPathLaws U} {J : JsonLib} {JW : JwtLib} {HL : HeaderLib}
    (layout : DefaultLayout) cfg r u l resp :
  accepted layout (relay_key r) -> starts_with "/" (path (public_url cfg)) = true ->
  runs (discovery (L := default_layout layout) cfg r u) l resp ->
  resp = bare 502
  \/ exists doc endpoints members,
      runs (discovery_source cfg r u) l (Ok doc) /\ resolve_endpoints_from_doc u doc = Ok endpoints
      /\ resp = json_response 200 (Object members)
      /\ (forall name, member name members
           = described (L := default_layout layout) cfg r u (re_jwks_uri endpoints) (default [] (as_object doc)) name)
      /\ forall e name, (e, name) ∈ [(Authorize, "authorization_endpoint"); (Token, "token_endpoint")] ->
           exists served, member name members = Some (Str (as_str served))
             /\ route (L := default_layout layout) cfg (path served) = Some (e, relay_key r).
Proof.
  intros Ha Hp. unfold discovery. intros (doc & l1 & l2 & -> & Hd & [-> ->])%runs_bind. rewrite app_nil_r.
  destruct doc as [doc|status]; [|left; by apply discovery_source_error in Hd as ->].
  destruct (resolve_endpoints_from_doc u doc) as [endpoints|status] eqn:Er; [|left; by apply resolve_error in Er as ->].
  right. exists doc, endpoints. eexists. split_and!; [done|done|done|intros name; apply document_described|].
  intros e name Hin. eexists (endpoint_url (L := default_layout layout) cfg e (relay_key r)).
  split; [|by apply endpoint_url_routed]. rewrite document_described.
  apply elem_of_cons in Hin as [[= -> ->]|[[= -> ->]|[]%not_elem_of_nil]%elem_of_cons]; done.
Qed.
