(* ===== verification/CodeOrigin.v ===== *)
(** * CodeOrigin: where a redeemed code comes from

    [CodeSafety] says what each handler of the code flow checks. This file composes them over a
    whole history of HTTP requests: whoever handed the envelopes around, a code that is redeemed was
    made by a callback of the history, and that callback by an authorization request of the history,
    for the same relay, redirect URI, code challenge and nonce, with the tokens that the upstream
    gave for the verifier of that very authorization.

    What keeps the envelopes of the relay apart is their associated data. Flows and codes are sealed
    under the bare key of an upstream and of a relay; everything else ([tagged]) under data with a
    NUL, which no key has. *)

From S2P Require Import Prelude Text Json Url Model Layout Store Seal Prog Effects RefreshHandle.
From S2P Require Import Rotation Requests Jwt Web Flows Grants Router CodeSafety.
#[local] Open Scope string_scope.
#[local] Open Scope prog_scope.

(** ** What the refresh-token code seals *)

Section Rotator.
Context {J : JsonLib} {H : Sha256} {B : Base64}.
Context {PH : Postcard OpenedHandle} {PR : Postcard HandleRecord} {PS : Postcard StoredResponse}.

(** Every envelope is sealed with a NUL in its associated data. *)
Fixpoint tagged_eff (e : eff) : Prop :=
  match e with
  | SealCall _ ad => x00 ∈ ad
  | Timeout _ e => tagged_eff e
  | _ => True
  end.

Lemma tagged_await e : tagged_eff e -> every tagged_eff (await e).
Proof. by split. Qed.

Lemma tagged_timeout {A} d (p : io A) : every tagged_eff p -> every tagged_eff (timeout d p).
Proof.
  induction p as [a|e k IH]; [done|]. intros [He Hk]. split; [exact He|]. intros [a|]; [by apply IH|done].
Qed.

Lemma record_data_tagged self purpose key : x00 ∈ record_data self purpose key.
Proof.
  unfold record_data. rewrite !into_bytes_app. apply elem_of_app. left. apply elem_of_app. right.
  apply list_elem_of_here.
Qed.

Lemma associated_data_tagged b : x00 ∈ associated_data b.
Proof.
  unfold associated_data. rewrite !into_bytes_app. apply elem_of_app. left.
  apply elem_of_app. right. apply elem_of_app. right. apply list_elem_of_here.
Qed.

(** One step through a program of the rotator. *)
Ltac tag_step :=
  first
  [ exact I
  | by apply tagged_await
  | apply tagged_timeout
  | apply every_bind_ok; [|intros ?]
  | apply every_bind; [|intros ?]
  | match goal with |- every _ (match ?x with _ => _ end) => destruct x end ].

Create HintDb tagged discriminated.
Ltac tag := repeat (solve [auto with tagged] || tag_step || (progress (cbv zeta))).

Lemma tagged_seal_value self {T} {P : Postcard T} purpose key (v : T) :
  every tagged_eff (seal_value self purpose key v).
Proof.
  unfold seal_value. destruct (ok_or _ _); [|done]. apply every_bind; [|done].
  apply tagged_timeout, tagged_await, record_data_tagged.
Qed.

Lemma tagged_open_value self {T} {P : Postcard T} purpose key b :
  every tagged_eff (open_value self purpose key b : io (result T Fault)).
Proof. unfold open_value. tag. Qed.

Lemma tagged_store o : every tagged_eff (store o).
Proof. unfold store. tag. Qed.
#[local] Hint Resolve tagged_seal_value tagged_open_value tagged_store : tagged.

Section Methods.
Context (self : Rotator).

Lemma tagged_load key : every tagged_eff (load self key).
Proof. unfold load. tag. Qed.
Lemma tagged_load_grace key : every tagged_eff (load_grace_response self key).
Proof. unfold load_grace_response. tag. Qed.
Lemma tagged_is_revoked f : every tagged_eff (is_revoked self f).
Proof. unfold is_revoked. tag. Qed.
#[local] Hint Resolve tagged_load tagged_load_grace tagged_is_revoked : tagged.

Lemma tagged_erase hops key : every tagged_eff (erase_from self hops key).
Proof. revert key. induction hops as [|hops IH]; intros key; [done|cbn [erase_from]; tag]. Qed.
Lemma tagged_erase_tokens key : every tagged_eff (erase_tokens_if_sealer_available self key).
Proof. apply every_bind; [apply tagged_erase|done]. Qed.
#[local] Hint Resolve tagged_erase_tokens : tagged.

Lemma tagged_revoke f ms key : every tagged_eff (revoke self f ms key).
Proof. unfold revoke. tag. Qed.
Lemma tagged_discard keys : every tagged_eff (discard keys).
Proof. induction keys; [done|cbn [discard]; tag]. Qed.
Lemma tagged_release key c : every tagged_eff (release self key c).
Proof. unfold release. tag. Qed.
#[local] Hint Resolve tagged_revoke tagged_discard tagged_release : tagged.

Lemma tagged_claim key loaded token : every tagged_eff (claim self key loaded token).
Proof. unfold claim. tag. Qed.
Lemma tagged_prepare key c g s token response now g_ttl f_ttl :
  every tagged_eff (prepare self key c g s token response now g_ttl f_ttl).
Proof. unfold prepare. tag. Qed.
#[local] Hint Resolve tagged_claim tagged_prepare : tagged.
Lemma tagged_commit key c h token response : every tagged_eff (commit self key c h token response).
Proof. unfold commit. tag. Qed.
#[local] Hint Resolve tagged_commit : tagged.
Lemma tagged_rotate key c response : every tagged_eff (rotate self key c response).
Proof. unfold rotate, new_handle. tag. Qed.
#[local] Hint Resolve tagged_rotate : tagged.
Lemma tagged_perform key c : every tagged_eff (perform self key c).
Proof. unfold perform, ask_upstream. tag. Qed.
#[local] Hint Resolve tagged_perform : tagged.
Lemma tagged_handle_state key loaded now : every tagged_eff (handle_state self key loaded now).
Proof. unfold handle_state, claim_and_perform, reuse_detected. tag. Qed.
#[local] Hint Resolve tagged_handle_state : tagged.
Lemma tagged_poll_once key : every tagged_eff (poll_once self key).
Proof. unfold poll_once. tag. Qed.
#[local] Hint Resolve tagged_poll_once : tagged.
Lemma tagged_poll fuel key started : every tagged_eff (poll self fuel key started).
Proof. induction fuel as [|fuel IH]; [done|]. cbn [poll]. unfold sleep. tag. Qed.
#[local] Hint Resolve tagged_poll : tagged.
Lemma tagged_create_family h token : every tagged_eff (create_family self h token).
Proof. unfold create_family. tag. Qed.
#[local] Hint Resolve tagged_create_family : tagged.
Lemma tagged_issue response : every tagged_eff (issue_in_response self response).
Proof. unfold issue_in_response, issue, new_handle. tag. Qed.

Lemma tagged_open_handle b h : every tagged_eff (open_handle b h).
Proof. unfold open_handle. tag. Qed.
#[local] Hint Resolve tagged_open_handle : tagged.
Lemma tagged_refresh h : every tagged_eff (Rotation.refresh self h).
Proof.
  unfold Rotation.refresh, refresh_sealed_handle, refresh_rotating, ask_upstream, new_handle. tag.
Qed.
End Methods.

Lemma tagged_seal_members b issued ms : every tagged_eff (seal_members b issued ms).
Proof.
  induction ms as [|[name value] ms IH]; [done|]. cbn [seal_members].
  assert (forall token, every tagged_eff (seal_handle b token issued)) as Hs.
  { intros token. unfold seal_handle. destruct (ok_or _ _); [|done].
    apply every_bind; [apply tagged_await, associated_data_tagged|done]. }
  repeat (solve [auto] || tag_step).
Qed.

Lemma tagged_seal_response b s payload issued : every tagged_eff (seal_token_response b s payload issued).
Proof.
  unfold seal_token_response. repeat (solve [auto using tagged_seal_members] || tag_step).
Qed.
End Rotator.

(** ** What the handlers seal *)

Section Origin.
Context {U : UrlLib} {L : PathLayout} {J : JsonLib} {HL : HeaderLib} {F : FormLib}.
Context {SH : Sha256} {SH2 : Sha2} {B : Base64} {BS : Base64Std} {JW : JwtLib}.
Context {PF : Postcard FlowEnvelope} {PC : Postcard CodeEnvelope}.
Context {PH : Postcard OpenedHandle} {PR : Postcard HandleRecord} {PS : Postcard StoredResponse}.
Context (cfg : RelayConfig).

(** The plaintext, the associated data and the envelope of a call that sealed. An envelope that is
    cut off by a timeout is lost. *)
Fixpoint sealed_as (e : reff) : rans e -> option (bytes * bytes * string) :=
  match e as e return rans e -> option (bytes * bytes * string) with
  | Core (SealCall pt ad) => fun r => match r with Ok env => Some (pt, ad, env) | Err _ => None end
  | Within _ e => fun o => match o with Some a => sealed_as e a | None => None end
  | _ => fun _ => None
  end.

(** Calls that do not seal under a bare key. *)
Definition tagged (e : reff) : Prop :=
  forall a pt ad env, sealed_as e a = Some (pt, ad, env) -> x00 ∈ ad.

Lemma tagged_other e : (forall a, sealed_as e a = None) -> tagged e.
Proof. intros He a pt ad env. by rewrite He. Qed.

Lemma tagged_call e : tagged e -> every tagged (call e : rio (rans e)).
Proof. by split. Qed.

Lemma tagged_within {A} d (p : rio A) : every tagged p -> every tagged (within d p).
Proof.
  induction p as [a|e k IH]; [done|]. intros [He Hk]. split; [by intros [a|] pt ad env; [apply He|]|].
  intros [a|]; [by apply IH|done].
Qed.

Lemma tagged_lift_with {A} refresher (p : io A) :
  (forall t, every tagged (refresher t)) -> every tagged_eff p -> every tagged (lift_with refresher p).
Proof.
  intros Hr. assert (forall e, tagged_eff e -> every tagged (lift_eff refresher e)) as He.
  { intros e. induction e; intros Ht; simpl lift_eff; try (by apply tagged_call, tagged_other); [|done|].
    - apply tagged_call. intros [env|] pt ad' env' Heq; simpl in Heq; [|done]. by injection Heq as _ <- _.
    - by apply tagged_within, IHe. }
  induction p as [a|e k IH]; [done|]. intros [Hte Hk]. apply every_bind; [by apply He|]. intros a. by apply IH.
Qed.

Lemma tagged_lift {A} (p : io A) : every tagged_eff p -> every tagged (lift p).
Proof. by apply tagged_lift_with. Qed.

(** One step through a handler. *)
Ltac rtag_step :=
  first
  [ exact I
  | by apply tagged_call, tagged_other
  | apply tagged_lift
  | apply every_bind_ok; [|intros ?]
  | apply every_bind; [|intros ?]
  | match goal with |- every _ (match ?x with _ => _ end) => destruct x end ].

Create HintDb rtagged discriminated.
Ltac rtag :=
  repeat (solve [auto with rtagged] || rtag_step || (progress (cbv zeta)) || (progress (unfold do_core))).

Lemma tagged_now : every tagged unix_now.
Proof. unfold unix_now. rtag. Qed.
Lemma tagged_send c request purpose scope : every tagged (send_checked cfg c request purpose scope).
Proof. unfold send_checked. rtag. Qed.
#[local] Hint Resolve tagged_now tagged_send : rtagged.
Lemma tagged_cached_json cache c scope url ttl purpose :
  every tagged (cached_json_with_client cfg cache c scope url ttl purpose).
Proof. unfold cached_json_with_client, cached_fresh, cache_insert, fetch_json_object. rtag. Qed.
#[local] Hint Resolve tagged_cached_json : rtagged.
Lemma tagged_optional_discovery r u : every tagged (optional_discovery cfg r u).
Proof. unfold optional_discovery, cached_fresh, cache_insert, fetch_json_object. rtag. Qed.
#[local] Hint Resolve tagged_optional_discovery : rtagged.
Lemma tagged_endpoints r u : every tagged (resolve_endpoints cfg r u).
Proof. unfold resolve_endpoints, cached_json. rtag. Qed.
Lemma tagged_jwks_uri r u : every tagged (resolve_jwks_uri cfg r u).
Proof. unfold resolve_jwks_uri. rtag. Qed.
Lemma tagged_assertion_jwks scope url kid : every tagged (client_assertion_jwks cfg scope url kid).
Proof. unfold client_assertion_jwks, keys_under_lock, current_keys, cooling, fetch_keys. rtag. Qed.
#[local] Hint Resolve tagged_endpoints tagged_jwks_uri tagged_assertion_jwks : rtagged.
Lemma tagged_jwks r u : every tagged (jwks cfg r u).
Proof. unfold jwks, cached_json. rtag. Qed.
Lemma tagged_discovery r u : every tagged (discovery cfg r u).
Proof. unfold discovery, discovery_source, cached_json. rtag. Qed.
Lemma tagged_validate r u response nonce : every tagged (validate_id_token_policy cfg r u response nonce).
Proof. unfold validate_id_token_policy, upstream_keys, cached_json. rtag. Qed.
Lemma tagged_verify relay audience issuer subject source assertion single :
  every tagged (verify_private_key_jwt cfg relay audience issuer subject source assertion single).
Proof. unfold verify_private_key_jwt, assertion_keys_url, assertion_keys, single_use. rtag. Qed.
Lemma tagged_unseal {T} {P : Postcard T} key v : every tagged (unseal_postcard key v : rio (result T _)).
Proof. unfold unseal_postcard. rtag. Qed.
Lemma tagged_fresh issued ttl : every tagged (fresh issued ttl).
Proof. unfold fresh. rtag. Qed.
#[local] Hint Resolve tagged_validate tagged_verify tagged_unseal tagged_fresh tagged_seal_response
  tagged_issue tagged_open_handle : rtagged.
Lemma tagged_exchange r u form : every tagged (exchange_sealed_code cfg r u form).
Proof.
  unfold exchange_sealed_code, open_code, redeem, seal_redemption, mark_redeemed, finish_redemption. rtag.
Qed.
Lemma tagged_send_refresh r u form token : every tagged (send_upstream_refresh cfg r u form token).
Proof. unfold send_upstream_refresh, send_upstream_token_request. rtag. Qed.
#[local] Hint Resolve tagged_exchange tagged_send_refresh : rtagged.
Lemma tagged_upstream_refresh r u form token : every tagged (upstream_refresh cfg r u form token).
Proof. unfold upstream_refresh. rtag. Qed.
Lemma tagged_rotating r u form presented : every tagged (refresh_rotating_relay cfg r u form presented).
Proof.
  unfold refresh_rotating_relay. rtag. apply tagged_lift_with; [intros t; apply tagged_upstream_refresh|].
  apply tagged_refresh.
Qed.
#[local] Hint Resolve tagged_rotating : rtagged.
Lemma tagged_token r u headers b : every tagged (token cfg r u headers b).
Proof. unfold token, authenticate, refresh_grant, unwrap_handle, seal_answer. rtag. Qed.

(** ** The one envelope of an authorization and of a callback *)

(** A program that seals nothing bare logs no bare envelope. *)
Lemma tagged_runs {A} (p : rio A) l x e a pt ad env :
  every tagged p -> runs p l x -> logged e a ∈ l -> sealed_as e a = Some (pt, ad, env) -> x00 ∈ ad.
Proof. intros Hp Hr Hin Hs. by eapply (every_runs tagged p l x e a Hp Hr Hin). Qed.

Lemma runs_seal_bare {T} {P : Postcard T} key (v : T) l o e a pt ad env :
  runs (seal_postcard key v) l o -> logged e a ∈ l -> sealed_as e a = Some (pt, ad, env) ->
  to_stdvec v = Some pt /\ ad = into_bytes (key_str key) /\ o = Ok env.
Proof.
  unfold seal_postcard. destruct (to_stdvec v) as [b|]; simpl ok_or; cbn iota.
  2: { by intros [-> _] ?%not_elem_of_nil. }
  intros (c & l1 & l2 & -> & (c' & l3 & -> & -> & ->) & -> & ->)%runs_bind. rewrite app_nil_r.
  intros Hin%list_elem_of_singleton Hs.
  assert (sealed_as (Core (SealCall b (into_bytes (key_str key)))) c' = Some (pt, ad, env)) as Hs'.
  { change (match logged (Core (SealCall b (into_bytes (key_str key)))) c' : {e : reff & rans e} with
            | existT e a => sealed_as e a end = Some (pt, ad, env)). by rewrite <-Hin. }
  simpl in Hs'. destruct c' as [env'|]; [|done]. by injection Hs' as -> -> ->.
Qed.

(** The request that exchanges the upstream's code is answered with the response that is sealed. *)
Definition exchanged (u : Upstream) (flow : FlowEnvelope) (code : string) (stored : StoredResponse)
    (l : call_log rans) : Prop :=
  exists endpoint answer,
    logged (Execute UpstreamHttp (upstream_token_request u endpoint (exchange_form cfg u flow code))) (Some answer) ∈ l
    /\ read_upstream_response answer = Some stored.

Lemma runs_send c request purpose scope l answer :
  runs (send_checked cfg c request purpose scope) l (Ok answer) -> logged (Execute c request) (Some answer) ∈ l.
Proof.
  unfold send_checked. intros (ok & l1 & l2 & -> & _ & Hr)%runs_bind.
  destruct ok; cbn [negb] in Hr; [|by destruct Hr].
  apply runs_bind in Hr as (o & l3 & l4 & -> & (o' & l5 & -> & -> & ->) & [-> Ho]).
  destruct o' as [o'|]; [|done]. destruct (_ || _); [done|]. injection Ho as ->. set_solver.
Qed.

Section Bare.
Context (e : reff) (a : rans e) (pt ad : bytes) (env : string).
Context (Hs : sealed_as e a = Some (pt, ad, env)) (Hbare : x00 ∉ ad).

(** A program that seals nothing bare can be skipped. *)
Lemma after_tagged {A C} (p : rio A) (f : A -> rio C) l x :
  every tagged p -> runs (bind p f) l x -> logged e a ∈ l ->
  exists b l1 l2, l = (l1 ++ l2)%list /\ runs p l1 b /\ runs (f b) l2 x /\ logged e a ∈ l2.
Proof.
  intros Hp (b & l1 & l2 & -> & H1 & H2)%runs_bind [Hin|Hin]%elem_of_app; [|by exists b, l1, l2].
  destruct Hbare. by eapply tagged_runs.
Qed.

Lemma ret_seals_nothing {A} (b x : A) l : runs (Ret b : rio A) l x -> logged e a ∈ l -> False.
Proof. by intros [-> _] ?%not_elem_of_nil. Qed.

(** What an authorization seals bare is its flow, and it redirects with that envelope as its state. *)
Lemma authorize_sealed r u q l resp :
  runs (authorize cfg r u q) l resp -> logged e a ∈ l ->
  exists redirect_value scope endpoint verifier issued nonce,
    authorize_checks cfg r q = Some (redirect_value, scope)
    /\ to_stdvec (flow_of r q redirect_value verifier issued nonce) = Some pt
    /\ ad = into_bytes (key_str (up_key u))
    /\ resp = found (as_str (append_pairs endpoint (upstream_params cfg u q env verifier scope))).
Proof.
  intros Hr Hin. unfold authorize in Hr.
  destruct (rotation_store_missing cfg r); [by destruct (ret_seals_nothing _ _ _ Hr Hin)|].
  destruct (authorize_checks cfg r q) as [[rv scope]|]; [|by destruct (ret_seals_nothing _ _ _ Hr Hin)].
  apply after_tagged in Hr as (ep & l1 & l2 & -> & _ & Hr & Hin2); [|apply tagged_endpoints|done].
  destruct ep as [ep|s]; [|by destruct (ret_seals_nothing _ _ _ Hr Hin2)].
  apply after_tagged in Hr as (verifier & l3 & l4 & -> & _ & Hr & Hin4); [|unfold random_urlsafe; rtag|done].
  apply after_tagged in Hr as (issued & l5 & l6 & -> & _ & Hr & Hin6); [|apply tagged_now|done].
  apply after_tagged in Hr as (nonce & l7 & l8 & -> & _ & Hr & Hin8); [|unfold do_core; rtag|done].
  apply runs_bind in Hr as (sealed & l9 & l10 & -> & H9 & [-> ->]). rewrite app_nil_r in Hin8.
  destruct (runs_seal_bare _ _ _ _ _ _ _ _ _ H9 Hin8 Hs) as (Hpt & -> & ->).
  by exists rv, scope, (re_authorization_endpoint ep), verifier, issued, nonce.
Qed.

(** The state opens to the flow, which is fresh. *)
Definition opened (u : Upstream) (state : string) (flow : FlowEnvelope) (l : call_log rans) : Prop :=
  exists b now, logged (Core (UnsealCall state (into_bytes (key_str (up_key u))))) (Ok b) ∈ l
    /\ from_postcard b = Some flow /\ logged (Core Now) now ∈ l
    /\ fresh_at (now / 1000) (fl_issued_at flow) FLOW_TTL = true.

(** The callback redirects to the relying party with the envelope as its code. *)
Definition redirects_with_code (flow : FlowEnvelope) (resp : Resp) : Prop :=
  exists location, resp = found location
    /\ extends_query (append_query_pairs (fl_app_redirect_uri flow) [("code", env)]) location.

Lemma exchange_code_sealed r u q flow code l resp :
  runs (exchange_code cfg r u q flow code) l resp -> logged e a ∈ l ->
  exists stored id issued, exchanged u flow code stored l
    /\ to_stdvec (code_envelope r u flow stored id issued) = Some pt
    /\ ad = into_bytes (key_str (relay_key r)) /\ redirects_with_code flow resp.
Proof.
  intros Hr Hin. unfold exchange_code in Hr.
  apply after_tagged in Hr as (ep & l1 & l2 & -> & _ & Hr & Hin2); [|apply tagged_endpoints|done].
  destruct ep as [ep|s]; [|by destruct (ret_seals_nothing _ _ _ Hr Hin2)].
  apply after_tagged in Hr as (o & l3 & l4 & -> & H3 & Hr & Hin4); [|apply tagged_send|done].
  destruct o as [o|]; [|by destruct (ret_seals_nothing _ _ _ Hr Hin4)].
  destruct (read_upstream_response o) as [stored|] eqn:Ho; [|by destruct (ret_seals_nothing _ _ _ Hr Hin4)].
  apply after_tagged in Hr as (id & l5 & l6 & -> & _ & Hr & Hin6); [|unfold do_core; rtag|done].
  apply after_tagged in Hr as (issued & l7 & l8 & -> & _ & Hr & Hin8); [|apply tagged_now|done].
  apply runs_bind in Hr as (sealed & l9 & l10 & -> & H9 & [-> ->]). rewrite app_nil_r in Hin8.
  destruct (runs_seal_bare _ _ _ _ _ _ _ _ _ H9 Hin8 Hs) as (Hpt & -> & ->).
  exists stored, id, issued. split; [|split; [done|split; [done|]]].
  - exists (re_token_endpoint ep), o. split; [|done]. apply runs_send in H3. set_solver.
  - eexists. split; [done|]. eapply extends_query_trans; apply append_extends.
Qed.

(** What a callback seals bare is its code: the flow opened, its relay was found, and the upstream
    answered the exchange. *)
Lemma callback_sealed u q l resp :
  runs (callback cfg u q) l resp -> logged e a ∈ l ->
  exists flow key r code stored id issued,
    opened u (cb_state q) flow l
    /\ ResourceKey_new (fl_relay_key flow) = Ok key /\ logged (ResolveRelay key) (Ok (Some r)) ∈ l
    /\ redirect_allowed r (fl_app_redirect_uri flow) (redirect cfg) = true
    /\ cb_code q = Some code /\ exchanged u flow code stored l
    /\ to_stdvec (code_envelope r u flow stored id issued) = Some pt
    /\ ad = into_bytes (key_str (relay_key r)) /\ redirects_with_code flow resp.
Proof.
  intros Hr Hin. unfold callback in Hr.
  apply after_tagged in Hr as (f & l1 & l2 & -> & H1 & Hr & Hin2); [|unfold open_flow; rtag|done].
  destruct f as [flow|s]; [|by destruct (ret_seals_nothing _ _ _ Hr Hin2)].
  apply runs_open_flow in H1 as (b & now & Hb & -> & Hf).
  apply after_tagged in Hr as (o & l3 & l4 & -> & H3 & Hr & Hin4); [|unfold flow_relay; rtag|done].
  destruct o as [r|]; [|by destruct (ret_seals_nothing _ _ _ Hr Hin4)].
  assert (exists key, ResourceKey_new (fl_relay_key flow) = Ok key
    /\ logged (ResolveRelay key) (Ok (Some r)) ∈ l3) as (key & Hkey & Hl3).
  { destruct (ResourceKey_new (fl_relay_key flow)) as [key|] eqn:Ek.
    - unfold flow_relay in H3. rewrite Ek in H3.
      apply runs_bind in H3 as (x & k1 & k2 & -> & (x' & k3 & -> & -> & ->) & [-> Hx]).
      exists key. split; [done|]. destruct x' as [[r'|]|]; [|done..]. destruct (_ && _); [|done].
      injection Hx as ->. set_solver.
    - unfold flow_relay in H3. rewrite Ek in H3. by destruct H3. }
  unfold finish_callback in Hr. destruct (redirect_allowed _ _ _) eqn:Ea; cbn [negb] in Hr.
  2: { by destruct (ret_seals_nothing _ _ _ Hr Hin4). }
  destruct (cb_error q); [by destruct (ret_seals_nothing _ _ _ Hr Hin4)|].
  destruct (cb_code q) as [code|]; [|by destruct (ret_seals_nothing _ _ _ Hr Hin4)].
  destruct (exchange_code_sealed _ _ _ _ _ _ _ Hr Hin4)
    as (stored & id & issued & (ep & o & Ho & Hst) & Hpt & Had & Hloc).
  exists flow, key, r, code, stored, id, issued. split_and!; try done.
  - exists b, now. split_and!; [set_solver|done|set_solver|done].
  - set_solver.
  - exists ep, o. split; [set_solver|done].
Qed.

(** Only authorizations and callbacks seal bare. *)
Lemma dispatch_sealed request l resp :
  runs (dispatch cfg request) l resp -> logged e a ∈ l ->
  exists key l', l' ⊆ l /\ logged e a ∈ l' /\
    ((exists r u q, route cfg (in_path request) = Some (Authorize, key)
        /\ logged (ResolveRelay key) (Ok (Some r)) ∈ l
        /\ logged (ResolveUpstream (relay_upstream r)) (Ok (Some u)) ∈ l
        /\ parse_authorize_request (in_query request) = Ok q /\ runs (authorize cfg r u q) l' resp)
     \/ (exists u q, route cfg (in_path request) = Some (Callback, key)
        /\ logged (ResolveUpstream key) (Ok (Some u)) ∈ l
        /\ parse_callback_request (in_query request) = Ok q /\ runs (callback cfg u q) l' resp)).
Proof.
  intros Hr Hin. unfold dispatch in Hr.
  destruct (route cfg (in_path request)) as [[ep key]|]; [|by destruct (ret_seals_nothing _ _ _ Hr Hin)].
  exists key. destruct (decide (ep = Callback)) as [->|Hep].
  - unfold dispatch_callback in Hr.
    apply after_tagged in Hr as (o & l1 & l2 & -> & H1 & Hr & Hin2); [|by apply tagged_call, tagged_other|done].
    apply runs_call in H1 as ->.
    destruct o as [[u|]|]; [|by destruct (ret_seals_nothing _ _ _ Hr Hin2)..].
    destruct (negb _); [by destruct (ret_seals_nothing _ _ _ Hr Hin2)|].
    destruct (in_method request); try by destruct (ret_seals_nothing _ _ _ Hr Hin2).
    destruct (parse_callback_request _) as [q|]; [|by destruct (ret_seals_nothing _ _ _ Hr Hin2)].
    exists l2. split; [set_solver|]. split; [done|]. right. exists u, q. set_solver.
  - assert (runs (dispatch_relay cfg request ep key) l resp) as Hd by by destruct ep. clear Hr.
    unfold dispatch_relay in Hd.
    apply after_tagged in Hd as (o & l1 & l2 & -> & H1 & Hd & Hin2); [|by apply tagged_call, tagged_other|done].
    apply runs_call in H1 as ->. destruct o as [[r|]|]; [|by destruct (ret_seals_nothing _ _ _ Hd Hin2)..].
    apply after_tagged in Hd as (o & l3 & l4 & -> & H3 & Hd & Hin4); [|by apply tagged_call, tagged_other|done].
    apply runs_call in H3 as ->. destruct o as [[u|]|]; [|by destruct (ret_seals_nothing _ _ _ Hd Hin4)..].
    destruct (negb _); [by destruct (ret_seals_nothing _ _ _ Hd Hin4)|].
    unfold handle_endpoint in Hd.
    destruct ep, (in_method request); try by destruct (ret_seals_nothing _ _ _ Hd Hin4).
    + destruct (parse_authorize_request _) as [q|]; [|by destruct (ret_seals_nothing _ _ _ Hd Hin4)].
      exists l4. split; [set_solver|]. split; [done|]. left. exists r, u, q. set_solver.
    + destruct Hbare. exact (tagged_runs _ _ _ _ _ _ _ _ (tagged_token r u _ _) Hd Hin4 Hs).
    + destruct Hbare. exact (tagged_runs _ _ _ _ _ _ _ _ (tagged_discovery r u) Hd Hin4 Hs).
    + destruct Hbare. exact (tagged_runs _ _ _ _ _ _ _ _ (tagged_jwks r u) Hd Hin4 Hs).
Qed.
End Bare.

(** ** Histories *)

(** One HTTP request, with everything it called and was answered. *)
Record handled := { h_request : HttpIn; h_log : call_log rans; h_answer : Resp }.

(** The requests ran through the router. *)
Definition genuine (h : list handled) : Prop :=
  forall x, x ∈ h -> runs (dispatch cfg (h_request x)) (h_log x) (h_answer x).

(** The sealer's key is the relay's own: what opens under it was sealed by a request of the history,
    to be that and with that associated data. *)
Definition authentic (h : list handled) : Prop :=
  forall x env ad pt, x ∈ h -> logged (Core (UnsealCall env ad)) (Ok pt) ∈ h_log x ->
    exists y e a, y ∈ h /\ logged e a ∈ h_log y /\ sealed_as e a = Some (pt, ad, env).

(** The registries of the history find what has the key they are asked for, and no relay has the
    key of an upstream. *)
Record well_keyed (h : list handled) : Prop := {
  wk_relay x k r : x ∈ h -> logged (ResolveRelay k) (Ok (Some r)) ∈ h_log x -> relay_key r = k /\ plain_key k;
  wk_upstream x k u : x ∈ h -> logged (ResolveUpstream k) (Ok (Some u)) ∈ h_log x -> up_key u = k /\ plain_key k;
  wk_apart x y k k' r u : x ∈ h -> y ∈ h -> logged (ResolveRelay k) (Ok (Some r)) ∈ h_log x ->
    logged (ResolveUpstream k') (Ok (Some u)) ∈ h_log y -> k <> k';
}.

Lemma plain_bare k : plain_key k -> x00 ∉ into_bytes (key_str k).
Proof. intros Hk. exact (into_bytes_contains NUL (key_str k) Hk). Qed.

(** The POST of a code, once it succeeded. *)
Lemma dispatch_redeemed request l resp key b form :
  runs (dispatch cfg request) l resp -> route cfg (in_path request) = Some (Token, key) ->
  in_method request = POST -> in_body request = Some b -> parse_token_request b = Ok form ->
  tk_grant_type form = "authorization_code" -> succeeds resp ->
  exists r u l' resp', logged (ResolveRelay key) (Ok (Some r)) ∈ l /\ l' ⊆ l
    /\ runs (exchange_sealed_code cfg r u form) l' resp' /\ succeeds resp'
    /\ rs_status resp = rs_status resp' /\ rs_body resp = rs_body resp'.
Proof.
  intros Hr Hroute Hm Hb Hp Hg Hs. unfold dispatch in Hr. rewrite Hroute in Hr. unfold dispatch_relay in Hr.
  apply runs_bind in Hr as (o & l1 & l2 & -> & H1%runs_call & Hr). subst l1.
  destruct o as [[r|]|]; [|by destruct Hr as [_ ->]..].
  apply runs_bind in Hr as (o & l3 & l4 & -> & H3%runs_call & Hr). subst l3.
  destruct o as [[u|]|]; [|by destruct Hr as [_ ->]..].
  destruct (negb _); [by destruct Hr as [_ ->]|]. unfold handle_endpoint in Hr. rewrite Hm in Hr.
  unfold token in Hr. cbv zeta in Hr. rewrite Hb, Hp in Hr.
  apply runs_bind in Hr as (o & l5 & l6 & -> & _ & Hr).
  destruct o as [o|f].
  2: { destruct Hr as [_ ->]. exfalso. unfold succeeds in Hs.
       by destruct f as [[]|], (allowed_cors_origin _ _ _). }
  apply runs_bind in Hr as (resp' & l7 & l8 & -> & H7 & [-> ->]). rewrite bool_decide_eq_true_2 in H7 by done.
  exists r, u, l7, resp'. split_and!; [set_solver|set_solver|done| |by destruct (allowed_cors_origin _ _ _)..].
  unfold succeeds in *. by destruct (allowed_cors_origin _ _ _).
Qed.

(** ** The two hops back *)

(** The request was an authorization at the relay, answered by a redirect to the upstream [u] with
    the state and with the challenge of the verifier. *)
Definition authorized (y : handled) (key : ResourceKey) (q : AuthorizeRequest) (u : Upstream)
    (state verifier : string) : Prop :=
  route cfg (in_path (h_request y)) = Some (Authorize, key)
  /\ parse_authorize_request (in_query (h_request y)) = Ok q
  /\ exists endpoint scope,
       h_answer y = found (as_str (append_pairs endpoint (upstream_params cfg u q state verifier scope))).

(** The request was a callback of the upstream with the state: the upstream's code was exchanged
    with the verifier for the response [stored], and the relying party was redirected to with
    [code]. *)
Definition called_back (z : handled) (upstream_key : ResourceKey) (state verifier redirect_uri code : string)
    (stored : StoredResponse) : Prop :=
  route cfg (in_path (h_request z)) = Some (Callback, upstream_key)
  /\ exists c upstream_code u endpoint form answer location,
       parse_callback_request (in_query (h_request z)) = Ok c /\ cb_state c = state
       /\ cb_code c = Some upstream_code /\ up_key u = upstream_key
       /\ ("code", upstream_code) ∈ form /\ ("code_verifier", verifier) ∈ form
       /\ logged (Execute UpstreamHttp (upstream_token_request u endpoint form)) (Some answer) ∈ h_log z
       /\ read_upstream_response answer = Some stored
       /\ h_answer z = found location /\ extends_query (append_query_pairs redirect_uri [("code", code)]) location.

Context {PFL : PostcardLaws FlowEnvelope} {PCL : PostcardLaws CodeEnvelope}.
Context (h : list handled) (Hgen : genuine h) (Hauth : authentic h) (Hkeys : well_keyed h).

(** A code that opens under a relay's key was made by a callback. *)
Lemma code_from_callback x key r code b envelope :
  x ∈ h -> logged (ResolveRelay key) (Ok (Some r)) ∈ h_log x ->
  logged (Core (UnsealCall code (into_bytes (key_str key)))) (Ok b) ∈ h_log x ->
  from_postcard b = Some envelope ->
  exists z u q l flow r' upstream_code stored id issued, z ∈ h /\ l ⊆ h_log z
    /\ route cfg (in_path (h_request z)) = Some (Callback, up_key u)
    /\ logged (ResolveUpstream (up_key u)) (Ok (Some u)) ∈ h_log z
    /\ parse_callback_request (in_query (h_request z)) = Ok q
    /\ opened u (cb_state q) flow l /\ ResourceKey_new (fl_relay_key flow) = Ok key
    /\ cb_code q = Some upstream_code /\ exchanged u flow upstream_code stored l
    /\ envelope = code_envelope r' u flow stored id issued
    /\ redirects_with_code code flow (h_answer z).
Proof.
  intros Hx Hrel Hun Hb. destruct (wk_relay h Hkeys _ _ _ Hx Hrel) as [_ Hplain].
  destruct (Hauth _ _ _ _ Hx Hun) as (z & e & a & Hz & Hin & Hs).
  destruct (dispatch_sealed e a _ _ _ Hs (plain_bare _ Hplain) _ _ _ (Hgen z Hz) Hin)
    as (key' & l & Hsub & Hin' & [(r' & u & q & _ & _ & Hu & _ & Hr)|(u & q & Hroute & Hu & Hq & Hr)]).
  - destruct (authorize_sealed e a _ _ _ Hs (plain_bare _ Hplain) _ _ _ _ _ Hr Hin')
      as (_ & _ & _ & _ & _ & _ & _ & _ & Had & _).
    apply (inj into_bytes) in Had. destruct (wk_upstream h Hkeys _ _ _ Hz Hu) as [Huk _].
    destruct (wk_apart h Hkeys _ _ _ _ _ _ Hx Hz Hrel Hu). rewrite <- Huk.
    destruct key, (up_key u). simpl in Had. by subst.
  - destruct (callback_sealed e a _ _ _ Hs (plain_bare _ Hplain) _ _ _ _ Hr Hin')
      as (flow & key2 & r' & uc & stored & id & issued & Hop & Hk2 & Hr2 & _ & Hcb & Hex & Hpt & Had & Hloc).
    destruct (wk_upstream h Hkeys _ _ _ Hz Hu) as [<- _].
    destruct (wk_relay h Hkeys _ _ _ Hz (Hsub _ Hr2)) as [<- _].
    apply (inj into_bytes) in Had. assert (relay_key r' = key) as Hk by (destruct key, (relay_key r'); simpl in Had; by subst).
    rewrite Hk in *. rewrite (from_to_postcard _ _ Hpt) in Hb. injection Hb as <-.
    by exists z, u, q, l, flow, r', uc, stored, id, issued.
Qed.

(** A state that opens under an upstream's key was made by an authorization. *)
Lemma flow_from_authorization z u l state flow :
  z ∈ h -> l ⊆ h_log z -> logged (ResolveUpstream (up_key u)) (Ok (Some u)) ∈ h_log z ->
  opened u state flow l ->
  exists y key r u' q scope redirect_value verifier issued nonce, y ∈ h
    /\ authorized y key q u' state verifier /\ up_key u' = up_key u /\ relay_key r = key
    /\ authorize_checks cfg r q = Some (redirect_value, scope)
    /\ flow = flow_of r q redirect_value verifier issued nonce.
Proof.
  intros Hz Hsub Hu (b & now & Hun & Hb & _ & _). destruct (wk_upstream h Hkeys _ _ _ Hz Hu) as [_ Hplain].
  destruct (Hauth _ _ _ _ Hz (Hsub _ Hun)) as (y & e & a & Hy & Hin & Hs).
  destruct (dispatch_sealed e a _ _ _ Hs (plain_bare _ Hplain) _ _ _ (Hgen y Hy) Hin)
    as (key & l' & Hsub' & Hin' & [(r & u' & q & Hroute & Hrel & Hu' & Hq & Hr)|(u' & q & _ & _ & _ & Hr)]).
  - destruct (authorize_sealed e a _ _ _ Hs (plain_bare _ Hplain) _ _ _ _ _ Hr Hin')
      as (rv & scope & ep & verifier & issued & nonce & Hc & Hpt & Had & Hloc).
    apply (inj into_bytes) in Had. rewrite (from_to_postcard _ _ Hpt) in Hb. injection Hb as <-.
    exists y, key, r, u', q, scope, rv, verifier, issued, nonce. split_and!; try done.
    + split_and!; [done|done|]. by exists ep, scope.
    + destruct (up_key u'), (up_key u). simpl in Had. by subst.
    + apply (wk_relay h Hkeys _ _ _ Hy Hrel).
  - destruct (callback_sealed e a _ _ _ Hs (plain_bare _ Hplain) _ _ _ _ Hr Hin')
      as (flow' & key2 & r & uc & stored & id & issued & _ & _ & Hr2 & _ & _ & _ & _ & Had & _).
    apply Hsub' in Hr2. destruct (wk_relay h Hkeys _ _ _ Hy Hr2) as [Hk _].
    destruct (wk_apart h Hkeys _ _ _ _ _ _ Hy Hz Hr2 Hu). rewrite <- Hk.
    apply (inj into_bytes) in Had. destruct (relay_key r), (up_key u). simpl in Had. by subst.
Qed.
End Origin.

(** ** Property *)

(** C7: a redeemed code comes from an authorization that matches the request. In any history of HTTP
    requests whose envelopes are the relay's own, with no relay sharing the key of an upstream: when
    a POST to a relay's token endpoint redeems a code with success, the history has an authorization
    request [q] to the same relay and a callback [z] of its upstream. The authorization asked for
    exactly the redirect URI of the redemption, which the relay allowed; its code challenge is the
    one of the verifier that is redeemed with, and when it had none, none is sent. The callback was
    given the state of that very authorization, exchanged the upstream's code with the verifier whose
    challenge the authorization sent, and redirected with the code to the same redirect URI. The
    response that is redeemed is the one the upstream gave to that exchange; its ID token passed
    the relay's policy with the nonce of the authorization; and in the passthrough mode it is what
    the client gets. *)
Theorem redeemed_code_was_authorized {U : UrlLib} {L : PathLayout} {J : JsonLib} {HL : HeaderLib} {F : FormLib}
    {SH : Sha256} {SH2 : Sha2} {B : Base64} {BS : Base64Std} {JW : JwtLib} {PF : Postcard FlowEnvelope}
    {PC : Postcard CodeEnvelope} {PH : Postcard OpenedHandle} {PR : Postcard HandleRecord}
    {PS : Postcard StoredResponse} {PFL : PostcardLaws FlowEnvelope} {PCL : PostcardLaws CodeEnvelope}
    cfg h x key b form :
  genuine cfg h -> authentic h -> well_keyed h ->
  x ∈ h -> route cfg (in_path (h_request x)) = Some (Token, key) -> in_method (h_request x) = POST ->
  in_body (h_request x) = Some b -> parse_token_request b = Ok form ->
  tk_grant_type form = "authorization_code" -> succeeds (h_answer x) ->
  exists y z q u r r' ru redirect_uri code state verifier stored l,
    tk_code form = Some code /\ tk_redirect_uri form = Some redirect_uri
    /\ y ∈ h /\ authorized cfg y key q u state verifier
    /\ aq_redirect_uri q = Some redirect_uri /\ redirect_allowed r' redirect_uri (redirect cfg) = true
    /\ relay_key r' = key
    /\ match aq_code_challenge q with
       | Some challenge => exists client_verifier, tk_code_verifier form = Some client_verifier
           /\ valid_pkce_verifier client_verifier = true /\ challenge = pkce_challenge client_verifier
       | None => tk_code_verifier form = None
       end
    /\ z ∈ h /\ called_back cfg z (up_key u) state verifier redirect_uri code stored
    /\ logged (ResolveRelay key) (Ok (Some r)) ∈ h_log x /\ l ⊆ h_log x
    /\ runs (validate_id_token_policy cfg r ru stored (aq_id_token_nonce q)) l (Ok tt)
    /\ (mode (refresh_tokens r) = Passthrough ->
          rs_status (h_answer x) = status_or_bad_gateway (status stored) /\ rs_body (h_answer x) = body stored).
Proof.
  intros Hgen Hauth Hkeys Hx Hroute Hm Hb Hp Hg Hs.
  destruct (dispatch_redeemed cfg _ _ _ _ _ _ (Hgen x Hx) Hroute Hm Hb Hp Hg Hs)
    as (r & ru & l & resp & Hrel & Hsub & Hr & Hs' & Hst & Hbd).
  destruct (wk_relay h Hkeys _ _ _ Hx Hrel) as [Hrk _].
  apply runs_exchange in Hr as (code & pt & now & envelope & l2 & Hc & -> & Hpt & _ & _ & Hmm & Hr); [|done].
  rewrite Hrk in *. apply code_matches in Hmm as [Hru Hpk].
  apply runs_redeem in Hr as (l3 & l4 & l5 & l6 & sb & v & -> & Hv & -> & Hsb & _ & Hf); [|done].
  destruct (code_from_callback cfg h Hgen Hauth Hkeys x key r code pt envelope Hx Hrel ltac:(set_solver) Hpt)
    as (z & u & c & lz & flow & r1 & uc & stored & id & issued & Hz & Hlz & Hzr & Hzu & Hzq & Hop & Hfk & Hcb
        & (ep & o & Hex & Ho) & -> & (location & Hloc & Hext)).
  destruct (flow_from_authorization cfg h Hgen Hauth Hkeys z u lz _ flow Hz Hlz Hzu Hop)
    as (y & key2 & r2 & u2 & q & scope & rv & verifier & issued2 & nonce & Hy & Hay & Hu2 & Hr2 & Hck & ->).
  assert (key2 = key) as ->.
  { simpl in Hfk. rewrite Hr2 in Hfk. apply ResourceKey_new_ok in Hfk as [-> _]. by destruct key2. }
  assert (aq_redirect_uri q = Some rv /\ redirect_allowed r2 rv (redirect cfg) = true) as [Hrv Hal].
  { unfold authorize_checks in Hck. destruct (aq_redirect_uri q) as [rv'|]; simpl in Hck; [|done].
    destruct (redirect_allowed r2 rv' (redirect cfg)) eqn:Ea; simpl in Hck; [|done].
    repeat case_match; simplify_eq; done. }
  exists y, z, q, u2, r, r2, ru, rv, code, (cb_state c), verifier, stored, l3.
  split_and!; try done.
  - simpl in Hpk. destruct (aq_code_challenge q); [done|by destruct Hpk].
  - split; [by rewrite Hu2|].
    exists c, uc, u, ep, (exchange_form cfg u (flow_of r2 q rv verifier issued2 nonce) uc), o, location.
    split_and!; try done; [unfold exchange_form; set_solver..|]. by apply Hlz.
  - set_solver.
  - intros Hmode. unfold finish_redemption in Hf. rewrite Hmode in Hf. destruct Hf as [_ ->].
    rewrite Hst, Hbd. done.
Qed.
