(* ===== verification/AdmissionSafety.v ===== *)
(** * AdmissionSafety: no tokens without an admitted ID token

    What a successful code redemption proves about the upstream's ID token at a relay that has an
    admission policy ([redemption_admitted]): that the response of the upstream carries one, that
    a key of the upstream verifies it, that it is for this client and this login, and that its
    claims meet the policy in the sense of [IdTokenPolicy.satisfies]. *)

From S2P Require Import Prelude Text Json Url IdTokenPolicy Model Layout Store Seal Prog Effects RefreshHandle.
From S2P Require Import Rotation Requests Jwt Web Flows Grants CodeSafety.
#[local] Open Scope string_scope.
#[local] Open Scope prog_scope.

(** The claims meet everything the relay asks of them. *)
Definition claims_admitted {U : UrlLib} (r : Relay) (claims : Value) : Prop :=
  (forall claim expected, required_id_token_claims r !! claim = Some expected ->
     get_str claims claim = Some expected)
  /\ forall policy, id_token_policy r = Some policy ->
       (forall rules, required policy = Some rules -> satisfies rules claims)
       /\ (forall branches, any_of policy = Some branches ->
             exists rules, rules ∈ branches /\ satisfies rules claims).

Lemma policy_matches_admitted {U : UrlLib} r claims : policy_matches r claims = true <-> claims_admitted r claims.
Proof.
  unfold policy_matches, claims_admitted. rewrite andb_true_iff. f_equiv.
  - rewrite forallb_elem. split.
    + intros Hall claim expected Hc. apply elem_of_map_to_list in Hc. specialize (Hall _ Hc). simpl in Hall.
      unfold get_str. destruct (get claims claim) as [[]|]; try done. by apply bool_decide_eq_true in Hall as ->.
    + intros Hall [claim expected] Hc%elem_of_map_to_list. specialize (Hall _ _ Hc). unfold get_str in Hall.
      destruct (get claims claim) as [[]|]; try done. simpl in Hall. injection Hall as ->. by apply bool_decide_eq_true.
  - destruct (id_token_policy r) as [p|]; [rewrite evaluate_policy_spec|]; naive_solver.
Qed.

(** When claims were issued, as [id_token_claims_ok] reads it. *)
Definition issued_at_of (claims : Value) : option Z := v ← get claims "iat"; as_u64 v.

(** The relay asks for an ID token. *)
Definition has_admission {U : UrlLib} (r : Relay) : Prop :=
  required_id_token_claims r <> ∅ \/ id_token_policy r <> None.

Section Admission.
Context {U : UrlLib} {L : PathLayout} {J : JsonLib} {HL : HeaderLib} {F : FormLib}.
Context {SH : Sha256} {SH2 : Sha2} {B : Base64} {BS : Base64Std} {JW : JwtLib}.
Context {PF : Postcard FlowEnvelope} {PC : Postcard CodeEnvelope}.
Context {PH : Postcard OpenedHandle} {PR : Postcard HandleRecord} {PS : Postcard StoredResponse}.
Context (cfg : RelayConfig).

(** The ID token of [response] verifies under a key of the upstream that this run obtained. *)
Definition id_token_verified (r : Relay) (u : Upstream) (response : StoredResponse) (l : call_log rans)
    (token_response claims : Value) (alg : Algorithm) : Prop :=
  exists id_token kid keys jk key (read : Z) lk,
    from_slice (body response) = Some token_response
    /\ get_str token_response "id_token" = Some id_token
    /\ decode_header id_token = Some (alg, kid) /\ alg ∈ id_token_algorithms
    /\ runs (upstream_keys cfg r u) lk (Ok keys) /\ (forall x, x ∈ lk -> x ∈ l)
    /\ select_key keys kid = Some jk /\ from_jwk jk = Some key
    /\ logged (Core Now) read ∈ l
    /\ jwt_decode (read / 1000) id_token key (id_token_validation u alg) = Some claims.

(** The token is for this login, and not from the future. *)
Definition for_this_login (u : Upstream) (nonce : option string) (l : call_log rans)
    (token_response claims : Value) (alg : Algorithm) : Prop :=
  (exists subject, get_str claims "sub" = Some subject /\ is_empty subject = false)
  /\ (forall expected, nonce = Some expected -> get_str claims "nonce" = Some expected)
  /\ valid_authorized_party claims (up_client_id u) = true
  /\ valid_access_token_hash claims token_response alg = true
  /\ exists (read issued_at : Z), logged (Core Now) read ∈ l /\ issued_at_of claims = Some issued_at
       /\ (issued_at <= read / 1000 + ID_TOKEN_CLOCK_SKEW)%Z.

Lemma claims_for_login u nonce l token_response claims alg read :
  logged (Core Now) read ∈ l ->
  id_token_claims_ok u claims token_response alg nonce (read / 1000) = true ->
  for_this_login u nonce l token_response claims alg.
Proof.
  intros Hin Hok. unfold id_token_claims_ok in Hok. fold (issued_at_of claims) in Hok.
  rewrite !andb_true_iff in Hok. destruct Hok as [[[[Hsub Hiat] Hn] Hp] Hh].
  destruct (get_str claims "sub") as [subject|] eqn:Es; [|done]. apply negb_true_iff in Hsub.
  destruct (issued_at_of claims) as [iat|] eqn:Ei; [|done]. apply Z.leb_le in Hiat.
  unfold for_this_login. rewrite Es, Ei. split_and!; [by exists subject| |done|done|by exists read, iat].
  intros expected ->. by apply bool_decide_eq_true in Hn.
Qed.

Lemma runs_validation r u response nonce l :
  policy_applies r response = true -> runs (validate_id_token_policy cfg r u response nonce) l (Ok tt) ->
  exists token_response claims alg, id_token_verified r u response l token_response claims alg
    /\ for_this_login u nonce l token_response claims alg /\ claims_admitted r claims.
Proof.
  intros Hp. unfold validate_id_token_policy. rewrite Hp. cbn [negb].
  destruct (from_slice (body response)) as [token_response|] eqn:Eb; cbn [ok_or]; [|by intros []].
  destruct (get_str token_response "id_token") as [id_token|] eqn:Ei; cbn [ok_or]; [|by intros []].
  destruct (decode_header id_token) as [[alg kid]|] eqn:Eh; cbn [ok_or]; [|by intros []]. cbn [fst snd].
  case_bool_decide as Ha; cbn [negb]; [|by intros []].
  intros ([keys|e] & lk & l2 & -> & Hk & Hr)%runs_bind_ok; [|by destruct Hr].
  destruct (select_key keys kid) as [jk|] eqn:Es; simpl in Hr; [|by destruct Hr].
  destruct (from_jwk jk) as [key|] eqn:Ef; simpl in Hr; [|by destruct Hr].
  destruct Hr as (read & l3 & -> & Hr). destruct (jwt_decode _ _ _ _) as [claims|] eqn:Ed; simpl in Hr; [|by destruct Hr].
  destruct Hr as (read2 & l4 & -> & [-> Hr]).
  destruct (id_token_claims_ok u claims token_response alg nonce (read2 / 1000)) eqn:Ec; [|done].
  destruct (policy_matches r claims) eqn:Em; [|done].
  exists token_response, claims, alg. split_and!.
  - exists id_token, kid, keys, jk, key, read, lk. split_and!; try done.
    + intros x Hx. by apply elem_of_app; left.
    + apply elem_of_app; right. apply list_elem_of_here.
  - eapply claims_for_login; [|exact Ec]. apply elem_of_app; right. apply list_elem_of_further, list_elem_of_here.
  - by apply policy_matches_admitted.
Qed.

Lemma finished_success r envelope sealed_body l resp :
  runs (finish_redemption cfg r envelope sealed_body) l resp -> succeeds resp ->
  success_status (status (ce_upstream_response envelope)) = true.
Proof.
  unfold finish_redemption. cbv zeta. destruct (mode (refresh_tokens r)).
  - intros [_ ->] Hs. by apply succeeds_stored in Hs.
  - intros [_ ->] Hs. apply succeeds_stored in Hs. by destruct sealed_body.
  - destruct (rotator cfg r _) as [rot|]; [|by intros [_ ->]].
    intros (o & l1 & l2 & -> & _ & [_ ->])%runs_bind Hs.
    destruct o as [[b|]|[]]; try done; by apply succeeds_stored in Hs.
Qed.

Lemma admission_applies r response :
  has_admission r -> success_status (status response) = true -> policy_applies r response = true.
Proof.
  intros Ha Hs. unfold policy_applies, success_status in *.
  apply andb_true_iff. split; [|unfold status_valid, status_success; lia].
  apply negb_true_iff, andb_false_iff. rewrite !bool_decide_eq_false. exact Ha.
Qed.
End Admission.

(** C12: tokens leave only with an admitted ID token. When a relay has required claims or an ID
    token policy and a code redemption succeeds, the upstream's response to that login carries an
    ID token; it is signed with an accepted algorithm by a key that this request obtained as a
    key of the upstream, and verifies at a time this request read, for the upstream's issuer and
    the relay's client; it repeats the nonce of the authorization, matches the access token it
    names and is not from the future; and its claims meet every required claim and the policy. *)
Theorem redemption_admitted {U : UrlLib} {L : PathLayout} {J : JsonLib} {HL : HeaderLib} {F : FormLib}
    {SH : Sha256} {SH2 : Sha2} {B : Base64} {BS : Base64Std} {JW : JwtLib} {PF : Postcard FlowEnvelope}
    {PC : Postcard CodeEnvelope} {PH : Postcard OpenedHandle} {PR : Postcard HandleRecord}
    {PS : Postcard StoredResponse} cfg r u form l resp :
  has_admission r -> runs (exchange_sealed_code cfg r u form) l resp -> succeeds resp ->
  exists code b envelope token_response claims alg,
    tk_code form = Some code
    /\ logged (Core (UnsealCall code (into_bytes (key_str (relay_key r))))) (Ok b) ∈ l
    /\ from_postcard b = Some envelope
    /\ id_token_verified cfg r u (ce_upstream_response envelope) l token_response claims alg
    /\ for_this_login u (ce_id_token_nonce envelope) l token_response claims alg
    /\ claims_admitted r claims.
Proof.
  intros Ha Hr Hs. apply runs_exchange in Hr as (code & b & now & envelope & l2 & Hc & -> & Hb & _ & _ & _ & Hr); [|done].
  apply runs_redeem in Hr as (l3 & l4 & l5 & l6 & sb & v & -> & Hv & -> & _ & _ & Hf); [|done].
  apply runs_validation in Hv as (tr & claims & alg & Hver & Hlog & Hadm);
    [|eapply admission_applies; [done|by eapply finished_success]].
  assert (forall x, x ∈ l3 ->
    x ∈ [logged (Core (UnsealCall code (into_bytes (key_str (relay_key r))))) (Ok b); logged (Core Now) now]
        ++ l3 ++ l4 ++ l5 ++ l6)%list as Hin.
  { intros x Hx. apply elem_of_app; right. by apply elem_of_app; left. }
  exists code, b, envelope, tr, claims, alg. split_and!; try done.
  - apply list_elem_of_here.
  - destruct Hver as (id & kid & keys & jk & key & read & lk & ? & ? & ? & ? & ? & Hlk & ? & ? & Hread & ?).
    exists id, kid, keys, jk, key, read, lk. split_and!; auto.
  - destruct Hlog as (? & ? & ? & ? & read & iat & Hread & ? & ?). split_and!; try done. exists read, iat. auto.
Qed.
