(* ===== verification/AssertionSafety.v ===== *)
(** * AssertionSafety: client assertions are used once

    What a successful token request of a [private_key_jwt] relay proves about the assertion it
    presented: which checks it passed ([runs_assertion]), and, when the relay asks for single use,
    that the assertion is accepted once while it is valid ([assertion_accepted_once]). The marker
    of [single_use] is written for the rest of the assertion's validity, so that a second marker
    under the same key comes when no verification accepts the assertion any more; the contract
    of [Store] and the laws of [Jwt] carry the argument. *)

From S2P Require Import Prelude Text Json Url Model Layout Store Seal Prog Effects RefreshHandle.
From S2P Require Import Rotation Requests Jwt Web Flows Grants CodeSafety.
#[local] Open Scope string_scope.
#[local] Open Scope prog_scope.

Section Assertions.
Context {U : UrlLib} {L : PathLayout} {J : JsonLib} {HL : HeaderLib} {F : FormLib}.
Context {SH : Sha256} {SH2 : Sha2} {B : Base64} {BS : Base64Std} {JW : JwtLib}.
Context {PF : Postcard FlowEnvelope} {PC : Postcard CodeEnvelope}.
Context {PH : Postcard OpenedHandle} {PR : Postcard HandleRecord} {PS : Postcard StoredResponse}.
Context (cfg : RelayConfig).

(** The store key of an assertion's marker. *)
Definition assertion_marker (issuer subject audience jti : string) : string :=
  REPLAY_ASSERTION_PREFIX +:+ b64_encode (sha256 (assertion_identity issuer subject audience jti)).

(** How long the marker is kept, when the clock shows [now] seconds. *)
Definition marker_secs (expires_at now : Z) : Z :=
  saturating_add (saturating_sub (saturating_add expires_at LEEWAY) now) 1.

(** The marker is gone only when no verification accepts the assertion, at a clock of 64 bits. *)
Lemma marker_outlives expires_at read first second now :
  (0 <= read)%Z -> (from_millis read <= first)%Z ->
  (first + from_secs (marker_secs expires_at (read / 1000)) <= second)%Z ->
  (second / from_secs 1 <= now < u64_max)%Z -> (expires_at + LEEWAY < now)%Z.
Proof.
  intros Hr Hf Hs [Hn Hu]. unfold marker_secs, saturating_add, saturating_sub, from_millis, from_secs in *.
  assert (second < (now + 1) * 1000000000)%Z as Hlt.
  { pose proof (Z.mul_succ_div_gt second (1 * 1000000000) ltac:(lia)). lia. }
  assert (1000 * (read / 1000) <= read)%Z as Hd by (apply Z.mul_div_le; lia).
  assert (0 <= read / 1000)%Z by (apply Z.div_pos; lia).
  assert (0 < u64_max)%Z by done. revert Hs. generalize (read / 1000)%Z u64_max LEEWAY Hd H H0 Hu. intros; lia.
Qed.

(** When claims expire, as [single_use] reads it. *)
Definition expiry_of (claims : Value) : option Z := v ← get claims "exp"; as_u64 v.

(** The marker of the assertion with these claims is in the log, written by a clock that showed
    [read]. *)
Definition assertion_marked (issuer subject audience : string) (claims : Value) (l : call_log rans) : Prop :=
  exists (expires_at : Z) (jti : string) (read : Z) (m : bytes),
    expiry_of claims = Some expires_at /\ get_str claims "jti" = Some jti
    /\ logged (Core Now) read ∈ l
    /\ logged (Core (StoreCall (PutIfAbsent (assertion_marker issuer subject audience jti) m
                (from_secs (marker_secs expires_at (read / 1000)))))) (Ok true) ∈ l.

Lemma runs_single_use issuer subject audience claims l :
  runs (single_use cfg issuer subject audience claims) l true ->
  assertion_marked issuer subject audience claims l.
Proof.
  unfold single_use, assertion_marked. destruct (v ← get claims "iat"; as_u64 v) as [iat|]; [|by intros []].
  fold (expiry_of claims). destruct (expiry_of claims) as [exp|]; [|by intros []].
  destruct (get_str claims "jti") as [jti|]; [|by intros []].
  destruct (_ || _ || _ || _); [by intros []|]. unfold unix_now, do_core.
  intros (read & l1 & -> & m & l2 & -> & a & l3 & -> & -> & Ha). destruct a as [b|]; [subst b|done].
  exists exp, jti, read, m. split_and!; [done|done|apply list_elem_of_here|].
  do 2 apply list_elem_of_further. apply list_elem_of_here.
Qed.

(** An accepted assertion: its key verified it, it names the client and the relay, and it is
    marked where the relay asks for single use. *)
Definition accepted_assertion (audience issuer subject assertion : string) (single : bool)
    (l : call_log rans) : Prop :=
  exists alg kid (read : Z) key claims,
    decode_header assertion = Some (alg, kid) /\ alg ∈ client_assertion_algorithms
    /\ logged (Core Now) read ∈ l
    /\ jwt_decode (read / 1000) assertion key (assertion_validation alg) = Some claims
    /\ get_str claims "iss" = Some issuer /\ get_str claims "sub" = Some subject
    /\ audience_ok claims audience = true
    /\ (single = true -> assertion_marked issuer subject audience claims l).

Lemma assertion_marked_in issuer subject audience claims l l' :
  (forall x, x ∈ l -> x ∈ l') ->
  assertion_marked issuer subject audience claims l -> assertion_marked issuer subject audience claims l'.
Proof. intros Hl (e & jti & read & m & He & Hj & Hr & Hp). exists e, jti, read, m. auto. Qed.

Lemma accepted_assertion_in audience issuer subject assertion single l l' :
  (forall x, x ∈ l -> x ∈ l') -> accepted_assertion audience issuer subject assertion single l ->
  accepted_assertion audience issuer subject assertion single l'.
Proof.
  intros Hl (alg & kid & read & key & claims & Hh & Ha & Hr & Hd & Hi & Hs & Hau & Hm).
  exists alg, kid, read, key, claims. split_and!; auto. intros H. eapply assertion_marked_in; eauto.
Qed.

Lemma runs_assertion relay audience issuer subject source assertion single l :
  runs (verify_private_key_jwt cfg relay audience issuer subject source assertion single) l true ->
  accepted_assertion audience issuer subject assertion single l.
Proof.
  unfold verify_private_key_jwt. cbv zeta. destruct (decode_header assertion) as [[alg kid]|] eqn:Eh; [|by intros []].
  case_bool_decide as Ha; cbn [negb]; [|by intros []].
  intros (remote & l1 & l2 & -> & _ & Hr)%runs_bind. destruct remote as [remote|]; [|by destruct Hr].
  apply runs_bind in Hr as (set & l3 & l4 & -> & _ & Hr).
  destruct (set ← set; key ← select_key set kid; from_jwk key) as [key|]; [|by destruct Hr].
  destruct Hr as (read & l5 & -> & Hr). cbn [bind] in Hr.
  destruct (jwt_decode _ assertion key _) as [claims|] eqn:Ed; [|by destruct Hr].
  destruct (negb (bool_decide (get_str claims "iss" = Some issuer) && _)) eqn:Ei; [by destruct Hr|].
  apply negb_false_iff, andb_true_iff in Ei as [Ei Es]. apply bool_decide_eq_true in Ei, Es.
  destruct Hr as (read2 & l6 & -> & Hr). cbn [bind] in Hr.
  destruct (times_ok claims _); cbn [negb] in Hr; [|by destruct Hr].
  destruct (audience_ok claims audience) eqn:Eau; cbn [negb] in Hr; [|by destruct Hr].
  assert (forall x, x ∈ l6 -> x ∈ (l1 ++ l3 ++ logged (Core Now) read :: logged (Core Now) read2 :: l6)%list) as Hin.
  { intros x Hx. do 2 (apply elem_of_app; right). by do 2 apply list_elem_of_further. }
  exists alg, kid, read, key, claims. split_and!; try done.
  - do 2 (apply elem_of_app; right). apply list_elem_of_here.
  - intros ->. eapply assertion_marked_in; [exact Hin|]. by apply runs_single_use.
Qed.

(** What a relay with [private_key_jwt] expects of its clients. *)
Definition expected_audience (r : Relay) (audience : option string) : string :=
  default (as_str (endpoint_url cfg Token (relay_key r))) audience.

Lemma with_cors_status resp origin : rs_status (with_cors resp origin) = rs_status resp.
Proof. by destruct origin. Qed.

Lemma runs_token_assertion r u headers b form l resp single client_id issuer subject audience jwks assertion :
  client_auth r = PrivateKeyJwt single client_id issuer subject audience jwks ->
  parse_token_request b = Ok form -> tk_client_assertion form = Some assertion ->
  runs (token cfg r u headers (Some b)) l resp -> succeeds resp ->
  accepted_assertion (expected_audience r audience) (default client_id issuer) (default client_id subject)
    assertion single l.
Proof.
  intros Hca Hp Hta Hr Hs. unfold token in Hr. rewrite Hp in Hr. cbv zeta in Hr.
  apply runs_bind in Hr as (auth & l1 & l2 & -> & Hauth & Hr).
  unfold authenticate in Hauth. rewrite Hca, Hta in Hauth.
  assert (forall f, auth = Err (InvalidClient f) -> False) as Hno.
  { intros f ->. destruct Hr as [_ ->]. unfold succeeds in Hs. rewrite with_cors_status in Hs. by destruct f. }
  destruct (_ || _); [destruct Hauth as [_ ->]; by edestruct Hno|].
  apply runs_bind in Hauth as (ok & l3 & l4 & -> & Hv & [-> ->]).
  destruct ok; [|by edestruct Hno]. eapply accepted_assertion_in; [|by eapply runs_assertion].
  intros x Hx. rewrite app_nil_r. by apply elem_of_app; left.
Qed.
End Assertions.

(** C13: a single-use client assertion is accepted once. When two token requests of a
    [private_key_jwt] relay that asks for single use present the same assertion and succeed, each
    has written a replay marker, under the same key; and in every history of a store that meets
    the contract, with nobody deleting or swapping that key and a store clock that is not behind
    the clock the first request read, the second marker is written when the assertion has expired:
    from that second on no verification accepts it, whatever the key and the validation. *)
Theorem assertion_accepted_once {U : UrlLib} {L : PathLayout} {J : JsonLib} {HL : HeaderLib} {F : FormLib}
    {SH : Sha256} {SH2 : Sha2} {B : Base64} {BS : Base64Std} {JW : JwtLib} {JWL : JwtLaws JW}
    {PF : Postcard FlowEnvelope} {PC : Postcard CodeEnvelope} {PH : Postcard OpenedHandle}
    {PR : Postcard HandleRecord} {PS : Postcard StoredResponse}
    cfg r u u' headers headers' b b' form form' l l' resp resp' assertion client_id issuer subject audience jwks :
  client_auth r = PrivateKeyJwt true client_id issuer subject audience jwks ->
  parse_token_request b = Ok form -> tk_client_assertion form = Some assertion ->
  parse_token_request b' = Ok form' -> tk_client_assertion form' = Some assertion ->
  runs (token cfg r u headers (Some b)) l resp -> succeeds resp ->
  runs (token cfg r u' headers' (Some b')) l' resp' -> succeeds resp' ->
  exists (k : string) (m m' : bytes) (ttl ttl' : Duration) (read : Z),
    logged (Core Now) read ∈ l
    /\ logged (Core (StoreCall (PutIfAbsent k m ttl))) (Ok true) ∈ l
    /\ logged (Core (StoreCall (PutIfAbsent k m' ttl'))) (Ok true) ∈ l'
    /\ forall slack t st first history second now key v,
         (0 <= read)%Z -> (from_millis read <= first)%Z ->
         spec_run slack t st
           ({| at_time := first; Store.call := PutIfAbsent k m ttl; answer := Ok true |} :: history) ->
         (forall e, e ∈ history -> replaces k (Store.call e) = false) ->
         {| at_time := second; Store.call := PutIfAbsent k m' ttl'; answer := Ok true |} ∈ history ->
         (second / from_secs 1 <= now < u64_max)%Z -> jwt_decode now assertion key v = None.
Proof.
  intros Hca Hp Ha Hp' Ha' Hr Hs Hr' Hs'.
  eapply runs_token_assertion in Hr as (alg & kid & rd & key & claims & _ & _ & _ & Hd & _ & _ & _ & Hm); [|done..].
  eapply runs_token_assertion in Hr' as (alg' & kid' & rd' & key' & claims' & _ & _ & _ & Hd' & _ & _ & _ & Hm'); [|done..].
  pose proof (decode_claims _ _ _ _ _ _ _ _ _ Hd Hd') as <-.
  destruct (Hm eq_refl) as (exp & jti & read & m & He & Hj & Hread & Hin).
  destruct (Hm' eq_refl) as (exp' & jti' & read' & m' & He' & Hj' & _ & Hin').
  rewrite He in He'. rewrite Hj in Hj'. injection He' as <-. injection Hj' as <-.
  eexists _, m, m', _, _, read. split; [exact Hread|]. split; [exact Hin|]. split; [exact Hin'|].
  intros slack t st first history second now k v Hpos Hfirst Hrun Hrep Hsec Hnow.
  destruct (jwt_decode now assertion k v) as [c|] eqn:Ec; [|done]. exfalso.
  pose proof (decode_claims _ _ _ _ _ _ _ _ _ Hd Ec) as <-.
  pose proof (decode_exp _ _ _ _ _ _ Ec He) as Hexp.
  enough (exp + LEEWAY < now)%Z by lia. eapply marker_outlives; [exact Hpos|exact Hfirst| |exact Hnow].
  inversion Hrun as [|??? st' ? Ht Hstep Hrun']; subst. simpl in *.
  eapply puts_apart; [exact Hrun'| |exact Hrep|exact Hsec].
  apply answered_ok, spec_step_inv in Hstep as (_ & e & [Hf _] & ->). exists e. by rewrite lookup_insert_eq.
Qed.
