(* ===== verification/TokenSafety.v ===== *)
(** * TokenSafety: concurrent HTTP requests at a rotating relay

    [RotationSafety] is about the calls of the rotator. This file puts the rotator back where it
    runs: any number of HTTP requests are dispatched at once, at every endpoint of one relay and at
    the callbacks of its upstreams, and their steps interleave. The handlers share the store, the
    random generator and the sealer with the rotators of the other requests. [calm] is what the
    rotation protocol needs of the calls around it; [serves_lift] carries its guarantees through
    [lift_with], so under the timeouts and with the upstream requests of the router inside. *)

From S2P Require Import Prelude Text Json Url Model Layout Store Seal Prog Effects RefreshHandle.
From S2P Require Import Rotation RotationSafety Requests Jwt Web Flows Grants Router CodeSafety.
#[local] Open Scope string_scope.
#[local] Open Scope prog_scope.

Section Service.
Context {U : UrlLib} {L : PathLayout} {J : JsonLib} {JL : JsonLaws J} {HL : HeaderLib} {F : FormLib}.
Context {H : Sha256} {HC : CollisionFree H} {H2 : Sha2} {B : Base64} {BL : Base64Laws B} {BS : Base64Std}.
Context {JW : JwtLib} {PF : Postcard FlowEnvelope} {PC : Postcard CodeEnvelope}.
Context {PH : Postcard OpenedHandle} {PR : Postcard HandleRecord} {PS : Postcard StoredResponse}.
Context {PRL : PostcardLaws HandleRecord} {PSL : PostcardLaws StoredResponse}.
Context {S : Type} {SL : Sealer S} {SLL : SealerLaws S} (sealer : S) (slack : Z).
Context (cfg : RelayConfig) (r : Relay) (u : Upstream).

(** The rotator of the relay's refresh requests. *)
Definition relay_rotator : Rotator := Rotator_new (HandleBinding_new r u) (refresh_tokens r).
Notation self := relay_rotator.
Notation Inv := (RotationSafety.Inv sealer self).
Notation rely := (RotationSafety.rely sealer self).
Notation guar := (RotationSafety.guar sealer self).
Notation quiet := (RotationSafety.quiet sealer self).
Notation Stable := (RotationSafety.Stable sealer self).

(** ** The world of the handlers

    The calls of the rotator act as in [Effects]. The registry knows the relay as [r] and its
    upstream as [u], or fails; of any other key it may say anything. The policy, the caches and the
    answers of upstreams are arbitrary. *)
Fixpoint rhandle (i : nat) (w : World) (e : reff) : rans e -> World -> Prop :=
  match e with
  | Core e => handle sealer slack i w e
  | ResolveRelay k => fun a w' => w' = w /\ (k = relay_key r -> forall r', a = Ok (Some r') -> r' = r)
  | ResolveUpstream k => fun a w' => w' = w /\ (k = relay_upstream r -> forall u', a = Ok (Some u') -> u' = u)
  | Within _ e => fun o w' =>
      match o with
      | Some a => rhandle i w e a w'
      | None => w' = w \/ exists a, rhandle i w e a w'
      end
  | _ => fun _ w' => w' = w
  end.

(** ** Calls that the protocol does not notice *)

Definition calm (e : reff) : Prop :=
  forall i w a w', Inv w -> rhandle i w e a w' -> quiet i w w'.

Lemma quiet_none i w : quiet i w w.
Proof. by apply quiet_same. Qed.

Lemma calm_within d e : calm e -> calm (Within d e).
Proof.
  intros He i w [a|] w' Hi Hh; [by eapply He|]. destruct Hh as [->|[a Hh]]; [apply quiet_none|by eapply He].
Qed.

(** Everything that is neither a store call nor under a timeout. *)
Definition idle (e : reff) : Prop :=
  match e with
  | Core (SleepUntil _) | Core (StoreCall _) | Core (RefreshCall _) | Core (Timeout _ _) | Within _ _ => False
  | _ => True
  end.

Lemma calm_idle e : idle e -> calm e.
Proof.
  intros He i w a w' Hi Hh. destruct e as [[]| | | | | | | | | | | | |]; try done; simpl in Hh;
    try (subst; apply quiet_none); try (destruct Hh as [? ?]; subst; apply quiet_none).
  destruct Hh as (_ & Hf & ->). by apply draw_quiet.
Qed.

(** Keys of the store that the rotator does not use. *)
Definition foreign (k : string) : Prop := ~ is_handle_key self k /\ ~ is_grace_key self k.

Lemma calm_put k v ttl : foreign k -> calm (Core (StoreCall (PutIfAbsent k v ttl))).
Proof.
  intros [Hh Hg] i w a w' Hi Ha.
  apply store_handle_effect in Ha as [[-> _]|(b & Hb & _)]; [apply quiet_none|].
  simpl in Hb. destruct b; [destruct Hb as [e ->]; by apply quiet_put|subst; apply quiet_none].
Qed.

Lemma foreign_code x : foreign (REPLAY_CODE_PREFIX +:+ x).
Proof. split; [intros [h Heq]|intros (h & c & Heq)]; discriminate Heq. Qed.
Lemma foreign_assertion x : foreign (REPLAY_ASSERTION_PREFIX +:+ x).
Proof. split; [intros [h Heq]|intros (h & c & Heq)]; discriminate Heq. Qed.

Lemma calm_call e : calm e -> every calm (call e : rio (rans e)).
Proof. done. Qed.

Lemma calm_await e : idle e -> every calm (call e : rio (rans e)).
Proof. intros He. apply calm_call, calm_idle, He. Qed.

(** ** Triples for the handlers *)

Definition serves (i : nat) (K : World -> Prop) {A} (p : rio A) (Q : A -> World -> Prop) : Prop :=
  forall w, Inv w -> K w -> safe (rhandle i) (rely i) (guar i) p (fun a w' => Inv w' /\ Q a w') w.

#[local] Existing Instance RotationSafety.rely_pre.

Lemma stable_true i P : Stable i (fun _ => P).
Proof. by intros w w'. Qed.

Lemma serves_ret i K {A} (a : A) (Q : A -> World -> Prop) :
  Stable i K -> (forall w, Inv w -> K w -> Q a w) -> serves i K (Ret a) Q.
Proof.
  intros HK HQ w Hi Hk w1 Hr. pose proof (rely_inv _ _ _ _ _ Hr Hi) as Hi1.
  split; [done|]. apply HQ; [done|]. exact (HK _ _ Hi Hr Hk).
Qed.

Lemma serves_bind i K {A C} (p : rio A) (f : A -> rio C) Q R :
  serves i K p Q -> (forall a, serves i (Q a) (f a) R) -> serves i K (bind p f) R.
Proof.
  intros Hp Hf w Hi Hk. apply safe_bind; [apply _|]. eapply safe_mono; [|by apply Hp].
  intros a w' [Hi' HQ]. by apply Hf.
Qed.

Lemma serves_post i K {A} (p : rio A) (Q Q' : A -> World -> Prop) :
  serves i K p Q -> (forall a w, Inv w -> Q a w -> Q' a w) -> serves i K p Q'.
Proof.
  intros Hp HQ w Hi Hk. eapply safe_mono; [|by apply Hp]. intros a w' [Hi' Hq]. auto.
Qed.

Lemma serves_map i K {A C} (p : rio A) (f : A -> C) Q (R : C -> World -> Prop) :
  serves i K p Q -> (forall a w, Inv w -> Q a w -> R (f a) w) -> serves i K (a <- p ;; Ret (f a)) R.
Proof.
  intros Hp HR w Hi Hk. specialize (Hp w Hi Hk). clear Hi Hk K. revert w Hp.
  induction p as [a|e k IH]; intros w Hp.
  - intros w1 Hr. destruct (Hp w1 Hr) as [Hi Hq]. auto.
  - intros w1 a w2 Hr Hh. destruct (Hp w1 a w2 Hr Hh) as [Hg Hs]. auto.
Qed.

(** Calm programs keep what is stable. *)
Lemma serves_calm i K {A} (p : rio A) : Stable i K -> every calm p -> serves i K p (fun _ w => K w).
Proof.
  intros HK. induction p as [a|e k IH]; intros Hc; [by apply serves_ret|].
  destruct Hc as [He Hk]. intros w Hi Hw w1 a w2 Hr Hh.
  pose proof (rely_inv _ _ _ _ _ Hr Hi) as Hi1. destruct (He _ _ _ _ Hi1 Hh) as [Hr2 Hg]. split; [done|].
  apply IH; [done|by apply Hg|]. exact (HK _ _ Hi1 Hr2 (HK _ _ Hi Hr Hw)).
Qed.

(** Every result of [p], whatever its calls are answered, satisfies [P]. *)
Fixpoint yields {A} (P : A -> Prop) (p : rio A) : Prop :=
  match p with
  | Ret a => P a
  | Op e k => forall a, yields P (k a)
  end.

Lemma yields_any {A} (p : rio A) : yields (fun _ => True) p.
Proof. induction p as [a|e k IH]; [done|exact IH]. Qed.

Lemma yields_bind {A C} (P : C -> Prop) (p : rio A) (f : A -> rio C) :
  (forall a, yields P (f a)) -> yields P (bind p f).
Proof. intros Hf. induction p as [a|e k IH]; [apply Hf|exact IH]. Qed.

(** What comes after a calm program. *)
Lemma serves_after_result i {A C} (P : A -> Prop) (p : rio A) (f : A -> rio C) Q :
  every calm p -> yields P p -> (forall a, P a -> serves i (fun _ => True) (f a) Q) ->
  serves i (fun _ => True) (bind p f) Q.
Proof.
  intros Hc Hy Hf. induction p as [a|e k IH]; [by apply Hf|]. destruct Hc as [He Hk].
  intros w Hi Hw w1 a w2 Hr Hh. pose proof (rely_inv _ _ _ _ _ Hr Hi) as Hi1.
  destruct (He _ _ _ _ Hi1 Hh) as [_ Hg]. split; [done|]. apply IH; [done..|by apply Hg|done].
Qed.

Lemma serves_after i {A C} (p : rio A) (f : A -> rio C) Q :
  every calm p -> (forall a, serves i (fun _ => True) (f a) Q) -> serves i (fun _ => True) (bind p f) Q.
Proof. intros Hp Hf. apply (serves_after_result i (fun _ => True) p); [done|apply yields_any|auto]. Qed.

(** A call, and what its answer says. *)
Lemma serves_call i e (Q : rans e -> Prop) {C} (f : rans e -> rio C) R :
  calm e -> (forall w a w', rhandle i w e a w' -> Q a) ->
  (forall a, Q a -> serves i (fun _ => True) (f a) R) ->
  serves i (fun _ => True) (a <- call e ;; f a) R.
Proof.
  intros He HQ Hf w Hi Hk w1 a w2 Hr Hh. pose proof (rely_inv _ _ _ _ _ Hr Hi) as Hi1.
  destruct (He _ _ _ _ Hi1 Hh) as [_ Hg]. split; [done|]. apply Hf; [by eapply HQ|by apply Hg|done].
Qed.

(** ** Lifting the rotator

    A call of the rotator becomes a program: under a timeout it may be cut off, and a refresh is
    the router's requests to the upstream. [steps i N] is the guarantee that also keeps [N], which
    is what must hold wherever the program may be cut off. *)

Definition steps (i : nat) (N : World -> Prop) (w w' : World) : Prop := guar i w w' /\ N w'.

Definition steady (i : nat) (N : World -> Prop) : Prop := forall w w', rely i w w' -> N w -> N w'.

Lemma steps_weaken i N {A} (p : rio A) Q w :
  safe (rhandle i) (rely i) (steps i N) p Q w -> safe (rhandle i) (rely i) (guar i) p Q w.
Proof.
  revert w. induction p as [a|e k IH]; intros w Hs; [exact Hs|]. intros w1 a w2 Hr Hh.
  destruct (Hs w1 a w2 Hr Hh) as [[Hg _] Hk]. auto.
Qed.

(** A program that may be cut off anywhere. *)
Lemma steps_within i d N {A} (p : rio A) (R : option A -> World -> Prop) w :
  steady i N -> (forall w', N w' -> R None w') -> N w ->
  safe (rhandle i) (rely i) (steps i N) p (fun a w' => R (Some a) w') w ->
  safe (rhandle i) (rely i) (steps i N) (within d p) R w.
Proof.
  intros HN HR. revert w. induction p as [a|e k IH]; intros w Hw Hs; [exact Hs|].
  intros w1 o w2 Hr Hh. pose proof (HN _ _ Hr Hw) as Hw1. destruct o as [a|]; simpl in Hh.
  - destruct (Hs w1 a w2 Hr Hh) as [[Hg Hw2] Hk]. split; [by split|]. by apply IH.
  - assert (steps i N w1 w2) as [Hg Hw2].
    { destruct Hh as [->|[a Hh]]; [split; [apply quiet_none|done]|]. by apply (Hs w1 a w2 Hr Hh). }
    split; [by split|]. intros w3 Hr3. apply HR. by eapply HN.
Qed.

Lemma steps_calm i N {A} (p : rio A) w :
  steady i N -> (forall w', N w' -> Inv w') -> every calm p -> N w ->
  safe (rhandle i) (rely i) (steps i N) p (fun _ w' => N w') w.
Proof.
  intros HN HI. revert w. induction p as [a|e k IH]; intros w Hc Hw; [intros w1 Hr; by eapply HN|].
  destruct Hc as [He Hk]. intros w1 a w2 Hr Hh. pose proof (HN _ _ Hr Hw) as Hw1.
  destruct (He _ _ _ _ (HI _ Hw1) Hh) as [Hr2 Hg]. pose proof (HN _ _ Hr2 Hw1) as Hw2.
  split; [by split|]. by apply IH.
Qed.

Section Lifted.
Context (refresher : string -> rio (result StoredResponse UpstreamFailure)).
Context (Hcalm : forall t, every calm (refresher t)).

Lemma steps_lift_eff i e N (R : ans e -> World -> Prop) w :
  steady i N -> (forall w', N w' -> Inv w') -> (forall a, steady i (R a)) -> N w ->
  (forall w1 a w2, rely i w w1 -> handle sealer slack i w1 e a w2 -> steps i N w1 w2 /\ R a w2) ->
  safe (rhandle i) (rely i) (steps i N) (lift_eff refresher e) R w.
Proof.
  revert N R w. induction e as [| | | | | | |token|d e IH]; intros N R w HN HI HR Hw He; simpl lift_eff;
    try (intros w1 a w2 Hr Hh; destruct (He w1 a w2 Hr Hh) as [Hs Ha]; (split; [exact Hs|]);
         intros w3 Hr3; exact (HR a _ _ Hr3 Ha)).
  - assert (Hask : forall w1, rely i w w1 -> N w1 /\ forall a, R a w1).
    { intros w1 Hr. split; [by eapply HN|]. intros a.
      destruct (He w1 a (ask w1 token) Hr eq_refl) as [_ Ha]. refine (HR a _ _ _ Ha).
      by apply (quiet_same sealer self). }
    pose (N' := fun w' => N w' /\ forall a, R a w').
    assert (steady i N') as HN'.
    { intros w1 w2 Hr [H1 H2']. split; [by eapply HN|]. intros a. exact (HR a _ _ Hr (H2' a)). }
    assert (safe (rhandle i) (rely i) (steps i N') (refresher token) (fun _ w' => N' w') w) as Hs.
    { apply steps_calm; [done|by intros w' [? _]; apply HI|done|by apply Hask]. }
    clear -Hs. revert w Hs. induction (refresher token) as [a|e k IH]; intros w Hs.
    + intros w1 Hr. apply (Hs w1 Hr).
    + intros w1 a w2 Hr Hh. destruct (Hs w1 a w2 Hr Hh) as [[Hg [Hn _]] Hk]. split; [by split|]. by apply IH.
  - pose (N' := fun w' => N w' /\ R None w').
    assert (steady i N') as HN'.
    { intros w1 w2 Hr [H1 H2']. split; [by eapply HN|exact (HR None _ _ Hr H2')]. }
    assert (N' w) as Hw'.
    { destruct (He w None w) as [[_ Hn] Ha]; [done|by left|]. by split. }
    assert (safe (rhandle i) (rely i) (steps i N') (within d (lift_eff refresher e)) R w) as Hs.
    { apply steps_within; [done|by intros w' [_ ?]|done|].
      apply (IH N' (fun a w' => R (Some a) w')); [done|by intros w' [? _]; apply HI|by intros a; apply HR|done|].
      intros w1 a w2 Hr Hh. destruct (He w1 (Some a) w2 Hr Hh) as [[Hg Hn] Ha].
      destruct (He w1 None w2 Hr) as [_ Hnone]; [right; by exists a|]. by split_and!. }
    clear -Hs. revert w Hs. induction (within d (lift_eff refresher e)) as [a|e' k IH']; intros w Hs; [exact Hs|].
    intros w1 a w2 Hr Hh. destruct (Hs w1 a w2 Hr Hh) as [[Hg [Hn _]] Hk]. split; [by split|]. by apply IH'.
Qed.

Lemma serves_lift i K {A} (p : io A) Q :
  triple sealer slack self i K p Q -> serves i K (lift_with refresher p) Q.
Proof.
  intros Hp w Hi Hk. specialize (Hp w Hi Hk). clear Hk K. revert w Hi Hp.
  induction p as [a|e k IH]; intros w Hi Hp; [exact Hp|].
  apply safe_bind; [apply _|]. apply (steps_weaken i Inv).
  eapply safe_mono; [|apply (steps_lift_eff i e Inv
    (fun a w' => Inv w' /\ safe (handle sealer slack i) (rely i) (guar i) (k a) (fun a w' => Inv w' /\ Q a w') w'))];
    try done.
  - intros a w' [Hi' Hs]. by apply IH.
  - intros w1 w2 Hr. by apply (rely_inv _ _ _ _ _ Hr).
  - intros a w1 w2 Hr [Hi1 Hs]. split; [by eapply rely_inv|]. by eapply safe_later; [apply _|exact Hr|].
  - intros w1 a w2 Hr Hh. destruct (Hp w1 a w2 Hr Hh) as [Hg Hs].
    assert (Inv w2) by (apply Hg; by eapply rely_inv). by split_and!.
Qed.
End Lifted.

(** ** The handlers around the rotator *)

(** One step through a handler: its calls, the programs it is made of, its case distinctions. *)
Ltac calm_step :=
  first
  [ exact I
  | by apply calm_await
  | apply every_bind_ok; [|intros ?]
  | apply every_bind; [|intros ?]
  | match goal with |- every _ (match ?x with _ => _ end) => destruct x end ].
Ltac calm := repeat (calm_step || (progress (cbv zeta)) || (progress (unfold do_core))).

Lemma calm_now : every calm unix_now.
Proof. unfold unix_now. calm. Qed.

Lemma calm_send c request purpose scope : every calm (send_checked cfg c request purpose scope).
Proof. unfold send_checked. calm. Qed.

Lemma calm_fetch c scope url purpose : every calm (fetch_json_object cfg c scope url purpose).
Proof. unfold fetch_json_object. apply every_bind; [apply calm_send|done]. Qed.

Lemma calm_cached_fresh c key ttl : every calm (cached_fresh c key ttl).
Proof. unfold cached_fresh. calm. Qed.

Lemma calm_cache_insert c key v : every calm (cache_insert c key v).
Proof. unfold cache_insert. calm. Qed.

Create HintDb calm discriminated.
#[local] Hint Resolve calm_now calm_send calm_fetch calm_cached_fresh calm_cache_insert : calm.
Ltac calm_with := repeat (solve [auto with calm] || calm_step || (progress (cbv zeta)) || (progress (unfold do_core))).

Lemma calm_cached_json cache c scope url ttl purpose :
  every calm (cached_json_with_client cfg cache c scope url ttl purpose).
Proof. unfold cached_json_with_client. calm_with. Qed.

Lemma calm_cached scope url ttl purpose : every calm (cached_json cfg scope url ttl purpose).
Proof. apply calm_cached_json. Qed.

Lemma calm_optional_discovery r' u' : every calm (optional_discovery cfg r' u').
Proof. unfold optional_discovery. calm_with. Qed.
#[local] Hint Resolve calm_cached_json calm_cached calm_optional_discovery : calm.

Lemma calm_endpoints r' u' : every calm (resolve_endpoints cfg r' u').
Proof. unfold resolve_endpoints. calm_with. Qed.

Lemma calm_jwks_uri r' u' : every calm (resolve_jwks_uri cfg r' u').
Proof. unfold resolve_jwks_uri. calm_with. Qed.

Lemma calm_assertion_jwks scope url kid : every calm (client_assertion_jwks cfg scope url kid).
Proof. unfold client_assertion_jwks, keys_under_lock, current_keys, cooling, fetch_keys. calm_with. Qed.

Lemma calm_seal_postcard {T} {P : Postcard T} key (v : T) : every calm (seal_postcard key v).
Proof. unfold seal_postcard. calm_with. Qed.

Lemma calm_unseal_postcard {T} {P : Postcard T} key v : every calm (unseal_postcard key v : rio (result T _)).
Proof. unfold unseal_postcard. calm_with. Qed.

Lemma calm_fresh issued ttl : every calm (fresh issued ttl).
Proof. unfold fresh. calm_with. Qed.

Lemma calm_token_request r' u' e form purpose :
  every calm (send_upstream_token_request cfg r' u' e form purpose).
Proof. apply calm_send. Qed.
#[local] Hint Resolve calm_endpoints calm_jwks_uri calm_assertion_jwks calm_seal_postcard calm_unseal_postcard
  calm_fresh calm_token_request : calm.

Lemma calm_jwks r' u' : every calm (jwks cfg r' u').
Proof. unfold jwks. calm_with. Qed.

Lemma calm_discovery r' u' : every calm (discovery cfg r' u').
Proof. unfold discovery, discovery_source. calm_with. Qed.

Lemma calm_authorize r' u' q : every calm (authorize cfg r' u' q).
Proof. unfold authorize, random_urlsafe. calm_with. Qed.

Lemma calm_callback u' q : every calm (callback cfg u' q).
Proof. unfold callback, finish_callback, open_flow, flow_relay, exchange_code. calm_with. Qed.

Lemma calm_validate r' u' response nonce : every calm (validate_id_token_policy cfg r' u' response nonce).
Proof. unfold validate_id_token_policy, upstream_keys. calm_with. Qed.

Lemma calm_single_use issuer subject audience claims : every calm (single_use cfg issuer subject audience claims).
Proof.
  unfold single_use. calm_with. apply calm_call, calm_put, foreign_assertion.
Qed.
#[local] Hint Resolve calm_validate calm_single_use : calm.

Lemma calm_verify relay audience issuer subject source assertion single :
  every calm (verify_private_key_jwt cfg relay audience issuer subject source assertion single).
Proof. unfold verify_private_key_jwt, assertion_keys_url, assertion_keys. calm_with. Qed.
#[local] Hint Resolve calm_verify : calm.

Lemma calm_authenticate form headers : every calm (authenticate cfg r u form headers).
Proof. unfold authenticate. calm_with. Qed.

Lemma calm_mark envelope : every calm (mark_redeemed cfg envelope).
Proof. unfold mark_redeemed. calm_with. apply calm_call, calm_put, foreign_code. Qed.

Lemma calm_open_code code : every calm (open_code r code).
Proof. unfold open_code. calm_with. Qed.

Lemma calm_upstream_refresh form token : every calm (upstream_refresh cfg r u form token).
Proof. unfold upstream_refresh, send_upstream_refresh. calm_with. Qed.

(** ** What the token endpoint answers *)

(** A success that has a body: what a client takes for a token response. *)
Definition token_answer (resp : Resp) : bool :=
  status_success (rs_status resp) && negb (bool_decide (rs_body resp = [])).

(** A rotating handle made of bytes that were drawn at random. *)
Definition drawn_handle (w : World) (t : string) : Prop := exists b, t = handle_of b /\ drawn b w.

(** Every refresh token in its body, however often the member is repeated, is a drawn handle; a
    body that is no object names none. *)
Definition carries_handles (resp : Resp) (w : World) : Prop :=
  match members_from_slice (rs_body resp) with
  | Some ms => forall m t, m ∈ ms -> token_member m = Some t -> drawn_handle w t
  | None => from_slice (rs_body resp) ≫= as_object = None -> names_refresh_token (rs_body resp) = false
  end.

Lemma carries_only {JO : JsonObjects J} resp w :
  carries_handles resp w -> hands_out_only (drawn_handle w) (rs_body resp).
Proof.
  unfold carries_handles. destruct (members_from_slice (rs_body resp)) as [ms|] eqn:Em.
  - intros Hm. by eapply hands_out_only_members.
  - intros Hn. unfold hands_out_only. rewrite Em. apply unnamed_not_spelled, Hn.
    destruct (from_slice (rs_body resp) ≫= as_object) eqn:Eo; [|done].
    apply object_members in Eo as [ms Hms]. congruence.
Qed.

(** The response hands out the successor recorded for the presented handle. *)
Definition hands_successor (presented : string) (resp : Resp) (w : World) : Prop :=
  exists stored b, rs_status resp = status stored /\ rs_body resp = body stored /\ hands_out stored b /\ drawn b w
    /\ (strip_prefix HANDLE_PREFIX presented = None -> answered sealer self presented stored w).

Lemma hands_out_carries resp stored b w :
  rs_body resp = body stored -> hands_out stored b -> drawn b w -> carries_handles resp w.
Proof.
  intros Hb (_ & Hu & Ht) Hd. unfold carries_handles. rewrite Hb.
  destruct (members_from_slice (body stored)) as [ms|] eqn:Em.
  - intros m t Hin Hm. exists b. split; [by eapply Ht|done].
  - unfold upstream_refresh_token in Hu. rewrite Em in Hu. by destruct (negb _).
Qed.

Lemma successor_carries presented resp w : hands_successor presented resp w -> carries_handles resp w.
Proof. intros (stored & b & _ & Hb & Ho & Hd & _). by eapply hands_out_carries. Qed.

Lemma token_answer_cors resp origin : token_answer (with_cors resp origin) = token_answer resp.
Proof. by destruct origin. Qed.
Lemma carries_handles_cors resp origin w : carries_handles resp w -> carries_handles (with_cors resp origin) w.
Proof. by destruct origin. Qed.
Lemma successor_cors presented resp origin w :
  hands_successor presented resp w -> hands_successor presented (with_cors resp origin) w.
Proof. by destruct origin. Qed.

Lemma bare_no_answer s : token_answer (bare s) = false.
Proof. unfold token_answer. simpl. apply andb_false_r. Qed.

Lemma error_no_answer s e d : status_success s = false -> token_answer (oauth_error s e d) = false.
Proof. unfold token_answer. simpl. by intros ->. Qed.

Lemma stored_answer stored :
  token_answer (stored_response stored) = true ->
  rs_status (stored_response stored) = status stored /\ is_success stored = true.
Proof.
  unfold token_answer, stored_response, status_or_bad_gateway. cbn [rs_status rs_body].
  intros [Hs _]%andb_true_iff. by destruct (status_valid (status stored)).
Qed.

Lemma rejection_no_answer form rejection :
  scope_rejection r form = Some rejection -> token_answer rejection = false.
Proof. unfold scope_rejection. destruct (tk_scope form) as [s|]; [|done]. by destruct (scope_allowed r s); intros [= <-]. Qed.

(** *** The refresh grant *)

Context (Hmode : mode (refresh_tokens r) = Rotating).

Lemma serves_silent i (resp : Resp) (P : Resp -> World -> Prop) :
  token_answer resp = false ->
  serves i (fun _ => True) (Ret resp) (fun resp w => token_answer resp = true -> P resp w).
Proof. intros Hn. apply serves_ret; [apply stable_true|]. intros w _ _. by rewrite Hn. Qed.

Lemma outcome_answer presented o w :
  refresh_ok sealer self presented (Some o) w -> token_answer (outcome_response o) = true ->
  hands_successor presented (outcome_response o) w.
Proof.
  intros [_ Hr] Ha. destruct o as [stored| | |[s|]| | |]; try done.
  - apply stored_answer in Ha as [Hs Hok]. destruct (Hr stored eq_refl Hok) as [(b & Hb & Hd) Han].
    by exists stored, b.
  - cbn [outcome_response upstream_failure_response] in Ha. by rewrite bare_no_answer in Ha.
Qed.

Lemma serves_rotating i form presented :
  serves i (fun _ => True) (refresh_rotating_relay cfg r u form presented)
    (fun resp w => token_answer resp = true -> hands_successor presented resp w).
Proof.
  unfold refresh_rotating_relay. destruct (rotation_store_missing cfg r).
  { by apply serves_silent. }
  unfold rotator. destruct (has_store cfg).
  2: { by apply serves_silent. }
  destruct (scope_rejection r form) as [rejection|] eqn:Es.
  { apply serves_silent. by eapply rejection_no_answer. }
  eapply serves_bind.
  { apply serves_lift; [intros t; apply calm_upstream_refresh|]. by apply t_refresh. }
  intros o. apply serves_ret; [apply stable_refresh_ok|]. intros w _ Ho.
  destruct o as [o|]; [by apply outcome_answer|by destruct Ho].
Qed.

Lemma serves_refresh i form :
  serves i (fun _ => True) (refresh_grant cfg r u form)
    (fun resp w => token_answer resp = true ->
       exists presented, tk_refresh_token form = Some presented /\ hands_successor presented resp w).
Proof.
  unfold refresh_grant. destruct (tk_refresh_token form) as [presented|].
  2: { by apply serves_silent. }
  rewrite bool_decide_eq_true_2 by done.
  eapply serves_post; [apply serves_rotating|]. intros resp w _ Hr Ha. eauto.
Qed.

(** *** The redemption of a code *)

Lemma tokenless_carries stored w :
  token_answer (stored_response stored) = true ->
  upstream_refresh_token (status stored) (body stored) = None ->
  (is_success stored = true -> from_slice (body stored) ≫= as_object = None ->
     names_refresh_token (body stored) = false) ->
  carries_handles (stored_response stored) w.
Proof.
  intros [_ Hok]%stored_answer Hnone Hnames. unfold carries_handles. cbn [stored_response rs_body].
  destruct (members_from_slice (body stored)) as [ms|] eqn:Em; [|by apply Hnames].
  intros m t Hin Hm. unfold upstream_refresh_token in Hnone. unfold is_success in Hok.
  rewrite Hok, Em in Hnone. simpl in Hnone. pose proof (find_map_none _ _ Hnone _ Hin). congruence.
Qed.

Lemma serves_finish i envelope b :
  serves i (fun _ => True) (finish_redemption cfg r envelope b)
    (fun resp w => token_answer resp = true -> carries_handles resp w).
Proof.
  unfold finish_redemption. rewrite Hmode. unfold rotator. destruct (has_store cfg).
  2: { by apply (serves_silent i _ carries_handles). }
  eapply serves_bind; [by apply serves_lift; [|by apply t_issue_in_response]|].
  intros issued. apply serves_ret; [apply stable_issued_ok|]. intros w _ [Hi Hn] Ha.
  destruct issued as [[payload|]|[]]; try done.
  - destruct (Hi payload eq_refl) as (b' & Ho & Hd). by eapply hands_out_carries.
  - destruct (Hn eq_refl) as [Hu Hnames]. by apply tokenless_carries.
Qed.

Lemma sealed_nothing envelope validation : seal_redemption r envelope validation = Ret (Ok None).
Proof. unfold seal_redemption. by rewrite Hmode. Qed.

Lemma mark_no_answer envelope :
  yields (fun o => forall resp, o = Some resp -> token_answer resp = false) (mark_redeemed cfg envelope).
Proof.
  unfold mark_redeemed. destruct (has_store cfg); cbn [negb]; [|done].
  apply yields_bind. intros marker [[]|]; simpl; intros resp [= <-]; reflexivity.
Qed.

Lemma serves_redeem i envelope :
  serves i (fun _ => True) (redeem cfg r u envelope) (fun resp w => token_answer resp = true -> carries_handles resp w).
Proof.
  pose (P := carries_handles).
  unfold redeem. apply serves_after; [apply calm_validate|]. intros validation. rewrite sealed_nothing. cbn [bind].
  assert (serves i (fun _ => True)
    (replay <- mark_redeemed cfg envelope ;;
     match replay, validation with
     | Some response, _ => Ret response
     | None, Err _ => Ret required_claims_error
     | None, Ok _ => finish_redemption cfg r envelope None
     end) (fun resp w => token_answer resp = true -> P resp w)) as Hrest.
  { eapply serves_after_result; [apply calm_mark|apply mark_no_answer|]. intros [resp|] Hn.
    - by apply serves_silent, Hn.
    - destruct validation; [apply serves_finish|by apply serves_silent]. }
  destruct validation as [|[]]; [exact Hrest..|by apply (serves_silent i _ P)].
Qed.

Lemma mismatch_no_answer envelope form resp :
  code_mismatch r envelope form = Some resp -> token_answer resp = false.
Proof. unfold code_mismatch. repeat case_match; intros; simplify_eq; reflexivity. Qed.

Lemma serves_exchange i form :
  serves i (fun _ => True) (exchange_sealed_code cfg r u form)
    (fun resp w => token_answer resp = true -> carries_handles resp w).
Proof.
  pose (P := carries_handles).
  unfold exchange_sealed_code. destruct (rotation_store_missing cfg r); [by apply (serves_silent i _ P)|].
  destruct (tk_code form) as [code|]; [|by apply (serves_silent i _ P)].
  apply serves_after; [apply calm_open_code|]. intros [envelope|[]]; [|by apply (serves_silent i _ P)..].
  destruct (code_mismatch r envelope form) as [resp|] eqn:Em; [|apply serves_redeem].
  apply (serves_silent i _ P). by eapply mismatch_no_answer.
Qed.

(** *** The endpoint *)

(** What a request body asks for. *)
Definition refreshes (request_body : option bytes) (presented : string) : Prop :=
  exists b form, request_body = Some b /\ parse_token_request b = Ok form
    /\ tk_grant_type form = "refresh_token" /\ tk_refresh_token form = Some presented.

Definition token_ok (request_body : option bytes) (resp : Resp) (w : World) : Prop :=
  token_answer resp = true ->
  carries_handles resp w
  /\ forall presented, refreshes request_body presented -> hands_successor presented resp w.

Lemma serves_token i headers request_body :
  serves i (fun _ => True) (token cfg r u headers request_body) (token_ok request_body).
Proof.
  unfold token. cbv zeta. destruct request_body as [b|].
  2: { apply serves_ret; [apply stable_true|]. intros w _ _. unfold token_ok. by rewrite token_answer_cors. }
  destruct (parse_token_request b) as [form|e] eqn:Ep.
  2: { apply serves_ret; [apply stable_true|]. intros w _ _. unfold token_ok. by rewrite token_answer_cors. }
  apply serves_after; [apply calm_authenticate|]. intros [[]|f].
  2: { apply serves_ret; [apply stable_true|]. intros w _ _. unfold token_ok. rewrite token_answer_cors.
       by destruct f as [[]|]. }
  assert (serves i (fun _ => True)
    (if bool_decide (tk_grant_type form = "authorization_code") then exchange_sealed_code cfg r u form
     else if bool_decide (tk_grant_type form = "refresh_token") then refresh_grant cfg r u form
     else Ret (oauth_error 400 "unsupported_grant_type" "unsupported grant_type")) (token_ok (Some b))) as Hp.
  { case_bool_decide as Hc; [|case_bool_decide as Hg].
    - eapply serves_post; [apply serves_exchange|]. intros resp w _ Hr Ha. split; [by apply Hr|].
      intros presented (b' & form' & [= <-] & Hf & Hg & _). rewrite Ep in Hf. simplify_eq. congruence.
    - eapply serves_post; [apply serves_refresh|]. intros resp w _ Hr Ha.
      destruct (Hr Ha) as (presented & Hpr & Hs). split; [by eapply successor_carries|].
      intros presented' (b' & form' & [= <-] & Hf & _ & Hpr').
      rewrite Ep in Hf. injection Hf as <-. rewrite Hpr in Hpr'. by injection Hpr' as <-.
    - apply serves_ret; [apply stable_true|]. by intros w _ _ Ha. }
  apply (serves_map i _ _ (fun resp => with_cors resp _) _ _ Hp). intros resp w _ Hr.
  unfold token_ok. rewrite token_answer_cors. intros Ha. destruct (Hr Ha) as [Hh Hs].
  split; [by apply carries_handles_cors|]. intros presented Hp'. by apply successor_cors, Hs.
Qed.

(** *** The router *)

(** The requests of the theorems: at a callback, or at an endpoint of the relay. *)
Definition at_relay (request : HttpIn) : Prop :=
  exists e key, route cfg (in_path request) = Some (e, key) /\ (e = Callback \/ key = relay_key r).

(** A POST to the relay's token endpoint. *)
Definition posts_token (request : HttpIn) : Prop :=
  route cfg (in_path request) = Some (Token, relay_key r) /\ in_method request = POST.

Definition dispatch_ok (request : HttpIn) (resp : Resp) (w : World) : Prop :=
  posts_token request -> token_ok (in_body request) resp w.

Lemma serves_elsewhere i request (p : rio Resp) :
  ~ posts_token request -> every calm p -> serves i (fun _ => True) p (dispatch_ok request).
Proof.
  intros Hn Hp. eapply serves_post; [apply serves_calm; [apply (stable_true i True)|exact Hp]|].
  intros resp w _ _ Ht. by destruct Hn.
Qed.

#[local] Hint Resolve calm_jwks calm_discovery calm_authorize calm_callback : calm.

Lemma serves_handler i request e :
  route cfg (in_path request) = Some (e, relay_key r) ->
  serves i (fun _ => True) (handle_endpoint cfg request e r u) (dispatch_ok request).
Proof.
  intros Hroute. assert (e = Token /\ in_method request = POST \/ ~ posts_token request) as [[-> Hm]|Hn].
  { destruct (decide (e = Token)) as [->|He]; [|right; intros [? _]; congruence].
    destruct (in_method request) eqn:Em; [right|by left|right..]; intros [_ ?]; congruence. }
  - unfold handle_endpoint. rewrite Hm. eapply serves_post; [apply serves_token|]. by intros resp w _ Ht _.
  - apply serves_elsewhere; [done|]. unfold handle_endpoint.
    destruct e, (in_method request) eqn:Em; solve [by destruct Hn|calm_with].
Qed.

Lemma serves_dispatch i request :
  at_relay request -> serves i (fun _ => True) (dispatch cfg request) (dispatch_ok request).
Proof.
  intros (e & key & Hroute & Hkey). unfold dispatch. rewrite Hroute.
  destruct (decide (e = Callback)) as [->|He].
  { apply serves_elsewhere; [by intros [? _]; congruence|]. unfold dispatch_callback. calm_with. }
  destruct Hkey as [?| ->]; [done|].
  assert (Herr : forall s c d, status_success s = false ->
    serves i (fun _ => True) (Ret (endpoint_error e s c d)) (dispatch_ok request)).
  { intros s c d Hs. apply serves_ret; [apply stable_true|]. intros w _ _ _. unfold token_ok, endpoint_error.
    destruct (is_token e); [by rewrite error_no_answer|by rewrite bare_no_answer]. }
  assert (serves i (fun _ => True) (dispatch_relay cfg request e (relay_key r)) (dispatch_ok request)) as Hp.
  2: { by destruct e. }
  unfold dispatch_relay.
  apply (serves_call i (ResolveRelay (relay_key r))
    (fun a : result (option Relay) string => forall r', a = Ok (Some r') -> r' = r));
    [by apply calm_idle|by intros w a w' [_ Ha]; apply Ha|].
  intros [[r'|]|] Hr; [|by apply Herr..]. rewrite (Hr r' eq_refl). clear r' Hr.
  apply (serves_call i (ResolveUpstream (relay_upstream r))
    (fun a : result (option Upstream) string => forall u', a = Ok (Some u') -> u' = u));
    [by apply calm_idle|by intros w a w' [_ Ha]; apply Ha|].
  intros [[u'|]|] Hu; [|by apply Herr..]. rewrite (Hu u' eq_refl). clear u' Hu.
  destruct (negb _); [by apply Herr|]. by apply serves_handler.
Qed.

(** ** All requests together *)

(** A state that the dispatched requests can reach from [w0]. Other users of the store change the
    keys of other relays only. *)
Definition serving (w0 : World) (requests : list HttpIn) (w : World) (ts : list (rio Resp)) : Prop :=
  reachable rhandle (env_step (ours self)) (w0, dispatch cfg <$> requests) (w, ts).

Lemma serving_ok w0 requests w ts i request resp :
  Forall at_relay requests -> empty_world self w0 -> serving w0 requests w ts ->
  requests !! i = Some request -> ts !! i = Some (Ret resp) -> Inv w /\ dispatch_ok request resp w.
Proof.
  intros Hall H0 Hs Hq Ht.
  pose proof (tasks_safe rhandle (env_step (ours self)) rely guar
    (fun i resp w => forall request, requests !! i = Some request -> Inv w /\ dispatch_ok request resp w)
    (guar_rely sealer self) (env_rely sealer self) _ _ Hs) as Hsafe.
  refine (Hsafe _ i resp Ht request Hq). intros j p Hp. simpl in *.
  apply list_lookup_fmap_Some in Hp as (q & -> & Hq').
  rewrite Forall_lookup in Hall.
  eapply safe_mono; [|apply (serves_dispatch j q (Hall _ _ Hq')); [by apply empty_inv|done]].
  intros a' w' Hw' q' Hq''. by simplify_eq.
Qed.

(** The [i]th request posted the handle to the relay's token endpoint, for a refresh, and was
    answered with a token response. *)
Definition refreshed (requests : list HttpIn) (ts : list (rio Resp)) (i : nat) (handle : string)
    (resp : Resp) : Prop :=
  exists request, requests !! i = Some request /\ posts_token request
    /\ refreshes (in_body request) handle /\ ts !! i = Some (Ret resp) /\ token_answer resp = true.

Lemma refreshed_ok w0 requests w ts i handle resp :
  Forall at_relay requests -> empty_world self w0 -> serving w0 requests w ts ->
  refreshed requests ts i handle resp -> Inv w /\ hands_successor handle resp w.
Proof.
  intros Hall H0 Hs (request & Hq & Hp & Hr & Ht & Ha).
  destruct (serving_ok _ _ _ _ _ _ _ Hall H0 Hs Hq Ht) as [Hi Hok]. split; [done|]. by apply (Hok Hp Ha).
Qed.
End Service.

(** ** Properties *)

(** C1: a rotating handle is single use over HTTP. Let any number of HTTP requests be dispatched at
    once: at every endpoint of a rotating relay, with every grant type, and at the callbacks of any
    upstream. However their steps interleave, with requests to upstreams, lost or failing store
    calls, cut-off calls, crashes, clock jumps and other users of the store in between, all token
    responses to requests that present one rotating handle (one without the prefix of a sealed
    handle) have the same status and the same body: a rotating handle never gets two successors.
    A sealed handle, which keeps no state and is migrated whenever it is presented, is excepted. *)
Theorem http_single_successor {U : UrlLib} {L : PathLayout} {J : JsonLib} {JL : JsonLaws J}
    {HL : HeaderLib} {F : FormLib} {H : Sha256} {HC : CollisionFree H} {H2 : Sha2} {B : Base64}
    {BL : Base64Laws B} {BS : Base64Std} {JW : JwtLib} {PF : Postcard FlowEnvelope}
    {PC : Postcard CodeEnvelope} {PH : Postcard OpenedHandle} {PR : Postcard HandleRecord}
    {PS : Postcard StoredResponse} {PRL : PostcardLaws HandleRecord} {PSL : PostcardLaws StoredResponse}
    {S : Type} {SL : Sealer S} {SLL : SealerLaws S} (sealer : S) slack cfg r u w0 requests w ts
    i j handle resp1 resp2 :
  mode (refresh_tokens r) = Rotating -> Forall (at_relay cfg r) requests ->
  empty_world (relay_rotator r u) w0 -> serving sealer slack cfg r u w0 requests w ts ->
  strip_prefix HANDLE_PREFIX handle = None ->
  refreshed cfg r requests ts i handle resp1 -> refreshed cfg r requests ts j handle resp2 ->
  rs_status resp1 = rs_status resp2 /\ rs_body resp1 = rs_body resp2.
Proof.
  intros Hm Hall H0 Hs Hh H1 H3.
  destruct (refreshed_ok sealer slack cfg r u Hm _ _ _ _ _ _ _ Hall H0 Hs H1) as [Hi (s1 & b1 & -> & -> & _ & _ & A1)].
  destruct (refreshed_ok sealer slack cfg r u Hm _ _ _ _ _ _ _ Hall H0 Hs H3) as [_ (s2 & b2 & -> & -> & _ & _ & A2)].
  by rewrite (answered_unique sealer (relay_rotator r u) handle s1 s2 w Hi (A1 Hh) (A2 Hh)).
Qed.

(** C2: no upstream refresh token leaves a rotating relay. In the same setting, whatever the token
    endpoint answers with a success and a body, be it to a code that is redeemed (under the present
    or an earlier fingerprint), a rotation, a replay within the grace period or the migration of a
    sealed handle: when the body is a JSON object, every refresh token in it, however often the
    member is repeated, is a rotating handle made of bytes that some request drew at random; and
    when the body is no JSON object, it does not spell a refresh token, as a form-encoded
    [refresh_token=...] would. *)
Theorem http_only_handles {U : UrlLib} {L : PathLayout} {J : JsonLib} {JL : JsonLaws J} {JO : JsonObjects J}
    {HL : HeaderLib} {F : FormLib} {H : Sha256} {HC : CollisionFree H} {H2 : Sha2} {B : Base64}
    {BL : Base64Laws B} {BS : Base64Std} {JW : JwtLib} {PF : Postcard FlowEnvelope}
    {PC : Postcard CodeEnvelope} {PH : Postcard OpenedHandle} {PR : Postcard HandleRecord}
    {PS : Postcard StoredResponse} {PRL : PostcardLaws HandleRecord} {PSL : PostcardLaws StoredResponse}
    {S : Type} {SL : Sealer S} {SLL : SealerLaws S} (sealer : S) slack cfg r u w0 requests w ts
    i request resp :
  mode (refresh_tokens r) = Rotating -> Forall (at_relay cfg r) requests ->
  empty_world (relay_rotator r u) w0 -> serving sealer slack cfg r u w0 requests w ts ->
  requests !! i = Some request -> posts_token cfg r request -> ts !! i = Some (Ret resp) ->
  token_answer resp = true ->
  hands_out_only (drawn_handle w) (rs_body resp).
Proof.
  intros Hm Hall H0 Hs Hq Hp Ht Ha.
  destruct (serving_ok sealer slack cfg r u Hm _ _ _ _ _ _ _ Hall H0 Hs Hq Ht) as [_ Hok].
  by apply carries_only, (Hok Hp Ha).
Qed.
