(* ===== verification/Scenario.v ===== *)
(** * Scenario: the code flow on one relay

    The handlers of [Flows], [Grants] and [Router] evaluated end to end against a reliable
    environment: a relay that seals its refresh tokens, its upstream, the codecs of the [Plain]
    modules, and an upstream that answers every request with one token response. Each theorem about
    the code flow is applied to one of these runs, and [code_replay_window] shows the one
    redemption that a replay marker does not prevent. *)

From S2P Require Import Prelude Text Json Url Model Layout Store Seal Prog Effects RefreshHandle.
From S2P Require Import Rotation RotationSafety Requests Jwt Web Flows Grants Router OutboundSafety.
From S2P Require Import DiscoverySafety CredentialSafety CodeSafety CodeOrigin AdmissionSafety AssertionSafety TokenSafety.
#[local] Open Scope string_scope.
#[local] Open Scope prog_scope.

Module Scenario.
Import PlainUrl PlainSeal PlainCodec PlainForm RotationSafety.Example.

(** ** Codecs *)

#[export] Instance flow_eq_dec : EqDecision FlowEnvelope.
Proof. solve_decision. Defined.
#[export] Instance flow_countable : Countable FlowEnvelope.
Proof.
  by refine (inj_countable'
    (fun f => (((fl_relay_key f, fl_app_redirect_uri f), (fl_app_state f, fl_upstream_pkce_verifier f)),
               ((fl_client_code_challenge f, fl_client_code_challenge_method f), (fl_id_token_nonce f, fl_issued_at f)),
               fl_nonce f))
    (fun '(((k, r), (s, v)), ((c, m), (n, i)), b) =>
       {| fl_relay_key := k; fl_app_redirect_uri := r; fl_app_state := s; fl_upstream_pkce_verifier := v;
          fl_client_code_challenge := c; fl_client_code_challenge_method := m; fl_id_token_nonce := n;
          fl_issued_at := i; fl_nonce := b |}) _); intros [].
Defined.
#[export] Instance flow_postcard : Postcard FlowEnvelope := postcard.
#[export] Instance flow_postcard_laws : PostcardLaws FlowEnvelope.
Proof. apply postcard_laws. Defined.

#[export] Instance code_eq_dec : EqDecision CodeEnvelope.
Proof. solve_decision. Defined.
#[export] Instance code_countable : Countable CodeEnvelope.
Proof.
  by refine (inj_countable'
    (fun c => (((ce_relay_key c, ce_envelope_id c), (ce_issued_at c, ce_redirect_uri c)),
               ((ce_client_code_challenge c, ce_id_token_nonce c), ce_handle_fingerprint c), ce_upstream_response c))
    (fun '(((k, e), (i, r)), ((c, n), f), s) =>
       {| ce_relay_key := k; ce_envelope_id := e; ce_issued_at := i; ce_redirect_uri := r;
          ce_client_code_challenge := c; ce_id_token_nonce := n; ce_upstream_response := s;
          ce_handle_fingerprint := f |}) _); intros [].
Defined.
#[export] Instance code_postcard : Postcard CodeEnvelope := postcard.
#[export] Instance code_postcard_laws : PostcardLaws CodeEnvelope.
Proof. apply postcard_laws. Defined.

#[export] Instance sha2 : Sha2 := {| sha384 b := b; sha512 b := b |}.

(** Two tokens verify, until second 1200: a client assertion and an ID token. *)
Definition assertion_claims : Value :=
  Object [("iss", Str "app"); ("sub", Str "app"); ("aud", Str "https://relay.example.com");
          ("iat", Number (Some 1000)); ("exp", Number (Some 1200)); ("jti", Str "first")]%Z.

Definition identity_claims : Value :=
  Object [("iss", Str "https://idp.example.com/"); ("sub", Str "user"); ("aud", Str "relay");
          ("iat", Number (Some 1000)); ("exp", Number (Some 1200)); ("email", Str "user@example.com")]%Z.

Definition claims_of (token : string) : option Value :=
  if bool_decide (token = "assertion") then Some assertion_claims
  else if bool_decide (token = "identity") then Some identity_claims else None.

#[export] Instance two_tokens : JwtLib := {|
  jwk := unit; decoding_key := unit;
  decode_header token := if bool_decide (is_Some (claims_of token)) then Some (RS256, None) else None;
  jwk_set _ := Some [tt]; jwk_set_from_slice _ := None; key_id _ := None; from_jwk _ := Some tt;
  jwt_decode now token _ _ := if (now <=? 1200 + LEEWAY)%Z then claims_of token else None;
|}.

#[export] Instance two_tokens_laws : JwtLaws two_tokens.
Proof.
  assert (forall now token key v claims, jwt_decode now token key v = Some claims ->
    claims_of token = Some claims /\ (now <= 1200 + LEEWAY)%Z) as Hd.
  { intros now token key v claims. simpl. destruct (now <=? 1200 + LEEWAY)%Z eqn:E; [|done].
    apply Z.leb_le in E. done. }
  split.
  - intros now now' token key key' v v' claims claims' [Hc _]%Hd [Hc' _]%Hd. congruence.
  - intros now token key v claims e [Hc Hn]%Hd. unfold claims_of in Hc.
    repeat case_bool_decide; simplify_eq; intros [= <-]; exact Hn.
Qed.

#[export] Instance layout : PathLayout := default_layout {| keys := SingleSegment |}.

(** ** The deployment *)

Definition url_of (s : string) : url :=
  match url_parse s with
  | Ok u => u
  | Err _ => Build_t "https" (Domain "") "" None "/" None None
  end.

Definition cfg : RelayConfig := {|
  public_url := url_of "https://relay.example.com/oauth"; has_store := true; has_policy := true;
  redirect := redirect_options_default;
|}.

Definition relay : Relay := {|
  relay_key := ResourceKey_of "app"; relay_upstream := ResourceKey_of "idp"; generation := None;
  client_auth := ClientSecret "app" "s3cret"; scopes := ["openid"]; allowed_scopes := None;
  required_id_token_claims := ∅; id_token_policy := None;
  refresh_tokens := {| mode := Sealed; grace_period_seconds := 30; max_lifetime_seconds := 3600 |};
  redirect_policy := [MUri "https://rp.example.com/cb"];
|}.

Definition upstream : Upstream := {|
  up_key := ResourceKey_of "idp"; issuer_url := url_of "https://idp.example.com/";
  authorization_endpoint := Some (url_of "https://idp.example.com/authorize");
  token_endpoint := Some (url_of "https://idp.example.com/token"); jwks_uri := None;
  up_client_id := "relay"; up_client_secret := "up-secret"; token_endpoint_auth_method := ClientSecretBasic;
|}.

(** One answer to every call: the store, the sealer and the clocks of [reliable]; the resolvers know
    the one relay [r] and the upstream; the policy approves; the caches are empty. *)
Fixpoint answers_for (r : Relay) (i : nat) (w : World) (e : reff) : option (rans e * World) :=
  match e as e return option (rans e * World) with
  | Core e => reliable old_sealer nonce (fun _ => Err Request) i w e
  | ResolveRelay k => Some (Ok (if bool_decide (k = relay_key r) then Some r else None), w)
  | ResolveUpstream k => Some (Ok (if bool_decide (k = up_key upstream) then Some upstream else None), w)
  | CheckOutbound _ => Some (true, w)
  | Execute _ rq =>
      Some (Some {| rp_url := rq_url rq; rp_status := 200; rp_content_type := None;
                    rp_body := Some RefreshHandle.Example.payload |}, w)
  | CacheGet _ _ => Some (None, w)
  | CacheInsert _ _ _ | AbsentInsert _ _ | AbsentRemove _ | JwksSet _ _ | JwksUnlock _ => Some (tt, w)
  | JwksLock _ => Some ({| cj_current := None; cj_retry_after := None |}, w)
  | AbsentGet _ => Some (None, w)
  | Within _ e => '(a, w) ← answers_for r i w e; Some (Some a, w)
  end.

Definition answers : World -> forall e : reff, option (rans e * World) := answers_for relay 0.

Definition go {A} (p : rio A) (w : World) : option (A * World * call_log rans) := log_run answers p w.

(** A world whose clocks show [ms] milliseconds, on the store [st]. *)
Definition at_ms (ms : Z) (st : records) : World :=
  {| w_store := st; w_backend := ms * 1000000; w_unix := ms; w_mono := ms * 1000000; w_drawn := [];
     w_writes := []; w_asked := [] |}.

Lemma go_runs {A} (p : rio A) w a l w' : go p w = Some (a, w', l) -> runs p l a.
Proof. apply log_run_runs. Qed.

(** A run whose result passes a test. *)
Lemma go_tested {A} (p : rio A) w (test : A -> call_log rans -> bool) :
  match go p w with Some (a, _, l) => test a l | None => false end = true ->
  exists a l, runs p l a /\ test a l = true.
Proof.
  destruct (go p w) as [[[a w'] l]|] eqn:E; [|done]. intros Ht. exists a, l. split; [by eapply go_runs|done].
Qed.

Definition redirecting (resp : Resp) : bool := bool_decide (rs_headers resp <> []).

Lemma redirecting_ok resp : redirecting resp = true -> redirects resp.
Proof. apply bool_decide_eq_true. Qed.

(** ** The authorization request and its callback *)

Definition app_uri : string := "https://rp.example.com/cb".

Definition login : AuthorizeRequest := {|
  aq_redirect_uri := Some app_uri; aq_state := Some "xyz"; aq_code_challenge := None;
  aq_code_challenge_method := None; aq_id_token_nonce := None; aq_scope := Some "openid";
  aq_forwarded := [("prompt", "login")];
|}.

(** What the sealer of the deployment makes of a value. *)
Definition sealed_for {T} {P : Postcard T} (key : ResourceKey) (v : T) : string :=
  match to_stdvec v with
  | Some b => match seal old_sealer nonce b (into_bytes (key_str key)) with Ok env => env | Err _ => "" end
  | None => ""
  end.

Definition flow : FlowEnvelope := flow_of relay login app_uri "verifier" 1000 [x01].
Definition flow_state : string := sealed_for (up_key upstream) flow.


Definition callback_http : HttpIn := {|
  in_method := GET; in_path := "/oauth/upstream/idp/callback";
  in_query := Some ("code=abc&state=" +:+ flow_state); in_headers := []; in_body := None;
|}.

Lemma authorize_run : exists resp l, runs (authorize cfg relay upstream login) l resp /\ redirects resp.
Proof.
  destruct (go_tested (authorize cfg relay upstream login) (at_ms 1000000 ∅) (fun resp _ => redirecting resp))
    as (resp & l & Hr & Ht); [vm_compute; reflexivity|].
  exists resp, l. split; [exact Hr|exact (redirecting_ok _ Ht)].
Defined.


(** The log of a run, cut at its first request. *)
Fixpoint cut_at_send (l : call_log rans) : option (call_log rans * { e : reff & rans e } * call_log rans) :=
  match l with
  | [] => None
  | x :: l =>
      match sends (projT1 x) with
      | Some _ => Some ([], x, l)
      | None => '(l1, y, l2) ← cut_at_send l; Some (x :: l1, y, l2)
      end
  end.

Lemma cut_at_send_ok l l1 y l2 :
  cut_at_send l = Some (l1, y, l2) -> l = (l1 ++ y :: l2)%list /\ exists u, sends (projT1 y) = Some u.
Proof.
  revert l1 y l2. induction l as [|x l IH]; simpl; intros l1 y l2; [done|].
  destruct (sends (projT1 x)) as [u|] eqn:Es; [intros [= <- <- <-]; eauto|].
  intros ([[m1 z] m2] & Hc & [= <- <- <-])%bind_Some. apply IH in Hc as [-> Hu]. done.
Qed.

Lemma dispatched_run : exists resp l1 e a l2 u,
  runs (dispatch cfg callback_http) (l1 ++ logged e a :: l2)%list resp /\ sends e = Some u.
Proof.
  destruct (go_tested (dispatch cfg callback_http) (at_ms 1100000 ∅)
    (fun resp l => bool_decide (is_Some (cut_at_send l)))) as (resp & l & Hr & Ht); [vm_compute; reflexivity|].
  apply bool_decide_eq_true in Ht as [[[l1 [e a]] l2] Hc]. apply cut_at_send_ok in Hc as [-> [u Hu]].
  exists resp, l1, e, a, l2, u. split; [exact Hr|exact Hu].
Defined.

Lemma outbound_policy_enforced_witness : exists l1 u check approval,
  last l1 = Some (logged check approval) /\ approves check approval = Some u.
Proof.
  destruct dispatched_run as (resp & l1 & e & a & l2 & u & Hr & Hu).
  destruct (outbound_policy_enforced cfg callback_http l1 e a l2 resp u eq_refl Hr Hu) as (c & b & Hl & Ha).
  exists l1, u, c, b. split; [exact Hl|exact Ha].
Defined.

Lemma sends_request e u : sends e = Some u -> exists rq, request_of e = Some rq.
Proof. induction e; simpl; try done. intros _. by eexists. Qed.

Lemma only_upstream_credentials_sent_witness : exists rq u,
  match rq_form rq with
  | None => rq_headers rq = []
  | Some form => forall value, ("authorization", value) ∈ rq_headers rq ->
      value = basic_authorization (up_client_id u) (up_client_secret u)
  end.
Proof.
  destruct dispatched_run as (resp & l1 & e & a & l2 & target & Hr & Hu). destruct (sends_request e target Hu) as [rq Hrq].
  destruct (only_upstream_credentials_sent cfg callback_http _ resp e a rq Hr) as (key & u & _ & Ho); [|exact Hrq|].
  - apply elem_of_app; right. apply list_elem_of_here.
  - exists rq, u. destruct (rq_form rq); [|exact Ho]. apply Ho.
Defined.

(** ** The discovery document *)

#[export] Instance plain_paths : UrlPathLaws PlainUrl.lib.
Proof. split; done. Qed.

Lemma discovery_run : exists l resp, runs (discovery cfg relay upstream) l resp /\ rs_status resp = 200%Z.
Proof.
  destruct (go_tested (discovery cfg relay upstream) (at_ms 1000000 ∅) (fun resp _ => (rs_status resp =? 200)%Z))
    as (resp & l & Hr & Ht); [vm_compute; reflexivity|].
  exists l, resp. split; [exact Hr|]. by apply Z.eqb_eq.
Defined.

Lemma discovery_describes_relay_witness : exists members served,
  member "token_endpoint" members = Some (Str (as_str served))
  /\ route cfg (path served) = Some (Token, relay_key relay).
Proof.
  destruct discovery_run as (l & resp & Hr & Hs).
  assert (accepted {| keys := SingleSegment |} (relay_key relay)) as Ha.
  { split; [reflexivity|]. intros part Hp. apply list_elem_of_singleton in Hp as ->. reflexivity. }
  destruct (discovery_describes_relay {| keys := SingleSegment |} cfg relay upstream l resp Ha eq_refl Hr)
    as [->|(doc & endpoints & members & _ & _ & _ & _ & Hroute)]; [discriminate Hs|].
  destruct (Hroute Token "token_endpoint") as (served & Hm & Hp); [by right; left|].
  exists members, served. split; [exact Hm|exact Hp].
Defined.


Lemma flow_round_trip_witness : exists resp e scope env verifier,
  resp = found (as_str (append_pairs e (upstream_params cfg upstream login env verifier scope))).
Proof.
  destruct authorize_run as (resp & l & Hr & Hred).
  destruct (flow_round_trip cfg relay upstream login l resp Hr Hred) as (e & scope & env & verifier & rv & He & _).
  exists resp, e, scope, env, verifier. exact He.
Defined.

(** ** The redemption of its code *)

Definition token_payload : StoredResponse :=
  {| status := 200; content_type := None; body := RefreshHandle.Example.payload |}.

(** The code issued at second 1000. *)
Definition envelope : CodeEnvelope := code_envelope relay upstream flow token_payload (repeat x05 16) 1000.
Definition code : string := sealed_for (relay_key relay) envelope.

Definition redemption : TokenRequest := {|
  tk_grant_type := "authorization_code"; tk_code := Some code; tk_refresh_token := None;
  tk_redirect_uri := Some app_uri; tk_client_id := Some "app"; tk_client_secret := Some "s3cret";
  tk_code_verifier := None; tk_scope := None; tk_client_assertion_type := None; tk_client_assertion := None;
  tk_pairs := [("grant_type", "authorization_code"); ("code", code); ("redirect_uri", app_uri)];
|}.

(** The environment's sealer is the deployment's. *)
Definition by_sealer (e : reff) : rans e -> Prop :=
  match e as e return rans e -> Prop with
  | Core (UnsealCall env ad) => fun r => r = unseal old_sealer env ad
  | _ => fun _ => True
  end.

Lemma go_by_sealer {A} (p : rio A) w a w' l :
  go p w = Some (a, w', l) -> Forall (fun x => by_sealer (projT1 x) (projT2 x)) l.
Proof.
  revert w l. induction p as [b|e k IH]; intros w l; [by intros [= _ _ <-]|]. unfold go. cbn [log_run].
  intros ([b w1] & He & ([[c w2] l'] & Hk & [= -> -> <-])%bind_Some)%bind_Some.
  constructor; [|by eapply IH]. destruct e as [[]| | | | | | | | | | | | |]; try exact I.
  simpl in He. by injection He as <- _.
Qed.

Lemma go_honest {A} (p : rio A) w a w' l pt ad env :
  go p w = Some (a, w', l) -> seal old_sealer nonce pt ad = Ok env ->
  honest [logged (Core (SealCall pt ad)) (Ok env)] l.
Proof.
  intros Hgo He. apply (sealer_honest old_sealer).
  - intros pt' ad' env' [Heq|Hn]%elem_of_cons; [|by apply not_elem_of_nil in Hn].
    exists nonce. split; [done|].
    assert (Hs : match logged (Core (SealCall pt' ad')) (Ok env') : { e : reff & rans e } with
                 | existT (Core (SealCall p d)) r => r = seal old_sealer nonce p d
                 | _ => True end) by (rewrite Heq; by symmetry). by symmetry.
  - intros env' ad' pt' Hin. apply go_by_sealer in Hgo. rewrite Forall_forall in Hgo.
    specialize (Hgo _ Hin). simpl in Hgo. by symmetry.
Qed.

Lemma code_sealed : seal old_sealer nonce (pack envelope) (into_bytes (key_str (relay_key relay))) = Ok code.
Proof.
  unfold code, sealed_for. change (to_stdvec envelope) with (Some (pack envelope)). cbv iota beta.
  assert (is_ok (seal old_sealer nonce (pack envelope) (into_bytes (key_str (relay_key relay)))) = true) as Hok
    by (vm_compute; reflexivity).
  by destruct (seal _ _ _ _).
Qed.

Definition redeemed_at (ms : Z) (st : records) : option (Resp * World * call_log rans) :=
  go (exchange_sealed_code cfg relay upstream redemption) (at_ms ms st).

Definition is_success_run (o : option (Resp * World * call_log rans)) : bool :=
  match o with Some (resp, _, _) => status_success (rs_status resp) | None => false end.

Lemma success_run {o} : is_success_run o = true ->
  exists resp w l, o = Some (resp, w, l) /\ succeeds resp.
Proof. destruct o as [[[resp w] l]|]; [|done]. by exists resp, w, l. Qed.

(** The store after the code was redeemed 200 ms after it was issued. *)
Definition store_after (o : option (Resp * World * call_log rans)) : records :=
  match o with Some (_, w, _) => w_store w | None => ∅ end.
Definition after_first : records := store_after (redeemed_at 1000200 ∅).

Lemma redemption_run : exists resp w l, redeemed_at 1000200 ∅ = Some (resp, w, l) /\ succeeds resp.
Proof. apply success_run. vm_compute. reflexivity. Qed.

(** Presented again within its lifetime, the code is refused. *)
Example replay_refused : is_success_run (redeemed_at 1100000 after_first) = false.
Proof. vm_compute. reflexivity. Qed.

(** Half a second past the end of its fifth minute the marker is gone, and the code, whose age is
    counted in whole seconds, is still accepted. *)
Lemma code_replay_window :
  (exists resp w l, redeemed_at 1000200 ∅ = Some (resp, w, l) /\ succeeds resp)
  /\ (exists resp w l, redeemed_at 1300500 after_first = Some (resp, w, l) /\ succeeds resp).
Proof. split; apply success_run; vm_compute; reflexivity. Qed.

Lemma code_binding_checked_witness : exists envelope now,
  fresh_at (now / 1000) (ce_issued_at envelope) CODE_TTL = true /\ ce_redirect_uri envelope = app_uri
  /\ tk_code_verifier redemption = None.
Proof.
  destruct redemption_run as (resp & w & l & Hr & Hs).
  destruct (code_binding_checked cfg relay upstream redemption l resp (go_runs _ _ _ _ _ Hr) Hs)
    as (c & b & now & en & _ & _ & _ & _ & _ & Hf & Hu & _).
  exists en, now. split; [exact Hf|]. injection Hu as <-. split; reflexivity.
Defined.

Lemma code_redeemed_once_witness : exists k m m' (l l' : call_log rans),
  logged (Core (StoreCall (PutIfAbsent k m (from_secs CODE_TTL)))) (Ok true) ∈ l
  /\ logged (Core (StoreCall (PutIfAbsent k m' (from_secs CODE_TTL)))) (Ok true) ∈ l'.
Proof.
  destruct code_replay_window as [(resp & w & l & Hr & Hs) (resp' & w' & l' & Hr' & Hs')].
  destruct (code_redeemed_once cfg relay relay upstream upstream redemption redemption l l' resp resp' code
    eq_refl (go_runs _ _ _ _ _ Hr) Hs (go_runs _ _ _ _ _ Hr') Hs' eq_refl eq_refl) as (k & m & m' & H1 & H2 & _).
  { eexists _, _, _. split; [apply list_elem_of_here|].
    split; [exact (go_honest _ _ _ _ _ _ _ _ Hr code_sealed)|exact (go_honest _ _ _ _ _ _ _ _ Hr' code_sealed)]. }
  exists k, m, m', l, l'. split; [exact H1|exact H2].
Defined.

Lemma responses_carry_handles_witness : exists resp l, succeeds resp
  /\ exists b envelope, from_postcard b = Some envelope
  /\ hands_out_only (sealed_in {| hb_relay := relay_key relay; hb_fingerprint := ce_handle_fingerprint envelope |} l)
       (rs_body resp).
Proof.
  destruct redemption_run as (resp & w & l & Hr & Hs). exists resp, l. split; [exact Hs|].
  destruct (proj1 (responses_carry_handles cfg relay upstream redemption l resp Hs) (go_runs _ _ _ _ _ Hr))
    as (_ & b & envelope & _ & _ & Hb & Ho).
  exists b, envelope. split; [exact Hb|exact Ho].
Defined.

(** ** A client assertion

    The same code, redeemed by a client that authenticates with an assertion. *)

Definition asserting : Relay := {|
  relay_key := relay_key relay; relay_upstream := relay_upstream relay; generation := None;
  client_auth := PrivateKeyJwt true "app" None None (Some "https://relay.example.com") (Some (JwksInline Null));
  scopes := scopes relay; allowed_scopes := None; required_id_token_claims := ∅; id_token_policy := None;
  refresh_tokens := refresh_tokens relay; redirect_policy := redirect_policy relay;
|}.

Definition assertion_form : bytes :=
  into_bytes (form_serialize
    [("grant_type", "authorization_code"); ("code", code); ("redirect_uri", app_uri); ("client_id", "app");
     ("client_assertion_type", JWT_BEARER); ("client_assertion", "assertion")]).

Definition asserted_at (ms : Z) (st : records) : option (Resp * World * call_log rans) :=
  go (token cfg asserting upstream [] (Some assertion_form)) (at_ms ms st).

(** On the store that holds the marker of the first presentation, the second is refused. *)
Example assertion_replay_refused :
  is_success_run (asserted_at 1000200 ∅) = true
  /\ is_success_run (asserted_at 1000900 (store_after (asserted_at 1000200 ∅))) = false.
Proof. split; vm_compute; reflexivity. Qed.

Lemma asserted_run ms : is_success_run (asserted_at ms ∅) = true ->
  exists l resp, runs (token cfg asserting upstream [] (Some assertion_form)) l resp /\ succeeds resp.
Proof.
  intros (resp & w & l & Hr & Hs)%success_run. exists l, resp. split; [exact (go_runs _ _ _ _ _ Hr)|exact Hs].
Qed.

Lemma assertion_form_parsed : exists form, parse_token_request assertion_form = Ok form
  /\ tk_client_assertion form = Some "assertion".
Proof.
  assert (match parse_token_request assertion_form with
          | Ok form => bool_decide (tk_client_assertion form = Some "assertion")
          | Err _ => false
          end = true) as Hb by (vm_compute; reflexivity).
  destruct (parse_token_request assertion_form) as [form|]; [|discriminate Hb].
  exists form. split; [reflexivity|]. by apply bool_decide_eq_true in Hb.
Qed.

(** Two presentations on stores that do not know each other. *)
Lemma assertion_accepted_once_witness : exists k m m' ttl ttl' (l l' : call_log rans),
  logged (Core (StoreCall (PutIfAbsent k m ttl))) (Ok true) ∈ l
  /\ logged (Core (StoreCall (PutIfAbsent k m' ttl'))) (Ok true) ∈ l'.
Proof.
  destruct assertion_form_parsed as (form & Hp & Ha).
  destruct (asserted_run 1000200) as (l & resp & Hr & Hs); [vm_compute; reflexivity|].
  destruct (asserted_run 1000900) as (l' & resp' & Hr' & Hs'); [vm_compute; reflexivity|].
  pose proof (fun H => assertion_accepted_once cfg asserting upstream upstream [] [] assertion_form assertion_form
    form form l l' resp resp' "assertion" "app" None None (Some "https://relay.example.com")
    (Some (JwksInline Null)) H) as Honce.
  specialize (Honce eq_refl). specialize (Honce Hp Ha Hp Ha). specialize (Honce Hr Hs Hr' Hs').
  destruct Honce as (k & m & m' & ttl & ttl' & read & _ & H1 & H2 & _).
  exists k, m, m', ttl, ttl', l, l'. split; [exact H1|exact H2].
Defined.

(** ** An ID token

    A relay that requires a claim redeems the code of a login that brought an ID token. *)

Definition admitting : Relay := {|
  relay_key := relay_key relay; relay_upstream := relay_upstream relay; generation := None;
  client_auth := client_auth relay; scopes := scopes relay; allowed_scopes := None;
  required_id_token_claims := {["email" := "user@example.com"]}; id_token_policy := None;
  refresh_tokens := refresh_tokens relay; redirect_policy := redirect_policy relay;
|}.

Definition keyed_upstream : Upstream := {|
  up_key := up_key upstream; issuer_url := issuer_url upstream;
  authorization_endpoint := authorization_endpoint upstream; token_endpoint := token_endpoint upstream;
  jwks_uri := Some (url_of "https://idp.example.com/keys"); up_client_id := "relay";
  up_client_secret := "up-secret"; token_endpoint_auth_method := ClientSecretBasic;
|}.

(** The redemption of a login that brought [members]. *)
Definition brought (members : list (string * string)) : TokenRequest := {|
  tk_grant_type := "authorization_code";
  tk_code := Some (sealed_for (relay_key relay) (code_envelope relay upstream flow
    {| status := 200; content_type := None; body := pack members |} (repeat x05 16) 1000));
  tk_refresh_token := None; tk_redirect_uri := Some app_uri; tk_client_id := Some "app";
  tk_client_secret := Some "s3cret"; tk_code_verifier := None; tk_scope := None;
  tk_client_assertion_type := None; tk_client_assertion := None; tk_pairs := [];
|}.

Definition admission_of (members : list (string * string)) : option (Resp * World * call_log rans) :=
  go (exchange_sealed_code cfg admitting keyed_upstream (brought members)) (at_ms 1000200 ∅).

(** Without an ID token, or with one that does not verify, nothing is redeemed. *)
Example admission_refused :
  is_success_run (admission_of [("access_token", raw_string "at")]) = false
  /\ is_success_run (admission_of [("access_token", raw_string "at"); ("id_token", raw_string "forged")]) = false.
Proof. split; vm_compute; reflexivity. Qed.

Lemma redemption_admitted_witness : exists claims,
  claims_admitted admitting claims /\ get_str claims "email" = Some "user@example.com".
Proof.
  destruct (@success_run (admission_of [("access_token", raw_string "at"); ("id_token", raw_string "identity")]))
    as (resp & w & l & Hr & Hs); [vm_compute; reflexivity|].
  destruct (redemption_admitted cfg admitting keyed_upstream _ l resp (or_introl (map_non_empty_singleton _ _))
    (go_runs _ _ _ _ _ Hr) Hs) as (c & b & en & tr & claims & alg & _ & _ & _ & _ & _ & Hadm).
  exists claims. split; [exact Hadm|]. apply Hadm. apply lookup_singleton_eq.
Defined.

(** ** A rotating relay

    The same relay in the [rotating] mode serves three requests: a code is redeemed, and the handle
    it gave is presented twice. *)

Definition rotating : Relay := {|
  relay_key := relay_key relay; relay_upstream := relay_upstream relay; generation := None;
  client_auth := client_auth relay; scopes := scopes relay; allowed_scopes := None;
  required_id_token_claims := ∅; id_token_policy := None;
  refresh_tokens := {| mode := Rotating; grace_period_seconds := 30; max_lifetime_seconds := 3600 |};
  redirect_policy := redirect_policy relay;
|}.

Definition token_post (form : list (string * string)) : HttpIn := {|
  in_method := POST; in_path := path (endpoint_url cfg Token (relay_key rotating));
  in_query := None; in_headers := [];
  in_body := Some (into_bytes (form_serialize (form ++ [("client_id", "app"); ("client_secret", "s3cret")])%list));
|}.

Definition rotating_code : string :=
  sealed_for (relay_key rotating) (code_envelope rotating upstream flow token_payload (repeat x05 16) 1000).

(** Its bytes are the second draw; the first makes the replay marker. *)
Definition first_handle : string := handle_of (repeat x01 32).

Definition refresh_post : HttpIn := token_post [("grant_type", "refresh_token"); ("refresh_token", first_handle)].
Definition posts : list HttpIn :=
  [token_post [("grant_type", "authorization_code"); ("code", rotating_code); ("redirect_uri", app_uri)];
   refresh_post; refresh_post].

Definition post_served (i : nat) (request : HttpIn) (w : World) : option (Resp * World) :=
  run (answers_for rotating i) (dispatch cfg request) w.

Definition all_served : option (Resp * Resp * Resp * World) :=
  '(a0, w) ← post_served 0 (default refresh_post (posts !! 0)) (at_ms 1000200 ∅);
  '(a1, w) ← post_served 1 refresh_post w;
  '(a2, w) ← post_served 2 refresh_post w;
  Some (a0, a1, a2, w).

(** The answers are among those that the theorems quantify over. *)
Lemma answers_rhandle i w e a w' :
  answers_for rotating i w e = Some (a, w') -> rhandle old_sealer 0 rotating upstream i w e a w'.
Proof.
  revert a w'. induction e as [e|k|k| | | | | | | | | | |d e IH]; intros a w' Ha; simpl in Ha;
    try (by injection Ha as <- <-).
  - by eapply (reliable_handle old_sealer 0 nonce (fun _ => Err Request)).
  - injection Ha as <- <-. split; [done|]. intros -> r'. rewrite bool_decide_eq_true_2 by done. by intros [= <-].
  - injection Ha as <- <-. split; [done|]. intros -> u'. rewrite bool_decide_eq_true_2 by done. by intros [= <-].
  - apply bind_Some in Ha as ([b w1] & He & Ha). injection Ha as <- <-. by apply IH.
Qed.

Lemma post_reachable i request w resp w' ts :
  post_served i request w = Some (resp, w') -> ts !! i = Some (dispatch cfg request) ->
  reachable (rhandle old_sealer 0 rotating upstream) (env_step (ours (relay_rotator rotating upstream)))
    (w, ts) (w', <[i := Ret resp]> ts).
Proof. apply run_reachable. intros. by apply answers_rhandle. Qed.

Lemma all_served_serving a0 a1 a2 w :
  all_served = Some (a0, a1, a2, w) ->
  serving old_sealer 0 cfg rotating upstream (at_ms 1000200 ∅) posts w [Ret a0; Ret a1; Ret a2].
Proof.
  unfold all_served. intros ([b0 w1] & H0 & ([b1 w2] & H1 & ([b2 w3] & H2 & Heq)%bind_Some)%bind_Some)%bind_Some.
  injection Heq as <- <- <- <-. unfold serving, reachable.
  etrans; [exact (post_reachable 0 _ _ _ _ (dispatch cfg <$> posts) H0 eq_refl)|].
  etrans; [exact (post_reachable 1 _ _ _ _ (<[0 := Ret b0]> (dispatch cfg <$> posts)) H1 eq_refl)|].
  exact (post_reachable 2 _ _ _ _ (<[1 := Ret b1]> (<[0 := Ret b0]> (dispatch cfg <$> posts))) H2 eq_refl).
Qed.

Lemma all_served_answer : exists a0 a1 a2 w, all_served = Some (a0, a1, a2, w)
  /\ token_answer a0 = true /\ token_answer a1 = true /\ token_answer a2 = true.
Proof.
  assert (match all_served with
          | Some (a0, a1, a2, _) => token_answer a0 && token_answer a1 && token_answer a2
          | None => false
          end = true) as Hb by (vm_compute; reflexivity).
  destruct all_served as [[[[a0 a1] a2] w]|]; [|discriminate Hb].
  apply andb_true_iff in Hb as [[H0 H1]%andb_true_iff H2]. by exists a0, a1, a2, w.
Qed.

Lemma posts_at_relay : Forall (at_relay cfg rotating) posts.
Proof.
  assert (route cfg (path (endpoint_url cfg Token (relay_key rotating))) = Some (Token, relay_key rotating)) as Hr
    by (vm_compute; reflexivity).
  repeat constructor; exists Token, (relay_key rotating); (split; [exact Hr|by right]).
Qed.

Lemma posts_token_at form : posts_token cfg rotating (token_post form).
Proof. split; [vm_compute; reflexivity|reflexivity]. Qed.

Lemma world_of_nothing : empty_world (relay_rotator rotating upstream) (at_ms 1000200 ∅).
Proof. split_and!; [reflexivity|reflexivity|]. intros k _. apply lookup_empty. Qed.

Lemma refresh_post_refreshes : refreshes (in_body refresh_post) first_handle.
Proof.
  destruct (parse_token_request (default [] (in_body refresh_post))) as [form|e] eqn:Ep.
  2: { exfalso. assert (is_ok (parse_token_request (default [] (in_body refresh_post))) = true) as Hok
         by (vm_compute; reflexivity). by rewrite Ep in Hok. }
  assert (match parse_token_request (default [] (in_body refresh_post)) with
          | Ok form => bool_decide (tk_grant_type form = "refresh_token")
                       && bool_decide (tk_refresh_token form = Some first_handle)
          | Err _ => false
          end = true) as Hf by (vm_compute; reflexivity).
  rewrite Ep in Hf. apply andb_true_iff in Hf as [Hg%bool_decide_eq_true Ht%bool_decide_eq_true].
  exists (default [] (in_body refresh_post)), form. done.
Qed.

Lemma http_single_successor_witness : exists w ts resp1 resp2,
  serving old_sealer 0 cfg rotating upstream (at_ms 1000200 ∅) posts w ts
  /\ ts !! 1 = Some (Ret resp1) /\ ts !! 2 = Some (Ret resp2) /\ token_answer resp1 = true
  /\ rs_body resp1 = rs_body resp2.
Proof.
  destruct all_served_answer as (a0 & a1 & a2 & w & Hs & _ & H1 & H2).
  pose proof (all_served_serving _ _ _ _ Hs) as Hr.
  exists w, [Ret a0; Ret a1; Ret a2], a1, a2. split; [exact Hr|]. split; [reflexivity|]. split; [reflexivity|].
  split; [exact H1|].
  destruct (http_single_successor old_sealer 0 cfg rotating upstream (at_ms 1000200 ∅) posts w
    [Ret a0; Ret a1; Ret a2] 1 2 first_handle a1 a2 eq_refl posts_at_relay world_of_nothing Hr eq_refl) as [_ Hb].
  - exists refresh_post. split_and!; [reflexivity|apply posts_token_at|apply refresh_post_refreshes|reflexivity|exact H1].
  - exists refresh_post. split_and!; [reflexivity|apply posts_token_at|apply refresh_post_refreshes|reflexivity|exact H2].
  - exact Hb.
Defined.

(** The redeemed code's answer carries a handle: the upstream's own token is not in it. *)
Lemma http_only_handles_witness : exists w resp, token_answer resp = true
  /\ hands_out_only (drawn_handle w) (rs_body resp)
  /\ upstream_refresh_token (rs_status resp) (rs_body resp) = Some first_handle.
Proof.
  destruct all_served_answer as (a0 & a1 & a2 & w & Hs & H0 & _).
  pose proof (all_served_serving _ _ _ _ Hs) as Hr. exists w, a0. split; [exact H0|]. split.
  - exact (http_only_handles old_sealer 0 cfg rotating upstream (at_ms 1000200 ∅) posts w
      [Ret a0; Ret a1; Ret a2] 0 _ a0 eq_refl posts_at_relay world_of_nothing Hr eq_refl (posts_token_at _) eq_refl H0).
  - assert (match all_served with
            | Some (a0, _, _, _) => bool_decide (upstream_refresh_token (rs_status a0) (rs_body a0) = Some first_handle)
            | None => false
            end = true) as Hb by (vm_compute; reflexivity).
    rewrite Hs in Hb. by apply bool_decide_eq_true in Hb.
Defined.

(** ** A whole flow

    The relay is asked for an authorization, its upstream calls back with the state it was given, and
    the client redeems the code that this made. *)

Definition get_at (e : Endpoint) (key : ResourceKey) (query : list (string * string)) : HttpIn := {|
  in_method := GET; in_path := path (endpoint_url cfg e key); in_query := Some (form_serialize query);
  in_headers := []; in_body := None;
|}.

(** The last envelope of a log. *)
Definition envelope_of (l : call_log rans) : string :=
  match last (omap (fun x => snd <$> sealed_as (projT1 x) (projT2 x)) l) with Some env => env | None => "" end.

Definition login_get : HttpIn :=
  get_at Authorize (relay_key relay)
    [("response_type", "code"); ("client_id", "app"); ("redirect_uri", app_uri); ("state", "xyz"); ("scope", "openid")].
Definition callback_get (state : string) : HttpIn :=
  get_at Callback (up_key upstream) [("code", "abc"); ("state", state)].
Definition code_post (code : string) : HttpIn :=
  token_post [("grant_type", "authorization_code"); ("code", code); ("redirect_uri", app_uri)].

(** The three requests, one after another. *)
Definition whole_flow : option (list handled) :=
  '(a1, w, l1) ← go (dispatch cfg login_get) (at_ms 1000000 ∅);
  let back := callback_get (envelope_of l1) in
  '(a2, w, l2) ← go (dispatch cfg back) w;
  let post := code_post (envelope_of l2) in
  '(a3, w, l3) ← go (dispatch cfg post) w;
  Some [{| h_request := login_get; h_log := l1; h_answer := a1 |};
        {| h_request := back; h_log := l2; h_answer := a2 |};
        {| h_request := post; h_log := l3; h_answer := a3 |}].

(** The hypotheses of [redeemed_code_was_authorized], decided on a history. *)
Definition opened_as (c : { e : reff & rans e }) : option (bytes * bytes * string) :=
  match c with
  | existT (Core (UnsealCall env ad)) a => match a with Ok pt => Some (pt, ad, env) | Err _ => None end
  | _ => None
  end.
Definition relay_found (c : { e : reff & rans e }) : option (ResourceKey * Relay) :=
  match c with
  | existT (ResolveRelay k) a => match a with Ok (Some r) => Some (k, r) | _ => None end
  | _ => None
  end.
Definition upstream_found (c : { e : reff & rans e }) : option (ResourceKey * Upstream) :=
  match c with
  | existT (ResolveUpstream k) a => match a with Ok (Some u) => Some (k, u) | _ => None end
  | _ => None
  end.

Definition logs (h : list handled) : call_log rans := h ≫= h_log.

Definition plain_keyb (k : ResourceKey) : bool := negb (contains NUL (key_str k)).

Definition authentic_b (h : list handled) : bool :=
  forallb (fun c => match opened_as c with
    | Some t => existsb (fun d => bool_decide (sealed_as (projT1 d) (projT2 d) = Some t)) (logs h)
    | None => true
    end) (logs h).

Definition well_keyed_b (h : list handled) : bool :=
  forallb (fun kr => bool_decide (relay_key kr.2 = kr.1) && plain_keyb kr.1) (omap relay_found (logs h))
  && forallb (fun ku => bool_decide (up_key ku.2 = ku.1) && plain_keyb ku.1) (omap upstream_found (logs h))
  && forallb (fun kr => forallb (fun ku => negb (bool_decide (kr.1 = ku.1))) (omap upstream_found (logs h)))
       (omap relay_found (logs h)).

Lemma in_logs h x c : x ∈ h -> c ∈ h_log x -> c ∈ logs h.
Proof. intros Hx Hc. apply list_elem_of_bind. by exists x. Qed.

Lemma authentic_ok h : authentic_b h = true -> authentic h.
Proof.
  intros Hb x env ad pt Hx Hin. unfold authentic_b in Hb. rewrite forallb_elem in Hb.
  pose proof (Hb _ (in_logs _ _ _ Hx Hin)) as Hc. simpl in Hc. apply existsb_elem in Hc as ([e a] & Hd & Hs).
  apply bool_decide_eq_true in Hs. apply list_elem_of_bind in Hd as (y & Hd & Hy). by exists y, e, a.
Qed.

Lemma found_relay h x k r : x ∈ h -> logged (ResolveRelay k) (Ok (Some r)) ∈ h_log x ->
  (k, r) ∈ omap relay_found (logs h).
Proof. intros Hx Hin. apply list_elem_of_omap. eexists. split; [by eapply in_logs|done]. Qed.
Lemma found_upstream h x k u : x ∈ h -> logged (ResolveUpstream k) (Ok (Some u)) ∈ h_log x ->
  (k, u) ∈ omap upstream_found (logs h).
Proof. intros Hx Hin. apply list_elem_of_omap. eexists. split; [by eapply in_logs|done]. Qed.

Lemma well_keyed_ok h : well_keyed_b h = true -> well_keyed h.
Proof.
  unfold well_keyed_b. rewrite !andb_true_iff, !forallb_elem. intros [[Hr Hu] Ha]. split.
  - intros x k r Hx Hin. pose proof (Hr _ (found_relay _ _ _ _ Hx Hin)) as [Hk Hp]%andb_true_iff.
    split; [by apply bool_decide_eq_true in Hk|by apply negb_true_iff in Hp].
  - intros x k u Hx Hin. pose proof (Hu _ (found_upstream _ _ _ _ Hx Hin)) as [Hk Hp]%andb_true_iff.
    split; [by apply bool_decide_eq_true in Hk|by apply negb_true_iff in Hp].
  - intros x y k k' r u Hx Hy Hin Hin'. pose proof (Ha _ (found_relay _ _ _ _ Hx Hin)) as Hf.
    rewrite forallb_elem in Hf. pose proof (Hf _ (found_upstream _ _ _ _ Hy Hin')) as Hne.
    by apply negb_true_iff, bool_decide_eq_false in Hne.
Qed.

(** Its last request redeems a code, with success. *)
Definition redeems (x : handled) : bool :=
  status_success (rs_status (h_answer x))
  && match in_body (h_request x) with
     | Some b => match parse_token_request b with
                 | Ok form => bool_decide (tk_grant_type form = "authorization_code")
                 | Err _ => false
                 end
     | None => false
     end.

Lemma redeems_ok x : redeems x = true -> succeeds (h_answer x) /\ exists b form,
  in_body (h_request x) = Some b /\ parse_token_request b = Ok form /\ tk_grant_type form = "authorization_code".
Proof.
  unfold redeems. intros [Hs Hf]%andb_true_iff. split; [done|].
  destruct (in_body _) as [b|]; [|done]. destruct (parse_token_request b) as [form|] eqn:Ep; [|done].
  apply bool_decide_eq_true in Hf. by exists b, form.
Qed.

Lemma whole_flow_run : exists x1 x2 x3, whole_flow = Some [x1; x2; x3]
  /\ genuine cfg [x1; x2; x3] /\ authentic [x1; x2; x3] /\ well_keyed [x1; x2; x3]
  /\ redeems x3 = true /\ h_request x3 = code_post (envelope_of (h_log x2)).
Proof.
  assert (match whole_flow with
          | Some h => authentic_b h && well_keyed_b h && match last h with Some x => redeems x | None => false end
          | None => false
          end = true) as Hb by (vm_compute; reflexivity).
  assert (forall h, whole_flow = Some h -> exists x1 x2 x3, h = [x1; x2; x3] /\ genuine cfg h
    /\ h_request x3 = code_post (envelope_of (h_log x2))) as Hg.
  { intros h. unfold whole_flow.
    intros ([[a1 w1] l1] & H1 & ([[a2 w2] l2] & H2 & ([[a3 w3] l3] & H3 & [= <-])%bind_Some)%bind_Some)%bind_Some.
    do 3 eexists. split; [reflexivity|]. split; [|reflexivity].
    intros x [->|[->|[->|[]%elem_of_nil]%elem_of_cons]%elem_of_cons]%elem_of_cons; by eapply go_runs. }
  destruct whole_flow as [h|]; [|done]. destruct (Hg h eq_refl) as (x1 & x2 & x3 & -> & Hgen & Hreq).
  apply andb_true_iff in Hb as [[Ha Hk]%andb_true_iff Hs].
  exists x1, x2, x3. split_and!; [done|done|by apply authentic_ok|by apply well_keyed_ok|exact Hs|exact Hreq].
Qed.

Lemma redeemed_code_was_authorized_witness : exists (h : list handled) y q u state verifier uri,
  whole_flow = Some h /\ y ∈ h /\ authorized cfg y (relay_key relay) q u state verifier
  /\ aq_redirect_uri q = Some uri.
Proof.
  destruct whole_flow_run as (x1 & x2 & x3 & Hh & Hgen & Hauth & Hkeys & Hred & Hreq).
  destruct (redeems_ok x3 Hred) as (Hs & b & form & Hb & Hp & Hg).
  destruct (redeemed_code_was_authorized cfg [x1; x2; x3] x3 (relay_key relay) b form Hgen Hauth Hkeys)
    as (y & z & q & u & r & r' & ru & uri & code & state & verifier & stored & l & _ & Hu & Hy & Ha & Hq & _).
  - apply list_elem_of_further, list_elem_of_further, list_elem_of_here.
  - rewrite Hreq. exact (proj1 (posts_token_at _)).
  - rewrite Hreq. reflexivity.
  - exact Hb.
  - exact Hp.
  - exact Hg.
  - exact Hs.
  - exists [x1; x2; x3], y, q, u, state, verifier, uri. split_and!; [exact Hh|exact Hy|exact Ha|exact Hq].
Defined.
End Scenario.
