(* ===== verification/SharedKey.v ===== *)
(** * SharedKey: a relay and an upstream with one key

    [CodeOrigin] asks that no relay has the key of an upstream. This file shows why. The router seals
    flows under the bare key of the upstream and codes under the bare key of the relay, so where the
    two keys are one string the sealer does not tell a flow from a code, and only the layout of the
    two envelopes does. The layout is postcard's, which has no type tags and ignores what follows
    the last field. Here both envelopes are written in it, on a deployment whose relay and
    upstream are both called [idp] and whose redirect URI has twelve characters: the [state] of an
    authorization request, sent back as a code, is redeemed for a token response that the sender of
    the request wrote. *)

From S2P Require Import Prelude Text Json Url Model Layout Store Seal Prog Effects RefreshHandle.
From S2P Require Import Rotation RotationSafety Requests Jwt Web Flows Grants Router CodeSafety CodeOrigin Scenario.
#[local] Open Scope string_scope.
#[local] Open Scope prog_scope.

(** ** The wire format of postcard

    Integers are little-endian base 128, of at most [max] bytes; strings and byte vectors have their
    length before them, options a tag; arrays of bytes stand as they are. *)

Module Wire.

Fixpoint put_varint (max : nat) (n : Z) : bytes :=
  match max with
  | O => []
  | Datatypes.S max => if (n <? 128)%Z then [low_byte n] else low_byte (n mod 128 + 128) :: put_varint max (n / 128)
  end.

(** A reader takes a value from the front of the bytes. *)
Definition reader (A : Type) : Type := bytes -> option (A * bytes).

Definition get_byte : reader Z := fun b =>
  match b with c :: rest => Some (Z.of_N (Byte.to_N c), rest) | [] => None end.

(** [last] bounds the last of [max] bytes. *)
Fixpoint get_varint (max : nat) (last : Z) : reader Z := fun b =>
  match max with
  | O => None
  | Datatypes.S max =>
      '(c, b) ← get_byte b;
      if (c <? 128)%Z then if bool_decide (max = 0) && (last <? c)%Z then None else Some (c, b)
      else '(n, b) ← get_varint max last b; Some ((c - 128 + 128 * n)%Z, b)
  end.

Definition put_u64 : Z -> bytes := put_varint 10.
Definition get_u64 : reader Z := get_varint 10 1.
Definition put_u16 : Z -> bytes := put_varint 3.
Definition get_u16 : reader Z := get_varint 3 3.

Definition get_array (n : nat) : reader bytes := fun b =>
  if (n <=? length b)%nat then Some (take n b, drop n b) else None.

Definition put_vec (v : bytes) : bytes := (put_u64 (Z.of_nat (length v)) ++ v)%list.
Definition get_vec : reader bytes := fun b => '(n, b) ← get_u64 b; get_array (Z.to_nat n) b.

Definition put_string (s : string) : bytes := put_vec (into_bytes s).
Definition get_string : reader string := fun b => '(v, b) ← get_vec b; s ← from_utf8 v; Some (s, b).

Definition put_option {A} (put : A -> bytes) (o : option A) : bytes :=
  match o with Some a => x01 :: put a | None => [x00] end.
Definition get_option {A} (get : reader A) : reader (option A) := fun b =>
  '(tag, b) ← get_byte b;
  if (tag =? 0)%Z then Some (None, b)
  else if (tag =? 1)%Z then '(a, b) ← get b; Some (Some a, b) else None.

Definition put_flow (f : FlowEnvelope) : bytes :=
  (put_string (fl_relay_key f) ++ put_string (fl_app_redirect_uri f) ++ put_option put_string (fl_app_state f)
   ++ put_string (fl_upstream_pkce_verifier f) ++ put_option put_string (fl_client_code_challenge f)
   ++ put_option put_string (fl_client_code_challenge_method f) ++ put_option put_string (fl_id_token_nonce f)
   ++ put_u64 (fl_issued_at f) ++ fl_nonce f)%list.

Definition get_flow : reader FlowEnvelope := fun b =>
  '(key, b) ← get_string b; '(uri, b) ← get_string b; '(state, b) ← get_option get_string b;
  '(verifier, b) ← get_string b; '(challenge, b) ← get_option get_string b;
  '(method, b) ← get_option get_string b; '(nonce, b) ← get_option get_string b;
  '(issued, b) ← get_u64 b; '(id, b) ← get_array 16 b;
  Some ({| fl_relay_key := key; fl_app_redirect_uri := uri; fl_app_state := state;
           fl_upstream_pkce_verifier := verifier; fl_client_code_challenge := challenge;
           fl_client_code_challenge_method := method; fl_id_token_nonce := nonce; fl_issued_at := issued;
           fl_nonce := id |}, b).

Definition put_response (r : StoredResponse) : bytes :=
  (put_u16 (status r) ++ put_option put_string (content_type r) ++ put_vec (body r))%list.

Definition get_response : reader StoredResponse := fun b =>
  '(s, b) ← get_u16 b; '(c, b) ← get_option get_string b; '(v, b) ← get_vec b;
  Some ({| status := s; content_type := c; body := v |}, b).

Definition put_code (c : CodeEnvelope) : bytes :=
  (put_string (ce_relay_key c) ++ ce_envelope_id c ++ put_u64 (ce_issued_at c) ++ put_string (ce_redirect_uri c)
   ++ put_option put_string (ce_client_code_challenge c) ++ put_option put_string (ce_id_token_nonce c)
   ++ put_response (ce_upstream_response c) ++ ce_handle_fingerprint c)%list.

Definition get_code : reader CodeEnvelope := fun b =>
  '(key, b) ← get_string b; '(id, b) ← get_array 16 b; '(issued, b) ← get_u64 b; '(uri, b) ← get_string b;
  '(challenge, b) ← get_option get_string b; '(nonce, b) ← get_option get_string b;
  '(response, b) ← get_response b; '(fingerprint, b) ← get_array 32 b;
  Some ({| ce_relay_key := key; ce_envelope_id := id; ce_issued_at := issued; ce_redirect_uri := uri;
           ce_client_code_challenge := challenge; ce_id_token_nonce := nonce;
           ce_upstream_response := response; ce_handle_fingerprint := fingerprint |}, b).

(** [postcard::from_bytes] ignores what is left. *)
#[export] Instance flow_wire : Postcard FlowEnvelope :=
  {| to_stdvec f := Some (put_flow f); from_postcard b := fst <$> get_flow b |}.
#[export] Instance code_wire : Postcard CodeEnvelope :=
  {| to_stdvec c := Some (put_code c); from_postcard b := fst <$> get_code b |}.
End Wire.

(** ** The deployment and the state *)

Module SharedKey.
Import PlainUrl PlainSeal PlainCodec PlainForm RotationSafety.Example Wire.
#[local] Existing Instances Scenario.sha2 Scenario.two_tokens Scenario.layout.

Definition redirect_uri : string := "https://x.io".

(** The relay of the scenario, under the key of its upstream. *)
Definition relay : Relay := {|
  relay_key := up_key Scenario.upstream; relay_upstream := up_key Scenario.upstream; generation := None;
  client_auth := ClientSecret "app" "s3cret"; scopes := ["openid"]; allowed_scopes := None;
  required_id_token_claims := ∅; id_token_policy := None;
  refresh_tokens := {| mode := Passthrough; grace_period_seconds := 30; max_lifetime_seconds := 3600 |};
  redirect_policy := [MUri redirect_uri];
|}.

(** The time of the request, in seconds: its varint is UTF-8. *)
Definition now : Z := 1678803010.

Definition forged_body : bytes := into_bytes "{'access_token':'forged'}".

(** What a code has after its identifier. The status is 200 in three bytes, so that they are UTF-8;
    postcard accepts them. *)
Definition forged_state : string :=
  from_bytes (put_u64 now ++ put_string redirect_uri ++ [x00; x00] ++ [xc8; x81; x00] ++ [x00]
    ++ put_vec forged_body ++ repeat x41 100)%list.

Example forged_state_is_text : valid_utf8 forged_state = true.
Proof. vm_compute. reflexivity. Qed.

Definition go {A} (p : rio A) (w : World) : option (A * World * call_log rans) :=
  log_run (Scenario.answers_for relay 0) p w.

Definition login_get : HttpIn :=
  Scenario.get_at Authorize (relay_key relay)
    [("response_type", "code"); ("redirect_uri", redirect_uri); ("state", forged_state); ("scope", "openid")].
Definition code_post (code : string) : HttpIn := {|
  in_method := POST; in_path := path (endpoint_url Scenario.cfg Token (relay_key relay)); in_query := None;
  in_headers := [];
  in_body := Some (into_bytes (form_serialize [("grant_type", "authorization_code"); ("code", code);
    ("redirect_uri", redirect_uri); ("client_id", "app"); ("client_secret", "s3cret")]));
|}.

(** An authorization request, and its state in place of a code. No upstream is asked. *)
Definition forged_flow : option (list handled) :=
  '(a1, w, l1) ← go (dispatch Scenario.cfg login_get) (Scenario.at_ms (now * 1000) ∅);
  let post := code_post (Scenario.envelope_of l1) in
  '(a2, w, l2) ← go (dispatch Scenario.cfg post) w;
  Some [{| h_request := login_get; h_log := l1; h_answer := a1 |};
        {| h_request := post; h_log := l2; h_answer := a2 |}].

Definition asks_upstream (c : { e : reff & rans e }) : bool :=
  match c with existT (Execute _ _) _ => true | _ => false end.

(** C8: a state can be redeemed as a code. Where a relay and its upstream have the same key, the two
    requests of [forged_flow] run through the router, every envelope they open is one that they
    sealed, and yet the second redeems with success what no callback made: its code is the state of
    the first, its answer is the token response that the first one's [state] parameter spelled, and
    no request was sent to any upstream. *)
Lemma shared_key_forges_code : exists x1 x2, forged_flow = Some [x1; x2]
  /\ genuine Scenario.cfg [x1; x2] /\ authentic [x1; x2]
  /\ succeeds (h_answer x2) /\ rs_body (h_answer x2) = forged_body
  /\ existsb asks_upstream (Scenario.logs [x1; x2]) = false.
Proof.
  assert (match forged_flow with
          | Some [x1; x2] => Scenario.authentic_b [x1; x2] && status_success (rs_status (h_answer x2))
              && bool_decide (rs_body (h_answer x2) = forged_body)
              && negb (existsb asks_upstream (Scenario.logs [x1; x2]))
          | _ => false
          end = true) as Hb by (vm_compute; reflexivity).
  assert (forall h, forged_flow = Some h -> genuine Scenario.cfg h) as Hg.
  { intros h. unfold forged_flow.
    intros ([[a1 w1] l1] & H1 & ([[a2 w2] l2] & H2 & [= <-])%bind_Some)%bind_Some.
    intros x [->|[->|[]%elem_of_nil]%elem_of_cons]%elem_of_cons; by eapply log_run_runs. }
  destruct forged_flow as [[|x1 [|x2 [|]]]|]; try discriminate Hb.
  apply andb_true_iff in Hb as [[[Ha Hs]%andb_true_iff Hf%bool_decide_eq_true]%andb_true_iff Hn].
  exists x1, x2. split; [reflexivity|]. split; [by apply Hg|]. split; [by apply Scenario.authentic_ok|].
  split; [exact Hs|]. split; [exact Hf|]. by apply negb_true_iff in Hn.
Qed.
End SharedKey.
