(* ===== verification/KubeMapping.v ===== *)
(** * KubeMapping: store records as Kubernetes objects

    Models crates/oauthrelay-store-kubernetes/src/mapping.rs: the names, labels and fields of the
    objects that hold the records of the Kubernetes store, in the [TransientRecord] and the Dex
    [AuthCode] layout. Names identify keys, and an encoded record decodes to itself. Timestamps
    (jiff) and label selectors (the API server) are third-party and enter as [TimeLib] and
    [SelectorLib]. *)

From S2P Require Import Prelude Text Json Seal RefreshHandle Requests.
#[local] Open Scope string_scope.
#[local] Open Scope relay_scope.

Definition max_i64 : Z := 2 ^ 63 - 1.

(** ** Third-party parts *)

(** [jiff::Timestamp], in milliseconds of the Unix epoch: the last second it represents, its
    millisecond RFC 3339 text, and parsing such text. *)
Class TimeLib := {
  timestamp_max_second : Z;
  strftime_ms : Z -> option string;
  parse_timestamp : string -> option Z;
}.

(** What is formatted reads back, and every instant up to the last second is formatted. *)
Class TimeLaws (T : TimeLib) : Prop := {
  parse_strftime ms s : strftime_ms ms = Some s -> parse_timestamp s = Some ms;
  strftime_range ms : (0 <= ms <= timestamp_max_second * 1000)%Z -> is_Some (strftime_ms ms);
  max_second_range : (0 <= timestamp_max_second * 1000 <= max_i64)%Z;
}.

(** ** Names *)

Definition MANAGED_BY_LABEL : string := "app.kubernetes.io/managed-by".
Definition MANAGED_BY_VALUE : string := "oauthrelay".
Definition MANAGED_SELECTOR : string := "app.kubernetes.io/managed-by=oauthrelay".
Definition PURPOSE_LABEL : string := "oauthrelay.dev/purpose".
Definition EXPIRES_HOUR_LABEL : string := "oauthrelay.dev/expires-hour".
Definition EXPIRY_BUCKET_MS : Z := 3600000.
Definition NAME_PREFIX : string := "oauthrelay-".
Definition DEX_NAME_PREFIX : string := "zzzzzzzzzzz".
Definition BASE32_ALPHABET : string := "abcdefghijklmnopqrstuvwxyz234567".

(** [char::from(BASE32_ALPHABET[digit])]. *)
Definition base32_char (digit : Z) : ascii :=
  default "a"%char (String.get (Z.to_nat digit) BASE32_ALPHABET).

(** The inner loop: the digits that [buffer] already holds, and the bits that remain. *)
Fixpoint drain (fuel : nat) (buffer bits : Z) : list Z * Z :=
  match fuel with
  | 0 => ([], bits)
  | S fuel =>
      if (5 <=? bits)%Z then
        let bits := (bits - 5)%Z in
        let '(digits, rest) := drain fuel buffer bits in
        (Z.land (Z.shiftr buffer bits) 31 :: digits, rest)
      else ([], bits)
  end.

(** The loop over the bytes. [bits] is below 5, so a byte makes at most two digits. *)
Fixpoint base32_digits (b : bytes) (buffer bits : Z) : list Z :=
  match b with
  | [] => if (0 <? bits)%Z then [Z.land (Z.shiftl buffer (5 - bits)) 31] else []
  | c :: b =>
      let buffer := Z.lor (Z.shiftl buffer 8) (Z.of_N (Byte.to_N c)) in
      let '(digits, bits) := drain 2 buffer (bits + 8) in
      (digits ++ base32_digits b (Z.land buffer (Z.shiftl 1 bits - 1)) bits)%list
  end.

Definition base32_lower (b : bytes) : string :=
  String.string_of_list_ascii (base32_char <$> base32_digits b 0 0).

Definition prefixed_name {H : Sha256} (prefix key : string) : string :=
  prefix +:+ base32_lower (sha256 (into_bytes key)).

Definition object_name {H : Sha256} (key : string) : string := prefixed_name NAME_PREFIX key.

(** ** Labels *)

(** A valid label value, of at most 63 characters. *)
Definition label_char (c : ascii) : bool := is_alphanumeric c || bool_decide (c ∈ ["-"; "_"; "."]%char).

Definition purpose (key : string) : option string :=
  let segment := default "" (head (split ":" key)) in
  if negb (is_empty segment) && (String.length segment <=? 63)%nat && str_all label_char segment
     && match first segment with Some c => is_alphanumeric c | None => false end
     && match last_char segment with Some c => is_alphanumeric c | None => false end
  then Some segment else None.

Definition expiry_hour (expires_at_ms : Z) : Z := (expires_at_ms / EXPIRY_BUCKET_MS)%Z.

Definition hour_text (hour : Z) : string := pretty.pretty hour.

Definition expiry_selector (hours : list Z) : string :=
  MANAGED_SELECTOR +:+ "," +:+ EXPIRES_HOUR_LABEL +:+ " in (" +:+ join "," (hour_text <$> hours) +:+ ")".

Definition labels (key : string) (expires_at_ms : Z) : gmap string string :=
  let labels : gmap string string :=
    <[EXPIRES_HOUR_LABEL := hour_text (expiry_hour expires_at_ms)]> {[MANAGED_BY_LABEL := MANAGED_BY_VALUE]} in
  match purpose key with Some p => <[PURPOSE_LABEL := p]> labels | None => labels end.

(** Label selectors, which the API server evaluates. *)
Class SelectorLib := { selects : string -> gmap string string -> bool }.

Class SelectorLaws (S : SelectorLib) : Prop := {
  selects_managed l : selects MANAGED_SELECTOR l = bool_decide (l !! MANAGED_BY_LABEL = Some MANAGED_BY_VALUE);
  selects_hours hours l : hours <> [] ->
    selects (expiry_selector hours) l =
    bool_decide (l !! MANAGED_BY_LABEL = Some MANAGED_BY_VALUE)
    && existsb (fun h => bool_decide (l !! EXPIRES_HOUR_LABEL = Some (hour_text h))) hours;
}.

(** ** Times *)

Section Mapping.
Context {H : Sha256} {B : Base64} {BS : Base64Std} {T : TimeLib}.

Definition format_time (millis : Z) : option string :=
  if (millis <=? max_i64)%Z then strftime_ms millis else None.

(** Instants before the epoch read as the epoch. *)
Definition parse_time (text : string) : option Z := t ← parse_timestamp text; Some (Z.max 0 t).

Definition max_expiry_millis : Z := Z.max 0 (timestamp_max_second * 1000).

(** ** Records as objects *)

Record Stored := { st_name : string; resource_version : string; st_value : bytes; st_expires_ms : Z }.

Record NewRecord := { nr_name : string; nr_key : string; nr_value : bytes; nr_expires_ms : Z }.

(** [kube::api::DynamicObject], the parts the store writes and reads. *)
Record DynamicObject := {
  do_name : option string;
  do_namespace : option string;
  do_labels : gmap string string;
  do_resource_version : option string;
  do_data : Value;
}.

Inductive RecordMapping := TransientRecord | DexAuthCode.

Definition RecordMapping_ALL : list RecordMapping := [TransientRecord; DexAuthCode].

#[export] Instance record_mapping_eq_dec : EqDecision RecordMapping.
Proof. solve_decision. Defined.

Definition mapping_object_name (m : RecordMapping) (key : string) : string :=
  match m with
  | TransientRecord => object_name key
  | DexAuthCode => prefixed_name DEX_NAME_PREFIX key
  end.

Definition needs_explicit_namespace (m : RecordMapping) : bool := bool_decide (m = DexAuthCode).

Definition resource_name (m : RecordMapping) : string :=
  match m with
  | TransientRecord => "transientrecords.oauthrelay.dev"
  | DexAuthCode => "authcodes.dex.coreos.com"
  end.

Definition from_resource_name (name : string) : option RecordMapping :=
  List.find (fun m => bool_decide (resource_name m = name)) RecordMapping_ALL.

Definition install_hint (m : RecordMapping) : string :=
  match m with
  | TransientRecord => "the CRD is installed (`oauthrelay crds`)"
  | DexAuthCode => "Dex is installed and running in that namespace (it creates the CRD)"
  end.

Definition DEX_CLIENT_ID : string := "oauthrelay:transient-record".
Definition DEX_REDIRECT_URI : string := "urn:oauthrelay:transient-record".
Definition DEX_CONNECTOR_ID : string := "oauthrelay".

(** The fields of an object; [challenge] is 32 random bytes. *)
Definition encode_data (m : RecordMapping) (r : NewRecord) (expires_at : string) (challenge : bytes) : Value :=
  match m with
  | TransientRecord =>
      Object [("spec", Object [("key", Str (nr_key r)); ("value", Str (std_encode (nr_value r)));
                               ("expiresAt", Str expires_at)])]
  | DexAuthCode =>
      Object [("clientID", Str DEX_CLIENT_ID); ("redirectURI", Str DEX_REDIRECT_URI);
              ("connectorID", Str DEX_CONNECTOR_ID); ("connectorData", Str (std_encode (nr_value r)));
              ("expiry", Str expires_at); ("code_challenge", Str (b64_encode challenge));
              ("code_challenge_method", Str "S256")]
  end.

Definition mapping_encode (m : RecordMapping) (namespace : string) (r : NewRecord) (challenge : bytes)
    : option DynamicObject :=
  expires_at ← format_time (nr_expires_ms r);
  Some {| do_name := Some (nr_name r); do_namespace := Some namespace;
          do_labels := labels (nr_key r) (nr_expires_ms r); do_resource_version := None;
          do_data := encode_data m r expires_at challenge |}.

(** The value and the expiry of a [TransientRecordSpec], which serde reads from an object with all
    of its fields, or from their sequence. *)
Definition spec_fields (spec : Value) : option (string * string) :=
  match spec with
  | Array [Str _; Str v; Str e] => Some (v, e)
  | _ =>
      _ ← get_str spec "key";
      v ← get_str spec "value";
      e ← get_str spec "expiresAt";
      Some (v, e)
  end.

(** The texts of the value and the expiry. *)
Definition data_fields (m : RecordMapping) (data : Value) : option (string * string) :=
  match m with
  | TransientRecord =>
      spec ← get data "spec"; spec_fields spec
  | DexAuthCode =>
      v ← get_str data "connectorData";
      e ← get_str data "expiry";
      Some (v, e)
  end.

Definition mapping_decode (m : RecordMapping) (o : DynamicObject) : option Stored :=
  name ← do_name o;
  version ← do_resource_version o;
  fields ← data_fields m (do_data o);
  v ← std_decode (into_bytes fields.1);
  e ← parse_time fields.2;
  Some {| st_name := name; resource_version := version; st_value := v; st_expires_ms := e |}.

(** What the API server keeps of a written object: the same object with a version. *)
Definition with_version (o : DynamicObject) (version : string) : DynamicObject := {|
  do_name := do_name o; do_namespace := do_namespace o; do_labels := do_labels o;
  do_resource_version := Some version; do_data := do_data o |}.
End Mapping.

(** ** Base32 *)

(** The number that digits of a base write, from the most significant. *)
Definition digits_value (base : Z) (l : list Z) : Z := foldl (fun a d => (a * base + d)%Z) 0%Z l.

Lemma digits_value_from base l a :
  foldl (fun a d => (a * base + d)%Z) a l = (a * base ^ Z.of_nat (length l) + digits_value base l)%Z.
Proof.
  unfold digits_value. revert a. induction l as [|d l IH]; intros a; cbn [foldl length]; [lia|].
  rewrite IH, (IH (0 * base + d)%Z), Nat2Z.inj_succ, Z.pow_succ_r by lia. ring.
Qed.

Lemma digits_value_cons base d l :
  digits_value base (d :: l) = (d * base ^ Z.of_nat (length l) + digits_value base l)%Z.
Proof. unfold digits_value at 1. cbn [foldl]. rewrite digits_value_from. f_equal. Qed.

Lemma digits_value_app base l l' :
  digits_value base (l ++ l') = (digits_value base l * base ^ Z.of_nat (length l') + digits_value base l')%Z.
Proof. unfold digits_value at 1. by rewrite foldl_app, digits_value_from. Qed.

Lemma digits_value_bound base l :
  (0 < base)%Z -> Forall (fun d => 0 <= d < base)%Z l -> (0 <= digits_value base l < base ^ Z.of_nat (length l))%Z.
Proof.
  intros Hb. induction 1 as [|d l Hd _ IH]; [by vm_compute|].
  rewrite digits_value_cons. cbn [length]. rewrite Nat2Z.inj_succ, Z.pow_succ_r by lia.
  assert (0 < base ^ Z.of_nat (length l))%Z by (apply Z.pow_pos_nonneg; lia). nia.
Qed.

Lemma digits_value_inj base l l' :
  (0 < base)%Z -> Forall (fun d => 0 <= d < base)%Z l -> Forall (fun d => 0 <= d < base)%Z l' ->
  length l = length l' -> digits_value base l = digits_value base l' -> l = l'.
Proof.
  intros Hb Hl. revert l'. induction Hl as [|d l Hd Hl IH]; intros [|d' l'] Hl' Hlen Hv; try done.
  apply Forall_cons in Hl' as [Hd' Hl']. injection Hlen as Hlen.
  rewrite !digits_value_cons, Hlen in Hv.
  pose proof (digits_value_bound base l Hb Hl) as B1. pose proof (digits_value_bound base l' Hb Hl') as B2.
  rewrite Hlen in B1. assert (0 < base ^ Z.of_nat (length l'))%Z by (apply Z.pow_pos_nonneg; lia).
  assert (d = d') as -> by nia. f_equal. apply IH; [done..|nia].
Qed.

Definition byte_digits (b : bytes) : list Z := (fun c => Z.of_N (Byte.to_N c)) <$> b.

Lemma byte_digit_range c : (0 <= Z.of_N (Byte.to_N c) < 256)%Z.
Proof. pose proof (Byte.to_N_bounded c). lia. Qed.

Lemma byte_digits_range b : Forall (fun d => 0 <= d < 256)%Z (byte_digits b).
Proof. apply Forall_fmap, Forall_true. intros c. apply byte_digit_range. Qed.

Lemma byte_digits_inj b b' : byte_digits b = byte_digits b' -> b = b'.
Proof.
  apply list_fmap_eq_inj. intros c c' Hc. apply N2Z.inj in Hc.
  pose proof (Byte.of_to_N c) as E. rewrite Hc, Byte.of_to_N in E. by injection E.
Qed.

Lemma drain_spec fuel buffer bits digits rest :
  (0 <= buffer)%Z -> (0 <= bits < 5 * Z.of_nat fuel + 5)%Z -> drain fuel buffer bits = (digits, rest) ->
  (0 <= rest < 5)%Z /\ bits = (5 * Z.of_nat (length digits) + rest)%Z
  /\ digits_value 32 digits = ((buffer / 2 ^ rest) mod 32 ^ Z.of_nat (length digits))%Z
  /\ Forall (fun d => 0 <= d < 32)%Z digits.
Proof.
  intros Hbuf. revert bits digits rest. induction fuel as [|fuel IH]; intros bits digits rest Hb; cbn [drain].
  { intros [= <- <-]. cbn. rewrite Z.mod_1_r. split_and!; [lia..|done|done]. }
  destruct (5 <=? bits)%Z eqn:E; reflect.
  2: { intros [= <- <-]. cbn. rewrite Z.mod_1_r. split_and!; [lia..|done|done]. }
  destruct (drain fuel buffer (bits - 5)) as [ds r] eqn:Ed. intros [= <- <-].
  destruct (IH (bits - 5)%Z ds r) as (Hr & Hbits & Hv & Hds); [lia|done|].
  assert (Z.land (Z.shiftr buffer (bits - 5)) 31 = (buffer / 2 ^ (bits - 5)) mod 32)%Z as Hd.
  { rewrite Z.shiftr_div_pow2 by lia. change 31%Z with (Z.ones 5). by rewrite Z.land_ones by lia. }
  rewrite Hd. split_and!; [lia|lia|cbn [length]; lia| |].
  - rewrite digits_value_cons, Hv. cbn [length]. rewrite Nat2Z.inj_succ, Z.pow_succ_r by lia.
    replace (bits - 5)%Z with (r + 5 * Z.of_nat (length ds))%Z by lia.
    rewrite Z.pow_add_r, <- Z.div_div by lia.
    replace (2 ^ (5 * Z.of_nat (length ds)))%Z with (32 ^ Z.of_nat (length ds))%Z
      by (rewrite Z.pow_mul_r by lia; reflexivity).
    set (x := (buffer / 2 ^ r)%Z). set (m := (32 ^ Z.of_nat (length ds))%Z).
    assert (0 < m)%Z by (apply Z.pow_pos_nonneg; lia).
    rewrite (Z.mul_comm 32 m), Z.rem_mul_r by lia. lia.
  - constructor; [|done]. apply Z.mod_pos_bound. lia.
Qed.

Lemma add_byte buffer c :
  (0 <= buffer)%Z ->
  Z.lor (Z.shiftl buffer 8) (Z.of_N (Byte.to_N c)) = (buffer * 256 + Z.of_N (Byte.to_N c))%Z.
Proof.
  intros Hb. pose proof (byte_digit_range c). rewrite Z.shiftl_mul_pow2 by lia.
  rewrite <- Z.lxor_lor, <- Z.add_nocarry_lxor; [done|..]; apply Z.bits_inj'; intros n Hn;
    rewrite Z.land_spec, Z.bits_0; destruct (Z.lt_ge_cases n 8) as [Hlt|Hge].
  1,3: by rewrite Z.mul_pow2_bits_low by lia.
  all: rewrite andb_false_iff; right; rewrite <- (Z.mod_small (Z.of_N _) (2 ^ 8)) by lia;
    by rewrite Z.mod_pow2_bits_high by lia.
Qed.

(** The digits write the bytes, with [pad] zero bits at the end. *)
Lemma base32_digits_spec b buffer bits :
  (0 <= bits < 5)%Z -> (0 <= buffer < 2 ^ bits)%Z ->
  exists pad, (0 <= pad < 5)%Z
    /\ (5 * Z.of_nat (length (base32_digits b buffer bits)) = bits + 8 * Z.of_nat (length b) + pad)%Z
    /\ digits_value 32 (base32_digits b buffer bits)
       = ((buffer * 256 ^ Z.of_nat (length b) + digits_value 256 (byte_digits b)) * 2 ^ pad)%Z
    /\ Forall (fun d => 0 <= d < 32)%Z (base32_digits b buffer bits).
Proof.
  revert buffer bits. induction b as [|c b IH]; intros buffer bits Hbits Hbuf; cbn [base32_digits].
  - destruct (0 <? bits)%Z eqn:E; reflect.
    + exists (5 - bits)%Z. change 31%Z with (Z.ones 5). rewrite Z.land_ones, Z.shiftl_mul_pow2 by lia.
      assert (2 ^ bits * 2 ^ (5 - bits) = 32)%Z as H32 by (rewrite <- Z.pow_add_r by lia; by replace (bits + (5 - bits))%Z with 5%Z by lia).
      assert (0 < 2 ^ (5 - bits))%Z by (apply Z.pow_pos_nonneg; lia).
      assert (0 <= buffer * 2 ^ (5 - bits) < 32)%Z by nia.
      rewrite Z.mod_small by (change (2 ^ 5)%Z with 32%Z; lia). cbn [length].
      split_and!; [lia|lia|lia|cbn; lia|]. by constructor.
    + exists 0%Z. assert (bits = 0)%Z as -> by lia. assert (buffer = 0)%Z as -> by lia.
      split_and!; [lia..|done|done].
  - rewrite add_byte by lia. pose proof (byte_digit_range c) as Hc. set (buf := (buffer * 256 + _)%Z).
    destruct (drain 2 buf (bits + 8)) as [ds r] eqn:Ed.
    apply drain_spec in Ed as (Hr & Hlen & Hv & Hds); [|lia|lia].
    assert (Z.land buf (Z.shiftl 1 r - 1) = buf mod 2 ^ r)%Z as ->.
    { rewrite Z.shiftl_1_l. replace (2 ^ r - 1)%Z with (Z.ones r) by (rewrite Z.ones_equiv; lia). apply Z.land_ones. lia. }
    assert (0 < 2 ^ r)%Z by (apply Z.pow_pos_nonneg; lia).
    destruct (IH (buf mod 2 ^ r)%Z r) as (pad & Hp & Hl & Hval & Hall); [lia|by apply Z.mod_pos_bound|].
    exists pad. split_and!; [lia|lia|rewrite length_app; cbn [length]; lia| |by apply Forall_app].
    rewrite digits_value_app, Hval, Hv.
    change (byte_digits (c :: b)) with (Z.of_N (Byte.to_N c) :: byte_digits b).
    rewrite digits_value_cons. unfold byte_digits at 2. rewrite length_fmap. cbn [length].
    assert (0 <= buf < 2 ^ (bits + 8))%Z as Hb by (rewrite Z.pow_add_r by lia; change (2 ^ 8)%Z with 256%Z; nia).
    assert (2 ^ (bits + 8) = 32 ^ Z.of_nat (length ds) * 2 ^ r)%Z as Hpow.
    { rewrite Hlen, Z.pow_add_r, Z.pow_mul_r by lia. done. }
    rewrite (Z.mod_small (buf / 2 ^ r)).
    2: { split; [apply Z.div_pos; lia|]. apply Z.div_lt_upper_bound; lia. }
    assert (32 ^ Z.of_nat (length (base32_digits b (buf mod 2 ^ r) r))
            = 2 ^ r * 256 ^ Z.of_nat (length b) * 2 ^ pad)%Z as ->.
    { change 32%Z with (2 ^ 5)%Z at 1. change 256%Z with (2 ^ 8)%Z. rewrite <- !Z.pow_mul_r by lia.
      rewrite Hl, !Z.pow_add_r by lia. done. }
    rewrite Nat2Z.inj_succ, Z.pow_succ_r by lia.
    pose proof (Z.div_mod buf (2 ^ r) ltac:(lia)) as Hdm.
    trans (((2 ^ r * (buf / 2 ^ r) + buf mod 2 ^ r) * 256 ^ Z.of_nat (length b)
            + digits_value 256 (byte_digits b)) * 2 ^ pad)%Z; [ring|].
    rewrite <- Hdm. unfold buf. ring.
Qed.

Definition base32_value (c : ascii) : Z :=
  if is_lower c then Z.of_nat (code c) - 97 else Z.of_nat (code c) - 24.

Lemma base32_value_char d : (0 <= d < 32)%Z ->
  base32_value (base32_char d) = d /\ (is_lower (base32_char d) || is_digit (base32_char d)) = true.
Proof.
  intros Hd. rewrite <- (Z2Nat.id d) by lia. assert (Z.to_nat d < 32) as Hn by lia.
  generalize dependent (Z.to_nat d). intros n Hn. do 32 (destruct n as [|n]; [by vm_compute|]). lia.
Qed.

#[local] Opaque base32_char.

Lemma base32_chars_inj l l' :
  Forall (fun d => 0 <= d < 32)%Z l -> Forall (fun d => 0 <= d < 32)%Z l' ->
  base32_char <$> l = base32_char <$> l' -> l = l'.
Proof.
  intros Hl. revert l'. induction Hl as [|d l Hd _ IH]; intros [|d' l'] Hl' Heq; try done.
  apply Forall_cons in Hl' as [Hd' Hl']. cbn in Heq. injection Heq as Hc Heq.
  f_equal; [|by apply IH].
  by rewrite <- (proj1 (base32_value_char d Hd)), Hc, (proj1 (base32_value_char d' Hd')).
Qed.

Lemma list_ascii_inj l l' : String.string_of_list_ascii l = String.string_of_list_ascii l' -> l = l'.
Proof. intros E. by rewrite <- (String.list_ascii_of_string_of_list_ascii l), E, String.list_ascii_of_string_of_list_ascii. Qed.

Lemma base32_lower_inj b b' : length b = length b' -> base32_lower b = base32_lower b' -> b = b'.
Proof.
  intros Hlen Heq. unfold base32_lower in Heq. apply list_ascii_inj in Heq.
  destruct (base32_digits_spec b 0 0) as (p & Hp & Hl & Hv & Hall); [lia..|].
  destruct (base32_digits_spec b' 0 0) as (p' & Hp' & Hl' & Hv' & Hall'); [lia..|].
  apply base32_chars_inj in Heq; [|done..]. rewrite <- Heq in Hl', Hv'. assert (p = p') as <- by lia.
  rewrite Hv in Hv'. assert (0 < 2 ^ p)%Z by (apply Z.pow_pos_nonneg; lia).
  apply byte_digits_inj, (digits_value_inj 256); [lia|apply byte_digits_range..| |nia].
  unfold byte_digits. by rewrite !length_fmap.
Qed.

Lemma string_of_list_length l : String.length (String.string_of_list_ascii l) = length l.
Proof. induction l; simpl; by f_equal. Qed.

Lemma str_all_of_list f l : str_all f (String.string_of_list_ascii l) = forallb f l.
Proof. induction l as [|c l IH]; simpl; [done|]. by rewrite IH. Qed.

(** The characters of a Kubernetes object name that the store writes. *)
Definition name_char (c : ascii) : bool := is_lower c || is_digit c || bool_decide (c = "-"%char).

Lemma base32_lower_chars b :
  str_all name_char (base32_lower b) = true /\ (length b = 32 -> String.length (base32_lower b) = 52).
Proof.
  destruct (base32_digits_spec b 0 0) as (p & Hp & Hl & _ & Hall); [lia..|]. unfold base32_lower. split.
  - rewrite str_all_of_list, forallb_elem. intros c (d & -> & Hd)%list_elem_of_fmap.
    rewrite Forall_forall in Hall. unfold name_char. by rewrite (proj2 (base32_value_char d (Hall d Hd))).
  - rewrite string_of_list_length, length_fmap. lia.
Qed.

(** ** Selectors *)

Lemma labels_managed key e : labels key e !! MANAGED_BY_LABEL = Some MANAGED_BY_VALUE.
Proof.
  unfold labels. cbv zeta. destruct (purpose key); rewrite ?(lookup_insert_ne _ PURPOSE_LABEL) by done;
    by rewrite lookup_insert_ne, lookup_singleton_eq by done.
Qed.

Lemma labels_hour key e : labels key e !! EXPIRES_HOUR_LABEL = Some (hour_text (expiry_hour e)).
Proof.
  unfold labels. cbv zeta. destruct (purpose key); rewrite ?(lookup_insert_ne _ PURPOSE_LABEL) by done;
    by rewrite lookup_insert_eq.
Qed.

Lemma labels_selected {S : SelectorLib} {SL : SelectorLaws S} key e :
  selects MANAGED_SELECTOR (labels key e) = true.
Proof. by rewrite selects_managed, labels_managed, bool_decide_eq_true_2. Qed.

#[export] Instance hour_text_inj : Inj (=) (=) hour_text.
Proof. intros a b. apply pretty.pretty_Z_inj. Qed.

Lemma labels_hours {S : SelectorLib} {SL : SelectorLaws S} key e hours :
  hours <> [] -> selects (expiry_selector hours) (labels key e) = bool_decide (expiry_hour e ∈ hours).
Proof.
  intros Hne. rewrite selects_hours, labels_managed, bool_decide_eq_true_2 by done. cbn [andb].
  apply eq_true_iff_eq. rewrite existsb_elem, bool_decide_eq_true, labels_hour. split.
  - intros (h & Hin & [= ->%hour_text_inj]%bool_decide_eq_true). done.
  - intros Hin. eexists. split; [exact Hin|]. by rewrite bool_decide_eq_true_2.
Qed.

Lemma encoded_fields {B : Base64} {BS : Base64Std} m r s challenge :
  data_fields m (encode_data m r s challenge) = Some (std_encode (nr_value r), s).
Proof. by destruct m. Qed.

(** ** Properties *)

(** An object name identifies its key. Two keys whose digests do not collide, and one key in the
    two layouts, have different names; every name is a DNS label of 63 characters, too long to be
    one of Dex's own. *)
Theorem object_names_identify {H : Sha256} m m' key key' :
  (forall b, length (sha256 b) = 32) ->
  (sha256 (into_bytes key) = sha256 (into_bytes key') -> key = key') ->
  String.length (mapping_object_name m key) = 63 /\ str_all name_char (mapping_object_name m key) = true
  /\ (mapping_object_name m key = mapping_object_name m' key' -> m = m' /\ key = key').
Proof.
  intros H32 Hcf. assert (forall k, String.length (base32_lower (sha256 (into_bytes k))) = 52) as Hl.
  { intros k. by apply base32_lower_chars. }
  split_and!.
  - destruct m; cbn [mapping_object_name]; unfold object_name, prefixed_name; by rewrite str_app_length, Hl.
  - destruct m; cbn [mapping_object_name]; unfold object_name, prefixed_name;
      by rewrite str_all_app, (proj1 (base32_lower_chars _)).
  - assert (forall p, prefixed_name p key = prefixed_name p key' -> key = key') as Hinj.
    { intros p Heq%(inj (String.app p)). apply Hcf, base32_lower_inj; [by rewrite !H32|done]. }
    destruct m, m'; cbn [mapping_object_name]; unfold object_name; intros Heq;
      [by eauto|discriminate Heq..|by eauto].
Qed.

(** A record survives its object. In both layouts, a record up to the last timestamp encodes,
    whatever its value; the object carries the labels the sweeper selects by, in its expiry hour and
    in no other; and what the API server returns under a version decodes to the record. *)
Theorem record_round_trip {H : Sha256} {B : Base64} {BS : Base64Std} {BSL : Base64StdLaws BS} {T : TimeLib}
    {TL : TimeLaws T} {S : SelectorLib} {SL : SelectorLaws S} m namespace r challenge :
  (0 <= nr_expires_ms r <= max_expiry_millis)%Z ->
  exists o, mapping_encode m namespace r challenge = Some o
    /\ selects MANAGED_SELECTOR (do_labels o) = true
    /\ (forall hours, hours <> [] -> selects (expiry_selector hours) (do_labels o) = true
          <-> expiry_hour (nr_expires_ms r) ∈ hours)
    /\ forall version, mapping_decode m (with_version o version) =
         Some {| st_name := nr_name r; resource_version := version; st_value := nr_value r;
                 st_expires_ms := nr_expires_ms r |}.
Proof.
  unfold max_expiry_millis. intros Hr. pose proof max_second_range as Hmax.
  destruct (strftime_range (nr_expires_ms r)) as [s Hs]; [lia|].
  unfold mapping_encode, format_time. rewrite (proj2 (Z.leb_le _ _)), Hs by lia. cbn [mbind option_bind].
  eexists. split; [done|]. cbn [do_labels]. split; [apply labels_selected|]. split.
  - intros hours Hne. by rewrite labels_hours, bool_decide_eq_true by done.
  - intros version. unfold mapping_decode, parse_time.
    cbn [with_version do_name do_resource_version do_data mbind option_bind].
    rewrite encoded_fields. cbn [mbind option_bind fst snd]. rewrite std_decode_encode.
    cbn [mbind option_bind]. rewrite (parse_strftime _ _ Hs). cbn [mbind option_bind].
    by rewrite Z.max_r by lia.
Qed.

(** ** Concrete third-party parts *)

Module PlainKube.
Import PlainSeal PlainCodec PlainForm.

#[export] Instance sha32 : Sha256 := fun b => take 32 (b ++ repeat x00 32)%list.

Lemma sha32_length b : length (sha256 b) = 32.
Proof. unfold sha256, sha32. rewrite length_take, length_app, repeat_length. lia. Qed.

(** A timestamp is its sign and the code of its number of milliseconds. *)
#[export] Instance times : TimeLib := {|
  timestamp_max_second := 253402207200;
  strftime_ms ms := Some (String (if (ms <? 0)%Z then "-" else "+") (PlainSeal.hex (pack (Z.abs ms))));
  parse_timestamp s :=
    match s with
    | String sign s =>
        b ← PlainSeal.unhex s; ms ← unpack b;
        Some (if bool_decide (sign = "-"%char) then - ms else ms)%Z
    | _ => None
    end;
|}.

#[export] Instance times_laws : TimeLaws times.
Proof.
  constructor; [|by eauto|by vm_compute]. intros ms s [= <-]. cbn [parse_timestamp times].
  pose proof (@b64_decode_encode _ PlainSeal.base64_laws (pack (Z.abs ms))) as Hd. cbn in Hd.
  rewrite Hd. cbn [mbind option_bind]. rewrite unpack_pack. cbn [mbind option_bind].
  destruct (Z.ltb_spec ms 0); [rewrite bool_decide_eq_true_2 by done|rewrite bool_decide_eq_false_2 by done]; f_equal; lia.
Qed.

(** Selectors of the two shapes the store sends. *)
#[export] Instance selectors : SelectorLib := {|
  selects sel l :=
    bool_decide (l !! MANAGED_BY_LABEL = Some MANAGED_BY_VALUE)
    && match strip_prefix MANAGED_SELECTOR sel with
       | Some "" => true
       | Some rest =>
           match (inner ← strip_prefix ("," +:+ EXPIRES_HOUR_LABEL +:+ " in (") rest; strip_suffix ")" inner) with
           | Some inner => existsb (fun h => bool_decide (l !! EXPIRES_HOUR_LABEL = Some h)) (split "," inner)
           | None => false
           end
       | None => false
       end;
|}.

Lemma pretty_go_no_comma x s : contains "," s = false -> contains "," (pretty.pretty_N_go x s) = false.
Proof.
  revert s. induction (N.lt_wf_0 x) as [x _ IH]. intros s Hs.
  destruct (decide (x = 0)%N) as [->|Hx]; [by rewrite pretty.pretty_N_go_0|].
  rewrite pretty.pretty_N_go_step by lia. apply IH; [apply N.div_lt; lia|].
  rewrite contains_false in *. cbn [str_all]. rewrite Hs, andb_true_r.
  unfold pretty.pretty_N_char. destruct (x mod 10)%N as [|p]; [done|]. by do 4 (destruct p as [p|p|]; try done).
Qed.

Lemma hour_text_no_comma h : contains "," (hour_text h) = false.
Proof.
  assert (forall x : N, contains "," (pretty.pretty x) = false) as Hn.
  { intros x. unfold pretty.pretty, pretty.pretty_N. case_decide; [done|]. by apply pretty_go_no_comma. }
  destruct h as [|p|p]; [done|exact (Hn (Npos p))|].
  change (hour_text (Zneg p)) with (String "-" (pretty.pretty (Npos p))).
  specialize (Hn (Npos p)). rewrite contains_false in *. exact Hn.
Qed.

#[export] Instance selectors_laws : SelectorLaws selectors.
Proof.
  constructor.
  - intros l. cbn [selects selectors]. change (strip_prefix MANAGED_SELECTOR MANAGED_SELECTOR) with (Some "").
    by rewrite andb_true_r.
  - intros hours l Hne. cbn [selects selectors]. unfold expiry_selector. rewrite strip_prefix_app.
    cbn [mbind option_bind]. f_equal.
    change ("," +:+ EXPIRES_HOUR_LABEL +:+ " in (" +:+ join "," (hour_text <$> hours) +:+ ")")
      with (("," +:+ EXPIRES_HOUR_LABEL +:+ " in (") +:+ (join "," (hour_text <$> hours) +:+ ")")).
    rewrite strip_prefix_app. cbn [mbind option_bind].
    replace (strip_suffix ")" (join "," (hour_text <$> hours) +:+ ")")) with (Some (join "," (hour_text <$> hours)))
      by (symmetry; by apply strip_suffix_Some).
    rewrite split_join; [by clear; induction hours; simpl; f_equal|by destruct hours|].
    apply Forall_fmap, Forall_true. intros h. apply hour_text_no_comma.
Qed.

Lemma object_names_identify_witness :
  mapping_object_name TransientRecord "replay:code:a" <> mapping_object_name DexAuthCode "replay:code:a"
  /\ String.length (mapping_object_name DexAuthCode "replay:code:a") = 63.
Proof.
  destruct (object_names_identify DexAuthCode TransientRecord "replay:code:a" "replay:code:a" sha32_length
    (fun _ => eq_refl)) as (Hl & _ & Hi).
  split; [|exact Hl]. intros Heq. symmetry in Heq. destruct (Hi Heq) as [Hm _]. discriminate Hm.
Defined.

Definition record : NewRecord := {|
  nr_name := object_name "replay:code:a"; nr_key := "replay:code:a"; nr_value := [x01; x02];
  nr_expires_ms := 1700000000000 |}.

Lemma record_round_trip_witness : exists o,
  mapping_encode DexAuthCode "dex" record [x07] = Some o
  /\ mapping_decode DexAuthCode (with_version o "12") =
       Some {| st_name := nr_name record; resource_version := "12"; st_value := [x01; x02];
               st_expires_ms := 1700000000000 |}.
Proof.
  destruct (record_round_trip DexAuthCode "dex" record [x07]) as (o & He & _ & _ & Hd).
  - split; discriminate.
  - exists o. split; [exact He|exact (Hd "12")].
Defined.

Example base32_example : base32_lower (into_bytes "foobar") = "mzxw6ytboi".
Proof. vm_compute. reflexivity. Qed.
End PlainKube.
