(* ===== verification/Kube.v ===== *)
(** * Kube: the Kubernetes store

    Models crates/oauthrelay-store-kubernetes/src/lib.rs and the outcomes kube_client.rs makes of
    the API server's answers. A store operation is a [prog] over the methods of the
    [KubernetesClient] trait and the replica's clock, which counts milliseconds; the sweeper's
    state is behind a mutex that is held for one access only. The API server is in [KubeServer]. *)

From S2P Require Import Prelude Text Json Store Seal Prog RefreshHandle Requests KubeMapping.
#[local] Open Scope string_scope.
#[local] Open Scope prog_scope.

Definition SWEEP_PAGE_SIZE : nat := 500.
Definition OPERATION_DEADLINE : Duration := from_secs 10.
Definition SWEEP_GRACE : Duration := from_secs 30.
Definition FULL_SWEEP_INTERVAL : Duration := from_secs (24 * 3600).
Definition HOURS_PER_LIST : nat := 20.
Definition REQUIRED_VERBS : list string := ["get"; "list"; "create"; "update"; "delete"].
Definition REPLACE_ROUNDS : nat := 3.

(** ** The client *)

Inductive CreateOutcome := Created | AlreadyExists.
Inductive ReplaceOutcome := Replaced | ReplaceConflict | ReplaceNotFound.
Inductive DeleteOutcome := Deleted | DeleteConflict | DeleteNotFound.

Record Page := { items : list Stored; undecodable : list string; continue_token : option string }.

(** What the [kube] crate answers: an error status of the API server, or any other error. *)
Record Status := { st_code : Z; st_reason : string; st_details_name : option string }.
Inductive KubeError := Api (status : Status) | OtherError (message : string).

Definition status_code (e : KubeError) : option Z :=
  match e with Api s => Some (st_code s) | OtherError _ => None end.

Definition is_object_not_found (s : Status) (name : string) : bool :=
  bool_decide (st_code s = 404%Z) && bool_decide (st_reason s = "NotFound")
  && bool_decide (st_details_name s = Some name).

Definition is_missing_object (e : KubeError) (name : string) : bool :=
  match e with Api s => is_object_not_found s name | OtherError _ => false end.

(** The trait's methods, as outcomes of the API server's answers; what is sent is encoded first.
    The text of an error is its outermost context. *)
Section Client.
Context {H : Sha256} {B : Base64} {BS : Base64Std} {T : TimeLib} (mapping : RecordMapping) (namespace : string).

(** [mapping.encode(..)?] *)
Definition encoded (r : NewRecord) (challenge : bytes) : result DynamicObject string :=
  ok_or (mapping_encode mapping namespace r challenge) "timestamp out of range".

Definition client_get (name : string) (answer : result DynamicObject KubeError)
    : result (option Stored) string :=
  match answer with
  | Ok o => match mapping_decode mapping o with Some s => Ok (Some s) | None => Err "invalid object" end
  | Err e => if is_missing_object e name then Ok None else Err "get object"
  end.

Definition client_create (r : NewRecord) (challenge : bytes) (answer : DynamicObject -> result DynamicObject KubeError)
    : result CreateOutcome string :=
  (object <-? encoded r challenge ;;
  match answer object with
  | Ok _ => Ok Created
  | Err e => if bool_decide (status_code e = Some 409%Z) then Ok AlreadyExists else Err "create object"
  end)%relay.

Definition client_replace (r : NewRecord) (version : string) (challenge : bytes)
    (answer : DynamicObject -> result DynamicObject KubeError) : result ReplaceOutcome string :=
  (object <-? encoded r challenge ;;
  match answer (with_version object version) with
  | Ok _ => Ok Replaced
  | Err e =>
      if bool_decide (status_code e = Some 409%Z) then Ok ReplaceConflict
      else if is_missing_object e (nr_name r) then Ok ReplaceNotFound else Err "replace object"
  end)%relay.

Definition client_delete (name : string) (answer : result unit KubeError) : result DeleteOutcome string :=
  match answer with
  | Ok _ => Ok Deleted
  | Err e =>
      if bool_decide (status_code e = Some 409%Z) then Ok DeleteConflict
      else if is_missing_object e name then Ok DeleteNotFound else Err "delete object"
  end.

(** The objects of one list page and its continue token. *)
Definition client_list (answer : result (list DynamicObject * option string) KubeError) : result Page string :=
  match answer with
  | Ok (objects, token) =>
      Ok {| items := omap (mapping_decode mapping) objects;
            undecodable := (fun o => default "" (do_name o))
              <$> List.filter (fun o => negb (bool_decide (is_Some (mapping_decode mapping o)))) objects;
            continue_token := t ← token; if is_empty t then None else Some t |}
  | Err _ => Err "list objects"
  end.

(** The status of a [SelfSubjectAccessReview]. *)
Definition client_permits (answer : result (option bool) KubeError) : result bool string :=
  match answer with
  | Ok status => Ok (default false status)
  | Err _ => Err "create SelfSubjectAccessReview"
  end.
End Client.

(** ** Calls *)

Record SweepReport := { listed : nat; deleted : nat; skipped : nat }.
Record SweepState := { watermark_hour : Z; last_full_ms : Z }.

Inductive keff : Type :=
  | KNow                                             (* the replica's clock *)
  | KGet (name : string)
  | KCreate (r : NewRecord)
  | KReplace (r : NewRecord) (version : string)
  | KDelete (name : string) (version : option string)
  | KList (selector : string) (limit : nat) (token : option string)
  | KPermits (verb : string)
  | KSweepGet                                        (* the sweeper's state *)
  | KSweepSet (s : SweepState)
  | KSweepAdvance (hour : Z)                         (* raises its watermark, if it is set *)
  | KTimeout (d : Duration) (e : keff).              (* a call under [tokio::time::timeout] *)

Fixpoint kans (e : keff) : Type :=
  match e with
  | KNow => Z
  | KGet _ => result (option Stored) string
  | KCreate _ => result CreateOutcome string
  | KReplace _ _ => result ReplaceOutcome string
  | KDelete _ _ => result DeleteOutcome string
  | KList _ _ _ => result Page string
  | KPermits _ => result bool string
  | KSweepGet => option SweepState
  | KSweepSet _ | KSweepAdvance _ => unit
  | KTimeout _ e => option (kans e)
  end.

Notation kio := (prog keff kans).

Definition ask (e : keff) : kio (kans e) := call e.

(** [tokio::time::timeout]. *)
Fixpoint ktimeout {A} (d : Duration) (p : kio A) : kio (option A) :=
  match p with
  | Ret a => Ret (Some a)
  | Op e k => Op (KTimeout d e) (fun o => match o with Some a => ktimeout d (k a) | None => Ret None end)
  end.

(** [.await.with_context(..)] *)
Definition with_context {A} (context : string) (p : kio (result A string)) : kio (result A string) :=
  r <- p ;; Ret (map_err (fun _ => context) r).

(** [.map_err(StoreError::Backend)?] *)
Definition backend {A} (p : kio (result A string)) : kio (result A StoreError) :=
  r <- p ;; Ret (map_err Backend r).

Definition millis (d : Duration) : Z := Z.min (d / 1000000) u64_max.

Section KubernetesStore.
Context {H : Sha256} {T : TimeLib} (mapping : RecordMapping) (target : string).

Definition name_of (key : string) : string := mapping_object_name mapping key.

Definition elapsed (operation : string) : string :=
  operation +:+ " on " +:+ target +:+ " did not finish within 10s; whether it took effect is unknown".

Definition bounded_call {A} (operation : string) (p : kio (result A string)) : kio (result A string) :=
  r <- ktimeout OPERATION_DEADLINE p ;;
  Ret (match r with Some r => r | None => Err (elapsed operation) end).

Definition bounded {A} (operation : string) (p : kio (result A StoreError)) : kio (result A StoreError) :=
  r <- bounded_call operation (r <- p ;; Ret (Ok r)) ;;
  Ret (match r with Ok r => r | Err e => Err (Backend e) end).

(** ** Operations *)

Definition expiry (now : Z) (ttl : Duration) : result Z StoreError :=
  let e := (now + millis ttl)%Z in
  if ((e <=? u64_max) && (e <=? max_expiry_millis))%Z then Ok e else Err (Invalid "ttl is too large").

Definition is_ours (o : option Stored) (written : bytes) (now : Z) : bool :=
  match o with
  | Some o => (now <? st_expires_ms o)%Z && bool_decide (st_value o = written)
  | None => false
  end.

(** The [for] loop of [put_if_absent]. *)
Fixpoint put_rounds (rounds : nat) (record : NewRecord) (now : Z) : kio (result bool StoreError) :=
  match rounds with
  | 0 => Ret (Ok false)
  | S rounds =>
      created <-! backend (ask (KCreate record)) ;;
      match created with
      | Created => Ret (Ok true)
      | AlreadyExists =>
          existing <-! backend (ask (KGet (nr_name record))) ;;
          if is_ours existing (nr_value record) now then Ret (Ok true) else
          match existing with
          | None => put_rounds rounds record now
          | Some existing =>
              if (now <? st_expires_ms existing)%Z then Ret (Ok false) else
              replaced <-! backend (ask (KReplace record (resource_version existing))) ;;
              match replaced with
              | Replaced => Ret (Ok true)
              | _ => put_rounds rounds record now
              end
          end
      end
  end.

Definition put_if_absent (key : string) (v : bytes) (ttl : Duration) : kio (result bool StoreError) :=
  now <- ask KNow ;;
  e <-? expiry now ttl ;;
  put_rounds REPLACE_ROUNDS
    {| nr_name := name_of key; nr_key := key; nr_value := v; nr_expires_ms := e |} now.

Definition get (key : string) : kio (result (option Entry) StoreError) :=
  now <- ask KNow ;;
  object <-! backend (ask (KGet (name_of key))) ;;
  Ret (Ok (o ← object;
           if (now <? st_expires_ms o)%Z
           then Some {| value := st_value o; expires_in := ((st_expires_ms o - now) * 1000000)%Z |}
           else None)).

Definition compare_and_swap (key : string) (expected new : bytes) (ttl : Duration)
    : kio (result bool StoreError) :=
  now <- ask KNow ;;
  e <-? expiry now ttl ;;
  current <-! backend (ask (KGet (name_of key))) ;;
  match current with
  | Some current =>
      if (now <? st_expires_ms current)%Z && bool_decide (st_value current = expected) then
        replaced <-! backend (ask (KReplace
          {| nr_name := name_of key; nr_key := key; nr_value := new; nr_expires_ms := e |}
          (resource_version current))) ;;
        match replaced with
        | Replaced => Ret (Ok true)
        | ReplaceNotFound => Ret (Ok false)
        | ReplaceConflict =>
            latest <-! backend (ask (KGet (name_of key))) ;;
            Ret (Ok (is_ours latest new now))
        end
      else Ret (Ok false)
  | None => Ret (Ok false)
  end.

Definition delete_key (key : string) : kio (result unit StoreError) :=
  _ <-! backend (ask (KDelete (name_of key) None)) ;; Ret (Ok tt).

(** The [TransientStore] methods: argument checks, then the operation under its deadline. *)
Definition perform (o : store_op) : kio (result (store_ans o) StoreError) :=
  match validate_op o with
  | Err e => Ret (Err e)
  | Ok _ =>
      match o with
      | PutIfAbsent k v ttl => bounded "put_if_absent" (put_if_absent k v ttl)
      | Get k => bounded "get" (get k)
      | CompareAndSwap k ex v ttl => bounded "compare_and_swap" (compare_and_swap k ex v ttl)
      | Delete k => bounded "delete" (delete_key k)
      end
  end.

(** ** Startup *)

(** The verbs the credentials lack. *)
Fixpoint missing_verbs (verbs : list string) : kio (result (list string) string) :=
  match verbs with
  | [] => Ret (Ok [])
  | verb :: verbs =>
      allowed <-! with_context
        ("cannot check whether the role may " +:+ verb +:+ " " +:+ target +:+ " (SelfSubjectAccessReview)")
        (bounded_call "access review" (ask (KPermits verb))) ;;
      missing <-! missing_verbs verbs ;;
      Ret (Ok (if allowed : bool then missing else verb :: missing))
  end.

Definition probe : kio (result unit string) :=
  _ <-! with_context
    ("cannot list " +:+ target +:+ ": check that " +:+ install_hint mapping +:+ " and that the role grants "
     +:+ String.concat ", " REQUIRED_VERBS +:+ " on it")
    (bounded_call "list" (ask (KList MANAGED_SELECTOR 1 None))) ;;
  missing <-! missing_verbs REQUIRED_VERBS ;;
  Ret (match missing with
       | [] => Ok tt
       | _ => Err ("the role lacks " +:+ String.concat ", " missing +:+ " on " +:+ target +:+ ": it needs "
                   +:+ String.concat ", " REQUIRED_VERBS)
       end).

(** ** The sweeper *)

Definition settled_hour (now : Z) : Z := expiry_hour (saturating_sub now (millis SWEEP_GRACE)).

(** Expired by more than the grace. *)
Definition settled (now : Z) (o : Stored) : bool :=
  (saturating_add (st_expires_ms o) (millis SWEEP_GRACE) <=? now)%Z.

Definition report_default : SweepReport := {| listed := 0; deleted := 0; skipped := 0 |}.

Definition report_add (a b : SweepReport) : SweepReport :=
  {| listed := listed a + listed b; deleted := deleted a + deleted b; skipped := skipped a + skipped b |}.

(** Deletes listed objects that are settled. *)
Fixpoint sweep_items (now : Z) (objects : list Stored) (report : SweepReport)
    : kio (result SweepReport string) :=
  match objects with
  | [] => Ret (Ok report)
  | o :: objects =>
      if settled now o then
        outcome <-! bounded_call "delete" (ask (KDelete (st_name o) (Some (resource_version o)))) ;;
        sweep_items now objects
          (report_add report match outcome with
             | Deleted => {| listed := 0; deleted := 1; skipped := 0 |}
             | _ => {| listed := 0; deleted := 0; skipped := 1 |}
             end)
      else sweep_items now objects report
  end.

(** The pages, [None] when there are more than [fuel]. *)
Fixpoint sweep_pages (fuel : nat) (selector : string) (token : option string) (report : SweepReport)
    : kio (result (option SweepReport) string) :=
  match fuel with
  | 0 => Ret (Ok None)
  | S fuel =>
      page <-! bounded_call "list" (ask (KList selector SWEEP_PAGE_SIZE token)) ;;
      now <- ask KNow ;;
      report <-! sweep_items now (items page)
        (report_add report {| listed := length (items page); deleted := 0; skipped := 0 |}) ;;
      match (t ← continue_token page; if is_empty t then None else Some t) with
      | Some t => sweep_pages fuel selector (Some t) report
      | None => Ret (Ok (Some report))
      end
  end.

Definition sweep_selector (fuel : nat) (selector : string) : kio (result (option SweepReport) string) :=
  sweep_pages fuel selector None report_default.

Definition full_sweep (fuel : nat) : kio (result (option SweepReport) string) :=
  started <- ask KNow ;;
  report <-! sweep_selector fuel MANAGED_SELECTOR ;;
  match report with
  | None => Ret (Ok None)
  | Some report =>
      _ <- ask (KSweepSet {| watermark_hour := settled_hour started; last_full_ms := started |}) ;;
      Ret (Ok (Some report))
  end.

(** [(first..=last).collect()] *)
Definition hours_from (first last : Z) : list Z := seqZ first (last - first + 1).

(** [slice.chunks(n)] *)
Fixpoint chunks_of {A} (fuel : nat) (n : nat) (l : list A) : list (list A) :=
  match fuel, l with
  | S fuel, _ :: _ => take n l :: chunks_of fuel n (drop n l)
  | _, _ => []
  end.
Definition chunks {A} (n : nat) (l : list A) : list (list A) := chunks_of (length l) n l.

Fixpoint sweep_chunks (fuel : nat) (cs : list (list Z)) (report : SweepReport)
    : kio (result (option SweepReport) string) :=
  match cs with
  | [] => Ret (Ok (Some report))
  | c :: cs =>
      part <-! sweep_selector fuel (expiry_selector c) ;;
      match part with
      | None => Ret (Ok None)
      | Some part => sweep_chunks fuel cs (report_add report part)
      end
  end.

Definition sweep_tick (fuel : nat) : kio (result (option SweepReport) string) :=
  now <- ask KNow ;;
  state <- ask KSweepGet ;;
  match (s ← state; if (saturating_sub now (last_full_ms s) <? millis FULL_SWEEP_INTERVAL)%Z then Some s else None) with
  | None => full_sweep fuel
  | Some s =>
      let last := settled_hour now in
      report <-! sweep_chunks fuel (chunks HOURS_PER_LIST (hours_from (watermark_hour s) last)) report_default ;;
      match report with
      | None => Ret (Ok None)
      | Some report => _ <- ask (KSweepAdvance last) ;; Ret (Ok (Some report))
      end
  end.
End KubernetesStore.
