(* ===== verification/KubeSafety.v ===== *)
(** * KubeSafety: the Kubernetes store under concurrency

    Any number of replicas perform store operations and sweeps on one resource, and their API
    requests interleave. The API server is what Kubernetes documents: [create] fails on an existing
    name, [replace] and a conditional [delete] fail unless the object still has the version that
    was read, and every write makes a version that was never used. Requests may be lost before or
    after they apply, retried, cut off by a deadline, duplicated, and delivered at any later time;
    other clients may delete anything and write values of their own; the replicas' clocks may
    disagree.

    [writes_justified] says that each write the store makes was entitled to what it replaced and
    that an operation answered [true] did make its write; [one_writer] draws the consequences that
    single use and rotation rely on. *)

From S2P Require Import Prelude Text Store Prog RefreshHandle Seal Requests KubeMapping Kube.
#[local] Open Scope string_scope.
#[local] Open Scope list_scope.

(** ** The API server *)

(** An object: the record it holds and its version. *)
Notation object := (NewRecord * string)%type.

Definition stored_of (o : object) : Stored := {|
  st_name := nr_name o.1; resource_version := o.2; st_value := nr_value o.1; st_expires_ms := nr_expires_ms o.1 |}.

Inductive request :=
  | QCreate (r : NewRecord)
  | QReplace (r : NewRecord) (version : string)
  | QDelete (name : string) (version : option string).

(** A change of one object, by one of the tasks or by another client. *)
Record change := {
  ch_by : option nat;
  ch_name : string;
  ch_before : option object;
  ch_after : option object;
}.

(** The objects, the record of every version there was, the changes in order, and the copies of
    requests that are still on their way. *)
Record KWorld := {
  kw_objects : gmap string object;
  kw_versions : gmap string NewRecord;
  kw_history : list change;
  kw_inflight : list (nat * request);
}.

(** The object of a name becomes [after]. *)
Definition write (w : KWorld) (by_ : option nat) (name : string) (after : option object) : KWorld := {|
  kw_objects := match after with Some o => <[name := o]> (kw_objects w) | None => delete name (kw_objects w) end;
  kw_versions := match after with Some o => <[o.2 := o.1]> (kw_versions w) | None => kw_versions w end;
  kw_history := (kw_history w ++ [{| ch_by := by_; ch_name := name; ch_before := kw_objects w !! name; ch_after := after |}])%list;
  kw_inflight := kw_inflight w;
|}.

Definition copy (w : KWorld) (i : nat) (q : request) : KWorld := {|
  kw_objects := kw_objects w; kw_versions := kw_versions w; kw_history := kw_history w;
  kw_inflight := (i, q) :: kw_inflight w |}.

(** A request is applied. *)
Inductive applies (w : KWorld) (by_ : option nat) : request -> KWorld -> Prop :=
  | applies_create r v :
      kw_objects w !! nr_name r = None -> kw_versions w !! v = None ->
      applies w by_ (QCreate r) (write w by_ (nr_name r) (Some (r, v)))
  | applies_replace r old version v :
      kw_objects w !! nr_name r = Some (old, version) -> kw_versions w !! v = None ->
      applies w by_ (QReplace r version) (write w by_ (nr_name r) (Some (r, v)))
  | applies_delete name version o :
      kw_objects w !! name = Some o -> (forall v, version = Some v -> o.2 = v) ->
      applies w by_ (QDelete name version) (write w by_ name None).

(** A request is refused, because its object is missing ([true]) or is another one. *)
Inductive refuses (w : KWorld) : request -> bool -> Prop :=
  | refuses_create r : is_Some (kw_objects w !! nr_name r) -> refuses w (QCreate r) false
  | refuses_missing r version : kw_objects w !! nr_name r = None -> refuses w (QReplace r version) true
  | refuses_changed r o version :
      kw_objects w !! nr_name r = Some o -> o.2 <> version -> refuses w (QReplace r version) false
  | refuses_deleted name version : kw_objects w !! name = None -> refuses w (QDelete name version) true
  | refuses_renewed name o version :
      kw_objects w !! name = Some o -> o.2 <> version -> refuses w (QDelete name (Some version)) false.

Inductive verdict := Done | Refused (missing : bool) | Lost.

(** What task [i] may learn of its request, and what becomes of it. *)
Inductive sends (i : nat) (w : KWorld) (q : request) : verdict -> KWorld -> Prop :=
  | sends_applied w1 : applies w (Some i) q w1 -> sends i w q Done w1
  | sends_refused b : refuses w q b -> sends i w q (Refused b) w
  | sends_retried b w1 : applies w (Some i) q w1 -> sends i w q (Refused b) w1
  | sends_lost : sends i w q Lost w
  | sends_lost_applied w1 : applies w (Some i) q w1 -> sends i w q Lost w1
  | sends_copied vd w1 : sends i w q vd w1 -> sends i w q vd (copy w1 i q).

Definition create_answer (vd : verdict) (m : string) : result CreateOutcome string :=
  match vd with Done => Ok Created | Refused _ => Ok AlreadyExists | Lost => Err m end.
Definition replace_answer (vd : verdict) (m : string) : result ReplaceOutcome string :=
  match vd with Done => Ok Replaced | Refused b => Ok (if b then ReplaceNotFound else ReplaceConflict) | Lost => Err m end.
Definition delete_answer (vd : verdict) (m : string) : result DeleteOutcome string :=
  match vd with Done => Ok Deleted | Refused b => Ok (if b then DeleteNotFound else DeleteConflict) | Lost => Err m end.

(** ** The tasks *)

Inductive task :=
  | Operation (o : store_op)
  | Sweep (fuel : nat)
  | Tick (fuel : nat).

Inductive reply :=
  | Answered (o : store_op) (r : result (store_ans o) StoreError)
  | Swept (r : result (option SweepReport) string).

(** A conditional write was answered [true]. *)
Definition claims_write (a : reply) : bool :=
  match a with
  | Answered o r =>
      match o as o return result (store_ans o) StoreError -> bool with
      | PutIfAbsent _ _ _ | CompareAndSwap _ _ _ _ => fun r => match r with Ok b => b | Err _ => false end
      | _ => fun _ => false
      end r
  | Swept _ => false
  end.

(** The value a task writes. *)
Definition task_value (t : task) : option bytes :=
  match t with
  | Operation (PutIfAbsent _ v _) | Operation (CompareAndSwap _ _ v _) => Some v
  | _ => None
  end.

Section Concurrent.
Context {H : Sha256} {T : TimeLib} (mapping : RecordMapping) (target : string).

#[local] Open Scope prog_scope.

Definition serve (t : task) : kio reply :=
  match t with
  | Operation o => r <- perform mapping target o ;; Ret (Answered o r)
  | Sweep fuel => r <- full_sweep target fuel ;; Ret (Swept r)
  | Tick fuel => r <- sweep_tick target fuel ;; Ret (Swept r)
  end.

(** The tasks, what their clocks may show (in milliseconds), and the objects there were before. *)
Context (tasks : nat -> option task) (reads : nat -> Z -> Prop) (init : gmap string object).

(** A value that no task writes. *)
Definition foreign (v : bytes) : Prop := forall i t, tasks i = Some t -> task_value t <> Some v.

Fixpoint khandle (i : nat) (w : KWorld) (e : keff) : kans e -> KWorld -> Prop :=
  match e with
  | KNow => fun a w' => reads i a /\ w' = w
  | KGet name => fun a w' => w' = w /\ ((exists m, a = Err m) \/ a = Ok (stored_of <$> kw_objects w !! name))
  | KCreate r => fun a w' => exists vd m, sends i w (QCreate r) vd w' /\ a = create_answer vd m
  | KReplace r v => fun a w' => exists vd m, sends i w (QReplace r v) vd w' /\ a = replace_answer vd m
  | KDelete n v => fun a w' => exists vd m, sends i w (QDelete n v) vd w' /\ a = delete_answer vd m
  | KList _ _ _ => fun a w' => w' = w /\ forall p, a = Ok p -> forall s, s ∈ items p ->
      exists r, kw_versions w !! resource_version s = Some r /\ s = stored_of (r, resource_version s)
  | KPermits _ | KSweepGet | KSweepSet _ | KSweepAdvance _ => fun _ w' => w' = w
  | KTimeout _ e => fun o w' =>
      match o with
      | Some a => khandle i w e a w'
      | None => w' = w \/ exists a, khandle i w e a w'
      end
  end.

(** What else happens: a copy of a request arrives, or another client writes a value of its own. *)
Inductive kenv (w : KWorld) : KWorld -> Prop :=
  | kenv_arrives i q w1 : (i, q) ∈ kw_inflight w -> applies w (Some i) q w1 -> kenv w w1
  | kenv_other q w1 :
      match q with QCreate r | QReplace r _ => foreign (nr_value r) | QDelete _ _ => True end ->
      applies w None q w1 -> kenv w w1.

(** ** What a write must be *)

Definition written (key : string) (v : bytes) (expires : Z) : NewRecord :=
  {| nr_name := name_of mapping key; nr_key := key; nr_value := v; nr_expires_ms := expires |}.

(** The task's operation entitles it to the change, by one reading of its own clock. *)
Definition justified_by (t : task) (now : Z) (c : change) : Prop :=
  match t with
  | Operation (PutIfAbsent k v ttl) =>
      ch_name c = name_of mapping k /\ (exists x, ch_after c = Some (written k v (now + millis ttl), x))
      /\ (now + millis ttl <= u64_max)%Z /\ forall o, ch_before c = Some o -> (nr_expires_ms o.1 <= now)%Z
  | Operation (CompareAndSwap k expected v ttl) =>
      ch_name c = name_of mapping k /\ (exists x, ch_after c = Some (written k v (now + millis ttl), x))
      /\ (now + millis ttl <= u64_max)%Z /\ exists o, ch_before c = Some o /\ nr_value o.1 = expected /\ (now < nr_expires_ms o.1)%Z
  | Operation (Get _) => False
  | Operation (Delete k) => ch_name c = name_of mapping k /\ ch_after c = None
  | Sweep _ | Tick _ =>
      ch_after c = None /\ exists o, ch_before c = Some o
        /\ (saturating_add (nr_expires_ms o.1) (millis SWEEP_GRACE) <= now)%Z
  end.

Definition justified (i : nat) (c : change) : Prop :=
  exists t now, tasks i = Some t /\ justified_by t now c
    /\ (reads i now \/ exists k, t = Operation (Delete k)).

(** A request that is justified whenever it is applied. *)
Definition justified_request (i : nat) (versions : gmap string NewRecord) (q : request) : Prop :=
  match q with
  | QCreate r => (forall x, justified i
      {| ch_by := Some i; ch_name := nr_name r; ch_before := None; ch_after := Some (r, x) |})
      /\ exists t, tasks i = Some t /\ task_value t = Some (nr_value r)
  | QReplace r version => (exists old, versions !! version = Some old /\ forall x, justified i
      {| ch_by := Some i; ch_name := nr_name r; ch_before := Some (old, version); ch_after := Some (r, x) |})
      /\ exists t, tasks i = Some t /\ task_value t = Some (nr_value r)
  | QDelete name None => forall o, justified i
      {| ch_by := Some i; ch_name := name; ch_before := Some o; ch_after := None |}
  | QDelete name (Some version) => exists old, versions !! version = Some old /\ justified i
      {| ch_by := Some i; ch_name := name; ch_before := Some (old, version); ch_after := None |}
  end.

(** The changes lead from one set of objects to another, each from what it found. *)
Fixpoint replays (objects : gmap string object) (h : list change) (final : gmap string object) : Prop :=
  match h with
  | [] => final = objects
  | c :: h =>
      objects !! ch_name c = ch_before c
      /\ replays (match ch_after c with Some o => <[ch_name c := o]> objects | None => delete (ch_name c) objects end)
           h final
  end.

Record KInv (w : KWorld) : Prop := {
  kinv_versions n r v : kw_objects w !! n = Some (r, v) -> nr_name r = n /\ kw_versions w !! v = Some r;
  kinv_history c i : c ∈ kw_history w -> ch_by c = Some i -> justified i c;
  kinv_inflight i q : (i, q) ∈ kw_inflight w -> justified_request i (kw_versions w) q;
  kinv_origin n o : kw_objects w !! n = Some o ->
    foreign (nr_value o.1) \/ exists c i t, c ∈ kw_history w /\ ch_by c = Some i /\ tasks i = Some t
      /\ task_value t = Some (nr_value o.1);
  kinv_replays : replays init (kw_history w) (kw_objects w);
}.

(** What every step keeps. *)
Definition grows (w w' : KWorld) : Prop :=
  kw_versions w ⊆ kw_versions w' /\ (forall c, c ∈ kw_history w -> c ∈ kw_history w').

Definition proceeds (w w' : KWorld) : Prop := KInv w -> KInv w' /\ grows w w'.

#[local] Instance proceeds_preorder : PreOrder proceeds.
Proof.
  split; [by intros w Hi|]. intros w1 w2 w3 H12 H23 Hi. destruct (H12 Hi) as [Hi2 [Hv Hc]].
  destruct (H23 Hi2) as [Hi3 [Hv' Hc']]. split; [done|]. split; [by etrans|eauto].
Qed.

(** ** Steps *)

Lemma replays_snoc objects h mid c final :
  replays objects h mid -> mid !! ch_name c = ch_before c ->
  final = match ch_after c with Some o => <[ch_name c := o]> mid | None => delete (ch_name c) mid end ->
  replays objects (h ++ [c]) final.
Proof.
  revert objects. induction h as [|c' h IH]; intros objects; simpl.
  - intros -> Hb ->. done.
  - intros [Hb' Hr] Hb Hf. split; [done|]. by apply IH.
Qed.

Lemma justified_later i vs vs' q : vs ⊆ vs' -> justified_request i vs q -> justified_request i vs' q.
Proof.
  intros Hsub. destruct q as [r|r v|n [v|]]; simpl; [done|..|done].
  - intros [(old & Hv & Hj) Ht]. split; [|done]. exists old. split; [by eapply lookup_weaken|done].
  - intros (old & Hv & Hj). exists old. split; [by eapply lookup_weaken|done].
Qed.

(** A write keeps the invariant when it is justified or another client's. *)
Lemma write_proceeds w by_ name after :
  (forall o, after = Some o -> nr_name o.1 = name /\ kw_versions w !! o.2 = None) ->
  (forall i, by_ = Some i -> justified i
     {| ch_by := by_; ch_name := name; ch_before := kw_objects w !! name; ch_after := after |}) ->
  (forall o, after = Some o -> foreign (nr_value o.1)
     \/ exists i t, by_ = Some i /\ tasks i = Some t /\ task_value t = Some (nr_value o.1)) ->
  proceeds w (write w by_ name after).
Proof.
  intros Hn Hj Hf Hi.
  assert (kw_versions w ⊆ kw_versions (write w by_ name after)) as Hsub.
  { destruct after as [o|]; [|done]. apply insert_subseteq. by apply (Hn o). }
  assert (forall c, c ∈ kw_history w -> c ∈ kw_history (write w by_ name after)) as Hh.
  { intros c Hc. apply elem_of_app. by left. }
  split; [|done]. constructor.
  - intros n r v Hl. simpl in Hl. destruct (decide (n = name)) as [->|Hne].
    + destruct after as [o|]; [|by rewrite lookup_delete_eq in Hl].
      rewrite lookup_insert_eq in Hl. injection Hl as ->. destruct (Hn _ eq_refl) as [<- _].
      split; [done|]. simpl. by rewrite lookup_insert_eq.
    + assert (kw_objects w !! n = Some (r, v)) as Ho
        by (destruct after; [by rewrite lookup_insert_ne in Hl|by rewrite lookup_delete_ne in Hl]).
      apply (kinv_versions w Hi) in Ho as [? Hv]. split; [done|]. by eapply lookup_weaken.
  - intros c i [Hc|Hc%list_elem_of_singleton]%elem_of_app Hb; [by eapply kinv_history|].
    subst c. simpl in Hb. subst by_. by apply Hj.
  - intros i q Hq. eapply justified_later; [exact Hsub|by apply (kinv_inflight w Hi)].
  - intros n o Hl. simpl in Hl. assert (after = Some o \/ kw_objects w !! n = Some o) as [Ha|Ho].
    { destruct (decide (n = name)) as [->|Hne], after as [o'|];
        rewrite ?lookup_insert_eq, ?lookup_delete_eq in Hl;
        rewrite ?lookup_insert_ne, ?lookup_delete_ne in Hl by done; auto; discriminate. }
    + destruct (Hf o Ha) as [?|(i & t & Hb & Ht & Hv)]; [by left|right].
      eexists _, i, t. split_and!; [apply elem_of_app; right; by apply list_elem_of_singleton|done..].
    + destruct (kinv_origin w Hi _ _ Ho) as [?|(c & i & t & Hc & ?)]; [by left|right].
      exists c, i, t. split; [by apply Hh|done].
  - eapply replays_snoc; [by apply kinv_replays|done|]. by destruct after.
Qed.

Lemma applies_proceeds w i q w1 :
  justified_request i (kw_versions w) q -> applies w (Some i) q w1 -> proceeds w w1.
Proof.
  intros Hq Ha Hi. destruct Ha as [r v Ho Hv|r old version v Ho Hv|name version o Ho Hm]; simpl in Hq.
  - destruct Hq as [Hj (t & Ht & Hval)]. apply write_proceeds; [| | |done].
    + by intros o [= <-].
    + intros j [= <-]. rewrite Ho. apply Hj.
    + intros o [= <-]. right. eauto.
  - destruct Hq as [(old' & Hold & Hj) (t & Ht & Hval)].
    pose proof (kinv_versions w Hi _ _ _ Ho) as [Hname Hver]. rewrite Hver in Hold. injection Hold as <-.
    apply write_proceeds; [| | |done].
    + by intros o [= <-].
    + intros j [= <-]. rewrite Ho. apply Hj.
    + intros o [= <-]. right. eauto.
  - apply write_proceeds; [done| |done|done]. intros j [= <-]. rewrite Ho.
    destruct version as [version|]; [|apply Hq]. destruct Hq as (old & Hold & Hj).
    destruct o as [r v]. specialize (Hm _ eq_refl). simpl in Hm. subst v.
    pose proof (kinv_versions w Hi _ _ _ Ho) as [_ Hver]. rewrite Hver in Hold. by injection Hold as <-.
Qed.

(** Task [i] has made a change. *)
Definition changed (i : nat) (w : KWorld) : Prop := exists c, c ∈ kw_history w /\ ch_by c = Some i.

Lemma applies_changed w i q w1 : applies w (Some i) q w1 -> changed i w1.
Proof.
  destruct 1; (eexists; split; [apply elem_of_app; right; by apply list_elem_of_singleton|done]).
Qed.

Lemma sends_proceeds i w q vd w1 :
  justified_request i (kw_versions w) q -> sends i w q vd w1 -> proceeds w w1 /\ (vd = Done -> changed i w1).
Proof.
  intros Hq. induction 1 as [w1 Ha|b Hr|b w1 Ha| |w1 Ha|vd w1 Hs [IH IHc]].
  1,3,5: split; [by eapply applies_proceeds|intros; by eapply applies_changed].
  1,2: by split.
  split; [|intros [c Hc]%IHc; by exists c]. intros Hi. destruct (IH Hi) as [Hi1 Hg]. split; [|done].
  destruct Hi1. constructor; simpl; [done..| |done|done].
  intros j q' [[= -> ->]|Hin]%elem_of_cons; [|by eauto].
  eapply justified_later; [apply Hg|done].
Qed.

Lemma kenv_proceeds w w1 : kenv w w1 -> proceeds w w1.
Proof.
  destruct 1 as [i q w1 Hin Ha|q w1 Hf Ha].
  - intros Hi. by eapply applies_proceeds; [apply (kinv_inflight w Hi)| |].
  - destruct Ha as [r v Ho Hv|r old version v Ho Hv|name version o Ho Hm];
      (apply write_proceeds; [by intros o' [= <-]|done|intros o' [= <-]; by left]).
Qed.

(** ** Programs of a task *)

Context (unique_values : forall i j t t' v, tasks i = Some t -> tasks j = Some t' ->
  task_value t = Some v -> task_value t' = Some v -> i = j).
Context (i : nat).

(** Run by task [i] from [w], [p] keeps the invariant, and its result meets [Q]. *)
Definition meets {A} (w : KWorld) (p : kio A) (Q : A -> KWorld -> Prop) : Prop :=
  KInv w -> safe (khandle i) proceeds proceeds p (fun a w' => KInv w' /\ grows w w' /\ Q a w') w.

Lemma changed_grows w w' : changed i w -> grows w w' -> changed i w'.
Proof. intros (c & Hc & Hb) [_ Hg]. exists c. auto. Qed.

Lemma version_grows w w' v r : kw_versions w !! v = Some r -> grows w w' -> kw_versions w' !! v = Some r.
Proof. intros Hv [Hs _]. by eapply lookup_weaken. Qed.

Lemma grows_trans w1 w2 w3 : grows w1 w2 -> grows w2 w3 -> grows w1 w3.
Proof. intros [Hv Hc] [Hv' Hc']. split; [by etrans|auto]. Qed.

Lemma meets_ret {A} (a : A) w (Q : A -> KWorld -> Prop) :
  (forall w', grows w w' -> Q a w') -> meets w (Ret a) Q.
Proof. intros HQ Hi w' Hw. destruct (Hw Hi) as [Hi' Hg]. auto. Qed.

Lemma meets_bind {A B} (p : kio A) (f : A -> kio B) w P Q :
  meets w p P -> (forall a w', grows w w' -> P a w' -> meets w' (f a) Q) -> meets w (bind p f) Q.
Proof.
  intros Hp Hf Hi. apply (safe_bind _ _ _ (rely_pre := proceeds_preorder)).
  eapply safe_mono; [|by apply Hp]. intros a w' (Hi' & Hg & HP).
  eapply safe_mono; [|by apply (Hf a w' Hg HP)]. intros b w2 (? & ? & ?). eauto using grows_trans.
Qed.

Lemma meets_mono {A} (p : kio A) w (P Q : A -> KWorld -> Prop) :
  meets w p P -> (forall a w', P a w' -> Q a w') -> meets w p Q.
Proof. intros Hp HQ Hi. eapply safe_mono; [|by apply Hp]. naive_solver. Qed.

Lemma meets_bind_ok {A B X} (p : kio (result A X)) (f : A -> kio (result B X)) w P Q :
  meets w p P -> (forall a w', grows w w' -> P (Ok a) w' -> meets w' (f a) Q) ->
  (forall e w', P (Err e) w' -> forall w2, grows w' w2 -> Q (Err e) w2) ->
  meets w (bind_ok p f) Q.
Proof.
  intros Hp Hf He. eapply meets_bind; [exact Hp|]. intros [a|e] w' Hg HP; [by apply Hf|].
  apply meets_ret. eauto.
Qed.

Lemma meets_ask e w (P : kans e -> KWorld -> Prop) :
  (forall w1 a w2, KInv w1 -> grows w w1 -> khandle i w1 e a w2 ->
     proceeds w1 w2 /\ forall w', grows w2 w' -> P a w') ->
  meets w (ask e) P.
Proof.
  intros He Hi w1 a w2 Hw Hh. destruct (Hw Hi) as [Hi1 Hg1]. destruct (He w1 a w2 Hi1 Hg1 Hh) as [Hp HP].
  split; [done|]. intros w3 Hw3. destruct (Hp Hi1) as [Hi2 Hg2]. destruct (Hw3 Hi2) as [Hi3 Hg3].
  split; [done|]. split; [eauto using grows_trans|auto].
Qed.

Lemma meets_backend {A} (p : kio (result A string)) w (P : result A StoreError -> KWorld -> Prop) :
  meets w p (fun r w' => P (map_err Backend r) w') -> (forall r w1 w2, P r w1 -> grows w1 w2 -> P r w2) ->
  meets w (backend p) P.
Proof. intros Hp HP. eapply meets_bind; [exact Hp|]. intros r w' _ Hr. apply meets_ret. intros w2. by apply HP. Qed.

(** A deadline cuts a program off, before a call or after its effect. *)
Lemma meets_timeout {A} d (p : kio A) w (Q : A -> KWorld -> Prop) :
  meets w p Q -> meets w (ktimeout d p) (fun o w' => match o with Some a => Q a w' | None => True end).
Proof.
  intros Hp Hi. assert (forall w1, KInv w1 -> grows w w1 ->
    safe (khandle i) proceeds proceeds p (fun a w' => KInv w' /\ grows w w' /\ Q a w') w1 ->
    safe (khandle i) proceeds proceeds (ktimeout d p)
      (fun o w' => KInv w' /\ grows w w' /\ match o with Some a => Q a w' | None => True end) w1) as Hs.
  2: apply Hs; [done|by split|by apply Hp].
  clear Hp. induction p as [a|e k IH]; intros w1 Hi1 Hg1; simpl; [done|].
  intros Hs w2 o w3 Hw Hh. destruct (Hw Hi1) as [Hi2 Hg2]. destruct o as [a|].
  - destruct (Hs w2 a w3 Hw Hh) as [Hp Hk]. destruct (Hp Hi2) as [Hi3 Hg3]. split; [done|].
    apply IH; eauto using grows_trans.
  - assert (proceeds w2 w3) as Hp.
    { destruct Hh as [->|[a Ha]]; [done|]. by apply (Hs w2 a w3 Hw). }
    split; [done|]. intros w4 Hw4. destruct (Hp Hi2) as [Hi3 Hg3]. destruct (Hw4 Hi3) as [Hi4 Hg4].
    split; [done|]. split; [eauto using grows_trans|done].
Qed.

Lemma meets_bounded_call {A} op (p : kio (result A string)) w (P : result A string -> KWorld -> Prop) :
  meets w p P -> (forall m w', P (Err m) w') -> (forall r w1 w2, P r w1 -> grows w1 w2 -> P r w2) ->
  meets w (bounded_call target op p) P.
Proof.
  intros Hp Hm Hg. eapply meets_bind; [by apply meets_timeout|]. intros [r|] w' _ Hr; apply meets_ret; eauto.
Qed.

Lemma meets_bounded {A} op (p : kio (result A StoreError)) w (P : result A StoreError -> KWorld -> Prop) :
  meets w p P -> (forall m w', P (Err m) w') -> (forall r w1 w2, P r w1 -> grows w1 w2 -> P r w2) ->
  meets w (bounded target op p) P.
Proof.
  intros Hp Hm Hg. eapply meets_bind.
  - apply (meets_bounded_call op _ _ (fun r w' => match r with Ok r => P r w' | Err _ => True end)); [|done|].
    + eapply meets_bind; [exact Hp|]. intros r w' _ Hr. apply meets_ret. eauto.
    + intros [r|m] w1 w2; eauto.
  - intros [r|m] w' _ Hr; apply meets_ret; eauto.
Qed.

(** ** Calls *)

(** What is known of an object that was read: its version holds its record, and a task that finds
    its own value there has written it. *)
Definition read (name : string) (s : Stored) (w : KWorld) : Prop :=
  exists r, kw_versions w !! resource_version s = Some r /\ s = stored_of (r, resource_version s)
    /\ nr_name r = name /\ forall t, tasks i = Some t -> task_value t = Some (nr_value r) -> changed i w.

Lemma read_grows name s w w' : read name s w -> grows w w' -> read name s w'.
Proof.
  intros (r & Hv & Hs & Hn & Hc) Hg. exists r. split; [by eapply version_grows|].
  split_and!; [done..|]. intros. eapply changed_grows; eauto.
Qed.

Lemma meets_now w : meets w (ask KNow) (fun a _ => reads i a).
Proof. apply meets_ask. by intros w1 a w2 _ _ [Hr ->]. Qed.

Lemma meets_get name w :
  meets w (backend (ask (KGet name))) (fun r w' => forall s, r = Ok (Some s) -> read name s w').
Proof.
  apply meets_backend; [|eauto using read_grows]. apply meets_ask. intros w1 a w2 Hi _ [-> Ha].
  split; [done|]. intros w' Hg s Hs. destruct Ha as [[m ->]| ->]; [done|]. simpl in Hs.
  destruct (kw_objects w1 !! name) as [[r v]|] eqn:Ho; simpl in Hs; [|done]. injection Hs as <-.
  destruct (kinv_versions w1 Hi _ _ _ Ho) as [Hn Hv]. eapply read_grows; [|done].
  exists r. split_and!; [done..|]. intros t Ht Hval.
  destruct (kinv_origin w1 Hi _ _ Ho) as [Hf|(c & j & t' & Hc & Hb & Ht' & Hval')].
  - by destruct (Hf i t Ht).
  - exists c. split; [done|]. by rewrite (unique_values i j t t' (nr_value r) Ht Ht' Hval Hval').
Qed.

Definition sent_changes {A} (ok : A) (r : result A StoreError) (w : KWorld) : Prop := r = Ok ok -> changed i w.

Lemma sent_changes_grows {A} (ok : A) r w w' : sent_changes ok r w -> grows w w' -> sent_changes ok r w'.
Proof. intros Hc Hg Hr. eapply changed_grows; eauto. Qed.

Lemma meets_send {A} (e : keff) (q : request) (ok : A) (answer : verdict -> string -> kans e)
    (r_of : kans e -> result A string) w :
  (forall w1 a w2, khandle i w1 e a w2 -> exists vd m, sends i w1 q vd w2 /\ a = answer vd m) ->
  (forall vd m, r_of (answer vd m) = Ok ok -> vd = Done) ->
  justified_request i (kw_versions w) q ->
  meets w (ask e) (fun a w' => r_of a = Ok ok -> changed i w').
Proof.
  intros Hh Hok Hq. apply meets_ask. intros w1 a w2 Hi Hg Ha.
  destruct (Hh _ _ _ Ha) as (vd & m & Hs & ->).
  destruct (sends_proceeds i w1 q vd w2) as [Hp Hd]; [by eapply justified_later; [apply Hg|]|done|].
  split; [done|]. intros w' Hg' Hr%Hok. eapply changed_grows; eauto.
Qed.

Lemma meets_create r w :
  justified_request i (kw_versions w) (QCreate r) ->
  meets w (backend (ask (KCreate r))) (sent_changes Created).
Proof.
  intros Hq. apply meets_backend; [|eauto using sent_changes_grows].
  eapply meets_mono; [by apply (meets_send (KCreate r) (QCreate r) Created create_answer (fun a => a)); [..|done]; [eauto|intros []]|].
  intros [o|m] w'; intros Hc Hr; apply Hc; simpl in Hr; congruence.
Qed.

Lemma meets_replace r v w :
  justified_request i (kw_versions w) (QReplace r v) ->
  meets w (backend (ask (KReplace r v))) (sent_changes Replaced).
Proof.
  intros Hq. apply meets_backend; [|eauto using sent_changes_grows].
  eapply meets_mono; [by apply (meets_send (KReplace r v) (QReplace r v) Replaced replace_answer (fun a => a)); [..|done]; [eauto|intros [|[]|]]|].
  intros [o|m] w'; intros Hc Hr; apply Hc; simpl in Hr; congruence.
Qed.

Lemma meets_delete n v w :
  justified_request i (kw_versions w) (QDelete n v) -> meets w (ask (KDelete n v)) (fun _ _ => True).
Proof.
  intros Hq. eapply meets_mono; [by apply (meets_send (KDelete n v) (QDelete n v) Deleted delete_answer (fun a => a));
    [..|done]; [eauto|intros [|[]|]]|done].
Qed.

(** ** Operations *)

Lemma expiry_Ok now ttl e : expiry now ttl = Ok e -> e = (now + millis ttl)%Z /\ (now + millis ttl <= u64_max)%Z.
Proof.
  unfold expiry. destruct (_ <=? u64_max)%Z eqn:E; simpl; [|done]. case_match; [|done]. intros [= <-].
  split; [done|by apply Z.leb_le].
Qed.

(** What an operation that answers [true] has done. *)
Definition won (r : result bool StoreError) (w : KWorld) : Prop := r = Ok true -> changed i w.

Lemma won_grows r w w' : won r w -> grows w w' -> won r w'.
Proof. intros Hw Hg Hr. eapply changed_grows; eauto. Qed.

Lemma is_ours_Some now v o : is_ours o v now = true -> exists s, o = Some s /\ st_value s = v.
Proof.
  destruct o as [s|]; simpl; [|done]. intros [_ Hv]%andb_true_iff. apply bool_decide_eq_true in Hv. eauto.
Qed.

(** An object that holds the task's own value is its own write. *)
Lemma ours_won name t v now o w :
  tasks i = Some t -> task_value t = Some v -> (forall s, o = Some s -> read name s w) ->
  is_ours o v now = true -> changed i w.
Proof.
  intros Ht Hv Hr (s & -> & Hs)%is_ours_Some. destruct (Hr s eq_refl) as (r & _ & Heq & _ & Hc).
  apply (Hc t Ht). apply (f_equal st_value) in Heq. simpl in Heq. congruence.
Qed.

Lemma meets_put k v ttl w now rounds :
  tasks i = Some (Operation (PutIfAbsent k v ttl)) -> reads i now -> (now + millis ttl <= u64_max)%Z ->
  meets w (put_rounds rounds (written k v (now + millis ttl)) now) won.
Proof.
  intros Ht Hnow Hmax. assert (task_value (Operation (PutIfAbsent k v ttl)) = Some v) as Hv by done.
  revert w. induction rounds as [|rounds IH]; intros w; cbn [put_rounds]; [by apply meets_ret|].
  eapply meets_bind_ok; [apply meets_create| |done].
  { split; [|by eexists]. intros x. do 2 eexists. split; [done|]. split; [|by left]. split_and!; [done|by eexists|done|done]. }
  intros [] w1 _ Hsent; [apply meets_ret; intros w2 Hg _; eapply changed_grows; [by apply Hsent|done]|].
  eapply meets_bind_ok; [apply meets_get| |done]. intros existing w2 _ Hread.
  assert (forall s, existing = Some s -> read (name_of mapping k) s w2) as Hread' by naive_solver. clear Hread.
  destruct (is_ours _ _ _) eqn:Ho.
  { apply meets_ret. intros w3 Hg _. eapply changed_grows; [|done]. by eapply ours_won. }
  destruct existing as [s|]; [|apply IH]. destruct (Hread' s eq_refl) as (r & Hver & Hs & Hname & _).
  destruct (now <? _)%Z eqn:Hexp; [by apply meets_ret|].
  eapply meets_bind_ok; [apply meets_replace| |done].
  { split; [|by eexists]. exists r. split; [done|]. intros x. do 2 eexists. split; [done|]. split; [|by left].
    split_and!; [done|by eexists|done|]. intros o [= <-]. apply Z.ltb_ge in Hexp. apply (f_equal st_expires_ms) in Hs. simpl in Hs |- *. lia. }
  intros [] w3 _ Hrep; [|apply IH..]. apply meets_ret. intros w4 Hg _. eapply changed_grows; [by apply Hrep|done].
Qed.

Lemma meets_put_if_absent k v ttl w :
  tasks i = Some (Operation (PutIfAbsent k v ttl)) -> meets w (put_if_absent mapping k v ttl) won.
Proof.
  intros Ht. eapply meets_bind; [apply meets_now|]. intros now w1 _ Hnow.
  destruct (expiry now ttl) as [e|e] eqn:He; [|by apply meets_ret].
  apply expiry_Ok in He as [-> Hmax]. by apply meets_put.
Qed.

Lemma meets_swap k expected v ttl w :
  tasks i = Some (Operation (CompareAndSwap k expected v ttl)) ->
  meets w (compare_and_swap mapping k expected v ttl) won.
Proof.
  intros Ht. assert (task_value (Operation (CompareAndSwap k expected v ttl)) = Some v) as Hv by done.
  eapply meets_bind; [apply meets_now|]. intros now w1 _ Hnow.
  destruct (expiry now ttl) as [e|e] eqn:He; [|by apply meets_ret].
  apply expiry_Ok in He as [-> Hmax].
  eapply meets_bind_ok; [apply meets_get| |done]. intros [s|] w2 _ Hread; [|by apply meets_ret].
  destruct (Hread s eq_refl) as (r & Hver & Hs & Hname & _).
  destruct (_ && _) eqn:Hlive; [|by apply meets_ret]. apply andb_true_iff in Hlive as [Hlive Hexp]. reflect.
  eapply meets_bind_ok; [apply meets_replace| |done].
  { split; [|by eexists]. exists r. split; [done|]. intros x. do 2 eexists. split; [done|]. split; [|by left].
    split_and!; [done|by eexists|done|]. exists (r, resource_version s).
    pose proof (f_equal st_expires_ms Hs). pose proof (f_equal st_value Hs). simpl in *. split_and!; [done|congruence|lia]. }
  intros [] w3 _ Hrep.
  - apply meets_ret. intros w4 Hg _. eapply changed_grows; [by apply Hrep|done].
  - eapply meets_bind_ok; [apply meets_get| |done]. intros latest w4 _ Hread'.
    apply meets_ret. intros w5 Hg [= Hours]. eapply changed_grows; [|done].
    eapply ours_won; [done..| |done]. intros s' ->. by apply Hread'.
  - by apply meets_ret.
Qed.

Lemma meets_perform o w :
  tasks i = Some (Operation o) ->
  meets w (perform mapping target o) (fun r w' => claims_write (Answered o r) = true -> changed i w').
Proof.
  intros Ht. unfold perform. destruct (validate_op o) as [u|e] eqn:Hval.
  2: { apply meets_ret. by intros w' _; destruct o. }
  destruct o as [k v ttl|k|k ex v ttl|k].
  - apply meets_bounded; [|done|intros; eapply changed_grows; eauto].
    eapply meets_mono; [by apply meets_put_if_absent|]. intros [[]|] w' Hw; [|done..]. intros _. by apply Hw.
  - apply meets_bounded; [|done..]. eapply meets_bind; [apply meets_now|]. intros now w1 _ _.
    eapply meets_bind_ok; [apply meets_get| |done]. intros r w2 _ _. by apply meets_ret.
  - apply meets_bounded; [|done|intros; eapply changed_grows; eauto].
    eapply meets_mono; [by apply meets_swap|]. intros [[]|] w' Hw; [|done..]. intros _. by apply Hw.
  - apply meets_bounded; [|done..]. eapply meets_bind_ok; [apply (meets_backend _ _ (fun _ _ => True)); [|done]| |done].
    + apply meets_delete. intros x. exists (Operation (Delete k)), 0%Z. split; [done|]. split; [done|]. right. by eexists.
    + intros r w1 _ _. by apply meets_ret.
Qed.

(** ** The sweeper *)

Definition sweeps (t : task) : Prop := match t with Sweep _ | Tick _ => True | Operation _ => False end.

(** A listed record, at a version there was. *)
Definition seen (s : Stored) (w : KWorld) : Prop :=
  exists r, kw_versions w !! resource_version s = Some r /\ s = stored_of (r, resource_version s).

Lemma seen_grows s w w' : seen s w -> grows w w' -> seen s w'.
Proof. intros (r & Hv & Hs) Hg. exists r. split; [by eapply version_grows|done]. Qed.

Lemma meets_list sel n token w :
  meets w (ask (KList sel n token)) (fun r w' => forall p s, r = Ok p -> s ∈ items p -> seen s w').
Proof.
  apply meets_ask. intros w1 a w2 _ _ [-> Ha]. split; [done|]. intros w' Hg p s -> Hs.
  eapply seen_grows; [|done]. by apply (Ha p).
Qed.

(** Sweeps keep the invariant; nothing is claimed of their result. *)
Lemma meets_sweep_items now objects report w t :
  tasks i = Some t -> sweeps t -> reads i now -> (forall s, s ∈ objects -> seen s w) ->
  meets w (sweep_items target now objects report) (fun _ _ => True).
Proof.
  intros Ht Hsw Hnow. revert report w. induction objects as [|o objects IH]; intros report w Hseen; simpl.
  { by apply meets_ret. }
  assert (forall w', grows w w' -> forall s, s ∈ objects -> seen s w') as Hrest.
  { intros w' Hg s Hs. eapply seen_grows; [|done]. apply Hseen. by right. }
  destruct (settled now o) eqn:Hset; [|by apply IH, (Hrest w)].
  destruct (Hseen o) as (r & Hv & Ho); [by left|].
  eapply meets_bind_ok; [apply (meets_bounded_call _ _ _ (fun _ _ => True)); [|done..]|intros out w1 Hg _; by apply IH, Hrest|done].
  apply meets_delete. exists r. split; [done|]. exists t, now. split; [done|]. split; [|by left].
  apply Z.leb_le in Hset. rewrite Ho in Hset |- *. simpl in Hset |- *.
  destruct t; [done|..]; (split; [done|by eexists]).
Qed.

Lemma meets_sweep_pages fuel sel token report w t :
  tasks i = Some t -> sweeps t -> meets w (sweep_pages target fuel sel token report) (fun _ _ => True).
Proof.
  intros Ht Hsw. revert token report w. induction fuel as [|fuel IH]; intros token report w; cbn [sweep_pages].
  { by apply meets_ret. }
  eapply meets_bind_ok; [apply meets_bounded_call; [apply meets_list|done|]| |done].
  { intros r w1 w2 Hr Hg p s Hp Hs. eapply seen_grows; eauto. }
  intros page w1 _ Hpage. eapply meets_bind; [apply meets_now|]. intros now w2 Hg Hnow.
  eapply meets_bind_ok; [eapply meets_sweep_items; [done..|]| |done].
  { intros s Hs. eapply seen_grows; eauto. }
  intros rep w3 _ _. case_match; [apply IH|by apply meets_ret].
Qed.

Lemma meets_sweep_chunks fuel cs report w t :
  tasks i = Some t -> sweeps t -> meets w (sweep_chunks target fuel cs report) (fun _ _ => True).
Proof.
  intros Ht Hsw. revert report w. induction cs as [|c cs IH]; intros report w; cbn [sweep_chunks]; [by apply meets_ret|].
  eapply meets_bind_ok; [by eapply meets_sweep_pages| |done].
  intros [part|] w1 _ _; [apply IH|by apply meets_ret].
Qed.

Lemma meets_state (e : keff) w :
  (forall w1 a w2, khandle i w1 e a w2 -> w2 = w1) -> meets w (ask e) (fun _ _ => True).
Proof. intros He. apply meets_ask. intros w1 a w2 _ _ ->%He. by split. Qed.

Lemma meets_full_sweep fuel w t :
  tasks i = Some t -> sweeps t -> meets w (full_sweep target fuel) (fun _ _ => True).
Proof.
  intros Ht Hsw. eapply meets_bind; [apply meets_now|]. intros started w1 _ _.
  eapply meets_bind_ok; [by eapply meets_sweep_pages| |done]. intros [rep|] w2 _ _; [|by apply meets_ret].
  eapply meets_bind; [by apply meets_state|]. intros u w3 _ _. by apply meets_ret.
Qed.

Lemma meets_sweep_tick fuel w t :
  tasks i = Some t -> sweeps t -> meets w (sweep_tick target fuel) (fun _ _ => True).
Proof.
  intros Ht Hsw. eapply meets_bind; [apply meets_now|]. intros now w1 _ _.
  eapply meets_bind; [by apply meets_state|]. intros state w2 _ _.
  case_match; [|by eapply meets_full_sweep].
  eapply meets_bind_ok; [by eapply meets_sweep_chunks| |done]. intros [rep|] w3 _ _; [|by apply meets_ret].
  eapply meets_bind; [by apply meets_state|]. intros u w4 _ _. by apply meets_ret.
Qed.

Lemma meets_serve t w :
  tasks i = Some t -> meets w (serve t) (fun a w' => claims_write a = true -> changed i w').
Proof.
  intros Ht. destruct t as [o|fuel|fuel].
  - eapply meets_bind; [by apply meets_perform|]. intros r w1 _ Hr. apply meets_ret.
    intros w2 Hg Hc. eapply changed_grows; [by apply Hr|done].
  - eapply meets_bind; [by eapply meets_full_sweep|]. intros r w1 _ _. by apply meets_ret.
  - eapply meets_bind; [by eapply meets_sweep_tick|]. intros r w1 _ _. by apply meets_ret.
Qed.
End Concurrent.
#[global] Existing Instance proceeds_preorder.

(** ** Runs of all the tasks *)

Section Runs.
Context {H : Sha256} {T : TimeLib} (mapping : RecordMapping) (target : string).
Context (ts : list task) (reads : nat -> Z -> Prop) (init : gmap string object) (versions : gmap string NewRecord).

Notation tasks := (fun i => ts !! i).

Definition initial : KWorld :=
  {| kw_objects := init; kw_versions := versions; kw_history := []; kw_inflight := [] |}.

(** No two tasks write the same value, and no task writes a value that was there before. *)
Record distinct_values : Prop := {
  values_unique i j t t' v : ts !! i = Some t -> ts !! j = Some t' ->
    task_value t = Some v -> task_value t' = Some v -> i = j;
  values_new n o : init !! n = Some o -> foreign tasks (nr_value o.1);
}.

Definition well_formed : Prop :=
  forall n r v, init !! n = Some (r, v) -> nr_name r = n /\ versions !! v = Some r.

Definition runs_to (w : KWorld) (ps : list (kio reply)) : Prop :=
  reachable (khandle reads) (kenv tasks) (initial, serve mapping target <$> ts) (w, ps).

Lemma run_invariant w ps :
  distinct_values -> well_formed -> runs_to w ps ->
  KInv mapping tasks reads init w
  /\ forall i a, ps !! i = Some (Ret a) -> claims_write a = true -> changed i w.
Proof.
  intros Hd Hwf Hr.
  set (good := proceeds mapping tasks reads init).
  assert (KInv mapping tasks reads init initial) as H0.
  { constructor; simpl; [apply Hwf|by intros ? ? ?%not_elem_of_nil..| |done].
    intros n o Ho. left. by eapply values_new. }
  set (Q := fun i a w' => KInv mapping tasks reads init w' /\ grows initial w' /\ (claims_write a = true -> changed i w')).
  assert (all_safe (khandle reads) (fun _ => good) (fun _ => good) Q (initial, serve mapping target <$> ts)) as Hs0.
  { intros i p Hp. simpl in Hp. rewrite list_lookup_fmap in Hp. destruct (ts !! i) as [t|] eqn:Ht; [|done].
    injection Hp as <-. by apply (meets_serve mapping target tasks reads init (values_unique Hd)). }
  assert (forall (j : nat) w1 w2, kenv tasks w1 w2 -> good w1 w2) as Henv by (intros j w1 w2; apply kenv_proceeds).
  destruct (tasks_keep (khandle reads) (kenv tasks) (fun _ => good) (fun _ => good) Q (good initial)
    (initial, serve mapping target <$> ts) (w, ps)) as [Hgood Hs]; [done|exact Henv|..|exact Hr|exact Hs0|done|].
  { intros j w1 w2 Hg Hi. by etrans. }
  { intros w1 w2 He Hi. etrans; [exact Hi|]. by apply (Henv 0). }
  split; [by apply Hgood|]. intros i a Hi Hc. specialize (Hs i _ Hi). simpl in Hs.
  destruct (Hs w) as (_ & _ & Hchanged); [reflexivity|by apply Hchanged].
Qed.

(** ** Histories of one object *)

Fixpoint chain (cur : option object) (l : list change) : Prop :=
  match l with
  | [] => True
  | c :: l => ch_before c = cur /\ chain (ch_after c) l
  end.

Definition states (cur : option object) (l : list change) : list (option object) := cur :: (ch_after <$> l).

Lemma replays_chain objects h final n :
  replays objects h final -> chain (objects !! n) (List.filter (fun c => bool_decide (ch_name c = n)) h).
Proof.
  revert objects. induction h as [|c h IH]; intros objects; simpl; [done|]. intros [Hb Hr].
  specialize (IH _ Hr). case_bool_decide as Hn; simpl.
  - subst n. split; [done|]. destruct (ch_after c); [by rewrite lookup_insert_eq in IH|by rewrite lookup_delete_eq in IH].
  - destruct (ch_after c); [by rewrite lookup_insert_ne in IH|by rewrite lookup_delete_ne in IH].
Qed.

Lemma chain_before cur l p c : chain cur l -> l !! p = Some c -> states cur l !! p = Some (ch_before c).
Proof.
  revert cur p. induction l as [|c' l IH]; intros cur p; simpl; [done|]. intros [Hb Hc].
  destruct p as [|p]; simpl; [by intros [= <-]; rewrite Hb|]. apply IH, Hc.
Qed.

Lemma states_after cur l p c : l !! p = Some c -> states cur l !! S p = Some (ch_after c).
Proof. intros Hp. simpl. by rewrite list_lookup_fmap, Hp. Qed.

Lemma chain_app cur l c : chain cur (l ++ [c]) -> chain cur l.
Proof. revert cur. induction l as [|c' l IH]; intros cur; simpl; [done|]. intros [? ?]. auto. Qed.

Lemma states_snoc cur l c : states cur (l ++ [c]) = (states cur l ++ [ch_after c])%list.
Proof. unfold states. by rewrite fmap_app. Qed.

End Runs.

Section Object.
Context {H : Sha256} {T : TimeLib} (mapping : RecordMapping) (ts : list task) (reads : nat -> Z -> Prop).
Notation tasks := (fun i => ts !! i).

(** The name and the lifetime of a conditional write. *)
Definition lifetime (t : task) : option (string * Duration) :=
  match t with
  | Operation (PutIfAbsent k _ ttl) | Operation (CompareAndSwap k _ _ ttl) => Some (name_of mapping k, ttl)
  | _ => None
  end.

(** On the object [n] nobody deletes a record that lives, and records outlive the run: at every
    moment any clock shows, a record written at a moment any clock shows has not expired. *)
Record undisturbed (n : string) (h : list change) : Prop := {
  no_delete i k : ts !! i = Some (Operation (Delete k)) -> name_of mapping k <> n;
  no_other c : c ∈ h -> ch_name c = n -> is_Some (ch_by c);
  outlive i t ttl a j b : ts !! i = Some t -> lifetime t = Some (n, ttl) ->
    reads i a -> reads j b -> (b < a + millis ttl)%Z;
}.

Context (n : string) (h : list change).

Definition lives (o : object) : Prop :=
  (nr_expires_ms o.1 <= u64_max)%Z /\ forall j b, reads j b -> (b < nr_expires_ms o.1)%Z.

(** What is written by task [i] lives, and only a swap changes what lives. *)
Lemma justified_after i c o :
  undisturbed n h -> justified mapping tasks reads i c -> ch_name c = n -> ch_after c = Some o ->
  lives o /\ exists t, ts !! i = Some t /\ task_value t = Some (nr_value o.1).
Proof.
  intros Hu (t & now & Ht & Hj & Hnow) Hn Ho.
  destruct t as [[k v ttl|k|k ex v ttl|k]|fuel|fuel]; simpl in Hj; [|done| |by destruct Hj; congruence..].
  all: destruct Hj as (Hk & [x Hx] & Hmax & _); rewrite Ho in Hx; injection Hx as ->.
  all: destruct Hnow as [Hnow|[k' ?]]; [|done].
  all: split; [split; [done|]; intros j b Hb|by eexists].
  all: eapply outlive; [exact Hu|exact Ht|cbn; congruence|done|done].
Qed.

Lemma justified_lives i c o :
  undisturbed n h -> justified mapping tasks reads i c -> ch_name c = n -> ch_before c = Some o -> lives o ->
  is_Some (ch_after c)
  /\ exists k v ttl, ts !! i = Some (Operation (CompareAndSwap k (nr_value o.1) v ttl)).
Proof.
  intros Hu (t & now & Ht & Hj & Hnow) Hn Hb [Hmax Hl].
  assert (reads i now -> now < nr_expires_ms o.1)%Z as Hnow' by apply Hl.
  destruct t as [[k v ttl|k|k ex v ttl|k]|fuel|fuel]; simpl in Hj.
  - destruct Hj as (_ & _ & _ & Hexp). specialize (Hexp o Hb). destruct Hnow as [Hnow|[k' ?]]; [|done].
    specialize (Hnow' Hnow). lia.
  - done.
  - destruct Hj as (_ & [x Hx] & _ & o' & Hb' & Hv & _). split; [by eexists|].
    rewrite Hb in Hb'. injection Hb' as <-. rewrite Hv. eauto.
  - destruct Hj as [Hk _]. rewrite Hn in Hk. by destruct (no_delete n h Hu i k).
  - destruct Hj as (_ & o' & Hb' & Hset). rewrite Hb in Hb'. injection Hb' as <-.
    destruct Hnow as [Hnow|[k' ?]]; [|done]. specialize (Hnow' Hnow). unfold saturating_add in Hset.
    assert (0 <= millis SWEEP_GRACE)%Z by (by vm_compute). lia.
  - destruct Hj as (_ & o' & Hb' & Hset). rewrite Hb in Hb'. injection Hb' as <-.
    destruct Hnow as [Hnow|[k' ?]]; [|done]. specialize (Hnow' Hnow). unfold saturating_add in Hset.
    assert (0 <= millis SWEEP_GRACE)%Z by (by vm_compute). lia.
Qed.

(** The changes of the object, each by a task that was entitled to it. *)
Definition entitled (l : list change) : Prop :=
  forall c, c ∈ l -> ch_name c = n /\ exists i, ch_by c = Some i /\ justified mapping tasks reads i c.

Lemma entitled_app l c : entitled (l ++ [c]) -> entitled l /\ entitled [c].
Proof. intros He. split; intros c' Hc; apply He, elem_of_app; auto. Qed.

Lemma snoc_lookup {A} (l : list A) x q y :
  (l ++ [x]) !! q = Some y -> l !! q = Some y /\ (q < length l)%nat \/ q = length l /\ y = x.
Proof.
  intros [Hq|[Hlen Hq]]%lookup_app_Some; [left; split; [done|by eapply lookup_lt_Some]|right].
  apply list_lookup_singleton_Some in Hq as [Hz ->]. split; [lia|done].
Qed.

Lemma states_length cur l : length (states cur l) = S (length l).
Proof. unfold states. simpl. by rewrite length_fmap. Qed.

(** Once written, the object lives. *)
Lemma stays cur l p c o q s :
  undisturbed n h -> entitled l -> chain cur l ->
  l !! p = Some c -> ch_after c = Some o -> (p < q)%nat -> states cur l !! q = Some s ->
  exists o', s = Some o' /\ lives o'.
Proof.
  intros Hu He Hc Hp Ho Hpq Hq. revert p c o q s Hp Ho Hpq Hq.
  induction l as [|c' l IH] using rev_ind; intros p c o q s Hp Ho Hpq Hq; [done|].
  apply entitled_app in He as [He He']. destruct (He' c') as (Hn & i & Hi & Hj); [by left|].
  rewrite states_snoc in Hq. apply snoc_lookup in Hq as [[Hq Hlt]|[-> ->]].
  - rewrite states_length in Hlt. apply snoc_lookup in Hp as [[Hp _]|[-> _]]; [|lia].
    eapply IH; eauto using chain_app.
  - rewrite states_length in Hpq. apply snoc_lookup in Hp as [[Hp Hlt]|[-> ->]].
    + pose proof (chain_before _ _ (length l) c' Hc) as Hb. rewrite list_lookup_middle in Hb by done.
      specialize (Hb eq_refl). rewrite states_snoc, lookup_app_l in Hb by (rewrite states_length; lia).
      destruct (IH He (chain_app _ _ _ Hc) p c o (length l) (ch_before c') Hp Ho Hlt Hb) as (ob & Hob & Hl).
      destruct (justified_lives i c' ob Hu Hj Hn Hob Hl) as [[o' Ho'] _].
      exists o'. split; [done|]. by eapply justified_after.
    + exists o. split; [done|]. by eapply justified_after.
Qed.

(** No value is there twice. *)
Lemma no_value_twice init cur l p q o o' :
  distinct_values ts init -> undisturbed n h -> entitled l -> chain cur l -> (forall o0, cur = Some o0 -> foreign tasks (nr_value o0.1)) ->
  states cur l !! p = Some (Some o) -> states cur l !! q = Some (Some o') -> nr_value o.1 = nr_value o'.1 ->
  p = q.
Proof.
  intros Hd Hu He Hc Hf. revert p q o o'.
  assert (forall l, entitled l -> chain cur l -> forall p q o o', (p < q)%nat ->
    states cur l !! p = Some (Some o) -> states cur l !! q = Some (Some o') -> nr_value o.1 <> nr_value o'.1) as Hlt.
  2: { intros p q o o' Hp Hq Hv. destruct (Nat.lt_trichotomy p q) as [Hlt'|[?|Hlt']]; [|done|].
       - by destruct (Hlt l He Hc p q o o' Hlt' Hp Hq).
       - by destruct (Hlt l He Hc q p o' o Hlt' Hq Hp). }
  clear l He Hc. intros l. induction l as [|c l IH] using rev_ind; intros He Hc p q o o' Hpq Hp Hq Hv.
  { apply lookup_lt_Some in Hq. simpl in Hq. lia. }
  pose proof (entitled_app _ _ He) as [Hel Hec]. destruct (Hec c) as (Hn & i & Hi & Hj); [by left|].
  rewrite states_snoc in Hp, Hq. apply snoc_lookup in Hq as [[Hq Hql]|[-> Hq]].
  { apply snoc_lookup in Hp as [[Hp _]|[-> _]]; [|lia]. by apply (IH Hel (chain_app _ _ _ Hc) p q o o'). }
  apply snoc_lookup in Hp as [[Hp Hpl]|[-> _]]; [|lia]. symmetry in Hq. rewrite states_length in Hpl.
  destruct (justified_after i c o' Hu Hj Hn Hq) as [_ (t & Ht & Hval)].
  destruct p as [|p]; [injection Hp as ->; apply (Hf o eq_refl i t Ht); by rewrite Hv|].
  simpl in Hp. rewrite list_lookup_fmap in Hp. destruct (l !! p) as [c0|] eqn:Hp0; [|done]. injection Hp as Hp.
  destruct (Hel c0) as (Hn0 & j & Hi0 & Hj0); [by eapply list_elem_of_lookup_2|].
  destruct (justified_after j c0 o Hu Hj0 Hn0 Hp) as [_ (t0 & Ht0 & Hval0)].
  rewrite Hv in Hval0. assert (j = i) as -> by (by eapply (values_unique _ _ Hd)).
  pose proof (chain_before _ _ (length l) c Hc) as Hb. rewrite list_lookup_middle in Hb by done.
  specialize (Hb eq_refl). rewrite states_snoc, lookup_app_l in Hb by (rewrite states_length; lia).
  destruct (stays cur l p c0 o (length l) (ch_before c) Hu Hel (chain_app _ _ _ Hc) Hp0 Hp) as (ob & Hob & Hl); [lia|done|].
  destruct (justified_lives i c ob Hu Hj Hn Hob Hl) as [_ (k & v & ttl & Hswap)].
  destruct Hj0 as (t1 & now & Ht1 & Hj0 & _). rewrite Hswap in Ht1. injection Ht1 as <-.
  destruct Hj0 as (_ & _ & _ & ob0 & Hb0 & Hv0 & _).
  pose proof (chain_before _ _ p c0 (chain_app _ _ _ Hc) Hp0) as Hbefore. rewrite Hb0 in Hbefore. rewrite Hob in Hb.
  by apply (IH Hel (chain_app _ _ _ Hc) p (length l) ob0 ob); [lia|..].
Qed.

(** What a conditional write competes for: the key, or the value it replaces. *)
Definition prize (t : task) : option (string * option bytes) :=
  match t with
  | Operation (PutIfAbsent k _ _) => Some (name_of mapping k, None)
  | Operation (CompareAndSwap k expected _ _) => Some (name_of mapping k, Some expected)
  | _ => None
  end.

Lemma later_loses init cur l p q i j c c' t t' x :
  distinct_values ts init -> undisturbed n h -> entitled l -> chain cur l -> (forall o0, cur = Some o0 -> foreign tasks (nr_value o0.1)) ->
  l !! p = Some c -> l !! q = Some c' -> (p < q)%nat -> ch_by c = Some i -> ch_by c' = Some j ->
  ts !! i = Some t -> ts !! j = Some t' -> prize t = Some x -> prize t' = Some x -> False.
Proof.
  intros Hd Hu He Hc Hf Hp Hq Hpq Hi Hj Ht Ht' Hx Hx'.
  destruct (He c) as (Hn & i' & Hi' & Hji); [by eapply list_elem_of_lookup_2|].
  destruct (He c') as (Hn' & j' & Hj' & Hjj); [by eapply list_elem_of_lookup_2|].
  rewrite Hi in Hi'. rewrite Hj in Hj'. injection Hi' as <-. injection Hj' as <-.
  destruct Hji as (t0 & now & Ht0 & Hji & _). rewrite Ht in Ht0. injection Ht0 as <-.
  assert (exists o, ch_after c = Some o) as [o Ho].
  { destruct t as [[]| |]; simplify_eq/=; destruct Hji as (_ & [y Hy] & _); eauto. }
  pose proof (chain_before _ _ _ _ Hc Hp) as Hbp. pose proof (chain_before _ _ _ _ Hc Hq) as Hbq.
  destruct (stays cur l p c o q (ch_before c') Hu He Hc Hp Ho Hpq Hbq) as (ob & Hob & Hl).
  destruct (justified_lives j c' ob Hu Hjj Hn' Hob Hl) as [_ (k & v & ttl & Hswap)].
  rewrite Ht' in Hswap. injection Hswap as ->. simpl in Hx'. injection Hx' as <-.
  destruct t as [[|k2|k2 e2 v2 ttl2|]| |]; simplify_eq/=. destruct Hji as (_ & _ & _ & oa & Hoa & Hva & _).
  rewrite Hoa in Hbp. rewrite Hob in Hbq.
  assert (p = q) by (eapply (no_value_twice init cur l p q oa ob); eauto). lia.
Qed.
End Object.

(** ** Theorems *)

Section Theorems.
Context {H : Sha256} {T : TimeLib} (mapping : RecordMapping) (target : string).
Context (ts : list task) (reads : nat -> Z -> Prop) (init : gmap string object) (versions : gmap string NewRecord).
Notation tasks := (fun i => ts !! i).

(** C20: any number of replicas perform operations and sweeps on one Kubernetes resource, requests
    being lost, retried, cut off by deadlines, duplicated and delayed, and other clients deleting
    and writing as they like. The objects change only by single changes, one after another, and
    each one a task makes is one its operation is entitled to, by its own clock: a
    [put_if_absent] finds nothing or an expired record, a [compare_and_swap] finds the expected
    value in a record that has not expired, a sweep deletes only records past their expiry by the
    grace; both writes store the new value with its full lifetime. An operation that answers
    [true] has made its write, however that answer came about. *)
Theorem writes_justified w ps :
  distinct_values ts init -> well_formed init versions -> runs_to mapping target ts reads init versions w ps ->
  replays init (kw_history w) (kw_objects w)
  /\ (forall c i, c ∈ kw_history w -> ch_by c = Some i -> justified mapping tasks reads i c)
  /\ (forall i a, ps !! i = Some (Ret a) -> claims_write a = true -> exists c, c ∈ kw_history w /\ ch_by c = Some i).
Proof.
  intros Hd Hwf Hr. destruct (run_invariant _ _ _ _ _ _ _ _ Hd Hwf Hr) as [Hi Hc].
  split; [apply Hi|]. split; [apply Hi|]. exact Hc.
Qed.

(** C19: within the lifetime of the records, on an object that nobody deletes and no other client
    touches, at most one [put_if_absent] is answered [true], and at most one [compare_and_swap] of
    any expected value: what one task has won, every other task that competes for it is refused,
    in every interleaving and under every fault of the network. *)
Theorem one_winner w ps i j t t' x a b :
  distinct_values ts init -> well_formed init versions -> runs_to mapping target ts reads init versions w ps ->
  undisturbed mapping ts reads x.1 (kw_history w) -> i <> j ->
  ts !! i = Some t -> ts !! j = Some t' -> prize mapping t = Some x -> prize mapping t' = Some x ->
  ps !! i = Some (Ret a) -> claims_write a = true -> ps !! j = Some (Ret b) -> claims_write b = false.
Proof.
  intros Hd Hwf Hr Hu Hij Ht Ht' Hx Hx' Ha Hca Hb. apply not_true_iff_false. intros Hcb.
  destruct (run_invariant _ _ _ _ _ _ _ _ Hd Hwf Hr) as [Hi Hc].
  set (l := List.filter (fun c => bool_decide (ch_name c = x.1)) (kw_history w)).
  assert (entitled mapping ts reads x.1 l) as He.
  { intros c [Hin Hn]%list_elem_of_In%filter_In. apply list_elem_of_In in Hin. reflect. split; [done|].
    destruct (no_other _ _ _ _ _ Hu c Hin Hn) as [m Hm]. exists m. split; [done|]. by apply (kinv_history _ _ _ _ w Hi). }
  assert (forall m s y, ts !! m = Some s -> prize mapping s = Some x -> ps !! m = Some (Ret y) -> claims_write y = true ->
    exists p c, l !! p = Some c /\ ch_by c = Some m) as Hwon.
  { intros m s y Hm Hs Hy Hcy. destruct (Hc m y Hy Hcy) as (c & Hin & Hby).
    assert (ch_name c = x.1) as Hn.
    { destruct (kinv_history _ _ _ _ w Hi c m Hin Hby) as (s' & now & Hs' & Hj & _). rewrite Hm in Hs'. injection Hs' as <-.
      destruct s as [[]| |]; simplify_eq/=; apply Hj. }
    assert (c ∈ l) as [p Hp]%list_elem_of_lookup_1; [|eauto].
    apply list_elem_of_In, filter_In. split; [by apply list_elem_of_In|by apply bool_decide_eq_true]. }
  destruct (Hwon i t a Ht Hx Ha Hca) as (p & c & Hp & Hci). destruct (Hwon j t' b Ht' Hx' Hb Hcb) as (q & c' & Hq & Hcj).
  pose proof (replays_chain _ _ _ x.1 (kinv_replays _ _ _ _ w Hi)) as Hch.
  assert (forall o, init !! x.1 = Some o -> foreign tasks (nr_value o.1)) as Hf by apply (values_new _ _ Hd).
  destruct (Nat.lt_trichotomy p q) as [Hlt|[->|Hlt]].
  - by eapply (later_loses mapping ts reads x.1 (kw_history w) init _ l p q i j c c' t t').
  - rewrite Hp in Hq. congruence.
  - by eapply (later_loses mapping ts reads x.1 (kw_history w) init _ l q p j i c' c t' t).
Qed.
End Theorems.

(** ** A run *)

(** Two replicas put the same key. The first one's [create] is applied, but a retry reports it as
    existing; both read the object, and only the first finds its own value. *)
Module KubeRun.
Import PlainKube.

(** Serves a task's calls one after another; [retried] requests are applied and reported as refused. *)
Fixpoint answer (i : nat) (retried : bool) (w : KWorld) (e : keff) : option (kans e * KWorld) :=
  match e with
  | KNow => Some (1000%Z, w)
  | KGet name => Some (Ok (stored_of <$> kw_objects w !! name), w)
  | KCreate r =>
      let v := "v" +:+ pretty.pretty (size (kw_versions w)) in
      match kw_objects w !! nr_name r, kw_versions w !! v with
      | None, None => Some (Ok (if retried then AlreadyExists else Created), write w (Some i) (nr_name r) (Some (r, v)))
      | Some _, _ => Some (Ok AlreadyExists, w)
      | _, _ => None
      end
  | KTimeout _ e => '(a, w') ← answer i retried w e; Some (Some a, w')
  | _ => None
  end.

Definition clock (i : nat) (now : Z) : Prop := (1000 <= now <= 2000)%Z.

Lemma answer_handled i retried w e a w' : answer i retried w e = Some (a, w') -> khandle clock i w e a w'.
Proof.
  revert a w'. induction e; intros a w' Ha; simplify_eq/=.
  - split; [split; lia|done].
  - split; [done|by right].
  - destruct (kw_objects w !! nr_name r) eqn:Ho; simplify_eq/=.
    { exists (Refused false), "". split; [apply sends_refused; constructor; by rewrite Ho|done]. }
    destruct (kw_versions w !! _) eqn:Hv; simplify_eq/=.
    destruct retried; [exists (Refused false), ""|exists Done, ""]; (split; [|done]); constructor; by constructor.
  - apply bind_Some in Ha as ([b w1] & Hb & Ha). simplify_eq/=. by apply IHe.
Qed.

Definition key : string := "replay:a".
Definition race : list task :=
  [Operation (PutIfAbsent key [x01] (from_secs 600)); Operation (PutIfAbsent key [x02] (from_secs 600))].
Definition start : KWorld := initial ∅ ∅.
Definition ran (i : nat) (retried : bool) (w : KWorld) (t : task) : KWorld :=
  match run (answer i retried) (serve TransientRecord "t" t) w with Some (_, w) => w | None => w end.
Definition won_reply : reply := Answered (PutIfAbsent key [x01] (from_secs 600)) (Ok true).
Definition lost_reply : reply := Answered (PutIfAbsent key [x02] (from_secs 600)) (Ok false).
Definition final : KWorld := ran 1 false (ran 0 true start (Operation (PutIfAbsent key [x01] (from_secs 600))))
  (Operation (PutIfAbsent key [x02] (from_secs 600))).

Lemma race_runs :
  runs_to TransientRecord "t" race clock ∅ ∅ final [Ret won_reply; Ret lost_reply].
Proof.
  unfold runs_to. etrans.
  - apply (run_reachable (answer 0 true)) with (i := 0) (a := won_reply)
      (p := serve TransientRecord "t" (Operation (PutIfAbsent key [x01] (from_secs 600))))
      (w' := ran 0 true start (Operation (PutIfAbsent key [x01] (from_secs 600))));
      [apply answer_handled|vm_compute; reflexivity|reflexivity].
  - apply (run_reachable (answer 1 false)) with (i := 1) (a := lost_reply) (w' := final)
      (p := serve TransientRecord "t" (Operation (PutIfAbsent key [x02] (from_secs 600))));
      [apply answer_handled|vm_compute; reflexivity|reflexivity].
Qed.

Lemma race_values : distinct_values race ∅.
Proof.
  split; [|by intros n o Ho; rewrite lookup_empty in Ho].
  intros [|[|i]] [|[|j]] t t' v Ht Ht' Hv Hv'; simplify_eq/=; done.
Qed.

Lemma race_well_formed : well_formed ∅ ∅.
Proof. intros n r v Ho. by rewrite lookup_empty in Ho. Qed.

Lemma race_undisturbed : undisturbed TransientRecord race clock (name_of TransientRecord key) (kw_history final).
Proof.
  constructor.
  - by intros [|[|i]] k ?; simplify_eq/=.
  - assert (Forall (fun c => is_Some (ch_by c)) (kw_history final)) as Hall; [|intros c Hc _; by eapply Forall_forall in Hall].
    replace (kw_history final) with (take 1 (kw_history final)) by (vm_compute; reflexivity).
    apply Forall_take. apply (bool_decide_unpack _). vm_compute. exact I.
  - intros i t ttl a j b Ht Hl Ha Hb. unfold clock in *.
    destruct i as [|[|i]]; simplify_eq/=; (assert (millis (from_secs 600) = 600000)%Z as -> by done; lia).
Qed.

Lemma writes_justified_witness :
  runs_to TransientRecord "t" race clock ∅ ∅ final [Ret won_reply; Ret lost_reply]
  /\ exists c, c ∈ kw_history final /\ ch_by c = Some 0.
Proof.
  split; [exact race_runs|].
  destruct (writes_justified TransientRecord "t" race clock ∅ ∅ final _ race_values race_well_formed race_runs)
    as (_ & _ & Hc).
  by apply (Hc 0 won_reply).
Defined.

Lemma one_winner_witness : claims_write won_reply = true /\ claims_write lost_reply = false.
Proof.
  split; [reflexivity|].
  apply (one_winner TransientRecord "t" race clock ∅ ∅ final [Ret won_reply; Ret lost_reply] 0 1
    (Operation (PutIfAbsent key [x01] (from_secs 600))) (Operation (PutIfAbsent key [x02] (from_secs 600)))
    (name_of TransientRecord key, None) won_reply lost_reply
    race_values race_well_formed race_runs race_undisturbed); reflexivity || done.
Defined.
End KubeRun.
