(* ===== verification/KubeContract.v ===== *)
(** * KubeContract: the Kubernetes store implements the transient-store contract

    One replica's calls, one after another, against an API server that answers, refuses, loses
    requests and answers, and retries; a deadline may cut a call at any point. Every such sequence
    is a run of the contract of [Store] without slack, for instants and lifetimes of whole
    milliseconds: the store counts nothing finer. *)

From S2P Require Import Prelude Text Store Dynamo Prog RefreshHandle Seal Requests KubeMapping Kube KubeSafety.
#[local] Open Scope string_scope.
#[local] Open Scope list_scope.

(** Nanoseconds of a millisecond. *)
Definition milli : Z := 1000000.
Definition unix_millis (now : Z) : Z := (now / milli)%Z.

(** ** One replica's server *)

(** What the caller may learn of a request that nobody races with: a retry is refused for what the
    first delivery did. *)
Inductive answers (w : KWorld) (q : request) : verdict -> KWorld -> Prop :=
  | answers_applied w1 : applies w (Some 0) q w1 -> answers w q Done w1
  | answers_refused b : refuses w q b -> answers w q (Refused b) w
  | answers_retried b w1 : applies w (Some 0) q w1 -> refuses w1 q b -> answers w q (Refused b) w1
  | answers_lost : answers w q Lost w
  | answers_lost_applied w1 : applies w (Some 0) q w1 -> answers w q Lost w1.

Fixpoint shandle (now : Z) (w : KWorld) (e : keff) : kans e -> KWorld -> Prop :=
  match e with
  | KNow => fun a w' => a = unix_millis now /\ w' = w
  | KGet name => fun a w' => w' = w /\ ((exists m, a = Err m) \/ a = Ok (stored_of <$> kw_objects w !! name))
  | KCreate r => fun a w' => exists vd m, answers w (QCreate r) vd w' /\ a = create_answer vd m
  | KReplace r v => fun a w' => exists vd m, answers w (QReplace r v) vd w' /\ a = replace_answer vd m
  | KDelete n v => fun a w' => exists vd m, answers w (QDelete n v) vd w' /\ a = delete_answer vd m
  | KTimeout _ e => fun o w' =>
      match o with
      | Some a => shandle now w e a w'
      | None => w' = w \/ exists a, shandle now w e a w'
      end
  | _ => fun _ w' => w' = w
  end.

Section Contract.
Context {H : Sha256} {T : TimeLib} (mapping : RecordMapping) (target : string).
(** The keys in use, whose objects have different names. *)
Context (keys : list string)
  (names_differ : forall k k', k ∈ keys -> k' ∈ keys -> name_of mapping k = name_of mapping k' -> k = k').

Notation object_of w k := (kw_objects w !! name_of mapping k).

(** The record an object holds, if it is live. *)
Definition live_object (now : Z) (o : option object) : option (bytes * Z) :=
  '(r, _) ← o; if (now <? nr_expires_ms r * milli)%Z then Some (nr_value r, (nr_expires_ms r * milli)%Z) else None.

(** The objects hold the records of the keys in use, of values among [ws]. *)
Definition sim (ws : list bytes) (now : Z) (w : KWorld) (st : records) : Prop :=
  (forall k, k ∈ keys -> live now st k = live_object now (object_of w k))
  /\ forall n o, kw_objects w !! n = Some o -> nr_value o.1 ∈ ws.

Lemma sim_later ws t now w st : (t <= now)%Z -> sim ws t w st -> sim ws now w st.
Proof.
  intros Ht [Hs Hv]. split; [|done]. intros k Hk. specialize (Hs k Hk). unfold live, live_object in *.
  destruct (st !! k) as [[v e]|], (object_of w k) as [[r x]|]; simpl in *;
    repeat case_match; reflect; simplify_eq; try done; lia.
Qed.

Lemma sim_more o ws now w st : sim ws now w st -> sim (writes o ws) now w st.
Proof.
  intros [Hs Hv]. split; [done|]. intros n r Hr. unfold writes. destruct (Store.written o); [right|]; by eapply Hv.
Qed.

Lemma sim_insert ws now w st k r x :
  k ∈ keys -> sim ws now w st ->
  sim (nr_value r :: ws) now (write w (Some 0) (name_of mapping k) (Some (r, x)))
    (<[k := (nr_value r, (nr_expires_ms r * milli)%Z)]> st).
Proof.
  intros Hk [Hs Hv]. split.
  - intros k' Hk'. unfold live. simpl. destruct (decide (k' = k)) as [->|Hne].
    + by rewrite !lookup_insert_eq.
    + rewrite !lookup_insert_ne; [by apply Hs|by intros ?%names_differ|done].
  - intros n o Ho. simpl in Ho. apply lookup_insert_Some in Ho as [[_ <-]|[_ Ho]]; [by left|right; by eapply Hv].
Qed.

Lemma sim_delete ws now w st k :
  k ∈ keys -> sim ws now w st -> sim ws now (write w (Some 0) (name_of mapping k) None) (delete k st).
Proof.
  intros Hk [Hs Hv]. split.
  - intros k' Hk'. unfold live. simpl. destruct (decide (k' = k)) as [->|Hne].
    + by rewrite !lookup_delete_eq.
    + rewrite !lookup_delete_ne; [by apply Hs|by intros ?%names_differ|done].
  - intros n o Ho. simpl in Ho. apply lookup_delete_Some in Ho as [_ Ho]. by eapply Hv.
Qed.

(** ** One operation *)

Section Operation.
Context (ws : list bytes) (now : Z) (st : records) (o : store_op).

(** The contract allows the answer, and describes what is stored. *)
Definition allowed (r : result (store_ans o) StoreError) (w : KWorld) : Prop :=
  exists st', faulty_step 0 now st o r st' /\ sim (writes o ws) now w st'.

(** An error may be answered in this state. *)
Definition interruptible (w : KWorld) : Prop := forall m, allowed (Err (Backend m)) w.

Definition performs {A} (p : kio A) (Q : A -> KWorld -> Prop) (w : KWorld) : Prop :=
  safe (shandle now) eq (fun _ w' => interruptible w') p Q w.

Lemma performs_bind {A B} (p : kio A) (f : A -> kio B) Q w :
  performs p (fun a w' => performs (f a) Q w') w -> performs (bind p f) Q w.
Proof. apply safe_bind. apply _. Qed.

Lemma performs_ret {A} (a : A) (Q : A -> KWorld -> Prop) w : Q a w -> performs (Ret a) Q w.
Proof. intros HQ w1 <-. done. Qed.

Lemma performs_ask e (Q : kans e -> KWorld -> Prop) w :
  (forall a w', shandle now w e a w' -> interruptible w' /\ Q a w') -> performs (ask e) Q w.
Proof. intros HQ w1 a w2 <- Hh. destruct (HQ a w2 Hh). split; [done|]. by intros w3 <-. Qed.

Notation operation := (kio (result (store_ans o) StoreError)).

(** [x <-! backend p ;; f x], where an error of [p] ends the operation. *)
Lemma performs_backend {A} (p : kio (result A string)) (f : A -> operation) w :
  performs p (fun r w' => match r with
    | Ok a => performs (f a) allowed w'
    | Err m => allowed (Err (Backend m)) w'
    end) w ->
  performs (bind_ok (backend p) f) allowed w.
Proof.
  intros Hp. apply performs_bind, performs_bind. eapply safe_mono; [|exact Hp].
  intros [a|m] w' Hr; apply performs_ret; [done|]. by apply performs_ret.
Qed.

(** Where an error may be answered, a call may lose its answer. *)
Lemma performs_get k (f : option Stored -> operation) w :
  interruptible w -> performs (f (stored_of <$> object_of w k)) allowed w ->
  performs (bind_ok (backend (ask (KGet (name_of mapping k)))) f) allowed w.
Proof.
  intros Hi Hf. apply performs_backend, performs_ask. by intros a w' [-> [[m ->]| ->]].
Qed.

(** The state after the write of a record. *)
Notation put w r x := (write w (Some 0) (nr_name r) (Some (r, x))).

Lemma performs_create r (f : CreateOutcome -> operation) w :
  interruptible w ->
  (is_Some (kw_objects w !! nr_name r) -> performs (f AlreadyExists) allowed w) ->
  (kw_objects w !! nr_name r = None -> forall x, kw_versions w !! x = None ->
     interruptible (put w r x) /\ performs (f Created) allowed (put w r x)
     /\ performs (f AlreadyExists) allowed (put w r x)) ->
  performs (bind_ok (backend (ask (KCreate r))) f) allowed w.
Proof.
  intros Hi Hold Hnew. apply performs_backend, performs_ask. intros a w' (vd & m & Ha & ->).
  destruct Ha as [w1 Ha|b Hr|b w1 Ha _| |w1 Ha]; [| | |by split; [|apply Hi]|].
  2: { inversion Hr; subst. split; [done|by apply Hold]. }
  all: inversion Ha as [r' x Ho Hx| |]; subst; destruct (Hnew Ho x Hx) as (Hw & ? & ?); (split; [done|]); first [done|apply Hw].
Qed.

Lemma performs_replace r old version (f : ReplaceOutcome -> operation) w :
  kw_objects w !! nr_name r = Some (old, version) -> interruptible w ->
  (forall x, kw_versions w !! x = None ->
     interruptible (put w r x) /\ performs (f Replaced) allowed (put w r x)
     /\ performs (f ReplaceConflict) allowed (put w r x)) ->
  performs (bind_ok (backend (ask (KReplace r version))) f) allowed w.
Proof.
  intros Ho Hi Hnew. apply performs_backend, performs_ask. intros a w' (vd & m & Ha & ->).
  destruct Ha as [w1 Ha|b Hr|b w1 Ha Hr| |w1 Ha]; [| | |by split; [|apply Hi]|].
  2: { inversion Hr as [|r' v' Hn|r' o' v' Hn Hne| |]; subst; rewrite Ho in Hn; [done|]. by injection Hn as <-. }
  2: { inversion Ha as [|r' old' v' x Ho' Hx|]; subst. destruct (Hnew x Hx) as (? & ? & ?).
       inversion Hr as [|r' v' Hn| | |]; subst; simpl in *; [by rewrite lookup_insert_eq in Hn|by split]. }
  all: inversion Ha as [|r' old' v' x Ho' Hx|]; subst; destruct (Hnew x Hx) as (Hw & ? & ?); (split; [done|]); first [done|apply Hw].
Qed.

Lemma performs_delete k (f : DeleteOutcome -> operation) w :
  interruptible w -> interruptible (write w (Some 0) (name_of mapping k) None) ->
  performs (f Deleted) allowed (write w (Some 0) (name_of mapping k) None) ->
  performs (f DeleteNotFound) allowed (write w (Some 0) (name_of mapping k) None) ->
  (object_of w k = None -> performs (f DeleteNotFound) allowed w) ->
  performs (bind_ok (backend (ask (KDelete (name_of mapping k) None))) f) allowed w.
Proof.
  intros Hi Hi' Hd Hn Hm. apply performs_backend, performs_ask. intros a w' (vd & m & Ha & ->).
  destruct Ha as [w1 Ha|b Hr|b w1 Ha Hr| |w1 Ha]; [| | |by split; [|apply Hi]|].
  2: { inversion Hr; subst. split; [done|by apply Hm]. }
  2: { inversion Ha; subst; inversion Hr; subst. by split. }
  all: inversion Ha; subst; (split; [done|]); first [done|apply Hi'].
Qed.

(** The deadline of an operation. *)
Lemma performs_timeout {A} d (p : kio A) (Q : A -> KWorld -> Prop) w :
  interruptible w -> performs p Q w ->
  performs (ktimeout d p) (fun r w' => match r with Some a => Q a w' | None => interruptible w' end) w.
Proof.
  revert w. induction p as [a|e k IH]; intros w Hi; simpl; [by intros Hq w1 <-; apply Hq|].
  intros Hs w1 r w2 <- Hh. destruct r as [a|].
  - destruct (Hs w a w2 eq_refl Hh) as [Hi2 Hk]. split; [done|]. by apply IH.
  - assert (interruptible w2) as Hi2 by (destruct Hh as [->|[a Ha]]; [done|by apply (Hs w a w2)]).
    split; [done|]. by intros w3 <-.
Qed.

Lemma performs_bounded name (p : operation) w :
  interruptible w -> performs p allowed w -> performs (bounded target name p) allowed w.
Proof.
  intros Hi Hp. apply performs_bind, performs_bind. eapply safe_mono.
  2: { apply (performs_timeout _ _ (fun r w' => match r with Ok r => allowed r w' | Err _ => False end)); [exact Hi|].
       apply performs_bind. eapply safe_mono; [|exact Hp]. intros r w' Hr. by apply performs_ret. }
  intros [[r|m]|] w' Hr; [|destruct Hr|]; apply performs_ret, performs_ret; [exact Hr|apply Hr].
Qed.
End Operation.
#[local] Arguments performs : simpl never.

(** Lifetimes are whole milliseconds, and no expiry passes the last timestamp. *)
Definition in_range (now : Z) (o : store_op) : Prop :=
  (unix_millis now * milli = now)%Z /\ forall ttl, op_ttl o = Some ttl ->
    (0 <= ttl /\ millis ttl * milli = ttl /\ unix_millis now + millis ttl <= u64_max
     /\ unix_millis now + millis ttl <= max_expiry_millis)%Z.

Lemma expiry_in_range now ttl :
  (unix_millis now + millis ttl <= u64_max)%Z -> (unix_millis now + millis ttl <= max_expiry_millis)%Z ->
  expiry (unix_millis now) ttl = Ok (unix_millis now + millis ttl)%Z.
Proof. intros H1 H2. unfold expiry. by rewrite (proj2 (Z.leb_le _ _) H1), (proj2 (Z.leb_le _ _) H2). Qed.

Lemma interruptible_same ws now st o w : sim ws now w st -> interruptible ws now st o w.
Proof. intros Hs m. exists st. split; [apply step_not_applied|by apply sim_more]. Qed.

Lemma allowed_same ws now st o a w : sim ws now w st -> spec_step 0 now st o (Ok a) st -> allowed ws now st o (Ok a) w.
Proof. intros Hs Hstep. exists st. split; [by apply step_answered|by apply sim_more]. Qed.

Lemma allowed_changed ws now st st' o a w :
  sim (writes o ws) now w st' -> spec_step 0 now st o (Ok a) st' -> allowed ws now st o (Ok a) w /\ interruptible ws now st o w.
Proof.
  intros Hs Hstep. split; [exists st'; split; [by apply step_answered|done]|]. intros m. exists st'. split; [by eapply step_applied|done].
Qed.

Lemma live_expired now r x :
  (unix_millis now * milli = now)%Z ->
  live_object now (Some (r, x)) =
    if (unix_millis now <? nr_expires_ms r)%Z then Some (nr_value r, (nr_expires_ms r * milli)%Z) else None.
Proof.
  intros Hw. simpl. unfold milli in *. do 2 case_match; try done; reflect; lia.
Qed.

Section Put.
Context (ws : list bytes) (now : Z) (st : records) (k : string) (v : bytes) (ttl : Duration).
Notation o := (PutIfAbsent k v ttl).
Notation r := (written mapping k v (unix_millis now + millis ttl)).
Context (k_used : k ∈ keys) (valid : validate_op o = Ok tt) (range : in_range now o).

Lemma put_allowed w x :
  sim ws now w st -> live now st k = None ->
  allowed ws now st o (Ok true) (write w (Some 0) (nr_name r) (Some (r, x)))
  /\ interruptible ws now st o (write w (Some 0) (nr_name r) (Some (r, x))).
Proof.
  intros Hs Hl. destruct range as [Hw Ht]. destruct (Ht ttl eq_refl) as (H0 & Hm & _).
  eapply allowed_changed; [by apply (sim_insert ws now w st k r x)|].
  apply spec_put; [done..|]. unfold fresh_expiry. simpl. lia.
Qed.

(** Once its own record is there, a retry finds it. *)
Lemma put_finds rounds w x :
  kw_objects w !! nr_name r = Some (r, x) -> (0 < millis ttl)%Z ->
  allowed ws now st o (Ok true) w -> interruptible ws now st o w ->
  performs ws now st o (put_rounds (S rounds) r (unix_millis now)) (allowed ws now st o) w.
Proof.
  intros Ho Hpos Ha Hi. cbn [put_rounds]. apply performs_create; [done| |by rewrite Ho].
  intros _. apply performs_get; [done|]. simpl in Ho |- *. rewrite Ho. simpl.
  rewrite (proj2 (Z.ltb_lt _ _)) by lia. rewrite bool_decide_eq_true_2 by done. by apply performs_ret.
Qed.

Lemma put_performs w :
  sim ws now w st -> (forall v', Store.written o = Some v' -> v' ∉ ws) ->
  performs ws now st o (put_if_absent mapping k v ttl) (allowed ws now st o) w.
Proof.
  intros Hs Hnew. destruct range as [Hw Ht]. destruct (Ht ttl eq_refl) as (H0 & Hm & H1 & H2).
  assert (0 < millis ttl)%Z as Hpos.
  { unfold milli in Hm. enough (ttl <> 0)%Z by lia. intros ->. unfold validate_op in valid. simpl in valid.
    by destruct (validate_key k). }
  pose proof (interruptible_same ws now st o w Hs) as Hi. unfold put_if_absent.
  apply performs_bind, performs_ask. intros a w' [-> ->]. split; [done|].
  rewrite expiry_in_range by done. unfold REPLACE_ROUNDS. remember 2 as more eqn:Hmore. cbn [put_rounds].
  assert (forall rounds x, live now st k = None ->
    performs ws now st o (put_rounds (S rounds) r (unix_millis now)) (allowed ws now st o)
      (write w (Some 0) (nr_name r) (Some (r, x)))) as Hfinds.
  { intros rounds x Hl. destruct (put_allowed w x Hs Hl). apply put_finds with x; [|done..]. simpl. by rewrite lookup_insert_eq. }
  pose proof (proj1 Hs k k_used) as Hlive. apply performs_create; [done|..].
  - intros [[r0 x0] Ho]. simpl in Ho. rewrite Ho, live_expired in Hlive by done.
    apply performs_get; [done|]. rewrite Ho. simpl.
    rewrite (bool_decide_eq_false_2 (nr_value r0 = v)), andb_false_r by (by intros <-; eapply (Hnew (nr_value r0)); [done|by apply (proj2 Hs _ _ Ho)]).
    destruct (unix_millis now <? nr_expires_ms r0)%Z.
    + apply performs_ret. eapply allowed_same; [done|]. by eapply spec_put_taken.
    + apply (performs_replace ws now st o r r0 x0); [done..|]. intros x Hx. destruct (put_allowed w x Hs Hlive).
      split; [done|]. split; [by apply performs_ret|]. subst more. by apply Hfinds.
  - intros Ho x Hx. simpl in Ho. rewrite Ho in Hlive. destruct (put_allowed w x Hs Hlive).
    split; [done|]. split; [by apply performs_ret|]. apply performs_get; [done|]. simpl. rewrite lookup_insert_eq. simpl.
    rewrite (proj2 (Z.ltb_lt _ _)) by lia. rewrite bool_decide_eq_true_2 by done. by apply performs_ret.
Qed.
End Put.

Lemma swap_performs ws now st k ex v ttl w (o := CompareAndSwap k ex v ttl) :
  k ∈ keys -> validate_op o = Ok tt -> in_range now o -> sim ws now w st -> (forall v', Store.written o = Some v' -> v' ∉ ws) ->
  performs ws now st o (compare_and_swap mapping k ex v ttl) (allowed ws now st o) w.
Proof.
  intros Hk Hval [Hw Ht] Hs Hnew. destruct (Ht ttl eq_refl) as (H0 & Hm & H1 & H2).
  assert (0 < millis ttl)%Z as Hpos.
  { unfold milli in Hm. enough (ttl <> 0)%Z by lia. intros ->. unfold validate_op in Hval. simpl in Hval.
    by destruct (validate_key k). }
  pose proof (interruptible_same ws now st o w Hs) as Hi. unfold compare_and_swap.
  apply performs_bind, performs_ask. intros a w' [-> ->]. split; [done|].
  rewrite expiry_in_range by done. pose proof (proj1 Hs k Hk) as Hlive. apply performs_get; [done|].
  destruct (object_of w k) as [[r0 x0]|] eqn:Ho; simpl.
  2: { apply performs_ret. apply (allowed_same ws now st o); [done|]. apply spec_swap_stale; [done|]. by rewrite Hlive. }
  rewrite live_expired in Hlive by done. destruct (unix_millis now <? nr_expires_ms r0)%Z eqn:Hexp; simpl.
  2: { apply performs_ret. apply (allowed_same ws now st o); [done|]. apply spec_swap_stale; [done|]. by rewrite Hlive. }
  case_bool_decide as Hex.
  2: { apply performs_ret. apply (allowed_same ws now st o); [done|]. apply spec_swap_stale; [done|]. rewrite Hlive. naive_solver. }
  set (r := written mapping k v (unix_millis now + millis ttl)).
  apply (performs_replace ws now st o r r0 x0); [done..|]. intros x Hx.
  destruct (allowed_changed ws now st (<[k := (v, (unix_millis now + millis ttl) * milli)%Z]> st) o true
    (write w (Some 0) (nr_name r) (Some (r, x)))) as [Ha Hi'].
  - by apply (sim_insert ws now w st k r x).
  - eapply spec_swap; [done|rewrite Hlive, <- Hex; reflexivity|]. unfold fresh_expiry. lia.
  - split; [done|]. split; [by apply performs_ret|]. apply performs_get; [done|]. simpl. rewrite lookup_insert_eq. simpl.
    rewrite (proj2 (Z.ltb_lt _ _)) by lia. rewrite bool_decide_eq_true_2 by done. by apply performs_ret.
Qed.

Lemma get_performs ws now st k w (o := Get k) :
  k ∈ keys -> validate_op o = Ok tt -> in_range now o -> sim ws now w st ->
  performs ws now st o (get mapping k) (allowed ws now st o) w.
Proof.
  intros Hk Hval [Hw _] Hs. pose proof (interruptible_same ws now st o w Hs) as Hi. unfold get.
  apply performs_bind, performs_ask. intros a w' [-> ->]. split; [done|].
  pose proof (proj1 Hs k Hk) as Hlive. apply performs_get; [done|]. apply performs_ret.
  apply (allowed_same ws now st o); [done|]. apply spec_get; [done|]. rewrite Hlive.
  destruct (object_of w k) as [[r0 x0]|]; [|done]. rewrite live_expired by done. simpl.
  destruct (unix_millis now <? nr_expires_ms r0)%Z; [|done]. eexists. split; [done|]. unfold milli in *. lia.
Qed.

Lemma delete_performs ws now st k w (o := Delete k) :
  k ∈ keys -> validate_op o = Ok tt -> sim ws now w st ->
  performs ws now st o (delete_key mapping k) (allowed ws now st o) w.
Proof.
  intros Hk Hval Hs. pose proof (interruptible_same ws now st o w Hs) as Hi.
  destruct (allowed_changed ws now st (delete k st) o tt (write w (Some 0) (name_of mapping k) None)) as [Ha Hi'].
  { by apply sim_delete. }
  { by apply spec_delete. }
  unfold delete_key. apply performs_delete; [done..|by apply performs_ret|by apply performs_ret|].
  intros Hn. apply performs_ret. exists (delete k st). split; [by apply step_answered, spec_delete|].
  split; [|apply Hs]. intros k' Hk'. unfold live.
  destruct (decide (k' = k)) as [->|Hne]; [by rewrite lookup_delete_eq, Hn|].
  rewrite lookup_delete_ne by done. by apply Hs.
Qed.

Lemma perform_performs ws now st o w :
  op_key o ∈ keys -> in_range now o -> sim ws now w st -> (forall v', Store.written o = Some v' -> v' ∉ ws) ->
  performs ws now st o (perform mapping target o) (allowed ws now st o) w.
Proof.
  intros Hk Hr Hs Hnew. unfold perform. destruct (validate_op o) as [[]|e] eqn:Hval.
  2: { apply performs_ret. exists st. split; [by apply step_answered, spec_invalid|by apply sim_more]. }
  pose proof (interruptible_same ws now st o w Hs) as Hi.
  destruct o as [k v ttl|k|k ex v ttl|k]; (apply performs_bounded; [done|]).
  - by apply put_performs.
  - by apply get_performs.
  - by apply swap_performs.
  - by apply delete_performs.
Qed.
End Contract.

(** ** Sequences of calls *)

Lemma safe_outcome {E Ans W A} (handle : W -> forall e : E, Ans e -> W -> Prop) guar (p : prog E Ans A) Q w a w' :
  safe handle eq guar p Q w -> outcome handle p w a w' -> Q a w'.
Proof.
  revert w. induction p as [b|e k IH]; intros w; simpl; [by intros HQ [-> ->]; apply HQ|].
  intros Hs (b & w1 & Hh & Ho). destruct (Hs w b w1 eq_refl Hh). by eapply IH.
Qed.

Section Calls.
Context {H : Sha256} {T : TimeLib} (mapping : RecordMapping) (target : string).

(** Calls at their instants, each performed to its end. *)
Inductive kube_run : KWorld -> list (Z * store_op) -> list event -> Prop :=
  | kube_done w : kube_run w [] []
  | kube_call w now o r w' calls events :
      outcome (shandle now) (perform mapping target o) w r w' -> kube_run w' calls events ->
      kube_run w ((now, o) :: calls) ({| at_time := now; Store.call := o; answer := r |} :: events).

Lemma kube_run_spec keys ws t w st calls events :
  (forall k k', k ∈ keys -> k' ∈ keys -> name_of mapping k = name_of mapping k' -> k = k') ->
  sim mapping keys ws t w st -> ordered t calls ->
  (forall c, c ∈ calls -> op_key c.2 ∈ keys /\ in_range c.1 c.2) ->
  NoDup (all_written calls) -> (forall v, v ∈ all_written calls -> v ∉ ws) ->
  kube_run w calls events -> spec_run 0 t st events.
Proof.
  intros Hnames. revert ws t w st events. induction calls as [|[now o] calls IH];
    intros ws t w st events Hs Ho Hr Hd Hn Hrun; inversion Hrun as [|? ? ? r w' ? es Hout Hrest]; subst.
  { constructor. }
  destruct Ho as [Ht Ho]. destruct (Hr (now, o)) as [Hk Hrange]; [apply list_elem_of_here|].
  assert (forall v, Store.written o = Some v -> v ∉ ws) as Hv.
  { intros v Hv. apply Hn. unfold all_written. simpl. rewrite Hv. apply list_elem_of_here. }
  apply (sim_later mapping keys ws t now) in Hs; [|done].
  pose proof (perform_performs mapping target keys Hnames ws now st o w Hk Hrange Hs Hv) as Hp.
  destruct (safe_outcome _ _ _ _ _ _ _ Hp Hout) as (st' & Hstep & Hs').
  econstructor; [done|done|]. apply (IH (writes o ws) now w'); try done.
  - intros c Hc. apply Hr. by apply list_elem_of_further.
  - unfold all_written in *. simpl in Hd. destruct (Store.written o); [by inversion_clear Hd|done].
  - unfold all_written, writes in *. simpl in Hd, Hn. destruct (Store.written o) as [v|]; [|done].
    intros v' Hin. inversion_clear Hd as [|?? Hnin _]. rewrite not_elem_of_cons. split; [by intros ->|].
    apply Hn. by apply list_elem_of_further.
Qed.

(** C21: refinement. One replica's calls to the Kubernetes store, one after another, are a run of
    the transient-store contract without slack, although requests and answers get lost, retries
    are refused for what a first delivery did, and calls are cut off by their deadline: a
    conditional write reports success exactly when it took effect, a record is visible for exactly
    its lifetime, and an error leaves open only whether the call was applied. Instants and
    lifetimes are whole milliseconds within the range of timestamps, no two keys share an object
    name and no two calls write the same bytes. *)
Theorem kube_store_contract w t0 calls events :
  kw_objects w = ∅ -> ordered t0 calls -> (forall c, c ∈ calls -> in_range c.1 c.2) ->
  (forall c c', c ∈ calls -> c' ∈ calls ->
     name_of mapping (op_key c.2) = name_of mapping (op_key c'.2) -> op_key c.2 = op_key c'.2) ->
  NoDup (all_written calls) -> kube_run w calls events ->
  spec_run 0 t0 ∅ events.
Proof.
  intros Hw Ho Hr Hnames Hd Hrun.
  apply (kube_run_spec ((fun c => op_key c.2) <$> calls) [] t0 w ∅ calls events); try done.
  - intros k k' (c & -> & Hc)%list_elem_of_fmap (c' & -> & Hc')%list_elem_of_fmap. by apply Hnames.
  - split; [intros k _; unfold live; by rewrite Hw, !lookup_empty|].
    intros n o Hn. by rewrite Hw, lookup_empty in Hn.
  - intros c Hc. split; [by apply (list_elem_of_fmap_2 (fun c => op_key c.2))|by apply Hr].
  - intros v _. apply not_elem_of_nil.
Qed.
End Calls.

(** ** A run *)

(** The answer to the swap's request is lost and its retry is refused; the store finds its own
    value. A later swap of the same value is refused. *)
Module ContractRun.
Import PlainKube.

Definition next_version (w : KWorld) : string := "v" +:+ pretty.pretty (size (kw_versions w)).

Fixpoint reply_to (now : Z) (retried : bool) (w : KWorld) (e : keff) : option (kans e * KWorld) :=
  match e with
  | KNow => Some (unix_millis now, w)
  | KGet name => Some (Ok (stored_of <$> kw_objects w !! name), w)
  | KCreate r =>
      match kw_objects w !! nr_name r, kw_versions w !! next_version w with
      | None, None => Some (Ok Created, write w (Some 0) (nr_name r) (Some (r, next_version w)))
      | Some _, _ => Some (Ok AlreadyExists, w)
      | _, _ => None
      end
  | KReplace r version =>
      match kw_objects w !! nr_name r, kw_versions w !! next_version w with
      | Some (_, version'), None =>
          if bool_decide (version' = version) && negb (bool_decide (next_version w = version))
          then Some (Ok (if retried then ReplaceConflict else Replaced),
                     write w (Some 0) (nr_name r) (Some (r, next_version w)))
          else None
      | _, _ => None
      end
  | KTimeout _ e => '(a, w') ← reply_to now retried w e; Some (Some a, w')
  | _ => None
  end.

Lemma reply_to_handled now retried w e a w' : reply_to now retried w e = Some (a, w') -> shandle now w e a w'.
Proof.
  revert a w'. induction e; intros a w' Ha; simplify_eq/=; [done| | | |].
  - split; [done|by right].
  - destruct (kw_objects w !! nr_name r) eqn:Ho; simplify_eq/=.
    { exists (Refused false), "". split; [apply answers_refused; constructor; by rewrite Ho|done]. }
    destruct (kw_versions w !! _) eqn:Hv; simplify_eq/=.
    exists Done, "". split; [|done]. constructor. by constructor.
  - destruct (kw_objects w !! nr_name r) as [[r0 v0]|] eqn:Ho; simplify_eq/=.
    destruct (kw_versions w !! _) eqn:Hv; simplify_eq/=. destruct (_ && _) eqn:Hc; simplify_eq/=. reflect. subst.
    destruct retried; [exists (Refused false), ""|exists Done, ""]; (split; [|done]).
    + apply answers_retried; [by eapply applies_replace|].
      eapply (refuses_changed _ r (r, next_version w)); [simpl; by rewrite lookup_insert_eq|done].
    + constructor. by eapply applies_replace.
  - apply bind_Some in Ha as ([b w1] & Hb & Ha). simplify_eq/=. by apply IHe.
Qed.

Definition calls : list (Z * store_op) := [
  (from_secs 1000, PutIfAbsent "refresh:handle:h" (into_bytes "a") (from_secs 60));
  (from_secs 1001, CompareAndSwap "refresh:handle:h" (into_bytes "a") (into_bytes "b") (from_secs 60));
  (from_secs 1002, CompareAndSwap "refresh:handle:h" (into_bytes "a") (into_bytes "c") (from_secs 60)) ].

Fixpoint log (w : KWorld) (calls : list (Z * store_op)) : list event :=
  match calls with
  | [] => []
  | (now, o) :: calls =>
      match run (reply_to now true) (perform DexAuthCode "t" o) w with
      | Some (r, w') => {| at_time := now; Store.call := o; answer := r |} :: log w' calls
      | None => []
      end
  end.

Definition empty_server : KWorld := initial ∅ ∅.

Lemma log_runs w calls : length (log w calls) = length calls -> kube_run DexAuthCode "t" w calls (log w calls).
Proof.
  revert w. induction calls as [|[now o] calls IH]; intros w; simpl; [constructor|].
  destruct (run _ _ w) as [[r w']|] eqn:Hr; simpl; [|done]. intros [= Hl].
  econstructor; [|by apply IH]. eapply run_outcome; [|exact Hr]. intros w1 e b w2. apply reply_to_handled.
Qed.

Example replies :
  (fun e => match Store.call e as o return result (store_ans o) StoreError -> bool with
            | PutIfAbsent _ _ _ | CompareAndSwap _ _ _ _ => fun r => match r with Ok b => b | Err _ => false end
            | _ => fun _ => false
            end (answer e)) <$> log empty_server calls = [true; true; false].
Proof. vm_compute. reflexivity. Qed.

Lemma kube_store_contract_witness : spec_run 0 (from_secs 1000) ∅ (log empty_server calls).
Proof.
  apply (kube_store_contract DexAuthCode "t" empty_server (from_secs 1000) calls).
  - reflexivity.
  - vm_compute. repeat split; discriminate.
  - intros c [->|[->|[->|Hc%not_elem_of_nil]%elem_of_cons]%elem_of_cons]%elem_of_cons; [..|destruct Hc];
      (split; [reflexivity|]; intros ttl [= <-]; split_and!; vm_compute; congruence).
  - intros c c' [->|[->|[->|Hc%not_elem_of_nil]%elem_of_cons]%elem_of_cons]%elem_of_cons; [..|destruct Hc];
      intros [->|[->|[->|Hc%not_elem_of_nil]%elem_of_cons]%elem_of_cons]%elem_of_cons; [..|destruct Hc| | | |destruct Hc| | | |destruct Hc];
      reflexivity.
  - vm_compute. repeat (constructor; [set_solver|]). constructor.
  - apply log_runs. vm_compute. reflexivity.
Defined.

(** Finer lifetimes are floored: one of half a millisecond is accepted and has expired at once. *)
Example submillisecond_ttl :
  validate_op (PutIfAbsent "k" [] 500000%Z) = Ok tt
  /\ expiry (unix_millis (from_millis 5)) 500000%Z = Ok (unix_millis (from_millis 5)).
Proof. split; vm_compute; reflexivity. Qed.
End ContractRun.
