(* ===== verification/KubeSweep.v ===== *)
(** * KubeSweep: the sweeper collects every expired record

    One pass of the sweeper over an API server that nobody else uses meanwhile, and what ticks with
    other clients' writes between them collect. A pass that
    succeeds has deleted every record that was past its expiry by the grace when it began, and no
    record within the grace; the watermark it leaves is below no record, so that the next tick need
    not look at earlier hours. *)

From S2P Require Import Prelude Text Store Prog RefreshHandle Seal Requests KubeMapping Kube KubeSafety.
#[local] Open Scope string_scope.
#[local] Open Scope list_scope.

(** ** Chunks *)

Lemma chunks_of_cover {A} fuel n (l : list A) :
  (length l <= fuel)%nat -> (0 < n)%nat ->
  (forall x, x ∈ l -> exists c, c ∈ chunks_of fuel n l /\ x ∈ c) /\ forall c, c ∈ chunks_of fuel n l -> c <> [].
Proof.
  intros Hl Hn. revert l Hl. induction fuel as [|fuel IH]; intros [|a l] Hl; simpl in *;
    try (split; [by intros x ?%not_elem_of_nil|by intros c ?%not_elem_of_nil]); [lia|].
  destruct n as [|n]; [lia|]. destruct (IH (drop (S n) (a :: l))) as [IHx IHc]; [simpl; rewrite length_drop; lia|].
  split.
  - intros x Hx. rewrite <- (take_drop (S n) (a :: l)) in Hx. apply elem_of_app in Hx as [Hx|Hx].
    + exists (take (S n) (a :: l)). split; [by left|done].
    + destruct (IHx x Hx) as (c & Hc & Hxc). exists c. split; [by right|done].
  - intros c [->|Hc]%elem_of_cons; [done|by apply IHc].
Qed.

Lemma chunks_cover {A} n (l : list A) :
  (0 < n)%nat ->
  (forall x, x ∈ l -> exists c, c ∈ chunks n l /\ x ∈ c) /\ forall c, c ∈ chunks n l -> c <> [].
Proof. by apply chunks_of_cover. Qed.

(** ** The server and the replica *)

(** The objects, the rest of the list that is being read, the clock and the sweeper's state. *)
Record SWorld := {
  sw_objects : gmap string object;
  sw_rest : list Stored;
  sw_clock : Z;
  sw_state : option SweepState;
}.

Section Sweep.
Context {H : Sha256} {B : Base64} {BS : Base64Std} {T : TimeLib} {S : SelectorLib} {SL : SelectorLaws S}.
Context (target : string).
(** Nothing reads a later time than [until]; calls fail only if [faulty]. *)
Context (until : Z) (faulty : Prop).

Definition object_labels (o : object) : gmap string string := labels (nr_key o.1) (nr_expires_ms o.1).

Definition matching (selector : string) (w : SWorld) : list Stored :=
  stored_of <$> List.filter (fun o => selects selector (object_labels o)) (map_to_list (sw_objects w)).*2.

Definition set_rest (w : SWorld) (l : list Stored) : SWorld :=
  {| sw_objects := sw_objects w; sw_rest := l; sw_clock := sw_clock w; sw_state := sw_state w |}.
Definition set_clock (w : SWorld) (t : Z) : SWorld :=
  {| sw_objects := sw_objects w; sw_rest := sw_rest w; sw_clock := t; sw_state := sw_state w |}.
Definition set_state (w : SWorld) (s : option SweepState) : SWorld :=
  {| sw_objects := sw_objects w; sw_rest := sw_rest w; sw_clock := sw_clock w; sw_state := s |}.
Definition remove (w : SWorld) (name : string) : SWorld :=
  {| sw_objects := delete name (sw_objects w); sw_rest := sw_rest w; sw_clock := sw_clock w; sw_state := sw_state w |}.

(** A list is a snapshot that its pages walk through. *)
Definition snapshot (selector : string) (token : option string) (w : SWorld) : list Stored :=
  match token with None => matching selector w | Some _ => sw_rest w end.

Definition page_of (n : nat) (l : list Stored) : Page := {|
  items := take n l; undecodable := [];
  continue_token := match drop n l with [] => None | _ => Some "continue" end |}.

Definition delete_outcome (w : SWorld) (name : string) (version : option string) : DeleteOutcome * SWorld :=
  match sw_objects w !! name with
  | None => (DeleteNotFound, w)
  | Some o => if match version with Some v => bool_decide (o.2 = v) | None => true end
              then (Deleted, remove w name) else (DeleteConflict, w)
  end.

Fixpoint whandle (w : SWorld) (e : keff) : kans e -> SWorld -> Prop :=
  match e with
  | KNow => fun a w' => (sw_clock w <= a <= until)%Z /\ w' = set_clock w a
  | KList selector n token => fun a w' =>
      (faulty /\ w' = w /\ exists m, a = Err m)
      \/ (a = Ok (page_of n (snapshot selector token w)) /\ w' = set_rest w (drop n (snapshot selector token w)))
  | KDelete name version => fun a w' =>
      (faulty /\ (w' = w \/ w' = (delete_outcome w name version).2) /\ exists m, a = Err m)
      \/ (a = Ok (delete_outcome w name version).1 /\ w' = (delete_outcome w name version).2)
  | KSweepGet => fun a w' => a = sw_state w /\ w' = w
  | KSweepSet s => fun _ w' => w' = set_state w (Some s)
  | KSweepAdvance hour => fun _ w' => w' = set_state w
      ((fun s => {| watermark_hour := Z.max (watermark_hour s) hour; last_full_ms := last_full_ms s |}) <$> sw_state w)
  | KTimeout _ e => fun o w' =>
      match o with
      | Some a => whandle w e a w'
      | None => faulty /\ (w' = w \/ exists a, whandle w e a w')
      end
  | _ => fun _ w' => w' = w
  end.

Notation swp := (wp whandle).

(** Calls under the deadline. *)
Lemma wp_list selector n token Q w :
  (forall m w', faulty -> w' = w \/ w' = set_rest w (drop n (snapshot selector token w)) -> Q (Err m) w') ->
  Q (Ok (page_of n (snapshot selector token w))) (set_rest w (drop n (snapshot selector token w))) ->
  swp (bounded_call target "list" (ask (KList selector n token))) Q w.
Proof.
  intros He Hok r w' Ho. simpl in Ho. destruct Ho as (o & w1 & Hh & Ho).
  destruct o as [a|]; simpl in Ho; destruct Ho as [-> ->].
  - destruct Hh as [(Hf & -> & m & ->)|[-> ->]]; [apply He; auto|done].
  - destruct Hh as [Hf [->|(a & [(_ & -> & _)|[_ ->]])]]; apply He; auto.
Qed.

Lemma wp_delete_call name version Q w :
  (forall m w', faulty -> w' = w \/ w' = (delete_outcome w name version).2 -> Q (Err m) w') ->
  Q (Ok (delete_outcome w name version).1) (delete_outcome w name version).2 ->
  swp (bounded_call target "delete" (ask (KDelete name version))) Q w.
Proof.
  intros He Hok r w' Ho. simpl in Ho. destruct Ho as (o & w1 & Hh & Ho).
  destruct o as [a|]; simpl in Ho; destruct Ho as [-> ->].
  - destruct Hh as [(Hf & Hw & m & ->)|[-> ->]]; [by apply He|done].
  - destruct Hh as [Hf [->|(a & [(_ & Hw & _)|[_ ->]])]]; apply He; auto.
Qed.

Lemma wp_clock Q w : (forall a, (sw_clock w <= a <= until)%Z -> Q a (set_clock w a)) -> swp (ask KNow) Q w.
Proof. intros HQ. apply wp_call. intros a w' [Ha ->]. by apply HQ. Qed.

(** ** What a pass keeps *)

(** Records go only when they are past the grace; the clock does not go back. *)
Record sweeping (w w' : SWorld) : Prop := {
  sweeping_objects : sw_objects w' ⊆ sw_objects w;
  sweeping_unsettled n o : sw_objects w !! n = Some o -> settled until (stored_of o) = false -> sw_objects w' !! n = Some o;
  sweeping_clock : (sw_clock w <= sw_clock w')%Z;
  sweeping_state : sw_state w' = sw_state w;
}.

#[local] Instance sweeping_preorder : PreOrder sweeping.
Proof.
  split; [by split|]. intros w1 w2 w3 [H1 U1 C1 S1] [H2 U2 C2 S2]. split; [by etrans|eauto|lia|congruence].
Qed.

(** The listed record is the one that is there, if any. *)
Definition listed_from (w : SWorld) (l : list Stored) : Prop :=
  forall s, s ∈ l -> forall o, sw_objects w !! st_name s = Some o -> s = stored_of o.

Lemma listed_sweeping w w' l : sweeping w w' -> listed_from w l -> listed_from w' l.
Proof. intros Hs Hl s Hin o Ho. apply Hl; [done|]. eapply lookup_weaken; [exact Ho|apply Hs]. Qed.

Lemma remove_sweeping w s o :
  sw_objects w !! st_name s = Some o -> s = stored_of o -> settled until s = true -> sweeping w (remove w (st_name s)).
Proof.
  intros Ho Hs Hset. split; simpl; [apply delete_subseteq| |done|done].
  intros n o' Hn Hu. destruct (decide (n = st_name s)) as [->|Hne]; [|by rewrite lookup_delete_ne].
  rewrite Ho in Hn. injection Hn as <-. rewrite <- Hs in Hu. congruence.
Qed.

(** The objects that were listed and past the grace are gone. *)
Definition gone (now : Z) (l : list Stored) (w : SWorld) : Prop :=
  forall s, s ∈ l -> settled now s = true -> sw_objects w !! st_name s = None.

Lemma gone_sweeping now l w w' : sweeping w w' -> gone now l w -> gone now l w'.
Proof.
  intros Hs Hg s Hin Hset. specialize (Hg s Hin Hset). destruct (sw_objects w' !! st_name s) as [o|] eqn:Ho; [|done].
  eapply lookup_weaken in Ho; [|apply Hs]. congruence.
Qed.

Lemma settled_later now now' s : (now <= now')%Z -> settled now s = true -> settled now' s = true.
Proof. unfold settled. intros ? ?. reflect. lia. Qed.

(** A pass over the records [l]: what holds when it stops, and what when it succeeds. *)
Definition pass {A} (lo : Z) (l : list Stored) (w : SWorld) (r : result A string) (w' : SWorld) : Prop :=
  sweeping w w' /\ (forall m, r = Err m -> faulty) /\ forall a, r = Ok a -> gone lo l w'.

Lemma pass_after {A} lo l w w1 (r : result A string) w' : sweeping w w1 -> pass lo l w1 r w' -> pass lo l w r w'.
Proof. intros Hs (Hw & He & Ha). split; [by etrans|done]. Qed.

Lemma pass_more {A} lo l l' w (r : result A string) w' :
  (forall s, s ∈ l' -> s ∈ l \/ (settled lo s = true -> sw_objects w !! st_name s = None)) ->
  pass lo l w r w' -> pass lo l' w r w'.
Proof.
  intros Hl (Hw & He & Ha). split_and!; [done|done|]. intros a Hok s Hin Hset.
  destruct (Hl s Hin) as [Hin'|Hnone]; [by eapply Ha|]. specialize (Hnone Hset).
  destruct (sw_objects w' !! st_name s) as [o|] eqn:Ho; [|done]. eapply lookup_weaken in Ho; [|apply Hw]. congruence.
Qed.

(** Deleting a listed record that is past the grace leaves nothing under its name. *)
Lemma delete_listed w s o w' :
  (forall o', sw_objects w !! st_name s = Some o' -> s = stored_of o') -> settled until s = true ->
  delete_outcome w (st_name s) (Some (resource_version s)) = (o, w') ->
  sweeping w w' /\ sw_rest w' = sw_rest w /\ sw_objects w' !! st_name s = None.
Proof.
  intros Hl Hset. unfold delete_outcome. destruct (sw_objects w !! st_name s) as [o'|] eqn:Ho; [|by intros [= _ <-]].
  pose proof (Hl o' eq_refl) as Hs. rewrite bool_decide_eq_true_2 by (by rewrite Hs). intros [= _ <-].
  split; [by eapply remove_sweeping|]. split; [done|]. simpl. by rewrite lookup_delete_eq.
Qed.

Lemma sweep_items_pass lo now objects report w :
  (lo <= now <= until)%Z -> listed_from w objects ->
  swp (sweep_items target now objects report)
    (fun r w' => pass lo objects w r w' /\ sw_rest w' = sw_rest w) w.
Proof.
  intros Hnow. revert report w. induction objects as [|s objects IH]; intros report w Hl; cbn [sweep_items].
  { apply wp_ret. split; [|done]. split_and!; [done|done|]. by intros a _ s ?%not_elem_of_nil. }
  assert (listed_from w objects) as Hl' by (intros s' Hs'; apply Hl; by right).
  destruct (settled now s) eqn:Hset.
  2: { eapply wp_mono; [by apply IH|]. intros r w' [Hp Hr]. split; [|done]. eapply pass_more; [|exact Hp].
       intros s' [->|Hin]%elem_of_cons; [right|by left]. intros Hs'. apply (settled_later _ now) in Hs'; [congruence|lia]. }
  destruct (delete_outcome w (st_name s) (Some (resource_version s))) as [o w1] eqn:Hd.
  destruct (delete_listed w s o w1) as (Hs1 & Hr1 & Hg1); [by apply Hl; left|by eapply settled_later; [|exact Hset]; lia|done|].
  apply wp_bind_ok, wp_delete_call; rewrite Hd; simpl.
  - intros m w' Hf Hw'. destruct Hw' as [->| ->]; (split; [|done]); split_and!; done.
  - eapply wp_mono; [by apply IH, (listed_sweeping w)|]. intros r w' [Hp Hr]. split; [|congruence].
    eapply pass_after; [done|]. eapply pass_more; [|exact Hp].
    intros s' [->|Hin]%elem_of_cons; [by right|by left].
Qed.

(** The pages of one selector. *)
Lemma sweep_pages_pass lo fuel selector token report w :
  (lo <= sw_clock w)%Z -> listed_from w (snapshot selector token w) ->
  (length (snapshot selector token w) < fuel * SWEEP_PAGE_SIZE)%nat ->
  swp (sweep_pages target fuel selector token report)
    (fun r w' => pass lo (snapshot selector token w) w r w' /\ r <> Ok None) w.
Proof.
  revert token report w. induction fuel as [|fuel IH]; intros token report w Hlo Hl Hfuel; [lia|].
  set (all := snapshot selector token w) in *. cbn [sweep_pages].
  assert (sweeping w (set_rest w (drop SWEEP_PAGE_SIZE all))) as Hs1 by (by split).
  apply wp_bind_ok, wp_list; fold all.
  { intros m w' Hf [->| ->]; (split; [|done]); split_and!; done. }
  apply wp_bind, wp_clock. intros now Hnow. simpl in Hnow.
  set (w1 := set_clock _ now). assert (sweeping w w1) as Hs2 by (split; [done|done|simpl; lia|done]).
  apply wp_bind_ok. simpl items.
  assert (listed_from w1 (take SWEEP_PAGE_SIZE all)) as Hl1.
  { apply (listed_sweeping w); [done|]. intros s Hs. apply Hl.
    rewrite <- (take_drop SWEEP_PAGE_SIZE all). apply elem_of_app. by left. }
  eapply wp_mono; [apply (sweep_items_pass lo now); [lia|done]|].
  intros r w2 [(Hs3 & He & Ha) Hrest]. destruct r as [rep|m]; [|split; [|done]; split_and!; [by etrans|by eauto|done]].
  specialize (Ha rep eq_refl). assert (sweeping w w2) as Hs4 by (by etrans). simpl in Hrest.
  simpl continue_token. destruct (drop SWEEP_PAGE_SIZE all) as [|s0 rest] eqn:Hdrop; simpl.
  - apply wp_ret. split; [|done]. split_and!; [done|done|]. intros a _.
    by rewrite <- (take_drop SWEEP_PAGE_SIZE all), Hdrop, app_nil_r.
  - assert (snapshot selector (Some "continue") w2 = s0 :: rest) as Hsnap by done.
    eapply wp_mono; [apply IH|].
    + pose proof (sweeping_clock _ _ Hs4). lia.
    + rewrite Hsnap. apply (listed_sweeping w); [done|]. intros s Hs. apply Hl.
      rewrite <- (take_drop SWEEP_PAGE_SIZE all), Hdrop. apply elem_of_app. by right.
    + rewrite Hsnap, <- Hdrop. pose proof (f_equal length Hdrop) as Hlen. rewrite length_drop in Hlen |- *.
      cbn [length] in Hlen. rewrite Nat.mul_succ_l in Hfuel. lia.
    + rewrite Hsnap. intros r w3 [Hp Hr]. split; [|done]. eapply pass_after; [done|]. eapply pass_more; [|exact Hp].
      intros s Hs. rewrite <- (take_drop SWEEP_PAGE_SIZE all), Hdrop in Hs. apply elem_of_app in Hs as [Hs|Hs]; [right|by left].
      by apply Ha.
Qed.

Lemma matching_spec selector w s :
  s ∈ matching selector w <->
  exists n o, sw_objects w !! n = Some o /\ selects selector (object_labels o) = true /\ s = stored_of o.
Proof.
  unfold matching. rewrite list_elem_of_fmap. setoid_rewrite list_elem_of_In. setoid_rewrite filter_In.
  setoid_rewrite <- list_elem_of_In. setoid_rewrite list_elem_of_fmap. split.
  - intros (o & -> & ([n o'] & -> & Hin) & Hsel). apply elem_of_map_to_list in Hin. eauto.
  - intros (n & o & Hn & Hsel & ->). exists o. split; [done|]. split; [|done]. exists (n, o).
    split; [done|]. by apply elem_of_map_to_list.
Qed.

Lemma matching_length selector w : (length (matching selector w) <= size (sw_objects w))%nat.
Proof.
  unfold matching. rewrite length_fmap. etrans; [apply List.filter_length_le|]. by rewrite length_fmap, length_map_to_list.
Qed.

(** Objects are named as their records say. *)
Definition named (w : SWorld) : Prop := forall n o, sw_objects w !! n = Some o -> nr_name o.1 = n.

Lemma named_sweeping w w' : sweeping w w' -> named w -> named w'.
Proof. intros Hs Hn n o Ho. apply Hn. eapply lookup_weaken; [exact Ho|apply Hs]. Qed.

Lemma matching_listed selector w : named w -> listed_from w (matching selector w).
Proof.
  intros Hn s (n & o & Ho & _ & ->)%matching_spec o' Ho'. simpl in Ho'. rewrite (Hn n o Ho) in Ho'. congruence.
Qed.

Lemma sweep_selector_pass lo fuel selector w :
  (lo <= sw_clock w)%Z -> named w -> (size (sw_objects w) < fuel * SWEEP_PAGE_SIZE)%nat ->
  swp (sweep_selector target fuel selector)
    (fun r w' => pass lo (matching selector w) w r w' /\ r <> Ok None) w.
Proof.
  intros Hlo Hn Hfuel. apply (sweep_pages_pass lo fuel selector None); [done|by apply matching_listed|].
  pose proof (matching_length selector w). simpl. lia.
Qed.

(** ** Ticks *)

(** The sweeper has no record to collect in an hour below its watermark. *)
Definition caught_up (w : SWorld) : Prop :=
  forall s n o, sw_state w = Some s -> sw_objects w !! n = Some o -> (watermark_hour s <= expiry_hour (nr_expires_ms o.1))%Z.

Lemma full_covers w n o : sw_objects w !! n = Some o -> stored_of o ∈ matching MANAGED_SELECTOR w.
Proof.
  intros Ho. apply matching_spec. exists n, o. split; [done|]. split; [|done].
  rewrite selects_managed. unfold object_labels. by rewrite (bool_decide_eq_true_2 _ (labels_managed _ _)).
Qed.

Lemma chunk_covers w n o c :
  sw_objects w !! n = Some o -> expiry_hour (nr_expires_ms o.1) ∈ c -> stored_of o ∈ matching (expiry_selector c) w.
Proof.
  intros Ho Hc. apply matching_spec. exists n, o. split; [done|]. split; [|done].
  rewrite selects_hours by (intros ->; by apply not_elem_of_nil in Hc).
  unfold object_labels. rewrite (bool_decide_eq_true_2 _ (labels_managed _ _)). simpl.
  apply existsb_exists. exists (expiry_hour (nr_expires_ms o.1)). split; [by apply list_elem_of_In|].
  apply bool_decide_eq_true. apply labels_hour.
Qed.

(** What is settled expires in an hour up to the settled one, and what expires before it is settled. *)
Lemma settled_hours now e :
  (0 <= e)%Z -> (0 <= now < u64_max)%Z ->
  (saturating_add e (millis SWEEP_GRACE) <= now -> expiry_hour e <= settled_hour now)%Z
  /\ (expiry_hour e < settled_hour now -> saturating_add e (millis SWEEP_GRACE) <= now)%Z.
Proof.
  intros He Hnow. unfold saturating_add, settled_hour, saturating_sub, expiry_hour, EXPIRY_BUCKET_MS.
  assert (millis SWEEP_GRACE = 30000)%Z as -> by done. split; intros Hx.
  - apply Z.div_le_mono; lia.
  - pose proof (Z.mul_succ_div_gt e 3600000). pose proof (Z.mul_div_le (Z.max (now - 30000) 0) 3600000). lia.
Qed.

(** Records that meet [P] and are past the grace at [lo] are collected. *)
Definition collected (lo : Z) (P : object -> Prop) (w w' : SWorld) : Prop :=
  forall n o, sw_objects w !! n = Some o -> P o -> settled lo (stored_of o) = true -> sw_objects w' !! n = None.

Lemma collected_trans lo P w w1 w2 :
  sweeping w w1 -> sweeping w1 w2 -> collected lo P w1 w2 -> collected lo P w w2.
Proof.
  intros Hs Hs' Hc n o Ho HP Hset. destruct (sw_objects w2 !! n) as [o2|] eqn:Ho2; [|done].
  eapply lookup_weaken in Ho2 as Ho1; [|apply Hs']. eapply lookup_weaken in Ho1 as Ho'; [|apply Hs].
  rewrite Ho in Ho'. injection Ho' as <-. by rewrite (Hc n o Ho1 HP Hset) in Ho2.
Qed.

Lemma collected_after lo P w w1 w2 : sweeping w1 w2 -> collected lo P w w1 -> collected lo P w w2.
Proof.
  intros Hs Hc n o Ho HP Hset. specialize (Hc n o Ho HP Hset). destruct (sw_objects w2 !! n) as [o2|] eqn:Ho2; [|done].
  eapply lookup_weaken in Ho2; [|apply Hs]. congruence.
Qed.

(** A pass over a selector, in these terms. *)
Lemma selector_collects lo fuel selector (P : object -> Prop) w :
  (lo <= sw_clock w)%Z -> named w -> (size (sw_objects w) < fuel * SWEEP_PAGE_SIZE)%nat ->
  (forall n o, sw_objects w !! n = Some o -> P o -> stored_of o ∈ matching selector w) ->
  swp (sweep_selector target fuel selector) (fun r w' =>
    sweeping w w' /\ (forall m, r = Err m -> faulty) /\ r <> Ok None /\ (forall a, r = Ok a -> collected lo P w w')) w.
Proof.
  intros Hlo Hn Hfuel HP. eapply wp_mono; [by apply (sweep_selector_pass lo)|].
  intros r w' [(Hs & He & Ha) Hr]. split_and!; [done..|]. intros a Hok n o Ho HPo Hset.
  pose proof (Ha a Hok (stored_of o) (HP n o Ho HPo) Hset) as Hg. simpl in Hg. by rewrite (Hn n o Ho) in Hg.
Qed.

Lemma fuel_later w w' fuel :
  sweeping w w' -> (size (sw_objects w) < fuel * SWEEP_PAGE_SIZE)%nat -> (size (sw_objects w') < fuel * SWEEP_PAGE_SIZE)%nat.
Proof. intros Hs. pose proof (map_subseteq_size _ _ (sweeping_objects _ _ Hs)). lia. Qed.

Lemma sweep_chunks_collects lo fuel cs report w :
  (lo <= sw_clock w)%Z -> named w -> (size (sw_objects w) < fuel * SWEEP_PAGE_SIZE)%nat ->
  swp (sweep_chunks target fuel cs report) (fun r w' =>
    sweeping w w' /\ (forall m, r = Err m -> faulty) /\ r <> Ok None
    /\ (forall a, r = Ok a -> collected lo (fun o => exists c, c ∈ cs /\ expiry_hour (nr_expires_ms o.1) ∈ c) w w')) w.
Proof.
  revert report w. induction cs as [|c cs IH]; intros report w Hlo Hn Hfuel; cbn [sweep_chunks].
  { apply wp_ret. split_and!; [done..|]. by intros a _ n o _ (c & ?%not_elem_of_nil & _). }
  apply wp_bind_ok. eapply wp_mono.
  { apply (selector_collects lo fuel _ (fun o => expiry_hour (nr_expires_ms o.1) ∈ c)); [done..|].
    intros n o Ho Hc. by eapply chunk_covers. }
  intros [[part|]|m] w1 (Hs & He & Hr & Ha); [|done|by split_and!; eauto].
  specialize (Ha _ eq_refl). pose proof (sweeping_clock _ _ Hs).
  eapply wp_mono; [apply IH; [lia|by eapply named_sweeping|by eapply fuel_later]|].
  intros r w2 (Hs2 & He2 & Hr2 & Ha2). split_and!; [by etrans|done|done|].
  intros a Hok n o Ho (c' & [->|Hc']%elem_of_cons & Hh) Hset.
  - by apply (collected_after _ _ _ _ _ Hs2 Ha n o Ho).
  - apply (collected_trans lo _ w w1 w2 Hs Hs2 (Ha2 a Hok) n o Ho); [|done]. eauto.
Qed.

(** The watermark is an hour that is past. *)
Definition behind (w : SWorld) : Prop :=
  forall s, sw_state w = Some s -> (watermark_hour s <= settled_hour (sw_clock w))%Z.

Lemma settled_hour_mono t t' : (t <= t')%Z -> (settled_hour t <= settled_hour t')%Z.
Proof. intros Ht. unfold settled_hour, expiry_hour, saturating_sub, EXPIRY_BUCKET_MS. apply Z.div_le_mono; lia. Qed.

Lemma behind_sweeping w w' : sweeping w w' -> behind w -> behind w'.
Proof.
  intros Hs Hb s Hst. rewrite (sweeping_state _ _ Hs) in Hst. specialize (Hb s Hst).
  pose proof (settled_hour_mono _ _ (sweeping_clock _ _ Hs)). lia.
Qed.

(** What a sweep or a tick does to the objects and the sweeper's state. *)
Record swept (w : SWorld) (r : result (option SweepReport) string) (w' : SWorld) : Prop := {
  swept_only_settled : sw_objects w' ⊆ sw_objects w /\
    forall n o, sw_objects w !! n = Some o -> settled until (stored_of o) = false -> sw_objects w' !! n = Some o;
  swept_caught_up : caught_up w';
  swept_behind : behind w -> behind w';
  swept_clock : (sw_clock w <= sw_clock w')%Z;
  swept_ends : r <> Ok None /\ forall m, r = Err m -> faulty;
  swept_all rep n o : r = Ok (Some rep) -> sw_objects w !! n = Some o ->
    settled (sw_clock w) (stored_of o) = true -> sw_objects w' !! n = None;
}.

Lemma caught_up_sweeping w w' : sweeping w w' -> caught_up w -> caught_up w'.
Proof.
  intros Hs Hc s n o Hst Ho. rewrite (sweeping_state _ _ Hs) in Hst. apply (Hc s n o Hst).
  eapply lookup_weaken; [exact Ho|apply Hs].
Qed.

(** Expiries and the clock are [u64]s. *)
Definition in_u64 (w : SWorld) : Prop :=
  (0 <= sw_clock w)%Z /\ (until < u64_max)%Z /\ forall n o, sw_objects w !! n = Some o -> (0 <= nr_expires_ms o.1)%Z.

Lemma full_sweep_swept fuel w :
  named w -> in_u64 w -> caught_up w -> (size (sw_objects w) < fuel * SWEEP_PAGE_SIZE)%nat ->
  swp (full_sweep target fuel) (swept w) w.
Proof.
  intros Hn (Hc0 & Hu & Hpos) Hcu Hfuel. apply wp_bind, wp_clock. intros started Hst.
  set (w1 := set_clock w started). assert (sweeping w w1) as Hs1 by (split; [done|done|simpl; lia|done]).
  apply wp_bind_ok. eapply wp_mono.
  { apply (selector_collects started fuel _ (fun _ => True)); [done..|]. intros n o Ho _. by eapply full_covers. }
  intros r w2 (Hs & He & Hr & Ha). assert (sweeping w w2) as Hs2 by (by etrans).
  destruct r as [[rep|]|m]; [|done|].
  2: { split; [split; apply Hs2|by eapply caught_up_sweeping|by apply behind_sweeping|apply Hs2|by split; [|intros m' [= <-]; apply (He m)]|done]. }
  specialize (Ha _ eq_refl). apply wp_bind, wp_call. intros u w3 ->. apply wp_ret. split; simpl.
  - split; apply Hs2.
  - intros s n o [= <-] Ho. simpl in *. apply Z.le_ngt. intros Hlt.
    eapply lookup_weaken in Ho as Ho1; [|apply Hs]. pose proof (Hpos n o Ho1) as Hp.
    apply (settled_hours started) in Hlt; [|done|lia].
    rewrite (Ha n o Ho1 I) in Ho; [done|]. by apply Z.leb_le.
  - intros _ s [= <-]. simpl. apply settled_hour_mono. pose proof (sweeping_clock _ _ Hs) as Hck. exact Hck.
  - apply Hs2.
  - done.
  - intros rep' n o _ Ho Hset. apply (Ha n o Ho I). eapply settled_later; [|exact Hset]. lia.
Qed.

Lemma sweep_tick_swept fuel w :
  named w -> in_u64 w -> caught_up w -> (size (sw_objects w) < fuel * SWEEP_PAGE_SIZE)%nat ->
  swp (sweep_tick target fuel) (swept w) w.
Proof.
  intros Hn Hu Hcu Hfuel. apply wp_bind, wp_clock. intros now Hnow.
  set (w1 := set_clock w now). assert (sweeping w w1) as Hs1 by (split; [done|done|simpl; lia|done]).
  apply wp_bind, wp_call. intros state w2 [-> ->]. case_match eqn:Hstate.
  2: { eapply wp_mono; [apply full_sweep_swept; [done| |by eapply caught_up_sweeping|done]|].
       - destruct Hu as (? & ? & ?). split_and!; [simpl; lia|done|done].
       - intros r w' [Ho Hc Hb Hck He Ha]. split; [exact Ho|done| |simpl in Hck; lia|done|].
         { intros Hbw. by apply Hb, (behind_sweeping w). } intros rep n o Hr Hno Hset.
         eapply Ha; [done|exact Hno|]. eapply settled_later; [|exact Hset]. simpl. lia. }
  apply bind_Some in Hstate as (s' & Hs' & Hstate). simpl in Hs'. case_match; [|done]. injection Hstate as ->.
  destruct Hu as (Hc0 & Hu & Hpos).
  set (cs := chunks HOURS_PER_LIST (hours_from (watermark_hour s) (settled_hour now))).
  assert (forall h, (watermark_hour s <= h <= settled_hour now)%Z -> exists c, c ∈ cs /\ h ∈ c) as Hcover.
  { intros h Hh. apply chunks_cover; [by vm_compute; lia|]. apply elem_of_seqZ. lia. }
  apply wp_bind_ok. eapply wp_mono; [by apply (sweep_chunks_collects now fuel cs)|].
  intros r w3 (Hs & He & Hr & Ha). assert (sweeping w w3) as Hs3 by (by etrans).
  destruct r as [[rep|]|m]; [|done|].
  2: { split; [split; apply Hs3|by eapply caught_up_sweeping|by apply behind_sweeping|apply Hs3|by split; [|intros m' [= <-]; apply (He m)]|done]. }
  specialize (Ha _ eq_refl). apply wp_bind, wp_call. intros u w4 ->. apply wp_ret. split; simpl.
  - split; apply Hs3.
  - intros s2 n o Hs2 Ho. simpl in *. rewrite (sweeping_state _ _ Hs3), Hs' in Hs2. injection Hs2 as <-. simpl.
    eapply lookup_weaken in Ho as Ho1; [|apply Hs]. pose proof (Hpos n o Ho1) as Hp. pose proof (Hcu s n o Hs' Ho1) as Hw.
    apply Z.le_ngt. intros Hlt. assert (expiry_hour (nr_expires_ms o.1) < settled_hour now)%Z as Hlt' by lia.
    destruct (Hcover (expiry_hour (nr_expires_ms o.1))) as (c & Hc & Hin); [lia|].
    apply (settled_hours now) in Hlt'; [|done|lia].
    rewrite (Ha n o Ho1) in Ho; [done|by eauto|by apply Z.leb_le].
  - intros Hb s2 Hs2. simpl in *. rewrite (sweeping_state _ _ Hs3), Hs' in Hs2. injection Hs2 as <-. simpl.
    pose proof (Hb s Hs'). pose proof (sweeping_clock _ _ Hs) as Hck. simpl in Hck.
    pose proof (settled_hour_mono _ _ Hck). pose proof (settled_hour_mono (sw_clock w) now). lia.
  - apply Hs3.
  - done.
  - intros rep' n o _ Ho Hset. pose proof (Hpos n o Ho) as Hp. pose proof (Hcu s n o Hs' Ho) as Hw.
    assert (settled now (stored_of o) = true) as Hset' by (eapply settled_later; [|exact Hset]; lia).
    apply (Ha n o Ho); [|done]. apply Hcover. split; [done|].
    apply Z.leb_le in Hset'. by apply (settled_hours now) in Hset'; [|done|lia].
Qed.

(** ** A sweeper at work *)

Context (fuel : nat).

(** Between two ticks others write and delete as they like; a record written since then expires no
    earlier than the last time this replica has seen. *)
Record interlude (w w' : SWorld) : Prop := {
  interlude_state : sw_state w' = sw_state w;
  interlude_clock : (sw_clock w <= sw_clock w')%Z;
  interlude_named : named w';
  interlude_expiries n o : sw_objects w' !! n = Some o ->
    sw_objects w !! n = Some o \/ (sw_clock w <= nr_expires_ms o.1)%Z;
  interlude_size : (size (sw_objects w') < fuel * SWEEP_PAGE_SIZE)%nat;
}.

Inductive sweeper_step (w w' : SWorld) : Prop :=
  | step_tick r : outcome whandle (sweep_tick target fuel) w r w' -> sweeper_step w w'
  | step_interlude : interlude w w' -> sweeper_step w w'.

Record ready (w : SWorld) : Prop := {
  ready_named : named w;
  ready_u64 : in_u64 w;
  ready_caught_up : caught_up w;
  ready_behind : behind w;
  ready_size : (size (sw_objects w) < fuel * SWEEP_PAGE_SIZE)%nat;
}.

Lemma hour_mono t t' : (t <= t')%Z -> (expiry_hour t <= expiry_hour t')%Z.
Proof. intros Ht. unfold expiry_hour, EXPIRY_BUCKET_MS. apply Z.div_le_mono; lia. Qed.

Lemma settled_hour_le t : (0 <= t)%Z -> (settled_hour t <= expiry_hour t)%Z.
Proof. intros Ht. apply hour_mono. unfold saturating_sub. assert (0 <= millis SWEEP_GRACE)%Z by (by vm_compute). lia. Qed.

Lemma ready_step w w' : ready w -> sweeper_step w w' -> ready w'.
Proof.
  intros [Hn Hu Hc Hb Hf] [r Ho|[Hst Hck Hn' He Hf']].
  - destruct (sweep_tick_swept fuel w Hn Hu Hc Hf r w' Ho) as [[Hsub _] Hc' Hb' Hck _ _].
    destruct Hu as (H0 & Hu & Hpos). split; [|split_and!; [lia|done|]|done|auto|].
    + intros n o Hno. apply Hn. by eapply lookup_weaken.
    + intros n o Hno. eapply Hpos. by eapply lookup_weaken.
    + pose proof (map_subseteq_size _ _ Hsub). lia.
  - destruct Hu as (H0 & Hu & Hpos). split; [done|split_and!; [lia|done|]| | |done].
    + intros n o [Hno|Hno]%He; [by eapply Hpos|lia].
    + intros s n o Hs Hno. rewrite Hst in Hs. apply He in Hno as [Hno|Hno]; [by eapply Hc|].
      pose proof (Hb s Hs). pose proof (settled_hour_le (sw_clock w) H0). pose proof (hour_mono _ _ Hno). lia.
    + intros s Hs. rewrite Hst in Hs. pose proof (Hb s Hs). pose proof (settled_hour_mono _ _ Hck). lia.
Qed.

(** C22: the sweeper keeps up. From a replica's start on, whatever its ticks met: let other clients
    delete what they like between them and write records that are labelled and expire no earlier
    than the time the replica has last seen, as the store's own clients do whose clocks are not
    behind. Then each tick on a server that it has to itself ends, deletes only records that are
    past their expiry by the grace, and, unless a call failed, deletes every one that was past it
    when the tick began, although it looks only at the hours from its watermark on. A tick that
    fails loses nothing: a later one collects what it left. Records outside the condition, without
    the label or written by a clock that is behind, are left to the daily full pass. (A listing is
    followed for [fuel] pages, more than the records ever fill; no clock reads past [until].) *)
Theorem sweeper_keeps_up w0 w r w' :
  named w0 -> in_u64 w0 -> sw_state w0 = None -> (size (sw_objects w0) < fuel * SWEEP_PAGE_SIZE)%nat ->
  rtc sweeper_step w0 w -> outcome whandle (sweep_tick target fuel) w r w' ->
  (forall n o, sw_objects w !! n = Some o -> settled until (stored_of o) = false -> sw_objects w' !! n = Some o)
  /\ sw_objects w' ⊆ sw_objects w
  /\ ((exists rep, r = Ok (Some rep) /\ forall n o, sw_objects w !! n = Some o ->
         settled (sw_clock w) (stored_of o) = true -> sw_objects w' !! n = None)
      \/ faulty /\ exists m, r = Err m).
Proof.
  intros Hn Hu Hs Hf Hsteps Ho.
  assert (ready w0) as Hr0 by (split; [done..|intros s n o Hs'; congruence|intros s Hs'; congruence|done]).
  assert (ready w) as [Hn1 Hu1 Hc1 Hb1 Hf1].
  { clear Ho Hn Hu Hs Hf. induction Hsteps; [done|]. eauto using ready_step. }
  destruct (sweep_tick_swept fuel w Hn1 Hu1 Hc1 Hf1 r w' Ho) as [[Hsub Hkeep] _ _ _ [Hnone Herr] Hall].
  split_and!; [done..|]. destruct r as [[rep|]|m]; [left|done|right; by eauto].
  exists rep. split; [done|]. intros n o. by apply (Hall rep).
Qed.
End Sweep.

(** ** A run *)

(** A full pass, a quiet two hours, and a tick over the hours since. *)
Module SweepRun.
Import PlainKube.

Definition until : Z := 20000000.

Fixpoint reply_to (w : SWorld) (e : keff) : option (kans e * SWorld) :=
  match e with
  | KNow => if (sw_clock w <=? until)%Z then Some (sw_clock w, w) else None
  | KList selector n token =>
      Some (Ok (page_of n (snapshot selector token w)), set_rest w (drop n (snapshot selector token w)))
  | KDelete name version => Some (Ok (delete_outcome w name version).1, (delete_outcome w name version).2)
  | KSweepGet => Some (sw_state w, w)
  | KSweepSet s => Some (tt, set_state w (Some s))
  | KSweepAdvance hour => Some (tt, set_state w
      ((fun s => {| watermark_hour := Z.max (watermark_hour s) hour; last_full_ms := last_full_ms s |}) <$> sw_state w))
  | KTimeout _ e => '(a, w') ← reply_to w e; Some (Some a, w')
  | _ => None
  end.

Lemma sweep_reply_handled w e a w' : reply_to w e = Some (a, w') -> whandle until False w e a w'.
Proof.
  revert a w'. induction e; intros a w' Ha; simplify_eq/=; [|by right..|done|done|done|].
  - destruct (Z.leb_spec (sw_clock w) until); simplify_eq. split; [lia|]. by destruct w'.
  - apply bind_Some in Ha as ([b w1] & Hb & Ha). simplify_eq/=. by apply IHe.
Qed.

Definition record (name : string) (expires : Z) : NewRecord :=
  {| nr_name := name; nr_key := "replay:x"; nr_value := [x01]; nr_expires_ms := expires |}.

Definition first : SWorld := {|
  sw_objects := <["b" := (record "b" 9000000, "v2")]> {["a" := (record "a" 1000, "v1")]};
  sw_rest := []; sw_clock := 8000000; sw_state := None |}.

Definition ticked (w : SWorld) : SWorld :=
  match run reply_to (sweep_tick "t" 1) w with Some (_, w') => w' | None => w end.

Definition second : SWorld := set_clock (ticked first) 16000000.
Definition third : SWorld := ticked second.
Definition report : SweepReport := {| listed := 1; deleted := 1; skipped := 0 |}.

Lemma ticked_outcome w r w' :
  run reply_to (sweep_tick "t" 1) w = Some (r, w') -> outcome (whandle until False) (sweep_tick "t" 1) w r w'.
Proof. apply run_outcome. intros w1 e b w2. apply sweep_reply_handled. Qed.

Lemma first_objects n o :
  sw_objects first !! n = Some o -> n = "b" /\ o = (record "b" 9000000, "v2") \/ n = "a" /\ o = (record "a" 1000, "v1").
Proof. unfold first. cbn [sw_objects]. rewrite lookup_insert_Some, lookup_singleton_Some. naive_solver. Qed.

Lemma sweeper_keeps_up_witness :
  is_Some (sw_objects second !! "b") /\ sw_objects third !! "b" = None.
Proof.
  split; [vm_compute; by eexists|].
  destruct (sweeper_keeps_up "t" until False 1 first second (Ok (Some report)) third) as (_ & _ & [(rep & _ & Hall)|[[] _]]).
  - intros n o [[-> ->]|[-> ->]]%first_objects; reflexivity.
  - split_and!; [vm_compute; congruence|vm_compute; reflexivity|].
    intros n o [[-> ->]|[-> ->]]%first_objects; vm_compute; congruence.
  - reflexivity.
  - vm_compute. lia.
  - eapply rtc_l; [|eapply rtc_l; [|apply rtc_refl]].
    + apply (step_tick _ _ _ _ _ (ticked first)
        (Ok (Some {| listed := 2; deleted := 1; skipped := 0 |}))), ticked_outcome. vm_compute. reflexivity.
    + apply step_interlude. split.
      * reflexivity.
      * vm_compute. congruence.
      * intros n o Ho. replace (sw_objects second) with ({["b" := (record "b" 9000000, "v2")]} : gmap string object) in Ho
          by (vm_compute; reflexivity). by apply lookup_singleton_Some in Ho as [<- <-].
      * intros n o Ho. by left.
      * vm_compute. lia.
  - apply ticked_outcome. vm_compute. reflexivity.
  - apply (Hall "b" (record "b" 9000000, "v2")); vm_compute; reflexivity.
Defined.
End SweepRun.
