(* ===== verification/Config.v ===== *)
(** * Config: configuration documents and their compilation

    Models crates/oauthrelay-core/src/config.rs and jwks.rs: the resource documents, as serde reads
    them, and [compile_resources], which turns them into a [ProviderSnapshot]. Secrets are resolved
    by calls ([secret_call]) that the providers answer. The text of an error is its chain of
    contexts, joined as anyhow's alternate format joins them. [states_upstream] and [states_relay]
    say field by field what a document's entry must be, without the code that builds it. *)

From S2P Require Import Prelude Text Json Url Model Resolver Prog.
From S2P Require IdTokenPolicy.
#[local] Open Scope string_scope.

(** ** Documents *)

Definition API_VERSION : string := "oauthrelay.dev/v1alpha1".

(** jwks.rs *)
Inductive EcCurve := P256 | P384.
Inductive OkpCurve := Ed25519.

Record JwkCommon := {
  kid : option string;
  alg : option string;
  public_key_use : option string;
  key_ops : option (list string);
  x5u : option string;
  x5c : option (list string);
  x5t : option string;
  x5t_s256 : option string;
}.

Inductive PublicJwk :=
  | RSA (n e : string) (common : JwkCommon)
  | EC (crv : EcCurve) (x y : string) (common : JwkCommon)
  | OKP (crv : OkpCurve) (x : string) (common : JwkCommon).

Record PublicJwkSet := { keys : list PublicJwk }.

(** The document types of config.rs, whose variants have the names of the model's. *)
Module Spec.

Inductive SecretSource :=
  | Env (name : string)
  | File (path : string)
  | AwsSsmParameter (name : string)
  | SecretKeyRef (name key : string)
  | AwsSecretsManager (secret_id : string) (json_key : option string).

#[global] Instance secret_source_eq_dec : EqDecision SecretSource.
Proof. solve_decision. Defined.

Inductive SecretValue :=
  | Value (value : string)
  | ValueFrom (source : SecretSource).

Inductive ApiVersion := V1Alpha1.

Record Metadata := { namespace : option string; name : string }.

Record UpstreamEndpoints := {
  authorization : option string;
  token : option string;
  jwks : option string;
}.

Inductive TokenEndpointAuthMethodSpec := ClientSecretPost | ClientSecretBasic.

Record OAuthClient := {
  client_id : string;
  client_secret : SecretValue;
  token_endpoint_auth_method : TokenEndpointAuthMethodSpec;
}.

Record UpstreamResourceSpec := {
  issuer_url : string;
  endpoints : UpstreamEndpoints;
  oauth_client : OAuthClient;
}.

Inductive RefreshTokenModeSpec := Passthrough | Sealed | Rotating.

Record RefreshTokensSpec := {
  mode : RefreshTokenModeSpec;
  grace_period_seconds : option Z;
  max_lifetime_seconds : option Z;
}.

Record ScopePolicy := { default : list string; allowed : option (list string) }.

Inductive RedirectPolicyEntry :=
  | Uri (uri : string)
  | Origin (origin : string)
  | Loopback (loopback : string)
  | LoopbackOrigin (loopback_origin : string).

Inductive ClientAuthentication :=
  | UpstreamClient
  | Public
  | ClientSecret (client_id : string) (client_secret : SecretValue)
  | PrivateKeyJwt (require_single_use : bool) (client_id : string) (issuer subject audience : option string)
      (jwks : option PublicJwkSet) (jwks_url : option string).

Record RelayResourceSpec := {
  upstream_ref : string;                       (* [ResourceReference::name] *)
  scopes : ScopePolicy;
  required_id_token_claims : gmap string string;
  id_token_policy : option IdTokenPolicy.IdTokenPolicy;
  refresh_tokens : RefreshTokensSpec;
  client_authentication : ClientAuthentication;
  redirect_policy : list RedirectPolicyEntry;
}.

Record UpstreamResource := { up_api_version : ApiVersion; up_metadata : Metadata; up_spec : UpstreamResourceSpec }.
Record RelayResource := { rl_api_version : ApiVersion; rl_metadata : Metadata; rl_spec : RelayResourceSpec }.

Inductive ResourceDocument :=
  | Upstream (resource : UpstreamResource)
  | Relay (resource : RelayResource).

Definition kind (d : ResourceDocument) : string :=
  match d with Upstream _ => "Upstream" | Relay _ => "Relay" end.

Definition document_name (d : ResourceDocument) : string :=
  match d with Upstream r => name (up_metadata r) | Relay r => name (rl_metadata r) end.

Definition value (s : SecretValue) : option string := match s with Value v => Some v | ValueFrom _ => None end.
Definition value_from (s : SecretValue) : option SecretSource :=
  match s with Value _ => None | ValueFrom s => Some s end.

Definition auth_method (s : TokenEndpointAuthMethodSpec) : TokenEndpointAuthMethod :=
  match s with ClientSecretPost => Model.ClientSecretPost | ClientSecretBasic => Model.ClientSecretBasic end.

Definition refresh_tokens_spec_default : RefreshTokensSpec :=
  {| mode := Passthrough; grace_period_seconds := None; max_lifetime_seconds := None |}.
End Spec.

(** [serde_json::to_value] of a key set: the tag and the fields of its variant, absent metadata
    left out. *)
Definition optional_member {A} (name : string) (f : A -> Value) (o : option A) : list (string * Value) :=
  match o with Some a => [(name, f a)] | None => [] end.

Definition strings (l : list string) : Value := Array (Str <$> l).

Definition common_members (c : JwkCommon) : list (string * Value) :=
  (optional_member "kid" Str (kid c) ++ optional_member "alg" Str (alg c)
   ++ optional_member "use" Str (public_key_use c) ++ optional_member "key_ops" strings (key_ops c)
   ++ optional_member "x5u" Str (x5u c) ++ optional_member "x5c" strings (x5c c)
   ++ optional_member "x5t" Str (x5t c) ++ optional_member "x5t#S256" Str (x5t_s256 c))%list.

Definition ec_curve_name (c : EcCurve) : string := match c with P256 => "P-256" | P384 => "P-384" end.

Definition jwk_value (k : PublicJwk) : Value :=
  match k with
  | RSA n e common => Object ([("kty", Str "RSA"); ("n", Str n); ("e", Str e)] ++ common_members common)
  | EC crv x y common =>
      Object ([("kty", Str "EC"); ("crv", Str (ec_curve_name crv)); ("x", Str x); ("y", Str y)] ++ common_members common)
  | OKP Ed25519 x common =>
      Object ([("kty", Str "OKP"); ("crv", Str "Ed25519"); ("x", Str x)] ++ common_members common)
  end.

Definition jwk_set_value (s : PublicJwkSet) : Value := Object [("keys", Array (jwk_value <$> keys s))].

(** ** Effects *)

(** The methods of [SecretResolver]. *)
Inductive secret_call := ResolveValue (value : string) | ResolveSource (source : Spec.SecretSource).

Definition secret_answer (_ : secret_call) : Type := result string string.

Notation secret_prog := (prog secret_call secret_answer).

#[local] Open Scope prog_scope.

(** The secrets that were resolved from a source. *)
Notation secret_cache := (list (Spec.SecretSource * string)).

Fixpoint cached (source : Spec.SecretSource) (cache : secret_cache) : option string :=
  match cache with
  | [] => None
  | (s, v) :: cache => if bool_decide (s = source) then Some v else cached source cache
  end.

Definition resolve_secret (secret : Spec.SecretValue) (cache : secret_cache)
    : secret_prog (result (string * secret_cache) string) :=
  match secret with
  | Spec.Value v => value <-! call (ResolveValue v) ;; Ret (Ok (value, cache))
  | Spec.ValueFrom source =>
      match cached source cache with
      | Some value => Ret (Ok (value, cache))
      | None => value <-! call (ResolveSource source) ;; Ret (Ok (value, (source, value) :: cache))
      end
  end.

(** ** Compilation *)

Section Compile.
Context {U : UrlLib}.

Definition compile_refresh_tokens (spec : Spec.RefreshTokensSpec) : result RefreshTokens string :=
  let mode := match Spec.mode spec with
              | Spec.Passthrough => Passthrough | Spec.Sealed => Sealed | Spec.Rotating => Rotating
              end in
  if bool_decide (mode <> Rotating)
     && (bool_decide (is_Some (Spec.grace_period_seconds spec))
         || bool_decide (is_Some (Spec.max_lifetime_seconds spec)))
  then Err "gracePeriodSeconds and maxLifetimeSeconds apply only to mode: rotating"
  else
    let compiled := {|
      mode := mode;
      grace_period_seconds := default (grace_period_seconds refresh_tokens_default) (Spec.grace_period_seconds spec);
      max_lifetime_seconds := default (max_lifetime_seconds refresh_tokens_default) (Spec.max_lifetime_seconds spec)
    |} in
    match validate_refresh_tokens compiled with Ok _ => Ok compiled | Err e => Err e end.

Definition resource_key (kind value : string) : result ResourceKey string :=
  if contains "/" value then Err (kind +:+ "/" +:+ value +:+ ": metadata.name must be one path segment")
  else map_err (fun error => kind +:+ "/" +:+ value +:+ ": metadata.name " +:+ error) (ResourceKey_new value).

Definition parse_url (field value : string) : result url string :=
  match context field (url_parse value) with
  | Ok u => if absolute_http u then Ok u else Err (field +:+ ": must be an absolute http(s) URL")
  | Err e => Err e
  end.

Definition parse_optional_url (field : string) (value : option string) : result (option url) string :=
  match value with
  | Some value => match parse_url field value with Ok u => Ok (Some u) | Err e => Err e end
  | None => Ok None
  end.

(** The documents by kind, unless two share their kind and name. *)
Fixpoint split_documents (identities : gset (string * string)) (documents : list Spec.ResourceDocument)
    : result (list Spec.UpstreamResource * list Spec.RelayResource) string :=
  match documents with
  | [] => Ok ([], [])
  | d :: documents =>
      let identity := (Spec.kind d, Spec.document_name d) in
      if bool_decide (identity ∈ identities) then Err ("duplicate " +:+ identity.1 +:+ "/" +:+ identity.2)
      else
        match split_documents ({[identity]} ∪ identities) documents with
        | Err e => Err e
        | Ok (ups, rels) =>
            Ok (match d with Spec.Upstream r => (r :: ups, rels) | Spec.Relay r => (ups, r :: rels) end)
        end
  end.

(** The upstream of a document whose secret is resolved. *)
Definition upstream_of (key : ResourceKey) (spec : Spec.UpstreamResourceSpec) (secret : string)
    : result Upstream string := (
  issuer <-? parse_url "spec.issuerUrl" (Spec.issuer_url spec) ;;
  authorization <-? parse_optional_url "spec.endpoints.authorization" (Spec.authorization (Spec.endpoints spec)) ;;
  token <-? parse_optional_url "spec.endpoints.token" (Spec.token (Spec.endpoints spec)) ;;
  jwks <-? parse_optional_url "spec.endpoints.jwks" (Spec.jwks (Spec.endpoints spec)) ;;
  let upstream := {|
    up_key := key; issuer_url := issuer; authorization_endpoint := authorization; token_endpoint := token;
    jwks_uri := jwks; up_client_id := Spec.client_id (Spec.oauth_client spec); up_client_secret := secret;
    token_endpoint_auth_method := Spec.auth_method (Spec.token_endpoint_auth_method (Spec.oauth_client spec)) |} in
  _ <-? context ("Upstream/" +:+ key_str key) (validate_upstream upstream) ;;
  Ok upstream)%relay.

Definition compile_upstream (r : Spec.UpstreamResource) (cache : secret_cache)
    : secret_prog (result (ResourceKey * Upstream * secret_cache) string) :=
  key <-? resource_key "Upstream" (Spec.name (Spec.up_metadata r)) ;;
  secret <- resolve_secret (Spec.client_secret (Spec.oauth_client (Spec.up_spec r))) cache ;;
  secret <-? context ("Upstream/" +:+ key_str key +:+ " spec.oauthClient.clientSecret") secret ;;
  upstream <-? upstream_of key (Spec.up_spec r) secret.1 ;;
  Ret (Ok (key, upstream, secret.2)).

Definition client_jwks (key : ResourceKey) (issuer : option string) (jwks : option PublicJwkSet)
    (jwks_url : option string) : result (option ClientJwks) string :=
  match jwks, jwks_url with
  | None, Some value =>
      match context "spec.clientAuthentication.jwksUrl" (url_parse value) with
      | Ok u => Ok (Some (JwksUrl u))
      | Err e => Err e
      end
  | Some jwks, None => Ok (Some (JwksInline (jwk_set_value jwks)))
  | None, None =>
      if bool_decide (is_Some issuer) then Ok None
      else Err ("Relay/" +:+ key_str key +:+ ": PrivateKeyJwt requires exactly one of jwks and jwksUrl, or issuer discovery with neither")
  | Some _, Some _ =>
      Err ("Relay/" +:+ key_str key +:+ ": PrivateKeyJwt requires exactly one of jwks and jwksUrl, or issuer discovery with neither")
  end.

Definition compile_client_auth (key : ResourceKey) (a : Spec.ClientAuthentication) (cache : secret_cache)
    : secret_prog (result (ClientAuth * secret_cache) string) :=
  match a with
  | Spec.UpstreamClient => Ret (Ok (UpstreamClient, cache))
  | Spec.Public => Ret (Ok (Public, cache))
  | Spec.ClientSecret client_id client_secret =>
      secret <- resolve_secret client_secret cache ;;
      secret <-? context ("Relay/" +:+ key_str key +:+ " spec.clientAuthentication.clientSecret") secret ;;
      Ret (Ok (ClientSecret client_id secret.1, secret.2))
  | Spec.PrivateKeyJwt single client_id issuer subject audience jwks jwks_url =>
      jwks <-? client_jwks key issuer jwks jwks_url ;;
      Ret (Ok (PrivateKeyJwt single client_id issuer subject audience jwks, cache))
  end.

Definition compile_matcher (policy : Spec.RedirectPolicyEntry) : result RedirectMatcher string :=
  match policy with
  | Spec.Uri uri => matcher_uri uri
  | Spec.Origin origin =>
      match url_parse origin with
      | Ok u => if bool_decide (scheme u = "http") then matcher_http_origin origin else matcher_origin origin
      | Err _ => matcher_origin origin
      end
  | Spec.Loopback loopback => matcher_loopback loopback
  | Spec.LoopbackOrigin origin => matcher_loopback_origin origin
  end.

(** The entries from [index] on, each with its index in the error. *)
Fixpoint compile_redirects (key : ResourceKey) (index : nat) (l : list Spec.RedirectPolicyEntry)
    : result (list RedirectMatcher) string :=
  match l with
  | [] => Ok []
  | policy :: l => (
      matcher <-? context ("Relay/" +:+ key_str key +:+ " spec.redirectPolicy[" +:+ pretty.pretty index +:+ "]")
        (compile_matcher policy) ;;
      matchers <-? compile_redirects key (S index) l ;;
      Ok (matcher :: matchers))%relay
  end.

(** The relay of a document whose client authentication is compiled. *)
Definition relay_of (key upstream : ResourceKey) (spec : Spec.RelayResourceSpec) (auth : ClientAuth)
    : result Relay string := (
  redirect_policy <-? compile_redirects key 0 (Spec.redirect_policy spec) ;;
  refresh_tokens <-? context ("Relay/" +:+ key_str key +:+ " spec.refreshTokens")
    (compile_refresh_tokens (Spec.refresh_tokens spec)) ;;
  let relay := {|
    relay_key := key; relay_upstream := upstream; generation := None; client_auth := auth;
    scopes := Spec.default (Spec.scopes spec); allowed_scopes := Spec.allowed (Spec.scopes spec);
    required_id_token_claims := Spec.required_id_token_claims spec;
    id_token_policy := Spec.id_token_policy spec; refresh_tokens := refresh_tokens;
    redirect_policy := redirect_policy |} in
  _ <-? context ("Relay/" +:+ key_str key) (Model.validate relay) ;;
  Ok relay)%relay.

Definition compile_relay (r : Spec.RelayResource) (cache : secret_cache)
    : secret_prog (result (ResourceKey * Relay * secret_cache) string) :=
  key <-? resource_key "Relay" (Spec.name (Spec.rl_metadata r)) ;;
  upstream <-? resource_key "Upstream" (Spec.upstream_ref (Spec.rl_spec r)) ;;
  auth <-! compile_client_auth key (Spec.client_authentication (Spec.rl_spec r)) cache ;;
  relay <-? relay_of key upstream (Spec.rl_spec r) auth.1 ;;
  Ret (Ok (key, relay, auth.2)).

(** The two loops; each inserts what it compiles. *)
Fixpoint compile_each {R V} (compile : R -> secret_cache -> secret_prog (result (ResourceKey * V * secret_cache) string))
    (l : list R) (compiled : gmap ResourceKey V) (cache : secret_cache)
    : secret_prog (result (gmap ResourceKey V * secret_cache) string) :=
  match l with
  | [] => Ret (Ok (compiled, cache))
  | r :: l =>
      entry <-! compile r cache ;;
      compile_each compile l (<[entry.1.1 := entry.1.2]> compiled) entry.2
  end.

Definition compile_resources (documents : list Spec.ResourceDocument)
    : secret_prog (result ProviderSnapshot string) :=
  split <-? split_documents ∅ documents ;;
  ups <-! compile_each compile_upstream split.1 ∅ [] ;;
  rels <-! compile_each compile_relay split.2 ∅ ups.2 ;;
  let snapshot := {| upstreams := ups.1; relays := rels.1 |} in
  _ <-? validate_snapshot snapshot ;;
  Ret (Ok snapshot).
End Compile.

(** ** Runs of the compilation *)

#[local] Open Scope list_scope.

Notation secret_log := (call_log secret_answer).

(** The sources that were asked for, in order. *)
Definition sources (l : secret_log) : list Spec.SecretSource :=
  omap (fun c => match projT1 c with ResolveSource s => Some s | ResolveValue _ => None end) l.

Lemma sources_app l l' : sources (l ++ l') = (sources l ++ sources l')%list.
Proof. apply omap_app. Qed.

(** A secret is what the resolver answered for it. *)
Definition answered (l : secret_log) (s : Spec.SecretValue) (secret : string) : Prop :=
  match s with
  | Spec.Value v => logged (ResolveValue v) (Ok secret : secret_answer (ResolveValue v)) ∈ l
  | Spec.ValueFrom source => logged (ResolveSource source) (Ok secret : secret_answer (ResolveSource source)) ∈ l
  end.

Lemma answered_app l l' s secret : answered l s secret -> answered (l ++ l') s secret.
Proof. destruct s; simpl; intros Ha; apply elem_of_app; by left. Qed.

(** The cache holds the answers to all sources that were asked for. *)
Record tracks (l : secret_log) (cache : secret_cache) : Prop := {
  tracks_answers s v : cached s cache = Some v -> answered l (Spec.ValueFrom s) v;
  tracks_sources s : s ∈ sources l -> is_Some (cached s cache);
  tracks_once : NoDup (sources l);
}.

Lemma tracks_nil : tracks [] [].
Proof. split; [done|by intros s ?%not_elem_of_nil|constructor]. Qed.

Lemma resolve_secret_runs pre s cache l r :
  tracks pre cache -> runs (resolve_secret s cache) l r ->
  NoDup (sources (pre ++ l)) /\ forall v c, r = Ok (v, c) -> tracks (pre ++ l) c /\ answered (pre ++ l) s v.
Proof.
  intros Ht. destruct s as [value|source]; simpl.
  - intros (a & l' & -> & Hr). assert (l' = []) as -> by (destruct a; apply Hr).
    assert (sources (pre ++ [logged (ResolveValue value) a]) = sources pre) as Hs
      by (rewrite sources_app; apply app_nil_r).
    rewrite Hs. split; [apply Ht|]. intros v c ->. destruct a as [a|]; destruct Hr as [_ Hr]; [|done].
    injection Hr as -> ->. split; [|apply elem_of_app; right; by left].
    split; rewrite ?Hs; [intros s v' Hc; by apply answered_app, Ht|apply Ht..].
  - destruct (cached source cache) as [value|] eqn:Hc.
    + intros [-> ->]. rewrite app_nil_r. split; [apply Ht|]. intros v c [= -> ->]. split; [done|by apply Ht].
    + intros (a & l' & -> & Hr). assert (l' = []) as -> by (destruct a; apply Hr).
      assert (NoDup (sources (pre ++ [logged (ResolveSource source) a]))) as Hnd.
      { rewrite sources_app. apply NoDup_app. split; [apply Ht|]. split; [|apply NoDup_singleton].
        intros s Hs ->%list_elem_of_singleton. destruct (tracks_sources _ _ Ht source Hs). congruence. }
      split; [done|]. intros v c ->. destruct a as [a|]; destruct Hr as [_ Hr]; [|done]. injection Hr as -> ->.
      assert (answered (pre ++ [logged (ResolveSource source) (Ok a)]) (Spec.ValueFrom source) a) as Ha
        by (apply elem_of_app; right; by left).
      split; [|done]. split; [| |done].
      * simpl. intros s v. case_bool_decide as Hs; [by intros [= <-]; subst|]. intros Hv.
        by apply (answered_app pre _ (Spec.ValueFrom s)), Ht.
      * simpl. intros s Hs. case_bool_decide; [done|]. rewrite sources_app in Hs.
        apply elem_of_app in Hs as [Hs| ->%list_elem_of_singleton]; [by apply Ht|done].
Qed.

(** ** What a document states

    The entry of a document, field by field and independently of the code that compiles it. *)

(** A key's JSON has its parameters, each under its registered name, and no other members. *)
Record states_common (c : JwkCommon) (v : Value) : Prop := {
  states_kid : get v "kid" = Str <$> kid c;
  states_alg : get v "alg" = Str <$> alg c;
  states_use : get v "use" = Str <$> public_key_use c;
  states_key_ops : get v "key_ops" = (fun l => Array (Str <$> l)) <$> key_ops c;
  states_x5u : get v "x5u" = Str <$> x5u c;
  states_x5c : get v "x5c" = (fun l => Array (Str <$> l)) <$> x5c c;
  states_x5t : get v "x5t" = Str <$> x5t c;
  states_x5t_s256 : get v "x5t#S256" = Str <$> x5t_s256 c;
}.

Definition common_names : list string := ["kid"; "alg"; "use"; "key_ops"; "x5u"; "x5c"; "x5t"; "x5t#S256"].

Definition only_members (names : list string) (v : Value) : Prop :=
  forall name, is_Some (get v name) -> name ∈ names.

Definition states_jwk (k : PublicJwk) (v : Value) : Prop :=
  match k with
  | RSA n e c =>
      get v "kty" = Some (Str "RSA") /\ get v "n" = Some (Str n) /\ get v "e" = Some (Str e)
      /\ states_common c v /\ only_members (["kty"; "n"; "e"] ++ common_names) v
  | EC crv x y c =>
      get v "kty" = Some (Str "EC")
      /\ get v "crv" = Some (Str match crv with P256 => "P-256" | P384 => "P-384" end)
      /\ get v "x" = Some (Str x) /\ get v "y" = Some (Str y)
      /\ states_common c v /\ only_members (["kty"; "crv"; "x"; "y"] ++ common_names) v
  | OKP Ed25519 x c =>
      get v "kty" = Some (Str "OKP") /\ get v "crv" = Some (Str "Ed25519") /\ get v "x" = Some (Str x)
      /\ states_common c v /\ only_members (["kty"; "crv"; "x"] ++ common_names) v
  end.

Definition states_jwks (s : PublicJwkSet) (v : Value) : Prop :=
  exists l, v = Object [("keys", Array l)] /\ Forall2 states_jwk (keys s) l.

Section States.
Context {U : UrlLib}.

(** The optional URL [u] is what the optional field [o] parses to. *)
Definition states_url (o : option string) (u : option url) : Prop :=
  match o, u with
  | Some text, Some u => url_parse text = Ok u
  | None, None => True
  | _, _ => False
  end.

Record states_upstream (l : secret_log) (r : Spec.UpstreamResource) (u : Upstream) : Prop := {
  states_up_key : up_key u = ResourceKey_of (Spec.name (Spec.up_metadata r));
  states_issuer : url_parse (Spec.issuer_url (Spec.up_spec r)) = Ok (issuer_url u);
  states_authorization : states_url (Spec.authorization (Spec.endpoints (Spec.up_spec r))) (authorization_endpoint u);
  states_token : states_url (Spec.token (Spec.endpoints (Spec.up_spec r))) (token_endpoint u);
  states_up_jwks : states_url (Spec.jwks (Spec.endpoints (Spec.up_spec r))) (jwks_uri u);
  states_up_client : up_client_id u = Spec.client_id (Spec.oauth_client (Spec.up_spec r));
  states_up_secret : answered l (Spec.client_secret (Spec.oauth_client (Spec.up_spec r))) (up_client_secret u);
  states_up_method :
    token_endpoint_auth_method u =
    match Spec.token_endpoint_auth_method (Spec.oauth_client (Spec.up_spec r)) with
    | Spec.ClientSecretPost => ClientSecretPost
    | Spec.ClientSecretBasic => ClientSecretBasic
    end;
}.

(** The keys of assertions: inline, at a URL, or left to the discovery of the issuer. *)
Definition states_client_jwks (issuer : option string) (jwks : option PublicJwkSet) (jwks_url : option string)
    (j : option ClientJwks) : Prop :=
  match j with
  | Some (JwksInline v) => exists set, jwks = Some set /\ jwks_url = None /\ states_jwks set v
  | Some (JwksUrl u) => exists text, jwks = None /\ jwks_url = Some text /\ url_parse text = Ok u
  | None => jwks = None /\ jwks_url = None /\ is_Some issuer
  end.

Definition states_auth (l : secret_log) (a : Spec.ClientAuthentication) (auth : ClientAuth) : Prop :=
  match a with
  | Spec.UpstreamClient => auth = UpstreamClient
  | Spec.Public => auth = Public
  | Spec.ClientSecret client_id s => exists secret, auth = ClientSecret client_id secret /\ answered l s secret
  | Spec.PrivateKeyJwt single client_id issuer subject audience jwks jwks_url => exists j,
      auth = PrivateKeyJwt single client_id issuer subject audience j /\ states_client_jwks issuer jwks jwks_url j
  end.

(** An origin may be plain http, spelled as a browser spells it. *)
Definition states_matcher (e : Spec.RedirectPolicyEntry) (m : RedirectMatcher) : Prop :=
  match e with
  | Spec.Uri text => m = MUri text
  | Spec.Loopback text => m = MLoopback text
  | Spec.Origin text => exists o, m = MOrigin o /\ url_parse text = Ok (origin_url o)
      /\ (scheme (origin_url o) = "https"
          \/ scheme (origin_url o) = "http" /\ bare_authority text = true /\ canonical_authority text (origin_url o) = true)
  | Spec.LoopbackOrigin text => exists o, m = MLoopbackOrigin o /\ url_parse text = Ok (origin_url o)
  end.

(** The periods of a rotation may be left out; no other mode may state them. *)
Record states_refresh (spec : Spec.RefreshTokensSpec) (r : RefreshTokens) : Prop := {
  states_mode :
    mode r = match Spec.mode spec with
             | Spec.Passthrough => Passthrough
             | Spec.Sealed => Sealed
             | Spec.Rotating => Rotating
             end;
  states_grace : grace_period_seconds r = default 30%Z (Spec.grace_period_seconds spec);
  states_lifetime : max_lifetime_seconds r = default 2592000%Z (Spec.max_lifetime_seconds spec);
  states_periods : Spec.mode spec = Spec.Rotating
    \/ Spec.grace_period_seconds spec = None /\ Spec.max_lifetime_seconds spec = None;
}.

Record states_relay (l : secret_log) (r : Spec.RelayResource) (relay : Relay) : Prop := {
  states_relay_key : relay_key relay = ResourceKey_of (Spec.name (Spec.rl_metadata r));
  states_relay_upstream : relay_upstream relay = ResourceKey_of (Spec.upstream_ref (Spec.rl_spec r));
  states_generation : generation relay = None;
  states_scopes : scopes relay = Spec.default (Spec.scopes (Spec.rl_spec r));
  states_allowed : allowed_scopes relay = Spec.allowed (Spec.scopes (Spec.rl_spec r));
  states_claims : required_id_token_claims relay = Spec.required_id_token_claims (Spec.rl_spec r);
  states_policy : id_token_policy relay = Spec.id_token_policy (Spec.rl_spec r);
  states_refresh_tokens : states_refresh (Spec.refresh_tokens (Spec.rl_spec r)) (refresh_tokens relay);
  states_client : states_auth l (Spec.client_authentication (Spec.rl_spec r)) (client_auth relay);
  states_redirects : Forall2 states_matcher (Spec.redirect_policy (Spec.rl_spec r)) (redirect_policy relay);
  states_valid : ValidRelay relay;
}.
End States.

Section Compiled.
Context {U : UrlLib}.

(** What a document compiles to, given the answers of the resolver. *)
Definition compiled_upstream (l : secret_log) (r : Spec.UpstreamResource) (u : Upstream) : Prop :=
  exists key secret, resource_key "Upstream" (Spec.name (Spec.up_metadata r)) = Ok key
    /\ answered l (Spec.client_secret (Spec.oauth_client (Spec.up_spec r))) secret
    /\ upstream_of key (Spec.up_spec r) secret = Ok u.

Definition compiled_auth (l : secret_log) (key : ResourceKey) (a : Spec.ClientAuthentication) (auth : ClientAuth) : Prop :=
  match a with
  | Spec.UpstreamClient => auth = UpstreamClient
  | Spec.Public => auth = Public
  | Spec.ClientSecret client_id s => exists secret, answered l s secret /\ auth = ClientSecret client_id secret
  | Spec.PrivateKeyJwt single client_id issuer subject audience jwks jwks_url =>
      exists j, client_jwks key issuer jwks jwks_url = Ok j
        /\ auth = PrivateKeyJwt single client_id issuer subject audience j
  end.

Definition compiled_relay (l : secret_log) (r : Spec.RelayResource) (relay : Relay) : Prop :=
  exists key up auth, resource_key "Relay" (Spec.name (Spec.rl_metadata r)) = Ok key
    /\ resource_key "Upstream" (Spec.upstream_ref (Spec.rl_spec r)) = Ok up
    /\ compiled_auth l key (Spec.client_authentication (Spec.rl_spec r)) auth
    /\ relay_of key up (Spec.rl_spec r) auth = Ok relay.

Lemma compiled_upstream_app l l' r u : compiled_upstream l r u -> compiled_upstream (l ++ l') r u.
Proof. intros (key & secret & Hk & Ha & Hu). exists key, secret. eauto using answered_app. Qed.

Lemma compiled_relay_app l l' r u : compiled_relay l r u -> compiled_relay (l ++ l') r u.
Proof.
  intros (key & up & auth & Hk & Hup & Ha & Hr). exists key, up, auth. split_and!; try done.
  destruct (Spec.client_authentication (Spec.rl_spec r)); simpl in *; [done..| |done].
  destruct Ha as (secret & Ha & Heq). eauto using answered_app.
Qed.

Lemma resource_key_Ok kind value key : resource_key kind value = Ok key -> key = ResourceKey_of value.
Proof.
  unfold resource_key, ResourceKey_new. destruct (contains _ _); [done|].
  destruct (_ || _); simpl; [done|]. by intros [= <-].
Qed.

Lemma NoDup_fmap_inv {A B} (f : A -> B) l x y : NoDup (f <$> l) -> x ∈ l -> y ∈ l -> f x = f y -> x = y.
Proof.
  induction l as [|z l IH]; simpl; [by intros _ ?%not_elem_of_nil|].
  inversion_clear 1 as [|? ? Hz Hnd]. intros [->|Hx]%elem_of_cons [->|Hy]%elem_of_cons Hf; [done|..|by apply IH].
  - destruct Hz. rewrite Hf. by apply list_elem_of_fmap_2.
  - destruct Hz. rewrite <- Hf. by apply list_elem_of_fmap_2.
Qed.

(** A program that extends the log and the cache. *)
Definition keeps_track {A} (p : secret_cache -> secret_prog (result A string)) (out : A -> secret_cache)
    (P : secret_log -> A -> Prop) : Prop :=
  forall pre cache l r, tracks pre cache -> runs (p cache) l r ->
    NoDup (sources (pre ++ l)) /\ forall a, r = Ok a -> tracks (pre ++ l) (out a) /\ P (pre ++ l) a.

(** A program that returns here, with the cache it was given. *)
Ltac returned Ht Hr := destruct Hr as [-> ->]; rewrite app_nil_r; split; [apply Ht|]; intros ? [= <-]; (split; [done|]).

(** A program that ends in an error here. *)
Ltac stopped Ht Hr := destruct Hr as [-> ->]; rewrite app_nil_r; split; [apply Ht|done].

Lemma resolve_secret_keeps s : keeps_track (resolve_secret s) snd (fun l a => answered l s a.1).
Proof.
  intros pre cache l r Ht Hr. destruct (resolve_secret_runs pre s cache l r Ht Hr) as [Hnd Ha].
  split; [done|]. intros [v c] Heq. by apply Ha.
Qed.

Lemma compile_upstream_keeps r :
  keeps_track (compile_upstream r) snd
    (fun l a => a.1.1 = ResourceKey_of (Spec.name (Spec.up_metadata r)) /\ compiled_upstream l r a.1.2).
Proof.
  intros pre cache l res Ht Hr. unfold compile_upstream in Hr.
  destruct (resource_key "Upstream" _) as [key|e] eqn:Hk; [|stopped Ht Hr].
  apply runs_bind in Hr as (a & l1 & l2 & -> & H1 & H2).
  destruct (resolve_secret_keeps _ pre cache l1 a Ht H1) as [Hnd Ha].
  destruct a as [[secret c]|e]; simpl in H2; [|destruct H2 as [-> ->]; by rewrite app_nil_r].
  destruct (Ha _ eq_refl) as [Ht' Has]. simpl in Ht', Has.
  destruct (upstream_of _ _ _) as [u|e] eqn:Hu; destruct H2 as [-> ->]; rewrite app_nil_r; [|by split].
  split; [done|]. intros a [= <-]. split; [done|]. split; [by eapply resource_key_Ok|]. by exists key, secret.
Qed.

Lemma compile_auth_keeps key a :
  keeps_track (compile_client_auth key a) snd (fun l x => compiled_auth l key a x.1).
Proof.
  intros pre cache l res Ht Hr. destruct a as [| |client_id s|single client_id issuer subject audience jwks jwks_url]; simpl in Hr.
  - by returned Ht Hr.
  - by returned Ht Hr.
  - apply runs_bind in Hr as (a & l1 & l2 & -> & H1 & H2).
    destruct (resolve_secret_keeps _ pre cache l1 a Ht H1) as [Hnd Ha].
    destruct a as [[secret c]|e]; simpl in H2; destruct H2 as [-> ->]; rewrite app_nil_r; [|by split].
    destruct (Ha _ eq_refl) as [Ht' Has]. split; [done|]. intros a [= <-]. split; [done|]. simpl. eauto.
  - destruct (client_jwks _ _ _ _) as [j|e] eqn:Hj; [|stopped Ht Hr].
    returned Ht Hr. simpl. eauto.
Qed.

Lemma compile_relay_keeps r :
  keeps_track (compile_relay r) snd
    (fun l a => a.1.1 = ResourceKey_of (Spec.name (Spec.rl_metadata r)) /\ compiled_relay l r a.1.2).
Proof.
  intros pre cache l res Ht Hr. unfold compile_relay in Hr.
  destruct (resource_key "Relay" _) as [key|e] eqn:Hk; [|stopped Ht Hr].
  destruct (resource_key "Upstream" _) as [up|e] eqn:Hup; [|stopped Ht Hr].
  apply runs_bind_ok in Hr as (a & l1 & l2 & -> & H1 & H2).
  destruct (compile_auth_keeps _ _ pre cache l1 a Ht H1) as [Hnd Ha].
  destruct a as [[auth c]|e]; [|destruct H2 as [-> ->]; by rewrite app_nil_r].
  destruct (Ha _ eq_refl) as [Ht' Has]. simpl in Ht', Has, H2.
  destruct (relay_of _ _ _ _) as [relay|e] eqn:Hrel; destruct H2 as [-> ->]; rewrite app_nil_r; [|by split].
  split; [done|]. intros a [= <-]. split; [done|]. split; [by eapply resource_key_Ok|]. by exists key, up, auth.
Qed.

(** A loop compiles each of its documents, under its name. *)
Lemma compile_each_keeps {R V} (compile : R -> secret_cache -> secret_prog (result (ResourceKey * V * secret_cache) string))
    (name : R -> string) (compiled : secret_log -> R -> V -> Prop) l m :
  (forall r, keeps_track (compile r) snd (fun lg a => a.1.1 = ResourceKey_of (name r) /\ compiled lg r a.1.2)) ->
  (forall lg lg' r v, compiled lg r v -> compiled (lg ++ lg') r v) ->
  NoDup (name <$> l) ->
  keeps_track (compile_each compile l m) snd (fun lg a =>
    forall k, match a.1 !! k with
    | Some v => (exists r, r ∈ l /\ k = ResourceKey_of (name r) /\ compiled lg r v)
                \/ m !! k = Some v /\ forall r, r ∈ l -> k <> ResourceKey_of (name r)
    | None => m !! k = None /\ forall r, r ∈ l -> k <> ResourceKey_of (name r)
    end).
Proof.
  intros Hc Hmono. revert m. induction l as [|r l IH]; intros m Hnd pre cache lg res Ht Hr; cbn [compile_each] in Hr.
  { returned Ht Hr. intros k. simpl.
    destruct (m !! k); [right|]; (split; [done|by intros ? ?%not_elem_of_nil]). }
  inversion_clear Hnd as [|? ? Hnew Hnd'].
  apply runs_bind_ok in Hr as (a & l1 & l2 & -> & H1 & H2).
  destruct (Hc r pre cache l1 a Ht H1) as [Hs Ha].
  destruct a as [[[key v] c]|e]; [|destruct H2 as [-> ->]; by rewrite app_nil_r].
  destruct (Ha _ eq_refl) as [Ht' [Hk Hv]]. simpl in Ht', Hk, Hv, H2. subst key.
  destruct (IH (<[ResourceKey_of (name r) := v]> m) Hnd' (pre ++ l1) c l2 res Ht' H2) as [Hs2 Ha2].
  rewrite <- app_assoc in Hs2, Ha2. split; [done|]. intros [m' c'] ->. destruct (Ha2 _ eq_refl) as [Ht2 Hm]. split; [done|].
  intros k. specialize (Hm k). simpl in *. destruct (decide (k = ResourceKey_of (name r))) as [->|Hne].
  - rewrite lookup_insert_eq in Hm. destruct (m' !! _) as [v'|]; [|by destruct Hm].
    destruct Hm as [(r' & Hr' & Heq & _)|[[= <-] _]].
    + injection Heq as Heq. destruct Hnew. rewrite Heq. by apply list_elem_of_fmap_2.
    + left. exists r. split; [by left|]. split; [done|]. rewrite app_assoc. by apply Hmono.
  - rewrite lookup_insert_ne in Hm by done. destruct (m' !! k) as [v'|].
    + destruct Hm as [(r' & Hr' & Heq & Hc')|[Hm Hl]]; [left; exists r'; split; [by right|done]|right].
      split; [done|]. intros r' [->|Hr']%elem_of_cons; [done|by apply Hl].
    + destruct Hm as [Hm Hl]. split; [done|]. intros r' [->|Hr']%elem_of_cons; [done|by apply Hl].
Qed.

Definition identity_of (d : Spec.ResourceDocument) : string * string := (Spec.kind d, Spec.document_name d).

Lemma split_documents_Ok ids docs ups rels :
  split_documents ids docs = Ok (ups, rels) ->
  NoDup (identity_of <$> docs) /\ (forall d, d ∈ docs -> identity_of d ∉ ids)
  /\ (forall r, Spec.Upstream r ∈ docs <-> r ∈ ups) /\ (forall r, Spec.Relay r ∈ docs <-> r ∈ rels).
Proof.
  revert ids ups rels. induction docs as [|d docs IH]; intros ids ups rels; simpl.
  { intros [= <- <-]. split_and!; [constructor|by intros d ?%not_elem_of_nil|..];
      intros r; by rewrite !elem_of_nil. }
  case_bool_decide as Hnew; [done|]. destruct (split_documents _ docs) as [[us rs]|] eqn:Hs; [|done].
  destruct (IH _ _ _ Hs) as (Hnd & Hids & Hu & Hr). intros Heq.
  split_and!.
  - constructor; [|done]. intros (d' & Hd' & Hin)%list_elem_of_fmap. apply (Hids d' Hin). rewrite <- Hd'. set_solver.
  - intros d' [->|Hin]%elem_of_cons; [done|]. intros Hd'. apply (Hids d' Hin). set_solver.
  - intros r. destruct d as [r'|r']; injection Heq as <- <-; rewrite !elem_of_cons, Hu; naive_solver.
  - intros r. destruct d as [r'|r']; injection Heq as <- <-; rewrite !elem_of_cons, Hr; naive_solver.
Qed.

Lemma split_documents_names ids docs ups rels :
  split_documents ids docs = Ok (ups, rels) ->
  NoDup ((fun r => Spec.name (Spec.up_metadata r)) <$> ups) /\ NoDup ((fun r => Spec.name (Spec.rl_metadata r)) <$> rels).
Proof.
  revert ids ups rels. induction docs as [|d docs IH]; intros ids ups rels; simpl.
  { intros [= <- <-]. split; constructor. }
  case_bool_decide as Hnew; [done|]. destruct (split_documents _ docs) as [[us rs]|] eqn:Hs; [|done].
  destruct (IH _ _ _ Hs) as (Hnu & Hnr). destruct (split_documents_Ok _ _ _ _ Hs) as (_ & Hids & Hu & Hr).
  destruct d as [r|r]; intros [= <- <-]; simpl.
  - split; [|done]. constructor; [|done]. intros (r' & Hr' & Hin)%list_elem_of_fmap.
    apply Hu in Hin. apply (Hids _ Hin). unfold identity_of. simpl. rewrite <- Hr'. set_solver.
  - split; [done|]. constructor; [|done]. intros (r' & Hr' & Hin)%list_elem_of_fmap.
    apply Hr in Hin. apply (Hids _ Hin). unfold identity_of. simpl. rewrite <- Hr'. set_solver.
Qed.

(** The references of the documents. *)
Inductive refers (docs : list Spec.ResourceDocument) (source : Spec.SecretSource) : Prop :=
  | refers_upstream r : Spec.Upstream r ∈ docs ->
      Spec.client_secret (Spec.oauth_client (Spec.up_spec r)) = Spec.ValueFrom source -> refers docs source
  | refers_relay r client_id : Spec.Relay r ∈ docs ->
      Spec.client_authentication (Spec.rl_spec r) = Spec.ClientSecret client_id (Spec.ValueFrom source) ->
      refers docs source.

Definition referred (docs : list Spec.ResourceDocument) (c : secret_call) : Prop :=
  match c with ResolveSource s => refers docs s | ResolveValue _ => True end.

Lemma every_resolve_secret P s cache :
  (forall v, P (ResolveValue v)) -> (forall source, s = Spec.ValueFrom source -> P (ResolveSource source)) ->
  every P (resolve_secret s cache).
Proof.
  intros Hv Hs. destruct s as [v|source]; simpl; [|destruct (cached source cache)]; [|done|];
    (split; [by auto|]); intros []; done.
Qed.

Lemma every_compile_each {R V} (compile : R -> secret_cache -> secret_prog (result (ResourceKey * V * secret_cache) string)) P l m cache :
  (forall r cache, r ∈ l -> every P (compile r cache)) -> every P (compile_each compile l m cache).
Proof.
  revert m cache. induction l as [|r l IH]; intros m cache Hc; simpl; [done|].
  apply every_bind_ok; [by apply Hc; left|]. intros [[k v] c]. apply IH. intros r' c' Hr'. apply Hc. by right.
Qed.

Lemma every_compile_resources docs : every (referred docs) (compile_resources docs).
Proof.
  unfold compile_resources. destruct (split_documents ∅ docs) as [[ups rels]|] eqn:Hs; [|done].
  destruct (split_documents_Ok _ _ _ _ Hs) as (_ & _ & Hu & Hr).
  apply every_bind_ok; [|intros [us c]; apply every_bind_ok; [|intros [rs c']]].
  - apply every_compile_each. intros r cache Hin%Hu. unfold compile_upstream. case_match; [|done].
    apply every_bind; [apply every_resolve_secret; [done|]|].
    + intros source Heq. by eapply refers_upstream.
    + intros [[secret c]|]; simpl; [|done]. by case_match.
  - apply every_compile_each. intros r cache Hin%Hr. unfold compile_relay. do 2 (case_match; [|done]).
    apply every_bind_ok; [|intros [auth c0]; by case_match].
    destruct (Spec.client_authentication (Spec.rl_spec r)) as [| |client_id s|] eqn:Ha; simpl; [done..| |by case_match].
    apply every_bind; [apply every_resolve_secret; [done|]|intros [[secret c1]|]; done].
    intros source ->. by eapply refers_relay.
  - by case_match.
Qed.

(** The whole compilation. *)
Lemma compile_resources_runs docs l r :
  runs (compile_resources docs) l r ->
  NoDup (sources l) /\ forall s, r = Ok s ->
    validate_snapshot s = Ok tt /\ exists ups rels, split_documents ∅ docs = Ok (ups, rels)
    /\ (forall k, match upstreams s !! k with
         | Some u => exists r, r ∈ ups /\ k = ResourceKey_of (Spec.name (Spec.up_metadata r)) /\ compiled_upstream l r u
         | None => forall r, r ∈ ups -> k <> ResourceKey_of (Spec.name (Spec.up_metadata r)) end)
    /\ (forall k, match relays s !! k with
         | Some u => exists r, r ∈ rels /\ k = ResourceKey_of (Spec.name (Spec.rl_metadata r)) /\ compiled_relay l r u
         | None => forall r, r ∈ rels -> k <> ResourceKey_of (Spec.name (Spec.rl_metadata r)) end).
Proof.
  unfold compile_resources. destruct (split_documents ∅ docs) as [[ups rels]|e] eqn:Hs.
  2: { intros [-> ->]. split; [constructor|done]. }
  destruct (split_documents_names _ _ _ _ Hs) as [Hnu Hnr]. cbn [fst snd].
  intros (a & l1 & l2 & -> & H1 & H2)%runs_bind_ok.
  destruct (compile_each_keeps compile_upstream _ compiled_upstream ups ∅ compile_upstream_keeps
    compiled_upstream_app Hnu [] [] l1 a tracks_nil H1) as [Hd1 Ha]. simpl in Hd1, Ha.
  destruct a as [[us c]|e]; [|destruct H2 as [-> ->]; rewrite app_nil_r; by split].
  destruct (Ha _ eq_refl) as [Ht1 Hus]. cbn [fst snd] in Ht1, Hus, H2.
  apply runs_bind_ok in H2 as (b & l3 & l4 & -> & H3 & H4).
  destruct (compile_each_keeps compile_relay _ compiled_relay rels ∅ compile_relay_keeps
    compiled_relay_app Hnr l1 c l3 b Ht1 H3) as [Hd2 Hb].
  destruct b as [[rs c']|e]; [|destruct H4 as [-> ->]; rewrite app_nil_r; by split].
  destruct (Hb _ eq_refl) as [_ Hrs]. cbn [fst snd] in Hrs, H4.
  destruct (validate_snapshot _) as [[]|e] eqn:Hval; destruct H4 as [-> ->]; rewrite app_nil_r; [|by split].
  split; [done|]. intros s [= <-]. split; [done|]. exists ups, rels. split; [done|]. simpl. split; intros k.
  - specialize (Hus k). destruct (us !! k) as [u|]; [|apply Hus].
    destruct Hus as [(r0 & Hr & Hk & Hc)|[He _]]; [|by rewrite lookup_empty in He].
    exists r0. split_and!; [done..|by apply compiled_upstream_app].
  - specialize (Hrs k). destruct (rs !! k) as [u|]; [|apply Hrs].
    destruct Hrs as [?|[He _]]; [done|by rewrite lookup_empty in He].
Qed.

(** *** Entries are what their documents state *)

Lemma member_app name (l l' : list (string * Value)) :
  member name (l ++ l') = match member name l with Some v => Some v | None => member name l' end.
Proof. induction l as [|[n v] l IH]; simpl; [done|]. by case_bool_decide. Qed.

Lemma member_optional {A} name n (f : A -> Value) o :
  member name (optional_member n f o) = if bool_decide (n = name) then f <$> o else None.
Proof. destruct o; simpl; by case_bool_decide. Qed.

Lemma member_named name (l : list (string * Value)) : is_Some (member name l) -> name ∈ l.*1.
Proof. induction l as [|[n v] l IH]; simpl; [by intros []|]. case_bool_decide; set_solver. Qed.

Lemma common_members_states (l : list (string * Value)) c :
  (forall name, name ∈ common_names -> member name l = None) -> states_common c (Object (l ++ common_members c)).
Proof.
  intros Hl. unfold common_names in Hl. split; cbn [get as_object mbind option_bind];
    rewrite member_app, Hl by set_solver; unfold common_members;
    rewrite !member_app, !member_optional; simpl; by repeat case_match.
Qed.

Lemma optional_named {A} n (f : A -> Value) o : (optional_member n f o).*1 ⊆ [n].
Proof. destruct o; set_solver. Qed.

Lemma common_members_only (l : list (string * Value)) c :
  only_members (l.*1 ++ common_names) (Object (l ++ common_members c)).
Proof.
  intros name Hn%member_named. rewrite fmap_app in Hn. apply elem_of_app in Hn as [Hn|Hn]; apply elem_of_app; [by left|right].
  unfold common_members in Hn. rewrite !fmap_app, !elem_of_app in Hn. unfold common_names.
  destruct Hn as [Hn|[Hn|[Hn|[Hn|[Hn|[Hn|[Hn|Hn]]]]]]]; apply optional_named in Hn; set_solver.
Qed.

Lemma jwk_value_states k : states_jwk k (jwk_value k).
Proof.
  destruct k as [n e c|crv x y c|[] x c]; cbn [states_jwk jwk_value]; split_and!;
    lazymatch goal with
    | |- states_common _ _ => apply common_members_states; intros name Hn;
        repeat (apply elem_of_cons in Hn as [->|Hn]; [done|]); by apply not_elem_of_nil in Hn
    | |- only_members _ (Object (?l ++ _)) => exact (common_members_only l c)
    | |- _ => reflexivity
    end.
Qed.

Lemma jwks_value_states s : states_jwks s (jwk_set_value s).
Proof.
  eexists. split; [done|]. induction (keys s); simpl; constructor; [apply jwk_value_states|done].
Qed.

Lemma parse_url_ok field text u : parse_url field text = Ok u -> url_parse text = Ok u.
Proof. unfold parse_url, context, map_err. destruct (url_parse text); simpl; [|done]. by case_match; intros [= <-]. Qed.

Lemma parse_optional_url_ok field o u : parse_optional_url field o = Ok u -> states_url o u.
Proof.
  unfold parse_optional_url. destruct o as [text|]; [|by intros [= <-]].
  destruct (parse_url field text) eqn:Hp; [|done]. intros [= <-]. by eapply parse_url_ok.
Qed.

Lemma upstream_of_states l r u : compiled_upstream l r u -> states_upstream l r u.
Proof.
  intros (key & secret & Hk%resource_key_Ok & Ha & Hu). subst key.
  unfold upstream_of in Hu. rewrite res_bind_ok in Hu. destruct Hu as (issuer & Hi%parse_url_ok & Hu).
  rewrite res_bind_ok in Hu. destruct Hu as (auth & Hau%parse_optional_url_ok & Hu).
  rewrite res_bind_ok in Hu. destruct Hu as (token & Ht%parse_optional_url_ok & Hu).
  rewrite res_bind_ok in Hu. destruct Hu as (jwks & Hj%parse_optional_url_ok & Hu).
  rewrite res_bind_ok in Hu. destruct Hu as (_ & _ & [= <-]). by split.
Qed.

Lemma client_jwks_states key issuer jwks jwks_url j :
  client_jwks key issuer jwks jwks_url = Ok j -> states_client_jwks issuer jwks jwks_url j.
Proof.
  unfold client_jwks. destruct jwks as [set|], jwks_url as [text|]; [done| | |].
  - intros [= <-]. exists set. split_and!; [done..|apply jwks_value_states].
  - unfold context, map_err. destruct (url_parse text) eqn:Hp; simpl; [|done]. intros [= <-]. simpl. eauto.
  - case_bool_decide; [|done]. by intros [= <-].
Qed.

Lemma compiled_auth_states l key a auth : compiled_auth l key a auth -> states_auth l a auth.
Proof.
  destruct a; simpl; [done..|naive_solver|].
  intros (j & Hj%client_jwks_states & ->). eauto.
Qed.

Lemma Origin_parse_ok text o : Origin_parse text = Ok o -> url_parse text = Ok (origin_url o).
Proof.
  unfold Origin_parse. rewrite res_bind_ok. intros (u & Hu & Ho). rewrite !ensure_ok in Ho.
  destruct Ho as (_ & _ & _ & [= <-]). done.
Qed.

Lemma matcher_origin_states text m : matcher_origin text = Ok m -> states_matcher (Spec.Origin text) m.
Proof.
  unfold matcher_origin. rewrite res_bind_ok. intros (o & Ho%Origin_parse_ok & Hm).
  rewrite ensure_ok, bool_decide_eq_true in Hm. destruct Hm as [Hs [= <-]]. simpl. eauto.
Qed.

Lemma matcher_http_origin_states text m : matcher_http_origin text = Ok m -> states_matcher (Spec.Origin text) m.
Proof.
  unfold matcher_http_origin. rewrite res_bind_ok. intros (_ & _ & Hm). rewrite res_bind_ok in Hm.
  destruct Hm as (o & Ho%Origin_parse_ok & Hm). rewrite !ensure_ok, bool_decide_eq_true, andb_true_iff in Hm.
  destruct Hm as (Hs & [Hb Hc] & [= <-]). simpl. eauto 7.
Qed.

Lemma compile_matcher_states e m : compile_matcher e = Ok m -> states_matcher e m.
Proof.
  destruct e as [text|text|text|text]; cbn [compile_matcher].
  - unfold matcher_uri. rewrite res_bind_ok. by intros (_ & _ & [= <-]).
  - destruct (url_parse text); [case_bool_decide|]; eauto using matcher_origin_states, matcher_http_origin_states.
  - unfold matcher_loopback. rewrite res_bind_ok. by intros (_ & _ & [= <-]).
  - unfold matcher_loopback_origin. rewrite res_bind_ok. intros (_ & _ & Hm). rewrite ensure_ok, res_bind_ok in Hm.
    destruct Hm as (_ & o & Ho & Hm). rewrite res_bind_ok in Hm. destruct Hm as (_ & _ & Hm).
    rewrite ensure_ok in Hm. destruct Hm as (_ & [= <-]). exists o. split; [done|]. apply Origin_parse_ok.
    by destruct (Origin_parse text).
Qed.

Lemma compile_redirects_states key i l ms : compile_redirects key i l = Ok ms -> Forall2 states_matcher l ms.
Proof.
  revert i ms. induction l as [|e l IH]; intros i ms; simpl; [by intros [= <-]|].
  rewrite res_bind_ok. intros (m & Hm & Hl). rewrite res_bind_ok in Hl. destruct Hl as (ms' & Hl%IH & [= <-]).
  constructor; [|done]. apply compile_matcher_states. by destruct (compile_matcher e).
Qed.

Lemma compile_refresh_tokens_states spec r : compile_refresh_tokens spec = Ok r -> states_refresh spec r.
Proof.
  unfold compile_refresh_tokens. rewrite refuse_ok. intros [Hp Hr].
  destruct (validate_refresh_tokens _); [|done]. injection Hr as <-.
  split; [by destruct (Spec.mode spec)|done..|]. apply andb_false_iff in Hp as [Hp|Hp].
  - left. by destruct (Spec.mode spec).
  - right. by destruct (Spec.grace_period_seconds spec), (Spec.max_lifetime_seconds spec).
Qed.

Lemma context_Ok {A} c (r : result A string) a : context c r = Ok a -> r = Ok a.
Proof. by destruct r. Qed.

Lemma relay_of_states l r relay : compiled_relay l r relay -> states_relay l r relay.
Proof.
  intros (key & up & auth & Hk%resource_key_Ok & Hup%resource_key_Ok & Ha%compiled_auth_states & Hr). subst key up.
  unfold relay_of in Hr. rewrite res_bind_ok in Hr. destruct Hr as (ms & Hm%compile_redirects_states & Hr).
  rewrite res_bind_ok in Hr. destruct Hr as (rt & Ht%context_Ok%compile_refresh_tokens_states & Hr).
  rewrite res_bind_ok in Hr. destruct Hr as ([] & Hv%context_Ok%validate_iff & [= <-]). by split.
Qed.

(** ** Properties *)

(** C35: configuration is compiled faithfully. When [compile_resources] succeeds, whatever the
    secret resolver answers, the snapshot is valid, it has exactly one entry for every document,
    under the document's name, and each entry is what its own document states, field by field:
    an upstream has the URLs its issuer and each of its endpoints parse to, its client and its
    method; a relay has its upstream, scopes, claims, policy, refresh mode with the periods stated
    or their defaults, client authentication with the keys stated, and one matcher for each
    redirect entry in order, and it is valid. The secrets are what the resolver answered for that
    document's own references. *)
Theorem compile_resources_faithful docs l s :
  runs (compile_resources docs) l (Ok s) ->
  validate_snapshot s = Ok tt
  /\ (forall r, Spec.Upstream r ∈ docs -> exists u,
        upstreams s !! ResourceKey_of (Spec.name (Spec.up_metadata r)) = Some u /\ states_upstream l r u)
  /\ (forall r, Spec.Relay r ∈ docs -> exists u,
        relays s !! ResourceKey_of (Spec.name (Spec.rl_metadata r)) = Some u /\ states_relay l r u)
  /\ (forall k u, upstreams s !! k = Some u -> exists r,
        Spec.Upstream r ∈ docs /\ k = ResourceKey_of (Spec.name (Spec.up_metadata r)) /\ states_upstream l r u)
  /\ (forall k u, relays s !! k = Some u -> exists r,
        Spec.Relay r ∈ docs /\ k = ResourceKey_of (Spec.name (Spec.rl_metadata r)) /\ states_relay l r u).
Proof.
  intros Hr. destruct (compile_resources_runs docs l _ Hr) as [_ Hs].
  destruct (Hs s eq_refl) as (Hval & ups & rels & Hsplit & Hups & Hrels).
  destruct (split_documents_Ok _ _ _ _ Hsplit) as (_ & _ & Hu & Hrl).
  destruct (split_documents_names _ _ _ _ Hsplit) as [Hnu Hnr].
  split_and!; [done|..].
  - intros r Hin%Hu. specialize (Hups (ResourceKey_of (Spec.name (Spec.up_metadata r)))).
    destruct (upstreams s !! _) as [u|]; [|by destruct (Hups r Hin)].
    destruct Hups as (r' & Hr' & [= Heq] & Hc%upstream_of_states). exists u. split; [done|].
    by rewrite (NoDup_fmap_inv (fun r => Spec.name (Spec.up_metadata r)) ups r r' Hnu Hin Hr' Heq).
  - intros r Hin%Hrl. specialize (Hrels (ResourceKey_of (Spec.name (Spec.rl_metadata r)))).
    destruct (relays s !! _) as [u|]; [|by destruct (Hrels r Hin)].
    destruct Hrels as (r' & Hr' & [= Heq] & Hc%relay_of_states). exists u. split; [done|].
    by rewrite (NoDup_fmap_inv (fun r => Spec.name (Spec.rl_metadata r)) rels r r' Hnr Hin Hr' Heq).
  - intros k u Hk. specialize (Hups k). rewrite Hk in Hups. destruct Hups as (r & ?%Hu & ? & ?%upstream_of_states). eauto.
  - intros k u Hk. specialize (Hrels k). rewrite Hk in Hrels. destruct Hrels as (r & ?%Hrl & ? & ?%relay_of_states). eauto.
Qed.

(** Secrets are read sparingly. Compilation asks the resolver for no source twice, for no
    source that the documents do not refer to, and for nothing at all when two documents have the
    same kind and name; this holds on every path, errors included. *)
Theorem secrets_read_once docs l r :
  runs (compile_resources docs) l r ->
  NoDup (sources l) /\ (forall source, source ∈ sources l -> refers docs source)
  /\ (~ NoDup (identity_of <$> docs) -> l = [] /\ exists e, r = Err e).
Proof.
  intros Hr. split; [by apply (compile_resources_runs docs l r)|]. split.
  - intros source (c & Hc & Hs)%list_elem_of_omap. destruct c as [[v|s] a]; [done|]. injection Hs as ->.
    exact (every_runs (referred docs) _ l r (ResolveSource source) a (every_compile_resources docs) Hr Hc).
  - intros Hdup. unfold compile_resources in Hr. destruct (split_documents ∅ docs) as [[ups rels]|e] eqn:Hs.
    + by destruct Hdup; eapply split_documents_Ok.
    + destruct Hr as [-> ->]. eauto.
Qed.
End Compiled.

(** ** A configuration *)

(** Two upstreams that share a secret, and a relay. *)
Module ConfigExample.
Import PlainUrl.

Definition shared : Spec.SecretValue := Spec.ValueFrom (Spec.Env "GOOGLE_SECRET").

Definition upstream_document (name : string) : Spec.ResourceDocument := Spec.Upstream {|
  Spec.up_api_version := Spec.V1Alpha1;
  Spec.up_metadata := {| Spec.namespace := None; Spec.name := name |};
  Spec.up_spec := {|
    Spec.issuer_url := "https://issuer.example";
    Spec.endpoints := {| Spec.authorization := None; Spec.token := None; Spec.jwks := None |};
    Spec.oauth_client := {|
      Spec.client_id := "client"; Spec.client_secret := shared;
      Spec.token_endpoint_auth_method := Spec.ClientSecretPost |} |} |}.

Definition relay_document : Spec.ResourceDocument := Spec.Relay {|
  Spec.rl_api_version := Spec.V1Alpha1;
  Spec.rl_metadata := {| Spec.namespace := None; Spec.name := "app" |};
  Spec.rl_spec := {|
    Spec.upstream_ref := "google";
    Spec.scopes := {| Spec.default := ["openid"]; Spec.allowed := None |};
    Spec.required_id_token_claims := ∅; Spec.id_token_policy := None;
    Spec.refresh_tokens := {| Spec.mode := Spec.Rotating; Spec.grace_period_seconds := None; Spec.max_lifetime_seconds := None |};
    Spec.client_authentication := Spec.Public;
    Spec.redirect_policy := [Spec.Uri "https://app.example/callback"; Spec.Loopback "http://127.0.0.1/cb"] |} |}.

Definition docs : list Spec.ResourceDocument := [relay_document; upstream_document "google"; upstream_document "other"].

Definition answer (_ : unit) (c : secret_call) : option (secret_answer c * unit) :=
  Some (Ok (match c with ResolveValue v => v | ResolveSource _ => "resolved" end), tt).

Definition result_of (documents : list Spec.ResourceDocument) : option (result ProviderSnapshot string * secret_log) :=
  '(r, _, l) ← log_run answer (compile_resources documents) tt; Some (r, l).

Definition compiled (documents : list Spec.ResourceDocument) : ProviderSnapshot :=
  match result_of documents with Some (Ok s, _) => s | _ => snapshot_default end.

Definition asked (documents : list Spec.ResourceDocument) : secret_log :=
  match result_of documents with Some (_, l) => l | None => [] end.

Lemma docs_run : runs (compile_resources docs) (asked docs) (Ok (compiled docs)).
Proof.
  assert (match result_of docs with Some (r, _) => is_ok r | None => false end = true) as Hok by (vm_compute; reflexivity).
  unfold asked, compiled. destruct (result_of docs) as [[[s|e] l]|] eqn:Hr; [|done|done].
  unfold result_of in Hr. destruct (log_run _ _ _) as [[[r w] l']|] eqn:Hl; [|done]. simpl in Hr.
  injection Hr as -> ->. by eapply log_run_runs.
Qed.

Lemma compile_resources_faithful_witness :
  validate_snapshot (compiled docs) = Ok tt
  /\ exists u, upstreams (compiled docs) !! ResourceKey_of (Spec.document_name (upstream_document "other")) = Some u.
Proof.
  destruct (compile_resources_faithful docs (asked docs) (compiled docs) docs_run) as (Hv & Hu & _).
  split; [exact Hv|].
  destruct (Hu _ (list_elem_of_further _ _ _ (list_elem_of_further _ _ _ (list_elem_of_here _ _)))) as (u & Hk & _).
  exists u. exact Hk.
Defined.

Lemma secrets_read_once_witness : sources (asked docs) = [Spec.Env "GOOGLE_SECRET"] /\ NoDup (sources (asked docs)).
Proof.
  split; [vm_compute; reflexivity|].
  exact (proj1 (secrets_read_once docs (asked docs) (Ok (compiled docs)) docs_run)).
Defined.
End ConfigExample.
