(* ===== verification/Schema.v ===== *)
(** * Schema: structural schemas of the Kubernetes resources

    Models crates/oauthrelay-provider-kubernetes/src/schema.rs, which turns the JSON schema that
    schemars derives from the resource documents into one that Kubernetes accepts: the properties of
    the alternatives of a union move beside it, and each alternative keeps its constraints. [None]
    is a panic of the source, on a schema that schemars does not derive. Deriving the schema is
    schemars', so [adapt] is given it. Numbers in schemas are naturals. *)

From S2P Require Import Prelude Text Json.
#[local] Open Scope string_scope.

(** ** Comparing documents *)

#[export] Instance value_eq_dec : EqDecision Value.
Proof.
  unfold EqDecision, RelDecision, Decision. fix go 1. intros x y.
  destruct x as [|b|n|s|l|m], y as [|b'|n'|s'|l'|m']; try (right; discriminate).
  - by left.
  - destruct (decide (b = b')); [left|right]; congruence.
  - destruct (decide (n = n')); [left|right]; congruence.
  - destruct (decide (s = s')); [left|right]; congruence.
  - destruct (list_eq_dec (dec := go) l l'); [left|right]; congruence.
  - destruct (list_eq_dec (dec := prod_eq_dec (EqDecision1 := go)) m m'); [left|right]; congruence.
Defined.

(** ** Constraints *)

Definition is_key (keys : list string) (name : string) : bool := bool_decide (name ∈ keys).

Definition STRUCTURAL_KEYS : list string :=
  ["type"; "title"; "description"; "default"; "nullable"; "additionalProperties"; "$schema"].

(** [validation_only] *)
Fixpoint validation_only (value : Value) : Value :=
  match value with
  | Object object =>
      Object (retain (fun name => negb (is_key STRUCTURAL_KEYS name))
        (List.map (fun '(name, w) => (name,
           if is_key ["properties"; "$defs"] name then
             match w with
             | Object fields => Object (List.map (fun '(n, field) => (n, validation_only field)) fields)
             | _ => w
             end
           else if is_key ["items"; "not"] name then validation_only w
           else if is_key ["allOf"; "oneOf"; "anyOf"] name then
             match w with
             | Array schemas => Array (List.map validation_only schemas)
             | _ => w
             end
           else w)) object))
  | _ => value
  end.

(** ** Properties of several alternatives *)

Definition merge_type (a b : list (string * Value)) : option (list (string * Value)) :=
  match member "type" a, member "type" b with
  | None, Some kind => Some (insert "type" kind a)
  | Some x, Some y => if bool_decide (x = y) then Some a else None
  | _, _ => Some a
  end.

Definition CONSTRAINTS : list string :=
  ["enum"; "const"; "allOf"; "not"; "minLength"; "maxLength"; "pattern"; "required"].

(** What only one of the two demands is not demanded of both. *)
Definition drop_differing (a b : list (string * Value)) : list (string * Value) :=
  foldl (fun a key => if bool_decide (member key a = member key b) then a else remove key a) a CONSTRAINTS.

(** [entry("properties").or_insert_with(..).as_object_mut().unwrap()] *)
Definition own_properties (a : list (string * Value)) : option (list (string * Value)) :=
  match member "properties" a with None => Some [] | Some w => as_object w end.

Fixpoint merge_property (existing other : Value) {struct other} : option Value :=
  if bool_decide (existing = other) then Some existing
  else match existing, other with
  | Object a, Object b =>
      a ← merge_type a b;
      let a := drop_differing a b in
      (* [b.get("properties")] *)
      (fix merge_fields (members : list (string * Value)) : option Value :=
        match members with
        | [] => Some (Object a)
        | (key, w) :: members =>
            if bool_decide (key = "properties") then
              match w with
              | Object fields =>
                  target ← own_properties a;
                  target ← (fix go (fields target : list (string * Value)) :=
                    match fields with
                    | [] => Some target
                    | (name, field) :: fields =>
                        match member name target with
                        | Some existing =>
                            merged ← merge_property existing field; go fields (insert name merged target)
                        | None => go fields (insert name field target)
                        end
                    end) fields target;
                  Some (Object (insert "properties" (Object target) a))
              | _ => Some (Object a)
              end
            else merge_fields members
        end) b
  | _, _ => None
  end.

(** The fields of one alternative, into the properties of the union. *)
Fixpoint add_fields (fields properties : list (string * Value)) : option (list (string * Value)) :=
  match fields with
  | [] => Some properties
  | (name, schema) :: fields =>
      match member name properties with
      | None => add_fields fields (insert name schema properties)
      | Some existing => merged ← merge_property existing schema; add_fields fields (insert name merged properties)
      end
  end.

(** [value.get("properties").and_then(Value::as_object)], or no properties. *)
Definition properties_of (value : Value) : list (string * Value) :=
  default [] (w ← Json.get value "properties"; as_object w).

Fixpoint add_branches (branches : list Value) (properties : list (string * Value))
    : option (list (string * Value)) :=
  match branches with
  | [] => Some properties
  | branch :: branches => p ← add_fields (properties_of branch) properties; add_branches branches p
  end.

(** ** Unions *)

Definition forbid (name : string) : Value := Object [("not", Object [("required", Array [Str name])])].

(** The fields an alternative that takes no others must not have. *)
Definition forbidden (names : list string) (branch : Value) : list Value :=
  if bool_decide (Json.get branch "additionalProperties" = Some (Bool false)) then
    forbid <$> List.filter (fun name => bool_decide (member name (properties_of branch) = None)) names
  else [].

(** [entry("allOf").or_insert_with(..).as_array_mut().unwrap().extend(forbidden)] *)
Definition extend_all_of (more : list Value) (branch : Value) : option Value :=
  match more with
  | [] => Some branch
  | _ =>
      m ← as_object branch;
      l ← match member "allOf" m with None => Some [] | Some w => as_array w end;
      Some (Object (insert "allOf" (Array (l ++ more)) m))
  end.

Definition rule_of (names : list string) (branch : Value) : option Value :=
  branch ← extend_all_of (forbidden names branch) branch;
  Some (Object [("allOf", Array [validation_only branch])]).

Definition has_properties (branch : Value) : bool := bool_decide (is_Some (Json.get branch "properties")).

(** One pass of the loop over [oneOf] and [anyOf]. *)
Definition hoist (union : string) (object : list (string * Value)) : option (list (string * Value)) :=
  match member union object with
  | Some (Array branches) =>
      let object := remove union object in
      if negb (existsb has_properties branches) then Some (insert union (Array branches) object)
      else
        properties ← add_branches branches (properties_of (Object object));
        rules ← mapM (rule_of properties.*1) branches;
        Some (insert union (Array rules)
          (insert "properties" (Object properties) (insert "type" (Str "object") object)))
  | _ => Some object
  end.

Definition hoist_unions (object : list (string * Value)) : option (list (string * Value)) :=
  object ← hoist "oneOf" object; hoist "anyOf" object.

(** [adapt] *)
Fixpoint adapt (value : Value) : option Value :=
  match value with
  | Array values =>
      Array <$> (fix go (values : list Value) := match values with
                 | [] => Some []
                 | v :: values => v ← adapt v; values ← go values; Some (v :: values)
                 end) values
  | Object object =>
      object ← (fix go (object : list (string * Value)) := match object with
                | [] => Some []
                | (name, v) :: object => v ← adapt v; object ← go object; Some ((name, v) :: object)
                end) object;
      Object <$> hoist_unions object
  | _ => Some value
  end.

(** [structural], of a generated schema, and [require_rotating_for_public]. *)
Definition structural (generated : Value) : option Value :=
  v ← adapt generated; m ← as_object v; Some (Object (remove "$schema" m)).

Definition require_rotating_for_public (schema : list (string * Value)) : list (string * Value) :=
  insert "x-kubernetes-validations" (Array [Object [
    ("rule", Str ("self.clientAuthentication.type != 'Public' || (has(self.refreshTokens) && "
                  +:+ "has(self.refreshTokens.mode) && self.refreshTokens.mode == 'rotating')"));
    ("message", Str "clientAuthentication.type: Public requires refreshTokens.mode: rotating")]]) schema.

(** ** Schemas of the resource types *)

(** [require_jwks_source] (config.rs): an object's JSON, and the key sources of a [PrivateKeyJwt]. *)
Definition require (names : list string) : string * Value := ("required", Array (Str <$> names)).

Definition JWKS_SOURCES : Value := Array [
  Object [require ["jwks"]; ("not", Object [require ["jwksUrl"]])];
  Object [require ["jwksUrl"]; ("not", Object [require ["jwks"]])];
  Object [require ["issuer"];
          ("not", Object [("anyOf", Array [Object [require ["jwks"]]; Object [require ["jwksUrl"]]])])]].

Definition with_jwks_source (variant : Value) : Value :=
  match variant, (p ← Json.get variant "properties"; Json.get p "jwksUrl") with
  | Object m, Some _ => Object (insert "oneOf" JWKS_SOURCES m)
  | _, _ => variant
  end.

Definition require_jwks_source (schema : list (string * Value)) : list (string * Value) :=
  match member "oneOf" schema with
  | Some (Array variants) => insert "oneOf" (Array (with_jwks_source <$> variants)) schema
  | _ => schema
  end.

(** [require_policy_section] and [non_empty_claim_set] (id_token_policy.rs). *)
Definition non_null_section (name : string) : Value :=
  Object [require [name]; ("properties", Object [(name, Object [("not", Object [("enum", Array [Null])])])])].

Definition POLICY_SECTIONS : Value := Array [non_null_section "required"; non_null_section "anyOf"].

Definition require_policy_section (schema : list (string * Value)) : list (string * Value) :=
  insert "anyOf" POLICY_SECTIONS schema.

Definition non_empty_claim_set (schema : list (string * Value)) : list (string * Value) :=
  insert "minProperties" (Number (Some 1%Z)) schema.

(** ** Lemmas *)

(** Induction on the size of a document, for recursion several levels down. *)
Fixpoint size (v : Value) : nat :=
  match v with
  | Array l => S (list_sum (List.map size l))
  | Object m => S (list_sum (List.map (fun '(_, w) => size w) m))
  | _ => 1
  end.

Lemma size_array v l : v ∈ l -> size v < size (Array l).
Proof.
  cbn [size]. induction l as [|v' l IH]; [by intros ?%not_elem_of_nil|].
  intros [<-|Hin]%elem_of_cons; [|specialize (IH Hin)]; cbn [List.map list_sum foldr];
    unfold list_sum in *; lia.
Qed.

Lemma size_object n w m : (n, w) ∈ m -> size w < size (Object m).
Proof.
  cbn [size]. induction m as [|[n' w'] m IH]; [by intros ?%not_elem_of_nil|].
  intros [[= <- <-]|Hin]%elem_of_cons; [|specialize (IH Hin)]; cbn [List.map list_sum foldr];
    unfold list_sum in *; lia.
Qed.

Lemma value_size_ind (P : Value -> Prop) :
  (forall v, (forall w, size w < size v -> P w) -> P v) -> forall v, P v.
Proof.
  intros H. enough (forall n v, size v < n -> P v) as Hn by (intros v; by apply (Hn (S (size v))); lia).
  induction n as [|n IH]; [lia|]. intros v Hv. apply H. intros w Hw. apply IH. lia.
Qed.

Lemma member_in name m w : member name m = Some w -> (name, w) ∈ m.
Proof.
  induction m as [|[n v] m IH]; simpl; [done|]. case_bool_decide as Hn.
  - intros [= ->]. subst. apply list_elem_of_here.
  - intros Hm. by apply list_elem_of_further, IH.
Qed.

Lemma in_insert name v m n w :
  (n, w) ∈ insert name v m -> (n = name /\ w = v) \/ (n, w) ∈ m.
Proof.
  induction m as [|[k x] m IH]; simpl.
  - rewrite list_elem_of_singleton. intros [= -> ->]. by left.
  - case_bool_decide as Hk; rewrite !elem_of_cons.
    + subst. intros [[= -> ->]|?]; auto.
    + intros [?|Hin]; [auto|]. destruct (IH Hin); auto.
Qed.

Lemma in_retain f m n w : (n, w) ∈ retain f m -> (n, w) ∈ m.
Proof. unfold retain. rewrite !list_elem_of_In. by intros [? _]%filter_In. Qed.

(** The recursion of [merge_property], without its anonymous loops. *)
Lemma merge_property_eq existing other :
  merge_property existing other
  = if bool_decide (existing = other) then Some existing
    else match existing, other with
    | Object a, Object b =>
        a ← merge_type a b;
        match member "properties" b with
        | Some (Object fields) =>
            target ← own_properties (drop_differing a b);
            target ← add_fields fields target;
            Some (Object (insert "properties" (Object target) (drop_differing a b)))
        | _ => Some (Object (drop_differing a b))
        end
    | _, _ => None
    end.
Proof.
  destruct other as [| | | |l|b]; try reflexivity. cbn [merge_property].
  case_bool_decide; [done|]. destruct existing as [| | | |l|a]; try reflexivity.
  destruct (merge_type a b) as [a1|]; [|done]. cbn [mbind option_bind].
  generalize (drop_differing a1 b). intros a2. clear. induction b as [|[key w] b IH]; [done|].
  cbn [member]. case_bool_decide as Hk; [|exact IH]. by destruct w.
Qed.

Lemma adapt_array l : adapt (Array l) = Array <$> mapM adapt l.
Proof.
  cbn [adapt]. f_equal.
Qed.

Lemma adapt_object m :
  adapt (Object m)
  = m ← mapM (fun '(name, v) => pair name <$> adapt v) m; Object <$> hoist_unions m.
Proof.
  cbn [adapt]. f_equal. induction m as [|[name v] m IH]; [done|]. simpl. destruct (adapt v); [|done].
  simpl. by rewrite IH.
Qed.

(** ** Unions without properties of their own *)

Definition UNIONS : list string := ["oneOf"; "anyOf"].

(** The value of a keyword, if it is a union, has no alternative with properties. *)
Definition plain (name : string) (w : Value) : bool :=
  negb (is_key UNIONS name)
  || match w with Array branches => negb (existsb has_properties branches) | _ => true end.

(** No union of a document has an alternative with properties. *)
Fixpoint hoisted (v : Value) : bool :=
  match v with
  | Array l => forallb hoisted l
  | Object m => forallb (fun '(name, w) => hoisted w && plain name w) m
  | _ => true
  end.

Definition entries_ok (m : list (string * Value)) : Prop :=
  forall n w, (n, w) ∈ m -> hoisted w = true /\ plain n w = true.

Lemma hoisted_array l : hoisted (Array l) = true <-> forall v, v ∈ l -> hoisted v = true.
Proof. cbn [hoisted]. rewrite forallb_forall. by setoid_rewrite list_elem_of_In. Qed.

Lemma hoisted_object m : hoisted (Object m) = true <-> entries_ok m.
Proof.
  cbn [hoisted]. rewrite forallb_forall. unfold entries_ok. setoid_rewrite list_elem_of_In. split.
  - intros H n w Hin. specialize (H _ Hin). simpl in H. by apply andb_true_iff in H.
  - intros H [n w] Hin. apply andb_true_iff. by apply H.
Qed.

Lemma entries_insert name v m :
  hoisted v = true -> plain name v = true -> entries_ok m -> entries_ok (insert name v m).
Proof. intros Hv Hp Hm n w [[-> ->]|Hin]%in_insert; [done|by apply Hm]. Qed.

Lemma entries_retain f m : entries_ok m -> entries_ok (retain f m).
Proof. intros Hm n w Hin. by eapply Hm, in_retain. Qed.

Lemma entries_member name m w : entries_ok m -> member name m = Some w -> hoisted w = true /\ plain name w = true.
Proof. intros Hm Hw. by apply Hm, member_in. Qed.

Lemma properties_entries m :
  (forall n w, (n, w) ∈ m -> hoisted w = true) -> entries_ok (properties_of (Object m)).
Proof.
  intros Hm. assert (entries_ok []) as Hnil by (intros ? ? []%not_elem_of_nil).
  unfold properties_of, Json.get. simpl.
  destruct (member "properties" m) as [w|] eqn:E; [|exact Hnil]. simpl.
  apply member_in, Hm in E. destruct w; try exact Hnil. by apply hoisted_object.
Qed.

Lemma entries_properties v : hoisted v = true -> entries_ok (properties_of v).
Proof.
  destruct v as [| | | | |m]; try by intros _ ? ? []%not_elem_of_nil.
  intros Hv%hoisted_object. apply properties_entries. intros n w Hin. by apply (Hv n w).
Qed.

#[local] Hint Resolve entries_insert entries_retain entries_properties : schema.

(** An object is no union, whatever its name. *)
Lemma plain_object n m : plain n (Object m) = true.
Proof. unfold plain. by destruct (is_key _ _). Qed.

Lemma plain_key n w : is_key UNIONS n = false -> plain n w = true.
Proof. unfold plain. by intros ->. Qed.

Lemma entries_drop_differing a b : entries_ok a -> entries_ok (drop_differing a b).
Proof.
  unfold drop_differing. generalize CONSTRAINTS. intros keys. revert a.
  induction keys as [|k keys IH]; intros a Ha; simpl; [done|]. apply IH.
  case_bool_decide; [done|]. by apply entries_retain.
Qed.

Lemma entries_merge_type a b a' :
  entries_ok a -> entries_ok b -> merge_type a b = Some a' -> entries_ok a'.
Proof.
  intros Ha Hb. unfold merge_type. destruct (member "type" a), (member "type" b) as [k|] eqn:E;
    [case_bool_decide| | |]; intros [= <-]; try done.
  apply entries_insert; [|by apply plain_key|done]. by apply (entries_member _ _ _ Hb E).
Qed.

(** What a merge of [field] into a hoisted property yields. *)
Definition merges (field : Value) : Prop :=
  forall existing c, hoisted existing = true -> merge_property existing field = Some c ->
    hoisted c = true /\ (c = existing \/ is_Some (as_object c)).

Lemma entries_add_fields fields target r :
  entries_ok fields -> (forall n f, (n, f) ∈ fields -> merges f) ->
  entries_ok target -> add_fields fields target = Some r -> entries_ok r.
Proof.
  revert target. induction fields as [|[name f] fields IH]; intros target Hf Hm Ht; simpl; [by intros [= <-]|].
  assert (entries_ok fields) as Hf' by (intros n w Hin; by apply Hf, list_elem_of_further).
  assert (forall n g, (n, g) ∈ fields -> merges g) as Hm' by (intros n g Hin; by eapply Hm, list_elem_of_further).
  destruct (Hf name f (list_elem_of_here _ _)) as [Hfh Hfp].
  destruct (member name target) as [e|] eqn:E; [|apply IH; auto with schema].
  destruct (merge_property e f) as [c|] eqn:Ec; [|done]. apply IH; [done..|].
  destruct (entries_member _ _ _ Ht E) as [He Hp].
  destruct (Hm name f (list_elem_of_here _ _) e c He Ec) as [Hc [->|[m Hobj]]]; [by apply entries_insert|].
  apply entries_insert; [done| |done]. destruct c; try done. apply plain_object.
Qed.

Lemma merge_property_hoisted field : hoisted field = true -> merges field.
Proof.
  induction field as [field IH] using value_size_ind. intros Hf existing c He. rewrite merge_property_eq.
  case_bool_decide; [intros [= <-]; auto|]. destruct existing as [|eb|en|es|el|a], field as [|fb|fn|fs|fl|b]; try done.
  apply hoisted_object in He, Hf. destruct (merge_type a b) as [a1|] eqn:E1; [|done]. cbn [mbind option_bind].
  apply entries_merge_type in E1; [|done..]. apply (entries_drop_differing _ b) in E1.
  set (a2 := drop_differing a1 b) in *.
  assert (forall c', Some (Object a2) = Some c' -> hoisted c' = true /\ (c' = Object a \/ is_Some (as_object c'))) as Hplain.
  { intros c' [= <-]. split; [by apply hoisted_object|right; by eexists]. }
  destruct (member "properties" b) as [[| | | |l|fields]|] eqn:Eb; try apply Hplain.
  destruct (entries_member _ _ _ Hf Eb) as [Hfields%hoisted_object _]. apply member_in in Eb.
  destruct (own_properties a2) as [target|] eqn:Et; [|done]. cbn [mbind option_bind].
  destruct (add_fields fields target) as [r|] eqn:Er; [|done]. intros Heq. apply (inj Some) in Heq as <-.
  split; [|right; by eexists]. apply hoisted_object, entries_insert; [|by apply plain_key|done].
  apply hoisted_object. eapply entries_add_fields; [done| | |exact Er].
  - intros n f Hin. apply IH; [|by apply (Hfields n f)]. apply size_object in Hin, Eb. lia.
  - unfold own_properties in Et. destruct (member "properties" a2) as [w|] eqn:Ew; simplify_eq.
    + destruct (entries_member _ _ _ E1 Ew) as [Hw _]. destruct w; try discriminate Et. injection Et as <-. by apply hoisted_object.
    + intros ? ? []%not_elem_of_nil.
Qed.

(** [validation_only], entry by entry. *)
Definition constraint_of (name : string) (w : Value) : Value :=
  if is_key ["properties"; "$defs"] name then
    match w with
    | Object fields => Object ((fun '(n, field) => (n, validation_only field)) <$> fields)
    | _ => w
    end
  else if is_key ["items"; "not"] name then validation_only w
  else if is_key ["allOf"; "oneOf"; "anyOf"] name then
    match w with Array schemas => Array (validation_only <$> schemas) | _ => w end
  else w.

Definition constraints (m : list (string * Value)) : list (string * Value) :=
  retain (fun name => negb (is_key STRUCTURAL_KEYS name)) ((fun '(n, w) => (n, constraint_of n w)) <$> m).

Lemma validation_only_object m : validation_only (Object m) = Object (constraints m).
Proof. reflexivity. Qed.

Lemma member_fmap (f : string -> Value -> Value) m k :
  member k ((fun '(n, w) => (n, f n w)) <$> m) = f k <$> member k m.
Proof. induction m as [|[n w] m IH]; simpl; [done|]. case_bool_decide; [by subst|done]. Qed.

Lemma member_constraints m k :
  member k (constraints m) = if is_key STRUCTURAL_KEYS k then None else constraint_of k <$> member k m.
Proof. unfold constraints. rewrite member_retain, member_fmap. by destruct (is_key _ k). Qed.

Lemma in_constraints m n w : (n, w) ∈ constraints m -> exists w0, (n, w0) ∈ m /\ w = constraint_of n w0.
Proof. intros ([n' w'] & [= -> ->] & Hin)%in_retain%list_elem_of_fmap. eauto. Qed.

Lemma has_properties_validation_only v : has_properties (validation_only v) = has_properties v.
Proof.
  destruct v as [| | | | |m]; try done. rewrite validation_only_object. unfold has_properties, Json.get.
  simpl. rewrite member_constraints. change (is_key STRUCTURAL_KEYS "properties") with false. cbn iota.
  apply bool_decide_ext. by rewrite fmap_is_Some.
Qed.

Lemma hoisted_validation_only v : hoisted v = true -> hoisted (validation_only v) = true.
Proof.
  induction v as [v IH] using value_size_ind. intros Hv. destruct v as [| | | | |m]; try done.
  rewrite validation_only_object. apply hoisted_object. rewrite hoisted_object in Hv.
  intros n w (w0 & Hin & ->)%in_constraints. destruct (Hv n w0 Hin) as [Hw Hp].
  pose proof (size_object _ _ _ Hin) as Hs. unfold constraint_of.
  destruct (is_key ["properties"; "$defs"] n) eqn:Ep; [|destruct (is_key ["items"; "not"] n) eqn:Ei;
    [|destruct (is_key ["allOf"; "oneOf"; "anyOf"] n) eqn:Ea; [|done]]].
  - destruct w0 as [| | | | |fields]; try done. split; [|apply plain_object]. rewrite hoisted_object in *.
    intros k f ([k' f'] & [= -> ->] & Hf)%list_elem_of_fmap. destruct (Hw _ _ Hf) as [Hf' Hpf].
    pose proof (size_object _ _ _ Hf). split; [apply IH; [lia|done]|].
    by destruct f'.
  - split; [by apply IH|]. apply plain_key. unfold is_key in *. apply bool_decide_eq_true in Ei.
    apply bool_decide_eq_false. set_solver.
  - destruct w0 as [| | | |l|]; try done. rewrite hoisted_array in *. split.
    + intros v (v' & -> & Hin')%list_elem_of_fmap. pose proof (size_array _ _ Hin'). apply IH; [lia|auto].
    + unfold plain in *. destruct (is_key UNIONS n); [|done]. simpl in *.
      revert Hp. clear. induction l as [|v l IHl]; [done|]. simpl. rewrite has_properties_validation_only.
      destruct (has_properties v); [done|]. exact IHl.
Qed.

(** *** Hoisting a union *)

Lemma entries_add_branches branches properties r :
  (forall b, b ∈ branches -> hoisted b = true) -> entries_ok properties ->
  add_branches branches properties = Some r -> entries_ok r.
Proof.
  revert properties. induction branches as [|b branches IH]; intros p Hb Hp; simpl; [by intros [= <-]|].
  destruct (add_fields (properties_of b) p) as [p'|] eqn:E; [|done]. apply IH.
  - intros b' Hin. by apply Hb, list_elem_of_further.
  - assert (entries_ok (properties_of b)) as Hpb by by apply entries_properties, Hb, list_elem_of_here.
    apply (entries_add_fields (properties_of b) p p'); [done| |done|exact E]. intros n f Hin.
    by apply merge_property_hoisted, (Hpb n f).
Qed.

Lemma hoisted_rule names b r : hoisted b = true -> rule_of names b = Some r -> hoisted r = true.
Proof.
  intros Hb. unfold rule_of. destruct (extend_all_of (forbidden names b) b) as [b'|] eqn:E; [|done].
  intros [= <-]. enough (hoisted b' = true) as Hb'.
  { simpl. by rewrite hoisted_validation_only. }
  assert (forall v, v ∈ forbidden names b -> hoisted v = true) as Hforb.
  { unfold forbidden. case_bool_decide; [|by intros ? ?%not_elem_of_nil].
    by intros v (n & -> & _)%list_elem_of_fmap. }
  unfold extend_all_of in E. destruct (forbidden names b) as [|f fs]; [by simplify_eq|].
  destruct b as [| | | | |m]; try discriminate E. simpl in E. rewrite hoisted_object in Hb.
  destruct (member "allOf" m) as [w|] eqn:Em; simpl in E.
  - destruct (entries_member _ _ _ Hb Em) as [Hw _]. destruct w as [| | | |l|]; try discriminate E.
    injection E as <-. apply hoisted_object, entries_insert; [|by apply plain_key|done].
    rewrite hoisted_array in *. intros v [?|?]%elem_of_app; auto.
  - injection E as <-. apply hoisted_object, entries_insert; [|by apply plain_key|done].
    apply hoisted_array. auto.
Qed.

Lemma plain_rules names branches rules u :
  mapM (rule_of names) branches = Some rules -> plain u (Array rules) = true.
Proof.
  intros Hm%mapM_Some. unfold plain. apply orb_true_iff. right. apply negb_true_iff.
  induction Hm as [|b r branches rules Hr _ IH]; [done|]. cbn [existsb]. rewrite IH, orb_false_r.
  unfold rule_of in Hr. by destruct (extend_all_of _ _); simplify_eq/=.
Qed.

(** The entries of a document whose unions in [pending] have not been hoisted. *)
Definition entries_but (pending : list string) (m : list (string * Value)) : Prop :=
  forall n w, (n, w) ∈ m -> hoisted w = true /\ (n ∉ pending -> plain n w = true).

Lemma entries_but_nil m : entries_but [] m <-> entries_ok m.
Proof.
  split; intros H n w Hin; destruct (H n w Hin) as [? Hp]; (split; [done|]); [apply Hp|auto].
  apply not_elem_of_nil.
Qed.

Lemma entries_but_insert pending n w m :
  entries_but pending m -> hoisted w = true -> plain n w = true -> entries_but pending (insert n w m).
Proof. intros H0 Hw Hp k v [[-> ->]|Hin]%in_insert; [done|by apply H0]. Qed.

Lemma in_remove u m n w : (n, w) ∈ remove u m -> n <> u /\ (n, w) ∈ m.
Proof.
  intros Hin. split; [|by eapply in_retain]. unfold remove, retain in Hin. rewrite list_elem_of_In in Hin.
  apply filter_In in Hin as [_ Hin]. by apply bool_decide_eq_true in Hin.
Qed.

Lemma entries_but_remove u pending m : entries_but (u :: pending) m -> entries_but pending (remove u m).
Proof.
  intros Hm n w [Hn Hin]%in_remove. destruct (Hm n w Hin) as [Hw Hp]. split; [done|]. intros Hnp.
  apply Hp. set_solver.
Qed.

Lemma member_unique n w m : NoDup m.*1 -> (n, w) ∈ m -> member n m = Some w.
Proof.
  induction m as [|[k v] m IH]; [by intros _ ?%not_elem_of_nil|]. simpl. intros [Hk Hd]%NoDup_cons Hin.
  apply elem_of_cons in Hin as [[= -> ->]|Hin]; case_bool_decide; subst; try done; [|by apply IH].
  destruct Hk. apply list_elem_of_fmap. by exists (n, w).
Qed.

Lemma hoist_entries u pending m m' :
  u ∈ UNIONS -> NoDup m.*1 -> entries_but (u :: pending) m -> hoist u m = Some m' -> entries_but pending m'.
Proof.
  intros Hu Hd Hm Hh. unfold hoist in Hh. pose proof (entries_but_remove _ _ _ Hm) as Hrem.
  assert ((forall l, member u m <> Some (Array l)) -> Some m = Some m' -> entries_but pending m') as Hkeep.
  { intros Hno [= <-] n w Hin. destruct (Hm n w Hin) as [Hw Hp]. split; [done|]. intros Hnp.
    destruct (decide (n = u)) as [->|Hn]; [|apply Hp; set_solver]. apply member_unique in Hin; [|done].
    unfold plain. apply orb_true_iff. right. destruct w; try done. by destruct (Hno elements). }
  destruct (member u m) as [[| | | |branches|]|] eqn:E; try by (apply Hkeep).
  apply member_in in E. destruct (Hm _ _ E) as [Hb _]. rewrite hoisted_array in Hb.
  destruct (existsb has_properties branches) eqn:Hex; cbn [negb] in Hh.
  - destruct (add_branches _ _) as [properties|] eqn:Ep; [|done]. cbn [mbind option_bind] in Hh.
    destruct (mapM _ branches) as [rules|] eqn:Er; [|done]. injection Hh as <-.
    apply entries_add_branches in Ep; [|done|].
    2: { apply properties_entries. intros n w Hin. by apply (Hrem n w). }
    apply entries_but_insert; [apply entries_but_insert; [by apply entries_but_insert|..]|..].
    + by apply hoisted_object.
    + apply plain_object.
    + apply hoisted_array. intros r [i Hr]%list_elem_of_lookup. apply mapM_Some in Er.
      destruct (Forall2_lookup_r _ _ _ _ _ Er Hr) as (b & Hin%list_elem_of_lookup_2 & Hrule).
      eapply hoisted_rule; [by apply Hb|exact Hrule].
    + by eapply plain_rules.
  - injection Hh as <-. apply entries_but_insert; [done| |].
    + by apply hoisted_array.
    + unfold plain. rewrite Hex. by destruct (is_key _ _).
Qed.

(** *** Keys *)

(** Every object names each member once, as [serde_json::Map] does. *)
Fixpoint unique_keys (v : Value) : bool :=
  match v with
  | Array l => forallb unique_keys l
  | Object m => bool_decide (NoDup m.*1) && forallb (fun '(_, w) => unique_keys w) m
  | _ => true
  end.

Lemma keys_insert name v m :
  (insert name v m).*1 = if bool_decide (name ∈ m.*1) then m.*1 else (m.*1 ++ [name])%list.
Proof.
  induction m as [|[n w] m IH]; [done|]. cbn [insert]. destruct (decide (n = name)) as [->|Hn].
  - rewrite bool_decide_eq_true_2 by done. rewrite bool_decide_eq_true_2; [done|apply list_elem_of_here].
  - rewrite bool_decide_eq_false_2 by done. cbn [fmap list_fmap]. simpl. change (list_fmap _ _ fst) with (@fmap list _ (string * Value) string fst).
    rewrite IH. repeat case_bool_decide; try done; set_solver.
Qed.

Lemma keys_insert_nodup name v m : NoDup m.*1 -> NoDup (insert name v m).*1.
Proof.
  intros Hd. rewrite keys_insert. case_bool_decide; [done|]. apply NoDup_app. split_and!; [done| |apply NoDup_singleton].
  intros x Hx ->%list_elem_of_singleton. done.
Qed.

Lemma keys_retain_nodup f m : NoDup m.*1 -> NoDup (retain f m).*1.
Proof.
  unfold retain. induction m as [|[n w] m IH]; [done|]. simpl. intros [Hn Hd]%NoDup_cons.
  destruct (f n); simpl; [|by apply IH]. apply NoDup_cons. split; [|by apply IH].
  intros ([n' w'] & Heq & Hin)%list_elem_of_fmap. simpl in Heq. subst. apply Hn, list_elem_of_fmap.
  exists (n', w'). split; [done|]. rewrite list_elem_of_In in *. by apply filter_In in Hin as [? _].
Qed.

Lemma keys_remove_nodup name m : NoDup m.*1 -> NoDup (remove name m).*1.
Proof. apply keys_retain_nodup. Qed.

Lemma hoist_nodup u m m' : NoDup m.*1 -> hoist u m = Some m' -> NoDup m'.*1.
Proof.
  intros Hd Hh. unfold hoist in Hh. pose proof (keys_remove_nodup u m Hd).
  destruct (member u m) as [[| | | |branches|]|]; try by injection Hh as <-.
  destruct (negb _); [injection Hh as <-; by apply keys_insert_nodup|].
  destruct (add_branches _ _); [|done]. cbn [mbind option_bind] in Hh.
  destruct (mapM _ _); [|done]. injection Hh as <-. by repeat apply keys_insert_nodup.
Qed.

(** *** The whole schema *)

Lemma hoist_unions_hoisted m m' :
  NoDup m.*1 -> (forall n w, (n, w) ∈ m -> hoisted w = true) -> hoist_unions m = Some m' ->
  hoisted (Object m') = true.
Proof.
  intros Hd Hm Hh. unfold hoist_unions in Hh. destruct (hoist "oneOf" m) as [m1|] eqn:E1; [|done].
  cbn [mbind option_bind] in Hh. pose proof (hoist_nodup _ _ _ Hd E1) as Hd1.
  apply hoisted_object, entries_but_nil. apply (hoist_entries "anyOf" [] m1); [set_solver|done| |done].
  apply (hoist_entries "oneOf" ["anyOf"] m); [set_solver|done| |done].
  intros n w Hin. split; [by eapply Hm|]. intros Hn. apply plain_key. apply bool_decide_eq_false.
  unfold UNIONS. set_solver.
Qed.

Lemma adapt_hoisted v v' : unique_keys v = true -> adapt v = Some v' -> hoisted v' = true.
Proof.
  revert v'. induction v as [v IH] using value_size_ind. intros v' Hv.
  destruct v as [| | | |l|m]; try by intros [= <-].
  - rewrite adapt_array. destruct (mapM adapt l) as [l'|] eqn:E; [|done]. intros [= <-].
    apply hoisted_array. intros w' [i Hw']%list_elem_of_lookup. apply mapM_Some in E.
    destruct (Forall2_lookup_r _ _ _ _ _ E Hw') as (w & Hw%list_elem_of_lookup_2 & Ha).
    apply (IH w); [by apply size_array| |done]. simpl in Hv. rewrite forallb_forall in Hv.
    by apply Hv, list_elem_of_In.
  - rewrite adapt_object. destruct (mapM _ m) as [m1|] eqn:E; [|done]. cbn [mbind option_bind].
    destruct (hoist_unions m1) as [m2|] eqn:E2; [|done]. intros [= <-]. apply mapM_Some in E.
    simpl in Hv. apply andb_true_iff in Hv as [Hd%bool_decide_eq_true Hv]. rewrite forallb_forall in Hv.
    apply (hoist_unions_hoisted m1); [| |done].
    + assert (m1.*1 = m.*1) as ->; [|done]. clear -E. induction E as [|[n w] [n' w'] m m1 Hw _ IHE]; [done|].
      cbn. destruct (adapt w); simplify_eq/=. f_equal. exact IHE.
    + intros n w' [i Hw']%list_elem_of_lookup.
      destruct (Forall2_lookup_r _ _ _ _ _ E Hw') as ([n' w] & Hw%list_elem_of_lookup_2 & Ha).
      destruct (adapt w) as [w1|] eqn:Ew; simplify_eq/=. apply (IH w); [by eapply size_object| |done].
      rewrite list_elem_of_In in Hw. exact (Hv _ Hw).
Qed.
