(* ===== verification/SchemaAccepts.v ===== *)
(** * SchemaAccepts: what the structural schemas accept

    The keywords of JSON Schema that the generated schemas use, as a validator, and what the
    transformations of [Schema] and of the resource types (config.rs, id_token_policy.rs) keep of
    it. The keywords that only look at a scalar are a parameter. *)

From S2P Require Import Prelude Text Json Url Model IdTokenPolicy Schema Config.
#[local] Open Scope string_scope.

(** ** A validator *)

Definition ANNOTATIONS : list string := ["title"; "description"; "default"; "nullable"; "$schema"; "$defs"].

(** The names of the type of a document; which numbers are integers is left open. *)
Definition type_names (integer : bool) (x : Value) : list string :=
  match x with
  | Null => ["null"]
  | Bool _ => ["boolean"]
  | Number _ => if integer then ["number"; "integer"] else ["number"]
  | Str _ => ["string"]
  | Array _ => ["array"]
  | Object _ => ["object"]
  end.

Section Accepts.
(** What [enum], [const], [pattern], [minLength], [minItems] and the like say of a document. *)
Context (leaf : string -> Value -> Value -> bool).

(** [nullable] is OpenAPI's: it lets [type] accept null. *)
Definition has_type (nullable : bool) (kind x : Value) : bool :=
  match kind with
  | Str name => is_key (type_names (leaf "type" kind x) x) name || (nullable && bool_decide (x = Null))
  | _ => true
  end.

Definition nullable (m : list (string * Value)) : bool :=
  bool_decide (member "nullable" m = Some (Bool true)).

Definition requires (names : Value) (x : Value) : bool :=
  match names, x with
  | Array l, Object fields =>
      forallb (fun name => match name with Str n => bool_decide (is_Some (member n fields)) | _ => true end) l
  | _, _ => true
  end.

Definition exactly_one (l : list bool) : bool := bool_decide (length (List.filter id l) = 1).

(** Whether a document satisfies a schema. *)
Fixpoint accepts (schema x : Value) {struct schema} : bool :=
  match schema with
  | Bool b => b
  | Object m =>
      forallb (fun '(key, arg) =>
        if is_key ANNOTATIONS key then true
        else if bool_decide (key = "type") then has_type (nullable m) arg x
        else if bool_decide (key = "properties") then
          match arg with
          | Object fields =>
              forallb (fun '(n, f) => match Json.get x n with Some y => accepts f y | None => true end) fields
          | _ => true
          end
        else if bool_decide (key = "additionalProperties") then
          match x with
          | Object fields =>
              forallb (fun '(n, y) => bool_decide (is_Some (member n (properties_of schema))) || accepts arg y) fields
          | _ => true
          end
        else if bool_decide (key = "required") then requires arg x
        else if bool_decide (key = "items") then
          match x with Array l => forallb (fun y => accepts arg y) l | _ => true end
        else if bool_decide (key = "not") then negb (accepts arg x)
        else if bool_decide (key = "allOf") then
          match arg with Array l => forallb (fun s => accepts s x) l | _ => true end
        else if bool_decide (key = "anyOf") then
          match arg with Array l => existsb (fun s => accepts s x) l | _ => true end
        else if bool_decide (key = "oneOf") then
          match arg with Array l => exactly_one (List.map (fun s => accepts s x) l) | _ => true end
        else leaf key arg x) m
  | _ => true
  end.

(** One keyword of a schema whose members are [m]. *)
Definition holds (m : list (string * Value)) (key : string) (arg x : Value) : bool :=
  if is_key ANNOTATIONS key then true
  else if bool_decide (key = "type") then has_type (nullable m) arg x
  else if bool_decide (key = "properties") then
    match arg with
    | Object fields =>
        forallb (fun '(n, f) => match Json.get x n with Some y => accepts f y | None => true end) fields
    | _ => true
    end
  else if bool_decide (key = "additionalProperties") then
    match x with
    | Object fields =>
        forallb (fun '(n, y) => bool_decide (is_Some (member n (properties_of (Object m)))) || accepts arg y) fields
    | _ => true
    end
  else if bool_decide (key = "required") then requires arg x
  else if bool_decide (key = "items") then
    match x with Array l => forallb (accepts arg) l | _ => true end
  else if bool_decide (key = "not") then negb (accepts arg x)
  else if bool_decide (key = "allOf") then
    match arg with Array l => forallb (fun s => accepts s x) l | _ => true end
  else if bool_decide (key = "anyOf") then
    match arg with Array l => existsb (fun s => accepts s x) l | _ => true end
  else if bool_decide (key = "oneOf") then
    match arg with Array l => exactly_one (List.map (fun s => accepts s x) l) | _ => true end
  else leaf key arg x.

Lemma accepts_object m x :
  accepts (Object m) x = true <-> forall key arg, (key, arg) ∈ m -> holds m key arg x = true.
Proof.
  transitivity (forallb (fun '(key, arg) => holds m key arg x) m = true); [reflexivity|].
  rewrite forallb_forall. setoid_rewrite list_elem_of_In. split.
  - intros H key arg Hin. exact (H _ Hin).
  - intros H [key arg] Hin. by apply H.
Qed.

Lemma accepts_member m x :
  NoDup m.*1 ->
  accepts (Object m) x = true <-> forall key arg, member key m = Some arg -> holds m key arg x = true.
Proof.
  intros Hd. rewrite accepts_object. split; intros H key arg Hin; apply H.
  - by apply member_in.
  - by apply member_unique.
Qed.

(** The keywords whose meaning is their own. *)
Lemma holds_ext m m' key arg x :
  key <> "type" -> key <> "additionalProperties" -> holds m key arg x = holds m' key arg x.
Proof.
  intros Ht Ha. unfold holds. by rewrite !(bool_decide_eq_false_2 (key = "type")),
    !(bool_decide_eq_false_2 (key = "additionalProperties")) by done.
Qed.

Lemma holds_annotation m key arg x : is_key ANNOTATIONS key = true -> holds m key arg x = true.
Proof. unfold holds. by intros ->. Qed.

Lemma holds_type m arg x : holds m "type" arg x = has_type (nullable m) arg x.
Proof. reflexivity. Qed.

Lemma holds_properties m fields x :
  holds m "properties" (Object fields) x = true
  <-> forall n f y, (n, f) ∈ fields -> Json.get x n = Some y -> accepts f y = true.
Proof.
  change (holds m "properties" (Object fields) x) with
    (forallb (fun '(n, f) => match Json.get x n with Some y => accepts f y | None => true end) fields).
  rewrite forallb_forall. setoid_rewrite list_elem_of_In. split.
  - intros H n f y Hin Hy. specialize (H _ Hin). simpl in H. by rewrite Hy in H.
  - intros H [n f] Hin. destruct (Json.get x n) as [y|] eqn:Hy; [|done]. by apply (H n f y).
Qed.

Lemma in_member n (y : Value) m : (n, y) ∈ m -> is_Some (member n m).
Proof.
  induction m as [|[k w] m IH]; [by intros ?%not_elem_of_nil|]. simpl. intros Hin.
  case_bool_decide as Hk; [by eexists|]. apply elem_of_cons in Hin as [[= -> ->]|Hin]; [done|by apply IH].
Qed.

Lemma holds_closed m x :
  holds m "additionalProperties" (Bool false) x = true
  <-> forall n y, Json.get x n = Some y -> is_Some (member n (properties_of (Object m))).
Proof.
  destruct x as [| | | | |fields]; try by (split; [intros _ n y|]).
  change (holds m "additionalProperties" (Bool false) (Object fields)) with
    (forallb (fun '(n, _) => bool_decide (is_Some (member n (properties_of (Object m)))) || false) fields).
  rewrite forallb_forall. split.
  - intros H n y Hy. apply member_in, list_elem_of_In in Hy. specialize (H _ Hy). simpl in H. rewrite orb_false_r in H.
    by apply bool_decide_eq_true in H.
  - intros H [n y] [y' Hy]%list_elem_of_In%in_member. rewrite orb_false_r. apply bool_decide_eq_true. by eapply H.
Qed.

Lemma holds_all_of m l x :
  holds m "allOf" (Array l) x = true <-> forall s, s ∈ l -> accepts s x = true.
Proof.
  change (holds m "allOf" (Array l) x) with (forallb (fun s => accepts s x) l).
  rewrite forallb_forall. by setoid_rewrite list_elem_of_In.
Qed.

Lemma holds_any_of m l x :
  holds m "anyOf" (Array l) x = true <-> exists s, s ∈ l /\ accepts s x = true.
Proof.
  change (holds m "anyOf" (Array l) x) with (existsb (fun s => accepts s x) l).
  rewrite existsb_exists. by setoid_rewrite list_elem_of_In.
Qed.

Lemma accepts_forbid n fields : accepts (forbid n) (Object fields) = true <-> member n fields = None.
Proof.
  change (accepts (forbid n) (Object fields)) with
    (negb (bool_decide (is_Some (member n fields)) && true && true) && true).
  rewrite !andb_true_r, negb_true_iff, bool_decide_eq_false. symmetry. apply eq_None_not_Some.
Qed.

(** ** What [validation_only] keeps

    Where nothing it touches is negated or counted, dropping keywords only makes a schema accept more. *)

Definition kept (n : string) (w : Value) : bool := bool_decide (constraint_of n w = w).

Fixpoint weakens (s : Value) : bool :=
  match s with
  | Object m =>
      forallb (fun '(n, w) =>
        if is_key STRUCTURAL_KEYS n || is_key ANNOTATIONS n then true
        else if bool_decide (n = "properties") then
          match w with Object fields => forallb (fun '(_, f) => weakens f) fields | _ => true end
        else if bool_decide (n = "items") then weakens w
        else if is_key ["allOf"; "anyOf"] n then
          match w with Array l => forallb weakens l | _ => true end
        else kept n w) m
  | _ => true
  end.

Lemma weakens_accepts s x : weakens s = true -> accepts s x = true -> accepts (validation_only s) x = true.
Proof.
  revert x. induction s as [s IH] using value_size_ind. intros x Hw. destruct s as [| | | | |m]; try done.
  rewrite validation_only_object, !accepts_object. cbn [weakens] in Hw. rewrite forallb_forall in Hw.
  intros Hm n w' Hin'. destruct (in_constraints _ _ _ Hin') as (w & Hin & ->).
  assert (is_key STRUCTURAL_KEYS n = false) as Hs.
  { unfold constraints, retain in Hin'. rewrite list_elem_of_In in Hin'. apply filter_In in Hin' as [_ Hin'].
    by apply negb_true_iff. }
  specialize (Hm n w Hin). pose proof (size_object _ _ _ Hin) as Hsz. rewrite list_elem_of_In in Hin.
  specialize (Hw _ Hin). cbn beta iota in Hw. rewrite Hs in Hw. cbn [orb] in Hw.
  destruct (is_key ANNOTATIONS n) eqn:Ha; [by apply holds_annotation|].
  rewrite (holds_ext _ m) by (intros ->; discriminate Hs).
  case_bool_decide as Hp; [|case_bool_decide as Hi; [|destruct (is_key ["allOf"; "anyOf"] n) eqn:Hc]].
  - subst. destruct w as [| | | | |fields]; try done.
    change (constraint_of "properties" (Object fields)) with
      (Object ((fun '(n, field) => (n, validation_only field)) <$> fields)).
    rewrite holds_properties in *. rewrite forallb_forall in Hw.
    intros k f' y ([k' f] & [= -> ->] & Hf)%list_elem_of_fmap Hy.
    pose proof (size_object _ _ _ Hf). apply IH; [lia| |by eapply Hm].
    rewrite list_elem_of_In in Hf. exact (Hw _ Hf).
  - subst. change (constraint_of "items" w) with (validation_only w).
    destruct x as [| | | |l|]; try done.
    change (forallb (accepts w) l = true) in Hm. change (forallb (accepts (validation_only w)) l = true).
    rewrite forallb_forall in *. intros y Hy. apply IH; [lia|done|auto].
  - assert (n = "allOf" \/ n = "anyOf") as Hn by (apply bool_decide_eq_true in Hc; set_solver).
    destruct w as [| | | |l|]; try by destruct Hn as [-> | ->].
    assert (forall s, s ∈ l -> accepts s x = true -> accepts (validation_only s) x = true) as Hl.
    { intros s Hsl. pose proof (size_array _ _ Hsl). apply IH; [lia|]. rewrite forallb_forall in Hw.
      by apply Hw, list_elem_of_In. }
    destruct Hn as [-> | ->].
    + change (constraint_of "allOf" (Array l)) with (Array (validation_only <$> l)).
      rewrite holds_all_of in *. intros s' (s & -> & Hsl)%list_elem_of_fmap. auto.
    + change (constraint_of "anyOf" (Array l)) with (Array (validation_only <$> l)).
      rewrite holds_any_of in *. destruct Hm as (s & Hsl & Hx). exists (validation_only s).
      split; [by apply list_elem_of_fmap_2|auto].
  - apply bool_decide_eq_true in Hw. by rewrite Hw.
Qed.

(** ** What [merge_property] keeps *)

(** A schema of a scalar: a type, constraints, documentation. *)
Definition FLAT_KEYS : list string :=
  ["type"; "enum"; "const"; "minLength"; "maxLength"; "pattern"; "title"; "description"; "default"].

Definition flat (s : Value) : bool :=
  match s with
  | Object m =>
      bool_decide (NoDup m.*1) && forallb (is_key FLAT_KEYS) m.*1 && bool_decide (is_Some (member "type" m))
  | _ => false
  end.

Record Flat (m : list (string * Value)) : Prop := {
  flat_nodup : NoDup m.*1;
  flat_keys k : is_Some (member k m) -> is_key FLAT_KEYS k = true;
  flat_type : is_Some (member "type" m);
}.

Lemma in_keys k (m : list (string * Value)) : k ∈ m.*1 <-> is_Some (member k m).
Proof.
  split.
  - intros ([k' w] & -> & Hin)%list_elem_of_fmap. by eapply in_member.
  - intros [w Hw%member_in]. apply list_elem_of_fmap. by exists (k, w).
Qed.

Lemma flat_object m : flat (Object m) = true <-> Flat m.
Proof.
  cbn [flat]. rewrite !andb_true_iff, !bool_decide_eq_true, forallb_forall. split.
  - intros [[Hd Hk] Ht]. split; [done| |done]. intros k Hm. by apply Hk, list_elem_of_In, in_keys.
  - intros [Hd Hk Ht]. split_and!; [done| |done]. intros k Hin. apply Hk, in_keys. by apply list_elem_of_In.
Qed.

(** [a] has the type of [m] and only constraints of [m]. *)
Definition weaker (a m : list (string * Value)) : Prop :=
  member "type" a = member "type" m
  /\ forall k w, k ∈ CONSTRAINTS -> member k a = Some w -> member k m = Some w.

Lemma weaker_refl m : weaker m m.
Proof. done. Qed.

Lemma weaker_trans a b c : weaker a b -> weaker b c -> weaker a c.
Proof. intros [T1 K1] [T2 K2]. split; [congruence|eauto]. Qed.

Lemma member_drop k w a b :
  member k (drop_differing a b) = Some w ->
  member k a = Some w /\ (k ∈ CONSTRAINTS -> member k b = Some w).
Proof.
  unfold drop_differing. generalize CONSTRAINTS. intros keys. revert a.
  induction keys as [|k0 keys IH]; intros a; cbn [foldl]; [intros Hm; split; [done|by intros ?%not_elem_of_nil]|].
  intros [Hm Hk]%IH. case_bool_decide as Heq.
  - split; [done|]. intros [->|?]%elem_of_cons; [congruence|auto].
  - rewrite member_remove in Hm. case_bool_decide; [done|]. split; [done|]. intros [->|?]%elem_of_cons; [done|auto].
Qed.

Lemma member_drop_other k a b : k ∉ CONSTRAINTS -> member k (drop_differing a b) = member k a.
Proof.
  unfold drop_differing. generalize CONSTRAINTS. intros keys. revert a.
  induction keys as [|k0 keys IH]; intros a; cbn [foldl]; [done|]. rewrite not_elem_of_cons. intros [Hk Hks].
  rewrite IH by done. case_bool_decide; [done|]. rewrite member_remove. by case_bool_decide.
Qed.

Lemma drop_nodup a b : NoDup a.*1 -> NoDup (drop_differing a b).*1.
Proof.
  unfold drop_differing. generalize CONSTRAINTS. intros keys. revert a.
  induction keys as [|k0 keys IH]; intros a Ha; cbn [foldl]; [done|]. apply IH.
  case_bool_decide; [done|by apply keys_remove_nodup].
Qed.

Lemma merge_flat a b c :
  Flat a -> Flat b -> merge_property (Object a) (Object b) = Some c ->
  exists m, c = Object m /\ Flat m /\ weaker m a /\ weaker m b.
Proof.
  intros Ha Hb. rewrite merge_property_eq. case_bool_decide as Heq.
  { intros [= <-]. injection Heq as ->. by exists b. }
  unfold merge_type. destruct (flat_type _ Ha) as [t Ht]. destruct (flat_type _ Hb) as [t' Ht'].
  rewrite Ht, Ht'. case_bool_decide as Htt; [|done]. subst t'. cbn [mbind option_bind].
  destruct (member "properties" b) eqn:Hp.
  { assert (is_key FLAT_KEYS "properties" = true) as Hno; [|discriminate Hno]. apply (flat_keys _ Hb). eauto. }
  intros [= <-]. eexists. split; [done|].
  assert (member "type" (drop_differing a b) = Some t) as Hd by (by rewrite member_drop_other by set_solver).
  split; [split|split; split].
  - apply drop_nodup, Ha.
  - intros k [w [Hm _]%member_drop]. apply (flat_keys _ Ha). eauto.
  - by rewrite Hd.
  - congruence.
  - intros k w _ Hm. by apply member_drop in Hm as [? _].
  - congruence.
  - intros k w Hk Hm. apply member_drop in Hm as [_ Hm]. auto.
Qed.

Lemma flat_leaf k : is_key FLAT_KEYS k = true ->
  k = "type" \/ is_key ANNOTATIONS k = true
  \/ (k ∈ CONSTRAINTS /\ is_key STRUCTURAL_KEYS k = false /\ forall w, constraint_of k w = w).
Proof.
  intros Hk%bool_decide_eq_true. unfold FLAT_KEYS in Hk. rewrite !elem_of_cons in Hk.
  destruct Hk as [->|[->|[->|[->|[->|[->|[->|[->|[->|[]%not_elem_of_nil]]]]]]]]];
    [by left|right; right|right; right|right; right|right; right|right; right|by right; left|by right; left|by right; left];
    (split; [set_solver|done]).
Qed.

Lemma flat_nullable m : Flat m -> nullable m = false.
Proof.
  intros Hm. apply bool_decide_eq_false. intros Hn.
  assert (is_key FLAT_KEYS "nullable" = true) as Hno; [|discriminate Hno]. apply (flat_keys _ Hm). eauto.
Qed.

Lemma weaker_accepts a m y :
  Flat a -> Flat m -> weaker a m -> accepts (Object m) y = true -> accepts (Object a) y = true.
Proof.
  intros Ha Hm [Ht Hk]. rewrite !accepts_member by apply flat_nodup, Ha || apply flat_nodup, Hm.
  intros Hacc k w Hkw.
  destruct (flat_leaf k) as [->|[Han|(Hc & _ & _)]]; [apply (flat_keys _ Ha); eauto|..].
  - rewrite holds_type, flat_nullable by done. rewrite Ht in Hkw. specialize (Hacc _ _ Hkw).
    by rewrite holds_type, flat_nullable in Hacc.
  - by apply holds_annotation.
  - rewrite (holds_ext _ m) by (intros ->; set_solver). apply Hacc. by apply Hk.
Qed.

Lemma weaker_constraints a m y :
  Flat a -> Flat m -> weaker a m -> accepts (Object a) y = true ->
  accepts (validation_only (Object m)) y = accepts (Object m) y.
Proof.
  intros Ha Hm [Ht Hk] Hacc. apply eq_true_iff_eq. rewrite validation_only_object.
  rewrite accepts_object, (accepts_member m) by apply Hm.
  rewrite accepts_member in Hacc by apply Ha. split; intros Hsub k w Hkw.
  - destruct (flat_leaf k) as [->|[Han|(Hc & Hs & Hco)]]; [apply (flat_keys _ Hm); eauto|..].
    + rewrite <-Ht in Hkw. specialize (Hacc _ _ Hkw). by rewrite holds_type, flat_nullable in *.
    + by apply holds_annotation.
    + rewrite (holds_ext _ (constraints m)) by (intros ->; set_solver). apply Hsub, member_in.
      rewrite member_constraints, Hs, Hkw. cbn. by rewrite Hco.
  - destruct (in_constraints _ _ _ Hkw) as (w0 & Hin & ->). apply member_unique in Hin; [|apply Hm].
    destruct (flat_leaf k) as [->|[Han|(Hc & Hs & Hco)]]; [apply (flat_keys _ Hm); eauto|..].
    + exfalso. apply in_member in Hkw. rewrite member_constraints in Hkw. by destruct Hkw.
    + by apply holds_annotation.
    + rewrite Hco. rewrite (holds_ext _ m) by (intros ->; set_solver). by apply Hsub.
Qed.

(** *** Several alternatives *)

(** Schemas of one property that merge without losing what they demand together. *)
Definition compatible (s s' : Value) : bool := bool_decide (s = s') || (flat s && flat s').

(** [M] is the merge of the schemas [seen], of which there is at least one. *)
Definition summary (M : Value) (seen : list Value) : Prop :=
  seen <> []
  /\ ((forall s, s ∈ seen -> s = M)
      \/ exists a, M = Object a /\ Flat a
          /\ forall s, s ∈ seen -> exists m, s = Object m /\ Flat m /\ weaker a m).

Lemma merge_same s : merge_property s s = Some s.
Proof. rewrite merge_property_eq. by rewrite bool_decide_eq_true_2. Qed.

Lemma flat_inv s : flat s = true -> exists m, s = Object m /\ Flat m.
Proof. destruct s as [| | | | |m]; try done. intros Hs%flat_object. eauto. Qed.

Lemma summary_merge M seen s c :
  summary M seen -> (forall s', s' ∈ seen -> compatible s' s = true) -> merge_property M s = Some c ->
  summary c (seen ++ [s])%list.
Proof.
  intros [Hne Hsum] Hcomp Hmerge. split; [by destruct seen|].
  destruct Hsum as [Hall|(a & -> & Ha & Hall)].
  - destruct seen as [|s0 seen]; [done|]. pose proof (Hall s0 (list_elem_of_here _ _)) as ->.
    specialize (Hcomp M (list_elem_of_here _ _)). apply orb_true_iff in Hcomp as [->%bool_decide_eq_true|Hflat].
    + rewrite merge_same in Hmerge. injection Hmerge as <-. left. intros s' [?|?%list_elem_of_singleton]%elem_of_app; auto.
    + apply andb_true_iff in Hflat as [(a & -> & Ha)%flat_inv (m & -> & Hm)%flat_inv].
      destruct (merge_flat _ _ _ Ha Hm Hmerge) as (m' & -> & Hm' & Hwa & Hwm). right. exists m'. split_and!; [done..|].
      intros s' [Hs'%Hall|Hs'%list_elem_of_singleton]%elem_of_app; subst s'; eauto.
  - assert (flat s = true) as (m & -> & Hm)%flat_inv.
    { destruct seen as [|s0 seen]; [done|]. destruct (Hall s0 (list_elem_of_here _ _)) as (m0 & -> & Hm0 & _).
      specialize (Hcomp _ (list_elem_of_here _ _)). apply orb_true_iff in Hcomp as [<-%bool_decide_eq_true|Hflat].
      - by apply flat_object.
      - by apply andb_true_iff in Hflat as [_ ?]. }
    destruct (merge_flat _ _ _ Ha Hm Hmerge) as (m' & -> & Hm' & Hwa & Hwm). right. exists m'. split_and!; [done..|].
    intros s' [(m0 & -> & Hm0 & Hw)%Hall|Hs'%list_elem_of_singleton]%elem_of_app; [|by subst s'; eauto].
    exists m0. split_and!; [done..|]. exact (weaker_trans _ _ _ Hwa Hw).
Qed.

(** What the merge accepts includes what each schema accepts, and decides the type for each. *)
Lemma summary_accepts M seen s y :
  summary M seen -> s ∈ seen -> accepts s y = true -> accepts M y = true.
Proof.
  intros [_ [Hall|(a & -> & Ha & Hall)]] Hs; [by rewrite (Hall s Hs)|].
  destruct (Hall s Hs) as (m & -> & Hm & Hw). by apply weaker_accepts.
Qed.

Lemma summary_constraints M seen s y :
  summary M seen -> s ∈ seen -> weakens s = true -> accepts M y = true ->
  accepts (validation_only s) y = accepts s y.
Proof.
  intros [_ [Hall|(a & -> & Ha & Hall)]] Hs Hw Hacc.
  - rewrite (Hall s Hs) in *. rewrite Hacc. by apply weakens_accepts.
  - destruct (Hall s Hs) as (m & -> & Hm & Hwk). by apply (weaker_constraints a).
Qed.

(** One step of the merge, at one name. *)
Definition merged_with (old new : option Value) (r : option Value) : Prop :=
  match old, new with
  | Some e, Some f => exists c, merge_property e f = Some c /\ r = Some c
  | None, o | o, None => r = o
  end.

Lemma merged_with_none o : merged_with o None o.
Proof. by destruct o. Qed.

Lemma add_fields_member fields p r n :
  NoDup fields.*1 -> add_fields fields p = Some r -> merged_with (member n p) (member n fields) (member n r).
Proof.
  revert p. induction fields as [|[k f] fields IH]; intros p Hd; cbn [add_fields].
  { intros [= <-]. apply merged_with_none. }
  apply NoDup_cons in Hd as [Hk Hd]. change (k ∉ fields.*1) in Hk.
  assert (forall c, add_fields fields (insert k c p) = Some r ->
    (n = k -> member n r = Some c) /\ (n <> k -> merged_with (member n p) (member n fields) (member n r))) as Hstep.
  { intros c Hr. specialize (IH _ Hd Hr). rewrite member_insert in IH. split; [intros ->|intros Hn].
    - rewrite bool_decide_eq_true_2 in IH by done. destruct (member k fields) eqn:E; [|done].
      destruct Hk. apply in_keys. eauto.
    - by rewrite bool_decide_eq_false_2 in IH. }
  cbn [member]. destruct (member k p) as [e|] eqn:Ep.
  - destruct (merge_property e f) as [c|] eqn:Ec; [|done]. cbn [mbind option_bind]. intros [Heq Hne]%Hstep.
    case_bool_decide as Hn; [|by apply Hne]. subst. rewrite Ep. exists c. auto.
  - intros [Heq Hne]%Hstep. case_bool_decide as Hn; [|by apply Hne]. subst. rewrite Ep. by apply Heq.
Qed.

(** The schemas the alternatives declare for a name. *)
Definition declared (n : string) (branches : list Value) : list Value :=
  omap (fun b => member n (properties_of b)) branches.

Definition tracks (o : option Value) (seen : list Value) : Prop :=
  match o with None => seen = [] | Some M => summary M seen end.

Lemma add_branches_tracks n branches p r seen :
  Forall (fun b => NoDup (properties_of b).*1) branches ->
  (forall s s', s ∈ (seen ++ declared n branches)%list -> s' ∈ (seen ++ declared n branches)%list ->
     compatible s s' = true) ->
  tracks (member n p) seen -> add_branches branches p = Some r ->
  tracks (member n r) (seen ++ declared n branches)%list.
Proof.
  revert p seen. induction branches as [|b branches IH]; intros p seen Hd Hc Ht; cbn [add_branches].
  { intros [= <-]. by rewrite app_nil_r. }
  apply Forall_cons in Hd as [Hb Hd]. destruct (add_fields (properties_of b) p) as [p'|] eqn:Ep; [|done].
  cbn [mbind option_bind]. intros Hr. pose proof (add_fields_member _ _ _ n Hb Ep) as Hm.
  unfold declared in *. cbn [omap list_omap] in *. destruct (member n (properties_of b)) as [f|].
  - specialize (IH p' (seen ++ [f])%list). rewrite <-app_assoc in IH. apply IH; [done|done| |done].
    destruct (member n p) as [e|]; cbn [merged_with tracks] in *.
    + destruct Hm as (c & Hmerge & ->). eapply summary_merge; [done| |done]. intros s' Hs'.
      apply Hc; [apply elem_of_app; by left|apply elem_of_app; right; apply list_elem_of_here].
    + rewrite Hm. subst seen. split; [done|]. left. by intros s Hs%list_elem_of_singleton.
  - apply (IH p'); [done|done| |done]. unfold merged_with in Hm. destruct (member n p); by rewrite Hm.
Qed.

Lemma add_fields_nodup fields p r : NoDup p.*1 -> add_fields fields p = Some r -> NoDup r.*1.
Proof.
  revert p. induction fields as [|[k f] fields IH]; intros p Hp; cbn [add_fields]; [by intros [= <-]|].
  destruct (member k p); [destruct (merge_property _ _); [|done]|]; apply IH; by apply keys_insert_nodup.
Qed.

Lemma add_branches_nodup branches p r : NoDup p.*1 -> add_branches branches p = Some r -> NoDup r.*1.
Proof.
  revert p. induction branches as [|b branches IH]; intros p Hp; cbn [add_branches]; [by intros [= <-]|].
  destruct (add_fields _ _) as [p'|] eqn:E; [|done]. apply IH. by eapply add_fields_nodup.
Qed.

(** ** Hoisting a union *)

(** The alternatives that [hoist] keeps the meaning of. Every alternative is an object schema whose
    own keywords [validation_only] leaves alone; its properties are declared beside the union, or
    are compatible with those of the same name in other alternatives. *)
Definition object_typed (m : list (string * Value)) : bool :=
  match member "type" m with None => true | Some t => bool_decide (t = Str "object") end.

Definition field_ok (base : list (string * Value)) (n : string) (s : Value) : bool :=
  match member n base with Some _ => bool_decide (validation_only s = s) | None => weakens s end.

Definition keyword_ok (n : string) (w : Value) : bool :=
  is_key STRUCTURAL_KEYS n || is_key ANNOTATIONS n
  || (if bool_decide (n = "properties") then is_object w else kept n w).

Definition closed_or_open (m : list (string * Value)) : bool :=
  match member "additionalProperties" m with None => true | Some w => bool_decide (w = Bool false) end.

Definition branch_ok (base : list (string * Value)) (b : Value) : bool :=
  match b with
  | Object m =>
      bool_decide (NoDup m.*1) && object_typed m && closed_or_open m
      && forallb (fun '(n, w) => keyword_ok n w) m
      && bool_decide (NoDup (properties_of b).*1)
      && forallb (fun '(n, s) => field_ok base n s) (properties_of b)
  | _ => false
  end.

Record BranchOk (base m : list (string * Value)) : Prop := {
  branch_nodup : NoDup m.*1;
  branch_typed : object_typed m = true;
  branch_closed : closed_or_open m = true;
  branch_keyword n w : member n m = Some w -> keyword_ok n w = true;
  branch_fields_nodup : NoDup (properties_of (Object m)).*1;
  branch_field n s : (n, s) ∈ properties_of (Object m) -> field_ok base n s = true;
}.

Lemma branch_ok_inv base b : branch_ok base b = true -> exists m, b = Object m /\ BranchOk base m.
Proof.
  destruct b as [| | | | |m]; try done. cbn [branch_ok]. rewrite !andb_true_iff, !bool_decide_eq_true, !forallb_forall.
  intros (((((Hd & Ht) & Hc) & Hk) & Hf) & Hs). exists m. split; [done|]. split; try done.
  - intros n w Hw%member_in. rewrite list_elem_of_In in Hw. exact (Hk _ Hw).
  - intros n s Hin. rewrite list_elem_of_In in Hin. exact (Hs _ Hin).
Qed.

(** A field an alternative does not take is not in [x]. *)
Definition shuts (names : list string) (b x : Value) : Prop :=
  forall n, n ∈ names -> member n (properties_of b) = None -> Json.get x n = None.

Lemma forbidden_accepts names b fields :
  (forall s, s ∈ forbidden names b -> accepts s (Object fields) = true)
  <-> (Json.get b "additionalProperties" = Some (Bool false) -> shuts names b (Object fields)).
Proof.
  unfold forbidden. case_bool_decide as Hc.
  - split.
    + intros H _ n Hn Hm. change (member n fields = None). rewrite <-accepts_forbid. apply H.
      apply list_elem_of_fmap_2. rewrite list_elem_of_In. apply filter_In. rewrite <-list_elem_of_In.
      split; [done|by apply bool_decide_eq_true].
    + intros H s (n & -> & Hin)%list_elem_of_fmap. rewrite list_elem_of_In in Hin.
      apply filter_In in Hin as [Hn Hm%bool_decide_eq_true]. rewrite <-list_elem_of_In in Hn.
      apply accepts_forbid. by apply (H Hc).
  - split; [by intros _|]. by intros _ s ?%not_elem_of_nil.
Qed.

Lemma forbidden_kept names b : validation_only <$> forbidden names b = forbidden names b.
Proof.
  unfold forbidden. case_bool_decide; [|done]. rewrite <-list_fmap_compose. apply list_fmap_ext. done.
Qed.

Section Branch.
Context (base properties : list (string * Value)) (m : list (string * Value)).
Hypothesis Hok : BranchOk base m.
(** The merged properties decide the types of the alternative's own. *)
Hypothesis Hconstraints : forall n s M y,
  (n, s) ∈ properties_of (Object m) -> member n properties = Some M -> accepts M y = true ->
  accepts (validation_only s) y = accepts s y.

(** An object whose fields are declared and have the types declared for them. *)
Definition structured (x : Value) : Prop :=
  is_object x = true
  /\ forall n y, Json.get x n = Some y -> exists M, member n properties = Some M /\ accepts M y = true.

Lemma object_type x : object_typed m = true -> is_object x = true ->
  forall w, member "type" m = Some w -> has_type (nullable m) w x = true.
Proof.
  unfold object_typed. intros Ht Hx w Hw. rewrite Hw in Ht. apply bool_decide_eq_true in Ht as ->.
  by destruct x.
Qed.

(** The alternative without the keywords that the structural part takes over. *)
Lemma constraints_accepts x :
  structured x ->
  accepts (Object (constraints m)) x = true
  /\ (Json.get (Object m) "additionalProperties" = Some (Bool false) -> shuts properties.*1 (Object m) x)
  <-> accepts (Object m) x = true.
Proof.
  intros [Hx Hs]. rewrite accepts_object, accepts_member by apply Hok. split.
  - intros [Hc Hshut] n w Hw. pose proof (branch_keyword _ _ Hok _ _ Hw) as Hk. unfold keyword_ok in Hk.
    destruct (is_key ANNOTATIONS n) eqn:Ha; [by apply holds_annotation|].
    destruct (is_key STRUCTURAL_KEYS n) eqn:Hst.
    + assert (n = "type" \/ n = "additionalProperties") as [->| ->].
      { apply bool_decide_eq_true in Hst. apply bool_decide_eq_false in Ha. set_solver. }
      * rewrite holds_type. apply object_type; [apply Hok|done|done].
      * pose proof (branch_closed _ _ Hok) as Hcl. unfold closed_or_open in Hcl. rewrite Hw in Hcl.
        apply bool_decide_eq_true in Hcl as ->. apply holds_closed. intros k y Hy.
        destruct (Hs k y Hy) as (M & HM & _). destruct (member k (properties_of (Object m))) eqn:E; [eauto|].
        rewrite (Hshut Hw k) in Hy; [done| |done]. apply in_keys. eauto.
    + cbn [orb] in Hk. assert ((n, constraint_of n w) ∈ constraints m) as Hin.
      { apply member_in. by rewrite member_constraints, Hst, Hw. }
      specialize (Hc _ _ Hin). rewrite (holds_ext _ (constraints m)) by (intros ->; discriminate Hst).
      case_bool_decide as Hp; [|apply bool_decide_eq_true in Hk; by rewrite Hk in Hc].
      subst n. destruct w as [| | | | |fields]; try done.
      change (constraint_of "properties" (Object fields)) with
        (Object ((fun '(n, field) => (n, validation_only field)) <$> fields)) in Hc.
      rewrite holds_properties in *. intros k f y Hf Hy. destruct (Hs k y Hy) as (M & HM & HMy).
      assert ((k, f) ∈ properties_of (Object m)) as Hf' by (unfold properties_of, Json.get; simpl; by rewrite Hw).
      rewrite <-(Hconstraints k f M y) by done. apply (Hc k _ y); [|done].
      apply list_elem_of_fmap. by exists (k, f).
  - intros Hm. split.
    + intros n w' Hin'. destruct (in_constraints _ _ _ Hin') as (w & Hin & ->).
      apply member_unique in Hin; [|apply Hok]. specialize (Hm _ _ Hin).
      pose proof (branch_keyword _ _ Hok _ _ Hin) as Hk. unfold keyword_ok in Hk.
      apply in_member in Hin'. rewrite member_constraints in Hin'.
      destruct (is_key STRUCTURAL_KEYS n) eqn:Hst; [by destruct Hin'|].
      destruct (is_key ANNOTATIONS n) eqn:Ha; [by apply holds_annotation|]. cbn [orb] in Hk.
      rewrite (holds_ext _ m) by (intros ->; discriminate Hst).
      case_bool_decide as Hp; [|apply bool_decide_eq_true in Hk; by rewrite Hk].
      subst n. destruct w as [| | | | |fields]; try done.
      change (constraint_of "properties" (Object fields)) with
        (Object ((fun '(n, field) => (n, validation_only field)) <$> fields)).
      rewrite holds_properties in *. intros k f' y ([k' f] & [= -> ->] & Hf)%list_elem_of_fmap Hy.
      destruct (Hs _ y Hy) as (M & HM & HMy).
      assert ((k', f) ∈ properties_of (Object m)) as Hf' by (unfold properties_of, Json.get; simpl; by rewrite Hin).
      rewrite (Hconstraints k' f M y) by done. by eapply Hm.
    + intros Hcl n Hn Hno. specialize (Hm "additionalProperties" (Bool false) Hcl). rewrite holds_closed in Hm.
      destruct (Json.get x n) as [y|] eqn:Hy; [|done]. destruct (Hm n y Hy) as [? ?]. congruence.
Qed.

Lemma constraints_nodup (c : list (string * Value)) : NoDup c.*1 -> NoDup (constraints c).*1.
Proof.
  intros Hd. apply keys_retain_nodup.
  assert (((fun '(n, w) => (n, constraint_of n w)) <$> c).*1 = c.*1) as ->; [|done].
  rewrite <-list_fmap_compose. apply list_fmap_ext. by intros i [n w] _.
Qed.

(** The constraints with more alternatives to satisfy at once. *)
Lemma constraints_all_of l more x :
  match member "allOf" m with None => l = [] | Some w => w = Array l end ->
  validation_only <$> more = more ->
  accepts (Object (constraints (insert "allOf" (Array (l ++ more)%list) m))) x = true
  <-> accepts (Object (constraints m)) x = true /\ forall s, s ∈ more -> accepts s x = true.
Proof.
  intros Hl Hmore.
  assert (constraint_of "allOf" (Array (l ++ more)%list) = Array (l ++ more)%list) as Hco.
  { change (Array (validation_only <$> (l ++ more)%list) = Array (l ++ more)%list). rewrite fmap_app, Hmore.
    do 2 f_equal. destruct (member "allOf" m) as [w|] eqn:E; [|by subst]. subst w.
    pose proof (branch_keyword _ _ Hok _ _ E) as Hk%bool_decide_eq_true. by injection Hk. }
  assert (forall n w, member n (constraints m) = Some w -> n <> "type" /\ n <> "additionalProperties") as Hno.
  { intros n w Hw. rewrite member_constraints in Hw. split; intros ->; discriminate Hw. }
  rewrite !accepts_member by (apply constraints_nodup; try apply keys_insert_nodup; apply Hok).
  assert (forall n, member n (constraints (insert "allOf" (Array (l ++ more)%list) m))
    = if bool_decide ("allOf" = n) then Some (Array (l ++ more)%list) else member n (constraints m)) as Hmem.
  { intros n. rewrite !member_constraints, member_insert. case_bool_decide; [|done]. subst n. cbn. by rewrite Hco. }
  setoid_rewrite Hmem. split.
  - intros H. pose proof (H "allOf" _ eq_refl) as Hall. rewrite holds_all_of in Hall. split.
    + intros n w Hw. destruct (Hno _ _ Hw) as [Ht Ha]. rewrite (holds_ext _ (constraints (insert "allOf" (Array (l ++ more)%list) m))) by done.
      destruct (decide ("allOf" = n)) as [<-|Hn]; [|apply H; by rewrite bool_decide_eq_false_2].
      rewrite member_constraints in Hw. cbn in Hw. destruct (member "allOf" m) as [w0|] eqn:E; [|done]. subst w0.
      injection Hw as <-. pose proof (branch_keyword _ _ Hok _ _ E) as Hk%bool_decide_eq_true.
      rewrite Hk. apply holds_all_of. intros s Hs. apply Hall, elem_of_app. by left.
    + intros s Hs. apply Hall, elem_of_app. by right.
  - intros [H Hm] n w Hw. case_bool_decide as Hn.
    + subst n. injection Hw as <-. apply holds_all_of. intros s [Hs|Hs]%elem_of_app; [|by apply Hm].
      destruct (member "allOf" m) as [w0|] eqn:E; [subst w0|subst l; by apply not_elem_of_nil in Hs].
      pose proof (branch_keyword _ _ Hok _ _ E) as Hk%bool_decide_eq_true.
      specialize (H "allOf" (Array l)). rewrite member_constraints, E in H. cbn in H. rewrite Hk in H.
      specialize (H eq_refl). rewrite holds_all_of in H. by apply H.
    + destruct (Hno _ _ Hw). rewrite (holds_ext _ (constraints m)) by done. by apply H.
Qed.

(** An alternative's rule accepts what the alternative accepts, of what the structural part accepts. *)
Lemma rule_accepts x r :
  structured x -> rule_of properties.*1 (Object m) = Some r -> accepts r x = accepts (Object m) x.
Proof.
  intros Hx. unfold rule_of. set (more := forbidden properties.*1 (Object m)).
  destruct (extend_all_of more (Object m)) as [b'|] eqn:E; [|done]. intros [= <-].
  assert (accepts (validation_only b') x = true
    <-> accepts (Object (constraints m)) x = true /\ forall s, s ∈ more -> accepts s x = true) as Hb'.
  { unfold extend_all_of in E. destruct more as [|s more'] eqn:Em.
    - injection E as <-. rewrite validation_only_object. split; [|by intros [? _]]. intros H. split; [done|].
      by intros ? ?%not_elem_of_nil.
    - rewrite <-Em in *. cbn [as_object mbind option_bind] in E.
      assert (validation_only <$> more = more) as Hmore by apply forbidden_kept.
      destruct (member "allOf" m) as [w|] eqn:Ew; cbn [mbind option_bind] in E.
      + destruct w as [| | | |l|]; try discriminate E. injection E as <-. rewrite validation_only_object.
        apply constraints_all_of; [|done]. by rewrite Ew.
      + injection E as <-. rewrite validation_only_object. apply (constraints_all_of []); [|done]. by rewrite Ew. }
  change (accepts (Object [("allOf", Array [validation_only b'])]) x) with
    (accepts (validation_only b') x && true && true). rewrite !andb_true_r. apply eq_true_iff_eq.
  rewrite Hb', <-(constraints_accepts x Hx). destruct Hx as [Hobj _]. destruct x as [| | | | |fields]; try done.
  by rewrite <-forbidden_accepts.
Qed.
End Branch.

Definition beside (m : list (string * Value)) (n : string) : bool :=
  bool_decide (is_Some (member n (properties_of (Object m)))).

(** The unions that [hoist] keeps the meaning of, with the properties it hoists. *)
Definition hoistable (m : list (string * Value)) (branches : list Value) (properties : list (string * Value)) : bool :=
  let base := properties_of (Object m) in
  bool_decide (NoDup m.*1) && object_typed m && bool_decide (NoDup base.*1)
  && forallb (branch_ok base) branches
  && forallb (fun '(n, s) => bool_decide (member n properties = Some s)) base
  && forallb (fun n => beside m n
       || forallb (fun s => forallb (compatible s) (declared n branches)) (declared n branches)) properties.*1
  && (bool_decide (member "additionalProperties" m = None) || forallb (beside m) properties.*1).

(** Every alternative takes the fields of the others or forbids them. *)
Definition exhaustive (m : list (string * Value)) (branches : list Value) (properties : list (string * Value)) : bool :=
  forallb (fun b => bool_decide (Json.get b "additionalProperties" = Some (Bool false))
    || forallb (fun n => beside m n || bool_decide (is_Some (member n (properties_of b)))) properties.*1) branches.

Section Hoist.
Context (u : string) (m properties : list (string * Value)) (branches rules : list Value).
Notation base := (properties_of (Object m)).
Hypothesis Hu : u ∈ UNIONS.
Hypothesis Hm : member u m = Some (Array branches).
Hypothesis Hproperties : add_branches branches base = Some properties.
Hypothesis Hrules : mapM (rule_of properties.*1) branches = Some rules.
Hypothesis Hh : hoistable m branches properties = true.

Definition hoisted_object_of : list (string * Value) :=
  insert u (Array rules) (insert "properties" (Object properties) (insert "type" (Str "object") (remove u m))).

Notation m' := hoisted_object_of.

Record Hoistable : Prop := {
  ho_nodup : NoDup m.*1;
  ho_typed : object_typed m = true;
  ho_base : NoDup base.*1;
  ho_branch b : b ∈ branches -> exists bm, b = Object bm /\ BranchOk base bm;
  ho_result n s : member n base = Some s -> member n properties = Some s;
  ho_compatible n s s' : member n base = None -> s ∈ declared n branches -> s' ∈ declared n branches ->
    is_Some (member n properties) -> compatible s s' = true;
  ho_closed w n : member "additionalProperties" m = Some w -> is_Some (member n properties) -> is_Some (member n base);
}.

Lemma hoistable_inv : Hoistable.
Proof.
  pose proof Hh as H. unfold hoistable in H. rewrite !andb_true_iff, !bool_decide_eq_true, !forallb_forall in H.
  destruct H as ((((((Hd & Ht) & Hb) & Hbr) & Hres) & Hcomp) & Hcl). split; try done.
  - intros b Hin%list_elem_of_In. by apply branch_ok_inv, Hbr.
  - intros n s Hs%member_in%list_elem_of_In. specialize (Hres _ Hs). by apply bool_decide_eq_true in Hres.
  - intros n s s' Hn Hs Hs' Hp%in_keys%list_elem_of_In. specialize (Hcomp _ Hp). apply orb_true_iff in Hcomp as [Hb'|Hc].
    { apply bool_decide_eq_true in Hb'. rewrite Hn in Hb'. by destruct Hb'. }
    rewrite forallb_forall in Hc. rewrite list_elem_of_In in Hs, Hs'. specialize (Hc _ Hs).
    rewrite forallb_forall in Hc. by apply Hc.
  - intros w n Hw Hn%in_keys%list_elem_of_In. apply orb_true_iff in Hcl as [Hno%bool_decide_eq_true|Hall]; [congruence|].
    rewrite forallb_forall in Hall. specialize (Hall _ Hn). by apply bool_decide_eq_true in Hall.
Qed.

Lemma union_keys : u <> "properties" /\ u <> "type" /\ u <> "additionalProperties" /\ is_key ANNOTATIONS u = false.
Proof. unfold UNIONS in Hu. apply elem_of_cons in Hu as [->| ->%list_elem_of_singleton]; done. Qed.

Lemma member_hoisted k : member k m'
  = if bool_decide (u = k) then Some (Array rules)
    else if bool_decide ("properties" = k) then Some (Object properties)
    else if bool_decide ("type" = k) then Some (Str "object") else member k m.
Proof.
  unfold hoisted_object_of. rewrite !member_insert, member_remove. destruct (bool_decide (u = k)) eqn:E; [done|].
  repeat case_match; try done. apply bool_decide_eq_false in E. apply bool_decide_eq_true in H1. congruence.
Qed.

Lemma hoisted_nodup : NoDup m'.*1.
Proof. unfold hoisted_object_of. repeat apply keys_insert_nodup. apply keys_remove_nodup, hoistable_inv. Qed.

Lemma properties_hoisted : properties_of (Object m') = properties.
Proof.
  destruct union_keys as (Hp & _). unfold properties_of, Json.get. cbn [as_object mbind option_bind].
  rewrite member_hoisted, bool_decide_eq_false_2 by done. reflexivity.
Qed.

Lemma properties_summary n M :
  member n base = None -> member n properties = Some M -> summary M (declared n branches).
Proof.
  intros Hn HM. pose proof hoistable_inv as HI.
  assert (tracks (member n properties) ([] ++ declared n branches)%list) as Ht; [|by rewrite HM in Ht].
  apply (add_branches_tracks n branches base); [| |by rewrite Hn|done].
  - apply Forall_forall. intros b Hb. destruct (ho_branch HI b Hb) as (bm & -> & Hok). apply Hok.
  - intros s s' Hs Hs'. eapply (ho_compatible HI); eauto.
Qed.

Lemma in_declared b n s : b ∈ branches -> member n (properties_of b) = Some s -> s ∈ declared n branches.
Proof. intros Hb Hs. apply list_elem_of_omap. eauto. Qed.

Lemma hoist_constraints bm n s M y :
  Object bm ∈ branches -> (n, s) ∈ properties_of (Object bm) -> member n properties = Some M ->
  accepts M y = true -> accepts (validation_only s) y = accepts s y.
Proof.
  intros Hb Hs HM Hy. destruct (ho_branch hoistable_inv _ Hb) as (? & [= <-] & Hok).
  pose proof (branch_field _ _ Hok _ _ Hs) as Hf. unfold field_ok in Hf.
  destruct (member n base) as [s0|] eqn:En; [apply bool_decide_eq_true in Hf; by rewrite Hf|].
  eapply summary_constraints; [by apply properties_summary| |done|done].
  eapply in_declared; [done|]. apply member_unique; [apply Hok|done].
Qed.

Lemma structured_rules x : structured properties x -> (fun s => accepts s x) <$> rules = (fun s => accepts s x) <$> branches.
Proof.
  intros Hx. pose proof (mapM_Some_1 _ _ _ Hrules) as Hr. pose proof (ho_branch hoistable_inv) as Hb.
  assert (forall bm, Object bm ∈ branches -> forall n s M y, (n, s) ∈ properties_of (Object bm) ->
    member n properties = Some M -> accepts M y = true -> accepts (validation_only s) y = accepts s y) as Hc.
  { intros bm Hin n s M y. by apply hoist_constraints. }
  clear -Hx Hr Hb Hc. induction Hr as [|b r branches rules Hrule _ IH]; [done|]. cbn. f_equal.
  - destruct (Hb b (list_elem_of_here _ _)) as (bm & -> & Hok). eapply (rule_accepts base); try done.
    intros n s M y. apply Hc, list_elem_of_here.
  - apply IH; [|intros bm Hin]; [intros b' Hin; by apply Hb, list_elem_of_further|by apply Hc, list_elem_of_further].
Qed.

Lemma structured_union x : structured properties x -> holds m' u (Array rules) x = holds m u (Array branches) x.
Proof.
  intros Hx. destruct union_keys as (_ & Ht & Ha & _). rewrite (holds_ext m' m) by done.
  apply structured_rules in Hx. unfold UNIONS in Hu. apply elem_of_cons in Hu as [->|Hu'%list_elem_of_singleton].
  - change (exactly_one ((fun s => accepts s x) <$> rules) = exactly_one ((fun s => accepts s x) <$> branches)).
    by rewrite Hx.
  - subst u. change (existsb (fun s => accepts s x) rules = existsb (fun s => accepts s x) branches).
    clear -Hx. revert branches Hx. induction rules as [|r rs IH]; intros [|b bs]; try done.
    cbn. intros [= Hr Hrs]. rewrite Hr. f_equal. by apply IH.
Qed.

(** Some alternative of a union that holds accepts the document. *)
Lemma union_some x : holds m u (Array branches) x = true -> exists b, b ∈ branches /\ accepts b x = true.
Proof.
  unfold UNIONS in Hu. apply elem_of_cons in Hu as [->|Hu'%list_elem_of_singleton].
  - change (holds m "oneOf" (Array branches) x) with (exactly_one (List.map (fun s => accepts s x) branches)).
    unfold exactly_one. rewrite bool_decide_eq_true. clear. induction branches as [|b bs IH]; [done|].
    cbn. destruct (accepts b x) eqn:E; [intros _; exists b; split; [apply list_elem_of_here|done]|].
    intros (b' & Hb & Hx)%IH. exists b'. split; [by apply list_elem_of_further|done].
  - subst u. apply holds_any_of.
Qed.

(** The keywords beside the union and the properties say the same before and after. *)
Lemma other_keywords x k arg :
  is_object x = true -> (forall n y, Json.get x n = Some y -> is_Some (member n properties)) ->
  k <> u -> k <> "properties" -> member k m = Some arg -> k <> "type" ->
  holds m' k arg x = holds m k arg x.
Proof.
  intros Hobj Hx Hku Hkp Hk Ht. destruct (decide (k = "additionalProperties")) as [->|Hka]; [|by apply holds_ext].
  destruct x as [| | | | |fields]; try done. apply eq_true_iff_eq.
  change (holds m' "additionalProperties" arg (Object fields)) with
    (forallb (fun '(n, y) => bool_decide (is_Some (member n (properties_of (Object m')))) || accepts arg y) fields).
  change (holds m "additionalProperties" arg (Object fields)) with
    (forallb (fun '(n, y) => bool_decide (is_Some (member n base)) || accepts arg y) fields).
  rewrite properties_hoisted. assert (forall n, bool_decide (is_Some (member n properties))
    = bool_decide (is_Some (member n base))) as Heq.
  { intros n. apply bool_decide_ext. split; [by apply (ho_closed hoistable_inv arg)|].
    intros [s Hs]. rewrite (ho_result hoistable_inv _ _ Hs). eauto. }
  rewrite !forallb_forall. split; intros H [n y] Hin; specialize (H _ Hin); simpl in *; by rewrite Heq in *.
Qed.

Lemma hoisted_structured x :
  is_object x = true -> (forall n y, Json.get x n = Some y -> is_Some (member n properties)) ->
  holds m' "properties" (Object properties) x = true -> structured properties x.
Proof.
  intros Hobj Hx Hp. rewrite holds_properties in Hp. split; [done|]. intros n y Hy.
  destruct (Hx n y Hy) as [M HM]. exists M. split; [done|]. eapply Hp; [by apply member_in|done].
Qed.

Lemma accepted_structured x :
  is_object x = true -> (forall n y, Json.get x n = Some y -> is_Some (member n properties)) ->
  exhaustive m branches properties = true -> accepts (Object m) x = true -> structured properties x.
Proof.
  intros Hobj Hx Hex Hacc. pose proof hoistable_inv as HI. rewrite accepts_member in Hacc by apply HI.
  split; [done|]. intros n y Hy. destruct (Hx n y Hy) as [M HM]. exists M. split; [done|].
  destruct (member n base) as [s0|] eqn:En.
  { rewrite (ho_result HI _ _ En) in HM. injection HM as <-. unfold properties_of, Json.get in En. simpl in En.
    destruct (member "properties" m) as [[| | | | |fields]|] eqn:Ep; try done. simpl in En.
    specialize (Hacc _ _ Ep). rewrite holds_properties in Hacc. eapply Hacc; [by apply member_in|done]. }
  destruct (union_some x (Hacc _ _ Hm)) as (b & Hb & Hbx). destruct (ho_branch HI b Hb) as (bm & -> & Hok).
  rewrite accepts_member in Hbx by apply Hok.
  assert (is_Some (member n (properties_of (Object bm)))) as [s Hs].
  { unfold exhaustive in Hex. rewrite forallb_forall in Hex. rewrite list_elem_of_In in Hb. specialize (Hex _ Hb).
    apply orb_true_iff in Hex as [Hcl%bool_decide_eq_true|Hall].
    - specialize (Hbx _ _ Hcl). rewrite holds_closed in Hbx. by eapply Hbx.
    - rewrite forallb_forall in Hall. assert (n ∈ properties.*1) as Hn%list_elem_of_In by (apply in_keys; eauto).
      specialize (Hall _ Hn). apply orb_true_iff in Hall as [Hno%bool_decide_eq_true|Hp%bool_decide_eq_true]; [|done].
      rewrite En in Hno. by destruct Hno. }
  eapply summary_accepts; [by apply properties_summary|by eapply in_declared|].
  unfold properties_of, Json.get in Hs. simpl in Hs.
  destruct (member "properties" bm) as [[| | | | |fields]|] eqn:Ep; try done. simpl in Hs.
  specialize (Hbx _ _ Ep). rewrite holds_properties in Hbx. eapply Hbx; [by apply member_in|done].
Qed.

Lemma hoisted_sound x :
  is_object x = true -> (forall n y, Json.get x n = Some y -> is_Some (member n properties)) ->
  accepts (Object m') x = true -> accepts (Object m) x = true.
Proof.
  intros Hobj Hx Hacc. pose proof hoistable_inv as HI. destruct union_keys as (Hup & Hut & Hua & Hun).
  rewrite accepts_member in Hacc by apply hoisted_nodup. rewrite accepts_member by apply HI.
  assert (structured properties x) as Hs.
  { apply hoisted_structured; [done..|]. apply Hacc. by rewrite member_hoisted, bool_decide_eq_false_2. }
  intros k arg Hk. destruct (decide (k = u)) as [->|Hku].
  { rewrite Hm in Hk. injection Hk as <-. rewrite <-structured_union by done. apply Hacc.
    by rewrite member_hoisted, bool_decide_eq_true_2. }
  destruct (decide (k = "properties")) as [->|Hkp].
  { destruct arg as [| | | | |fields]; try done. rewrite holds_properties. intros n f y Hf Hy.
    destruct Hs as [_ Hs]. destruct (Hs n y Hy) as (M & HM & HMy). assert (member n base = Some f) as Hb.
    { apply member_unique; [apply HI|]. unfold properties_of, Json.get. simpl. by rewrite Hk. }
    apply (ho_result HI) in Hb. congruence. }
  destruct (decide (k = "type")) as [->|Hkt].
  { rewrite holds_type. apply object_type; [apply HI|done|done]. }
  rewrite <-(other_keywords x k arg) by done. apply Hacc.
  by rewrite member_hoisted, !bool_decide_eq_false_2.
Qed.

Lemma hoisted_complete x :
  is_object x = true -> (forall n y, Json.get x n = Some y -> is_Some (member n properties)) ->
  exhaustive m branches properties = true ->
  accepts (Object m) x = true -> accepts (Object m') x = true.
Proof.
  intros Hobj Hx Hex Hacc. pose proof hoistable_inv as HI. destruct union_keys as (Hup & Hut & Hua & Hun).
  pose proof (accepted_structured x Hobj Hx Hex Hacc) as Hs.
  rewrite accepts_member in Hacc by apply HI. rewrite accepts_member by apply hoisted_nodup.
  intros k arg. rewrite member_hoisted. case_bool_decide as Hku; [subst k; intros [= <-]|].
  { rewrite structured_union by done. by apply Hacc. }
  case_bool_decide as Hkp; [subst k; intros [= <-]|].
  { rewrite holds_properties. intros n f y Hf Hy. destruct Hs as [_ Hs]. destruct (Hs n y Hy) as (M & HM & HMy).
    assert (member n properties = Some f) as Hn; [|congruence]. apply member_unique; [|done].
    apply (add_branches_nodup branches base); [apply HI|done]. }
  case_bool_decide as Hkt; [subst k; intros [= <-]|].
  { rewrite holds_type. unfold has_type. by destruct x. }
  intros Hk. rewrite other_keywords by done. by apply Hacc.
Qed.
End Hoist.

(** ** Properties *)

(** C36: A hoisted union accepts what it accepted. When the alternatives of a union are hoistable (their
    own constraints are not negated or counted, and properties of the same name are declared beside
    the union or are scalars of one type), the transformed schema accepts no object of declared
    fields that the generated schema refuses; and when every alternative takes the fields of the
    others or forbids them, it refuses none that the generated schema accepts. *)
Theorem hoist_keeps_meaning u m branches properties m' x :
  u ∈ UNIONS -> member u m = Some (Array branches) -> existsb has_properties branches = true ->
  add_branches branches (properties_of (Object m)) = Some properties -> hoist u m = Some m' ->
  hoistable m branches properties = true ->
  is_object x = true -> (forall n y, Json.get x n = Some y -> is_Some (member n properties)) ->
  (accepts (Object m') x = true -> accepts (Object m) x = true)
  /\ (exhaustive m branches properties = true ->
      accepts (Object m) x = true -> accepts (Object m') x = true).
Proof.
  intros Hu Hm Hex Hp Hh Ho Hobj Hx. unfold hoist in Hh. rewrite Hm, Hex in Hh. cbn [negb] in Hh.
  assert (properties_of (Object (remove u m)) = properties_of (Object m)) as Hrem.
  { unfold properties_of, Json.get. cbn [as_object mbind option_bind]. rewrite member_remove.
    rewrite bool_decide_eq_false_2; [done|]. intros <-. unfold UNIONS in Hu. set_solver. }
  rewrite Hrem, Hp in Hh. cbn [mbind option_bind] in Hh.
  destruct (mapM (rule_of properties.*1) branches) as [rules|] eqn:Hr; [|done]. injection Hh as <-. split.
  - by apply (hoisted_sound u m properties branches rules).
  - intros He. by apply (hoisted_complete u m properties branches rules).
Qed.

(** The key sources the schema of a [PrivateKeyJwt] admits. *)
Lemma jwks_sources_accepts fields :
  accepts (Object [("oneOf", JWKS_SOURCES)]) (Object fields)
  = match member "jwks" fields, member "jwksUrl" fields with
    | Some _, Some _ => false
    | None, None => bool_decide (is_Some (member "issuer" fields))
    | _, _ => true
    end.
Proof.
  assert (forall n, accepts (Object [require [n]]) (Object fields) = bool_decide (is_Some (member n fields))) as Hr.
  { intros n. change (accepts (Object [require [n]]) (Object fields)) with
      (bool_decide (is_Some (member n fields)) && true && true). by rewrite !andb_true_r. }
  change (accepts (Object [("oneOf", JWKS_SOURCES)]) (Object fields)) with
    (exactly_one [
       bool_decide (is_Some (member "jwks" fields)) && true
         && (negb (accepts (Object [require ["jwksUrl"]]) (Object fields)) && true);
       bool_decide (is_Some (member "jwksUrl" fields)) && true
         && (negb (accepts (Object [require ["jwks"]]) (Object fields)) && true);
       bool_decide (is_Some (member "issuer" fields)) && true
         && (negb ((accepts (Object [require ["jwks"]]) (Object fields)
                    || (accepts (Object [require ["jwksUrl"]]) (Object fields) || false)) && true) && true)] && true).
  rewrite !Hr. destruct (member "jwks" fields), (member "jwksUrl" fields), (member "issuer" fields); reflexivity.
Qed.

(** The sections the schema of a policy asks for, when [enum] means what it says of null. *)
Lemma policy_sections_accepts fields :
  (forall y, leaf "enum" (Array [Null]) y = bool_decide (y = Null)) ->
  accepts (Object [("anyOf", POLICY_SECTIONS)]) (Object fields) = true
  <-> exists name y, name ∈ ["required"; "anyOf"] /\ member name fields = Some y /\ y <> Null.
Proof.
  intros Hnull.
  assert (forall n, accepts (non_null_section n) (Object fields) = true
    <-> exists y, member n fields = Some y /\ y <> Null) as Hsec.
  { intros n. change (accepts (non_null_section n) (Object fields)) with
      ((bool_decide (is_Some (member n fields)) && true)
       && (match member n fields with
           | Some y => negb (leaf "enum" (Array [Null]) y && true) && true
           | None => true
           end && true && true)).
    rewrite !andb_true_r. destruct (member n fields) as [y|]; [|by split; [|intros (? & ? & _)]].
    rewrite Hnull, !andb_true_r. cbn. rewrite negb_true_iff, bool_decide_eq_false. split; [by eexists|].
    by intros (? & [= <-] & ?). }
  change (accepts (Object [("anyOf", POLICY_SECTIONS)]) (Object fields)) with
    ((accepts (non_null_section "required") (Object fields)
      || (accepts (non_null_section "anyOf") (Object fields) || false)) && true).
  rewrite andb_true_r, orb_false_r, orb_true_iff, !Hsec. split.
  - intros [(y & ? & ?)|(y & ? & ?)]; [exists "required", y|exists "anyOf", y]; set_solver.
  - intros (name & y & [->| ->%list_elem_of_singleton]%elem_of_cons & ? & ?); eauto.
Qed.
End Accepts.

(** ** The schemas and the program agree *)

Definition source_error (key : ResourceKey) : string :=
  "Relay/" +:+ key_str key +:+ ": PrivateKeyJwt requires exactly one of jwks and jwksUrl, or issuer discovery with neither".

(** What the schema refuses of the key sources is exactly what compilation refuses of them. *)
Lemma jwks_sources_agree {U : UrlLib} leaf key issuer jwks jwks_url fields :
  is_Some (member "issuer" fields) <-> is_Some issuer ->
  is_Some (member "jwks" fields) <-> is_Some jwks ->
  is_Some (member "jwksUrl" fields) <-> is_Some jwks_url ->
  accepts leaf (Object [("oneOf", JWKS_SOURCES)]) (Object fields) = false
  <-> client_jwks key issuer jwks jwks_url = Err (source_error key).
Proof.
  intros Hi Hj Hu. rewrite jwks_sources_accepts. unfold client_jwks.
  destruct (member "jwks" fields), jwks; try (exfalso; destruct Hj as [Hj1 Hj2]; first [by destruct Hj1|by destruct Hj2]);
    (destruct (member "jwksUrl" fields), jwks_url as [url|];
     try (exfalso; destruct Hu as [Hu1 Hu2]; first [by destruct Hu1|by destruct Hu2])); try done.
  - destruct (context _ (url_parse url)) as [parsed|e] eqn:Ec; [done|]. split; [done|]. intros [= ->].
    unfold context, map_err in Ec. by destruct (url_parse url).
  - rewrite (bool_decide_ext _ _ Hi). by case_bool_decide.
Qed.

(** A policy whose schema asks for a section it does not have is one that validation refuses. *)
Lemma policy_sections_agree leaf policy fields :
  (forall y, leaf "enum" (Array [Null]) y = bool_decide (y = Null)) ->
  (is_Some (required policy) <-> exists y, member "required" fields = Some y /\ y <> Null) ->
  (is_Some (any_of policy) <-> exists y, member "anyOf" fields = Some y /\ y <> Null) ->
  accepts leaf (Object [("anyOf", POLICY_SECTIONS)]) (Object fields) = false ->
  IdTokenPolicy.validate policy = Err "idTokenPolicy must contain required or anyOf".
Proof.
  intros Hnull Hr Ha Hno. unfold IdTokenPolicy.validate.
  destruct (bool_decide (is_Some (required policy)) || bool_decide (is_Some (any_of policy))) eqn:E; [|done].
  assert (accepts leaf (Object [("anyOf", POLICY_SECTIONS)]) (Object fields) = true) as Hyes; [|congruence].
  apply policy_sections_accepts; [done|].
  apply orb_true_iff in E as [Hs%bool_decide_eq_true|Hs%bool_decide_eq_true].
  - apply Hr in Hs as (y & ? & ?). exists "required", y. set_solver.
  - apply Ha in Hs as (y & ? & ?). exists "anyOf", y. set_solver.
Qed.

(** ** Schemas as they are generated *)

Module SchemaExample.

(** The keywords on scalars that the examples use. *)
Definition scalar (key : string) (arg x : Value) : bool :=
  match arg with
  | Array l => if bool_decide (key = "enum") then bool_decide (x ∈ l) else true
  | Number (Some 1%Z) =>
      match x with
      | Object m => negb (bool_decide (key = "minProperties")) || bool_decide (m <> [])
      | Array l => negb (bool_decide (key = "minItems")) || bool_decide (l <> [])
      | _ => true
      end
  | _ => true
  end.

Definition tag (name : string) : string * Value :=
  ("type", Object [("type", Str "string"); ("enum", Array [Str name])]).
Definition text (description : string) : Value :=
  Object [("type", Str "string"); ("description", Str description)].
Definition alternative (required : list string) (properties : list (string * Value)) : Value :=
  Object [("type", Str "object"); ("additionalProperties", Bool false);
          ("required", Array (Str <$> required)); ("properties", Object properties)].

(** An enum of documents with a tag, as config.rs has for the client authentication. *)
Definition client_authentication : list (string * Value) := require_jwks_source [
  ("description", Str "Authentication accepted from a relying party.");
  ("oneOf", Array [
     alternative ["type"] [tag "UpstreamClient"];
     alternative ["type"] [tag "Public"];
     alternative ["type"; "clientId"; "clientSecret"]
       [tag "ClientSecret"; ("clientId", text "Relay-specific."); ("clientSecret", text "Secret.")];
     alternative ["type"; "clientId"]
       [tag "PrivateKeyJwt"; ("clientId", text "Required in the token request."); ("issuer", text "Issuer.");
        ("jwks", Object [("type", Str "object")]); ("jwksUrl", text "URL.")]])].

Definition branches_of (u : string) (m : list (string * Value)) : list Value :=
  match member u m with Some (Array l) => l | _ => [] end.

Definition properties_after (u : string) (m : list (string * Value)) : list (string * Value) :=
  default [] (add_branches (branches_of u m) (properties_of (Object m))).

Definition hoisted_after (u : string) (m : list (string * Value)) : list (string * Value) :=
  default [] (hoist u m).

Definition credentials : Value :=
  Object [("type", Str "ClientSecret"); ("clientId", Str "app"); ("clientSecret", Str "s3cret")].
Definition keyless : Value := Object [("type", Str "PrivateKeyJwt"); ("clientId", Str "app")].

(** Before and after, the same documents are accepted. *)
Example same_documents :
  (fun x => (accepts scalar (Object client_authentication) x,
             accepts scalar (Object (hoisted_after "oneOf" client_authentication)) x))
  <$> [credentials; keyless; Object [("type", Str "Public"); ("clientId", Str "app")]; Object [("type", Str "Other")]]
  = [(true, true); (false, false); (false, false); (false, false)].
Proof. vm_compute. reflexivity. Qed.

(** The sections of a policy, beside the properties they look at. *)
Definition policy : list (string * Value) := require_policy_section [
  ("type", Str "object"); ("additionalProperties", Bool false);
  ("properties", Object [
     ("required", Object (non_empty_claim_set [("type", Str "object")]));
     ("anyOf", Object [("type", Str "array"); ("minItems", Number (Some 1%Z));
                       ("items", Object (non_empty_claim_set [("type", Str "object")]))])])].

Example policy_hoistable :
  hoistable policy (branches_of "anyOf" policy) (properties_after "anyOf" policy)
  && exhaustive policy (branches_of "anyOf" policy) (properties_after "anyOf" policy) = true.
Proof. vm_compute. reflexivity. Qed.

Example adapted : is_Some (structural (Object client_authentication)) /\ is_Some (structural (Object policy)).
Proof. split; vm_compute; by eexists. Qed.

Lemma fields_declared x properties :
  forallb (fun '(n, _) => bool_decide (is_Some (member n properties))) (default [] (as_object x)) = true ->
  forall n y, Json.get x n = Some y -> is_Some (member n properties).
Proof.
  destruct x as [| | | | |m]; try done. cbn [as_object default]. rewrite forallb_forall.
  intros H n y Hy%member_in%list_elem_of_In. specialize (H _ Hy). by apply bool_decide_eq_true in H.
Qed.

Lemma hoist_keeps_meaning_witness :
  accepts scalar (Object (hoisted_after "oneOf" client_authentication)) credentials = true
  /\ (accepts scalar (Object (hoisted_after "oneOf" client_authentication)) keyless = true ->
      accepts scalar (Object client_authentication) keyless = true).
Proof.
  assert (forall x, x = credentials \/ x = keyless ->
    (accepts scalar (Object (hoisted_after "oneOf" client_authentication)) x = true ->
     accepts scalar (Object client_authentication) x = true)
    /\ (exhaustive client_authentication (branches_of "oneOf" client_authentication)
          (properties_after "oneOf" client_authentication) = true ->
        accepts scalar (Object client_authentication) x = true ->
        accepts scalar (Object (hoisted_after "oneOf" client_authentication)) x = true)) as H.
  { intros x Hx. apply (hoist_keeps_meaning scalar "oneOf" client_authentication
      (branches_of "oneOf" client_authentication) (properties_after "oneOf" client_authentication)).
    - apply list_elem_of_here.
    - reflexivity.
    - vm_compute. reflexivity.
    - vm_compute. reflexivity.
    - vm_compute. reflexivity.
    - vm_compute. reflexivity.
    - by destruct Hx as [-> | ->].
    - apply fields_declared. destruct Hx as [-> | ->]; vm_compute; reflexivity. }
  split.
  - apply (H credentials); [by left|vm_compute; reflexivity|vm_compute; reflexivity].
  - refine (proj1 (H keyless _)). by right.
Defined.
End SchemaExample.
