(* ===== verification/Secrets.v ===== *)
(** * Secrets: where the secrets of a configuration are read

    Models crates/oauthrelay-secret-resolver (the standard resolver, which routes every kind of
    source), the AWS resolver of crates/oauthrelay-provider-ssm and the Kubernetes one of
    crates/oauthrelay-provider-kubernetes. A trait is a record of operations; what they await is a
    [read_call], which the operating system, the AWS services or the API server answers. *)

From S2P Require Import Prelude Text Json Url Model Resolver Prog Config.
#[local] Open Scope string_scope.

(** ** Effects *)

(** The kube crate's view of the custom resources: the metadata that the provider reads, and the
    specification. *)
Record KubeObject (S : Type) := {
  ko_name : option string;
  ko_generate_name : option string;
  ko_namespace : option string;
  ko_uid : option string;
  ko_spec : S;
}.
Arguments ko_name {S} _.
Arguments ko_generate_name {S} _.
Arguments ko_namespace {S} _.
Arguments ko_uid {S} _.
Arguments ko_spec {S} _.

Record KubePage (S : Type) := { kp_items : list (KubeObject S); kp_continue : option string }.
Arguments kp_items {S} _.
Arguments kp_continue {S} _.

(** The AWS SDK's parameters: every field may be missing. *)
Inductive AwsParameterType := AwsString | AwsSecureString | AwsStringList | AwsUnknown (type : string).
Record AwsParameter := { aws_name : option string; aws_value : option string; aws_type : option AwsParameterType }.
Record AwsParameterPage := { aws_parameters : list AwsParameter; aws_next_token : option string }.
Inductive SdkError := ParameterNotFound | OtherError (message : string).

Inductive read_call :=
  | EnvVar (name : string)                                    (* [std::env::var] *)
  | ReadToString (path : string)                              (* [fs::read_to_string] *)
  | InitAwsClients                                            (* [OnceCell::get_or_try_init] *)
  | SsmGetParametersByPath (path : string) (next_token : option string)
  | SsmGetParameter (name : string)
  | SmGetSecretValue (secret_id : string)
  | KubeGetSecret (namespace name : string)
  | KubeListUpstreams (namespace : string) (continue : option string)
  | KubeListRelays (namespace : string) (continue : option string)
  | TimedOut (limit : Duration).                              (* whether a [tokio::time::timeout] elapsed *)

Definition read_answer (c : read_call) : Type :=
  match c with
  | EnvVar _ | ReadToString _ => result string string
  | InitAwsClients => unit
  | SsmGetParametersByPath _ _ => result AwsParameterPage string
  | SsmGetParameter _ => result (option AwsParameter) SdkError
  | SmGetSecretValue _ => result (option string) string
  | KubeGetSecret _ _ => result (option (gmap string bytes)) string
  | KubeListUpstreams _ _ => result (KubePage Spec.UpstreamResourceSpec) string
  | KubeListRelays _ _ => result (KubePage Spec.RelayResourceSpec) string
  | TimedOut _ => bool
  end.

Notation read_prog := (prog read_call read_answer).
Notation read_log := (call_log read_answer).

#[local] Open Scope prog_scope.

(** ** The traits *)

Record SecretResolver := {
  resolve_value : string -> read_prog (result string string);
  resolve_source : Spec.SecretSource -> read_prog (result string string);
}.

Record LocalSecrets := {
  environment : string -> read_prog (result string string);
  file : string -> read_prog (result string string);
}.

Definition SystemLocalSecrets : LocalSecrets := {|
  environment name :=
    r <- call (EnvVar name) ;; Ret (context ("environment variable " +:+ name +:+ " is not set") r);
  file path := r <- call (ReadToString path) ;; Ret (context ("read " +:+ path) r);
|}.

(** ** Paths and strings of the standard library *)

Definition is_absolute (path : string) : bool := starts_with "/" path.

(** [Path::join] on Unix. *)
Definition path_join (base path : string) : string :=
  if is_absolute path then path
  else if is_empty base || ends_with "/" base then base +:+ path
  else base +:+ "/" +:+ path.

Fixpoint drop_while (f : ascii -> bool) (s : string) : string :=
  match s with
  | String c rest => if f c then drop_while f rest else s
  | EmptyString => EmptyString
  end.

(** [str::trim_end_matches] with a set of characters. *)
Definition trim_end_matches (f : ascii -> bool) (s : string) : string := str_rev (drop_while f (str_rev s)).

Definition is_line_end (c : ascii) : bool := (code c =? 13)%nat || (code c =? 10)%nat.

(** ** The standard resolver *)

Record StandardSecretResolver := {
  base_directory : option string;
  local : LocalSecrets;
  aws : option SecretResolver;
  kubernetes : option SecretResolver;
}.

Definition standard_new (base : option string) : StandardSecretResolver :=
  {| base_directory := base; local := SystemLocalSecrets; aws := None; kubernetes := None |}.

Definition with_local_secrets (s : StandardSecretResolver) (l : LocalSecrets) : StandardSecretResolver :=
  {| base_directory := base_directory s; local := l; aws := aws s; kubernetes := kubernetes s |}.

Definition with_kubernetes_secrets (s : StandardSecretResolver) (r : SecretResolver) : StandardSecretResolver :=
  {| base_directory := base_directory s; local := local s; aws := aws s; kubernetes := Some r |}.

Definition with_aws_secrets (s : StandardSecretResolver) (r : SecretResolver) : StandardSecretResolver :=
  {| base_directory := base_directory s; local := local s; aws := Some r; kubernetes := kubernetes s |}.

Definition secret_path (base : option string) (path : string) : result string string :=
  if is_absolute path then Ok path
  else match base with
       | Some base => Ok (path_join base path)
       | None => Err "relative secret file requires a resource base directory"
       end.

Definition delegate (r : option SecretResolver) (missing : string) (source : Spec.SecretSource)
    : read_prog (result string string) :=
  match r with Some r => resolve_source r source | None => Ret (Err missing) end.

Definition trimmed (p : read_prog (result string string)) : read_prog (result string string) :=
  value <-! p ;; Ret (Ok (trim_end_matches is_line_end value)).

Definition standard_resolve_source (s : StandardSecretResolver) (source : Spec.SecretSource)
    : read_prog (result string string) :=
  match source with
  | Spec.SecretKeyRef _ _ => delegate (kubernetes s) "Kubernetes secret resolution is not configured" source
  | Spec.Env name => trimmed (environment (local s) name)
  | Spec.File path => trimmed (path <-? secret_path (base_directory s) path ;; file (local s) path)
  | Spec.AwsSsmParameter _ | Spec.AwsSecretsManager _ _ =>
      delegate (aws s) "AWS secret resolution is not configured" source
  end.

Definition standard_resolver (s : StandardSecretResolver) : SecretResolver := {|
  resolve_value value := Ret (Ok value);
  resolve_source := standard_resolve_source s;
|}.

(** ** AWS *)

Inductive ParameterType := PlainString | SecureString | StringList.

#[export] Instance parameter_type_eq_dec : EqDecision ParameterType.
Proof. solve_decision. Defined.

Record SsmParameter := { pm_name : string; pm_value : string; parameter_type : ParameterType }.
Record ParameterPage := { parameters : list SsmParameter; next_token : option string }.

(** The traits [SsmClient] and [SecretsManagerClient]. *)
Record SsmClient := {
  get_parameters_by_path : string -> option string -> read_prog (result ParameterPage string);
  get_parameter : string -> read_prog (result (option SsmParameter) string);
}.

Record SecretsManagerClient := { get_secret_string : string -> read_prog (result (option string) string) }.

Definition convert_parameter (p : AwsParameter) : option SsmParameter :=
  type ← aws_type p;
  type ← match type with
         | AwsString => Some PlainString
         | AwsSecureString => Some SecureString
         | AwsStringList => Some StringList
         | AwsUnknown _ => None
         end;
  name ← aws_name p;
  value ← aws_value p;
  Some {| pm_name := name; pm_value := value; parameter_type := type |}.

Definition AwsSsmClient : SsmClient := {|
  get_parameters_by_path path token :=
    output <- call (SsmGetParametersByPath path token) ;;
    output <-? context "GetParametersByPath" output ;;
    Ret (Ok {| parameters := omap convert_parameter (aws_parameters output); next_token := aws_next_token output |});
  get_parameter name :=
    output <- call (SsmGetParameter name) ;;
    Ret match output with
        | Ok p => Ok (p ← p; convert_parameter p)
        | Err ParameterNotFound => Ok None
        | Err (OtherError e) => context "GetParameter" (Err e)
        end;
|}.

Definition AwsSecretsManagerClient : SecretsManagerClient := {|
  get_secret_string id := output <- call (SmGetSecretValue id) ;; Ret (context "GetSecretValue" output);
|}.

Section Aws.
Context {J : JsonLib}.

Definition json_field (key secret : string) : result string string :=
  match from_slice (into_bytes secret) with
  | None => Err "Secrets Manager SecretString is not valid JSON"
  | Some v => ok_or (members ← as_object v; w ← member key members; Json.as_str w)
                "Secrets Manager jsonKey must identify a top-level string field"
  end.

Definition aws_resolve_source (ssm : SsmClient) (secrets_manager : SecretsManagerClient) (source : Spec.SecretSource)
    : read_prog (result string string) :=
  match source with
  | Spec.AwsSsmParameter name =>
      if negb (starts_with "/" name) then Ret (Err "SSM parameter name must be absolute") else
      parameter <-! get_parameter ssm name ;;
      parameter <-? ok_or parameter "referenced SSM parameter does not exist" ;;
      if bool_decide (parameter_type parameter <> SecureString)
      then Ret (Err "referenced SSM parameter must use the SecureString type")
      else Ret (Ok (pm_value parameter))
  | Spec.AwsSecretsManager secret_id json_key =>
      secret <-! get_secret_string secrets_manager secret_id ;;
      secret <-? ok_or secret "Secrets Manager secret must contain SecretString" ;;
      Ret match json_key with None => Ok secret | Some key => json_field key secret end
  | Spec.Env _ | Spec.File _ | Spec.SecretKeyRef _ _ => Ret (Err "source is not an AWS secret source")
  end.

Definition AwsSecretResolver (ssm : SsmClient) (secrets_manager : SecretsManagerClient) : SecretResolver := {|
  resolve_value _ := Ret (Err "inline values are not AWS secret sources");
  resolve_source := aws_resolve_source ssm secrets_manager;
|}.

(** main.rs: the clients are made when a source first needs them. *)
Definition LazyAwsSecretResolver : SecretResolver := {|
  resolve_value _ := Ret (Err "inline values are resolved by StandardSecretResolver");
  resolve_source source :=
    _ <- call InitAwsClients ;; resolve_source (AwsSecretResolver AwsSsmClient AwsSecretsManagerClient) source;
|}.
End Aws.

(** ** Kubernetes *)

Definition bounded_by_alphanumeric (label : string) : bool :=
  match first label, last_char label with
  | Some a, Some b => is_alphanumeric a && is_alphanumeric b
  | _, _ => false
  end.

(** The name and key checks: the name is put into an API path. *)
Definition valid_reference (name key : string) : bool :=
  negb (is_empty name) && (String.length name <=? 253)%nat
  && str_all (fun c => is_lower c || is_digit c || bool_decide (c = "-"%char) || bool_decide (c = "."%char)) name
  && forallb bounded_by_alphanumeric (split "." name)
  && negb (is_empty key).

Definition kubernetes_resolve_source (namespace : string) (source : Spec.SecretSource)
    : read_prog (result string string) :=
  match source with
  | Spec.SecretKeyRef name key =>
      if negb (valid_reference name key) then Ret (Err "secretKeyRef requires a valid Secret name and non-empty key") else
      secret <- call (KubeGetSecret namespace name) ;;
      data <-? context "read referenced Kubernetes Secret" secret ;;
      value <-? ok_or (data ← data; (data : gmap string bytes) !! key) "referenced Kubernetes Secret key does not exist" ;;
      Ret (ok_or (from_utf8 value) "Kubernetes Secret value must be UTF-8")
  | _ => Ret (Err "source is not a Kubernetes Secret reference")
  end.

Definition KubernetesSecrets (namespace : string) : SecretResolver := {|
  resolve_value _ := Ret (Err "inline values are resolved by the standard resolver");
  resolve_source := kubernetes_resolve_source namespace;
|}.

(** ** Compilation with a resolver *)

(** The operations of the trait, as [compile_resources] calls them. *)
Definition resolve_with (r : SecretResolver) (c : secret_call) : read_prog (secret_answer c) :=
  match c with ResolveValue v => resolve_value r v | ResolveSource s => resolve_source r s end.

(** A program whose calls are programs themselves. *)
Fixpoint interp {E1 E2 : Type} {Ans1 : E1 -> Type} {Ans2 : E2 -> Type} (h : forall e, prog E2 Ans2 (Ans1 e))
    {A} (p : prog E1 Ans1 A) : prog E2 Ans2 A :=
  match p with
  | Ret a => Ret a
  | Op e k => bind (h e) (fun a => interp h (k a))
  end.

(** ** Lemmas on interpretation *)

Section Interp.
Context {E1 E2 : Type} {Ans1 : E1 -> Type} {Ans2 : E2 -> Type} (h : forall e, prog E2 Ans2 (Ans1 e)).
#[local] Open Scope list_scope.

(** The log [l2] serves the calls of [l1] one after the other. *)
Inductive served : call_log Ans1 -> call_log Ans2 -> Prop :=
  | served_nil : served [] []
  | served_cons e a l1 seg l2 : runs (h e) seg a -> served l1 l2 -> served (logged e a :: l1) (seg ++ l2).

Lemma interp_runs {A} (p : prog E1 Ans1 A) l a :
  runs (interp h p) l a -> exists l1, runs p l1 a /\ served l1 l.
Proof.
  revert l. induction p as [b|e k IH]; intros l; simpl.
  - intros [-> ->]. exists []. split; [done|constructor].
  - intros (b & seg & l2 & -> & Hh & Hk)%runs_bind. destruct (IH b l2 Hk) as (l1 & Hl & Hs).
    exists (logged e b :: l1). split; [eauto|by constructor].
Qed.

Lemma served_call l1 l2 e a :
  served l1 l2 -> logged e a ∈ l1 -> exists seg, runs (h e) seg a /\ seg ⊆ l2.
Proof.
  induction 1 as [|e' a' l1 seg l2 Hh Hs IH]; [by intros ?%not_elem_of_nil|].
  intros [Heq|Hin]%elem_of_cons.
  - exists seg. split; [|by apply list_subseteq_app_l].
    change ((fun c : { e & Ans1 e } => runs (h (projT1 c)) seg (projT2 c)) (logged e a)). rewrite Heq. exact Hh.
  - destruct (IH Hin) as (s & Hr & Hsub). exists s. split; [done|]. by apply list_subseteq_app_r.
Qed.

Lemma every_interp {A} (P : E1 -> Prop) (Q : E2 -> Prop) (p : prog E1 Ans1 A) :
  every P p -> (forall e, P e -> every Q (h e)) -> every Q (interp h p).
Proof.
  intros Hp Hh. induction p as [a|e k IH]; simpl in *; [done|].
  destruct Hp as [He Hk]. apply every_bind; [by apply Hh|]. auto.
Qed.
End Interp.

(** ** Lemmas on strings *)

Lemma drop_while_spec f s :
  exists head, s = head +:+ drop_while f s /\ str_all f head = true
    /\ (forall c, first (drop_while f s) = Some c -> f c = false).
Proof.
  induction s as [|c s (head & Hs & Ha & Hf)]; simpl; [by exists ""|].
  destruct (f c) eqn:Hc.
  - exists (String c head). simpl. rewrite Hc, <- Hs. auto.
  - exists "". split_and!; [done..|]. by intros d [= <-].
Qed.

Lemma str_all_rev f s : str_all f (str_rev s) = str_all f s.
Proof.
  induction s as [|c s IH]; [done|]. rewrite str_rev_cons, str_all_app, IH. simpl.
  by rewrite andb_true_r, andb_comm.
Qed.

Lemma trim_end_matches_spec f s :
  exists tail, s = trim_end_matches f s +:+ tail /\ str_all f tail = true
    /\ (forall c, last_char (trim_end_matches f s) = Some c -> f c = false).
Proof.
  destruct (drop_while_spec f (str_rev s)) as (head & Hs & Ha & Hf). exists (str_rev head).
  unfold trim_end_matches. split_and!.
  - rewrite <- str_rev_app, <- Hs. symmetry. apply str_rev_involutive.
  - by rewrite str_all_rev.
  - intros c. rewrite <- str_rev_first, str_rev_involutive. apply Hf.
Qed.

(** A path segment that stays in its directory. *)
Definition one_segment (name : string) : Prop :=
  contains "/" name = false /\ name <> "" /\ name <> "." /\ name <> "..".

Lemma valid_reference_segment name key : valid_reference name key = true -> one_segment name.
Proof.
  unfold valid_reference. intros Hv. reflect. unfold one_segment. split_and!.
  - unfold contains, str_any. apply negb_false_iff. eapply str_all_weaken; [|eassumption].
    intros c Hc. apply negb_true_iff, bool_decide_eq_false. intros ->. by vm_compute in Hc.
  - by intros ->.
  - by intros ->.
  - by intros ->.
Qed.

(** ** What a source may read, and what it resolves to *)

Section Sources.
Context {J : JsonLib}.

(** The resolvers the providers build. *)
Record wired (base namespace : option string) (r : StandardSecretResolver) : Prop := {
  wired_base : base_directory r = base;
  wired_local : local r = SystemLocalSecrets;
  wired_aws a : aws r = Some a -> a = LazyAwsSecretResolver \/ a = AwsSecretResolver AwsSsmClient AwsSecretsManagerClient;
  wired_kubernetes : kubernetes r = KubernetesSecrets <$> namespace;
}.

Definition permitted (base namespace : option string) (source : Spec.SecretSource) (c : read_call) : Prop :=
  match source, c with
  | Spec.Env name, EnvVar n => n = name
  | Spec.File path, ReadToString p =>
      is_absolute path = true /\ p = path \/ exists b, base = Some b /\ is_absolute path = false /\ p = path_join b path
  | Spec.AwsSsmParameter name, SsmGetParameter n => n = name /\ starts_with "/" name = true
  | Spec.AwsSecretsManager id _, SmGetSecretValue i => i = id
  | (Spec.AwsSsmParameter _ | Spec.AwsSecretsManager _ _), InitAwsClients => True
  | Spec.SecretKeyRef name _, KubeGetSecret ns n => namespace = Some ns /\ n = name /\ one_segment name
  | _, _ => False
  end.

(** [raw] without the line ends at its end. *)
Definition without_line_ends (raw v : string) : Prop :=
  exists tail, raw = v +:+ tail /\ str_all is_line_end tail = true
    /\ forall c, last_char v = Some c -> is_line_end c = false.

Definition read (c : read_call) (a : read_answer c) (l : read_log) : Prop := logged c a ∈ l.

Definition resolved (base namespace : option string) (source : Spec.SecretSource) (l : read_log) (v : string) : Prop :=
  match source with
  | Spec.Env name => exists raw, read (EnvVar name) (Ok raw) l /\ without_line_ends raw v
  | Spec.File path => exists p raw,
      secret_path base path = Ok p /\ read (ReadToString p) (Ok raw) l /\ without_line_ends raw v
  | Spec.AwsSsmParameter name => exists p,
      read (SsmGetParameter name) (Ok (Some p)) l /\ aws_type p = Some AwsSecureString /\ aws_value p = Some v
  | Spec.AwsSecretsManager id key => exists s,
      read (SmGetSecretValue id) (Ok (Some s)) l
      /\ match key with None => v = s | Some key => json_field key s = Ok v end
  | Spec.SecretKeyRef name key => exists ns (data : gmap string bytes) b, namespace = Some ns
      /\ read (KubeGetSecret ns name) (Ok (Some data)) l /\ data !! key = Some b /\ from_utf8 b = Some v
  end.

Lemma trimmed_runs p l v :
  runs (trimmed p) l (Ok v) -> exists raw, runs p l (Ok raw) /\ without_line_ends raw v.
Proof.
  intros ([raw|] & l1 & l2 & -> & Hp & Hv)%runs_bind_ok; [|by destruct Hv].
  destruct Hv as [-> Hv]. injection Hv as ->. rewrite app_nil_r. exists raw. split; [done|].
  apply trim_end_matches_spec.
Qed.

Lemma aws_every base ns r source :
  r = LazyAwsSecretResolver \/ r = AwsSecretResolver AwsSsmClient AwsSecretsManagerClient ->
  every (permitted base ns source) (aws_resolve_source AwsSsmClient AwsSecretsManagerClient source) ->
  (match source with Spec.AwsSsmParameter _ | Spec.AwsSecretsManager _ _ => True | _ => False end) ->
  every (permitted base ns source) (resolve_source r source).
Proof. intros [->| ->] He Hs; simpl; [|done]. split; [by destruct source|]. by intros _. Qed.

Lemma source_every base ns r source :
  wired base ns r -> every (permitted base ns source) (standard_resolve_source r source).
Proof.
  intros [Hb Hl Ha Hk]. destruct source as [name|path|name|name key|id key]; simpl; rewrite ?Hl, ?Hb, ?Hk.
  - apply every_bind_ok; [|done]. simpl. auto.
  - unfold secret_path. apply every_bind_ok; [|done].
    destruct (is_absolute path) eqn:Hp; [|destruct base as [b|]]; simpl; rewrite ?Hp; [|eauto 6|done].
    auto.
  - destruct (aws r) as [a|] eqn:Heq; simpl; [|done].
    apply aws_every; [by apply Ha| |done]. simpl. destruct (starts_with "/" name) eqn:Hs; simpl; [|done].
    split; [done|]. intros [[p|]|[|e]]; simpl; [|done..]. destruct (convert_parameter p); simpl; [by case_match|done].
  - destruct ns as [ns|]; simpl; [|done]. destruct (valid_reference name key) eqn:Hv; simpl; [|done].
    split; [|by intros [[d|]|]; simpl; [destruct (d !! key)|..]].
    split_and!; [done..|by eapply valid_reference_segment].
  - destruct (aws r) as [a|] eqn:Heq; simpl; [|done].
    apply aws_every; [by apply Ha| |done]. simpl. split; [done|]. by intros [[s|]|].
Qed.

(** A program that a call and its answer determine. *)
Lemma runs_op {E : Type} {Ans : E -> Type} {A} e (k : Ans e -> prog E Ans A) l x :
  runs (Op e k) l x -> exists a l', l = logged e a :: l' /\ runs (k a) l' x.
Proof. done. Qed.

Lemma aws_resolved base ns source l v :
  runs (aws_resolve_source AwsSsmClient AwsSecretsManagerClient source) l (Ok v) ->
  (match source with Spec.AwsSsmParameter _ | Spec.AwsSecretsManager _ _ => True | _ => False end) ->
  resolved base ns source l v.
Proof.
  destruct source as [name|path|name|name key|id key]; try done; simpl; intros Hr _.
  - destruct (starts_with "/" name); simpl in Hr; [|by destruct Hr].
    destruct Hr as (a & l' & -> & Hr). destruct a as [[p|]|[|e]]; simpl in Hr; [|by destruct Hr..].
    destruct (convert_parameter p) as [q|] eqn:Hc; simpl in Hr; [|by destruct Hr].
    case_bool_decide as Ht; destruct Hr as [-> Hv]; [done|]. injection Hv as ->.
    exists p. split; [by left|]. unfold convert_parameter in Hc.
    apply bind_Some in Hc as (t & Htype & Hc). apply bind_Some in Hc as (t' & Ht' & Hc).
    apply bind_Some in Hc as (n & _ & Hc). apply bind_Some in Hc as (w & Hw & [= <-]). simpl in *.
    split; [|done]. rewrite Htype. f_equal. by destruct t; simplify_eq.
  - destruct Hr as (a & l' & -> & Hr). destruct a as [[s|]|e]; simpl in Hr; [|by destruct Hr..].
    destruct Hr as [-> Hv]. exists s. split; [by left|]. destruct key; [done|by injection Hv].
Qed.

Lemma kubernetes_resolved base ns source l v :
  runs (kubernetes_resolve_source ns source) l (Ok v) -> resolved base (Some ns) source l v.
Proof.
  destruct source as [name|path|name|name key|id key]; simpl; try (by intros [_ ?]).
  destruct (valid_reference name key); simpl; [|by intros [_ ?]].
  intros (a & l' & -> & Hr). destruct a as [[data|]|e]; simpl in Hr; [|by destruct Hr..].
  destruct (data !! key) as [b|] eqn:Hb; simpl in Hr; [|by destruct Hr]. destruct Hr as [-> Hv].
  exists ns, data, b. split_and!; [done|by left|done|]. by destruct (from_utf8 b); simplify_eq/=.
Qed.

Lemma resolved_later base ns source c l v : resolved base ns source l v -> resolved base ns source (c :: l) v.
Proof. destruct source; unfold resolved, read; setoid_rewrite elem_of_cons; naive_solver. Qed.

Lemma resolved_mono base ns source l l' v : l ⊆ l' -> resolved base ns source l v -> resolved base ns source l' v.
Proof. intros Hl. destruct source; unfold resolved, read; naive_solver. Qed.

Lemma delegated_resolved base ns r missing source l v :
  (forall a, r = Some a -> a = LazyAwsSecretResolver \/ a = AwsSecretResolver AwsSsmClient AwsSecretsManagerClient) ->
  (match source with Spec.AwsSsmParameter _ | Spec.AwsSecretsManager _ _ => True | _ => False end) ->
  runs (delegate r missing source) l (Ok v) -> resolved base ns source l v.
Proof.
  intros Ha Hs. destruct r as [a|]; simpl; [|by intros [_ ?]]. destruct (Ha a eq_refl) as [->| ->]; simpl.
  - intros (u & l' & -> & Hr). apply resolved_later. by apply aws_resolved.
  - intros Hr. by apply aws_resolved.
Qed.

Lemma source_resolved base ns r source l v :
  wired base ns r -> runs (standard_resolve_source r source) l (Ok v) -> resolved base ns source l v.
Proof.
  intros [Hb Hl Ha Hk]. destruct source as [name|path|name|name key|id key]; simpl; rewrite ?Hl, ?Hb, ?Hk.
  - intros (raw & Hr & Hw)%trimmed_runs. exists raw. split; [|done].
    destruct Hr as (a & l' & -> & -> & Heq). destruct a; [|done]. injection Heq as <-. by left.
  - intros (raw & Hr & Hw)%trimmed_runs. destruct (secret_path base path) as [p|] eqn:Hp; [|by destruct Hr].
    destruct Hr as (a & l' & -> & -> & Heq). destruct a; [|done]. injection Heq as <-.
    exists p, raw. split_and!; [done|by left|done].
  - intros Hr. exact (delegated_resolved base ns _ _ (Spec.AwsSsmParameter name) l v Ha I Hr).
  - destruct ns as [ns|]; [|by intros [_ ?]]. exact (kubernetes_resolved base ns (Spec.SecretKeyRef name key) l v).
  - intros Hr. exact (delegated_resolved base ns _ _ (Spec.AwsSecretsManager id key) l v Ha I Hr).
Qed.

(** ** Properties *)

(** A secret is read where its source says, and nowhere else. Whatever the services answer and
    whether or not it succeeds, the resolver of a provider reads for one source only the variable,
    file, parameter or secret that the source names: a relative file under the base directory, a
    parameter by an absolute name, a Kubernetes secret in the provider's namespace, whose name is a
    single path segment. When it succeeds, the secret is what was read there, a secure parameter
    for SSM, less the line ends at the end of a variable or a file. *)
Theorem secret_source_read base namespace r source l res :
  wired base namespace r -> runs (standard_resolve_source r source) l res ->
  (forall c a, logged c a ∈ l -> permitted base namespace source c)
  /\ (forall v, res = Ok v -> resolved base namespace source l v).
Proof.
  intros Hw Hr. split.
  - intros c a Hin. eapply every_runs; [by apply source_every|done|done].
  - intros v ->. by eapply source_resolved.
Qed.
End Sources.

(** ** A secret file *)

Module SecretsExample.

(** Nothing is parsed. *)
Definition no_json : JsonLib := {|
  from_slice _ := None; to_vec _ := []; string_to_raw _ := None; raw_to_string _ := None;
  members_from_slice _ := None; members_to_vec _ := None;
|}.

Definition answer (_ : unit) (c : read_call) : option (read_answer c * unit) :=
  match c with
  | ReadToString path =>
      Some (if bool_decide (path = "/etc/oauthrelay/secrets/google")
            then Ok ("s3cret" +:+ String "013" (String "010" "")) else Err "no such file", tt)
  | _ => None
  end.

Definition resolver : StandardSecretResolver :=
  with_aws_secrets (standard_new (Some "/etc/oauthrelay")) (LazyAwsSecretResolver (J := no_json)).

Lemma resolver_wired : wired (J := no_json) (Some "/etc/oauthrelay") None resolver.
Proof. split; [done..| |done]. simpl. intros a [= <-]. by left. Qed.

Definition source : Spec.SecretSource := Spec.File "secrets/google".

Definition its_log : read_log :=
  [logged (ReadToString "/etc/oauthrelay/secrets/google") (Ok ("s3cret" +:+ String "013" (String "010" "")))].

Lemma its_run : runs (standard_resolve_source resolver source) its_log (Ok "s3cret").
Proof.
  assert (log_run answer (standard_resolve_source resolver source) tt = Some (Ok "s3cret", tt, its_log)) as Hr
    by (vm_compute; reflexivity).
  by eapply log_run_runs.
Qed.

Lemma secret_source_read_witness :
  resolved (J := no_json) (Some "/etc/oauthrelay") None source its_log "s3cret".
Proof.
  exact (proj2 (secret_source_read (J := no_json) _ _ resolver source its_log _ resolver_wired its_run) "s3cret" eq_refl).
Defined.
End SecretsExample.
