(* ===== verification/Providers.v ===== *)
(** * Providers: configuration providers

    The interface of a provider ([ConfigProvider] of resolver.rs) with what the process relies on,
    and the two providers that poll: files (crates/oauthrelay-provider-file) and SSM
    (crates/oauthrelay-provider-ssm), whose logs are shown to be, pass by pass, the reads of a load and
    the sending of its snapshot. A provider's [run] is an endless loop; the model unrolls it
    for as many passes as it is given and says [Running] when they are used up. *)

From S2P Require Import Prelude Text Json Url Model Resolver Prog Config Secrets.
#[local] Open Scope string_scope.
#[local] Open Scope prog_scope.

(** What the providers use of serde_yaml: one document, and the documents of a stream. *)
Class YamlLib := {
  yaml_document : string -> result Spec.ResourceDocument string;
  yaml_stream : string -> list (result Spec.ResourceDocument string);
}.

(** ** Effects *)

(** The events of a Kubernetes watch ([watcher::Event]). *)
Inductive watch_item (S : Type) :=
  | Init
  | InitApply (object : KubeObject S)
  | InitDone
  | Apply (object : KubeObject S)
  | Delete (object : KubeObject S).
Arguments Init {S}.
Arguments InitApply {S} object.
Arguments InitDone {S}.
Arguments Apply {S} object.
Arguments Delete {S} object.

(** What a watch stream yields: [None] at its end, and errors in between. *)
Notation stream_item S := (option (result (watch_item S) string)).

(** The branches of the [select!] in the Kubernetes provider. The deadline is one of them only
    until a snapshot was published. *)
Definition deadline (published : bool) : Type := if published then Empty_set else unit.

Inductive kube_event (published : bool) :=
  | ReceiversClosed
  | DeadlinePassed (d : deadline published)
  | UpstreamWatch (e : stream_item Spec.UpstreamResourceSpec)
  | RelayWatch (e : stream_item Spec.RelayResourceSpec)
  | SecretWatch (e : stream_item unit)
  | RefreshTick.
Arguments ReceiversClosed {published}.
Arguments DeadlinePassed {published} d.
Arguments UpstreamWatch {published} e.
Arguments RelayWatch {published} e.
Arguments SecretWatch {published} e.
Arguments RefreshTick {published}.

(** The branches that cut a compilation short. *)
Inductive interruption (published : bool) :=
  | CutByReceivers
  | CutByDeadline (d : deadline published).
Arguments CutByReceivers {published}.
Arguments CutByDeadline {published} d.

Section Effects.
Context {U : UrlLib}.

Inductive provider_call :=
  | Read (c : read_call)
  | Send (s : ProviderSnapshot)                   (* [watch::Sender::send], whether a receiver is left *)
  | Pause                                         (* a tick of an interval, or a sleep *)
  | NextEvent (published : bool)
  | Interrupted (published : bool).

Definition provider_answer (c : provider_call) : Type :=
  match c with
  | Read c => read_answer c
  | Send _ => bool
  | Pause => unit
  | NextEvent published => kube_event published
  | Interrupted published => option (interruption published)
  end.
End Effects.

Notation provider_prog := (prog provider_call provider_answer).
Notation provider_log := (call_log provider_answer).

(** Where a run is: in its loop, or returned. *)
Inductive run_state := Running | Stopped (r : result unit string).

Section Providers.
Context {U : UrlLib} {J : JsonLib} {Y : YamlLib}.

Definition reads {A} (p : read_prog A) : provider_prog A := interp (fun c => call (Read c : provider_call)) p.

(** ** The interface

    A load of [n] pages may be short of them ([None]); [run n] is [n] passes of the loop. *)
Record ConfigProvider := {
  provider_name : string;
  load : nat -> read_prog (option (result ProviderSnapshot string));
  run : nat -> nat -> provider_prog run_state;
}.

Definition sends_valid (c : provider_call) : Prop :=
  match c with Send s => ValidSnapshot s | _ => True end.

(** What the process relies on: a provider loads and publishes valid snapshots only. *)
Class LawfulProvider (p : ConfigProvider) : Prop := {
  load_valid pages l s : runs (load p pages) l (Some (Ok s)) -> ValidSnapshot s;
  run_valid pages n : every sends_valid (run p pages n);
}.

(** ** Files *)

Definition DEFAULT_PATH : string := "/etc/oauthrelay/config.yaml".
Definition FILE_POLL_INTERVAL : Duration := from_secs 30.

Record FileProvider := {
  file_path : string;
  poll_interval : Duration;
  file_local : LocalSecrets;
  file_aws : option SecretResolver;
}.

Definition FileProvider_default : FileProvider := {|
  file_path := DEFAULT_PATH; poll_interval := FILE_POLL_INTERVAL; file_local := SystemLocalSecrets; file_aws := None |}.

Definition FileProvider_new (path : string) (poll_interval : Duration) : result FileProvider string :=
  if (poll_interval =? 0)%Z then Err "file provider poll interval must be greater than zero"
  else Ok {| file_path := path; poll_interval := poll_interval; file_local := SystemLocalSecrets; file_aws := None |}.

Definition file_with_local_secrets (p : FileProvider) (l : LocalSecrets) : FileProvider :=
  {| file_path := file_path p; poll_interval := poll_interval p; file_local := l; file_aws := file_aws p |}.

Definition file_with_aws_secrets (p : FileProvider) (r : SecretResolver) : FileProvider :=
  {| file_path := file_path p; poll_interval := poll_interval p; file_local := file_local p; file_aws := Some r |}.

(** [Path::parent] on Unix, on the reversed path: separators and [.] segments at the end do not
    count, and the root and the empty path have no parent. *)
Fixpoint trim_components (path : list ascii) : list ascii :=
  match path with
  | "/"%char :: ((_ :: _) as rest) => trim_components rest
  | "."%char :: (("/"%char :: _) as rest) => trim_components rest
  | _ => path
  end.

Fixpoint drop_component (path : list ascii) : list ascii :=
  match path with
  | [] => []
  | c :: rest => if bool_decide (c = "/"%char) then path else drop_component rest
  end.

Definition path_parent (path : string) : option string :=
  match trim_components (rev (String.list_ascii_of_string path)) with
  | [] | ["/"%char] => None
  | l => Some (String.string_of_list_ascii (rev (trim_components (drop_component l))))
  end.

Fixpoint collect {A} (l : list (result A string)) : result (list A) string :=
  match l with
  | [] => Ok []
  | Ok a :: l => match collect l with Ok r => Ok (a :: r) | Err e => Err e end
  | Err e :: _ => Err e
  end.

Definition parse_documents (yaml : string) : result (list Spec.ResourceDocument) string :=
  collect (context "parse resource document" <$> yaml_stream yaml).

(** [compile_resources(documents, &resolver)] *)
Definition compile_with (r : StandardSecretResolver) (documents : list Spec.ResourceDocument)
    : read_prog (result ProviderSnapshot string) :=
  interp (resolve_with (standard_resolver r)) (compile_resources documents).

Definition optional_aws (r : StandardSecretResolver) (aws : option SecretResolver) : StandardSecretResolver :=
  match aws with Some a => with_aws_secrets r a | None => r end.

Definition file_resolver (p : FileProvider) : StandardSecretResolver :=
  optional_aws (with_local_secrets (standard_new (Some (default "." (path_parent (file_path p))))) (file_local p))
    (file_aws p).

Definition file_load (p : FileProvider) : read_prog (result ProviderSnapshot string) :=
  contents <- call (ReadToString (file_path p)) ;;
  contents <-? context ("read " +:+ file_path p) contents ;;
  documents <-? parse_documents contents ;;
  compile_with (file_resolver p) documents.

Fixpoint file_loop (p : FileProvider) (passes : nat) : provider_prog run_state :=
  match passes with
  | O => Ret Running
  | S passes =>
      _ <- call (Pause : provider_call) ;;
      loaded <- reads (file_load p) ;;
      match loaded with
      | Ok s =>
          sent <- call (Send s) ;;
          if (sent : bool) then file_loop p passes else Ret (Stopped (Ok tt))
      | Err _ => file_loop p passes
      end
  end.

Definition file_run (p : FileProvider) (passes : nat) : provider_prog run_state :=
  first <- reads (file_load p) ;;
  match first with
  | Ok s =>
      sent <- call (Send s) ;;
      if (sent : bool) then
        _ <- call (Pause : provider_call) ;;
        file_loop p passes
      else Ret (Stopped (Err "registry receiver closed"))
  | Err e => Ret (Stopped (Err e))
  end.

Definition file_provider (p : FileProvider) : ConfigProvider := {|
  provider_name := "file";
  load _ := r <- file_load p ;; Ret (Some r);
  run _ := file_run p;
|}.

(** ** SSM *)

Definition DEFAULT_PREFIX : string := "/oauthrelay/".
Definition SSM_POLL_INTERVAL : Duration := from_secs 60.

Record SsmProvider := { prefix : string; ssm_poll_interval : Duration; ssm_local : LocalSecrets }.

Definition SsmProvider_new (prefix : string) (poll_interval : Duration) : result SsmProvider string :=
  if negb (starts_with "/" prefix) || negb (ends_with "/" prefix) then Err "SSM prefix must start and end with '/'"
  else if (poll_interval =? 0)%Z then Err "SSM poll interval must be greater than zero"
  else Ok {| prefix := prefix; ssm_poll_interval := poll_interval; ssm_local := SystemLocalSecrets |}.

Definition ssm_with_local_secrets (p : SsmProvider) (l : LocalSecrets) : SsmProvider :=
  {| prefix := prefix p; ssm_poll_interval := ssm_poll_interval p; ssm_local := l |}.

Definition expected_identity (prefix name : string) : result (string * string) string :=
  match strip_prefix prefix name with
  | None => Err (name +:+ ": parameter is outside the configured prefix")
  | Some relative =>
      match split "/" relative with
      | [segment; resource] =>
          if is_empty resource then Err (name +:+ ": expected " +:+ prefix +:+ "{upstreams|relays}/{name}")
          else if bool_decide (segment = "upstreams") then Ok ("Upstream", resource)
          else if bool_decide (segment = "relays") then Ok ("Relay", resource)
          else Err (name +:+ ": expected an upstreams or relays resource path")
      | _ => Err (name +:+ ": expected " +:+ prefix +:+ "{upstreams|relays}/{name}")
      end
  end.

(** One parameter of a page. *)
Definition resource_of (prefix : string) (p : SsmParameter) : result Spec.ResourceDocument string := (
  _ <-? (if bool_decide (parameter_type p <> PlainString)
         then Err (pm_name p +:+ ": resource documents must use the SSM String type") else Ok tt) ;;
  expected <-? expected_identity prefix (pm_name p) ;;
  document <-? context (pm_name p +:+ ": parse resource document") (yaml_document (pm_value p)) ;;
  if bool_decide ((Spec.kind document, Spec.document_name document) <> expected)
  then Err (pm_name p +:+ ": path identifies " +:+ expected.1 +:+ "/" +:+ expected.2 +:+ ", document identifies "
            +:+ Spec.kind document +:+ "/" +:+ Spec.document_name document)
  else Ok document)%relay.

(** The page loop of one path, from [token] on. *)
Fixpoint ssm_pages (prefix path : string) (fuel : nat) (token : option string) (documents : list Spec.ResourceDocument)
    : read_prog (option (result (list Spec.ResourceDocument) string)) :=
  match fuel with
  | O => Ret None
  | S fuel =>
      page <- get_parameters_by_path AwsSsmClient path token ;;
      match page with
      | Err e => Ret (Some (Err e))
      | Ok page =>
          match collect (resource_of prefix <$> parameters page) with
          | Err e => Ret (Some (Err e))
          | Ok found =>
              match next_token page with
              | Some token => ssm_pages prefix path fuel (Some token) (documents ++ found)
              | None => Ret (Some (Ok (documents ++ found)%list))
              end
          end
      end
  end.

(** [r?] on a load that may be short of pages. *)
Notation "x <-? p ';?' k" := (bind p (fun r => match r with
    | Some (Ok x) => k | Some (Err e) => Ret (Some (Err e)) | None => Ret None end))
  (at level 60, p at next level, right associativity) : prog_scope.

Definition ssm_resolver (p : SsmProvider) : StandardSecretResolver :=
  with_aws_secrets (with_local_secrets (standard_new None) (ssm_local p)) (AwsSecretResolver AwsSsmClient AwsSecretsManagerClient).

Definition ssm_load (p : SsmProvider) (fuel : nat) : read_prog (option (result ProviderSnapshot string)) :=
  documents <-? ssm_pages (prefix p) (prefix p +:+ "upstreams/") fuel None [] ;?
  documents <-? ssm_pages (prefix p) (prefix p +:+ "relays/") fuel None documents ;?
  r <- compile_with (ssm_resolver p) documents ;; Ret (Some r).

Fixpoint ssm_loop (p : SsmProvider) (fuel : nat) (has_sent : bool) (passes : nat) : provider_prog run_state :=
  match passes with
  | O => Ret Running
  | S passes =>
      loaded <- reads (ssm_load p fuel) ;;
      match loaded with
      | Some (Ok s) =>
          sent <- call (Send s) ;;
          if (sent : bool) then _ <- call (Pause : provider_call) ;; ssm_loop p fuel true passes
          else Ret (Stopped (Ok tt))
      | Some (Err e) =>
          if has_sent then _ <- call (Pause : provider_call) ;; ssm_loop p fuel has_sent passes
          else Ret (Stopped (Err e))
      | None => Ret Running
      end
  end.

Definition ssm_provider (p : SsmProvider) : ConfigProvider := {|
  provider_name := "ssm";
  load := ssm_load p;
  run pages := ssm_loop p pages false;
|}.

(** ** Lemmas *)

#[local] Open Scope list_scope.

Definition lifted (l : read_log) : provider_log :=
  (fun c => logged (Read (projT1 c)) (projT2 c : provider_answer (Read (projT1 c)))) <$> l.

Lemma reads_runs {A} (p : read_prog A) l a : runs (reads p) l a -> exists l', runs p l' a /\ l = lifted l'.
Proof.
  intros (l' & Hr & Hs)%interp_runs. exists l'. split; [done|]. clear Hr.
  induction Hs as [|c b l1 seg l2 Hc Hs IH]; [done|]. by apply runs_call in Hc as ->; simpl; rewrite IH.
Qed.

Lemma every_reads {A} (P : provider_call -> Prop) (p : read_prog A) :
  (forall c, P (Read c)) -> every P (reads p).
Proof. intros HP. induction p as [a|c k IH]; simpl; auto. Qed.

(** A load, then whatever is done with its result. *)
Lemma sends_valid_after {A B} (p : read_prog A) (f : A -> provider_prog B) :
  (forall l a, runs p l a -> every sends_valid (f a)) -> every sends_valid (bind (reads p) f).
Proof.
  intros Hf. apply every_bind_runs; [by apply every_reads|]. intros l a (l' & Hr & _)%reads_runs. by eapply Hf.
Qed.

Lemma compile_with_valid r documents l s : runs (compile_with r documents) l (Ok s) -> ValidSnapshot s.
Proof.
  intros (l' & Hr & _)%interp_runs. apply validate_snapshot_ok.
  by apply (compile_resources_runs documents l' (Ok s) Hr).
Qed.

Lemma file_load_valid p l s : runs (file_load p) l (Ok s) -> ValidSnapshot s.
Proof.
  intros (a & l' & -> & Hr). destruct a as [c|]; simpl in Hr; [|by destruct Hr].
  destruct (parse_documents c); [|by destruct Hr]. by eapply compile_with_valid.
Qed.

Lemma ssm_load_valid p fuel l s : runs (ssm_load p fuel) l (Some (Ok s)) -> ValidSnapshot s.
Proof.
  intros ([[d|]|] & l1 & l2 & -> & _ & Hr)%runs_bind; [|by destruct Hr..].
  apply runs_bind in Hr as ([[d'|]|] & l3 & l4 & -> & _ & Hr); [|by destruct Hr..].
  apply runs_bind in Hr as (r & l5 & l6 & -> & Hr & [_ [= <-]]). by eapply compile_with_valid.
Qed.

#[global] Instance file_lawful p : LawfulProvider (file_provider p).
Proof.
  split; cbn [load run file_provider].
  - intros _ l s (r & l1 & l2 & -> & Hr & [_ [= <-]])%runs_bind. by eapply file_load_valid.
  - intros _ n. unfold file_run. apply sends_valid_after. intros l [s|e] Hl; simpl; [|done].
    split; [by eapply file_load_valid|]. intros []; simpl; [|done]. split; [done|]. intros _. clear l s Hl.
    induction n as [|n IH]; [done|]. split; [done|]. intros u. apply sends_valid_after.
    intros l [s|e] Hl; simpl; [|done]. split; [by eapply file_load_valid|]. by intros [].
Qed.

#[global] Instance ssm_lawful p : LawfulProvider (ssm_provider p).
Proof.
  split; cbn [load run ssm_provider]; [intros pages l s; apply ssm_load_valid|].
  intros pages n. generalize false. induction n as [|n IH]; intros sent; [done|]. cbn [ssm_loop].
  apply sends_valid_after. intros l [[s|e]|] Hl; simpl; [| |done].
  - split; [by eapply ssm_load_valid|]. intros []; simpl; [|done]. split; [done|]. auto.
  - destruct sent; simpl; [|done]. split; [done|]. auto.
Qed.

(** *** Polling *)

(** The snapshots a run has published. *)
Definition published (l : provider_log) : list ProviderSnapshot :=
  omap (fun c => match projT1 c with Send s => Some s | _ => None end) l.

Lemma published_app l l' : published (l ++ l') = published l ++ published l'.
Proof. apply omap_app. Qed.

Lemma published_lifted l : published (lifted l) = [].
Proof. by induction l. Qed.

(** The receiver is there throughout. *)
Definition received (l : provider_log) : Prop := forall s, logged (Send s) false ∉ l.

Lemma received_app l l' : received (l ++ l') <-> received l /\ received l'.
Proof. unfold received. setoid_rewrite elem_of_app. naive_solver. Qed.

Lemma received_cons c l : received (c :: l) -> received l.
Proof. unfold received. setoid_rewrite elem_of_cons. naive_solver. Qed.

(** A run without its pauses. *)
Definition working (l : provider_log) : provider_log :=
  List.filter (fun c => match projT1 c with Pause => false | _ => true end) l.

Lemma working_app l l' : working (l ++ l') = working l ++ working l'.
Proof. apply List.filter_app. Qed.

Lemma working_lifted l : working (lifted l) = lifted l.
Proof. unfold working. induction l as [|c l IH]; [done|]. simpl. by f_equal. Qed.

(** One pass: the reads of a load with its result, and then the snapshot sent if there is one. *)
Definition pass_log (x : read_log * result ProviderSnapshot string) : provider_log :=
  lifted x.1 ++ match x.2 with Ok s => [logged (Send s) true] | Err _ => [] end.

Definition passes_log (loads : list (read_log * result ProviderSnapshot string)) : provider_log :=
  concat (pass_log <$> loads).

Lemma passes_cons x loads : passes_log (x :: loads) = pass_log x ++ passes_log loads.
Proof. done. Qed.

Lemma published_passes loads : published (passes_log loads) = omap (fun x => ok x.2) loads.
Proof.
  induction loads as [|[l [s|err]] loads IH]; [done|..]; rewrite passes_cons, published_app, IH;
    unfold pass_log; cbn [fst snd]; by rewrite published_app, published_lifted.
Qed.

Lemma published_working l : published (working l) = published l.
Proof. induction l as [|[[] a] l IH]; [done|..]; simpl; by rewrite ?IH. Qed.

Lemma published_of l loads : working l = passes_log loads -> published l = omap (fun x => ok x.2) loads.
Proof. intros Hl. by rewrite <-published_working, Hl, published_passes. Qed.

Lemma file_loop_polls p n l e :
  runs (file_loop p n) l e -> received l ->
  e = Running /\ exists loads, length loads = n /\ Forall (fun x => runs (file_load p) x.1 x.2) loads
    /\ working l = passes_log loads.
Proof.
  revert l. induction n as [|n IH]; intros l; cbn [file_loop].
  { intros [-> ->] _. split; [done|]. by exists []. }
  intros (u & l0 & -> & Hr) Hrec%received_cons. cbn [bind] in Hr.
  apply runs_bind in Hr as (r & l1 & l2 & -> & (lf & Hf & ->)%reads_runs & Hr).
  apply received_app in Hrec as [_ Hrec]. destruct r as [s|err].
  - destruct Hr as (b & l3 & -> & Hr). destruct b; [|destruct Hr as [-> _]; destruct (Hrec s); by left].
    destruct (IH l3 Hr) as (He & loads & Hn & Hl & Hp); [by eapply received_cons|].
    split; [done|]. exists ((lf, Ok s) :: loads). split_and!; [by simpl; rewrite Hn|by constructor|].
    simpl. rewrite working_app, working_lifted, passes_cons. simpl. unfold pass_log. simpl. by rewrite <-app_assoc, Hp.
  - destruct (IH l2 Hr Hrec) as (He & loads & Hn & Hl & Hp). split; [done|].
    exists ((lf, Err err) :: loads). split_and!; [by simpl; rewrite Hn|by constructor|].
    simpl. rewrite working_app, working_lifted, passes_cons. unfold pass_log. simpl. by rewrite app_nil_r, Hp.
Qed.

(** The log of an SSM run: passes, and perhaps a load that was short of pages at the end. *)
Definition ssm_passes (p : SsmProvider) (fuel n : nat) (l : provider_log)
    (loads : list (read_log * result ProviderSnapshot string)) : Prop :=
  Forall (fun x => runs (ssm_load p fuel) x.1 (Some x.2)) loads
  /\ ((length loads = n /\ working l = passes_log loads)
      \/ exists short, runs (ssm_load p fuel) short None /\ working l = passes_log loads ++ lifted short).

Lemma ssm_passes_cons p fuel n l lf r loads :
  runs (ssm_load p fuel) lf (Some r) -> ssm_passes p fuel n l loads ->
  forall l', working l' = pass_log (lf, r) ++ working l -> ssm_passes p fuel (S n) l' ((lf, r) :: loads).
Proof.
  intros Hf [Hl Hor] l' Hw. split; [by constructor|]. rewrite Hw, passes_cons.
  destruct Hor as [[Hn ->]|(short & Hs & ->)]; [left; simpl; by rewrite Hn|right]. exists short. by rewrite app_assoc.
Qed.

Lemma ssm_passes_short p fuel n lf : runs (ssm_load p fuel) lf None -> ssm_passes p fuel n (lifted lf) [].
Proof. intros Hf. split; [constructor|]. right. exists lf. by rewrite working_lifted. Qed.

Lemma ssm_published p fuel n l loads : ssm_passes p fuel n l loads -> published l = omap (fun x => ok x.2) loads.
Proof.
  intros [_ [[_ Hw]|(short & _ & Hw)]]; [by apply published_of|].
  by rewrite <-published_working, Hw, published_app, published_lifted, app_nil_r, published_passes.
Qed.

Lemma ssm_loop_polls p fuel n l e :
  runs (ssm_loop p fuel true n) l e -> received l -> e = Running /\ exists loads, ssm_passes p fuel n l loads.
Proof.
  revert l. induction n as [|n IH]; intros l; cbn [ssm_loop].
  { intros [-> ->] _. split; [done|]. exists []. split; [constructor|by left]. }
  intros (r & l1 & l2 & -> & (lf & Hf & ->)%reads_runs & Hr)%runs_bind [_ Hrec]%received_app.
  destruct r as [[s|err]|].
  - destruct Hr as (b & l3 & -> & Hr). destruct b; [|destruct Hr as [-> _]; destruct (Hrec s); by left].
    destruct Hr as (u & l4 & -> & Hr). apply received_cons, received_cons in Hrec.
    destruct (IH l4 Hr Hrec) as (He & loads & Hl). split; [done|]. exists ((lf, Ok s) :: loads).
    eapply ssm_passes_cons; [done..|]. rewrite working_app, working_lifted. unfold pass_log. simpl. by rewrite <-app_assoc.
  - destruct Hr as (u & l4 & -> & Hr). apply received_cons in Hrec.
    destruct (IH l4 Hr Hrec) as (He & loads & Hl). split; [done|]. exists ((lf, Err err) :: loads).
    eapply ssm_passes_cons; [done..|]. rewrite working_app, working_lifted. unfold pass_log. simpl. by rewrite app_nil_r.
  - destruct Hr as [-> ->]. split; [done|]. exists []. rewrite app_nil_r. by apply ssm_passes_short.
Qed.

(** *** Paths of parameters *)

Lemma expected_identity_spec prefix name kind resource :
  expected_identity prefix name = Ok (kind, resource) <->
  exists plural, (kind, plural) ∈ [("Upstream", "upstreams"); ("Relay", "relays")]
    /\ name = prefix +:+ plural +:+ "/" +:+ resource /\ resource <> "" /\ contains "/" resource = false.
Proof.
  unfold expected_identity. split.
  - destruct (strip_prefix prefix name) as [relative|] eqn:Hp; [|done]. apply strip_prefix_Some in Hp as ->.
    destruct (split "/" relative) as [|seg [|res []]] eqn:Hs; try done.
    assert (relative = seg +:+ "/" +:+ res) as -> by (rewrite <- (join_split "/" relative), Hs; done).
    assert (contains "/" res = false) as Hc by (apply (split_no_sep "/" (seg +:+ "/" +:+ res)); rewrite Hs; by right; left).
    destruct (is_empty res) eqn:He; [done|]. assert (res <> "") by (by intros ->).
    repeat case_bool_decide; simplify_eq; intros [= <- <-]; [exists "upstreams"|exists "relays"];
      (split; [set_solver|done]).
  - intros (plural & Hin & -> & Hne & Hc).
    assert (strip_prefix prefix (prefix +:+ plural +:+ "/" +:+ resource) = Some (plural +:+ "/" +:+ resource)) as ->
      by apply strip_prefix_app.
    assert (contains "/" plural = false) as Hp by (by set_unfold in Hin; destruct Hin as [|[|]]; simplify_eq).
    change (plural +:+ "/" +:+ resource) with (plural +:+ String "/" resource).
    rewrite split_app, (split_single _ plural Hp), (split_single _ resource Hc). simpl.
    assert (is_empty resource = false) as -> by (by destruct resource).
    by set_unfold in Hin; destruct Hin as [|[|]]; simplify_eq.
Qed.

(** *** Documents of parameters *)

(** [d] is what a plain parameter at its own path says, on a page that was read. *)
Definition from_parameter (prefix : string) (l : read_log) (d : Spec.ResourceDocument) : Prop :=
  exists path token page q value,
    read (SsmGetParametersByPath path token) (Ok page) l /\ q ∈ aws_parameters page
    /\ aws_type q = Some AwsString /\ aws_value q = Some value /\ yaml_document value = Ok d
    /\ aws_name q = Some (prefix +:+ (match d with Spec.Upstream _ => "upstreams/" | Spec.Relay _ => "relays/" end)
                          +:+ Spec.document_name d).

Lemma from_parameter_mono prefix l l' d : l ⊆ l' -> from_parameter prefix l d -> from_parameter prefix l' d.
Proof.
  intros Hl (path & token & page & q & v & Hr & H). exists path, token, page, q, v. split; [by apply Hl|done].
Qed.

Lemma collect_Ok {A} (l : list (result A string)) r : collect l = Ok r -> l = Ok <$> r.
Proof.
  revert r. induction l as [|[a|e] l IH]; simpl; intros r; [by intros [= <-]| |done].
  destruct (collect l) as [r'|]; [|done]. intros [= <-]. simpl. by rewrite (IH r').
Qed.

Lemma resource_of_Ok prefix q d :
  resource_of prefix q = Ok d ->
  parameter_type q = PlainString /\ yaml_document (pm_value q) = Ok d
  /\ expected_identity prefix (pm_name q) = Ok (Spec.kind d, Spec.document_name d).
Proof.
  unfold resource_of, context. case_bool_decide as Ht; [done|]. simpl.
  destruct (expected_identity prefix (pm_name q)) as [[k n]|]; simpl; [|done].
  destruct (yaml_document (pm_value q)) as [d'|]; simpl; [|done].
  case_bool_decide as Hi; [done|]. intros [= <-]. by rewrite Hi.
Qed.

Lemma convert_parameter_Some a q :
  convert_parameter a = Some q ->
  aws_name a = Some (pm_name q) /\ aws_value a = Some (pm_value q)
  /\ (parameter_type q = PlainString -> aws_type a = Some AwsString).
Proof.
  unfold convert_parameter. intros (t & Ht & (t' & Ht' & (n & Hn & (v & Hv & [= <-])%bind_Some)%bind_Some)%bind_Some)%bind_Some.
  simpl. split_and!; [done..|]. intros ->. rewrite Ht. by destruct t; simplify_eq.
Qed.

Lemma page_documents prefix path token (page : AwsParameterPage) found (l : read_log) :
  collect (resource_of prefix <$> omap convert_parameter (aws_parameters page)) = Ok found ->
  read (SsmGetParametersByPath path token) (Ok page) l ->
  forall d, d ∈ found -> from_parameter prefix l d.
Proof.
  intros Hc%collect_Ok Hr d Hd. assert (Ok d ∈ (Ok <$> found : list (result Spec.ResourceDocument string))) as Hin
    by by apply list_elem_of_fmap_2.
  rewrite <- Hc in Hin. apply list_elem_of_fmap in Hin as (q & Hq & (a & Ha & Hconv)%list_elem_of_omap).
  symmetry in Hq. destruct (resource_of_Ok _ _ _ Hq) as (Ht & Hy & Hi).
  destruct (convert_parameter_Some _ _ Hconv) as (Hn & Hv & Htype).
  exists path, token, page, a, (pm_value q). split_and!; [done..|by apply Htype|done|done|].
  rewrite Hn. f_equal. apply expected_identity_spec in Hi as (plural & Hin & -> & _).
  f_equal. destruct d; simpl in *; set_unfold in Hin; destruct Hin as [|[|]]; simplify_eq; done.
Qed.

Lemma ssm_pages_runs prefix path fuel token documents l r :
  runs (ssm_pages prefix path fuel token documents) l (Some (Ok r)) ->
  forall d, d ∈ r -> d ∈ documents \/ from_parameter prefix l d.
Proof.
  revert token documents l. induction fuel as [|fuel IH]; intros token documents l; simpl; [by intros [_ ?]|].
  intros (a & l' & -> & Hr). destruct a as [page|e]; simpl in Hr; [|by destruct Hr].
  destruct (collect _) as [found|] eqn:Hc; [|by destruct Hr].
  assert (forall d, d ∈ found -> from_parameter prefix (logged (SsmGetParametersByPath path token) (Ok page) :: l') d) as Hf.
  { eapply page_documents; [done|by left]. }
  destruct (aws_next_token page) as [next|].
  - intros d Hd. destruct (IH _ _ _ Hr d Hd) as [[?|?]%elem_of_app|Hp]; [by left|by right; apply Hf|right].
    by eapply from_parameter_mono, Hp; apply list_subseteq_cons.
  - destruct Hr as [-> [= ->]]. intros d [?|?]%elem_of_app; [by left|right; by apply Hf].
Qed.

(** The pages that had a successor. *)
Definition has_successor (c : { c : read_call & read_answer c }) : bool :=
  match c with
  | existT (SsmGetParametersByPath _ _) (Ok page) => bool_decide (is_Some (aws_next_token page))
  | _ => false
  end.

Definition continued (l : read_log) : nat := length (List.filter has_successor l).

Lemma ssm_pages_short prefix path fuel token documents l :
  runs (ssm_pages prefix path fuel token documents) l None -> (fuel <= continued l)%nat.
Proof.
  revert token documents l. induction fuel as [|fuel IH]; intros token documents l; simpl; [lia|].
  intros (a & l' & -> & Hr). destruct a as [page|e]; simpl in Hr; [|by destruct Hr].
  destruct (collect _) as [found|]; [|by destruct Hr].
  unfold continued. simpl. destruct (aws_next_token page) as [next|]; [|by destruct Hr].
  simpl. apply le_n_S. exact (IH _ _ _ Hr).
Qed.

(** *** Compilation with a resolver *)

(** The value of a secret: written in the document, or read where its source says. *)
Definition secret_of (base namespace : option string) (l : read_log) (secret : Spec.SecretValue) (v : string) : Prop :=
  match secret with
  | Spec.Value w => v = w
  | Spec.ValueFrom source => resolved base namespace source l v
  end.

Lemma served_answered base ns r l l' secret v :
  wired base ns r -> served (resolve_with (standard_resolver r)) l l' -> answered l secret v ->
  secret_of base ns l' secret v.
Proof.
  intros Hw Hs. destruct secret as [w|source]; simpl; intros Ha;
    destruct (served_call _ _ _ _ _ Hs Ha) as (seg & Hr & Hsub).
  - destruct Hr as [_ Hr]. by injection Hr.
  - eapply resolved_mono; [exact Hsub|]. by eapply source_resolved.
Qed.

Lemma compile_with_confined base ns r documents l res :
  wired base ns r -> runs (compile_with r documents) l res ->
  forall c a, logged c a ∈ l -> exists source, refers documents source /\ permitted base ns source c.
Proof.
  intros Hw Hr c a Hin. unfold compile_with in Hr.
  refine (every_runs (fun c => exists source, refers documents source /\ permitted base ns source c) _ l res c a _ Hr Hin).
  eapply every_interp; [apply every_compile_resources|]. intros [v|source] Href; simpl; [done|].
  eapply every_mono; [|by apply source_every]. simpl. eauto.
Qed.

Lemma upstream_of_secret key spec secret u : upstream_of key spec secret = Ok u -> up_client_secret u = secret.
Proof.
  unfold upstream_of. destruct (parse_url _ _); simpl; [|done].
  do 3 (destruct (parse_optional_url _ _); simpl; [|done]).
  destruct (context _ _); simpl; [|done]. by intros [= <-].
Qed.

Lemma relay_of_auth key up spec auth r : relay_of key up spec auth = Ok r -> client_auth r = auth.
Proof.
  unfold relay_of. destruct (compile_redirects _ _ _); simpl; [|done].
  do 2 (destruct (context _ _); simpl; [|done]). by intros [= <-].
Qed.

(** Every secret of [s] is the one its own document names. *)
Definition secrets_of (base namespace : option string) (documents : list Spec.ResourceDocument) (l : read_log)
    (s : ProviderSnapshot) : Prop :=
  (forall k u, upstreams s !! k = Some u -> exists r, Spec.Upstream r ∈ documents
     /\ k = ResourceKey_of (Spec.name (Spec.up_metadata r))
     /\ secret_of base namespace l (Spec.client_secret (Spec.oauth_client (Spec.up_spec r))) (up_client_secret u))
  /\ (forall k u id v, relays s !! k = Some u -> client_auth u = ClientSecret id v -> exists r secret,
     Spec.Relay r ∈ documents /\ k = ResourceKey_of (Spec.name (Spec.rl_metadata r))
     /\ Spec.client_authentication (Spec.rl_spec r) = Spec.ClientSecret id secret
     /\ secret_of base namespace l secret v).

Lemma compile_with_secrets base ns r documents l s :
  wired base ns r -> runs (compile_with r documents) l (Ok s) -> secrets_of base ns documents l s.
Proof.
  intros Hw (l' & Hr & Hs)%interp_runs.
  destruct (compile_resources_runs documents l' _ Hr) as [_ Hc].
  destruct (Hc s eq_refl) as (_ & ups & rels & Hsplit & Hups & Hrels).
  destruct (split_documents_Ok _ _ _ _ Hsplit) as (_ & _ & Hu & Hrl). split.
  - intros k u Hk. specialize (Hups k). rewrite Hk in Hups. destruct Hups as (d & Hd%Hu & -> & Hcu).
    exists d. split_and!; [done..|]. destruct Hcu as (key & secret & _ & Ha & Hof).
    rewrite (upstream_of_secret _ _ _ _ Hof). by eapply served_answered.
  - intros k u id v Hk Hauth. specialize (Hrels k). rewrite Hk in Hrels. destruct Hrels as (d & Hd%Hrl & -> & Hcr).
    destruct Hcr as (key & up & auth & _ & _ & Ha & Hof). rewrite (relay_of_auth _ _ _ _ _ Hof) in Hauth. subst auth.
    destruct (Spec.client_authentication (Spec.rl_spec d)) as [| |id' secret|] eqn:Hspec; simpl in Ha; try done.
    + destruct Ha as (v' & Ha & [= <- <-]). exists d, secret. split_and!; [done..|]. by eapply served_answered.
    + by destruct Ha as (? & _ & ?).
Qed.

Lemma file_resolver_wired p :
  file_local p = SystemLocalSecrets -> (forall a, file_aws p = Some a -> a = LazyAwsSecretResolver) ->
  wired (Some (default "." (path_parent (file_path p)))) None (file_resolver p).
Proof.
  intros Hl Ha. unfold file_resolver, optional_aws. destruct (file_aws p) as [a|]; (split; [done..| |done]); simpl; [|done].
  intros b [= <-]. left. by apply Ha.
Qed.

Lemma ssm_resolver_wired p : ssm_local p = SystemLocalSecrets -> wired None None (ssm_resolver p).
Proof. intros Hl. split; [done..| |done]. simpl. intros a [= <-]. by right. Qed.

(** ** Properties *)

(** C29: A secret is read where its document says, and nowhere else. Compilation with a provider's
    resolver makes, whatever the services answer, only reads that some source in the documents
    permits: its own variable, file, parameter or secret, with relative files under the base
    directory, absolute parameter names, and Kubernetes secrets of the provider's namespace whose
    names are single path segments. In the snapshot, every upstream and every relay has the secret
    of its own document, as it stands there or as it was read from its source. *)
Theorem secrets_from_their_sources base namespace r documents l res :
  wired base namespace r -> runs (compile_with r documents) l res ->
  (forall c a, logged c a ∈ l -> exists source, refers documents source /\ permitted base namespace source c)
  /\ (forall s, res = Ok s -> secrets_of base namespace documents l s).
Proof.
  intros Hw Hr. split; [by eapply compile_with_confined|]. intros s ->. by eapply compile_with_secrets.
Qed.

(** C28: A failed load leaves the last good snapshot in place. While the registry listens, the calls
    of both polling providers are, pauses apart, exactly these, pass by pass: the reads of one load,
    and then, if that load yields a snapshot, sending it; so what is published is what the loads
    yield, in order, a snapshot for every good load and nothing for a failed one. The first load
    must succeed, or the provider stops with its error and publishes nothing; after it no error ends
    the loop. (SSM: an unrolling may end in a load that is short of pages.) *)
Theorem polling_keeps_last_good :
  (forall p n l e, runs (file_run p n) l e -> received l -> exists loads,
     Forall (fun x => runs (file_load p) x.1 x.2) loads
     /\ working l = passes_log loads /\ published l = omap (fun x => ok x.2) loads
     /\ ((e = Running /\ length loads = S n /\ exists l0 s, head loads = Some (l0, Ok s))
         \/ exists l0 err, e = Stopped (Err err) /\ loads = [(l0, Err err)]))
  /\ (forall p fuel n l e, runs (ssm_loop p fuel false (S n)) l e -> received l ->
     (e = Running /\ exists loads, ssm_passes p fuel (S n) l loads
        /\ published l = omap (fun x => ok x.2) loads /\ forall l0 err, head loads <> Some (l0, Err err))
     \/ exists l0 err, runs (ssm_load p fuel) l0 (Some (Err err)) /\ e = Stopped (Err err) /\ l = lifted l0).
Proof.
  split.
  - intros p n l e (r & l1 & l2 & -> & (lf & Hf & ->)%reads_runs & Hr)%runs_bind [_ Hrec]%received_app.
    destruct r as [s|err].
    2: { destruct Hr as [-> ->]. exists [(lf, Err err)]. rewrite app_nil_r.
         assert (working (lifted lf) = passes_log [(lf, Err err)]) as Hw.
         { rewrite working_lifted. unfold passes_log, pass_log. simpl. by rewrite !app_nil_r. }
         split_and!; [by repeat constructor|exact Hw|by apply published_of|]. right. eauto. }
    destruct Hr as (b & l3 & -> & Hr). destruct b; [|destruct Hr as [-> _]; destruct (Hrec s); by left].
    destruct Hr as (u & l4 & -> & Hr). apply received_cons, received_cons in Hrec.
    destruct (file_loop_polls p n l4 e Hr Hrec) as (-> & loads & Hn & Hl & Hp).
    exists ((lf, Ok s) :: loads).
    assert (working (lifted lf ++ logged (Send s) true :: logged Pause u :: l4) = passes_log ((lf, Ok s) :: loads)) as Hw.
    { rewrite working_app, working_lifted, passes_cons, <-Hp. unfold pass_log. simpl. by rewrite <-app_assoc. }
    split_and!; [by constructor|exact Hw|by apply published_of|]. left. simpl. rewrite Hn. eauto.
  - intros p fuel n l e (r & l1 & l2 & -> & (lf & Hf & ->)%reads_runs & Hr)%runs_bind [_ Hrec]%received_app.
    destruct r as [[s|err]|].
    2: { destruct Hr as [-> ->]. right. exists lf, err. by rewrite app_nil_r. }
    2: { destruct Hr as [-> ->]. left. split; [done|]. exists []. rewrite app_nil_r, published_lifted.
         split_and!; [by apply ssm_passes_short|done|done]. }
    destruct Hr as (b & l3 & -> & Hr). destruct b; [|destruct Hr as [-> _]; destruct (Hrec s); by left].
    destruct Hr as (u & l4 & -> & Hr). apply received_cons, received_cons in Hrec.
    destruct (ssm_loop_polls p fuel n l4 e Hr Hrec) as (-> & loads & Hl). left. split; [done|].
    exists ((lf, Ok s) :: loads).
    assert (ssm_passes p fuel (S n) (lifted lf ++ logged (Send s) true :: logged Pause u :: l4) ((lf, Ok s) :: loads)) as Hp.
    { eapply ssm_passes_cons; [done..|]. rewrite working_app, working_lifted. unfold pass_log. simpl. by rewrite <-app_assoc. }
    split_and!; [done|by eapply ssm_published|done].
Qed.

(** C30: A resource is served only from its own path. When SSM loads, every upstream and every relay of
    the snapshot comes from a parameter that was listed, of the plain String type, whose name is the
    prefix, the plural of its kind and its own resource name; so whoever may write one parameter
    cannot define another resource. A load that is short of pages has seen a continuation token on
    every page it was given. *)
Theorem ssm_documents_at_their_paths p fuel l :
  (forall s, runs (ssm_load p fuel) l (Some (Ok s)) ->
     (forall k u, upstreams s !! k = Some u -> exists r, key_str k = Spec.name (Spec.up_metadata r)
        /\ from_parameter (prefix p) l (Spec.Upstream r))
     /\ (forall k u, relays s !! k = Some u -> exists r, key_str k = Spec.name (Spec.rl_metadata r)
        /\ from_parameter (prefix p) l (Spec.Relay r)))
  /\ (runs (ssm_load p fuel) l None -> (fuel <= continued l)%nat).
Proof.
  split.
  - intros s ([[d|]|] & l1 & l2 & -> & H1 & Hr)%runs_bind; [|by destruct Hr..].
    apply runs_bind in Hr as ([[d'|]|] & l3 & l4 & -> & H2 & Hr); [|by destruct Hr..].
    apply runs_bind in Hr as (r & l5 & l6 & -> & H3 & [-> [= <-]]).
    assert (forall x, x ∈ d' -> from_parameter (prefix p) (l1 ++ l3 ++ l5 ++ []) x) as Hd.
    { intros x Hx. destruct (ssm_pages_runs _ _ _ _ _ _ _ H2 x Hx) as [Hx1|Hp].
      - destruct (ssm_pages_runs _ _ _ _ _ _ _ H1 x Hx1) as [?%not_elem_of_nil|Hp]; [done|].
        eapply from_parameter_mono, Hp. set_solver.
      - eapply from_parameter_mono, Hp. set_solver. }
    apply interp_runs in H3 as (l' & Hc & _). destruct (compile_resources_runs d' l' _ Hc) as [_ Hs].
    destruct (Hs s eq_refl) as (_ & ups & rels & Hsplit & Hups & Hrels).
    destruct (split_documents_Ok _ _ _ _ Hsplit) as (_ & _ & Hu & Hrl). split.
    + intros k u Hk. specialize (Hups k). rewrite Hk in Hups. destruct Hups as (x & Hx%Hu & -> & _). eauto.
    + intros k u Hk. specialize (Hrels k). rewrite Hk in Hrels. destruct Hrels as (x & Hx%Hrl & -> & _). eauto.
  - intros ([[d|]|] & l1 & l2 & -> & H1 & Hr)%runs_bind; [|by destruct Hr|].
    + apply runs_bind in Hr as ([[d'|]|] & l3 & l4 & -> & H2 & Hr).
      * apply runs_bind in Hr as (r & l5 & l6 & _ & _ & Hr). by destruct Hr.
      * by destruct Hr.
      * apply ssm_pages_short in H2. unfold continued in *. rewrite !List.filter_app, !length_app. lia.
    + apply ssm_pages_short in H1. unfold continued in *. rewrite List.filter_app, length_app. lia.
Qed.
End Providers.

(** ** A file and two parameters *)

Module ProvidersExample.
Import PlainUrl.
#[local] Existing Instance SecretsExample.no_json.

(** A reader that knows one configuration and one document. *)
#[export] Instance plain_yaml : YamlLib := {
  yaml_document text :=
    if bool_decide (text = "google") then Ok (ConfigExample.upstream_document "google") else Err "not YAML";
  yaml_stream text :=
    if bool_decide (text = "configuration") then Ok <$> ConfigExample.docs else [Err "not YAML"];
}.

(** The file as it is at each reading. *)
Definition read_plain (files : list (result string string)) (c : read_call) : option (read_answer c * list (result string string)) :=
  match c with
  | EnvVar _ => Some (Ok "s3cret", files)
  | ReadToString _ => match files with f :: files => Some (f, files) | [] => None end
  | SsmGetParametersByPath path _ =>
      Some (Ok {| aws_parameters :=
        if bool_decide (path = "/oauthrelay/upstreams/")
        then [{| aws_name := Some "/oauthrelay/upstreams/google"; aws_value := Some "google"; aws_type := Some AwsString |}]
        else []; aws_next_token := None |}, files)
  | _ => None
  end.

Definition answer (files : list (result string string)) (c : provider_call)
    : option (provider_answer c * list (result string string)) :=
  match c with
  | Read c => read_plain files c
  | Send _ => Some (true, files)
  | Pause => Some (tt, files)
  | NextEvent _ | Interrupted _ => None
  end.

Definition files : FileProvider :=
  file_with_aws_secrets FileProvider_default LazyAwsSecretResolver.

Definition parameters : SsmProvider := 
  {| prefix := DEFAULT_PREFIX; ssm_poll_interval := SSM_POLL_INTERVAL; ssm_local := SystemLocalSecrets |}.

Example parent_of_paths :
  path_parent "/etc/oauthrelay/config.yaml" = Some "/etc/oauthrelay" /\ path_parent "config.yaml" = Some ""
  /\ path_parent "/config.yaml" = Some "/" /\ path_parent "etc//./config.yaml/" = Some "etc"
  /\ path_parent "/" = None /\ path_parent "" = None.
Proof. repeat split; vm_compute; reflexivity. Qed.

(** The file is good, then gone, then malformed, then good. *)
Definition contents : list (result string string) := [Ok "configuration"; Err "gone"; Ok "?"; Ok "configuration"].

Definition file_log : provider_log := match log_run answer (file_run files 3) contents with Some (_, _, l) => l | None => [] end.

Definition all_received (l : provider_log) : bool :=
  forallb (fun c : { c : provider_call & provider_answer c } => match c with existT (Send _) b => b | _ => true end) l.

Lemma all_received_spec l : all_received l = true -> received l.
Proof.
  unfold all_received. rewrite forallb_forall. intros Hall s Hin%list_elem_of_In. by specialize (Hall _ Hin).
Qed.

Lemma file_log_run : runs (file_run files 3) file_log Running /\ received file_log.
Proof.
  assert (match log_run answer (file_run files 3) contents with
          | Some (Running, _, l) => all_received l | _ => false end = true) as Hok by (vm_compute; reflexivity).
  unfold file_log. destruct (log_run _ _ _) as [[[[|r] w] l]|] eqn:Hl; [|done..].
  split; [by eapply log_run_runs|by apply all_received_spec].
Qed.

Lemma polling_keeps_last_good_witness : length (published file_log) = 2%nat
  /\ exists loads : list (read_log * result ProviderSnapshot string),
  working file_log = passes_log loads /\ published file_log = omap (fun x => ok x.2) loads /\ length loads = 4%nat.
Proof.
  split; [vm_compute; reflexivity|].
  destruct (proj1 polling_keeps_last_good files 3%nat file_log Running (proj1 file_log_run) (proj2 file_log_run))
    as (loads & _ & Hw & Hp & [(_ & Hn & _)|(l0 & err & He & _)]); [|discriminate He].
  exists loads. split; [exact Hw|]. split; [exact Hp|exact Hn].
Defined.

(** Secrets of a file's documents. *)
Definition compiled_log : read_log :=
  match log_run read_plain (compile_with (file_resolver files) ConfigExample.docs) [] with Some (_, _, l) => l | None => [] end.

Definition compiled : ProviderSnapshot :=
  match log_run read_plain (compile_with (file_resolver files) ConfigExample.docs) [] with
  | Some (Ok s, _, _) => s | _ => snapshot_default end.

Lemma compiled_run : runs (compile_with (file_resolver files) ConfigExample.docs) compiled_log (Ok compiled).
Proof.
  assert (match log_run read_plain (compile_with (file_resolver files) ConfigExample.docs) [] with
          | Some (r, _, _) => is_ok r | None => false end = true) as Hok by (vm_compute; reflexivity).
  unfold compiled_log, compiled. destruct (log_run _ _ _) as [[[[s|e] w] l]|] eqn:Hl; [|done..].
  by eapply log_run_runs.
Qed.

Lemma files_wired : wired (Some "/etc/oauthrelay") None (file_resolver files).
Proof. apply (file_resolver_wired files); [reflexivity|]. intros a Ha. by injection Ha. Qed.

Lemma secrets_from_their_sources_witness :
  secrets_of (Some "/etc/oauthrelay") None ConfigExample.docs compiled_log compiled.
Proof.
  exact (proj2 (secrets_from_their_sources _ _ _ _ _ _ files_wired compiled_run) compiled eq_refl).
Defined.

(** A load from SSM. *)
Definition ssm_log : read_log :=
  match log_run read_plain (ssm_load parameters 1) [] with Some (_, _, l) => l | None => [] end.

Definition loaded : ProviderSnapshot :=
  match log_run read_plain (ssm_load parameters 1) [] with Some (Some (Ok s), _, _) => s | _ => snapshot_default end.

Lemma ssm_run : runs (ssm_load parameters 1) ssm_log (Some (Ok loaded)).
Proof.
  assert (match log_run read_plain (ssm_load parameters 1) [] with
          | Some (Some r, _, _) => is_ok r | _ => false end = true) as Hok by (vm_compute; reflexivity).
  unfold ssm_log, loaded. destruct (log_run _ _ _) as [[[[[s|e]|] w] l]|] eqn:Hl; [|done..].
  by eapply log_run_runs.
Qed.

Lemma ssm_documents_at_their_paths_witness :
  is_ok (ok_or (upstreams loaded !! ResourceKey_of "google") "no such upstream") = true
  /\ forall k u, upstreams loaded !! k = Some u -> exists r, key_str k = Spec.name (Spec.up_metadata r)
       /\ from_parameter "/oauthrelay/" ssm_log (Spec.Upstream r).
Proof.
  split; [vm_compute; reflexivity|].
  exact (proj1 (proj1 (ssm_documents_at_their_paths parameters 1 ssm_log) loaded ssm_run)).
Defined.
End ProvidersExample.
