(* ===== verification/KubeProvider.v ===== *)
(** * KubeProvider: the Kubernetes configuration provider

    Models crates/oauthrelay-provider-kubernetes/src/lib.rs: the lists and watches of one
    namespace, the store of watched objects in which a relist becomes visible only when it is
    complete, the compilation of the objects with the generation of every relay, and the loop that
    publishes. The kube crate's streams are the events that [NextEvent] answers. *)

From stdpp Require Import sorting.
From S2P Require Import Prelude Text Json Url Model Resolver Prog Config Secrets Providers.
#[local] Open Scope string_scope.
#[local] Open Scope prog_scope.

Definition DEFAULT_REFRESH_INTERVAL : Duration := from_secs 60.
Definition INITIAL_SYNC_TIMEOUT : Duration := from_secs 60.
Definition REQUEST_TIMEOUT : Duration := from_secs 30.

Definition select_namespace (explicit : option string) (fallback : string) : result string string :=
  let namespace := default fallback explicit in
  if is_empty namespace || (63 <? String.length namespace)%nat
     || negb (str_all (fun c => is_lower c || is_digit c || bool_decide (c = "-"%char)) namespace)
     || negb (bounded_by_alphanumeric namespace)
  then Err "Kubernetes namespace must be a non-empty DNS label of at most 63 characters"
  else Ok namespace.

(** ** Objects *)

(** [ResourceExt::name_any] *)
Definition name_any {S} (o : KubeObject S) : string :=
  match ko_name o, ko_generate_name o with
  | Some name, _ => name
  | None, Some name => name
  | None, None => ""
  end.

(** [HashMap::from_iter]: of two pairs with one key, the later counts. *)
Definition from_pairs {V} (l : list (string * V)) : gmap string V := foldl (fun m p => <[p.1 := p.2]> m) ∅ l.

Definition relay_generations (relays : list (KubeObject Spec.RelayResourceSpec)) : gmap string string :=
  from_pairs (omap (fun o => name ← ko_name o; uid ← ko_uid o; Some (name, uid)) relays).

Definition metadata {S} (o : KubeObject S) (namespace : string) : result Spec.Metadata string :=
  if bool_decide (ko_namespace o <> Some namespace)
  then Err "resource is outside the Kubernetes provider namespace"
  else match ko_name o with
       | Some name => Ok {| Spec.namespace := Some namespace; Spec.name := name |}
       | None => Err "Kubernetes resource has no name"
       end.

Definition document_of {S} (namespace : string) (build : Spec.Metadata -> S -> Spec.ResourceDocument) (o : KubeObject S)
    : result Spec.ResourceDocument string :=
  match metadata o namespace with Ok m => Ok (build m (ko_spec o)) | Err e => Err e end.

Definition upstream_document (m : Spec.Metadata) (spec : Spec.UpstreamResourceSpec) : Spec.ResourceDocument :=
  Spec.Upstream {| Spec.up_api_version := Spec.V1Alpha1; Spec.up_metadata := m; Spec.up_spec := spec |}.

Definition relay_document (m : Spec.Metadata) (spec : Spec.RelayResourceSpec) : Spec.ResourceDocument :=
  Spec.Relay {| Spec.rl_api_version := Spec.V1Alpha1; Spec.rl_metadata := m; Spec.rl_spec := spec |}.

Definition documents (namespace : string) (upstreams : list (KubeObject Spec.UpstreamResourceSpec))
    (relays : list (KubeObject Spec.RelayResourceSpec)) : result (list Spec.ResourceDocument) string :=
  collect ((document_of namespace upstream_document <$> upstreams) ++ (document_of namespace relay_document <$> relays))%list.

(** ** The watched objects *)

(** [Store]; a [BTreeMap] is a [gmap] whose values are taken in the order of the keys. *)
Record Store (S : Type) := {
  objects : gmap string (KubeObject S);
  staging : option (gmap string (KubeObject S));
  initialized : bool;
}.
Arguments objects {S} _.
Arguments staging {S} _.
Arguments initialized {S} _.

Definition store_default {S} : Store S := {| objects := ∅; staging := None; initialized := false |}.

Definition ready {S} (s : Store S) : bool := initialized s && bool_decide (staging s = None).

Definition apply {S} (s : Store S) (event : watch_item S) : Store S * bool :=
  match event with
  | Init => ({| objects := objects s; staging := Some ∅; initialized := initialized s |}, false)
  | InitApply o =>
      ({| objects := objects s; staging := Some (<[name_any o := o]> (default ∅ (staging s)));
          initialized := initialized s |}, false)
  | InitDone => ({| objects := default ∅ (staging s); staging := None; initialized := true |}, true)
  | Apply o => ({| objects := <[name_any o := o]> (objects s); staging := staging s; initialized := initialized s |}, true)
  | Delete o => ({| objects := delete (name_any o) (objects s); staging := staging s; initialized := initialized s |}, true)
  end.

Definition key_le {V} (a b : string * V) : Prop := String.leb a.1 b.1 = true.
#[export] Instance key_le_dec {V} : RelDecision (@key_le V).
Proof. intros a b. unfold key_le. apply _. Defined.

Definition values {S} (m : gmap string (KubeObject S)) : list (KubeObject S) := (merge_sort key_le (map_to_list m)).*2.

Definition watch_event {S} (store : Store S) (event : stream_item S) (kind : string) : result (Store S * bool) string :=
  match event with
  | Some (Ok event) => Ok (apply store event)
  | Some (Err _) => Ok (store, false)
  | None => Err ("Kubernetes " +:+ kind +:+ " watch stopped")
  end.

Definition secret_name (secret : Spec.SecretValue) : option string :=
  match Spec.value_from secret with Some (Spec.SecretKeyRef name _) => Some name | _ => None end.

Definition referenced_secrets (upstreams : Store Spec.UpstreamResourceSpec) (relays : Store Spec.RelayResourceSpec)
    : gset string :=
  list_to_set (omap secret_name (
    ((fun o => Spec.client_secret (Spec.oauth_client (ko_spec o))) <$> values (objects upstreams))
    ++ omap (fun o => match Spec.client_authentication (ko_spec o) with
                      | Spec.ClientSecret _ secret => Some secret
                      | _ => None
                      end) (values (objects relays)))%list).

(** ** The provider *)

Record KubernetesProvider := { kube_namespace : string; refresh_interval : Duration; kube_aws : option SecretResolver }.

Definition KubernetesProvider_new (namespace : string) (refresh_interval : Duration) : result KubernetesProvider string :=
  match select_namespace (Some namespace) "" with
  | Err e => Err e
  | Ok namespace =>
      if (refresh_interval =? 0)%Z then Err "Kubernetes refresh interval must be greater than zero"
      else Ok {| kube_namespace := namespace; refresh_interval := refresh_interval; kube_aws := None |}
  end.

Definition kube_with_aws_secrets (p : KubernetesProvider) (r : SecretResolver) : KubernetesProvider :=
  {| kube_namespace := kube_namespace p; refresh_interval := refresh_interval p; kube_aws := Some r |}.

(** [tokio::time::timeout]: the future is dropped at any of its awaits. *)
Fixpoint timeout {A} (limit : Duration) (p : read_prog A) : read_prog (option A) :=
  match p with
  | Ret a => Ret (Some a)
  | Op c k => late <- call (TimedOut limit) ;; if (late : bool) then Ret None else Op c (fun a => timeout limit (k a))
  end.

(** The page loop of [list]. *)
Fixpoint list_pages {S} (page : option string -> read_prog (result (KubePage S) string)) (fuel : nat)
    (token : option string) (items : list (KubeObject S)) : read_prog (option (result (list (KubeObject S)) string)) :=
  match fuel with
  | O => Ret None
  | S fuel =>
      r <- page token ;;
      match r with
      | Err e => Ret (Some (Err e))
      | Ok p =>
          match kp_continue p with
          | Some token => if is_empty token then Ret (Some (Ok (items ++ kp_items p)%list))
                          else list_pages page fuel (Some token) (items ++ kp_items p)%list
          | None => Ret (Some (Ok (items ++ kp_items p)%list))
          end
      end
  end.

Section Provider.
Context {U : UrlLib} {J : JsonLib}.

Definition with_generation (r : Relay) (uid : string) : Relay := {|
  relay_key := relay_key r; relay_upstream := relay_upstream r; generation := Some uid; client_auth := client_auth r;
  scopes := scopes r; allowed_scopes := allowed_scopes r; required_id_token_claims := required_id_token_claims r;
  id_token_policy := id_token_policy r; refresh_tokens := refresh_tokens r; redirect_policy := redirect_policy r;
|}.

Definition with_generations (s : ProviderSnapshot) (generations : gmap string string) : ProviderSnapshot := {|
  upstreams := upstreams s;
  relays := map_imap (fun key r =>
    Some match generations !! key_str key with Some uid => with_generation r uid | None => r end) (relays s);
|}.

Definition kube_resolver (p : KubernetesProvider) : StandardSecretResolver :=
  optional_aws (with_kubernetes_secrets (standard_new None) (KubernetesSecrets (kube_namespace p))) (kube_aws p).

Definition kube_compile (p : KubernetesProvider) (upstreams : list (KubeObject Spec.UpstreamResourceSpec))
    (relays : list (KubeObject Spec.RelayResourceSpec)) : read_prog (result ProviderSnapshot string) :=
  let generations := relay_generations relays in
  docs <-? documents (kube_namespace p) upstreams relays ;;
  compiled <- timeout REQUEST_TIMEOUT (compile_with (kube_resolver p) docs) ;;
  snapshot <-? match compiled with
               | Some r => r
               | None => Err "Kubernetes configuration compilation timed out: deadline has elapsed"
               end ;;
  Ret (Ok (with_generations snapshot generations)).

(** [load]. [try_join!] runs the two lists concurrently and fails with the error that comes first;
    here they run one after the other. They neither wait for nor affect each other, so this
    changes only which error is seen when both fail. *)
Definition kube_load (p : KubernetesProvider) (fuel : nat) : read_prog (option (result ProviderSnapshot string)) :=
  loaded <- timeout INITIAL_SYNC_TIMEOUT (
    ups <- list_pages (fun token => call (KubeListUpstreams (kube_namespace p) token)) fuel None [] ;;
    match ups with
    | None => Ret None
    | Some (Err e) => Ret (Some (Err e))
    | Some (Ok ups) =>
        rels <- list_pages (fun token => call (KubeListRelays (kube_namespace p) token)) fuel None [] ;;
        match rels with
        | None => Ret None
        | Some (Err e) => Ret (Some (Err e))
        | Some (Ok rels) => r <- kube_compile p ups rels ;; Ret (Some r)
        end
    end) ;;
  Ret match loaded with
      | Some r => r
      | None => Some (Err "initial Kubernetes configuration read timed out: deadline has elapsed")
      end.

(** ** The loop *)

Record kube_stores := {
  ks_upstreams : Store Spec.UpstreamResourceSpec;
  ks_relays : Store Spec.RelayResourceSpec;
  ks_secrets : Store unit;
}.

Definition stores_default : kube_stores :=
  {| ks_upstreams := store_default; ks_relays := store_default; ks_secrets := store_default |}.

Definition all_ready (st : kube_stores) : bool :=
  ready (ks_upstreams st) && ready (ks_relays st) && ready (ks_secrets st).

(** Whether a change of secrets matters. *)
Definition relevant (st : kube_stores) (event : stream_item unit) : bool :=
  match event with
  | Some (Ok (Apply o | Delete o)) => bool_decide (name_any o ∈ referenced_secrets (ks_upstreams st) (ks_relays st))
  | _ => true
  end.

(** One branch of the [select!]: the stores after it and whether they changed, or the end. *)
Definition on_event {published} (st : kube_stores) (event : kube_event published)
    : (result unit string) + (kube_stores * bool) :=
  match event with
  | ReceiversClosed => inl (Ok tt)
  | DeadlinePassed _ => inl (Err "initial Kubernetes synchronization timed out")
  | UpstreamWatch e =>
      match watch_event (ks_upstreams st) e "Upstream" with
      | Ok (s, changed) => inr ({| ks_upstreams := s; ks_relays := ks_relays st; ks_secrets := ks_secrets st |}, changed)
      | Err e => inl (Err e)
      end
  | RelayWatch e =>
      match watch_event (ks_relays st) e "Relay" with
      | Ok (s, changed) => inr ({| ks_upstreams := ks_upstreams st; ks_relays := s; ks_secrets := ks_secrets st |}, changed)
      | Err e => inl (Err e)
      end
  | SecretWatch e =>
      match watch_event (ks_secrets st) e "Secret" with
      | Ok (s, changed) =>
          inr ({| ks_upstreams := ks_upstreams st; ks_relays := ks_relays st; ks_secrets := s |}, changed && relevant st e)
      | Err e => inl (Err e)
      end
  | RefreshTick => inr (st, true)
  end.

(** The second [select!]: a compilation that the receivers or the deadline cut short. *)
Fixpoint interruptible {A} (published : bool) (p : read_prog A) : provider_prog (interruption published + A) :=
  match p with
  | Ret a => Ret (inr a)
  | Op c k =>
      cut <- call (Interrupted published : provider_call) ;;
      match cut : option (interruption published) with
      | Some i => Ret (inl i)
      | None => Op (Read c : provider_call) (fun a => interruptible published (k a))
      end
  end.

(** Compiles and publishes; whether something has been published after it, or the end. *)
Definition publish (p : KubernetesProvider) (st : kube_stores) (published : bool)
    : provider_prog (result unit string + bool) :=
  r <- interruptible published (kube_compile p (values (objects (ks_upstreams st))) (values (objects (ks_relays st)))) ;;
  match r with
  | inl CutByReceivers => Ret (inl (Ok tt))
  | inl (CutByDeadline _) => Ret (inl (Err "initial Kubernetes synchronization timed out"))
  | inr (Ok s) => sent <- call (Send s) ;; Ret (if (sent : bool) then inr true else inl (Ok tt))
  | inr (Err e) =>
      Ret (if published then inr published else inl (Err ("invalid initial Kubernetes configuration: " +:+ e)))
  end.

Fixpoint kube_loop (p : KubernetesProvider) (passes : nat) (st : kube_stores) (published : bool) : provider_prog run_state :=
  match passes with
  | O => Ret Running
  | S passes =>
      event <- call (NextEvent published : provider_call) ;;
      match on_event st (event : kube_event published) with
      | inl r => Ret (Stopped r)
      | inr (st, changed) =>
          if changed && all_ready st then
            outcome <- publish p st published ;;
            match outcome with
            | inl r => Ret (Stopped r)
            | inr published => kube_loop p passes st published
            end
          else kube_loop p passes st published
      end
  end.

(** The first tick of the refresh interval comes at once. *)
Definition kube_run (p : KubernetesProvider) (passes : nat) : provider_prog run_state :=
  _ <- call (Pause : provider_call) ;; kube_loop p passes stores_default false.

Definition kube_provider (p : KubernetesProvider) : ConfigProvider := {|
  provider_name := "kubernetes";
  load := kube_load p;
  run _ := kube_run p;
|}.
End Provider.

(** ** Lemmas *)

#[local] Open Scope list_scope.

Lemma timeout_runs {A} limit (p : read_prog A) l a :
  runs (timeout limit p) l (Some a) -> exists l', runs p l' a /\ l' ⊆ l.
Proof.
  revert l. induction p as [b|c k IH]; intros l; simpl.
  - intros [-> [= ->]]. by exists [].
  - intros (late & l1 & -> & Hr). destruct late; [by destruct Hr|].
    destruct Hr as (b & l2 & -> & Hr). destruct (IH b l2 Hr) as (l' & Hr' & Hsub).
    exists (logged c b :: l'). split; [eauto|]. set_solver.
Qed.

Section Loop.
Context {U : UrlLib}.

Lemma interruptible_runs {A} b (p : read_prog A) l a :
  runs (interruptible b p) l (inr a) -> exists l', runs p l' a.
Proof.
  revert l. induction p as [x|c k IH]; intros l; simpl.
  - intros [-> [= ->]]. by exists [].
  - intros (cut & l1 & -> & Hr). destruct cut as [i|]; [by destruct Hr|].
    destruct Hr as (x & l2 & -> & Hr). destruct (IH x l2 Hr) as (l' & Hr'). exists (logged c x :: l'). simpl. eauto.
Qed.

Lemma every_interruptible {A} b (P : provider_call -> Prop) (p : read_prog A) :
  (forall c, P (Read c)) -> P (Interrupted b) -> every P (interruptible b p).
Proof.
  intros HR HI. induction p as [x|c k IH]; simpl; [done|]. split; [done|]. intros [i|]; simpl; auto.
Qed.
End Loop.

(** *** Values in the order of their keys *)

Lemma elem_of_values {S} (m : gmap string (KubeObject S)) o : o ∈ values m <-> exists k, m !! k = Some o.
Proof.
  unfold values. rewrite list_elem_of_fmap. setoid_rewrite merge_sort_Permutation.
  split; [intros ([k x] & -> & Hin); exists k; by apply elem_of_map_to_list in Hin|].
  intros [k Hk]. exists (k, o). split; [done|]. by apply elem_of_map_to_list.
Qed.

(** *** Generations *)

Lemma from_pairs_lookup {V} (l : list (string * V)) k v :
  NoDup l.*1 -> (k, v) ∈ l -> from_pairs l !! k = Some v.
Proof.
  unfold from_pairs. assert (forall m : gmap string V, NoDup l.*1 ->
    ((k, v) ∈ l \/ k ∉ l.*1 /\ m !! k = Some v) -> foldl (fun m p => <[p.1 := p.2]> m) m l !! k = Some v) as Hg; [|eauto].
  induction l as [|[k' v'] l IH]; simpl; intros m Hnd Hk.
  - destruct Hk as [?%not_elem_of_nil|[_ Hk]]; done.
  - apply NoDup_cons in Hnd as [Hnin Hnd]. apply IH; [done|].
    destruct Hk as [[[= <- <-]|Hin]%elem_of_cons|[Hk Hm]].
    + right. split; [done|]. by rewrite lookup_insert_eq.
    + by left.
    + right. apply not_elem_of_cons in Hk as [Hne Hk]. split; [done|]. by rewrite lookup_insert_ne.
Qed.

Lemma from_pairs_None {V} (l : list (string * V)) k : k ∉ l.*1 -> from_pairs l !! k = None.
Proof.
  unfold from_pairs. intros Hk. assert (forall m : gmap string V, m !! k = None ->
    foldl (fun m p => <[p.1 := p.2]> m) m l !! k = None) as Hg; [|apply Hg, lookup_empty].
  induction l as [|[k' v'] l IH]; simpl; intros m Hm; [done|].
  apply not_elem_of_cons in Hk as [Hne Hk]. apply IH; [done|]. by rewrite lookup_insert_ne.
Qed.

(** With distinct names, an object's generation is its own uid. *)
Lemma relay_generations_lookup l o name :
  NoDup (ko_name <$> l) -> o ∈ l -> ko_name o = Some name -> relay_generations l !! name = ko_uid o.
Proof.
  intros Hnd Hin Hn. unfold relay_generations.
  set (pair_of := fun o : KubeObject Spec.RelayResourceSpec => name ← ko_name o; uid ← ko_uid o; Some (name, uid)).
  assert (forall x, x ∈ (omap pair_of l).*1 -> exists o', o' ∈ l /\ ko_name o' = Some x /\ is_Some (ko_uid o')) as Hfst.
  { intros x ([n u] & -> & (o' & Ho' & Hp)%list_elem_of_omap)%list_elem_of_fmap. exists o'. unfold pair_of in Hp.
    destruct (ko_name o') eqn:E1, (ko_uid o') eqn:E2; simplify_eq/=. eauto. }
  assert (NoDup (omap pair_of l).*1) as Hnd'.
  { clear Hin Hfst. induction l as [|o' l IH]; simpl; [constructor|].
    inversion_clear Hnd as [|? ? Hnew Hnd'].
    assert (NoDup (omap pair_of l).*1) as Hl by auto. unfold pair_of at 1.
    destruct (ko_name o') as [n|] eqn:En; simpl; [|done]. destruct (ko_uid o') as [u|]; simpl; [|done].
    constructor; [|done]. intros ([n' u'] & -> & (o2 & Ho2 & Hp)%list_elem_of_omap)%list_elem_of_fmap.
    apply Hnew. apply list_elem_of_fmap. exists o2. split; [|done]. unfold pair_of in Hp.
    destruct (ko_name o2), (ko_uid o2); by simplify_eq/=. }
  destruct (ko_uid o) as [uid|] eqn:Hu.
  - apply from_pairs_lookup; [done|]. apply list_elem_of_omap. exists o. split; [done|]. unfold pair_of. by rewrite Hn, Hu.
  - apply from_pairs_None. intros Hx. destruct (Hfst _ Hx) as (o' & Ho' & Hn' & Hu').
    assert (o' = o) as ->; [|rewrite Hu in Hu'; by destruct Hu'].
    eapply (NoDup_fmap_inv ko_name); [done..|congruence].
Qed.

Section Compiled.
Context {U : UrlLib} {J : JsonLib}.

Lemma with_generation_valid s g : ValidSnapshot s -> ValidSnapshot (with_generations s g).
Proof.
  intros [Hu Hr Hx]. assert (forall k r, relays (with_generations s g) !! k = Some r -> exists r0,
    relays s !! k = Some r0 /\ Model.validate r = Model.validate r0 /\ relay_upstream r = relay_upstream r0) as Hg.
  { intros k r. simpl. rewrite map_lookup_imap. destruct (relays s !! k) as [r0|]; simpl; [|done].
    intros [= <-]. exists r0. split; [done|]. by destruct (g !! key_str k). }
  split; simpl.
  - exact Hu.
  - intros k r (r0 & Hk & -> & _)%Hg. by eapply Hr.
  - intros k r (r0 & Hk & _ & ->)%Hg. by eapply Hx.
Qed.

Lemma kube_compile_runs p ups rels l s :
  runs (kube_compile p ups rels) l (Ok s) -> exists docs l' s', documents (kube_namespace p) ups rels = Ok docs
    /\ runs (compile_with (kube_resolver p) docs) l' (Ok s') /\ l' ⊆ l
    /\ s = with_generations s' (relay_generations rels).
Proof.
  unfold kube_compile. destruct (documents _ _ _) as [docs|]; [|by intros [_ ?]].
  intros ([r|] & l1 & l2 & -> & Ht & Hr)%runs_bind; [|by destruct Hr].
  destruct (timeout_runs _ _ _ _ Ht) as (l' & Hl' & Hsub).
  destruct r as [s'|e]; destruct Hr as [-> Heq]; [|done]. injection Heq as ->.
  exists docs, l', s'. split_and!; [done..|set_solver|done].
Qed.

Lemma kube_compile_valid p ups rels l s : runs (kube_compile p ups rels) l (Ok s) -> ValidSnapshot s.
Proof.
  intros (docs & l' & s' & _ & Hr & _ & ->)%kube_compile_runs. apply with_generation_valid.
  by eapply compile_with_valid.
Qed.

Lemma kube_load_valid p fuel l s : runs (kube_load p fuel) l (Some (Ok s)) -> ValidSnapshot s.
Proof.
  intros ([r|] & l1 & l2 & -> & Ht & [_ Hr])%runs_bind; [|done]. subst r.
  destruct (timeout_runs _ _ _ _ Ht) as (l' & Hl' & _).
  apply runs_bind in Hl' as ([[ups|]|] & l3 & l4 & -> & _ & Hr); [|by destruct Hr..].
  apply runs_bind in Hr as ([[rels|]|] & l5 & l6 & -> & _ & Hr); [|by destruct Hr..].
  apply runs_bind in Hr as (r & l7 & l8 & -> & Hr & [_ [= <-]]). by eapply kube_compile_valid.
Qed.

Lemma publish_valid p st b : every sends_valid (publish p st b).
Proof.
  unfold publish. apply every_bind_runs; [by apply every_interruptible|].
  intros l [[|]|[s|e]] Hr; simpl; [done..| |done]. split; [|done].
  apply interruptible_runs in Hr as (l' & Hr). by eapply kube_compile_valid.
Qed.

#[global] Instance kube_lawful p : LawfulProvider (kube_provider p).
Proof.
  split; cbn [load run kube_provider]; [intros pages l s; apply kube_load_valid|].
  intros _ n. split; [done|]. intros u. cbn [bind]. generalize stores_default, false.
  induction n as [|n IH]; intros st b; [done|]. split; [done|]. intros e. cbn [bind].
  destruct (on_event st e) as [r|[st' changed]]; [done|]. destruct (changed && all_ready st'); [|by apply IH].
  apply every_bind; [apply publish_valid|]. intros [r|b']; [done|]. apply IH.
Qed.

(** *** Objects and documents *)

Lemma document_of_Ok {S} namespace (build : Spec.Metadata -> S -> Spec.ResourceDocument) o d :
  document_of namespace build o = Ok d -> exists name, ko_name o = Some name /\ ko_namespace o = Some namespace
    /\ d = build {| Spec.namespace := Some namespace; Spec.name := name |} (ko_spec o).
Proof.
  unfold document_of, metadata. case_bool_decide as Hns; [done|].
  destruct (ko_name o) as [name|]; [|done]. intros [= <-]. eauto.
Qed.

Lemma documents_Ok namespace ups rels docs :
  documents namespace ups rels = Ok docs -> exists du dr, docs = du ++ dr
    /\ document_of namespace upstream_document <$> ups = Ok <$> du
    /\ document_of namespace relay_document <$> rels = Ok <$> dr.
Proof.
  intros Hc%collect_Ok. symmetry in Hc. apply fmap_app_inv in Hc as (du & dr & Hu & Hr & ->).
  exists du, dr. by rewrite Hu, Hr.
Qed.

Lemma elem_of_Ok_fmap {A B} (f : A -> result B string) (l : list A) (r : list B) b : f <$> l = Ok <$> r -> b ∈ r -> exists a, a ∈ l /\ f a = Ok b.
Proof.
  intros Heq Hb. assert (Ok b ∈ f <$> l) as (a & Ha & Hin)%list_elem_of_fmap by (rewrite Heq; by apply list_elem_of_fmap_2).
  by exists a.
Qed.

Lemma elem_of_fmap_Ok {A B} (f : A -> result B string) (l : list A) (r : list B) a : f <$> l = Ok <$> r -> a ∈ l -> exists b, b ∈ r /\ f a = Ok b.
Proof.
  intros Heq Ha. assert (f a ∈ (Ok <$> r : list (result B string))) as (b & Hb & Hin)%list_elem_of_fmap
    by (rewrite <- Heq; by apply list_elem_of_fmap_2).
  by exists b.
Qed.

Lemma relay_names namespace rels dr :
  document_of namespace relay_document <$> rels = Ok <$> dr -> NoDup (identity_of <$> dr) -> NoDup (ko_name <$> rels).
Proof.
  revert dr. induction rels as [|o rels IH]; intros dr Heq Hnd; [constructor|].
  destruct dr as [|d dr]; [done|]. simpl in Heq. injection Heq as Ho Heq. simpl in Hnd.
  inversion_clear Hnd as [|? ? Hnew Hnd']. simpl. constructor; [|by eapply IH].
  intros (o' & Hn & Ho')%list_elem_of_fmap. apply Hnew. apply list_elem_of_fmap.
  destruct (elem_of_fmap_Ok _ _ _ _ Heq Ho') as (d' & Hd' & Hdoc').
  apply document_of_Ok in Ho as (n & Hname & _ & ->). apply document_of_Ok in Hdoc' as (n' & Hname' & _ & ->).
  eexists. split; [|exact Hd']. unfold identity_of. simpl. congruence.
Qed.

Lemma relay_of_generation key up spec auth r : relay_of key up spec auth = Ok r -> generation r = None.
Proof.
  unfold relay_of. destruct (compile_redirects _ _ _); simpl; [|done].
  do 2 (destruct (context _ _); simpl; [|done]). by intros [= <-].
Qed.

Lemma kube_resolver_wired p :
  (forall a, kube_aws p = Some a -> a = LazyAwsSecretResolver) -> wired None (Some (kube_namespace p)) (kube_resolver p).
Proof.
  intros Ha. unfold kube_resolver, optional_aws. destruct (kube_aws p) as [a|]; (split; [done..| |done]); simpl; [|done].
  intros b [= <-]. left. by apply Ha.
Qed.

(** *** What the loop has seen *)










(** ** Properties *)

(** A relist becomes visible at once or not at all. From any state of the store, while the objects
    of a relist arrive the visible objects stay what they were and the store is not ready; when it is
    done, the visible objects are exactly those of the relist, so the objects that are gone are
    gone, and the store is ready. A relist that starts over forgets the one before it. *)
Theorem relist_is_atomic {S} (s : Store S) (listed : list (KubeObject S)) :
  let events := foldl (fun s e => (apply s e).1) in
  let during := events s (Init :: (InitApply <$> listed)) in
  objects during = objects s /\ ready during = false
  /\ objects (apply during InitDone).1 = from_pairs ((fun o => (name_any o, o)) <$> listed)
  /\ ready (apply during InitDone).1 = true /\ (apply during InitDone).2 = true
  /\ forall abandoned, events s (Init :: (InitApply <$> abandoned) ++ Init :: (InitApply <$> listed)) = during.
Proof.
  assert (forall (s : Store S) m, staging s = Some m ->
    foldl (fun s e => (apply s e).1) s (InitApply <$> listed)
    = {| objects := objects s; initialized := initialized s;
         staging := Some (foldl (fun m p => <[p.1 := p.2]> m) m ((fun o => (name_any o, o)) <$> listed)) |}) as Hg.
  { induction listed as [|o listed IH]; intros t m Ht; simpl; [by destruct t; simpl in *; subst|].
    erewrite IH; simpl; [|done]. by rewrite Ht. }
  assert (forall abandoned (t : Store S), objects (foldl (fun s e => (apply s e).1) t (InitApply <$> abandoned)) = objects t
    /\ initialized (foldl (fun s e => (apply s e).1) t (InitApply <$> abandoned)) = initialized t) as Ha.
  { induction abandoned as [|o abandoned IH]; intros t; [done|]. rewrite fmap_cons. cbn [foldl].
    destruct (IH (apply t (InitApply o)).1) as [-> ->]. done. }
  simpl. rewrite (Hg _ ∅) by done. unfold ready, from_pairs. simpl. split_and!; [done|by rewrite andb_false_r|done..|].
  intros abandoned. rewrite foldl_app. simpl. rewrite (Hg _ ∅) by done. simpl.
  match goal with |- context [foldl _ ?t (InitApply <$> abandoned)] => destruct (Ha abandoned t) as [-> ->] end. done.
Qed.


(** C32: A relay's generation is its object's uid. A successful compilation serves exactly the objects of
    the provider's own namespace, each under its own name, and every relay carries the uid of the
    object it comes from: a relay that was deleted and created again under the same name has another
    generation. *)
Theorem kubernetes_relays_of_objects p ups rels l s :
  runs (kube_compile p ups rels) l (Ok s) ->
  (forall k r, relays s !! k = Some r -> exists o, o ∈ rels /\ ko_name o = Some (key_str k)
     /\ ko_namespace o = Some (kube_namespace p) /\ generation r = ko_uid o)
  /\ (forall k u, upstreams s !! k = Some u -> exists o, o ∈ ups /\ ko_name o = Some (key_str k)
     /\ ko_namespace o = Some (kube_namespace p))
  /\ (forall o, o ∈ rels -> exists name r, ko_name o = Some name /\ relays s !! ResourceKey_of name = Some r)
  /\ (forall o, o ∈ ups -> exists name u, ko_name o = Some name /\ upstreams s !! ResourceKey_of name = Some u).
Proof.
  intros (docs & l' & s' & Hdocs & Hr & _ & ->)%kube_compile_runs.
  apply interp_runs in Hr as (lc & Hc & _). destruct (compile_resources_runs docs lc _ Hc) as [_ Hs].
  destruct (Hs s' eq_refl) as (_ & us & rs & Hsplit & Hups & Hrels).
  destruct (split_documents_Ok _ _ _ _ Hsplit) as (Hnd & _ & Hu & Hrl).
  destruct (documents_Ok _ _ _ _ Hdocs) as (du & dr & -> & Hdu & Hdr).
  rewrite fmap_app in Hnd. apply NoDup_app in Hnd as (_ & _ & Hndr). pose proof (relay_names _ _ _ Hdr Hndr) as Hnames.
  assert (forall x, x ∈ rs -> exists o, o ∈ rels /\ ko_namespace o = Some (kube_namespace p)
    /\ ko_name o = Some (Spec.name (Spec.rl_metadata x))) as Hrs.
  { intros x [Hx|Hx]%Hrl%elem_of_app.
    - destruct (elem_of_Ok_fmap _ _ _ _ Hdu Hx) as (o & _ & (n & _ & _ & ?)%document_of_Ok). done.
    - destruct (elem_of_Ok_fmap _ _ _ _ Hdr Hx) as (o & Ho & (n & Hn & Hns & [= ->])%document_of_Ok). eauto. }
  split_and!; simpl.
  - intros k r. rewrite map_lookup_imap. destruct (relays s' !! k) as [r0|] eqn:Hk; simpl; [|done]. intros [= <-].
    specialize (Hrels k). rewrite Hk in Hrels. destruct Hrels as (x & Hx & -> & Hcr).
    destruct (Hrs x Hx) as (o & Ho & Hns & Hn). exists o. split_and!; [done..|].
    simpl. rewrite (relay_generations_lookup _ _ _ Hnames Ho Hn).
    destruct Hcr as (key & up & auth & _ & _ & _ & Hof). apply relay_of_generation in Hof.
    destruct (ko_uid o); [done|exact Hof].
  - intros k u Hk. specialize (Hups k). rewrite Hk in Hups. destruct Hups as (x & Hx%Hu & -> & _).
    apply elem_of_app in Hx as [Hx|Hx].
    + destruct (elem_of_Ok_fmap _ _ _ _ Hdu Hx) as (o & Ho & (n & Hn & Hns & [= ->])%document_of_Ok). eauto.
    + destruct (elem_of_Ok_fmap _ _ _ _ Hdr Hx) as (o & _ & (n & _ & _ & ?)%document_of_Ok). done.
  - intros o Ho. destruct (elem_of_fmap_Ok _ _ _ _ Hdr Ho) as (d & Hd & (n & Hn & _ & ->)%document_of_Ok).
    specialize (Hrels (ResourceKey_of n)). exists n. rewrite map_lookup_imap.
    destruct (relays s' !! ResourceKey_of n) as [r|] eqn:Hk; simpl; [eauto|].
    by destruct (Hrels _ (proj1 (Hrl _) (proj2 (elem_of_app _ _ _) (or_intror Hd)))).
  - intros o Ho. destruct (elem_of_fmap_Ok _ _ _ _ Hdu Ho) as (d & Hd & (n & Hn & _ & ->)%document_of_Ok).
    specialize (Hups (ResourceKey_of n)). exists n.
    destruct (upstreams s' !! ResourceKey_of n) as [r|] eqn:Hk; simpl; [eauto|].
    by destruct (Hups _ (proj1 (Hu _) (proj2 (elem_of_app _ _ _) (or_introl Hd)))).
Qed.
End Compiled.

(** ** A namespace with one relay *)

Module KubeProviderExample.
Import PlainUrl.
#[local] Existing Instance SecretsExample.no_json.

Definition object {S} (name uid : string) (spec : S) : KubeObject S :=
  {| ko_name := Some name; ko_generate_name := None; ko_namespace := Some "apps"; ko_uid := Some uid; ko_spec := spec |}.

Definition upstream_objects : list (KubeObject Spec.UpstreamResourceSpec) :=
  match ConfigExample.upstream_document "google" with
  | Spec.Upstream r => [object "google" "u1" (Spec.up_spec r)]
  | Spec.Relay _ => []
  end.

Definition relay_objects : list (KubeObject Spec.RelayResourceSpec) :=
  match ConfigExample.relay_document with
  | Spec.Relay r => [object "app" "r1" (Spec.rl_spec r)]
  | Spec.Upstream _ => []
  end.

Definition provider : KubernetesProvider :=
  {| kube_namespace := "apps"; refresh_interval := from_secs 60; kube_aws := None |}.


Definition read_plain (w : nat) (c : read_call) : option (read_answer c * nat) :=
  match c with
  | EnvVar _ => Some (Ok "s3cret", w)
  | TimedOut _ => Some (false, w)
  | _ => None
  end.







Definition compile_log : read_log :=
  match log_run read_plain (kube_compile provider upstream_objects relay_objects) 0 with
  | Some (_, _, l) => l | None => [] end.

Definition compiled : ProviderSnapshot :=
  match log_run read_plain (kube_compile provider upstream_objects relay_objects) 0 with
  | Some (Ok s, _, _) => s | _ => snapshot_default end.

Lemma compile_run : runs (kube_compile provider upstream_objects relay_objects) compile_log (Ok compiled).
Proof.
  assert (match log_run read_plain (kube_compile provider upstream_objects relay_objects) 0 with
          | Some (r, _, _) => is_ok r | None => false end = true) as Hok by (vm_compute; reflexivity).
  unfold compile_log, compiled. destruct (log_run _ _ _) as [[[[s|e] w] l]|] eqn:Hl; [|done..].
  by eapply log_run_runs.
Qed.

Lemma kubernetes_relays_of_objects_witness :
  exists r, relays compiled !! ResourceKey_of "app" = Some r /\ generation r = Some "r1".
Proof.
  destruct (kubernetes_relays_of_objects provider upstream_objects relay_objects compile_log compiled compile_run)
    as (Hrel & _ & Hin & _).
  destruct (Hin _ (list_elem_of_here _ _)) as (name & r & Hn & Hr). exists r.
  destruct (Hrel _ _ Hr) as (o & [->|Ho%not_elem_of_nil]%elem_of_cons & Hname & _ & Hg); [|destruct Ho].
  injection Hn as <-. split; [exact Hr|exact Hg].
Defined.
End KubeProviderExample.
