(* ===== verification/Process.v ===== *)
(** * Process: the running process

    Models how crates/oauthrelay/src/main.rs runs the providers: one task a provider, a watch
    channel between each and the main task, the first snapshots, the check before serving, the
    updater that merges what has changed, and on Lambda the refresh at invocations. The tasks
    interleave at their calls; [handle] is the documented behaviour of tokio's watch channel. *)

From stdpp Require Import sorting.
From S2P Require Import Prelude Text Json Url Model Resolver Prog Config Secrets Providers.
#[local] Open Scope string_scope.
#[local] Open Scope prog_scope.

Section Process.
Context {U : UrlLib}.

(** ** Effects *)

Inductive main_call :=
  | Provide (c : provider_call)                 (* a provider's own call; [Send] is to its channel *)
  | DropSender                                  (* a provider's [run] has returned *)
  | Changed (channel : nat)                     (* [Receiver::changed] *)
  | HasChanged (channel : nat)                  (* [Receiver::has_changed] *)
  | BorrowAndUpdate (channel : nat)
  | Borrow (channel : nat)
  | Replace (s : ProviderSnapshot)              (* [Registry::replace] *)
  | Snapshot                                    (* [Registry::snapshot] *)
  | Serve                                       (* requests are answered from here on *)
  | SystemNow.                                  (* [SystemTime::now] *)

Definition main_answer (c : main_call) : Type :=
  match c with
  | Provide c => provider_answer c
  | Changed _ => result unit unit
  | HasChanged _ => result bool unit
  | Borrow _ | Snapshot => ProviderSnapshot
  | SystemNow => Z
  | DropSender | BorrowAndUpdate _ | Replace _ | Serve => unit
  end.

#[local] Notation main_prog := (prog main_call main_answer).

(** ** Programs *)

(** The task of a provider. *)
Definition provider_task (p : ConfigProvider) (pages passes : nat) : main_prog (result unit string) :=
  e <- interp (fun c => call (Provide c : main_call)) (run p pages passes) ;;
  match e with
  | Running => Ret (Ok tt)
  | Stopped r => _ <- call (DropSender : main_call) ;; Ret r
  end.

Fixpoint await_initial_snapshots (names : list string) (channel : nat) : main_prog (result unit string) :=
  match names with
  | [] => Ret (Ok tt)
  | name :: names =>
      r <- call (Changed channel : main_call) ;;
      match r : result unit unit with
      | Ok _ => await_initial_snapshots names (S channel)
      | Err _ => Ret (Err ("provider " +:+ name +:+ " stopped before its first snapshot"))
      end
  end.

Fixpoint borrow_all (names : list string) (channel : nat) : main_prog (list (string * ProviderSnapshot)) :=
  match names with
  | [] => Ret []
  | name :: names =>
      s <- call (Borrow channel : main_call) ;;
      rest <- borrow_all names (S channel) ;;
      Ret ((name, s : ProviderSnapshot) :: rest)
  end.

Definition replace_registry (names : list string) : main_prog unit :=
  snapshots <- borrow_all names 0 ;; call (Replace (merge_ordered snapshots) : main_call).

Definition relay_le (a b : ResourceKey * Relay) : Prop := String.leb (key_str a.1) (key_str b.1) = true.
#[local] Instance relay_le_dec : RelDecision relay_le.
Proof. intros a b. unfold relay_le. apply _. Defined.

Definition check_redirect_options (s : ProviderSnapshot) (options : RedirectOptions) : result unit string :=
  check_all (fun key r => map_err (fun error => "Relay/" +:+ key_str key +:+ ": " +:+ error) (validate_for r options))
    (merge_sort relay_le (map_to_list (relays s))).

(** One round of the updater over the channels. *)
Fixpoint poll_channels (names : list string) (channel : nat) (changed : bool) : main_prog bool :=
  match names with
  | [] => Ret changed
  | _ :: names =>
      r <- call (HasChanged channel : main_call) ;;
      match r : result bool unit with
      | Ok true => _ <- call (BorrowAndUpdate channel : main_call) ;; poll_channels names (S channel) true
      | Ok false => poll_channels names (S channel) changed
      | Err _ => poll_channels names (S channel) changed
      end
  end.

Definition update_once (names : list string) : main_prog unit :=
  changed <- poll_channels names 0 false ;;
  if (changed : bool) then replace_registry names else Ret tt.

(** [spawn_registry_updater], which pauses 100 ms after each round. *)
Fixpoint updater (names : list string) (rounds : nat) : main_prog unit :=
  match rounds with
  | O => Ret tt
  | S rounds => _ <- update_once names ;; updater names rounds
  end.

(** *** Lambda *)

Record LambdaProvider := { lp_provider : ConfigProvider; lp_snapshot : ProviderSnapshot }.

Record LambdaRefreshState := { last_attempt : Z; lambda_providers : list LambdaProvider }.

(** [LambdaConfigRefresher::new]; the providers' tasks are aborted. *)
Fixpoint borrow_providers (providers : list ConfigProvider) (channel : nat) : main_prog (list LambdaProvider) :=
  match providers with
  | [] => Ret []
  | p :: providers =>
      s <- call (Borrow channel : main_call) ;;
      rest <- borrow_providers providers (S channel) ;;
      Ret ({| lp_provider := p; lp_snapshot := s |} :: rest)
  end.

Definition refresher_new (providers : list ConfigProvider) : main_prog LambdaRefreshState :=
  lambda <- borrow_providers providers 0 ;;
  now <- call (SystemNow : main_call) ;;
  Ret {| last_attempt := now; lambda_providers := lambda |}.

(** The loads, one provider after the other; [None] while one is short of pages. *)
Fixpoint reload (pages : nat) (providers : list LambdaProvider) : main_prog (option (list LambdaProvider)) :=
  match providers with
  | [] => Ret (Some [])
  | p :: providers =>
      loaded <- interp (fun c => call (Provide (Read c) : main_call)) (load (lp_provider p) pages) ;;
      match loaded with
      | None => Ret None
      | Some r =>
          let snapshot := match r with Ok s => s | Err _ => lp_snapshot p end in
          rest <- reload pages providers ;;
          Ret (rest ← rest; Some ({| lp_provider := lp_provider p; lp_snapshot := snapshot |} :: rest))
      end
  end.

Definition merge_providers (providers : list LambdaProvider) : ProviderSnapshot :=
  merge_ordered ((fun p => (provider_name (lp_provider p), lp_snapshot p)) <$> providers).

(** [duration_since] fails when the clock went back. *)
Definition refresh_if_stale (ttl : Duration) (pages : nat) (st : LambdaRefreshState)
    : main_prog (option LambdaRefreshState) :=
  now <- call (SystemNow : main_call) ;;
  if ((last_attempt st <=? (now : Z)) && ((now : Z) - last_attempt st <? ttl))%Z then Ret (Some st) else
  attempt <- call (SystemNow : main_call) ;;
  providers <- reload pages (lambda_providers st) ;;
  match providers with
  | None => Ret None
  | Some providers =>
      _ <- call (Replace (merge_providers providers) : main_call) ;;
      Ret (Some {| last_attempt := attempt; lambda_providers := providers |})
  end.

(** The requests, each of which begins with [refresh_lambda_config]. *)
Fixpoint invocations (ttl : Duration) (pages : nat) (st : LambdaRefreshState) (requests : nat) : main_prog unit :=
  match requests with
  | O => Ret tt
  | S requests =>
      st <- refresh_if_stale ttl pages st ;;
      match st with
      | None => Ret tt
      | Some st => invocations ttl pages st requests
      end
  end.

(** *** From the first snapshots on *)

Definition answer_requests (providers : list ConfigProvider) (lambda : option Duration) (pages rounds : nat)
    : main_prog (result unit string) :=
  match lambda with
  | Some ttl =>
      st <- refresher_new providers ;;
      _ <- call (Serve : main_call) ;;
      _ <- invocations ttl pages st rounds ;;
      Ret (Ok tt)
  | None =>
      _ <- call (Serve : main_call) ;;
      _ <- updater (provider_name <$> providers) rounds ;;
      Ret (Ok tt)
  end.

Definition serve (providers : list ConfigProvider) (options : RedirectOptions) (lambda : option Duration)
    (pages rounds : nat) : main_prog (result unit string) :=
  let names := provider_name <$> providers in
  first <- await_initial_snapshots names 0 ;;
  match first with
  | Err e => Ret (Err e)
  | Ok _ =>
      _ <- replace_registry names ;;
      snapshot <- call (Snapshot : main_call) ;;
      match check_redirect_options snapshot options with
      | Err e => Ret (Err e)
      | Ok _ => answer_requests providers lambda pages rounds
      end
  end.

(** ** The world *)

(** A watch channel: its value, the number of the value, and the last number its receiver saw. *)
Record channel := { ch_value : ProviderSnapshot; ch_version : nat; ch_seen : nat; ch_closed : bool }.

(** [served] is the registry at the moment requests began to be answered. *)
Record world := { channels : list channel; registry : ProviderSnapshot; served : option ProviderSnapshot }.

Definition channel_new : channel :=
  {| ch_value := snapshot_default; ch_version := 0; ch_seen := 0; ch_closed := false |}.

Definition world_new (n : nat) : world :=
  {| channels := replicate n channel_new; registry := snapshot_default; served := None |}.

Definition set_channel (w : world) (i : nat) (c : channel) : world :=
  {| channels := <[i := c]> (channels w); registry := registry w; served := served w |}.

Definition sent (c : channel) (s : ProviderSnapshot) : channel :=
  {| ch_value := s; ch_version := S (ch_version c); ch_seen := ch_seen c; ch_closed := ch_closed c |}.
Definition saw (c : channel) : channel :=
  {| ch_value := ch_value c; ch_version := ch_version c; ch_seen := ch_version c; ch_closed := ch_closed c |}.
Definition closed (c : channel) : channel :=
  {| ch_value := ch_value c; ch_version := ch_version c; ch_seen := ch_seen c; ch_closed := true |}.

(** What a call on channel [j] finds and leaves. *)
Definition on_channel (w : world) (j : nat) (P : channel -> Prop) : Prop :=
  exists c, channels w !! j = Some c /\ P c.

(** Task [i] of the providers has channel [i]. A send fails when nobody listens. *)
Definition handle_provide (i : nat) (w : world) (c : provider_call) : provider_answer c -> world -> Prop :=
  match c with
  | Send s => fun received w' =>
      if received : bool then on_channel w i (fun c => w' = set_channel w i (sent c s)) else w' = w
  | _ => fun _ w' => w' = w
  end.

Definition handle (i : nat) (w : world) (c : main_call) : main_answer c -> world -> Prop :=
  match c with
  | Provide c => handle_provide i w c
  | DropSender => fun _ w' => on_channel w i (fun c => w' = set_channel w i (closed c))
  | Changed j => fun r w' => on_channel w j (fun c =>
      if bool_decide (ch_version c = ch_seen c)
      then ch_closed c = true /\ r = Err tt /\ w' = w
      else r = Ok tt /\ w' = set_channel w j (saw c))
  | HasChanged j => fun r w' => w' = w /\ on_channel w j (fun c =>
      r = Ok (bool_decide (ch_version c <> ch_seen c)) \/ ch_closed c = true /\ r = Err tt)
  | BorrowAndUpdate j => fun _ w' => on_channel w j (fun c => w' = set_channel w j (saw c))
  | Borrow j => fun s w' => w' = w /\ on_channel w j (fun c => s = ch_value c)
  | Replace s => fun _ w' => w' = {| channels := channels w; registry := s; served := served w |}
  | Snapshot => fun s w' => w' = w /\ s = registry w
  | Serve => fun _ w' => w' = {| channels := channels w; registry := registry w; served := Some (registry w) |}
  | SystemNow => fun _ w' => w' = w
  end.

(** The tasks of the process: the providers, then the main task. *)
Definition tasks (providers : list ConfigProvider) (options : RedirectOptions) (lambda : option Duration)
    (pages passes rounds : nat) : list (main_prog (result unit string)) :=
  ((fun p => provider_task p pages passes) <$> providers) ++ [serve providers options lambda pages rounds].

(** ** The invariant *)

#[local] Open Scope list_scope.

Definition permitted_by (options : RedirectOptions) (s : ProviderSnapshot) : Prop :=
  forall key r, relays s !! key = Some r -> validate_for r options = Ok tt.

Definition all_published (w : world) : Prop := forall i c, channels w !! i = Some c -> (0 < ch_version c)%nat.

Record inv (options : RedirectOptions) (w : world) : Prop := {
  inv_channels i c : channels w !! i = Some c -> ValidSnapshot (ch_value c) /\ (ch_seen c <= ch_version c)%nat;
  inv_registry : ValidSnapshot (registry w);
  inv_served s : served w = Some s -> ValidSnapshot s /\ permitted_by options s /\ all_published w;
}.

(** What the providers do not touch, and what they only raise. *)
Record beside (w w' : world) : Prop := {
  beside_registry : registry w' = registry w;
  beside_served : served w' = served w;
  beside_channels i c' : channels w' !! i = Some c' -> exists c, channels w !! i = Some c /\ (ch_version c <= ch_version c')%nat;
}.

#[local] Instance beside_pre : PreOrder beside.
Proof.
  split; [intros w; split; eauto|]. intros w1 w2 w3 [R1 S1 C1] [R2 S2 C2]. split; [congruence..|].
  intros i c3 (c2 & H2 & ?)%C2. destruct (C1 i c2 H2) as (c1 & ? & ?). exists c1. split; [done|lia].
Qed.

Section Tasks.
Context (options : RedirectOptions) (n : nat).

Definition rely (i : nat) (w w' : world) : Prop := (inv options w -> inv options w') /\ (i = n -> beside w w').
Definition guar (i : nat) (w w' : world) : Prop := (inv options w -> inv options w') /\ (i <> n -> beside w w').

#[local] Instance rely_pre i : PreOrder (rely i).
Proof.
  split; [intros w; split; [done|by intros _; reflexivity]|].
  intros w1 w2 w3 [I1 B1] [I2 B2]. split; [auto|]. intros Hi. etrans; eauto.
Qed.

Lemma main_guar_rely i j w w' : i <> j -> guar i w w' -> rely j w w'.
Proof. intros Hne [HI HB]. split; [done|]. intros ->. auto. Qed.

Lemma set_channel_inv w i c c' :
  inv options w -> channels w !! i = Some c -> ValidSnapshot (ch_value c') -> (ch_seen c' <= ch_version c')%nat ->
  (ch_version c <= ch_version c')%nat -> inv options (set_channel w i c') /\ beside w (set_channel w i c').
Proof.
  intros [Hc Hr Hs] Hi Hv Hle Hmono.
  assert (forall j d, <[i := c']> (channels w) !! j = Some d ->
    exists c0, channels w !! j = Some c0 /\ (ch_version c0 <= ch_version d)%nat
      /\ ValidSnapshot (ch_value d) /\ (ch_seen d <= ch_version d)%nat) as Hd.
  { intros j d [(<- & <- & _)|[_ Hj]]%list_lookup_insert_Some; [eauto 6|]. exists d. split_and!; [done..| |]; by eapply Hc. }
  split; split; simpl; try done.
  - intros j d (c0 & _ & _ & ?)%Hd. done.
  - intros s Hserved. destruct (Hs s Hserved) as (? & ? & Hp). split_and!; [done..|].
    intros j d (c0 & Hj & Hle' & _)%Hd. specialize (Hp j c0 Hj). lia.
  - intros j d (c0 & ? & ? & _)%Hd. eauto.
Qed.

(** *** Providers *)

(** A step of a provider keeps the invariant and does nothing else that the main task would notice. *)
Lemma provide_guar i w c a w' :
  i <> n -> sends_valid c -> inv options w -> handle i w (Provide c) a w' -> guar i w w'.
Proof.
  intros Hi Hv HI Hh. destruct c as [c|s| |b|b]; simpl in Hh; try (subst w'; split; [done|by intros _; reflexivity]).
  destruct a; [|subst w'; split; [done|by intros _; reflexivity]]. destruct Hh as (c & Hc & ->).
  destruct (inv_channels _ _ HI _ _ Hc) as [_ Hle].
  destruct (set_channel_inv w i c (sent c s) HI Hc Hv (le_S _ _ Hle) (le_S _ _ (le_n _))) as [HI2 Hb]. by split.
Qed.

Lemma provider_safe i w p pages passes :
  i <> n -> LawfulProvider p -> inv options w ->
  safe (handle i) (rely i) (guar i) (provider_task p pages passes) (fun _ _ => True) w.
Proof.
  intros Hi Hp HI. unfold provider_task. apply safe_bind; [apply _|].
  assert (forall (q : provider_prog run_state) w, every sends_valid q -> inv options w ->
    safe (handle i) (rely i) (guar i) (interp (fun c => call (Provide c : main_call)) q) (fun _ w' => inv options w') w) as Hq.
  { clear w HI. intros q. induction q as [e|c k IH]; intros w Hq HI; simpl; [by intros w1 [HI1 _]; auto|].
    destruct Hq as [Hc Hk]. intros w1 a w2 [HI1 _] Hh. specialize (HI1 HI).
    pose proof (provide_guar i w1 c a w2 Hi Hc HI1 Hh) as Hg. split; [done|]. apply IH; [done|]. by apply Hg. }
  eapply safe_mono; [|apply (Hq _ w (run_valid pages passes) HI)]. intros e w1 HI1. destruct e as [|r]; simpl; [done|].
  intros w2 a w3 [HI2 _] Hh. specialize (HI2 HI1). split; [|done].
  destruct Hh as (c & Hc & ->). destruct (inv_channels _ _ HI2 _ _ Hc) as [Hv Hle].
  destruct (set_channel_inv w2 i c (closed c) HI2 Hc Hv Hle (le_n _)) as [HI3 Hb]. by split.
Qed.

(** *** The main task *)

(** Once every provider has published: a program that keeps the invariant, from a registry that
    meets [R] to one that meets [R'] of its result. *)
Definition keeps {A} (R : ProviderSnapshot -> Prop) (q : prog main_call main_answer A)
    (R' : A -> ProviderSnapshot -> Prop) : Prop :=
  forall w, inv options w -> all_published w -> R (registry w) ->
    safe (handle n) (rely n) (guar n) q (fun a w' => inv options w' /\ all_published w' /\ R' a (registry w')) w.

Lemma published_beside w w' : beside w w' -> all_published w -> all_published w'.
Proof. intros [_ _ Hc] Hp i c' (c & Hi & Hle)%Hc. specialize (Hp i c Hi). lia. Qed.

Lemma rely_main w w' R :
  rely n w w' -> inv options w -> all_published w -> R (registry w) ->
  inv options w' /\ all_published w' /\ R (registry w').
Proof.
  intros [HI Hb] Hinv Hp HR. specialize (Hb eq_refl). split; [auto|]. split; [by eapply published_beside|].
  by rewrite (beside_registry _ _ Hb).
Qed.

Lemma main_ret {A} (a : A) R R' : (forall s, R s -> R' a s) -> keeps R (Ret a) R'.
Proof. intros HR w HI Hp H w1 Hr. by apply (rely_main w w1 (R' a)); [|..|apply HR]. Qed.

Lemma main_bind {A B} (q : prog main_call main_answer A) (f : A -> prog main_call main_answer B) R R1 R2 :
  keeps R q R1 -> (forall a, keeps (R1 a) (f a) R2) -> keeps R (bind q f) R2.
Proof.
  intros Hq Hf w HI Hp H. apply safe_bind; [apply _|].
  eapply safe_mono; [|by apply Hq]. intros a w1 (HI1 & Hp1 & H1). by apply Hf.
Qed.

Lemma keeps_call c R R' :
  (forall w a w', inv options w -> all_published w -> R (registry w) -> handle n w c a w' ->
     inv options w' /\ all_published w' /\ R' a (registry w')) -> keeps R (call c) R'.
Proof.
  intros Hc w HI Hp H w1 a w2 Hr Hh. destruct (rely_main w w1 R Hr HI Hp H) as (HI1 & Hp1 & H1).
  destruct (Hc w1 a w2 HI1 Hp1 H1 Hh) as (HI2 & Hp2 & H2). split; [by split|].
  intros w3 Hr3. by apply (rely_main w2 w3 (R' a)).
Qed.

Lemma keeps_mono {A} (q : prog main_call main_answer A) R R1 R2 :
  keeps R q R1 -> (forall a s, R1 a s -> R2 a s) -> keeps R q R2.
Proof.
  intros Hq HR w HI Hp H. eapply safe_mono; [|by apply Hq]. intros a w1 (? & ? & ?). auto.
Qed.

(** What a precondition says besides the registry can be taken out of it. *)
Lemma keeps_pre {A} (P : Prop) (q : prog main_call main_answer A) R0 R R' :
  (forall s, R0 s -> R s /\ P) -> (P -> keeps R q R') -> keeps R0 q R'.
Proof. intros H0 Hq w HI Hp H. destruct (H0 _ H) as [HR HP]. by apply Hq. Qed.

Lemma saw_inv w j c :
  inv options w -> all_published w -> channels w !! j = Some c ->
  inv options (set_channel w j (saw c)) /\ all_published (set_channel w j (saw c)).
Proof.
  intros HI Hp Hc. destruct (inv_channels _ _ HI _ _ Hc) as [Hv _].
  destruct (set_channel_inv w j c (saw c) HI Hc Hv (le_n _) (le_n _)) as [HI2 Hb]. split; [done|].
  by eapply published_beside.
Qed.

Lemma keeps_borrow j R : keeps R (call (Borrow j)) (fun s reg => R reg /\ ValidSnapshot s).
Proof.
  apply keeps_call. intros w a w' HI Hp H [-> (c & Hc & ->)]. split_and!; [done..|]. by apply (inv_channels _ _ HI j).
Qed.

Lemma keeps_replace s R : ValidSnapshot s -> keeps R (call (Replace s)) (fun _ reg => reg = s).
Proof. intros Hs. apply keeps_call. intros w a w' [Hc _ Hv] Hp H ->. by split_and!; [split|..]. Qed.

Lemma keeps_snapshot R : keeps R (call Snapshot) (fun s reg => reg = s /\ R reg).
Proof. apply keeps_call. intros w a w' HI Hp H [-> ->]. done. Qed.

Lemma keeps_serve s : permitted_by options s -> keeps (eq s) (call Serve) (fun _ _ => True).
Proof.
  intros Hs. apply keeps_call. intros w a w' [Hc Hr _] Hp -> ->. split; [split; simpl|done]; [done|done|].
  by intros s [= <-].
Qed.

Lemma main_now R : keeps R (call SystemNow) (fun _ => R).
Proof. apply keeps_call. by intros w a w' HI Hp H ->. Qed.

Lemma keeps_reads {A} (q : read_prog A) R :
  keeps R (interp (fun c => call (Provide (Read c) : main_call)) q) (fun a reg => R reg /\ exists l, runs q l a).
Proof.
  induction q as [a|c k IH]; simpl; [by apply main_ret; eauto|].
  intros w HI Hp H w1 a w2 Hr Hh. destruct (rely_main w w1 R Hr HI Hp H) as (HI1 & Hp1 & H1).
  simpl in Hh. subst w2. split; [by split|]. eapply safe_mono; [|by apply (IH a)].
  intros b w3 (? & ? & ? & l & Hl). split_and!; [done..|]. exists (logged c a :: l). simpl. eauto.
Qed.

Lemma keeps_borrow_all names j R :
  keeps R (borrow_all names j) (fun l reg => R reg /\ forall name s, (name, s) ∈ l -> ValidSnapshot s).
Proof.
  revert j R. induction names as [|name names IH]; intros j R; simpl.
  { apply main_ret. intros s H. split; [done|]. by intros ? ? ?%not_elem_of_nil. }
  apply (main_bind (call (Borrow j)) _ _ _ _ (keeps_borrow j R)). intros s.
  eapply main_bind; [apply IH|]. intros l. apply main_ret. intros reg [[HR Hs] Hl]. split; [done|].
  intros name' s' [[= -> ->]|Hin]%elem_of_cons; [done|by eapply Hl].
Qed.

Lemma merge_ordered_ValidSnapshot l :
  (forall name s, (name, s) ∈ l -> ValidSnapshot s) -> ValidSnapshot (merge_ordered l).
Proof. intros Hl. apply foldl_merge_valid; [apply snapshot_default_valid|done]. Qed.

Lemma keeps_replace_registry names R : keeps R (replace_registry names) (fun _ _ => True).
Proof.
  unfold replace_registry. eapply main_bind; [apply (keeps_borrow_all names 0 R)|]. intros l.
  eapply (keeps_pre _ _ _ (fun _ => True)); [intros s [_ Hl]; split; [done|exact Hl]|]. intros Hl.
  eapply keeps_mono; [by apply keeps_replace, merge_ordered_ValidSnapshot|done].
Qed.

Lemma keeps_poll names j b R : keeps R (poll_channels names j b) (fun _ => R).
Proof.
  revert j b. induction names as [|name names IH]; intros j b; cbn [poll_channels]; [by apply main_ret|].
  eapply (main_bind (call (HasChanged j)) _ _ (fun _ => R)).
  - apply keeps_call. by intros w a w' HI Hp H [-> _].
  - intros [[]|[]]; [|apply IH..]. eapply (main_bind (call (BorrowAndUpdate j)) _ _ (fun _ => R)); [|intros ?; apply IH].
    apply keeps_call. intros w a w' HI Hp H (c & Hc & ->). destruct (saw_inv w j c HI Hp Hc). done.
Qed.

Lemma keeps_updater names rounds R : keeps R (updater names rounds) (fun _ _ => True).
Proof.
  revert R. induction rounds as [|rounds IH]; intros R; cbn [updater]; [by apply main_ret|].
  eapply main_bind; [|intros ?; apply IH]. unfold update_once. eapply main_bind; [apply keeps_poll|].
  intros []; [apply keeps_replace_registry|by apply main_ret].
Qed.

(** The refresher's snapshots are valid, and its providers lawful. *)
Definition lambda_ok (l : list LambdaProvider) : Prop :=
  Forall (fun p => LawfulProvider (lp_provider p) /\ ValidSnapshot (lp_snapshot p)) l.

Lemma keeps_borrow_providers providers j R :
  Forall LawfulProvider providers -> keeps R (borrow_providers providers j) (fun l reg => R reg /\ lambda_ok l).
Proof.
  intros Hl. revert j R. induction Hl as [|p providers Hp Hl IH]; intros j R; simpl.
  { apply main_ret. intros s H. split; [done|constructor]. }
  apply (main_bind (call (Borrow j)) _ _ _ _ (keeps_borrow j R)). intros s.
  eapply main_bind; [apply IH|]. intros l. apply main_ret. intros reg [[HR Hs] Hok]. split; [done|]. by constructor.
Qed.

Lemma keeps_reload pages l R :
  lambda_ok l -> keeps R (reload pages l) (fun r _ => forall l', r = Some l' -> lambda_ok l').
Proof.
  intros Hl. revert R. induction Hl as [|p l [Hp Hv] Hl IH]; intros R; simpl.
  { apply main_ret. intros s _ l' [= <-]. constructor. }
  eapply main_bind; [apply keeps_reads|]. intros [r|]; [|by apply main_ret].
  apply (keeps_pre (exists lg, runs (load (lp_provider p) pages) lg (Some r)) _ _ R); [done|]. intros [lg Hrun].
  assert (ValidSnapshot (match r with Ok s => s | Err _ => lp_snapshot p end)) as Hr
    by (destruct r; [by eapply load_valid|done]).
  eapply main_bind; [apply IH|]. intros [rest|]; apply main_ret; [|done].
  intros reg Hrest l' [= <-]. constructor; [done|]. by apply Hrest.
Qed.

Lemma keeps_refresh ttl pages st R :
  lambda_ok (lambda_providers st) ->
  keeps R (refresh_if_stale ttl pages st) (fun r _ => forall st', r = Some st' -> lambda_ok (lambda_providers st')).
Proof.
  intros Hok. unfold refresh_if_stale.
  eapply (main_bind (call SystemNow)); [apply main_now|]. intros now. simpl.
  case_match; [apply main_ret; by intros s _ st' [= <-]|].
  eapply (main_bind (call SystemNow)); [apply main_now|]. intros attempt. simpl.
  eapply main_bind; [by apply keeps_reload|]. intros [l|]; [|by apply main_ret].
  apply (keeps_pre (lambda_ok l) _ _ (fun _ => True)); [by auto|]. intros Hl.
  assert (ValidSnapshot (merge_providers l)) as Hv.
  { apply merge_ordered_ValidSnapshot. intros name s ([p lp] & [= -> ->] & Hin)%list_elem_of_fmap.
    unfold lambda_ok in Hl. rewrite Forall_forall in Hl. by apply (Hl _ Hin). }
  eapply (main_bind (call (Replace _))); [by apply keeps_replace|]. intros ?. apply main_ret. by intros s _ st' [= <-].
Qed.

Lemma keeps_invocations ttl pages st rounds R :
  lambda_ok (lambda_providers st) -> keeps R (invocations ttl pages st rounds) (fun _ _ => True).
Proof.
  revert st R. induction rounds as [|rounds IH]; intros st R Hok; cbn [invocations]; [by apply main_ret|].
  eapply main_bind; [by apply keeps_refresh|]. intros [st'|]; [|by apply main_ret].
  apply (keeps_pre (lambda_ok (lambda_providers st')) _ _ (fun _ => True)); [by auto|]. intros Hst. by apply IH.
Qed.

(** Before that: there are [n] channels, and the first [j] have had a snapshot. *)
Definition upto (j : nat) (w : world) : Prop :=
  forall i c, channels w !! i = Some c -> (i < n)%nat /\ ((i < j)%nat -> (0 < ch_version c)%nat).

Lemma upto_beside j w w' : beside w w' -> upto j w -> upto j w'.
Proof. intros [_ _ Hc] Hu i c' (c & Hi & Hle)%Hc. destruct (Hu i c Hi) as [Hn Hv]. split; [done|]. intros Hj. specialize (Hv Hj). lia. Qed.

Lemma await_safe names j w :
  inv options w -> upto j w ->
  safe (handle n) (rely n) (guar n) (await_initial_snapshots names j)
    (fun r w' => inv options w' /\ forall x, r = Ok x -> upto (j + length names) w') w.
Proof.
  revert j w. induction names as [|name names IH]; intros j w HI Hu; cbn [await_initial_snapshots].
  { intros w1 [HI1 Hb]. split; [auto|]. intros x _. simpl. rewrite Nat.add_0_r. by eapply upto_beside; [apply Hb|]. }
  intros w1 a w2 [HI1 Hb] Hh. specialize (HI1 HI). assert (upto j w1) as Hu1 by (by eapply upto_beside; [apply Hb|]).
  destruct Hh as (c & Hc & Hh). destruct (inv_channels _ _ HI1 _ _ Hc) as [Hv Hle]. case_bool_decide as Hs.
  - destruct Hh as (_ & -> & ->). split; [by split|]. intros w3 [HI3 _]. split; [auto|done].
  - destruct Hh as [-> ->]. destruct (set_channel_inv w1 j c (saw c) HI1 Hc Hv (le_n _) (le_n _)) as [HI2 Hb2].
    split; [by split|]. cbn [length]. rewrite <- Nat.add_succ_comm. apply IH; [done|].
    intros i d Hd. destruct (upto_beside j _ _ Hb2 Hu1 i d Hd) as [Hn Hlt]. split; [done|]. intros Hi.
    destruct (decide (i = j)) as [->|]; [|apply Hlt; lia].
    simpl in Hd. apply list_lookup_insert_Some in Hd as [(_ & <- & _)|[]]; [simpl; lia|done].
Qed.

Lemma check_redirect_options_ok s x : check_redirect_options s options = Ok x -> permitted_by options s.
Proof.
  destruct x. unfold check_redirect_options. rewrite check_all_ok. intros Hc key r Hk.
  assert ((key, r) ∈ merge_sort relay_le (map_to_list (relays s))) as Hin
    by (rewrite merge_sort_Permutation; by apply elem_of_map_to_list).
  specialize (Hc key r Hin). by destruct (validate_for r options) as [[]|].
Qed.

Lemma serve_safe providers lambda pages rounds w :
  Forall LawfulProvider providers -> n = length providers -> inv options w -> upto 0 w ->
  safe (handle n) (rely n) (guar n) (serve providers options lambda pages rounds) (fun _ _ => True) w.
Proof.
  intros Hl Hn HI Hu. unfold serve. apply safe_bind; [apply _|].
  eapply safe_mono; [|by apply await_safe]. intros [u|e] w1 [HI1 Hu1]; [|done].
  assert (all_published w1) as Hp1.
  { intros i c Hc. specialize (Hu1 u eq_refl i c Hc) as [Hi Hv]. apply Hv. rewrite length_fmap. lia. }
  assert (keeps (fun _ => True) (
    _ <- replace_registry (provider_name <$> providers) ;;
    snapshot <- call (Snapshot : main_call) ;;
    match check_redirect_options snapshot options with
    | Err e => Ret (Err e)
    | Ok _ => answer_requests providers lambda pages rounds
    end) (fun (_ : result unit string) _ => True)) as Hk.
  2: { eapply safe_mono; [|by apply Hk]. done. }
  eapply main_bind; [apply keeps_replace_registry|]. intros ?.
  eapply (main_bind (call Snapshot)); [apply keeps_snapshot|]. intros s.
  destruct (check_redirect_options s options) as [x|e] eqn:Hc; [|by apply main_ret].
  apply check_redirect_options_ok in Hc.
  apply (keeps_pre True _ _ (eq s)); [by intros ? [-> _]|]. intros _.
  unfold answer_requests. destruct lambda as [ttl|].
  - unfold refresher_new. eapply (main_bind _ _ _ (fun st reg => s = reg /\ lambda_ok (lambda_providers st))).
    { eapply main_bind; [by apply keeps_borrow_providers|]. intros l.
      eapply (main_bind (call SystemNow)); [apply main_now|]. intros now. by apply main_ret. }
    intros st. apply (keeps_pre (lambda_ok (lambda_providers st)) _ _ (eq s)); [done|]. intros Hok.
    eapply (main_bind (call Serve)); [by apply keeps_serve|]. intros ?.
    eapply main_bind; [by apply keeps_invocations|]. intros ?. by apply main_ret.
  - eapply (main_bind (call Serve)); [by apply keeps_serve|]. intros ?.
    eapply main_bind; [apply keeps_updater|]. intros ?. by apply main_ret.
Qed.
Lemma reachable_inv c c' :
  reachable handle (fun _ _ => False) c c' -> all_safe handle rely guar (fun _ (_ : result unit string) _ => True) c ->
  inv options c.1 -> inv options c'.1.
Proof.
  intros Hr Hs HI. eapply (tasks_keep handle (fun _ _ => False) rely guar (fun _ _ _ => True) (inv options));
    [by intros; eapply main_guar_rely|done|by intros i w w' [Hg _]; apply Hg|done|exact Hr|exact Hs|exact HI].
Qed.
End Tasks.

(** ** One round of the updater, undisturbed *)

Definition mark (c : channel) : channel := if bool_decide (ch_version c <> ch_seen c) then saw c else c.

Lemma mark_value c : ch_value (mark c) = ch_value c.
Proof. unfold mark. by case_bool_decide. Qed.

Lemma set_channel_same w i c : channels w !! i = Some c -> set_channel w i c = w.
Proof. intros Hi. unfold set_channel. rewrite list_insert_id by done. by destruct w. Qed.

Definition unseen (c : channel) : bool := bool_decide (ch_version c <> ch_seen c).

Lemma mark_unseen c : unseen (mark c) = false.
Proof.
  unfold unseen. apply bool_decide_false. unfold mark. case_bool_decide as Hs; simpl; [by intros Hn; apply Hn|by intros Hn; apply Hn].
Qed.

(** The round over the channels from [j] on, all of them open. *)
Lemma poll_outcome n names before cs b reg sv r w' :
  length names = length cs -> Forall (fun c => ch_closed c = false) cs ->
  outcome (handle n) (poll_channels names (length before) b)
    {| channels := before ++ cs; registry := reg; served := sv |} r w' ->
  r = b || existsb unseen cs
  /\ w' = {| channels := before ++ (mark <$> cs); registry := reg; served := sv |}.
Proof.
  revert before cs b. induction names as [|name names IH]; intros before cs b Hlen Hopen Ho.
  { destruct cs; [|done]. destruct Ho as [-> ->]. by rewrite orb_false_r. }
  destruct cs as [|c cs]; [done|]. injection Hlen as Hlen. inversion_clear Hopen as [|? ? Hc Hopen'].
  cbn [poll_channels] in Ho. apply outcome_bind in Ho as (a & w1 & Ha & Hk). apply outcome_call in Ha.
  destruct Ha as [-> (c0 & Hc0 & Ha)]. simpl in Hc0.
  rewrite lookup_app_r, Nat.sub_diag in Hc0 by done. injection Hc0 as <-.
  destruct Ha as [->|[Hcl _]]; [|congruence].
  assert (forall d b', outcome (handle n) (poll_channels names (S (length before)) b')
    {| channels := before ++ d :: cs; registry := reg; served := sv |} r w' ->
    r = b' || existsb unseen cs
    /\ w' = {| channels := before ++ d :: (mark <$> cs); registry := reg; served := sv |}) as Hnext.
  { intros d b' H0. specialize (IH (before ++ [d]) cs b' Hlen Hopen').
    rewrite length_app, Nat.add_1_r, <- !app_assoc in IH. by apply IH. }
  cbn [existsb fmap list_fmap]. destruct (decide (ch_version c <> ch_seen c)) as [Hs|Hs].
  - assert (unseen c = true) as -> by (by apply bool_decide_true).
    assert (mark c = saw c) as -> by (unfold mark; by rewrite bool_decide_true). rewrite bool_decide_true in Hk by done.
    apply outcome_bind in Hk as (u & w2 & Hu & Hk). apply outcome_call in Hu. destruct Hu as (c0 & Hc0 & ->).
    simpl in Hc0. rewrite lookup_app_r, Nat.sub_diag in Hc0 by done. injection Hc0 as <-.
    unfold set_channel in Hk. simpl in Hk. rewrite insert_app_r_alt, Nat.sub_diag in Hk by done.
    destruct (Hnext (saw c) true Hk) as [-> ->]. split; [by rewrite orb_true_r|done].
  - assert (unseen c = false) as -> by (by apply bool_decide_false).
    assert (mark c = c) as -> by (unfold mark; by rewrite bool_decide_false). rewrite bool_decide_false in Hk by done.
    exact (Hnext c b Hk).
Qed.

Lemma borrow_outcome n names before cs reg sv l w' :
  length names = length cs ->
  outcome (handle n) (borrow_all names (length before)) {| channels := before ++ cs; registry := reg; served := sv |} l w' ->
  l = zip names (ch_value <$> cs) /\ w' = {| channels := before ++ cs; registry := reg; served := sv |}.
Proof.
  revert before cs l. induction names as [|name names IH]; intros before cs l Hlen Ho.
  { destruct cs; [|done]. by destruct Ho as [-> ->]. }
  destruct cs as [|c cs]; [done|]. injection Hlen as Hlen.
  cbn [borrow_all] in Ho. apply outcome_bind in Ho as (s & w1 & Ha & Hk). apply outcome_call in Ha.
  destruct Ha as [-> (c0 & Hc0 & ->)]. simpl in Hc0. rewrite lookup_app_r, Nat.sub_diag in Hc0 by done. injection Hc0 as <-.
  apply outcome_bind in Hk as (rest & w2 & Hr & Hk). specialize (IH (before ++ [c]) cs rest Hlen).
  rewrite length_app, Nat.add_1_r, <- !app_assoc in IH. destruct Hk as [-> ->]. by destruct (IH Hr) as [-> ->].
Qed.

(** *** Reloads *)

Lemma reload_runs pages providers l r :
  runs (reload pages providers) l (Some r) -> exists loads,
    Forall2 (fun p x => exists lg, runs (load (lp_provider p) pages) lg (Some x)) providers loads
    /\ r = zip_with (fun p x => {| lp_provider := lp_provider p;
                                   lp_snapshot := match x with Ok s => s | Err _ => lp_snapshot p end |}) providers loads.
Proof.
  revert l r. induction providers as [|p providers IH]; intros l r; cbn [reload].
  { intros [_ [= ->]]. exists []. by split. }
  intros ([x|] & l1 & l2 & -> & Hp & Hr)%runs_bind; [|by destruct Hr].
  apply interp_runs in Hp as (lg & Hp & _).
  apply runs_bind in Hr as ([rest|] & l3 & l4 & -> & Hrest & [_ Heq]); [|done]. injection Heq as ->.
  destruct (IH _ _ Hrest) as (loads & Hf & ->). exists (x :: loads). split; [|done]. constructor; eauto.
Qed.

(** The snapshots that a log gives the registry. *)
Definition replaced (l : call_log main_answer) : list ProviderSnapshot :=
  omap (fun c => match projT1 c with Replace s => Some s | _ => None end) l.

Lemma every_reload pages providers :
  every (fun c => match c with Replace _ => False | _ => True end) (reload pages providers).
Proof.
  induction providers as [|p providers IH]; cbn [reload]; [done|]. apply every_bind.
  - generalize (load (lp_provider p) pages). intros q. induction q as [a|c k IHq]; simpl; auto.
  - intros [x|]; [|done]. apply every_bind; [done|]. done.
Qed.

Lemma replaced_none {A} (q : prog main_call main_answer A) l a :
  every (fun c => match c with Replace _ => False | _ => True end) q -> runs q l a -> replaced l = [].
Proof.
  revert l. induction q as [x|c k IH]; intros l; simpl; [by intros _ [-> _]|].
  intros [Hc Hk] (b & l' & -> & Hr). unfold replaced. simpl. destruct c; try done; by eapply IH.
Qed.

(** The invariant holds in every reachable state. *)
Lemma process_inv providers options lambda pages passes rounds w ts :
  Forall LawfulProvider providers ->
  reachable handle (fun _ _ => False)
    (world_new (length providers), tasks providers options lambda pages passes rounds) (w, ts) ->
  inv options w.
Proof.
  intros Hl Hr. set (n := length providers) in *.
  assert (inv options (world_new n)) as HI0.
  { split; simpl; [|apply snapshot_default_valid|done]. intros i c [-> _]%lookup_replicate.
    split; [apply snapshot_default_valid|simpl; lia]. }
  assert (upto n 0 (world_new n)) as Hu0 by (intros i c [_ Hi]%lookup_replicate; split; [done|lia]).
  assert (all_safe handle (rely options n) (guar options n) (fun _ _ _ => True)
    (world_new n, tasks providers options lambda pages passes rounds)) as Hs0.
  { intros i q. simpl. unfold tasks. intros [Hi|[Hlen Hi]]%lookup_app_Some.
    - assert (i <> n) as Hne by (apply lookup_lt_Some in Hi; rewrite length_fmap in Hi; unfold n; lia).
      apply list_lookup_fmap_Some in Hi as (p & -> & Hp). apply provider_safe; [done| |done].
      rewrite Forall_forall in Hl. apply Hl. by eapply list_elem_of_lookup_2.
    - rewrite length_fmap in Hlen, Hi. apply list_lookup_singleton_Some in Hi as [Hi <-].
      assert (i = n) as -> by (unfold n; lia). by apply serve_safe. }
  by apply (reachable_inv options n _ _ Hr).
Qed.

(** ** Properties *)

(** C26: The relay serves valid configuration only. Take any number of lawful providers, each running in
    its own task while the main task waits for the first snapshots, checks them, and merges what
    changes, or, on Lambda, refreshes at invocations; however the tasks interleave, whatever the
    loads, watches, clocks and services answer, and wherever tasks stop. In every state the registry
    is a valid snapshot. If requests are answered, then every provider has published a snapshot, and
    every relay that was then served passes the check of the redirect options. *)
Theorem registry_always_valid providers options lambda pages passes rounds w ts :
  Forall LawfulProvider providers ->
  reachable handle (fun _ _ => False)
    (world_new (length providers), tasks providers options lambda pages passes rounds) (w, ts) ->
  validate_snapshot (registry w) = Ok tt
  /\ forall s, served w = Some s ->
       validate_snapshot s = Ok tt /\ permitted_by options s
       /\ forall i c, channels w !! i = Some c -> (0 < ch_version c)%nat.
Proof.
  intros Hl Hr. destruct (process_inv _ _ _ _ _ _ _ _ Hl Hr) as [_ Hreg Hserved].
  split; [by apply validate_snapshot_ok|]. intros s Hsv. destruct (Hserved s Hsv) as (Hv & Hpb & Hp).
  split_and!; [by apply validate_snapshot_ok|done|done].
Qed.

(** The updater serves the latest snapshots. A round that nobody disturbs, with every provider
    running, leaves the registry alone when all snapshots were seen before; otherwise the registry
    becomes the ordered merge of the providers' current snapshots, each provider's last one. In both
    cases every snapshot has then been seen, so the next round leaves the registry alone. *)
Theorem updater_merges_latest n names w w' :
  length names = length (channels w) -> Forall (fun c => ch_closed c = false) (channels w) ->
  outcome (handle n) (update_once names) w tt w' ->
  registry w' = (if existsb unseen (channels w) then merge_ordered (zip names (ch_value <$> channels w)) else registry w)
  /\ ch_value <$> channels w' = ch_value <$> channels w
  /\ Forall (fun c => unseen c = false) (channels w') /\ served w' = served w.
Proof.
  intros Hlen Hopen (b & w1 & Hp & Hk)%outcome_bind. destruct w as [cs reg sv]. simpl in *.
  destruct (poll_outcome n names [] cs false reg sv b w1 Hlen Hopen Hp) as [-> ->].
  assert (ch_value <$> (mark <$> cs) = ch_value <$> cs) as Hvals
    by (rewrite <- list_fmap_compose; apply list_fmap_ext; intros; apply mark_value).
  assert (Forall (fun c => unseen c = false) (mark <$> cs)) as Hseen.
  { apply Forall_fmap, Forall_true. intros c. apply mark_unseen. }
  simpl in Hk. destruct (existsb unseen cs); [|by destruct Hk as [_ ->]].
  apply outcome_bind in Hk as (l & w2 & Hb & Hr). destruct Hr as (x & w3 & Hx & _ & ->). simpl in Hx. subst w3.
  destruct (borrow_outcome n names [] (mark <$> cs) reg sv l w2) as [-> ->]; [by rewrite length_fmap|done|].
  simpl. by rewrite Hvals.
Qed.

(** On Lambda a failed load keeps the last good snapshot. An invocation within the time to live of
    the last attempt, by a clock that has not gone back, reads nothing and changes nothing. Any other
    loads every provider once, in order, and replaces the registry once, by the merge of what each
    load gave, or, where it failed, of what that provider had given before. *)
Theorem lambda_keeps_last_good ttl pages st l st' :
  runs (refresh_if_stale ttl pages st) l (Some st') ->
  exists now : Z,
    ((last_attempt st <= now /\ now - last_attempt st < ttl)%Z /\ st' = st /\ l = [logged SystemNow now])
    \/ ((now < last_attempt st \/ ttl <= now - last_attempt st)%Z /\ exists loads,
        Forall2 (fun p x => exists lg, runs (load (lp_provider p) pages) lg (Some x)) (lambda_providers st) loads
        /\ lambda_providers st' = zip_with (fun p x => {| lp_provider := lp_provider p;
             lp_snapshot := match x with Ok s => s | Err _ => lp_snapshot p end |}) (lambda_providers st) loads
        /\ replaced l = [merge_providers (lambda_providers st')]).
Proof.
  intros (now & l1 & -> & Hr). cbn [bind] in Hr. exists now.
  destruct ((last_attempt st <=? now) && (now - last_attempt st <? ttl))%Z eqn:Hf.
  - left. destruct Hr as [-> [= ->]]. apply andb_true_iff in Hf as [?%Z.leb_le ?%Z.ltb_lt]. done.
  - right. split; [apply andb_false_iff in Hf as [?%Z.leb_gt|?%Z.ltb_ge]; lia|].
    destruct Hr as (attempt & l2 & -> & Hr). cbn [bind] in Hr.
    apply runs_bind in Hr as ([providers|] & l3 & l4 & -> & Hl & Hr); [|by destruct Hr].
    destruct Hr as (u & l5 & -> & [-> [= ->]]). destruct (reload_runs _ _ _ _ Hl) as (loads & Hloads & Heq).
    exists loads. split_and!; [done|done|].
    pose proof (replaced_none _ _ _ (every_reload pages (lambda_providers st)) Hl) as Hn.
    unfold replaced in *. simpl. rewrite omap_app, Hn. done.
Qed.
End Process.

(** ** A process with one file *)

Module ProcessExample.
Import PlainUrl.
#[local] Existing Instance SecretsExample.no_json.
#[local] Existing Instance ProvidersExample.plain_yaml.

Definition read_plain (c : read_call) : option (read_answer c) :=
  match c with
  | EnvVar _ => Some (Ok "s3cret")
  | ReadToString _ => Some (Ok "configuration")
  | _ => None
  end.

Definition provide (i : nat) (w : world) (c : provider_call) : option (provider_answer c * world) :=
  match c with
  | Read c => a ← read_plain c; Some (a, w)
  | Send s => c ← channels w !! i; Some (true, set_channel w i (sent c s))
  | Pause => Some (tt, w)
  | NextEvent _ | Interrupted _ => None
  end.

(** Task [i], with the clock at 100 s. *)
Definition step (i : nat) (w : world) (c : main_call) : option (main_answer c * world) :=
  match c with
  | Provide c => provide i w c
  | DropSender => c ← channels w !! i; Some (tt, set_channel w i (closed c))
  | Changed j => c ← channels w !! j;
      if bool_decide (ch_version c = ch_seen c) then if ch_closed c then Some (Err tt, w) else None
      else Some (Ok tt, set_channel w j (saw c))
  | HasChanged j => c ← channels w !! j; Some (Ok (bool_decide (ch_version c <> ch_seen c)), w)
  | BorrowAndUpdate j => c ← channels w !! j; Some (tt, set_channel w j (saw c))
  | Borrow j => c ← channels w !! j; Some (ch_value c, w)
  | Replace s => Some (tt, {| channels := channels w; registry := s; served := served w |})
  | Snapshot => Some (registry w, w)
  | Serve => Some (tt, {| channels := channels w; registry := registry w; served := Some (registry w) |})
  | SystemNow => Some (from_secs 100, w)
  end.

Lemma step_handle i w c a w' : step i w c = Some (a, w') -> handle i w c a w'.
Proof.
  destruct c as [c| |j|j|j|j|s| | |]; simpl; unfold on_channel; [|intros Hs; repeat (apply bind_Some in Hs as (? & ? & Hs))..].
  - destruct c as [c|s| |b|b]; simpl; [intros Hs; apply bind_Some in Hs as (x & _ & Hs); by simplify_eq| |..];
      [|by intros [= <- <-]|done..].
    intros Hs. apply bind_Some in Hs as (c & Hc & Hs). simplify_eq. by exists c.
  - simplify_eq. eauto.
  - eexists. split; [done|]. case_bool_decide; [destruct (ch_closed _) eqn:?|]; by simplify_eq.
  - simplify_eq. eauto.
  - simplify_eq. eauto.
  - simplify_eq. eauto.
  - by simplify_eq.
  - by simplify_eq.
  - by simplify_eq.
  - by simplify_eq.
Qed.

Definition providers : list ConfigProvider := [file_provider ProvidersExample.files].

Definition options : RedirectOptions := {| allow_localhost_loopback := false; allow_http_origins := false |}.

Definition initial : list (prog main_call main_answer (result unit string)) := tasks providers options None 1 1 2.

(** The provider publishes twice; then the main task serves. *)
Definition published_world : option (result unit string * world) :=
  Prog.run (step 0) (provider_task (file_provider ProvidersExample.files) 1 1) (world_new 1).

Definition serving_world : option (result unit string * world) :=
  '(_, w) ← published_world; Prog.run (step 1) (serve providers options None 1 2) w.

Lemma serving : exists w ts, reachable handle (fun _ _ => False) (world_new 1, initial) (w, ts)
  /\ is_Some (served w).
Proof.
  assert (match serving_world with Some (_, w) => bool_decide (is_Some (served w)) | None => false end = true) as Hok
    by (vm_compute; reflexivity).
  destruct serving_world as [[r2 w2]|] eqn:H2; [|done]. unfold serving_world in H2.
  apply bind_Some in H2 as ([r1 w1] & H1 & H2). apply bool_decide_eq_true in Hok.
  exists w2, (<[1%nat := Ret r2]> (<[0%nat := Ret r1]> initial)). split; [|done]. etrans.
  - eapply (run_reachable (step 0)); [apply step_handle|exact H1|done].
  - eapply (run_reachable (step 1)); [apply step_handle|exact H2|done].
Qed.

Lemma registry_always_valid_witness : exists w s, served w = Some s /\ validate_snapshot (registry w) = Ok tt
  /\ validate_snapshot s = Ok tt /\ permitted_by options s.
Proof.
  destruct serving as (w & ts & Hr & [s Hs]). exists w, s.
  assert (Forall LawfulProvider providers) as Hl by (constructor; [apply file_lawful|constructor]).
  destruct (registry_always_valid providers options None 1 1 2 w ts Hl Hr) as [Hreg Hserved].
  destruct (Hserved s Hs) as (Hv & Hp & _). split; [exact Hs|]. split; [exact Hreg|]. split; [exact Hv|exact Hp].
Defined.

(** A round with one snapshot that was not seen. *)
Definition before_round : world := {|
  channels := [{| ch_value := snapshot_default; ch_version := 2; ch_seen := 1; ch_closed := false |}];
  registry := snapshot_default; served := None |}.

Definition after_round : world := {|
  channels := [{| ch_value := snapshot_default; ch_version := 2; ch_seen := 2; ch_closed := false |}];
  registry := merge_ordered [("file", snapshot_default)]; served := None |}.

Lemma round_outcome : outcome (handle 1) (update_once ["file"]) before_round tt after_round.
Proof.
  assert (Prog.run (step 1) (update_once ["file"]) before_round = Some (tt, after_round)) as Hr by reflexivity.
  eapply run_outcome; [apply step_handle|exact Hr].
Qed.

Lemma updater_merges_latest_witness :
  registry after_round = merge_ordered [("file", snapshot_default)].
Proof.
  refine (proj1 (updater_merges_latest 1 ["file"] before_round after_round eq_refl _ round_outcome)).
  constructor; [reflexivity|constructor].
Defined.

(** An invocation 100 s after the last attempt. *)
Definition state : LambdaRefreshState := {|
  last_attempt := 0;
  lambda_providers := [{| lp_provider := file_provider ProvidersExample.files; lp_snapshot := snapshot_default |}] |}.

Definition refreshed : option (LambdaRefreshState * call_log main_answer) :=
  '(r, _, l) ← log_run (step 1) (refresh_if_stale (from_secs 60) 1 state) (world_new 1); st ← r; Some (st, l).

Lemma refreshed_runs : exists st l, refreshed = Some (st, l)
  /\ runs (refresh_if_stale (from_secs 60) 1 state) l (Some st).
Proof.
  assert (match refreshed with Some _ => true | None => false end = true) as Hok by (vm_compute; reflexivity).
  destruct refreshed as [[st l]|] eqn:Hr; [|done]. exists st, l. split; [done|]. unfold refreshed in Hr.
  apply bind_Some in Hr as ([[r w] l'] & Hl & Hr). apply bind_Some in Hr as (st' & -> & [= -> ->]).
  by eapply log_run_runs.
Qed.

Lemma lambda_keeps_last_good_witness : exists st l, refreshed = Some (st, l) /\
  (replaced l = [merge_providers (lambda_providers st)] \/ length l = 1%nat).
Proof.
  destruct refreshed_runs as (st & l & Heq & Hr). exists st, l. split; [exact Heq|].
  destruct (lambda_keeps_last_good _ _ _ _ _ Hr) as (now & [(_ & _ & Hl)|(_ & loads & _ & _ & Hrep)]).
  - right. rewrite Hl. reflexivity.
  - left. exact Hrep.
Defined.
End ProcessExample.
