(* ===== verification/Startup.v ===== *)
(** * Startup: the environment and what the process makes of it

    Models the configuration half of crates/oauthrelay/src/main.rs: the values of the environment
    and their parsers, the selection of the store and of the providers, and [main] up to the point
    where the providers start ([Process] goes on from there). Reading the environment, loading
    credentials and reaching the cluster are calls. *)

From S2P Require Import Prelude Text Format Json Url Model Resolver Seal Requests Prog Config Secrets Providers KubeProvider KubeMapping.
#[local] Open Scope string_scope.
#[local] Open Scope prog_scope.

(** ** Values of the environment *)

Definition parse_bool (name value : string) : result bool string :=
  context (name +:+ " must be true or false") (parse_bool_text value).

(** The number and the unit in milliseconds. *)
Definition split_unit (value : string) : option (string * Z) :=
  match strip_suffix "ms" value, strip_suffix "s" value, strip_suffix "m" value, strip_suffix "h" value with
  | Some n, _, _, _ => Some (n, 1%Z)
  | None, Some n, _, _ => Some (n, 1000%Z)
  | None, None, Some n, _ => Some (n, 60000%Z)
  | None, None, None, Some n => Some (n, 3600000%Z)
  | None, None, None, None => None
  end.

Definition parse_duration (name value : string) : result Duration string :=
  match split_unit value with
  | None => Err (name +:+ " must use ms, s, m, or h units")
  | Some (number, multiplier) =>
      match context ("invalid " +:+ name) (parse_u64 number) with
      | Err e => Err e
      | Ok millis =>
          if (u64_max <? millis * multiplier)%Z then Err (name +:+ " is too large")
          else if (from_millis (millis * multiplier) =? 0)%Z then Err (name +:+ " must be greater than zero")
          else Ok (from_millis (millis * multiplier))
      end
  end.

(** ** The store *)

Inductive StoreConfig :=
  | Memory
  | DynamoDb (table : string)
  | Kubernetes (resource namespace : option string) (sweep : option Duration).

Definition DEFAULT_KUBERNETES_SWEEP : Duration := from_secs 60.

Record StoreEnv := {
  store_kind : option string;
  dynamodb_table : option string;
  kubernetes_resource : option string;
  kubernetes_namespace : option string;
  kubernetes_sweep : option string;
}.

Definition is_table_char (c : ascii) : bool :=
  is_alphanumeric c || bool_decide (c = "_"%char) || bool_decide (c = "-"%char) || bool_decide (c = "."%char).

Definition valid_table (table : string) : bool :=
  (3 <=? String.length table)%nat && (String.length table <=? 255)%nat && str_all is_table_char table.

(** The first Kubernetes setting that is there. *)
Definition kubernetes_setting (env : StoreEnv) : option string :=
  fst <$> List.find (fun s => bool_decide (is_Some s.2))
    [("OAUTHRELAY_STORE_KUBERNETES_RESOURCE", kubernetes_resource env);
     ("OAUTHRELAY_STORE_KUBERNETES_NAMESPACE", kubernetes_namespace env);
     ("OAUTHRELAY_STORE_KUBERNETES_SWEEP", kubernetes_sweep env)].

Definition foreign_setting (env : StoreEnv) : option string :=
  if bool_decide (store_kind env <> Some "dynamodb") && bool_decide (is_Some (dynamodb_table env))
  then Some "OAUTHRELAY_STORE_DYNAMODB_TABLE requires OAUTHRELAY_STORE=dynamodb"
  else if bool_decide (store_kind env <> Some "kubernetes")
  then name ← kubernetes_setting env; Some (name +:+ " requires OAUTHRELAY_STORE=kubernetes")
  else None.

Definition parse_sweep (sweep : option string) : result (option Duration) string :=
  match sweep with
  | None => Ok (Some DEFAULT_KUBERNETES_SWEEP)
  | Some value =>
      if bool_decide (value = "off") then Ok None
      else match parse_duration "OAUTHRELAY_STORE_KUBERNETES_SWEEP" value with Ok d => Ok (Some d) | Err e => Err e end
  end.

Definition select_store (env : StoreEnv) : result StoreConfig string :=
  match store_kind env with
  | None => Ok Memory
  | Some kind =>
      if bool_decide (kind = "memory") then Ok Memory
      else if bool_decide (kind = "dynamodb") then
        match dynamodb_table env with
        | None => Err "OAUTHRELAY_STORE=dynamodb requires OAUTHRELAY_STORE_DYNAMODB_TABLE"
        | Some table =>
            if valid_table table then Ok (DynamoDb table)
            else Err "OAUTHRELAY_STORE_DYNAMODB_TABLE must be a DynamoDB table name: 3-255 characters from A-Z, a-z, 0-9, '_', '-' and '.'"
        end
      else if bool_decide (kind = "kubernetes") then
        match parse_sweep (kubernetes_sweep env) with
        | Ok sweep => Ok (Kubernetes (kubernetes_resource env) (kubernetes_namespace env) sweep)
        | Err e => Err e
        end
      else Err ("OAUTHRELAY_STORE must be memory, dynamodb or kubernetes, got " +:+ debug kind)
  end.

Definition parse_store_config (env : StoreEnv) : result StoreConfig string :=
  match foreign_setting env with Some e => Err e | None => select_store env end.

Definition is_kubernetes (c : StoreConfig) : bool := match c with Kubernetes _ _ _ => true | _ => false end.

Definition reject_kubernetes_on_lambda (config : StoreConfig) (lambda : bool) : result unit string :=
  if lambda && is_kubernetes config
  then Err "OAUTHRELAY_STORE=kubernetes is not supported on AWS Lambda: the process is frozen between invocations, so nothing would delete expired records. Use OAUTHRELAY_STORE=dynamodb, whose TTL deletes them"
  else Ok tt.

Definition kubernetes_store_namespace (mapping : RecordMapping) (explicit provider : option string) (fallback : string)
    : result string string :=
  if needs_explicit_namespace mapping && bool_decide (explicit = None)
  then Err ("OAUTHRELAY_STORE_KUBERNETES_RESOURCE=" +:+ resource_name mapping +:+ " requires OAUTHRELAY_STORE_KUBERNETES_NAMESPACE to name Dex's namespace: Dex garbage-collects expired authcodes only there, so it is never inferred from the provider or pod namespace")
  else select_namespace (match explicit with Some n => Some n | None => provider end) fallback.

Fixpoint join_names (l : list string) : string :=
  match l with [] => "" | [name] => name | name :: l => name +:+ ", " +:+ join_names l end.

Definition kubernetes_mapping (resource : option string) : result RecordMapping string :=
  match resource with
  | None => Ok TransientRecord
  | Some name =>
      ok_or (from_resource_name name)
        ("OAUTHRELAY_STORE_KUBERNETES_RESOURCE must be one of " +:+ join_names (resource_name <$> RecordMapping_ALL)
         +:+ ", got " +:+ debug name)
  end.

(** ** Effects *)

Inductive boot_call :=
  | Var (name : string)                                        (* [env::var] *)
  | VarOs (name : string)                                      (* whether [env::var_os] finds it *)
  | LoadAwsConfig
  | LoadKubeConfig (in_cluster : bool)                         (* the config's default namespace *)
  | ConnectKube                                                (* [kube::Client::try_from] *)
  | ProbeStore (mapping : RecordMapping) (namespace : string). (* [KubernetesStore::probe] of [Kube] *)

Definition boot_answer (c : boot_call) : Type :=
  match c with
  | Var _ | LoadKubeConfig _ => result string string
  | VarOs _ => bool
  | LoadAwsConfig => unit
  | ConnectKube | ProbeStore _ _ => result unit string
  end.

Notation boot_prog := (prog boot_call boot_answer).

(** [env::var(name).ok()] *)
Definition read_var (name : string) : boot_prog (option string) :=
  r <- call (Var name) ;; Ret (match r : result string string with Ok v => Some v | Err _ => None end).

Definition duration_env (name : string) (default : Duration) : boot_prog (result Duration string) :=
  value <- read_var name ;;
  Ret (match value with Some value => parse_duration name value | None => Ok default end).

Definition bool_env (name : string) (default : bool) : boot_prog (result bool string) :=
  value <- read_var name ;;
  Ret (match value with Some value => parse_bool name value | None => Ok default end).

Definition is_lambda_runtime : boot_prog bool := call (VarOs "AWS_LAMBDA_RUNTIME_API").

Definition kube_config : boot_prog (result string string) :=
  in_cluster <- call (VarOs "KUBERNETES_SERVICE_HOST") ;;
  config <- call (LoadKubeConfig in_cluster) ;;
  Ret (context (if (in_cluster : bool) then "load in-cluster Kubernetes credentials" else "load Kubernetes kubeconfig") config).

Section Startup.
Context {U : UrlLib} {J : JsonLib} {Y : YamlLib} {BS : Base64Std}.

(** The checks of [required_url] on the variable's value. *)
Definition checked_url (name value : string) : result url string := (
  u <-? context (name +:+ " must be a URL") (url_parse value) ;;
  if negb (bool_decide (scheme u = "http") || bool_decide (scheme u = "https")) || bool_decide (host_str u = None)
  then Err (name +:+ " must be an absolute http(s) URL")
  else if bool_decide (is_Some (query u)) || bool_decide (is_Some (fragment u))
  then Err (name +:+ " must not contain a query or fragment")
  else Ok u)%relay.

Definition required_url (name : string) : boot_prog (result url string) :=
  value <- call (Var name) ;;
  value <-? context (name +:+ " is required") value ;;
  Ret (checked_url name value).

Definition decode_key (name value : string) : result bytes string :=
  let encoded := default value (strip_prefix "base64:" value) in
  match std_decode (into_bytes encoded) with
  | None => Err (name +:+ " must be base64")
  | Some key => if bool_decide (length key = 32%nat) then Ok key else Err (name +:+ " must decode to exactly 32 bytes")
  end.

Definition seal_key (name : string) (required : bool) : boot_prog (result (option bytes) string) :=
  value <- call (Var name) ;;
  Ret (match value : result string string with
       | Ok value => match decode_key name value with Ok key => Ok (Some key) | Err e => Err e end
       | Err _ => if required then Err (name +:+ " is required") else Ok None
       end).

(** The store that was configured, as its constructor has it. *)
Inductive ConfiguredStore :=
  | MemoryStore
  | DynamoDbStore (table : string)
  | KubernetesStore (mapping : RecordMapping) (namespace : string) (sweeper : option Duration).

Definition open_kubernetes (resource namespace : option string) (sweep : option Duration)
    : boot_prog (result ConfiguredStore string) :=
  mapping <-? kubernetes_mapping resource ;;
  default_namespace <-! kube_config ;;
  enabled <-! bool_env "OAUTHRELAY_PROVIDER_KUBERNETES" false ;;
  provider_namespace <- (if (enabled : bool) then read_var "OAUTHRELAY_PROVIDER_KUBERNETES_NAMESPACE" else Ret None) ;;
  namespace <-? kubernetes_store_namespace mapping namespace provider_namespace default_namespace ;;
  _ <-! call ConnectKube ;;
  _ <-! call (ProbeStore mapping namespace) ;;
  Ret (Ok (KubernetesStore mapping namespace sweep)).

Definition configured_store : boot_prog (result ConfiguredStore string) :=
  kind <- read_var "OAUTHRELAY_STORE" ;;
  table <- read_var "OAUTHRELAY_STORE_DYNAMODB_TABLE" ;;
  resource <- read_var "OAUTHRELAY_STORE_KUBERNETES_RESOURCE" ;;
  namespace <- read_var "OAUTHRELAY_STORE_KUBERNETES_NAMESPACE" ;;
  sweep <- read_var "OAUTHRELAY_STORE_KUBERNETES_SWEEP" ;;
  config <-? parse_store_config {| store_kind := kind; dynamodb_table := table; kubernetes_resource := resource;
                                   kubernetes_namespace := namespace; kubernetes_sweep := sweep |} ;;
  lambda <- is_lambda_runtime ;;
  _ <-? reject_kubernetes_on_lambda config lambda ;;
  match config with
  | Memory => _ <- is_lambda_runtime ;; Ret (Ok MemoryStore)          (* a warning *)
  | DynamoDb table => _ <- call LoadAwsConfig ;; Ret (Ok (DynamoDbStore table))
  | Kubernetes resource namespace sweep => open_kubernetes resource namespace sweep
  end.

(** ** The providers *)

(** A provider that its variable, if it is set, selects. *)
Definition file_from_env (path : option string) : boot_prog (result (list ConfigProvider) string) :=
  match path with
  | None => Ret (Ok [])
  | Some path =>
      poll <-! duration_env "OAUTHRELAY_PROVIDER_FILE_POLL" (from_secs 30) ;;
      provider <-? FileProvider_new path poll ;;
      Ret (Ok [file_provider (file_with_aws_secrets provider LazyAwsSecretResolver)])
  end.

Definition ssm_from_env (prefix : option string) : boot_prog (result (list ConfigProvider) string) :=
  match prefix with
  | None => Ret (Ok [])
  | Some prefix =>
      poll <-! duration_env "OAUTHRELAY_PROVIDER_SSM_POLL" (from_secs 60) ;;
      provider <-? SsmProvider_new prefix poll ;;
      Ret (Ok [ssm_provider provider])
  end.

Definition kubernetes_from_env : boot_prog (result (list ConfigProvider) string) :=
  enabled <-! bool_env "OAUTHRELAY_PROVIDER_KUBERNETES" false ;;
  if negb enabled then Ret (Ok []) else
  default_namespace <-! kube_config ;;
  explicit <- read_var "OAUTHRELAY_PROVIDER_KUBERNETES_NAMESPACE" ;;
  namespace <-? select_namespace explicit default_namespace ;;
  _ <-! call ConnectKube ;;
  refresh <-! duration_env "OAUTHRELAY_PROVIDER_KUBERNETES_REFRESH" DEFAULT_REFRESH_INTERVAL ;;
  provider <-? KubernetesProvider_new namespace refresh ;;
  Ret (Ok [kube_provider (kube_with_aws_secrets provider LazyAwsSecretResolver)]).

Definition configured_providers : boot_prog (result (list ConfigProvider) string) :=
  file_path <- read_var "OAUTHRELAY_PROVIDER_FILE" ;;
  ssm_prefix <- read_var "OAUTHRELAY_PROVIDER_SSM_PREFIX" ;;
  _ <- (if bool_decide (is_Some ssm_prefix) then call LoadAwsConfig else Ret tt) ;;
  files <-! file_from_env file_path ;;
  ssm <-! ssm_from_env ssm_prefix ;;
  kubernetes <-! kubernetes_from_env ;;
  Ret (Ok (files ++ ssm ++ kubernetes)%list).

(** ** [main], before the providers start *)

Record Settings := {
  public_url : url;
  sealer : XChaChaSealer;
  providers : list ConfigProvider;
  store : ConfiguredStore;
  redirect_options : RedirectOptions;
}.

(** The [Display] of a [SealError]. *)
Definition seal_error_text (e : SealError) : string :=
  match e with
  | InvalidKey => "invalid sealing key: expected 32 bytes"
  | InvalidEnvelope => "invalid sealed envelope"
  | Unavailable => "sealer unavailable"
  end.

Definition required_key : boot_prog (result bytes string) :=
  key <-! seal_key "OAUTHRELAY_SEAL_KEY" true ;;
  Ret (ok_or key "required key").                                     (* [expect]: it is there *)

Definition startup : boot_prog (result Settings string) :=
  public_url <-! required_url "OAUTHRELAY_PUBLIC_URL" ;;
  current <-! required_key ;;
  previous <-! seal_key "OAUTHRELAY_SEAL_KEY_PREVIOUS" false ;;
  sealer <-? map_err seal_error_text (XChaChaSealer_new current previous) ;;
  providers <-! configured_providers ;;
  match providers with
  | [] => Ret (Err "at least one provider is required; set OAUTHRELAY_PROVIDER_FILE, OAUTHRELAY_PROVIDER_SSM_PREFIX, or OAUTHRELAY_PROVIDER_KUBERNETES=true")
  | _ =>
      store <-! configured_store ;;
      localhost <-! bool_env "OAUTHRELAY_ALLOW_LOCALHOST_LOOPBACK" false ;;
      http <-! bool_env "OAUTHRELAY_ALLOW_HTTP_ORIGINS" false ;;
      Ret (Ok {| public_url := public_url; sealer := sealer; providers := providers; store := store;
                 redirect_options := {| allow_localhost_loopback := localhost; allow_http_origins := http |} |})
  end.

(** The time to live of the configuration on Lambda, read when it is needed. *)
Definition lambda_ttl : boot_prog (result (option Duration) string) :=
  lambda <- is_lambda_runtime ;;
  if (lambda : bool) then
    ttl <-! duration_env "OAUTHRELAY_LAMBDA_CONFIG_TTL" (from_secs 60) ;; Ret (Ok (Some ttl))
  else Ret (Ok None).
End Startup.

(** ** Lemmas on units *)

Definition units : list (string * Z) := [("ms", 1%Z); ("s", 1000%Z); ("m", 60000%Z); ("h", 3600000%Z)].

Lemma split_unit_Some value number multiplier :
  split_unit value = Some (number, multiplier) -> exists unit, (unit, multiplier) ∈ units /\ value = number +:+ unit.
Proof.
  unfold split_unit. destruct (strip_suffix "ms" value) as [n|] eqn:H1.
  { intros [= <- <-]. apply strip_suffix_Some in H1 as ->. exists "ms". split; [by left|done]. }
  destruct (strip_suffix "s" value) as [n|] eqn:H2.
  { intros [= <- <-]. apply strip_suffix_Some in H2 as ->. exists "s". split; [by right; left|done]. }
  destruct (strip_suffix "m" value) as [n|] eqn:H3.
  { intros [= <- <-]. apply strip_suffix_Some in H3 as ->. exists "m". split; [by right; right; left|done]. }
  destruct (strip_suffix "h" value) as [n|] eqn:H4; [|done].
  intros [= <- <-]. apply strip_suffix_Some in H4 as ->. exists "h". split; [by right; right; right; left|done].
Qed.

Lemma strip_suffix_app p s : strip_suffix p (s +:+ p) = Some s.
Proof. by apply strip_suffix_Some. Qed.

Lemma strip_suffix_other p s c d :
  last_char p = Some c -> last_char s = Some d -> c <> d -> strip_suffix p s = None.
Proof.
  intros Hp Hs Hne. destruct (strip_suffix p s) as [rest|] eqn:Heq; [|done]. apply strip_suffix_Some in Heq as ->.
  rewrite last_char_app in Hs by (by intros ->). congruence.
Qed.

Lemma last_char_suffix s u c : last_char u = Some c -> last_char (s +:+ u) = Some c.
Proof. intros Hu. rewrite last_char_app; [done|by intros ->]. Qed.

Lemma numeral_last number digits c : numeral number digits -> last_char number = Some c -> is_digit c = true.
Proof.
  intros (Hs & Hne & Ha) Hl. assert (last_char digits = Some c) as Hd.
  { destruct Hs as [->| ->]; [done|]. change (String "+" digits) with ("+" +:+ digits) in Hl. by rewrite last_char_app in Hl. }
  apply last_char_Some in Hd as (t & ->). rewrite str_all_app in Ha. apply andb_true_iff in Ha as [_ Ha]. simpl in Ha.
  by rewrite andb_true_r in Ha.
Qed.

Lemma split_unit_numeral number digits unit multiplier :
  numeral number digits -> (unit, multiplier) ∈ units -> split_unit (number +:+ unit) = Some (number, multiplier).
Proof.
  intros Hn Hin. unfold split_unit.
  assert (forall p c u d, last_char p = Some c -> last_char u = Some d -> c <> d -> strip_suffix p (number +:+ u) = None) as Hother.
  { intros p c u d Hp Hu Hne. eapply strip_suffix_other; [done|by apply last_char_suffix|done]. }
  unfold units in Hin. set_unfold in Hin. destruct Hin as [[= -> ->]|[[= -> ->]|[[= -> ->]|[[= -> ->]|[]]]]].
  - by rewrite strip_suffix_app.
  - assert (strip_suffix "ms" (number +:+ "s") = None) as ->.
    { destruct (strip_suffix "ms" (number +:+ "s")) as [rest|] eqn:Heq; [|done]. apply strip_suffix_Some in Heq.
      change "ms" with ("m" +:+ "s") in Heq. rewrite <- str_app_assoc in Heq.
      assert (strip_suffix "s" ((rest +:+ "m") +:+ "s") = Some number) as H by (rewrite <- Heq; apply strip_suffix_app).
      rewrite strip_suffix_app in H. injection H as <-.
      assert (is_digit "m" = true) as Hbad; [|by vm_compute in Hbad].
      eapply numeral_last; [exact Hn|]. by apply last_char_suffix. }
    by rewrite strip_suffix_app.
  - by rewrite (Hother "ms" "s"%char "m" "m"%char), (Hother "s" "s"%char "m" "m"%char), strip_suffix_app.
  - by rewrite (Hother "ms" "s"%char "h" "h"%char), (Hother "s" "s"%char "h" "h"%char),
      (Hother "m" "m"%char "h" "h"%char), strip_suffix_app.
Qed.

(** ** Lemmas on names *)

Definition dns_label (s : string) : Prop :=
  (0 < String.length s <= 63)%nat /\ bounded_by_alphanumeric s = true
  /\ str_all (fun c => is_lower c || is_digit c || bool_decide (c = "-"%char)) s = true.

Lemma select_namespace_Ok explicit fallback namespace :
  select_namespace explicit fallback = Ok namespace -> namespace = default fallback explicit /\ dns_label namespace.
Proof.
  unfold select_namespace. destruct (_ || _) eqn:Hb; [done|]. intros [= <-]. split; [done|].
  apply orb_false_iff in Hb as [[[He Hl]%orb_false_iff Hc]%orb_false_iff Ha].
  apply negb_false_iff in Hc. apply negb_false_iff in Ha. apply Nat.ltb_ge in Hl.
  split_and!; [|done|done..]. destruct (default fallback explicit); simpl in *; [done|lia].
Qed.

(** ** Lemmas on programs *)

#[local] Open Scope list_scope.

Definition got (c : boot_call) (a : boot_answer c) (l : call_log boot_answer) : Prop := logged c a ∈ l.

(** [Ok] of a program that goes on only when its first part succeeds. *)
Lemma runs_bind_Ok {A B} (p : boot_prog (result A string)) (f : A -> boot_prog (result B string)) l b :
  runs (bind_ok p f) l (Ok b) -> exists a l1 l2, l = l1 ++ l2 /\ runs p l1 (Ok a) /\ runs (f a) l2 (Ok b).
Proof. intros ([a|e] & l1 & l2 & -> & Hp & Hf)%runs_bind_ok; [eauto 7|by destruct Hf]. Qed.

Lemma read_var_runs name l v :
  runs (read_var name) l v -> exists r, l = [logged (Var name) r] /\ v = ok r.
Proof. intros (r & l' & -> & [-> ->]). exists r. split; [done|]. by destruct r. Qed.

(** *** Store settings *)

Lemma foreign_setting_None env :
  foreign_setting env = None ->
  (is_Some (dynamodb_table env) -> store_kind env = Some "dynamodb")
  /\ (is_Some (kubernetes_resource env) \/ is_Some (kubernetes_namespace env) \/ is_Some (kubernetes_sweep env) ->
      store_kind env = Some "kubernetes").
Proof.
  unfold foreign_setting, kubernetes_setting. intros Hf. split.
  - intros Ht. apply dec_stable. intros Hk. by rewrite !bool_decide_true in Hf.
  - intros Hs. apply dec_stable. intros Hk. rewrite (bool_decide_true (store_kind env <> Some "kubernetes")) in Hf by done.
    destruct (_ && _); [done|]. simpl in Hf.
    destruct (kubernetes_resource env); [done|]. destruct (kubernetes_namespace env); [done|].
    destruct (kubernetes_sweep env); [done|]. destruct Hs as [[]|[[]|[]]]; done.
Qed.

(** What a store configuration says of the environment. *)
Definition configures (env : StoreEnv) (c : StoreConfig) : Prop :=
  match c with
  | Memory => store_kind env = None \/ store_kind env = Some "memory"
  | DynamoDb table => store_kind env = Some "dynamodb" /\ dynamodb_table env = Some table
      /\ (3 <= String.length table <= 255)%nat /\ str_all is_table_char table = true
  | Kubernetes resource namespace sweep => store_kind env = Some "kubernetes"
      /\ resource = kubernetes_resource env /\ namespace = kubernetes_namespace env
      /\ match kubernetes_sweep env with
         | None => sweep = Some DEFAULT_KUBERNETES_SWEEP
         | Some value => value = "off" /\ sweep = None \/ exists d,
             sweep = Some d /\ value <> "off" /\ parse_duration "OAUTHRELAY_STORE_KUBERNETES_SWEEP" value = Ok d
         end
  end.

Lemma select_store_Ok env c : select_store env = Ok c -> configures env c.
Proof.
  unfold select_store. destruct (store_kind env) as [kind|] eqn:Hk; [|by intros [= <-]; left].
  case_bool_decide as Hm; [intros [= <-]; right; simpl; congruence|].
  case_bool_decide as Hd.
  - destruct (dynamodb_table env) as [table|] eqn:Ht; [|done]. unfold valid_table.
    destruct (_ && _) eqn:Hv; [|done]. intros [= <-]. subst kind. apply andb_true_iff in Hv as [Hv Hc].
    apply andb_true_iff in Hv as [H3%Nat.leb_le H255%Nat.leb_le]. done.
  - case_bool_decide as Hkube; [|done]. unfold parse_sweep. subst kind.
    destruct (kubernetes_sweep env) as [value|] eqn:Hs.
    + case_bool_decide as Hoff; [intros [= <-]; simpl; rewrite Hs; split_and!; [done..|by left]|].
      destruct (parse_duration _ value) as [d|] eqn:Hp; [|done]. intros [= <-]. simpl. rewrite Hs.
      split_and!; [done..|]. right. eauto.
    + intros [= <-]. simpl. by rewrite Hs.
Qed.

(** *** Keys and URLs *)

Lemma XChaChaSealer_new_Ok cur prev s :
  XChaChaSealer_new cur prev = Ok s -> current s = cur /\ previous s = prev /\ length cur = 32%nat
    /\ (forall key, prev = Some key -> length key = 32%nat).
Proof.
  unfold XChaChaSealer_new, key_of_slice, res_bind. case_bool_decide as Hc; [|done].
  destruct prev as [key|]; [case_bool_decide as Hk; [|done]|]; intros [= <-]; simpl; (split_and!; [done..|]);
    [by intros ? [= <-]|done].
Qed.

Section Startup.
Context {U : UrlLib} {J : JsonLib} {Y : YamlLib} {BS : Base64Std}.

Definition service_url (u : url) : Prop :=
  (scheme u = "http" \/ scheme u = "https") /\ is_Some (host_str u) /\ query u = None /\ fragment u = None.

Lemma checked_url_Ok name value u : checked_url name value = Ok u -> url_parse value = Ok u /\ service_url u.
Proof.
  unfold checked_url. destruct (url_parse value) as [v|]; simpl; [|done].
  destruct (negb _ || _) eqn:H1; [done|]. destruct (bool_decide (is_Some _) || _) eqn:H2; [done|].
  intros [= <-]. split; [done|]. apply orb_false_iff in H1 as [H1 Hh]. apply orb_false_iff in H2 as [Hq Hf].
  apply bool_decide_eq_false in Hh, Hq, Hf. apply negb_false_iff, orb_true_iff in H1.
  split_and!.
  - destruct H1 as [H1|H1]; apply bool_decide_eq_true in H1; auto.
  - by apply not_eq_None_Some.
  - by apply eq_None_not_Some.
  - by apply eq_None_not_Some.
Qed.

Lemma required_url_runs name l u :
  runs (required_url name) l (Ok u) -> exists value, got (Var name) (Ok value) l /\ url_parse value = Ok u /\ service_url u.
Proof.
  intros (r & l' & -> & Hr). destruct r as [value|]; simpl in Hr; [|by destruct Hr]. destruct Hr as [-> Hu].
  symmetry in Hu. apply checked_url_Ok in Hu as [Hp Hs]. exists value. split; [by left|done].
Qed.

Lemma decode_key_Ok name value key : decode_key name value = Ok key -> length key = 32%nat.
Proof. unfold decode_key. destruct (std_decode _); [|done]. case_bool_decide; [|done]. by intros [= <-]. Qed.

Lemma seal_key_runs name required l k :
  runs (seal_key name required) l (Ok k) -> match k with
    | Some key => exists value, got (Var name) (Ok value) l /\ decode_key name value = Ok key
    | None => required = false /\ exists e, got (Var name) (Err e) l
    end.
Proof.
  intros (r & l' & -> & [-> Hk]). destruct r as [value|e].
  - destruct (decode_key name value) as [key|] eqn:Hd; [|done]. injection Hk as ->. exists value. split; [by left|done].
  - destruct required; [done|]. injection Hk as ->. split; [done|]. exists e. by left.
Qed.

(** *** Stores and providers *)

(** What an opened store says of the environment and the cluster. *)
Definition opened (l : call_log boot_answer) (s : ConfiguredStore) : Prop :=
  match s with
  | MemoryStore => True
  | DynamoDbStore table => (3 <= String.length table <= 255)%nat /\ str_all is_table_char table = true
      /\ got (Var "OAUTHRELAY_STORE_DYNAMODB_TABLE") (Ok table) l
  | KubernetesStore mapping namespace sweeper => dns_label namespace
      /\ got (ProbeStore mapping namespace) (Ok tt) l /\ got (VarOs "AWS_LAMBDA_RUNTIME_API") false l
      /\ (mapping = DexAuthCode -> got (Var "OAUTHRELAY_STORE_KUBERNETES_NAMESPACE") (Ok namespace) l)
      /\ (forall d, sweeper = Some d -> (0 < d)%Z)
  end.

Lemma open_kubernetes_runs resource namespace sweep l s :
  runs (open_kubernetes resource namespace sweep) l (Ok s) -> exists mapping target,
    s = KubernetesStore mapping target sweep /\ dns_label target /\ got (ProbeStore mapping target) (Ok tt) l
    /\ (mapping = DexAuthCode -> namespace = Some target).
Proof.
  unfold open_kubernetes. destruct (kubernetes_mapping resource) as [mapping|]; [|by intros [_ ?]].
  intros (fallback & l1 & l2 & -> & _ & Hr)%runs_bind_Ok.
  apply runs_bind_Ok in Hr as (enabled & l3 & l4 & -> & _ & Hr).
  apply runs_bind in Hr as (pns & l5 & l6 & -> & _ & Hr).
  destruct (kubernetes_store_namespace mapping namespace pns fallback) as [target|] eqn:Hns; [|by destruct Hr].
  apply runs_bind_Ok in Hr as (u & l7 & l8 & -> & _ & Hr).
  apply runs_bind_Ok in Hr as (u' & l9 & l10 & -> & Hp & [-> [= ->]]).
  destruct Hp as (x & l11 & -> & -> & <-). exists mapping, target. unfold kubernetes_store_namespace in Hns.
  destruct (needs_explicit_namespace mapping && bool_decide (namespace = None)) eqn:Hx; [done|].
  apply select_namespace_Ok in Hns as [Ht Hd]. split_and!; [done..| |].
  - destruct u'. unfold got. set_solver.
  - intros ->. apply andb_false_iff in Hx as [Hx|Hx%bool_decide_eq_false]; [done|].
    destruct namespace as [n|]; [|done]. simpl in Ht. by subst.
Qed.

Lemma parse_duration_positive name value d : parse_duration name value = Ok d -> (0 < d)%Z.
Proof.
  unfold parse_duration. destruct (split_unit value) as [[number mult]|] eqn:Hs; [|done].
  destruct (context _ _) as [v|] eqn:Hc; [|done]. destruct (u64_max <? _)%Z; [done|].
  destruct (_ =? 0)%Z eqn:Hz; [done|]. intros [= <-]. apply Z.eqb_neq in Hz.
  destruct (parse_u64 number) as [v'|] eqn:Hp; simpl in Hc; [|done]. injection Hc as ->.
  apply parse_u64_Ok in Hp as (digits & _ & -> & _). pose proof (decimal_mono 0 digits).
  apply split_unit_Some in Hs as (unit & Hin & _). unfold units in Hin. set_unfold in Hin. unfold from_millis in *.
  destruct Hin as [[= -> ->]|[[= -> ->]|[[= -> ->]|[[= -> ->]|[]]]]]; lia.
Qed.

Lemma configured_store_runs l s : runs configured_store l (Ok s) -> opened l s.
Proof.
  unfold configured_store. intros (kind & l1 & l2 & -> & _ & Hr)%runs_bind.
  apply runs_bind in Hr as (table & l3 & l4 & -> & (rt & -> & ->)%read_var_runs & Hr).
  apply runs_bind in Hr as (resource & l5 & l6 & -> & _ & Hr).
  apply runs_bind in Hr as (namespace & l7 & l8 & -> & (rn & -> & ->)%read_var_runs & Hr).
  apply runs_bind in Hr as (sweep & l9 & l10 & -> & _ & Hr).
  destruct (parse_store_config _) as [config|] eqn:Hp; [|by destruct Hr].
  unfold parse_store_config in Hp. destruct (foreign_setting _); [done|]. apply select_store_Ok in Hp.
  apply runs_bind in Hr as (lambda & l11 & l12 & -> & Hl & Hr). destruct Hl as (x & l0 & -> & -> & <-).
  destruct (reject_kubernetes_on_lambda config lambda) as [u|] eqn:Hrej; [|by destruct Hr].
  destruct config as [|tbl|res ns sw].
  - apply runs_bind in Hr as (b & l13 & l14 & -> & _ & [-> [= ->]]). done.
  - apply runs_bind in Hr as (b & l13 & l14 & -> & _ & [-> [= ->]]). destruct Hp as (_ & Ht & Hlen & Hchars).
    simpl in Ht |- *. split_and!; [lia..|done|]. destruct rt; simplify_eq/=. unfold got. set_solver.
  - destruct Hp as (_ & _ & Hns & Hsw). simpl in Hns, Hsw. unfold reject_kubernetes_on_lambda in Hrej.
    destruct lambda; [done|]. destruct (open_kubernetes_runs _ _ _ _ _ Hr) as (mapping & target & -> & Hd & Hprobe & Hdex).
    simpl. split_and!; [apply Hd..| | | |].
    + unfold got in *. set_solver.
    + unfold got. set_solver.
    + intros Hm. specialize (Hdex Hm). subst ns. destruct rn; simplify_eq/=. unfold got. set_solver.
    + intros d Hd'. destruct sweep as [value|]; simpl in Hsw.
      * destruct Hsw as [[_ ->]|(d' & -> & _ & Hpd)]; [done|]. injection Hd' as ->. by eapply parse_duration_positive.
      * subst sw. by injection Hd' as <-.
Qed.

Lemma one_provider_lawful p : LawfulProvider p -> Forall LawfulProvider [p].
Proof. by constructor. Qed.

Lemma configured_providers_lawful l ps : runs configured_providers l (Ok ps) -> Forall LawfulProvider ps.
Proof.
  unfold configured_providers. intros (path & l1 & l2 & -> & _ & Hr)%runs_bind.
  apply runs_bind in Hr as (prefix & l3 & l4 & -> & _ & Hr). apply runs_bind in Hr as (u & l5 & l6 & -> & _ & Hr).
  apply runs_bind_Ok in Hr as (files & l7 & l8 & -> & Hf & Hr).
  apply runs_bind_Ok in Hr as (ssm & l9 & l10 & -> & Hs & Hr).
  apply runs_bind_Ok in Hr as (kube & l11 & l12 & -> & Hk & [_ [= ->]]).
  apply Forall_app; split; [|apply Forall_app; split].
  - unfold file_from_env in Hf. destruct path; [|destruct Hf as [_ [= ->]]; constructor].
    apply runs_bind_Ok in Hf as (poll & l13 & l14 & -> & _ & Hf). destruct (FileProvider_new _ _); [|by destruct Hf].
    destruct Hf as [_ [= ->]]. apply one_provider_lawful, file_lawful.
  - unfold ssm_from_env in Hs. destruct prefix; [|destruct Hs as [_ [= ->]]; constructor].
    apply runs_bind_Ok in Hs as (poll & l13 & l14 & -> & _ & Hs). destruct (SsmProvider_new _ _); [|by destruct Hs].
    destruct Hs as [_ [= ->]]. apply one_provider_lawful, ssm_lawful.
  - unfold kubernetes_from_env in Hk. apply runs_bind_Ok in Hk as (enabled & l13 & l14 & -> & _ & Hk).
    destruct enabled; cbn [negb] in Hk; [|destruct Hk as [_ [= ->]]; constructor].
    apply runs_bind_Ok in Hk as (fallback & l15 & l16 & -> & _ & Hk).
    apply runs_bind in Hk as (explicit & l17 & l18 & -> & _ & Hk). destruct (select_namespace _ _); [|by destruct Hk].
    apply runs_bind_Ok in Hk as (v & l19 & l20 & -> & _ & Hk). apply runs_bind_Ok in Hk as (refresh & l21 & l22 & -> & _ & Hk).
    destruct (KubernetesProvider_new _ _); [|by destruct Hk].
    destruct Hk as [_ [= ->]]. apply one_provider_lawful, kube_lawful.
Qed.

(** ** Properties *)

(** C34: Durations. [parse_duration] accepts exactly a decimal number with one of the units ms, s, m and
    h whose product is positive and fits 64 bits of milliseconds, and reads it as that many
    nanoseconds; so nothing wraps around, and no interval is zero. *)
Theorem parse_duration_accepts name value d :
  parse_duration name value = Ok d <-> exists number digits unit multiplier,
    (unit, multiplier) ∈ units /\ numeral number digits /\ value = number +:+ unit
    /\ d = from_millis (decimal 0 digits * multiplier) /\ (0 < decimal 0 digits * multiplier <= u64_max)%Z.
Proof.
  assert (forall unit multiplier, (unit, multiplier) ∈ units -> (1 <= multiplier)%Z) as Hm.
  { intros unit mult Hin. unfold units in Hin. set_unfold in Hin.
    destruct Hin as [[= -> ->]|[[= -> ->]|[[= -> ->]|[[= -> ->]|[]]]]]; lia. }
  unfold parse_duration. split.
  - destruct (split_unit value) as [[number mult]|] eqn:Hs; [|done]. apply split_unit_Some in Hs as (unit & Hin & ->).
    destruct (parse_u64 number) as [v|] eqn:Hp; simpl; [|done]. apply parse_u64_Ok in Hp as (digits & Hn & -> & Hle).
    destruct (u64_max <? _)%Z eqn:Hb; [done|]. destruct (_ =? 0)%Z eqn:Hz; [done|]. intros [= <-].
    apply Z.ltb_ge in Hb. apply Z.eqb_neq in Hz. pose proof (decimal_mono 0 digits). specialize (Hm _ _ Hin).
    exists number, digits, unit, mult. split_and!; [done..| |done]. unfold from_millis in Hz. nia.
  - intros (number & digits & unit & mult & Hin & Hn & -> & -> & Hpos & Hle). specialize (Hm _ _ Hin).
    rewrite (split_unit_numeral _ _ _ _ Hn Hin).
    assert (parse_u64 number = Ok (decimal 0 digits)) as ->
      by (apply parse_u64_Ok; exists digits; split_and!; [apply Hn..|done|pose proof (decimal_mono 0 digits); nia]).
    simpl. assert ((u64_max <? decimal 0 digits * mult)%Z = false) as -> by (by apply Z.ltb_ge).
    assert ((from_millis (decimal 0 digits * mult) =? 0)%Z = false) as ->; [|done].
    apply Z.eqb_neq. unfold from_millis. lia.
Qed.

(** Settings of a store that is not selected are refused. When the store's settings are accepted,
    none belongs to another backend than the selected one, the configuration is what the selected
    backend's settings say, a DynamoDB table is there and has the form of a table name, and a sweep
    interval is the default, off, or a duration that parses. *)
Theorem store_settings_refused env c :
  parse_store_config env = Ok c ->
  (is_Some (dynamodb_table env) -> store_kind env = Some "dynamodb")
  /\ (is_Some (kubernetes_resource env) \/ is_Some (kubernetes_namespace env) \/ is_Some (kubernetes_sweep env) ->
      store_kind env = Some "kubernetes")
  /\ configures env c.
Proof.
  unfold parse_store_config. destruct (foreign_setting env) eqn:Hf; [done|].
  intros Hc%select_store_Ok. destruct (foreign_setting_None env Hf). done.
Qed.

(** C33: Startup checks what it is given. Whatever the environment, credentials and cluster answer, when
    startup succeeds: the public URL is an http or https URL with a host and without query or
    fragment, as its variable has it; the sealing keys have 32 bytes and come from their variables,
    and there is a previous one only if its variable is set; there is a provider, and all of them
    are lawful; a Kubernetes store is never opened on Lambda, has answered its probe, is in a
    namespace that is a DNS label, for Dex the one that is named explicitly, and sweeps at a positive
    interval if at all; a DynamoDB store has the table of its variable. *)
Theorem startup_checked l s :
  runs startup l (Ok s) ->
  service_url (public_url s)
  /\ (exists value, got (Var "OAUTHRELAY_PUBLIC_URL") (Ok value) l /\ url_parse value = Ok (public_url s))
  /\ length (current (sealer s)) = 32%nat
  /\ (exists value, got (Var "OAUTHRELAY_SEAL_KEY") (Ok value) l
       /\ decode_key "OAUTHRELAY_SEAL_KEY" value = Ok (current (sealer s)))
  /\ match previous (sealer s) with
     | Some key => length key = 32%nat /\ exists value, got (Var "OAUTHRELAY_SEAL_KEY_PREVIOUS") (Ok value) l
         /\ decode_key "OAUTHRELAY_SEAL_KEY_PREVIOUS" value = Ok key
     | None => exists e, got (Var "OAUTHRELAY_SEAL_KEY_PREVIOUS") (Err e) l
     end
  /\ providers s <> [] /\ Forall LawfulProvider (providers s)
  /\ opened l (store s).
Proof.
  unfold startup. intros (u & l1 & l2 & -> & Hu & Hr)%runs_bind_Ok.
  apply runs_bind_Ok in Hr as (cur & l3 & l4 & -> & Hcur & Hr).
  apply runs_bind_Ok in Hr as (prev & l5 & l6 & -> & Hprev & Hr).
  destruct (XChaChaSealer_new cur prev) as [sl|] eqn:Hsl; cbn [map_err] in Hr; [|by destruct Hr].
  apply XChaChaSealer_new_Ok in Hsl as (Hc & Hp & Hlen & Hplen).
  apply runs_bind_Ok in Hr as (ps & l7 & l8 & -> & Hps & Hr).
  destruct ps as [|p ps]; [by destruct Hr|].
  apply runs_bind_Ok in Hr as (st & l9 & l10 & -> & Hst & Hr).
  apply runs_bind_Ok in Hr as (b1 & l11 & l12 & -> & _ & Hr).
  apply runs_bind_Ok in Hr as (b2 & l13 & l14 & -> & _ & [-> [= ->]]). cbn [public_url sealer providers store].
  destruct (required_url_runs _ _ _ Hu) as (uv & Huv & Hparse & Hservice).
  apply configured_providers_lawful in Hps. apply configured_store_runs in Hst. apply seal_key_runs in Hprev.
  unfold required_key in Hcur. apply runs_bind_Ok in Hcur as (k & l15 & l16 & -> & Hk & [-> Hok]).
  apply seal_key_runs in Hk. destruct k as [key|]; [|by destruct Hk]. injection Hok as ->.
  destruct Hk as (kv & Hkv & Hdec). rewrite Hc, Hp. unfold got in *.
  split_and!; [done|exists uv; split; [set_solver|done]|done|exists kv; split; [set_solver|done]| |done..|].
  - destruct prev as [k|]; [|destruct Hprev as (_ & e & He); exists e; set_solver].
    split; [by apply Hplen|]. destruct Hprev as (pv & Hpv & Hd). exists pv. split; [set_solver|done].
  - destruct st as [|table|m ns sw]; simpl in *; unfold got in *; [done|set_solver|].
    destruct Hst as (? & ? & ? & Hdex & ?). split_and!; [done|set_solver|set_solver| |done].
    intros Hm. specialize (Hdex Hm). set_solver.
Qed.
End Startup.

(** ** An environment *)

Module StartupExample.
Import PlainUrl.
#[local] Existing Instance SecretsExample.no_json.
#[local] Existing Instance ProvidersExample.plain_yaml.
#[local] Existing Instance PlainForm.std.

Definition environment : list (string * string) := [
  ("OAUTHRELAY_PUBLIC_URL", "https://relay.example");
  ("OAUTHRELAY_SEAL_KEY", "base64:" +:+ PlainSeal.hex (replicate 32 "A"%byte));
  ("OAUTHRELAY_PROVIDER_FILE", "/etc/oauthrelay/config.yaml");
  ("OAUTHRELAY_PROVIDER_FILE_POLL", "5s");
  ("OAUTHRELAY_STORE", "kubernetes");
  ("OAUTHRELAY_STORE_KUBERNETES_RESOURCE", "authcodes.dex.coreos.com");
  ("OAUTHRELAY_STORE_KUBERNETES_NAMESPACE", "dex");
  ("OAUTHRELAY_STORE_KUBERNETES_SWEEP", "2m")].

Definition answer (env : list (string * string)) (c : boot_call) : option (boot_answer c * list (string * string)) :=
  Some (match c return boot_answer c with
        | Var name => match List.find (fun v => bool_decide (v.1 = name)) env with
                      | Some v => Ok v.2
                      | None => Err "environment variable not found"
                      end
        | VarOs name => bool_decide (name = "KUBERNETES_SERVICE_HOST")
        | LoadAwsConfig => tt
        | LoadKubeConfig _ => Ok "default"
        | ConnectKube | ProbeStore _ _ => Ok tt
        end, env).

Example durations :
  parse_duration "x" "250ms" = Ok (from_millis 250) /\ parse_duration "x" "+2h" = Ok (from_secs 7200)
  /\ is_ok (parse_duration "x" "0s") = false /\ is_ok (parse_duration "x" "1d") = false
  /\ is_ok (parse_duration "x" "18446744073709551615ms") = true
  /\ is_ok (parse_duration "x" "18446744073709551616ms") = false
  /\ is_ok (parse_duration "x" "18446744073709551615s") = false.
Proof. repeat split; vm_compute; reflexivity. Qed.

Example names :
  select_namespace None "apps" = Ok "apps" /\ is_ok (select_namespace (Some "-apps") "x") = false
  /\ is_ok (select_namespace (Some "") "x") = false
  /\ debug ("a" +:+ String "034" (String "007" "")) = String "034" ("a\" +:+ String "034" ("\u{7}" +:+ String "034" "")).
Proof. repeat split; vm_compute; reflexivity. Qed.

Lemma parse_duration_accepts_witness : exists number digits unit multiplier,
  (unit, multiplier) ∈ units /\ numeral number digits /\ "90s" = number +:+ unit
  /\ from_secs 90 = from_millis (decimal 0 digits * multiplier) /\ (0 < decimal 0 digits * multiplier <= u64_max)%Z.
Proof. apply (proj1 (parse_duration_accepts "OAUTHRELAY_PROVIDER_FILE_POLL" "90s" (from_secs 90))). vm_compute. reflexivity. Defined.

Definition dynamo_env : StoreEnv := {|
  store_kind := Some "dynamodb"; dynamodb_table := Some "relay-codes"; kubernetes_resource := None;
  kubernetes_namespace := None; kubernetes_sweep := None |}.

Lemma store_settings_refused_witness : configures dynamo_env (DynamoDb "relay-codes").
Proof. refine (proj2 (proj2 (store_settings_refused dynamo_env (DynamoDb "relay-codes") _))). vm_compute. reflexivity. Defined.

Example foreign_settings :
  is_ok (parse_store_config {| store_kind := Some "memory"; dynamodb_table := Some "relay-codes"; kubernetes_resource := None;
                               kubernetes_namespace := None; kubernetes_sweep := None |}) = false
  /\ is_ok (parse_store_config {| store_kind := None; dynamodb_table := None; kubernetes_resource := None;
                                  kubernetes_namespace := None; kubernetes_sweep := Some "off" |}) = false.
Proof. split; vm_compute; reflexivity. Qed.

Definition started : option (Settings * call_log boot_answer) :=
  '(r, _, l) ← log_run answer startup environment; s ← ok r; Some (s, l).

Lemma started_runs : exists s l, started = Some (s, l) /\ runs startup l (Ok s).
Proof.
  assert (match started with Some _ => true | None => false end = true) as Hok by (vm_compute; reflexivity).
  destruct started as [[s l]|] eqn:Hs; [|done]. exists s, l. split; [done|]. unfold started in Hs.
  apply bind_Some in Hs as ([[r w] l'] & Hl & Hs). apply bind_Some in Hs as (s' & Hr & [= -> ->]).
  destruct r as [s0|]; [|done]. injection Hr as ->. by eapply log_run_runs.
Qed.

Lemma startup_checked_witness : exists s l, started = Some (s, l)
  /\ length (current (sealer s)) = 32%nat /\ Forall LawfulProvider (providers s) /\ opened l (store s).
Proof.
  destruct started_runs as (s & l & Heq & Hr). exists s, l.
  destruct (startup_checked l s Hr) as (_ & _ & Hlen & _ & _ & _ & Hl & Ho).
  split; [exact Heq|]. split; [exact Hlen|]. split; [exact Hl|exact Ho].
Defined.
End StartupExample.
