(* ===== verification/Service.v ===== *)
(** * Service: the router on the configuration the process serves

    Composes [Process] with [Router]: [dispatch] resolves relays and upstreams from the registry,
    which the provider tasks replace while requests are answered, so that the two lookups of one
    request may read two snapshots. *)

From S2P Require Import Prelude Text Json Url Model Layout Resolver Store Seal Prog Effects RefreshHandle Rotation Requests Jwt Web Flows Grants RotationSafety Router Secrets Providers Process Scenario.
#[local] Open Scope string_scope.
#[local] Open Scope prog_scope.

Section Service.
Context {U : UrlLib} {L : PathLayout} {J : JsonLib} {HL : HeaderLib} {F : FormLib}.
Context {SH : Sha256} {SH2 : Sha2} {B : Base64} {BS : Base64Std} {JW : JwtLib}.
Context {PF : Postcard FlowEnvelope} {PC : Postcard CodeEnvelope}.
Context {PH : Postcard OpenedHandle} {PR : Postcard HandleRecord} {PS : Postcard StoredResponse}.

(** ** The configuration of a process *)

Record Deployment := {
  d_providers : list ConfigProvider;
  d_options : RedirectOptions;
  d_lambda : option Duration;
  d_bounds : nat * nat * nat;     (* pages, passes and rounds of the unrolled loops *)
}.

(** The states the tasks of a deployment reach. *)
Definition reaches (d : Deployment) (w : world) : Prop :=
  let '(pages, passes, rounds) := d_bounds d in
  exists ts, reachable handle (fun _ _ => False)
    (world_new (length (d_providers d)),
     tasks (d_providers d) (d_options d) (d_lambda d) pages passes rounds) (w, ts).

(** The snapshots that requests are answered from, and those they were answered from first. *)
Definition serves (d : Deployment) (s : ProviderSnapshot) : Prop :=
  exists w, reaches d w /\ is_Some (served w) /\ registry w = s.
Definition serves_first (d : Deployment) (s : ProviderSnapshot) : Prop :=
  exists w, reaches d w /\ served w = Some s.

(** Each lookup of a run was answered by a registry that was served, not always the same. *)
Definition resolved (P : ProviderSnapshot -> Prop) (c : {e : reff & rans e}) : Prop :=
  match c with
  | existT (ResolveRelay key) a => exists s, P s /\ a = resolve_relay s key
  | existT (ResolveUpstream key) a => exists s, P s /\ a = resolve_upstream s key
  | _ => True
  end.

Definition resolved_by (P : ProviderSnapshot -> Prop) (l : call_log rans) : Prop := Forall (resolved P) l.

Lemma serves_valid d s : Forall LawfulProvider (d_providers d) -> serves d s -> ValidSnapshot s.
Proof.
  intros Hl (w & Hw & _ & <-). unfold reaches in Hw. destruct (d_bounds d) as [[pages passes] rounds].
  destruct Hw as [ts Hw]. by destruct (process_inv _ _ _ _ _ _ _ _ Hl Hw).
Qed.

Lemma serves_first_permitted d s :
  Forall LawfulProvider (d_providers d) -> serves_first d s -> permitted_by (d_options d) s.
Proof.
  intros Hl (w & Hw & Hs). unfold reaches in Hw. destruct (d_bounds d) as [[pages passes] rounds].
  destruct Hw as [ts Hw]. destruct (process_inv _ _ _ _ _ _ _ _ Hl Hw) as [_ _ Hp].
  by destruct (Hp s Hs) as (_ & Hpb & _).
Qed.

(** ** Requests *)

Section Requests.
Context (d : Deployment) (cfg : RelayConfig).

(** What [dispatch_callback] does with an upstream that is valid. *)
Definition on_callback (request : HttpIn) (u : Upstream) : rio Resp :=
  match in_method request with
  | GET =>
      match parse_callback_request (in_query request) with
      | Ok q => callback cfg u q
      | Err _ => Ret (bare 400)
      end
  | _ => Ret (bare 405)
  end.

(** A request for a relay, on a relay looked up in [s]. *)
Definition answered_for (request : HttpIn) (e : Endpoint) (l : call_log rans) (resp : Resp)
    (s : ProviderSnapshot) (r : Relay) : Prop :=
  Model.validate r = Ok tt /\ is_Some (upstreams s !! relay_upstream r)
  /\ (redirect cfg = d_options d -> serves_first d s -> validate_for r (redirect cfg) = Ok tt)
  /\ exists s', serves d s' /\
     match upstreams s' !! relay_upstream r with
     | Some u =>
         validate_upstream u = Ok tt
         /\ if is_ok (validate_for r (redirect cfg)) then runs (handle_endpoint cfg request e r u) (drop 2 l) resp
            else resp = endpoint_error e 500 "server_error" "relay configuration is invalid"
     | None => s' <> s /\ resp = endpoint_error e 500 "server_error" "relay upstream is unavailable"
     end.

Lemma callback_configured request key l resp :
  Forall LawfulProvider (d_providers d) -> resolved_by (serves d) l ->
  runs (dispatch_callback cfg request key) l resp ->
  exists s, serves d s /\
    match upstreams s !! key with
    | Some u => validate_upstream u = Ok tt /\ runs (on_callback request u) (tail l) resp
    | None => resp = bare 404
    end.
Proof.
  intros Hl Hres (a & l' & -> & Hr). apply Forall_cons in Hres as [(s & Hs & ->) _].
  exists s. split; [done|]. simpl in Hr. destruct (upstreams s !! key) as [u|] eqn:Hu; [|by destruct Hr].
  pose proof (valid_upstreams _ (serves_valid _ _ Hl Hs) _ _ Hu) as Hv. rewrite Hv in Hr. done.
Qed.

Lemma relay_configured request e key l resp :
  Forall LawfulProvider (d_providers d) -> resolved_by (serves d) l ->
  runs (dispatch_relay cfg request e key) l resp ->
  exists s, serves d s /\
    match relays s !! key with
    | Some r => answered_for request e l resp s r
    | None => resp = endpoint_error e 404 "invalid_request" "unknown relay"
    end.
Proof.
  intros Hl Hres (a & l1 & -> & Hr). apply Forall_cons in Hres as [(s & Hs & ->) Hres].
  exists s. split; [done|]. simpl in Hr. destruct (relays s !! key) as [r|] eqn:Hrel; [|by destruct Hr].
  destruct Hr as (a & l2 & -> & Hr). apply Forall_cons in Hres as [(s' & Hs' & ->) _].
  pose proof (serves_valid _ _ Hl Hs) as Hv. pose proof (serves_valid _ _ Hl Hs') as Hv'.
  pose proof (valid_refs _ Hv _ _ Hrel) as Hup. simpl in Hr.
  split; [by apply (valid_relays _ Hv key)|]. split; [done|]. split.
  { intros -> Hf. by apply (serves_first_permitted d s Hl Hf key). }
  exists s'. split; [done|]. destruct (upstreams s' !! relay_upstream r) as [u|] eqn:Hu.
  - split; [by apply (valid_upstreams _ Hv' _ _ Hu)|]. destruct (is_ok _); [done|]. by destruct Hr.
  - destruct Hr as [_ ->]. split; [|done]. intros ->. rewrite Hu in Hup. by destruct Hup.
Qed.

(** ** Properties *)

(** C27: requests see valid configuration only. While lawful providers publish and the process
    replaces its registry, whatever a request asks and however its lookups fall between the
    replacements: an unknown key is answered 404; a callback is handled at an upstream that is
    valid; any other endpoint is handled with a relay that is valid and with its upstream, which is
    valid too. A configuration error is answered in two cases only: the registry was replaced
    between the two lookups and the new one no longer has the upstream, or the relay does not pass
    the router's redirect options, which never happens to a relay of the configuration the process
    started with when the router has the options the process checked. *)
Theorem requests_see_valid_configuration request l resp :
  Forall LawfulProvider (d_providers d) -> resolved_by (serves d) l ->
  runs (dispatch cfg request) l resp ->
  match route cfg (in_path request) with
  | None => resp = bare 404 /\ l = []
  | Some (Callback, key) =>
      exists s, serves d s /\
        match upstreams s !! key with
        | Some u => validate_upstream u = Ok tt /\ runs (on_callback request u) (tail l) resp
        | None => resp = bare 404
        end
  | Some (e, key) =>
      exists s, serves d s /\
        match relays s !! key with
        | Some r => answered_for request e l resp s r
        | None => resp = endpoint_error e 404 "invalid_request" "unknown relay"
        end
  end.
Proof.
  intros Hl Hres. unfold dispatch. destruct (route cfg (in_path request)) as [[e key]|].
  - destruct e; [|by apply callback_configured|..]; by apply relay_configured.
  - by intros [-> ->].
Qed.
End Requests.
End Service.

(** ** The scenario's relay, published by a provider *)

Module ServiceExample.
Import PlainUrl PlainSeal PlainCodec PlainForm RotationSafety.Example Scenario.Scenario.

Definition published_snapshot : ProviderSnapshot := {|
  upstreams := {[up_key upstream := upstream]};
  relays := {[relay_key relay := relay]};
|}.

Definition fixed_provider : ConfigProvider := {|
  provider_name := "fixed";
  load _ := Ret (Some (Ok published_snapshot));
  run _ _ := _ <- call (Send published_snapshot) ;; Ret (Stopped (Ok tt));
|}.

Lemma published_valid : ValidSnapshot published_snapshot.
Proof. apply validate_snapshot_ok. vm_compute. reflexivity. Qed.

#[export] Instance fixed_lawful : LawfulProvider fixed_provider.
Proof.
  split; simpl.
  - intros _ l s [_ [= ->]]. exact published_valid.
  - intros _ _. split; [exact published_valid|done].
Qed.

Definition deployment : Deployment := {|
  d_providers := [fixed_provider]; d_options := redirect_options_default; d_lambda := None;
  d_bounds := (1, 1, 2)%nat;
|}.

(** The provider publishes; then the main task serves. *)
Definition service_world : option (result unit string * Process.world) :=
  '(_, w) ← Prog.run (ProcessExample.step 0) (provider_task fixed_provider 1 1) (world_new 1);
  Prog.run (ProcessExample.step 1) (serve (d_providers deployment) (d_options deployment) None 1 2) w.

Definition current : ProviderSnapshot :=
  match service_world with Some (_, w) => registry w | None => snapshot_default end.

Lemma current_served : serves deployment current.
Proof.
  assert (match service_world with Some (_, w) => bool_decide (is_Some (served w)) | None => false end = true) as Hok
    by (vm_compute; reflexivity).
  unfold current. destruct service_world as [[r2 w2]|] eqn:H2; [|done]. unfold service_world in H2.
  apply bind_Some in H2 as ([r1 w1] & H1 & H2). apply bool_decide_eq_true in Hok.
  exists w2. split; [|done]. eexists. etrans.
  - eapply (run_reachable (ProcessExample.step 0)); [apply ProcessExample.step_handle|exact H1|done].
  - eapply (run_reachable (ProcessExample.step 1)); [apply ProcessExample.step_handle|exact H2|done].
Qed.

(** A preflight request at the token endpoint of the relay. *)
Definition preflight_request : HttpIn := {|
  in_method := OPTIONS; in_path := "/oauth/relay/app/token"; in_query := None; in_headers := []; in_body := None;
|}.

Example preflight_route : route cfg (in_path preflight_request) = Some (Token, relay_key relay).
Proof. vm_compute. reflexivity. Qed.

Definition lookups : call_log rans := [
  logged (ResolveRelay (relay_key relay)) (Ok (Some relay));
  logged (ResolveUpstream (up_key upstream)) (Ok (Some upstream)) ].

Lemma lookups_resolved : resolved_by (serves deployment) lookups.
Proof.
  assert (resolve_relay current (relay_key relay) = Ok (Some relay)) as Hr by reflexivity.
  assert (resolve_upstream current (up_key upstream) = Ok (Some upstream)) as Hu by reflexivity.
  repeat constructor; exists current; (split; [exact current_served|by symmetry]).
Qed.

Lemma requests_see_valid_configuration_witness : exists s r,
  serves deployment s /\ relays s !! relay_key relay = Some r
  /\ answered_for deployment cfg preflight_request Token lookups (preflight cfg relay []) s r.
Proof.
  assert (runs (dispatch cfg preflight_request) lookups (preflight cfg relay [])) as Hruns
    by (exists (Ok (Some relay)), (tail lookups); split; [reflexivity|];
        exists (Ok (Some upstream)), []; split; [reflexivity|]; split; reflexivity).
  assert (Forall LawfulProvider (d_providers deployment)) as Hl by (constructor; [exact fixed_lawful|constructor]).
  pose proof (requests_see_valid_configuration deployment cfg _ _ _ Hl lookups_resolved Hruns) as H.
  rewrite preflight_route in H. destruct H as (s & Hs & H). exists s.
  destruct (relays s !! relay_key relay) as [r|]; [by exists r|].
  exfalso. vm_compute in H. discriminate H.
Defined.
End ServiceExample.
